(* ===== verification/_CoqProject ===== *)
-Q . S2P
Prelude.v
SsrLia.v
Role.v
Constants.v
PolyOps.v
Structure.v
Lagrange.v
LagrangeStore.v
Gao.v
Matrix.v
Bivariate.v
Shamir.v
ErrorCorrection.v
Hensel.v
Karatsuba.v
ResiduePoly.v
ResidueRing.v
GaloisRing.v
Gf8.v
Decoding.v
Degrees.v
Generators.v
Newton.v
Open.v
OpenList.v
Protocol.v
Triples.v
BitOps.v
BitRows.v
BitAdder.v
BitDec.v
BitLift.v
GenBits.v
Distributions.v
Reconstruct.v
Decrypt.v
Decryption.v
OnlineRing.v
OnlineExamples.v
Prf.v
Prss.v
PrssProps.v
SmallOffline.v
SmallOfflineProps.v
PrssCheck.v
PrssCheckProps.v
SmallRobust.v
AgreeRandom.v
AgreeRandomProps.v
PrssRing.v
SmallDecrypt.v
PrssExamples.v
RobustExamples.v
AgreeExamples.v
Sync.v
Broadcast.v
BroadcastCount.v
BroadcastProps.v
BroadcastExamples.v
MetaStore.v
MetaStoreSystem.v
MetaStoreProps.v
