(* ===== verification/Prelude.v ===== *)
(** * Verification of the Zama KMS

    The KMS is a key management service for fully homomorphic encryption whose
    keys are shared between parties.  A service (core/service) takes requests and
    keeps their state in a meta store; the requests run protocols of the threshold
    engine (core/threshold-execution) between the parties of a session; and the
    protocols compute with Shamir shares over Galois rings, extensions of the
    integers modulo [2^64] and [2^128] (core/threshold-algebra).  This development
    models the algebra with its decoders, the robust opening of shared values, reliable
    broadcast, pseudorandom secret sharing with the offline phase built on it, the
    online phase with both methods of threshold decryption, and the meta store, and
    proves them right.  All the source names below are under src/.

    ** Files

    Common ground.  [Prelude] has the outcomes of Rust code ([Ok], [Err], a panic,
    exhausted fuel) with the notation [let*] of the [?] operator and the loops that
    can fail.  [SsrLia] is linear arithmetic for the MathComp files.  [Role]
    (core/threshold-types/src/role.rs) are the indices of parties, [Constants]
    (core/threshold-execution/src/constants.rs) the constants of the protocols.

    Algebra (core/threshold-algebra/src).  [PolyOps] (poly.rs) are polynomials as
    vectors of coefficients; [Structure] (structure_traits.rs) the classes of rings
    with exceptional sequences; [Lagrange] and [LagrangeStore] (poly.rs,
    galois_fields/lagrange.rs) interpolation and its store of bases; [Gao] (poly.rs)
    the decoder of Reed-Solomon codes; [Matrix] and [Bivariate] (matrix.rs,
    bivariate.rs); [Shamir] (sharing/share.rs, sharing/shamir.rs) shares and
    reconstruction; [ErrorCorrection] and [Hensel] (error_correction.rs) decoding
    over fields, and over Galois rings bit by bit; [Karatsuba] (galois_rings/utils.rs)
    products; [ResiduePoly], [ResidueRing], [GaloisRing], [Degrees], [Generators] and
    [Newton] (galois_rings/common.rs, degree_3.rs to degree_8.rs, galois_fields) the
    extensions: arrays of coefficients with their reduction tables, their relation
    to the quotient ring, slices and lifts of bits, serialization, inversion and
    solving; [Gf8] an instance of the residue field; [Decoding] the decoders of the
    rings of the program, and the round trip of sharing and reconstruction.

    Opening (core/threshold-execution/src/sharing/open.rs).  [Open] is the loop that
    collects answers in their order of arrival and tries to reconstruct, with the
    bookkeeping of bots and both network modes; [OpenList] the opening of a list to all
    parties, in chunks that fit in a message.

    Online phase (core/threshold-execution/src/online).  [Protocol] has programs of a
    party that compute locally and open vectors of shares, and their joint
    executions in a session; [Triples] (triple.rs, preprocessing) multiplication and the stores
    of triples, random values and bits; [BitOps], with its theory in [BitRows],
    [BitAdder] and [BitDec], (bit_manipulation.rs) shared bits, the binary adder,
    decomposition and extraction; [BitLift] (bit_lift.rs) the lift from 64 to 128
    bits; [GenBits] (gen_bits.rs) random bits; [Distributions]
    (secret_distributions.rs) noise and the masks of noise flooding; [OnlineRing] the
    instances of what these files ask of their ring.

    Decryption (core/threshold-execution/src/endpoints).  [Reconstruct]
    (reconstruct.rs, tfhe_internals/switch_and_squash.rs) decoding and recomposition;
    [Decrypt] (decryption_non_wasm.rs) both methods; [Decryption] their correctness;
    [OnlineExamples] executions; [SmallDecrypt] noise flooding in a small session, where
    the masks are derived and not computed together.

    Pseudorandom secret sharing (core/threshold-execution/src/small_execution).  [Prf]
    (prf.rs) the ciphers of a set of parties and the values at counters; [Prss]
    (prss.rs) the polynomials of the sets, initialisation, and the next values;
    [PrssProps] its theory; [PrssRing] the extensions as its rings; [SmallOffline] and
    [SmallOfflineProps] (offline.rs) the phase that makes random values and triples;
    [PrssCheck] and [PrssCheckProps] (prss.rs) the checks of derived values by votes;
    [SmallRobust] the phase against corrupt parties; [AgreeRandom] and [AgreeRandomProps]
    (agree_random.rs, core/threshold-algebra/src/commitment.rs) the agreement on the keys of
    the sets; [PrssExamples], [RobustExamples] and [AgreeExamples] executions.

    Broadcast (core/threshold-execution/src/communication).  [Sync] has programs that
    send and receive in rounds, and their executions with corrupt parties; [Broadcast]
    (broadcast.rs) the protocol; [BroadcastCount] and [BroadcastProps] its theory;
    [BroadcastExamples] executions, some of them attacks.

    Meta store (core/service/src/util/meta_store.rs).  [MetaStore] has the store and
    each of its methods; [MetaStoreSystem] the worlds of store, permits, helpers and
    reaper, with their events; [MetaStoreProps] the properties of reachable worlds.

    ** Correspondence

    A definition has the name of the function it translates, with a prefix where
    one name is used by several types ([poly_add], [rp_add], [shamir_add]).  A
    [Result] is [Res], an error is its message (the formatted values in a message are
    left out); overflow, failed assertions, [unwrap] on nothing, and indices out of
    bounds are [Panic], as in the profile with overflow checks and debug assertions;
    where the assertions matter for what is proved, whether the build has them is an
    argument [debug_assertions] (the broadcast, whose theorems are for a build without
    them, and [rp_invert], whose theorem is for both).
    A mutable argument is an argument and a component of the result.  Integers of the
    base rings are MathComp's integers modulo [2^K]; a vector is a list.  An
    extension is given by its coefficients ([ResiduePoly]) and as the quotient ring
    ([GaloisRing]); [Degrees] proves that they agree, and the protocols are proved
    for any ring with the laws of the classes [ExceptionalSequence], [GaloisRing],
    [BitRing], [SolveInvert] and [ModulusSwitch], which the extensions implement.

    The parties of a protocol run [Prog]s, in a session that is given by the number of
    parties, the threshold, the network mode, the parties that run and those that each
    of them holds for corrupt ([Network]).  [joint] says how every execution ends:
    between two openings each running party computes on its own; at an opening every one
    of them runs [robust_open_list_to_all] on the answers that it gets and continues with
    its result, a success or an error.  The answers ([delivered]) are, in any order, the
    values that the other running parties open, and anything or nothing from the other
    parties; receive jobs neither panic nor are cancelled ([robust_open_join_error] is
    about one that is), and sending succeeds.  [opened_ready] shows, from the theory of
    [Open], that opening shares of the degree of the threshold gives the secrets for
    every choice of answers when the session is [ready]: at most as many parties as the
    threshold do not run, and the parties are at least two and more than three times the
    threshold, or four times in an asynchronous network.  [opened_too_few] shows that
    with at most three times the threshold it fails.  [joint_adequate] compares [joint]
    with the executions one by one: there is one, and all of them end as [joint] says.
    The parties run in lockstep, and the state of a store after an error is not tracked.

    A party of a broadcast runs a [Sync] program, which sends a message to everyone and
    continues with what it received.  [run] executes the honest parties in lockstep
    against an adversary that gives, for every round, sender and receiver, the message,
    a malformed one or none in time; so receive jobs neither panic nor are cancelled,
    and sending succeeds.  In [SmallOffline] and [PrssCheck] a broadcast with its update of
    the corrupt set is an argument; [SmallRobust] assumes of it that honest parties get the
    same entries, with the values of the honest ones.  The keys of the sets are an argument
    of [Prss]; [AgreeRandom] makes them, by programs that send a map of messages and
    continue with the one that they receive.  The order in which a hash map is visited is an argument of [PrssCheck].

    ** Theorems

    Decoding: [ring_decoding_correct], [gao_decoding_correct] (what is decoded, and
    exactly when), [ring_decoding_total], [gao_decoding_total] (an answer for every
    input), [ring_hints_equiv] (precomputation changes nothing) and
    [share_reconstruct_roundtrip].  Opening: [robust_open_safe], [robust_open_live],
    [robust_open_async_live] and, for lists in a session, [robust_open_list_correct], with [robust_open_async_stuck] and [robust_open_join_error] for two
    inputs on which it falls short of its comments.  Extensions:
    [residue_ring_correct], [invert_correct], [solve_correct], [lazy_eval_equiv],
    [slices_lifts_roundtrip], [generator_table_complete], [residue_bytes_roundtrip],
    [karatsuba_correct].  Online phase: [mult_list_correct], [bit_lift_correct], and
    lemmas on the adder, on decomposition, on random bits and on TUniform that the
    decryption theorems compose.  Decryption: [bitdec_decryption_correct],
    [bitdec_partial_decryption_correct], [noiseflood_decryption_correct] (end to end,
    from shares of keys, random values and triples), [from_expanded_msg_correct] and
    [reconstruct_packed_message_blocks]; in a small session
    [small_noiseflood_decryption_correct] and [small_noiseflood_partial_correct], from the
    keys of the sets on.  Shared randomness: [prss_correct], [masks_correct],
    [prss_check_correct], [prss_init_agrees] and [agree_random_complete] for the
    initialisation, [prf_uses_separated] and, for what the separation does not
    cover, [prf_sessions_collide].  Offline phase:
    [small_offline_correct]; [small_offline_robust], that it ends whatever corrupt parties
    broadcast; and [additive_error_accepted], that its products may then be wrong.
    Broadcast: [broadcast_correct], [corrupt_update_correct], and
    [broadcast_can_disagree] and [repeated_votes_forge] for what does not hold.  Meta store: [meta_store_invariant],
    [permit_exclusive], [reaper_resolves], [insert_contract], [tombstone_permanent].

    ** Fuel and bounds

    The extended Euclidean algorithm of the decoder is given one more than the number of
    coefficients of its second argument as fuel; the totality theorems show that
    it is enough.  Opening a list is given its length as fuel, since a chunk takes at
    least one element; [robust_open_list_correct] shows that it is enough.  The
    offline phase is given the networks of its batches one after the other, and
    [small_offline_robust] shows that one more than the threshold are enough.  All other loops are
    structural.  The sizes of machine words
    are written out where the code depends on them (decoding, shifts, slices); the
    counters of lengths and amounts, of type usize, are natural numbers.

    ** Not modelled

    Code of packages is an argument, with its documented laws as hypotheses or as
    fields of a class: the arithmetic of the residue fields (g2p), AES-128 (aes), SHAKE-256 (shake),
    combinations (itertools), keyswitch, switch and squash and the block recomposer (tfhe).  The
    adaptors zip_eq, tuples and zip_longest of itertools are modelled by their
    documentation.  Left out are: randomness and its distribution, and with it
    secrecy; message transport (core/threshold-networking); the robust initialisation of
    pseudorandom sharing, and the offline phase for many parties (verifiable sharing, coin
    flipping), whose products the other theorems take as given; key generation and resharing, whose
    outputs have the layout of tfhe; the setup ceremony; threshold BGV; and, of the
    service, all that is storage, cryptography of packages or remote calls.  Logging,
    metrics, timing and memoization (which returns what is computed) have no
    counterpart. *)

From Stdlib Require Import List String.
Import ListNotations.

(** ** Outcomes of Rust code *)

(** What a call of a Rust function can do: return a value, return [Err e],
    panic (an explicit [panic!], an index out of bounds, an arithmetic
    underflow), or exhaust the fuel of the model of an unbounded loop.  The
    last outcome is an artefact of the model, and every loop that is given fuel
    has a theorem that the fuel is enough. *)
Inductive Res (E A : Type) : Type :=
| Ok (a : A)
| Err (e : E)
| Panic
| Timeout.

Arguments Ok {E A} a.
Arguments Err {E A} e.
Arguments Panic {E A}.
Arguments Timeout {E A}.

Declare Scope res_scope.
Delimit Scope res_scope with res.

(** The [?] operator: anything but [Ok] is the outcome of the whole. *)
Definition rbind {E A B} (m : Res E A) (k : A -> Res E B) : Res E B :=
  match m with
  | Ok a => k a
  | Err e => Err e
  | Panic => Panic
  | Timeout => Timeout
  end.

Notation "'let*' x ':=' m 'in' k" := (rbind m (fun x => k))
  (at level 10, x binder, m at level 100, k at level 200) : res_scope.

Open Scope res_scope.

(** [iter().map(f).collect::<Result<Vec<_>, _>>()]: the first failure wins. *)
Fixpoint rmap {E A B} (f : A -> Res E B) (l : list A) : Res E (list B) :=
  match l with
  | [] => Ok []
  | a :: l' => let* b := f a in let* bs := rmap f l' in Ok (b :: bs)
  end.

(** [iter().try_fold(init, f)], the shape of a [for] loop whose body can fail. *)
Fixpoint rfold {E A S} (f : S -> A -> Res E S) (s : S) (l : list A) : Res E S :=
  match l with
  | [] => Ok s
  | a :: l' => let* s' := f s a in rfold f s' l'
  end.

(** [Result::map_err]. *)
Definition rmap_err {E E' A} (f : E -> E') (m : Res E A) : Res E' A :=
  match m with
  | Ok a => Ok a
  | Err e => Err (f e)
  | Panic => Panic
  | Timeout => Timeout
  end.

(** A call that came back, with a value or with an error. *)
Definition returned {E A} (m : Res E A) : Prop :=
  match m with Ok _ | Err _ => True | Panic | Timeout => False end.

Lemma rbind_Ok_inv {E A B} (m : Res E A) (k : A -> Res E B) b :
  rbind m k = Ok b -> exists a, m = Ok a /\ k a = Ok b.
Proof. destruct m; simpl; intros H; try discriminate; eauto. Qed.

Lemma returned_inv {E A} {m : Res E A} :
  returned m -> (exists a, m = Ok a) \/ (exists e, m = Err e).
Proof. destruct m; simpl; intros H; try contradiction; eauto. Qed.

Section ResFacts.
Context {E A B : Type}.

Lemma returned_rbind (m : Res E A) (k : A -> Res E B) :
  returned m -> (forall a, m = Ok a -> returned (k a)) -> returned (rbind m k).
Proof. destruct m; simpl; auto. Qed.

Lemma rmap_total (f : A -> Res E B) (g : A -> B) l :
  (forall a, In a l -> f a = Ok (g a)) -> rmap f l = Ok (map g l).
Proof.
  induction l as [|a l IH]; simpl; intros H; [reflexivity|].
  rewrite H by auto. simpl. rewrite IH by auto. reflexivity.
Qed.

Lemma rmap_length (f : A -> Res E B) l bs :
  rmap f l = Ok bs -> List.length bs = List.length l.
Proof.
  revert bs. induction l as [|a l IH]; simpl; intros bs H.
  - now injection H as <-.
  - apply rbind_Ok_inv in H as (b & _ & H).
    apply rbind_Ok_inv in H as (bs' & H' & H).
    injection H as <-. simpl. now rewrite (IH bs').
Qed.
End ResFacts.

Lemma rfold_app {E A S} (f : S -> A -> Res E S) s l1 l2 :
  rfold f s (l1 ++ l2) = let* s' := rfold f s l1 in rfold f s' l2.
Proof.
  revert s. induction l1 as [|a l1 IH]; intros s; simpl; [reflexivity|].
  destruct (f s a); simpl; auto.
Qed.

(** An invariant of the loop body is an invariant of the loop. *)
Lemma rfold_ind {E A S} (P : S -> Prop) (f : S -> A -> Res E S) s l s' :
  P s -> (forall s a s', In a l -> P s -> f s a = Ok s' -> P s') ->
  rfold f s l = Ok s' -> P s'.
Proof.
  revert s. induction l as [|a l IH]; simpl; intros s Hs Hf H.
  - now injection H as <-.
  - apply rbind_Ok_inv in H as (s1 & H1 & H).
    eapply IH; [eapply Hf; eauto| |exact H]. intros; eapply Hf; eauto.
Qed.

(** Rewriting with a [Res] equation whose outcome is a constructor, and
    inverting the ones in the context. *)
Ltac res_inv :=
  repeat match goal with
  | H : Ok _ = Ok _ |- _ => injection H as H
  | H : Err _ = Err _ |- _ => injection H as H
  | H : rbind _ _ = Ok _ |- _ =>
      let a := fresh "a" in let Ha := fresh "Ha" in
      apply rbind_Ok_inv in H as (a & Ha & H)
  | H : Ok _ = _ |- _ => discriminate H
  | H : Err _ = _ |- _ => discriminate H
  | H : Panic = _ |- _ => discriminate H
  | H : Timeout = _ |- _ => discriminate H
  end.

Create HintDb res.
#[export] Hint Resolve returned_rbind : res.
#[export] Hint Rewrite @rfold_app : res.
