(* ===== verification/SsrLia.v ===== *)
(** * Linear arithmetic over ssrnat

    The files that load MathComp state arithmetic facts with ssrnat's boolean
    comparisons and its own addition, subtraction, multiplication and division.
    The instances below teach [zify] to read them, and [ssrlia] is [lia] on goals
    and hypotheses of that form. *)

From Stdlib Require Import ZArith Zify ZifyClasses ZifyInst ZifyBool ZifyNat Lia.
From mathcomp Require Import boot.

Set Implicit Arguments.
Unset Strict Implicit.
Unset Printing Implicit Defensive.

Local Delimit Scope Z_scope with Z.

Lemma addn_of_nat (m n : nat) : Z.of_nat (m + n)%N = (Z.of_nat m + Z.of_nat n)%Z.
Proof. exact: Nat2Z.inj_add. Qed.

Lemma muln_of_nat (m n : nat) : Z.of_nat (m * n)%N = (Z.of_nat m * Z.of_nat n)%Z.
Proof. exact: Nat2Z.inj_mul. Qed.

Lemma subn_of_nat (m n : nat) :
  Z.of_nat (m - n)%N = Z.max 0 (Z.of_nat m - Z.of_nat n).
Proof. exact: Nat2Z.inj_sub_max. Qed.

Lemma eqn_of_nat (m n : nat) : eqn m n = (Z.of_nat m =? Z.of_nat n)%Z.
Proof.
rewrite eqnE; apply/eqP/idP => [->|]; first exact: Z.eqb_refl.
by move=> H; apply: Nat2Z.inj; apply/Z.eqb_eq.
Qed.

Lemma leq_of_nat (m n : nat) : (m <= n) = (Z.of_nat m <=? Z.of_nat n)%Z.
Proof.
apply/leP/idP => [H|/Z.leb_le H]; last exact/Nat2Z.inj_le.
by apply/Z.leb_le/Nat2Z.inj_le.
Qed.

Lemma maxn_of_nat (m n : nat) : Z.of_nat (maxn m n) = Z.max (Z.of_nat m) (Z.of_nat n).
Proof.
rewrite /maxn leq_of_nat; case: ifP => [/Z.leb_le|/Z.leb_gt]; lia.
Qed.

Lemma minn_of_nat (m n : nat) : Z.of_nat (minn m n) = Z.min (Z.of_nat m) (Z.of_nat n).
Proof.
rewrite /minn leq_of_nat; case: ifP => [/Z.leb_le|/Z.leb_gt]; lia.
Qed.

Lemma divn_of_nat (m d : nat) : Z.of_nat (m %/ d)%N = (Z.of_nat m / Z.of_nat d)%Z.
Proof.
case: d => [|d]; first by rewrite divn0 Zdiv_0_r.
have /ltP lt := ltn_pmod m (ltn0Sn d).
apply: (Z.div_unique_pos _ _ _ (Z.of_nat (m %% d.+1)%N)); first by lia.
by rewrite {1}(divn_eq m d.+1) addn_of_nat muln_of_nat Z.mul_comm.
Qed.

Lemma modn_of_nat (m d : nat) : Z.of_nat (m %% d)%N = (Z.of_nat m mod Z.of_nat d)%Z.
Proof.
case: d => [|d]; first by rewrite modn0 Zmod_0_r.
have /ltP lt := ltn_pmod m (ltn0Sn d).
apply: (Z.mod_unique_pos _ _ (Z.of_nat (m %/ d.+1)%N)); first by lia.
by rewrite {1}(divn_eq m d.+1) addn_of_nat muln_of_nat Z.mul_comm.
Qed.

#[local] Existing Instance Inj_nat_Z.
#[local] Existing Instance Inj_bool_bool.

#[global] Instance Op_addn : BinOp addn := {| TBOp := Z.add; TBOpInj := addn_of_nat |}.
Add Zify BinOp Op_addn.
#[global] Instance Op_muln : BinOp muln := {| TBOp := Z.mul; TBOpInj := muln_of_nat |}.
Add Zify BinOp Op_muln.
#[global] Instance Op_subn : BinOp subn :=
  {| TBOp := fun x y => Z.max 0 (x - y); TBOpInj := subn_of_nat |}.
Add Zify BinOp Op_subn.
#[global] Instance Op_leq : BinOp leq := {| TBOp := Z.leb; TBOpInj := leq_of_nat |}.
Add Zify BinOp Op_leq.
#[global] Instance Op_eqn : BinOp eqn :=
  {| TBOp := Z.eqb; TBOpInj := eqn_of_nat |}.
Add Zify BinOp Op_eqn.
#[global] Instance Op_maxn : BinOp maxn := {| TBOp := Z.max; TBOpInj := maxn_of_nat |}.
Add Zify BinOp Op_maxn.
#[global] Instance Op_minn : BinOp minn := {| TBOp := Z.min; TBOpInj := minn_of_nat |}.
Add Zify BinOp Op_minn.
#[global] Instance Op_divn : BinOp divn := {| TBOp := Z.div; TBOpInj := divn_of_nat |}.
Add Zify BinOp Op_divn.
#[global] Instance Op_modn : BinOp modn := {| TBOp := Z.modulo; TBOpInj := modn_of_nat |}.
Add Zify BinOp Op_modn.

(** The size of a sequence can occur with several presentations of the type of
    its elements, which [lia] takes for different unknowns: name each size. *)
Ltac name_sizes :=
  repeat match goal with
  | H : context [@size _ _] |- _ => revert H
  end;
  repeat match goal with
  | |- context [@size ?T ?s] => let n := fresh "sz" in move: (@size T s) => n
  end;
  intros.

Ltac ssrlia :=
  name_sizes;
  repeat match goal with
  | H : context [@eq_op _ _ _] |- _ => rewrite -?eqnE in H; revert H
  end; rewrite -?eqnE; intros; unfold is_true in *; lia.
