(* ===== verification/Role.v ===== *)
(** * Roles of the parties (core/threshold-types/src/role.rs)

    A role is the index of a party, counted from one; a vector that is indexed
    by a role is read at the role minus one.  Two sets of parties (a reshare
    goes from one set to another) have roles in one set or in both. *)

From Stdlib Require Import List Arith Lia.
From S2P Require Import Prelude.
Import ListNotations.

(** [struct Role(u64)], [Default] being zero. *)
Definition Role := nat.
Definition role_default : Role := 0.

(** [Role::indexed_from_one]: [assert_ne!(x, 0)]. *)
Definition indexed_from_one {E} (x : nat) : Res E Role :=
  if x =? 0 then Panic else Ok x.

Definition indexed_from_zero (x : nat) : Role := x + 1.

Definition one_based (r : Role) : nat := r.

(** [Role::zero_based]: the subtraction underflows for the default role. *)
Definition zero_based {E} (r : Role) : Res E nat :=
  if r =? 0 then Panic else Ok (r - 1).

Definition get_from {E A} (r : Role) (vec : list A) : Res E (option A) :=
  let* i := zero_based r in Ok (nth_error vec i).

(** [get_mut_from(vec)] and the update [f] made through the reference. *)
Fixpoint update_nth {A} (f : A -> A) (i : nat) (vec : list A) : list A :=
  match vec, i with
  | [], _ => []
  | a :: vec', 0 => f a :: vec'
  | a :: vec', S i' => a :: update_nth f i' vec'
  end.

Definition get_mut_from {E A} (r : Role) (f : A -> A) (vec : list A) : Res E (list A) :=
  let* i := zero_based r in Ok (update_nth f i vec).

(** [Index<&Role>]: [expect("Role index out of bounds")]. *)
Definition role_index {E A} (vec : list A) (r : Role) : Res E A :=
  let* o := get_from r vec in
  match o with Some a => Ok a | None => Panic end.

(** [IndexMut<&Role>]. *)
Definition role_index_mut {E A} (vec : list A) (r : Role) (f : A -> A) : Res E (list A) :=
  let* _ := role_index vec r in get_mut_from r f vec.

Record DualRole := mkDualRole { role_set_1 : Role; role_set_2 : Role }.

Inductive TwoSetsRole :=
| Set1 (r : Role)
| Set2 (r : Role)
| Both (r : DualRole).

Inductive RoleKind :=
| SingleSet (r : Role)
| TwoSet (r : TwoSetsRole).

Definition is_set1 (r : TwoSetsRole) : bool :=
  match r with Set1 _ | Both _ => true | Set2 _ => false end.

Definition is_set2 (r : TwoSetsRole) : bool :=
  match r with Set2 _ | Both _ => true | Set1 _ => false end.

Record TwoSetsThreshold := mkTwoSetsThreshold {
  threshold_set_1 : nat;
  threshold_set_2 : nat
}.

(** [RoleTrait], the interface of the two kinds of roles; a [HashSet] of roles
    is a list without duplicates. *)
Class RoleTrait (R : Type) := {
  ThresholdType : Type;
  get_role_kind : R -> RoleKind;
  is_threshold_smaller_than_num_parties : ThresholdType -> list R -> bool
}.

#[export] Instance role_trait_role : RoleTrait Role := {
  ThresholdType := nat;
  get_role_kind := SingleSet;
  is_threshold_smaller_than_num_parties threshold parties := threshold <? length parties
}.

(** The loop that counts the parties of each set. *)
Definition count_sets (parties : list TwoSetsRole) : nat * nat :=
  fold_left (fun ns role =>
      let n1 := if is_set1 role then fst ns + 1 else fst ns in
      let n2 := if is_set2 role then snd ns + 1 else snd ns in
      (n1, n2)) parties (0, 0).

#[export] Instance role_trait_two_sets : RoleTrait TwoSetsRole := {
  ThresholdType := TwoSetsThreshold;
  get_role_kind := TwoSet;
  is_threshold_smaller_than_num_parties threshold parties :=
    let (n1, n2) := count_sets parties in
    andb (threshold_set_1 threshold <? n1) (threshold_set_2 threshold <? n2)
}.

(** ** Properties *)

Lemma count_setsE parties n1 n2 :
  fold_left (fun ns role =>
      let n1 := if is_set1 role then fst ns + 1 else fst ns in
      let n2 := if is_set2 role then snd ns + 1 else snd ns in
      (n1, n2)) parties (n1, n2)
  = (n1 + length (filter is_set1 parties), n2 + length (filter is_set2 parties)).
Proof.
  revert n1 n2. induction parties as [|r ps IH]; intros n1 n2; simpl.
  - now rewrite !Nat.add_0_r.
  - rewrite IH. destruct (is_set1 r), (is_set2 r); simpl; f_equal; lia.
Qed.

Lemma role_index_from_zero {E A} (vec : list A) i :
  role_index (E := E) vec (indexed_from_zero i)
  = match nth_error vec i with Some a => Ok a | None => Panic end.
Proof.
  unfold role_index, get_from, zero_based, indexed_from_zero.
  rewrite (proj2 (Nat.eqb_neq _ _)) by lia. simpl. now rewrite Nat.add_sub.
Qed.
