(* ===== verification/Constants.v ===== *)
(** * Constants of the protocols (core/threshold-execution/src/constants.rs) *)

From Stdlib Require Import ZArith.
From S2P Require Import Prelude.

(** The bound of the noise after switch and squash, and its logarithm. *)
Definition LOG_B_SWITCH_SQUASH : nat := 70.
Definition B_SWITCH_SQUASH : Z := Z.shiftl 1 (Z.of_nat LOG_B_SWITCH_SQUASH).

(** The largest number of sets of pseudorandom secret sharing. *)
Definition PRSS_SIZE_MAX : nat := 2047.

(** The statistical security parameter, in bits. *)
Definition STATSEC : nat := 40.

(** What separates the keys of the pseudorandom functions. *)
Definition PHI_XOR_CONSTANT : Z := 2.
Definition CHI_XOR_CONSTANT : Z := 1.
