(* ===== verification/PolyOps.v ===== *)
(** * Univariate polynomials (core/threshold-algebra/src/poly.rs)

    The struct [Poly<F>] is its coefficient vector [coefs : Vec<F>], lowest
    degree first; here it is the sequence [seq R].  A vector can have trailing
    zeros, so two vectors can be the same polynomial: [Poly : seq R -> {poly R}]
    of MathComp is the abstraction function, and [polyseq] the compressed
    representative.  Each operation of the source is a function on vectors, and
    its refinement lemma says which polynomial (or which compressed vector) it
    computes. *)

From Stdlib Require Import String.
From mathcomp Require Import boot.
From mathcomp Require Import ssralg poly polydiv.
From S2P Require Import Prelude.

Set Implicit Arguments.
Unset Strict Implicit.
Unset Printing Implicit Defensive.

Import GRing.Theory.
Local Open Scope ring_scope.

(** ** Vectors *)

(** [iter().enumerate()]. *)
Definition enumerate {A : Type} (s : seq A) : seq (nat * A) :=
  zip (iota 0 (size s)) s.

Section Vectors.
Variable R : nzRingType.
Implicit Types (s : seq R) (i : nat) (x : R).

(** [v\[i\] += x] and [v\[i\] -= x]. *)
Definition add_at s i x := set_nth 0 s i (s`_i + x).
Definition sub_at s i x := set_nth 0 s i (s`_i - x).

(** [Vec::resize(n, ZERO)]. *)
Definition vec_resize s n := take n s ++ nseq (n - size s) 0.
End Vectors.

(** ** Operations over a ring *)

Section RingOps.
Variable R : comNzRingType.
Implicit Types (p q : seq R) (idx : nat) (v x : R).

Definition poly_coef p idx : R := if (idx < size p)%N then p`_idx else 0.

Definition poly_set_coef p idx v : seq R :=
  if (idx < size p)%N then set_nth 0 p idx v
  else set_nth 0 (vec_resize p idx.+1) idx v.

(** [get_mut(idx)] and the update [f] its caller makes through the reference:
    the coefficient is created when it is missing. *)
Definition poly_get_mut p idx (f : R -> R) : seq R :=
  let p' := if (idx < size p)%N then p else poly_set_coef p idx 0 in
  set_nth 0 p' idx (f p'`_idx).

(** [PartialEq for Poly]. *)
Definition poly_eqb p q : bool :=
  let common_len := minn (size p) (size q) in
  if has (fun i => p`_i != q`_i) (iota 0 common_len) then false
  else
    let longest := if (size q <= size p)%N then p else q in
    ~~ has (fun c => c != 0) (drop common_len longest).

Definition poly_eval p x : R := foldl (fun res c => res * x + c) 0 (rev p).

(** [compress]: the zeros at the end of the vector are popped, here from the
    front of the reversed vector. *)
Fixpoint pop_zeros (s : seq R) : seq R :=
  if s is c :: s' then if c == 0 then pop_zeros s' else s else [::].
Definition poly_compress p : seq R := rev (pop_zeros (rev p)).

Definition poly_from_coefs (coefs : seq R) : seq R := poly_compress coefs.

Definition poly_pop p : option R * seq R :=
  if p is [::] then (None, p) else (Some (last 0 p), take (size p).-1 p).

Definition poly_deg p : nat :=
  if [seq ic <- rev (enumerate p) | ic.2 != 0] is ic :: _ then ic.1 else 0.

Definition poly_is_zero p : bool := ~~ has (fun c => c != 0) p.

Definition poly_zero : seq R := [::].
Definition poly_zeros (n : nat) : seq R := nseq n 0.
Definition poly_one : seq R := [:: 1].

Definition poly_highest_coefficient p : R :=
  if [seq c <- rev p | c != 0] is c :: _ then c else 0.

(** [sample_random_with_fixed_constant]: [rnd] is what the generator returns to
    the successive calls of [F::sample]. *)
Definition poly_sample_random_with_fixed_constant (rnd : nat -> R) (zero_coef : R)
    (degree : nat) : seq R :=
  poly_from_coefs (zero_coef :: [seq rnd i | i <- iota 0 degree]).

(** [Add for &Poly]. *)
Definition poly_add_ref p q : seq R :=
  let max_len := maxn (size p) (size q) in
  poly_compress
    (foldl (fun res i =>
       let res := if (i < size p)%N then add_at res i p`_i else res in
       if (i < size q)%N then add_at res i q`_i else res)
     (poly_zeros max_len) (iota 0 max_len)).

(** [Add for Poly]: the shortest vector is added into the longest. *)
Definition poly_add p q : seq R :=
  let (longest, shortest) := if (size q <= size p)%N then (p, q) else (q, p) in
  poly_compress
    (foldl (fun l i => add_at l i shortest`_i) longest (iota 0 (size shortest))).

Definition poly_sub p q : seq R :=
  let res := poly_zeros (maxn (size p) (size q)) in
  let res := foldl (fun r ic => set_nth 0 r ic.1 ic.2) res (enumerate p) in
  poly_compress (foldl (fun r ic => sub_at r ic.1 ic.2) res (enumerate q)).

(** The double loop of [Mul], into a vector [ext] of zeros. *)
Definition poly_mul_loop p q (ext : seq R) : seq R :=
  foldl (fun e ix => foldl (fun e jx => add_at e (ix.1 + jx.1) (ix.2 * jx.2))
                       e (enumerate q))
        ext (enumerate p).

(** [Mul for Poly]: the length [self.len() + other.len() - 1] underflows when
    both vectors are empty. *)
Definition poly_mul p q : Res string (seq R) :=
  if (size p + size q == 0)%N then Panic
  else Ok (poly_compress (poly_mul_loop p q (poly_zeros (size p + size q).-1))).

(** [Mul<&R> for &Poly] and [Mul<&R> for Poly]. *)
Definition poly_mul_scalar p x : seq R := poly_compress [seq c * x | c <- p].
End RingOps.

Arguments poly_zero {R}.
Arguments poly_one {R}.

(** ** Operations over a field *)

Section FieldOps.
Variable F : fieldType.
Implicit Types (p q a b : seq F) (x : F).

(** The loop of [formal_derivative], [mul] being the multiplier of the first
    coefficient of [cs]. *)
Fixpoint derivative_loop (mul : F) (cs : seq F) : seq F :=
  if cs is c :: cs' then c * mul :: derivative_loop (mul + 1) cs' else [::].

Definition poly_formal_derivative p : seq F :=
  if (0 < poly_deg p)%N then derivative_loop 1 (drop 1 p) else [:: 0].

(** [Div<&F> for &Poly] and [Div<&F> for Poly]. *)
Definition poly_div_scalar p x : seq F := poly_compress [seq c / x | c <- p].

(** One turn of the long division: [q\[i\] = r\[i + b_len - 1\] * t], then
    [q\[i\] * X^i * b] is subtracted from [r]. *)
Definition quo_rem_step b (b_len : nat) (t : F) (qr : seq F * seq F) (i : nat) :=
  let q := set_nth 0 qr.1 i (qr.2`_(i + b_len - 1) * t) in
  (q, foldl (fun r j => sub_at r (i + j) (q`_i * b`_j)) qr.2 (iota 0 b_len)).

Definition quo_rem a b : Res string (seq F * seq F) :=
  let a_len := (poly_deg a + 1)%N in
  let b_len := (poly_deg b + 1)%N in
  if (b_len == 1) && (poly_coef b 0 == 0) then Panic
  else if (a_len == 1) && (poly_coef a 0 == 0) then Ok (poly_zero, poly_zero)
  else
    let t := (poly_highest_coefficient b)^-1 in
    let qr := (poly_zeros F a_len, a) in
    let qr :=
      if (b_len <= a_len)%N
      then foldl (quo_rem_step b b_len t) qr (rev (iota 0 (a_len - b_len).+1))
      else qr in
    Ok (poly_compress qr.1, poly_compress qr.2).
End FieldOps.

(** ** Loops with outcomes, over sequences *)

Section ResSeq.
Variables (E : Type) (A : eqType) (B : Type).

Lemma rmap_Ok (f : A -> Res E B) (g : A -> B) (s : seq A) :
  {in s, forall a, f a = Ok (g a)} -> rmap f s = Ok [seq g a | a <- s].
Proof.
elim: s => [//|a s IHs] fg /=; rewrite fg ?mem_head //= IHs // => b b_s.
by rewrite fg // inE b_s orbT.
Qed.

Lemma size_rmap (f : A -> Res E B) (s : seq A) bs : rmap f s = Ok bs -> size bs = size s.
Proof. exact: rmap_length. Qed.

Lemma nth_rmap (f : A -> Res E B) (a0 : A) (b0 : B) (s : seq A) bs i :
  rmap f s = Ok bs -> (i < size s)%N -> f (nth a0 s i) = Ok (nth b0 bs i).
Proof.
elim: s bs i => [//|a s IHs] bs i /=; case fa: (f a) => [b|||] //=.
case fs: (rmap f s) => [bs'|||] //= [<-]; case: i => [//|i] /= lt_is.
exact: IHs.
Qed.
End ResSeq.

Lemma foldl_map (A B S : Type) (f : S -> B -> S) (g : A -> B) z (s : seq A) :
  foldl f z [seq g x | x <- s] = foldl (fun z x => f z (g x)) z s.
Proof. by elim: s z => //= x s IHs z; rewrite IHs. Qed.

(** ** Vectors as polynomials *)

Section VectorLemmas.
Variable R : nzRingType.
Implicit Types (s p q : seq R) (i n : nat) (x c : R).

Lemma mem_iota0 i n : (i \in iota 0 n) = (i < n)%N.
Proof. by rewrite mem_iota add0n. Qed.

Lemma iota_rcons m n : iota m n.+1 = rcons (iota m n) (m + n)%N.
Proof. by rewrite -[n.+1]addn1 iotaD cats1. Qed.

Lemma size_enumerate (A : Type) (u : seq A) : size (enumerate u) = size u.
Proof. by rewrite size_zip size_iota minnn. Qed.

Lemma enumerate_map (A B : Type) (f : A -> B) (u : seq A) :
  enumerate [seq f a | a <- u] = [seq (ia.1, f ia.2) | ia <- enumerate u].
Proof.
rewrite /enumerate size_map; elim: u 0%N => [|a u IHu] n //=.
by rewrite IHu.
Qed.

Lemma enumerate_rcons (A : Type) (u : seq A) (a : A) :
  enumerate (rcons u a) = rcons (enumerate u) (size u, a).
Proof.
by rewrite /enumerate size_rcons -cats1 -addn1 iotaD zip_cat ?size_iota //= cats1.
Qed.

(** A loop over [enumerate u] is a loop over the indices of [u]. *)
Lemma enumerateE (A : Type) (a0 : A) (u : seq A) :
  enumerate u = [seq (i, nth a0 u i) | i <- iota 0 (size u)].
Proof.
elim/last_ind: u => [//|u a IHu].
rewrite enumerate_rcons IHu size_rcons -addn1 iotaD map_cat -cats1 /= add0n.
rewrite nth_rcons ltnn eqxx; congr (_ ++ _); apply/eq_in_map => i.
by rewrite mem_iota0 nth_rcons => ->.
Qed.

Lemma Poly_rcons0 s : Poly (rcons s 0) = Poly s.
Proof.
apply/polyP=> i; rewrite !coef_Poly nth_rcons.
by case: ltngtP => // [/ltnW|->]; [move=> ?; rewrite nth_default|rewrite nth_default].
Qed.

Lemma Poly_nseq0 n : Poly (nseq n (0 : R)) = 0.
Proof. by apply/polyP=> i; rewrite coef_Poly coef0 nth_nseq if_same. Qed.

Lemma Poly_iota s : Poly s = \sum_(i <- iota 0 (size s)) s`_i *: 'X^i.
Proof.
rewrite -[X in iota 0 X]subn0 -/(index_iota 0 _) big_mkord -poly_def.
apply/polyP=> i; rewrite coef_Poly coef_poly.
by case: ltnP => // /(nth_default 0).
Qed.

Lemma Poly_enumerate s : Poly s = \sum_(ic <- enumerate s) ic.2 *: 'X^(ic.1).
Proof. by rewrite Poly_iota (enumerateE 0) big_map. Qed.

Lemma Poly_add_at s i x : Poly (add_at s i x) = Poly s + x *: 'X^i.
Proof.
apply/polyP=> j; rewrite coefD !coef_Poly nth_set_nth /= coefZ coefXn.
by case: eqP => [->|_]; rewrite ?mulr1 ?mulr0 ?addr0.
Qed.

Lemma Poly_sub_at s i x : Poly (sub_at s i x) = Poly s - x *: 'X^i.
Proof. by rewrite -scaleNr -Poly_add_at. Qed.

(** A loop of additions into a vector adds the sum of its monomials. *)
Lemma Poly_foldl_add_at (T : Type) (g : T -> nat) (h : T -> R) s (r : seq T) :
  Poly (foldl (fun l t => add_at l (g t) (h t)) s r)
    = Poly s + \sum_(t <- r) h t *: 'X^(g t).
Proof.
elim: r s => [|t r IHr] s /=; first by rewrite big_nil addr0.
by rewrite IHr Poly_add_at big_cons addrA.
Qed.

Lemma Poly_foldl_sub_at (T : Type) (g : T -> nat) (h : T -> R) s (r : seq T) :
  Poly (foldl (fun l t => sub_at l (g t) (h t)) s r)
    = Poly s - \sum_(t <- r) h t *: 'X^(g t).
Proof.
elim: r s => [|t r IHr] s /=; first by rewrite big_nil subr0.
by rewrite IHr Poly_sub_at big_cons opprD addrA.
Qed.

(** The indices of the loops are in range: no update extends the vector. *)
Lemma size_add_at s i x : (i < size s)%N -> size (add_at s i x) = size s.
Proof. by move=> lt_is; rewrite size_set_nth; apply/maxn_idPr. Qed.

Lemma size_sub_at s i x : (i < size s)%N -> size (sub_at s i x) = size s.
Proof. exact: size_add_at. Qed.

Lemma size_foldl_same (T : Type) (f : seq R -> T -> seq R) (P : pred T) s (r : seq T) :
  (forall l t, size l = size s -> P t -> size (f l t) = size s) ->
  all P r -> size (foldl f s r) = size s.
Proof.
move=> fP; suff H l : size l = size s -> all P r -> size (foldl f l r) = size s.
  exact: H.
by elim: r l => //= t r IHr l szl /andP[Pt Pr]; apply: IHr => //; apply: fP.
Qed.

Lemma Poly_map_mulr p c : Poly [seq a * c | a <- p] = \sum_(i <- iota 0 (size p)) (p`_i * c) *: 'X^i.
Proof.
rewrite Poly_iota size_map; apply: eq_big_seq => i; rewrite mem_iota0 => lt_i.
by rewrite (nth_map 0).
Qed.
End VectorLemmas.

(** ** The operations over a ring compute the polynomial operations *)

Section RingLemmas.
Variable R : comNzRingType.
Implicit Types (p q : seq R) (i : nat) (x c : R).

Lemma Poly_rcons_neq0 p c : c != 0 -> Poly (rcons p c) = rcons p c :> seq R.
Proof. by move=> c_neq0; apply: (@PolyK _ 0); rewrite last_rcons. Qed.

Lemma poly_compressE p : poly_compress p = Poly p :> seq R.
Proof.
elim/last_ind: p => [|p c IHp]; first by rewrite /poly_compress /= polyseq0.
rewrite /poly_compress rev_rcons /=; case: eqP => [->|/eqP c_neq0].
  by rewrite Poly_rcons0 -IHp.
by rewrite rev_cons revK Poly_rcons_neq0.
Qed.

Lemma Poly_compress p : Poly (poly_compress p) = Poly p.
Proof. by rewrite poly_compressE polyseqK. Qed.

Lemma poly_coefE p i : poly_coef p i = (Poly p)`_i.
Proof. by rewrite coef_Poly /poly_coef; case: ltnP => // /(nth_default 0). Qed.

Lemma nth_vec_resize p n i : (vec_resize p n)`_i = if (i < n)%N then p`_i else 0.
Proof.
rewrite /vec_resize nth_cat size_take nth_nseq if_same.
case: (ltnP n (size p)) => [lt_np|le_pn]; case: (ltnP i n) => [lt_in|le_ni] //.
- by rewrite nth_take.
- by rewrite take_oversize //; case: ltnP => // /(nth_default 0).
- by rewrite ltnNge (leq_trans le_pn).
Qed.

Lemma nth_poly_set_coef p i v j :
  (poly_set_coef p i v)`_j = if j == i then v else p`_j.
Proof.
rewrite /poly_set_coef; case: ifP => [lt_ip|]; rewrite nth_set_nth //=.
case: eqP => // _ /negbT; rewrite -leqNgt nth_vec_resize => le_pi.
case: ltnP => // lt_ij; rewrite nth_default //; exact: leq_trans le_pi (ltnW lt_ij).
Qed.

Lemma nth_poly_get_mut p i f j :
  (poly_get_mut p i f)`_j = if j == i then f p`_i else p`_j.
Proof.
rewrite /poly_get_mut nth_set_nth /=.
case: ltnP => [_|le_pi]; first by case: eqP.
by rewrite !nth_poly_set_coef eqxx (nth_default _ le_pi); case: eqP.
Qed.

Lemma poly_evalE p x : poly_eval p x = (Poly p).[x].
Proof. by rewrite horner_Poly /poly_eval foldl_rev; elim: p => //= c p ->. Qed.

Lemma poly_degE p : poly_deg p = (size (Poly p)).-1.
Proof.
elim/last_ind: p => [|p c IHp]; first by rewrite /poly_deg /= polyseq0.
rewrite /poly_deg enumerate_rcons rev_rcons /=; case: eqP => [->|/eqP c_neq0] /=.
  by rewrite Poly_rcons0 -IHp.
by rewrite Poly_rcons_neq0 // size_rcons.
Qed.

Lemma poly_highest_coefficientE p : poly_highest_coefficient p = lead_coef (Poly p).
Proof.
elim/last_ind: p => [|p c IHp].
  by rewrite /poly_highest_coefficient /= lead_coef0.
rewrite /poly_highest_coefficient rev_rcons /=; case: eqP => [->|/eqP c_neq0] /=.
  by rewrite Poly_rcons0 -IHp.
by rewrite lead_coefE Poly_rcons_neq0 // size_rcons nth_rcons ltnn eqxx.
Qed.

Lemma poly_is_zeroE p : poly_is_zero p = (Poly p == 0).
Proof.
rewrite /poly_is_zero -all_predC; apply/allP/eqP => [p0|p0 c c_p].
  apply/polyP=> i; rewrite coef_Poly coef0.
  case: (ltnP i (size p)) => [lt_ip|/(nth_default 0)//].
  by apply/eqP; have := p0 _ (mem_nth 0 lt_ip); rewrite /= negbK.
by rewrite /= negbK -(nth_index 0 c_p) -coef_Poly p0 coef0.
Qed.

(** [PartialEq] ignores trailing zeros: it is equality of polynomials. *)
Lemma poly_eqbE p q : poly_eqb p q = (Poly p == Poly q).
Proof.
rewrite /poly_eqb; set m := minn _ _; set l := if _ then p else q.
case: hasP => [[i]|pq_m].
  rewrite mem_iota0 => _ neq_i; apply/esym/negP => /eqP/polyP/(_ i)/eqP.
  by rewrite !coef_Poly (negPf neq_i).
have {}pq_m i : (i < m)%N -> p`_i = q`_i.
  by move=> lt_i; apply/eqP/negPn/negP => ne; case: pq_m; exists i; rewrite ?mem_iota0.
have nth_tail i : (m <= i)%N -> (p`_i == q`_i) = (l`_i == 0).
  rewrite /m /l geq_min; case: (leqP (size q) (size p)) => le_qp; last first.
    by case/orP=> [le_i|/(leq_trans (ltnW le_qp)) le_i]; rewrite (nth_default _ le_i) eq_sym.
  by case/orP=> [/(leq_trans le_qp) le_i|le_i]; rewrite (nth_default _ le_i).
rewrite -all_predC; apply/allP/eqP => [l0|/polyP eq_pq c /(nthP 0)[i]].
  apply/polyP=> i; rewrite !coef_Poly; case: (ltnP i m) => [/pq_m//|le_mi].
  apply/eqP; rewrite nth_tail // -(subnKC le_mi) -nth_drop.
  case: (ltnP (i - m) (size (drop m l))) => [lt_i|/(nth_default 0)->//].
  by have /= := l0 _ (mem_nth 0 lt_i); rewrite negbK.
rewrite nth_drop => _ <- /=; rewrite negbK -nth_tail ?leq_addr //.
by have := eq_pq (m + i)%N; rewrite !coef_Poly => ->.
Qed.
End RingLemmas.

Section RingArith.
Variable R : comNzRingType.
Implicit Types (p q : seq R) (x : R).

Lemma poly_add_refE p q : poly_add_ref p q = (Poly p + Poly q : {poly R}) :> seq R.
Proof.
rewrite /poly_add_ref poly_compressE; congr polyseq.
set n := maxn _ _.
have sum_lt (s : seq R) : (size s <= n)%N ->
    Poly s = \sum_(i <- iota 0 n | (i < size s)%N) s`_i *: 'X^i.
  move=> /subnKC <-; rewrite Poly_iota iotaD big_cat /= [X in _ + X]big_seq_cond.
  rewrite [X in _ + X]big_pred0 => [i|]; last rewrite addr0.
    by rewrite mem_iota add0n leqNgt andbC; case: (i < size s)%N.
  by rewrite big_seq [RHS]big_seq_cond; apply: eq_bigl => i; rewrite mem_iota0 andbb.
rewrite (sum_lt p) ?leq_maxl // (sum_lt q) ?leq_maxr // !(big_mkcond (fun i => (i < _)%N)).
rewrite -big_split /= -[RHS]add0r -[X in _ = X + _](Poly_nseq0 R n) -/(poly_zeros R n).
elim: (iota 0 n) (poly_zeros R n) => [|i r IHr] s /=; first by rewrite big_nil addr0.
rewrite IHr big_cons addrA; congr (_ + _).
by case: (i < size p)%N; case: (i < size q)%N; rewrite ?Poly_add_at ?addr0 ?add0r ?addrA.
Qed.

Lemma poly_addE p q : poly_add p q = (Poly p + Poly q : {poly R}) :> seq R.
Proof.
rewrite /poly_add; have H (l s : seq R) :
    poly_compress (foldl (fun l i => add_at l i s`_i) l (iota 0 (size s)))
      = (Poly l + Poly s : {poly R}) :> seq R.
  by rewrite poly_compressE (Poly_foldl_add_at id) -Poly_iota.
by case: ifP => _; rewrite H // addrC.
Qed.

(** The copy loop of [sub] writes [p] over the zeros of [res]. *)
Lemma Poly_copy p n : (size p <= n)%N ->
  Poly (foldl (fun r ic => set_nth 0 r ic.1 ic.2) (poly_zeros R n) (enumerate p)) = Poly p.
Proof.
move=> le_pn; apply/polyP=> i; rewrite !coef_Poly.
suff -> : (foldl (fun r ic => set_nth 0 r ic.1 ic.2) (poly_zeros R n) (enumerate p))`_i
    = if (i < size p)%N then p`_i else 0.
  by case: ltnP => // /(nth_default 0).
elim/last_ind: p {le_pn} => [|p c IHp]; first by rewrite nth_nseq if_same.
rewrite enumerate_rcons foldl_rcons nth_set_nth /= IHp size_rcons nth_rcons ltnS.
by case: ltngtP.
Qed.

Lemma poly_subE p q : poly_sub p q = (Poly p - Poly q : {poly R}) :> seq R.
Proof.
rewrite /poly_sub poly_compressE; congr polyseq.
rewrite (Poly_foldl_sub_at fst snd) -Poly_enumerate; congr (_ - _).
by rewrite Poly_copy ?leq_maxl.
Qed.

Lemma Poly_mul_loop p q ext : Poly (poly_mul_loop p q ext) = Poly ext + Poly p * Poly q.
Proof.
rewrite [Poly p]Poly_enumerate [Poly q]Poly_enumerate /poly_mul_loop big_distrl /=.
elim: (enumerate p) ext => [|[i x] r IHr] ext /=; first by rewrite big_nil addr0.
rewrite IHr big_cons addrA; congr (_ + _).
rewrite (Poly_foldl_add_at (fun jy => (i + jy.1)%N) (fun jy => x * jy.2)).
congr (_ + _); rewrite big_distrr /=; apply: eq_bigr => jy _.
by rewrite -scalerAl -scalerAr scalerA exprD.
Qed.

(** The product vector is never extended: its indices [i + j] are in range. *)
Lemma size_poly_mul_loop p q ext :
  (0 < size p -> 0 < size q -> size ext = (size p + size q).-1)%N ->
  size (poly_mul_loop p q ext) = size ext.
Proof.
move=> sz; rewrite /poly_mul_loop.
apply: (@size_foldl_same _ _ _ (fun ix => ix.1 < size p)%N) => [l ix szl lt_ip|]; last first.
  by apply/allP => ix; rewrite (enumerateE 0) => /mapP[i]; rewrite mem_iota0 => ? ->.
rewrite -[RHS]szl; apply: (@size_foldl_same _ _ _ (fun jy => jy.1 < size q)%N) => [l' jy szl' lt_jq|].
  have p_gt0 := leq_ltn_trans (leq0n _) lt_ip; have q_gt0 := leq_ltn_trans (leq0n _) lt_jq.
  rewrite size_add_at // szl' szl sz // -ltnS prednK ?addn_gt0 ?p_gt0 //.
  by rewrite -addnS -addSn leq_add.
by apply/allP => jy; rewrite (enumerateE 0) => /mapP[j]; rewrite mem_iota0 => ? ->.
Qed.

Lemma poly_mulE p q :
  poly_mul p q = if (size p + size q == 0)%N then Panic
                 else Ok (polyseq (Poly p * Poly q)).
Proof.
rewrite /poly_mul; case: ifP => // _; congr Ok.
by rewrite poly_compressE Poly_mul_loop Poly_nseq0 add0r.
Qed.

(** [poly_mul] on vectors one of which is not empty. *)
Lemma poly_mul_Ok p q : (0 < size p)%N || (0 < size q)%N ->
  poly_mul p q = Ok (polyseq (Poly p * Poly q)).
Proof. by rewrite poly_mulE -addn_gt0 lt0n => /negPf->. Qed.

Lemma poly_mul_scalarE p x : poly_mul_scalar p x = (x *: Poly p) :> seq R.
Proof.
rewrite /poly_mul_scalar poly_compressE; congr polyseq; apply/polyP=> i.
rewrite coef_Poly coefZ coef_Poly; case: (ltnP i (size p)) => lt_ip.
  by rewrite (nth_map 0) // mulrC.
by rewrite !nth_default ?size_map ?mulr0.
Qed.
End RingArith.

(** ** The operations over a field *)

Section FieldLemmas.
Variable F : fieldType.
Implicit Types (p q a b : seq F) (x : F).

Lemma poly_div_scalarE p x : poly_div_scalar p x = (x^-1 *: Poly p) :> seq F.
Proof. exact: poly_mul_scalarE. Qed.

Lemma nth_derivative_loop (m : F) p i : (derivative_loop m p)`_i = p`_i * (m + i%:R).
Proof.
elim: p m i => [|c p IHp] m [|i] /=; rewrite ?nth_nil ?mul0r ?addr0 //.
by rewrite IHp -addrA -natr1 [i%:R + 1]addrC.
Qed.

(** [formal_derivative] is the derivative of the polynomial. *)
Lemma poly_formal_derivativeE p : Poly (poly_formal_derivative p) = (Poly p)^`().
Proof.
apply/polyP=> i; rewrite coef_Poly coef_deriv /poly_formal_derivative poly_degE.
case: ltnP => [_|le1].
  by rewrite nth_derivative_loop nth_drop add1n nat1r mulr_natr coef_Poly.
have -> : [:: 0 : F]`_i = 0 by case: i => [|[|i]].
by rewrite nth_default ?mul0rn //; case: (size _) le1 => [|[|n]].
Qed.

Section QuoRem.
Variables a b : seq F.
Hypothesis b_neq0 : Poly b != 0.
Let b_len := (poly_deg b + 1)%N.
Let t := (poly_highest_coefficient b)^-1.

Lemma b_lenE : b_len = size (Poly b).
Proof. by rewrite /b_len poly_degE addn1 prednK // size_poly_gt0. Qed.

Lemma Poly_iota_deg : \sum_(j <- iota 0 b_len) b`_j *: 'X^j = Poly b.
Proof.
rewrite -[X in iota 0 X]subn0 -/(index_iota 0 _) big_mkord -poly_def.
apply/polyP=> i; rewrite coef_poly b_lenE -coef_Poly.
by case: ltnP => // /(nth_default 0).
Qed.

(** Before the turns [m - 1, ..., 0]: [a = q * b + r], the degree of [r] is
    below that of [X^m * b], and the coefficients of [q] to come are zero. *)
Definition div_inv (m : nat) (qr : seq F * seq F) : Prop :=
  [/\ Poly a = Poly qr.1 * Poly b + Poly qr.2,
      (size (Poly qr.2) < m + b_len)%N
    & forall j, (j < m)%N -> qr.1`_j = 0].

Lemma div_inv_step m qr : div_inv m.+1 qr -> div_inv m (quo_rem_step b b_len t qr m).
Proof.
case: qr => q r [/= eq_a sz_r q0]; rewrite /quo_rem_step /=.
set c := r`_(m + b_len - 1) * t.
have [l bl] : exists l, b_len = l.+1 by exists (poly_deg b); rewrite /b_len addn1.
have qc : set_nth 0 q m c = add_at q m c by rewrite /add_at q0 ?add0r.
have nth_qc : (set_nth 0 q m c)`_m = c by rewrite nth_set_nth /= eqxx.
have eq_r : Poly (foldl (fun r j => sub_at r (m + j) (c * b`_j)) r (iota 0 b_len))
    = Poly r - c *: 'X^m * Poly b.
  rewrite (Poly_foldl_sub_at (addn m) (fun j => c * b`_j)) -Poly_iota_deg big_distrr /=.
  by congr (_ - _); apply: eq_bigr => j _; rewrite -scalerAl -scalerAr scalerA exprD.
split=> /=; rewrite ?nth_qc ?eq_r ?qc ?Poly_add_at.
- by rewrite mulrDl eq_a -addrA [X in _ = _ + X]addrCA subrr addr0.
- rewrite bl addnS ltnS; apply/leq_sizeP => j le_j.
  rewrite coefB -scalerAl coefZ coefXnM ltnNge (leq_trans (leq_addr _ _) le_j) /=.
  move: sz_r; rewrite bl addnS ltnS addSn => sz_r.
  move: le_j; rewrite leq_eqVlt => /orP[/eqP<-|lt_j].
    rewrite coef_Poly /c bl addnS subn1 /t poly_highest_coefficientE addKn.
    by rewrite lead_coefE -b_lenE bl -mulrA mulVf ?mulr1 ?subrr // -[l]/l.+1.-1 -bl b_lenE -lead_coefE lead_coef_eq0.
  rewrite (nth_default _ (leq_trans sz_r lt_j)) (nth_default 0) ?mulr0 ?subr0 //.
  by rewrite -b_lenE bl ltn_subRL.
- by move=> j lt_j; rewrite nth_set_nth /= ltn_eqF // q0 // ltnW.
Qed.

Lemma div_inv_loop m qr : div_inv m qr ->
  div_inv 0 (foldl (quo_rem_step b b_len t) qr (rev (iota 0 m))).
Proof.
elim: m qr => [//|m IHm] qr inv; rewrite -[m.+1]addn1 iotaD add0n rev_cat /=.
exact/IHm/div_inv_step.
Qed.
End QuoRem.

(** The guard [len == 1 && coef(0) == 0] of [quo_rem] tests for zero. *)
Lemma zero_guardE p : (poly_deg p + 1 == 1)%N && (poly_coef p 0 == 0) = (Poly p == 0).
Proof.
rewrite addn1 eqSS poly_coefE poly_degE; apply/andP/eqP => [[/eqP sz /eqP p0]|->].
  have /size1_polyC-> : (size (Poly p) <= 1)%N by case: (size _) sz => [|[]].
  by rewrite p0.
by rewrite size_poly0 coef0 !eqxx.
Qed.

(** [quo_rem] panics on a zero divisor, and otherwise returns the compressed
    quotient and remainder of the Euclidean division. *)
Lemma quo_remE a b :
  quo_rem a b = if Poly b == 0 then Panic
                else Ok (polyseq (Poly a %/ Poly b), polyseq (Poly a %% Poly b)).
Proof.
rewrite /quo_rem !zero_guardE; case: (altP eqP) => // b_neq0.
case: (altP eqP) => [->|a_neq0]; first by rewrite div0p mod0p polyseq0.
set a_len := (poly_deg a + 1)%N; set b_len := (poly_deg b + 1)%N; set t := _^-1.
set qr := if _ then _ else _.
have [eq_a sz_r _] : div_inv a b 0 qr.
  have a_lenE : a_len = size (Poly a) by rewrite /a_len b_lenE.
  rewrite /qr; case: (leqP b_len a_len) => [le_ba|lt_ab].
    apply: div_inv_loop => //; split=> /= [||j _]; rewrite ?Poly_nseq0 ?mul0r ?add0r //.
      by rewrite addSn subnK // -a_lenE.
    by rewrite nth_nseq if_same.
  split=> //=; last by rewrite add0n -a_lenE.
  by rewrite Poly_nseq0 mul0r add0r.
rewrite add0n b_lenE // in sz_r.
by rewrite !poly_compressE (divpP eq_a sz_r) (modpP eq_a sz_r).
Qed.
End FieldLemmas.

(** ** Properties *)

(** The vector operations compute in the ring of polynomials: sum,
    difference, product, scaling and derivative of two vectors, trailing zeros
    or not, are those of the polynomials they stand for; results are compressed,
    equality of vectors up to trailing zeros is equality of polynomials, and a
    product panics only when both vectors are empty. *)
Theorem poly_ops_refine (R : comNzRingType) (p q : seq R) (x : R) :
  [/\ poly_add p q = polyseq (Poly p + Poly q) /\ poly_add_ref p q = poly_add p q,
      poly_sub p q = polyseq (Poly p - Poly q),
      poly_mul p q = (if (size p + size q == 0)%N then Panic else Ok (polyseq (Poly p * Poly q))),
      poly_mul_scalar p x = polyseq (x *: Poly p)
    & [/\ poly_eqb p q = (Poly p == Poly q), poly_deg p = (size (Poly p)).-1
        & poly_eval p x = (Poly p).[x]]].
Proof.
by split; rewrite ?poly_add_refE ?poly_addE ?poly_subE ?poly_mulE ?poly_mul_scalarE
  ?poly_eqbE ?poly_degE ?poly_evalE.
Qed.

(** Long division is Euclidean division: [quo_rem a b] panics exactly on a
    zero divisor, and otherwise returns compressed vectors [q] and [r] with
    [a = q * b + r] and the degree of [r] below that of [b]. *)
Theorem quo_rem_correct (F : fieldType) (a b : seq F) :
  (Poly b == 0 /\ quo_rem a b = Panic) \/
  exists q r, [/\ quo_rem a b = Ok (q, r), Poly a = Poly q * Poly b + Poly r,
                  (size (Poly r) < size (Poly b))%N, poly_compress q = q & poly_compress r = r].
Proof.
rewrite quo_remE; case: eqP => [_|/eqP b_neq0]; [by left | right].
exists (polyseq (Poly a %/ Poly b)), (polyseq (Poly a %% Poly b)).
by rewrite !poly_compressE !polyseqK; split=> //; rewrite -?divp_eq ?ltn_modp.
Qed.
