(* ===== verification/Structure.v ===== *)
(** * The traits of the algebra (core/threshold-algebra/src/structure_traits.rs)
    and the Galois fields (core/threshold-algebra/src/galois_fields)

    [RingWithExceptionalSequence] is the class [ExceptionalSequence]: a sequence
    of ring elements whose differences are invertible.  The fields GF8 to GF256
    are generated by the g2p package, which is a parameter here: a field [F] and
    the conversion [gf_from] of a byte, injective on the bytes of the field. *)

From Stdlib Require Import String.
From mathcomp Require Import boot.
From mathcomp Require Import ssralg poly.
From S2P Require Import Prelude Role PolyOps.

Set Implicit Arguments.
Unset Strict Implicit.
Unset Printing Implicit Defensive.

Import GRing.Theory.
Local Open Scope ring_scope.

(** ** Exceptional sequences *)

Class ExceptionalSequence (R : comNzRingType) := {
  get_from_exceptional_sequence : nat -> Res string R;
  exceptional_returned : forall i, returned (get_from_exceptional_sequence i);
  exceptional_diff_unit : forall i j a b, i != j ->
    get_from_exceptional_sequence i = Ok a -> get_from_exceptional_sequence j = Ok b ->
    exists c, (a - b) * c = 1
}.

(** The default method [embed_role_to_exceptional_sequence]. *)
Definition embed_role_to_exceptional_sequence {R : comNzRingType} {X : ExceptionalSequence R}
    (role : Role) : Res string R :=
  get_from_exceptional_sequence (one_based role).

(** ** Galois fields of characteristic two *)

Section GaloisField.
Variables (F : fieldType) (BIT_LENGTH : nat).

(** [From<u8>] of the generated type. *)
Variable gf_from : nat -> F.
Hypothesis gf_from_inj : {in gtn (2 ^ BIT_LENGTH) &, injective gf_from}.

Definition EXCEPTIONAL_SEQUENCE_SIZE : nat := 2 ^ BIT_LENGTH.

(** [get_from_exceptional_sequence] of GF8, GF16, GF32, GF64, GF128 and GF256. *)
Definition gf_get_from_exceptional_sequence (idx : nat) : Res string F :=
  if (EXCEPTIONAL_SEQUENCE_SIZE <= idx)%N
  then Err "Index out of bounds for exceptional sequence"%string
  else Ok (gf_from idx).

(** [two_powers]: [input ^ (2 ^ i)] for [i] from zero to [max_power]. *)
Fixpoint two_powers_loop (temp : F) (n : nat) : seq F :=
  if n is n'.+1 then temp * temp :: two_powers_loop (temp * temp) n' else [::].
Definition two_powers (input : F) (max_power : nat) : seq F :=
  input :: two_powers_loop input (max_power - 1).

(** The tables [GFx_FROM_GENERATOR]: the powers of the generator, then zero. *)
Fixpoint from_generator_loop (generator state : F) (idx last n : nat) : seq F :=
  if n is n'.+1 then
    let res := if idx == last then gf_from 0 else state in
    res :: from_generator_loop generator (res * generator) idx.+1 last n'
  else [::].
Definition from_generator (generator : F) (count : nat) : seq F :=
  from_generator_loop generator (gf_from 1) 0 count.-1 count.

Lemma gf_exceptional_returned i : returned (gf_get_from_exceptional_sequence i).
Proof. by rewrite /gf_get_from_exceptional_sequence; case: ifP. Qed.

Lemma gf_exceptional_diff_unit i j a b : i != j ->
  gf_get_from_exceptional_sequence i = Ok a -> gf_get_from_exceptional_sequence j = Ok b ->
  exists c, (a - b) * c = 1.
Proof.
rewrite /gf_get_from_exceptional_sequence => neq_ij.
case: leqP => // lt_i [<-]; case: leqP => // lt_j [<-]; exists (gf_from i - gf_from j)^-1.
rewrite mulfV // subr_eq0; apply: contra neq_ij => /eqP/gf_from_inj-> //.
Qed.

Definition gf_exceptional_sequence : ExceptionalSequence F :=
  {| exceptional_returned := gf_exceptional_returned;
     exceptional_diff_unit := gf_exceptional_diff_unit |}.

Lemma nth_two_powers input n i : (i < n)%N -> (two_powers input n)`_i = input ^+ (2 ^ i).
Proof.
case: n => // n; rewrite /two_powers subn1 /=; case: i => [|i] //=; rewrite ltnS.
elim: i n input => [|i IHi] [|n] //= input lt_i.
by rewrite IHi // -expr2 -exprM -expnS.
Qed.
End GaloisField.

(** ** Embedding a list of roles *)

Section Embedding.
Variable F : fieldType.
Context {X : ExceptionalSequence F}.

(** Distinct roles have distinct points. *)
Lemma embed_roles_uniq (roles : seq Role) (xs : seq F) :
  rmap embed_role_to_exceptional_sequence roles = Ok xs -> uniq (roles : seq nat) -> uniq xs.
Proof.
move=> eq_xs uniq_roles; have sz := size_rmap eq_xs.
apply/(uniqP 0) => i j; rewrite !inE sz => lt_i lt_j eq_ij; apply/eqP.
rewrite -(nth_uniq 0 lt_i lt_j uniq_roles); apply/negPn/negP => neq_r.
have [c] := exceptional_diff_unit neq_r (nth_rmap 0%N 0 eq_xs lt_i) (nth_rmap 0%N 0 eq_xs lt_j).
by rewrite eq_ij subrr mul0r => /eqP; rewrite eq_sym oner_eq0.
Qed.
End Embedding.
