(* ===== verification/Lagrange.v ===== *)
(** * Lagrange interpolation (core/threshold-algebra/src/poly.rs)

    The basis polynomials of a list of points, and interpolation with a basis
    computed on the spot or found in a precomputed store.  What a store promises
    to interpolation is the class [LagrangeCache]; the file LagrangeStore
    discharges it for the map that [build_lagrange_map] builds. *)

From Stdlib Require Import String.
From mathcomp Require Import boot.
From mathcomp Require Import ssralg poly polydiv zmodp.
From S2P Require Import Prelude PolyOps.

Set Implicit Arguments.
Unset Strict Implicit.
Unset Printing Implicit Defensive.

Import GRing.Theory.
Local Open Scope ring_scope.

(** ** Operations *)

Section LagrangeOps.
Variable F : fieldType.
Implicit Types (points values : seq F).

(** The inner loop of [lagrange_polynomials] for the point [x] of index [i]:
    numerator and denominator. *)
Definition lagrange_step (i : nat) (x : F) (nd : seq F * F) (jxj : nat * F)
    : Res string (seq F * F) :=
  if i != jxj.1
  then let* num := poly_mul nd.1 [:: - jxj.2; 1] in
       Ok (num, nd.2 * (x - jxj.2))
  else Ok nd.

Definition lagrange_polynomials points : Res string (seq (seq F)) :=
  rmap (fun ixi =>
          let* nd := rfold (lagrange_step ixi.1 ixi.2) ([:: 1; 0], 1)
                       (enumerate points) in
          Ok (poly_div_scalar nd.1 nd.2))
       (enumerate points).

(** [for (acc, lc) in coefs.iter_mut().zip(l.iter()) { *acc += lc * v }]. *)
Fixpoint accumulate_scaled (coefs l : seq F) (v : F) : seq F :=
  match coefs, l with
  | acc :: coefs', lc :: l' => acc + lc * v :: accumulate_scaled coefs' l' v
  | _, _ => coefs
  end.

Definition lagrange_interpolation_with_polys (lagrange_polys : seq (seq F)) values
    : Res string (seq F) :=
  if size lagrange_polys != size values
  then Err "Lagrange interpolation failure: mismatch between number of points and values"%string
  else
    let coefs := foldl (fun coefs lv => accumulate_scaled coefs lv.1 lv.2)
                   (nseq (size lagrange_polys) 0) (zip lagrange_polys values) in
    Ok (poly_from_coefs coefs).

(** [prod (X - x_i)] over the points, the loop shared by [gao_decoding] and
    [FieldHints::compute_vanishing_poly]. *)
Definition vanishing_poly points : Res string (seq F) :=
  rfold (fun g xi => poly_mul g [:: - xi; 1]) poly_one points.
End LagrangeOps.

(** What [Field::cached_lagrange_polys] promises: a basis found in the store is
    the one that would be computed. *)
Class LagrangeCache (F : fieldType) := {
  cached_lagrange_polys : seq F -> option (seq (seq F));
  cached_lagrange_polysP : forall points polys,
    cached_lagrange_polys points = Some polys ->
    lagrange_polynomials points = Ok polys
}.

(** The cache of a field whose store was never initialised. *)
Definition no_cache (F : fieldType) : LagrangeCache F :=
  {| cached_lagrange_polys := fun _ => None;
     cached_lagrange_polysP := fun _ polys (H : None = Some polys) =>
       match H in _ = o return if o is None then True else _ with erefl => I end |}.

Definition lagrange_interpolation {F : fieldType} {C : LagrangeCache F}
    (points values : seq F) : Res string (seq F) :=
  match cached_lagrange_polys points with
  | Some cached => lagrange_interpolation_with_polys cached values
  | None =>
      let* polys := lagrange_polynomials points in
      lagrange_interpolation_with_polys polys values
  end.

(** ** The basis polynomials *)

Section LagrangeBasis.
Variable F : fieldType.
Implicit Types (points values : seq F) (p q : {poly F}).

Definition others points i := [seq j <- iota 0 (size points) | i != j].

Definition basis points i : {poly F} :=
  (\prod_(j <- others points i) (points`_i - points`_j))^-1
    *: \prod_(j <- others points i) ('X - (points`_j)%:P).

Lemma Poly_XsubC (x : F) : Poly [:: - x; 1] = 'X - x%:P.
Proof. by rewrite /= !cons_poly_def mul0r add0r polyC1 mul1r polyCN. Qed.

Lemma poly_mul_XsubC (p : seq F) (x : F) :
  poly_mul p [:: - x; 1] = Ok (polyseq (Poly p * ('X - x%:P))).
Proof. by rewrite poly_mul_Ok ?orbT // Poly_XsubC. Qed.

Lemma lagrange_loopE points i (r : seq nat) num den :
  exists2 num', rfold (lagrange_step i points`_i) (num, den) [seq (j, points`_j) | j <- r]
      = Ok (num', den * \prod_(j <- r | i != j) (points`_i - points`_j))
    & Poly num' = Poly num * \prod_(j <- r | i != j) ('X - (points`_j)%:P).
Proof.
elim: r num den => [|j r IHr] num den /=.
  by exists num; rewrite !big_nil !mulr1.
rewrite /lagrange_step !big_cons; case: ifP => _ /=; last exact: IHr.
rewrite poly_mul_XsubC /=.
have [num' -> eq_num'] := IHr (polyseq (Poly num * ('X - (points`_j)%:P))) (den * (points`_i - points`_j)).
by exists num'; rewrite ?eq_num' ?polyseqK mulrA.
Qed.

Lemma lagrange_polynomialsE points :
  lagrange_polynomials points = Ok [seq polyseq (basis points i) | i <- iota 0 (size points)].
Proof.
rewrite /lagrange_polynomials {2}(enumerateE 0).
rewrite (@rmap_Ok _ _ _ _ (fun ixi => polyseq (basis points ixi.1))) => [_ /mapP[i _ ->] /=|].
  rewrite (enumerateE 0).
  have [num' -> eq_num'] /= := lagrange_loopE points i (iota 0 (size points)) [:: 1; 0] 1.
  congr Ok; rewrite poly_div_scalarE mul1r eq_num' /basis !big_filter.
  by rewrite /= !cons_poly_def mul0r add0r mul0r add0r mul1r.
by rewrite -map_comp.
Qed.

Lemma size_others points i : (i < size points)%N -> (size (others points i)).+1 = size points.
Proof.
move=> lt_i; rewrite size_filter -[RHS](size_iota 0 (size points)).
rewrite -(count_predC (fun j => i != j)) -addn1; congr (_ + _)%N.
rewrite (@eq_count _ (predC _) (pred1 i)) => [j /=|]; first by rewrite negbK eq_sym.
by rewrite count_uniq_mem ?iota_uniq // mem_iota0 lt_i.
Qed.

Lemma size_basis points i : (i < size points)%N -> (size (basis points i) <= size points)%N.
Proof.
move=> lt_i; apply: leq_trans (size_scale_leq _ _) _.
by rewrite size_prod_XsubC size_others.
Qed.

Lemma basis_eval points i j : uniq points -> (i < size points)%N -> (j < size points)%N ->
  (basis points i).[points`_j] = (i == j)%:R.
Proof.
move=> uniq_pts lt_i lt_j; rewrite /basis hornerZ horner_prod.
under [X in _ * X]eq_bigr => k _ do rewrite hornerXsubC.
case: eqP => [<-|/eqP neq_ij].
  rewrite mulVf // prodf_seq_neq0; apply/allP => k; rewrite mem_filter mem_iota0 /=.
  by case/andP=> neq lt_k; rewrite subr_eq0 nth_uniq.
suff -> : \prod_(k <- others points i) (points`_j - points`_k) = 0 by rewrite mulr0.
apply/eqP; rewrite prodf_seq_eq0; apply/hasP; exists j; last by rewrite subrr eqxx.
by rewrite mem_filter neq_ij mem_iota0.
Qed.

(** ** Interpolation *)

Definition interpolant points values : {poly F} :=
  \sum_(i <- iota 0 (size points)) values`_i *: basis points i.

Lemma size_interpolant points values : (size (interpolant points values) <= size points)%N.
Proof.
rewrite /interpolant big_seq; apply: (big_ind (fun p => size p <= size points)%N).
- by rewrite size_poly0.
- by move=> p q sz_p sz_q; apply: leq_trans (size_polyD _ _) _; rewrite geq_max sz_p.
- by move=> i; rewrite mem_iota0 => lt_i; apply: leq_trans (size_scale_leq _ _) (size_basis _).
Qed.

Lemma interpolantE points values j : uniq points -> (j < size points)%N ->
  (interpolant points values).[points`_j] = values`_j.
Proof.
move=> uniq_pts lt_j; rewrite /interpolant horner_sum.
rewrite (bigD1_seq j) ?mem_iota0 ?iota_uniq //= hornerZ basis_eval // eqxx mulr1.
rewrite big_seq_cond big1 ?addr0 // => i /andP[]; rewrite mem_iota0 => lt_i /negPf neq_ij.
by rewrite hornerZ basis_eval // neq_ij mulr0.
Qed.

(** Two polynomials of degree below the number of distinct points on which they
    agree are equal. *)
Lemma poly_uniq_points (pts : seq F) p q : uniq pts ->
  (size p <= size pts)%N -> (size q <= size pts)%N ->
  {in pts, forall x, p.[x] = q.[x]} -> p = q.
Proof.
move=> uniq_pts sz_p sz_q eq_pq; apply/eqP; rewrite -subr_eq0; apply/negPn/negP => neq0.
have := max_poly_roots neq0 _ uniq_pts; rewrite ltnNge.
rewrite (leq_trans (size_polyD _ _)) ?geq_max ?size_polyN ?sz_p //.
suff -> : all (root (p - q)) pts by move/(_ isT).
by apply/allP => x x_pts; rewrite rootE !hornerE eq_pq // subrr.
Qed.

Lemma interpolant_unique points values p : uniq points -> (size p <= size points)%N ->
  (forall i, (i < size points)%N -> p.[points`_i] = values`_i) -> p = interpolant points values.
Proof.
move=> uniq_pts sz_p eq_p; apply: (poly_uniq_points uniq_pts sz_p (size_interpolant _ _)).
by move=> x /(nthP 0)[i lt_i <-]; rewrite eq_p // interpolantE.
Qed.

Lemma size_accumulate_scaled (cs l : seq F) v : size (accumulate_scaled cs l v) = size cs.
Proof. by elim: cs l => [|c cs IHcs] [|x l] //=; rewrite IHcs. Qed.

Lemma Poly_accumulate_scaled (cs l : seq F) v : (size l <= size cs)%N ->
  Poly (accumulate_scaled cs l v) = Poly cs + v *: Poly l.
Proof.
move=> le_l; apply/polyP=> i; rewrite coefD coefZ !coef_Poly.
elim: cs l i le_l => [|c cs IHcs] [|x l] [|i] //= le_l; rewrite ?nth_nil ?mulr0 ?addr0 //.
  by rewrite mulrC.
exact: IHcs.
Qed.

Lemma lagrange_interpolation_with_polysE points values : size values = size points ->
  lagrange_interpolation_with_polys [seq polyseq (basis points i) | i <- iota 0 (size points)] values
    = Ok (polyseq (interpolant points values)).
Proof.
move=> sz_v; rewrite /lagrange_interpolation_with_polys size_map size_iota sz_v eqxx /=.
congr Ok; rewrite /poly_from_coefs poly_compressE; congr polyseq; rewrite /interpolant.
have -> : zip [seq polyseq (basis points i) | i <- iota 0 (size points)] values
    = [seq (polyseq (basis points i), values`_i) | i <- iota 0 (size points)].
  by rewrite -{1}(mkseq_nth 0 values) /mkseq sz_v -/(map _ _) zip_map.
rewrite foldl_map /=; set n := size points.
suff H r cs : size cs = n -> all (fun i => i < n)%N r ->
    Poly (foldl (fun cs i => accumulate_scaled cs (polyseq (basis points i)) values`_i) cs r)
      = Poly cs + \sum_(i <- r) values`_i *: basis points i.
  rewrite H ?size_nseq ?Poly_nseq0 ?add0r //.
  by apply/allP => i; rewrite mem_iota0.
elim: r cs => [|i r IHr] cs sz_cs /=; first by rewrite big_nil addr0.
case/andP=> lt_i all_r; rewrite IHr ?size_accumulate_scaled // big_cons addrA.
by rewrite Poly_accumulate_scaled ?sz_cs ?size_basis // polyseqK.
Qed.

Lemma vanishing_polyE points :
  vanishing_poly points = Ok (polyseq (\prod_(x <- points) ('X - x%:P))).
Proof.
rewrite /vanishing_poly.
suff H g : rfold (fun g xi => poly_mul g [:: - xi; 1]) g points
    = (if points is [::] then Ok g else Ok (polyseq (Poly g * \prod_(x <- points) ('X - x%:P)))).
  rewrite {}H; case: points => [|x s]; first by rewrite big_nil polyseq1.
  by rewrite /poly_one -[Poly [:: 1]]/(cons_poly 1 0) cons_poly_def mul0r add0r mul1r.
elim: points g => [//|x s IHs] g /=; rewrite poly_mul_XsubC /= IHs big_cons.
by case: s {IHs} => [|y s]; rewrite ?big_nil ?mulr1 // polyseqK mulrA.
Qed.
End LagrangeBasis.

Section Interpolation.
Variable F : fieldType.
Context {C : LagrangeCache F}.
Implicit Types (points values : seq F).

(** With or without the store, interpolation fails exactly on a length mismatch
    and otherwise returns the compressed interpolant. *)
Lemma lagrange_interpolationE points values :
  lagrange_interpolation points values =
    if size values == size points then Ok (polyseq (interpolant points values))
    else Err "Lagrange interpolation failure: mismatch between number of points and values"%string.
Proof.
rewrite /lagrange_interpolation.
case cached: (cached_lagrange_polys points) => [polys|].
  move/cached_lagrange_polysP: cached; rewrite lagrange_polynomialsE => -[<-].
  case: eqP => [/lagrange_interpolation_with_polysE//|/eqP neq].
  by rewrite /lagrange_interpolation_with_polys size_map size_iota eq_sym neq.
rewrite lagrange_polynomialsE /=.
case: eqP => [/lagrange_interpolation_with_polysE//|/eqP neq].
by rewrite /lagrange_interpolation_with_polys size_map size_iota eq_sym neq.
Qed.
End Interpolation.

(** ** Properties *)

(** Interpolation through distinct points returns the one polynomial of
    degree below their number with the given values, whether the basis comes
    from the store or is computed: [p] is returned exactly when it is compressed,
    has at most one coefficient per point and takes every value. *)
Theorem lagrange_interpolation_correct (F : fieldType) (C : LagrangeCache F)
    (points values p : seq F) : uniq points ->
  lagrange_interpolation points values = Ok p <->
  [/\ size values = size points, poly_compress p = p, (size p <= size points)%N
    & forall i, (i < size points)%N -> poly_eval p points`_i = values`_i].
Proof.
move=> uniq_pts; rewrite lagrange_interpolationE; case: eqP => [sz|neq]; last by split=> [|[]].
split=> [[<-]|[_ eq_p sz_p val_p]].
  split=> [//|||i lt_i]; rewrite ?poly_compressE ?polyseqK ?size_interpolant //.
  by rewrite poly_evalE polyseqK interpolantE.
congr Ok; rewrite -eq_p poly_compressE; congr polyseq.
symmetry; apply: interpolant_unique; rewrite // -?poly_compressE ?eq_p // => i lt_i.
by rewrite -poly_evalE val_p.
Qed.

Lemma lagrange_interpolation_correct_witness :
  lagrange_interpolation (C := no_cache 'F_7) [:: 1; 2%:R; 3%:R] [:: 2%:R; 5%:R; 3%:R]
    = Ok [:: 1; 0; 1].
Proof.
apply/(@lagrange_interpolation_correct 'F_7 (no_cache 'F_7)); [by vm_compute | split].
1-3: by vm_compute.
by case=> [|[|[|i]]] // _; apply/eqP; vm_compute.
Defined.
