(* ===== verification/LagrangeStore.v ===== *)
(** * The store of Lagrange bases
    (core/threshold-algebra/src/galois_fields/lagrange.rs)

    [build_lagrange_map] computes the basis of every sorted subset of the first
    points of the exceptional sequence; a field looks its points up in the map.
    The theorems say that a basis found in the store is the one that would be
    computed, which discharges [LagrangeCache], and that every subset within
    the bounds is found. *)

From Stdlib Require Import String.
From mathcomp Require Import boot.
From mathcomp Require Import ssralg poly zmodp.
From S2P Require Import Prelude SsrLia Role PolyOps Structure Lagrange.

Set Implicit Arguments.
Unset Strict Implicit.
Unset Printing Implicit Defensive.

Import GRing.Theory.
Local Open Scope ring_scope.

(** [type LagrangeMap<F> = HashMap<Vec<F>, Vec<Poly<F>>>], as an association
    list whose last insertion is first. *)
Section Map.
Variable F : fieldType.

Definition LagrangeMap := seq (seq F * seq (seq F)).

Definition map_insert (m : LagrangeMap) points polys : LagrangeMap := (points, polys) :: m.

Fixpoint map_get (m : LagrangeMap) (points : seq F) : option (seq (seq F)) :=
  if m is (k, v) :: m' then if k == points then Some v else map_get m' points else None.
End Map.

Section Store.
Variable F : fieldType.
Context {X : ExceptionalSequence F}.

(** [Itertools::combinations]: the subsequences of a given length. *)
Variable combinations : seq F -> nat -> seq (seq F).

(** The two nested loops of [build_lagrange_map]. *)
Definition insert_basis (m : LagrangeMap F) (points : seq F) : Res string (LagrangeMap F) :=
  let* polys := lagrange_polynomials points in Ok (map_insert m points polys).

Definition build_lagrange_map (num_parties min_threshold : nat) : Res string (LagrangeMap F) :=
  let* all_points := rmap get_from_exceptional_sequence (iota 1 num_parties) in
  rfold (fun m size => rfold insert_basis m (combinations all_points size))
    [::] (iota min_threshold.+1 (num_parties - min_threshold)).

(** The store of a field: [None] until it is initialised, and then set once, as
    in [init_lagrange_stores]. *)
Definition init_lagrange_store (store : option (LagrangeMap F)) (num_parties min_threshold : nat)
    : Res string (option (LagrangeMap F)) :=
  let* m := build_lagrange_map num_parties min_threshold in
  match store with
  | Some _ => Err "Failed to set Lagrange store"%string
  | None => Ok (Some m)
  end.

(** [LAGRANGE_STORE.get()?.get(points)]. *)
Definition store_get (store : option (LagrangeMap F)) points : option (seq (seq F)) :=
  if store is Some m then map_get m points else None.

(** ** What the store holds *)

Definition basis_polys (points : seq F) : seq (seq F) :=
  [seq polyseq (basis points i) | i <- iota 0 (size points)].

Lemma map_get_catrev (keys : seq (seq F)) m points :
  map_get (catrev [seq (k, basis_polys k) | k <- keys] m) points
    = if points \in keys then Some (basis_polys points) else map_get m points.
Proof.
elim: keys m => [|k keys IHk] m //=; rewrite IHk /= inE eq_sym.
by case: eqP => [->|_]; case: ifP.
Qed.

Lemma insert_basesE m keys :
  rfold insert_basis m keys = Ok (catrev [seq (k, basis_polys k) | k <- keys] m).
Proof.
by elim: keys m => [|k keys IHk] m //=; rewrite /insert_basis lagrange_polynomialsE /= IHk.
Qed.

Lemma build_loopE (all_points : seq F) m (sizes : seq nat) :
  rfold (fun m size => rfold insert_basis m (combinations all_points size)) m sizes
    = Ok (catrev [seq (k, basis_polys k) | k <- flatten [seq combinations all_points i | i <- sizes]] m).
Proof.
elim: sizes m => [|i sizes IHs] m //=.
by rewrite insert_basesE /= IHs map_cat !catrevE rev_cat catA.
Qed.

(** A lookup finds the basis of exactly the enumerated subsets. *)
Lemma build_lagrange_mapE num_parties min_threshold m :
  build_lagrange_map num_parties min_threshold = Ok m ->
  exists2 all_points,
    rmap get_from_exceptional_sequence (iota 1 num_parties) = Ok all_points &
    forall points, map_get m points =
      if has (fun i => points \in combinations all_points i)
           (iota min_threshold.+1 (num_parties - min_threshold))
      then Some (basis_polys points) else None.
Proof.
rewrite /build_lagrange_map.
case eq_pts: (rmap _ _) => [all_points|||] //=; rewrite build_loopE => -[<-].
exists all_points => // points; rewrite map_get_catrev /=.
by congr (if _ then _ else _); apply/flatten_mapP/hasP.
Qed.

Lemma init_lagrange_store_Ok num_parties min_threshold (all_points : seq F) :
  rmap get_from_exceptional_sequence (iota 1 num_parties) = Ok all_points ->
  exists store, init_lagrange_store None num_parties min_threshold = Ok store.
Proof.
move=> eq_pts; rewrite /init_lagrange_store /build_lagrange_map eq_pts [rbind (Ok _) _]/= build_loopE /=.
by eexists.
Qed.

Lemma store_sound num_parties min_threshold store points polys :
  init_lagrange_store None num_parties min_threshold = Ok store ->
  store_get store points = Some polys -> lagrange_polynomials points = Ok polys.
Proof.
rewrite /init_lagrange_store; case eq_m: (build_lagrange_map _ _) => [m|||] //= [<-] /=.
have [pts _ ->] := build_lagrange_mapE eq_m; case: ifP => // _ [<-].
exact: lagrange_polynomialsE.
Qed.

(** The store as the cache of [lagrange_interpolation]. *)
Definition lagrange_store num_parties min_threshold store
    (init : init_lagrange_store None num_parties min_threshold = Ok store) : LagrangeCache F :=
  {| cached_lagrange_polysP := fun points polys => @store_sound _ _ store points polys init |}.
End Store.

(** ** Properties *)

(** The subsequences of length [k], in the order of their indices. *)
Fixpoint subseqs_of_size {A : Type} (s : seq A) (k : nat) : seq (seq A) :=
  match k, s with
  | 0, _ => [:: [::]]
  | k'.+1, x :: s' => [seq x :: t | t <- subseqs_of_size s' k'] ++ subseqs_of_size s' k
  | _, [::] => [::]
  end.

Lemma mem_subseqs_of_size (A : eqType) (s : seq A) k t :
  (t \in subseqs_of_size s k) = subseq t s && (size t == k).
Proof.
elim: s k t => [|x s IHs] [|k] [|y t] //=; rewrite ?inE ?andbF ?mem_cat ?IHs ?sub0seq //.
- by rewrite andbF orbF; apply/negP => /mapP[].
- rewrite eqSS; case: (eqVneq y x) => [->|neq].
    rewrite mem_map ?IHs => [u v [] //|].
    by apply/orP/idP => [[//|/andP[/cons_subseq-> ->//]]|->]; left.
  case: mapP => [[u _ [eq_y _]]|//]; by rewrite eq_y eqxx in neq.
Qed.

(** The precomputed store is exact: initialised for [num_parties] and
    [min_threshold], it answers a lookup with the Lagrange basis of the points
    when they are a sorted subset of more than [min_threshold] of the points of
    the parties, and with nothing otherwise.  [combinations] is documented to
    enumerate the subsequences of a given length. *)
Theorem lagrange_store_exact (F : fieldType) (X : ExceptionalSequence F)
    (combinations : seq F -> nat -> seq (seq F)) (num_parties min_threshold : nat)
    (all_points : seq F) store :
  (forall s k t, (t \in combinations s k) = subseq t s && (size t == k)) ->
  rmap get_from_exceptional_sequence (iota 1 num_parties) = Ok all_points ->
  init_lagrange_store combinations None num_parties min_threshold = Ok store ->
  forall points,
    if subseq points all_points && (min_threshold < size points)%N
    then exists2 polys, store_get store points = Some polys & lagrange_polynomials points = Ok polys
    else store_get store points = None.
Proof.
move=> comb eq_pts; rewrite /init_lagrange_store.
case eq_m: (build_lagrange_map _ _ _) => [m|||] //= [<-] points /=.
have [pts] := build_lagrange_mapE eq_m; rewrite eq_pts => -[<-] ->.
have sz : size all_points = num_parties by rewrite (size_rmap eq_pts) size_iota.
have -> : has (fun i => points \in combinations all_points i)
    (iota min_threshold.+1 (num_parties - min_threshold))
  = subseq points all_points && (min_threshold < size points)%N.
  apply/hasP/andP => [[i]|[sub lt_t]].
    by rewrite mem_iota comb => /andP[lt_i _] /andP[-> /eqP->].
  exists (size points); last by rewrite comb sub eqxx.
  by have := size_subseq sub; rewrite mem_iota; ssrlia.
by case: (_ && _) => //; exists (basis_polys points); last exact: lagrange_polynomialsE.
Qed.

Section Witness.
Let F7_inj : {in gtn (2 ^ 2) &, injective (fun i : nat => i%:R : 'F_7)}.
Proof. by case=> [|[|[|[|i]]]] // [|[|[|[|j]]]] // _ _ /eqP; vm_compute. Qed.
Let seq7 : ExceptionalSequence 'F_7 := gf_exceptional_sequence F7_inj.

Lemma lagrange_store_exact_witness :
  exists2 store, init_lagrange_store (X := seq7) subseqs_of_size None 3 1 = Ok store &
    exists2 polys, store_get store [:: 1; 3%:R] = Some polys
                 & lagrange_polynomials [:: 1; 3%:R] = Ok polys.
Proof.
have eq_pts : rmap (get_from_exceptional_sequence (ExceptionalSequence := seq7)) (iota 1 3)
  = Ok [:: 1; 2%:R; 3%:R] by [].
have [store eq_st] := init_lagrange_store_Ok subseqs_of_size 1 eq_pts; exists store => //.
have := @lagrange_store_exact 'F_7 seq7 subseqs_of_size 3 1 [:: 1; 2%:R; 3%:R] store
  (@mem_subseqs_of_size _) eq_pts eq_st [:: 1; 3%:R].
by [].
Defined.
End Witness.
