(* ===== verification/Gao.v ===== *)
(** * Gao decoding (core/threshold-algebra/src/poly.rs)

    Reed-Solomon decoding of [n] shares of a polynomial of degree below [k], of
    which at most [max_errors] are wrong: the partial extended Euclidean
    algorithm on the interpolant and the vanishing polynomial. *)

From Stdlib Require Import String.
From mathcomp Require Import boot.
From mathcomp Require Import ssralg poly polydiv zmodp ring_tactic.
From S2P Require Import Prelude SsrLia PolyOps Lagrange.

Set Implicit Arguments.
Unset Strict Implicit.
Unset Printing Implicit Defensive.

Import GRing.Theory.
Local Open Scope ring_scope.

(** ** Operations *)

Section GaoOps.
Variable F : fieldType.
Implicit Types (a b r g : seq F).

(** The loop [while r1.deg() >= stop] of [partial_xgcd], on the state
    [(r0, r1, t0, t1)].  The length of [r1] decreases at each turn. *)
Fixpoint partial_xgcd_loop (fuel : nat) (r0 r1 t0 t1 : seq F) (stop : nat)
    : Res string (seq F * seq F) :=
  if (stop <= poly_deg r1)%N then
    if fuel is fuel'.+1 then
      let* qr := quo_rem r0 r1 in
      let* qt := poly_mul qr.1 t1 in
      partial_xgcd_loop fuel' r1 qr.2 t1 (poly_sub t0 qt) stop
    else Timeout
  else Ok (r1, t1).

Definition partial_xgcd a b (stop : nat) : Res string (seq F * seq F) :=
  partial_xgcd_loop (size b).+1 a b poly_zero poly_one stop.

(** The last error of [gao_decoding_common]; its message computes [k - 1]. *)
Definition too_high_degree (k : nat) : Res string (seq F) :=
  if k is 0 then Panic
  else Err "Gao decoding failure: Division result is of too high degree"%string.

Definition gao_decoding_common (n k max_errors : nat) r g : Res string (seq F) :=
  if (n + 1 < k)%N then Err "Gao decoding failure: overflow computing d"%string
  else
  let d := (n + 1 - k)%N in
  if (d <= 2 * max_errors)%N then
    Err "Gao decoding failure: expected max number of errors is too large for given code parameters"%string
  else
  let gcd_stop := ((n + k) %/ 2)%N in
  if (poly_deg r < gcd_stop)%N then
    if (k <= poly_deg r)%N then too_high_degree k else Ok r
  else
  let* q1q0 := partial_xgcd g r gcd_stop in
  let (q1, q0) := q1q0 in
  if (max_errors < poly_deg q0)%N then
    Err "Gao decoding failure: Allowed at most max_errors errors but xgcd factor degree indicates more"%string
  else
  let* hr := (if (poly_deg q0 == 0%N) && (poly_coef q0 0 != 0)
              then Ok (poly_div_scalar q1 (poly_coef q0 0), poly_zero)
              else quo_rem q1 q0) in
  let (h, rem) := hr in
  if ~~ poly_is_zero rem then Err "Gao decoding failure: Division remainder is not zero"%string
  else if (k <= poly_deg h)%N then too_high_degree k
  else Ok h.
End GaoOps.

Definition gao_decoding {F : fieldType} {C : LagrangeCache F}
    (points values : seq F) (k max_errors : nat) : Res string (seq F) :=
  let n := size points in
  if size values != size points then
    Err "Gao decoding failure: mismatch between number of values and points"%string
  else
    let* r := lagrange_interpolation points values in
    let* g := vanishing_poly points in
    gao_decoding_common n k max_errors r g.

Definition gao_decoding_with_field_hints {F : fieldType}
    (points values : seq F) (k max_errors : nat)
    (lagrange_polys : seq (seq F)) (vanishing_poly : seq F) : Res string (seq F) :=
  let n := size points in
  if size values != size points then
    Err "Gao decoding failure: mismatch between number of values and points"%string
  else
    let* r := lagrange_interpolation_with_polys lagrange_polys values in
    gao_decoding_common n k max_errors r vanishing_poly.

(** ** The extended Euclidean algorithm *)

Section PartialXgcd.
Variable F : fieldType.
Implicit Types (A B R T S : {poly F}).

(** Both remainders are combinations of [A] and [B] whose cofactor of [B] is
    tracked, the cofactors form a matrix of determinant [+1] or [-1], and the
    degrees of the cofactors of [B] and of the remainders are complementary. *)
Definition xgcd_inv A B R0 R1 T0 T1 : Prop :=
  exists S0 S1 m,
    [/\ R0 = S0 * A + T0 * B,
        R1 = S1 * A + T1 * B,
        S0 * T1 - S1 * T0 = (-1) ^+ m,
        (size T1 + size R0 = (size A).+1)%N
      & (size R1 < size R0)%N /\ (size T0 < size T1)%N].

Lemma xgcd_inv_init A B : (size B < size A)%N -> xgcd_inv A B A B 0 1.
Proof.
move=> lt_BA; exists 1, 0, 0%N; rewrite size_poly0 size_poly1 !mul1r !mul0r addr0 add0r subr0 expr0.
by split.
Qed.

Lemma xgcd_inv_step A B R0 R1 T0 T1 : R1 != 0 -> xgcd_inv A B R0 R1 T0 T1 ->
  xgcd_inv A B R1 (R0 %% R1) T1 (T0 - R0 %/ R1 * T1).
Proof.
move=> R1_neq0 [S0 [S1 [m [eq_R0 eq_R1 det sz_T1 [lt_R lt_T]]]]].
have R0_neq0 : R0 != 0 by rewrite -size_poly_gt0 (leq_ltn_trans _ lt_R).
have T1_neq0 : T1 != 0 by rewrite -size_poly_gt0 (leq_ltn_trans _ lt_T).
have R1_gt0 : (0 < size R1)%N by rewrite size_poly_gt0.
have T1_gt0 : (0 < size T1)%N by rewrite size_poly_gt0.
set Q := R0 %/ R1; have sz_Q : (size Q + size R1 = (size R0).+1)%N.
  by rewrite size_divp //; ssrlia.
have Q_neq0 : Q != 0 by rewrite -size_poly_gt0; ssrlia.
have sz_QT : size (Q * T1) = (size Q + size T1).-1 by rewrite size_mul.
have sz_T2 : size (T0 - Q * T1) = size (Q * T1).
  by rewrite addrC size_polyDl size_polyN //; ssrlia.
exists S1, (S0 - Q * S1), m.+1; split=> //.
- have -> : R0 %% R1 = R0 - Q * R1 by rewrite {2}(divp_eq R0 R1) addrC addKr.
  by rewrite {1}eq_R0 {1}eq_R1 mulrDr opprD addrACA !mulrBl !mulrA.
- rewrite exprS -det mulN1r opprB mulrBr mulrBl !mulrA [S1 * Q]mulrC opprB.
  by rewrite addrA subrK.
- by rewrite sz_T2 sz_QT; ssrlia.
- by split; rewrite ?ltn_modp // sz_T2; ssrlia.
Qed.

(** With fuel for every turn and a positive bound the loop returns, in a state
    that satisfies the invariant and at which the bound is first crossed. *)
Lemma partial_xgcd_loopP A B (r0 r1 t0 t1 : seq F) (stop fuel : nat) :
  (0 < stop)%N -> (size (Poly r1) <= fuel)%N -> (stop < size (Poly r0))%N ->
  xgcd_inv A B (Poly r0) (Poly r1) (Poly t0) (Poly t1) ->
  exists r0' r1' t0' t1',
    [/\ partial_xgcd_loop fuel r0 r1 t0 t1 stop = Ok (r1', t1'),
        xgcd_inv A B (Poly r0') (Poly r1') (Poly t0') (Poly t1'),
        (size (Poly r1') <= stop)%N & (stop < size (Poly r0'))%N].
Proof.
move=> stop_gt0; elim: fuel r0 r1 t0 t1 => [|fuel IHfuel] r0 r1 t0 t1 le_fuel lt_stop inv /=;
    rewrite poly_degE; case: leqP => [le_stop|lt_r1]; try by exists r0, r1, t0, t1; split=> //; ssrlia.
have r1_neq0 : Poly r1 != 0 by rewrite -size_poly_gt0; ssrlia.
have [S0 [S1 [m [_ _ _ _ [lt_r lt_t]]]]] := inv.
have t1_gt0 : (0 < size t1)%N by case: t1 inv lt_t => //; rewrite size_poly0.
rewrite quo_remE (negPf r1_neq0) /= poly_mul_Ok ?t1_gt0 ?orbT //= polyseqK.
apply: IHfuel; rewrite ?poly_subE ?polyseqK; last exact: xgcd_inv_step.
- by have := ltn_modp (Poly r0) (Poly r1); rewrite r1_neq0; ssrlia.
- by ssrlia.
Qed.
End PartialXgcd.

(** ** Words and codewords *)

Section Codewords.
Variable F : fieldType.
Variables points values : seq F.
Hypothesis uniq_points : uniq points.
Hypothesis size_values : size values = size points.
Implicit Types (f h : {poly F}).

Let A : {poly F} := \prod_(x <- points) ('X - x%:P).
Let B : {poly F} := interpolant points values.

(** The points at which the received value is not that of [f]. *)
Definition error_points f : seq F :=
  [seq xy.1 | xy <- zip points values & f.[xy.1] != xy.2].

Definition locator f : {poly F} := \prod_(x <- error_points f) ('X - x%:P).

Lemma uniq_error_points f : uniq (error_points f).
Proof.
apply: subseq_uniq (map_subseq _ (filter_subseq _ _)) _.
by rewrite -/(unzip1 _) unzip1_zip ?size_values.
Qed.

Lemma mem_error_points f x : (x \in error_points f) = (x \in points) && (f.[x] != B.[x]).
Proof.
have sz : size (zip points values) = size points by rewrite size_zip size_values minnn.
apply/mapP/andP => [[xy]|[x_pts neq_x]].
  rewrite mem_filter => /andP[neq_xy /(nthP (0, 0))[i]]; rewrite sz => lt_i eq_xy ->.
  move: neq_xy; rewrite -eq_xy nth_zip ?size_values //= => neq.
  by rewrite mem_nth // interpolantE.
exists (x, B.[x]); rewrite // mem_filter neq_x /=.
have lt_i : (index x points < size points)%N by rewrite index_mem.
rewrite -{1 2}(nth_index 0 x_pts) /B interpolantE // -nth_zip ?size_values //.
by rewrite mem_nth // sz.
Qed.

Lemma size_A : size A = (size points).+1.
Proof. exact: size_prod_XsubC. Qed.

Lemma size_B : (size B < size A)%N.
Proof. by rewrite size_A ltnS size_interpolant. Qed.

Lemma A_neq0 : A != 0.
Proof. by rewrite -size_poly_gt0 size_A. Qed.

Lemma size_locator f : size (locator f) = (size (error_points f)).+1.
Proof. exact: size_prod_XsubC. Qed.

Lemma A_dvd_locator f : A %| locator f * (B - f).
Proof.
apply: uniq_roots_dvdp; last by rewrite uniq_rootsE.
apply/allP => x x_pts; rewrite rootM root_prod_XsubC mem_error_points x_pts /=.
by rewrite rootE !hornerE subr_eq0 eq_sym; case: eqP.
Qed.

(** A pair of the Euclidean sequence at which the degrees cross [(n + k) / 2]
    determines every codeword within the correction radius, and its cofactor
    has no more roots than there are errors. *)
Lemma gao_key f k R0 R1 T0 T1 :
  xgcd_inv A B R0 R1 T0 T1 ->
  (size f <= k)%N -> (2 * size (error_points f) + k <= size points)%N ->
  (size R1 <= (size points + k) %/ 2)%N -> ((size points + k) %/ 2 < size R0)%N ->
  R1 = f * T1 /\ T1 %| locator f.
Proof.
move=> [S0 [S1 [m [_ eq_R1 det sz_T1 [_ lt_T]]]]] sz_f le_e le_R1 lt_R0.
have T1_gt0 : (0 < size T1)%N by ssrlia.
have sz_W := size_locator f; set W := locator f in sz_W *; have sz_A := size_A.
have W_neq0 : W != 0 by rewrite -size_poly_gt0; ssrlia.
have /dvdpP[V eq_V] := A_dvd_locator f; rewrite -/W in eq_V.
have eq_WR : W * (R1 - f * T1) = A * (W * S1 + T1 * V).
  have -> : A * (W * S1 + T1 * V) = W * S1 * A + T1 * (V * A) by ring.
  by rewrite -eq_V eq_R1; ring.
have sz_WR : (size (W * (R1 - f * T1))%R < size A)%N.
  rewrite mulrBr.
  have := size_polyD (W * R1) (- (W * (f * T1))); rewrite size_polyN leq_max.
  have := size_polyMleq W R1; have := size_polyMleq W (f * T1); have := size_polyMleq f T1.
  by ssrlia.
have eq_R1f : R1 = f * T1.
  apply/eqP; rewrite -subr_eq0; have := sz_WR; rewrite eq_WR ltnNge => /negP H.
  apply/negPn/negP => neq0; apply: H; apply: dvdp_leq; last exact: dvdp_mulr.
  by rewrite -eq_WR mulf_neq0.
split=> //; have : S1 * W = - (V * T1).
  apply: (mulIf A_neq0).
  have -> : - (V * T1) * A = - (T1 * (V * A)) by ring.
  rewrite -eq_V.
  have -> : S1 * W * A = W * (R1 - T1 * B) by rewrite eq_R1; ring.
  by rewrite eq_R1f; ring.
have cop : coprimep T1 S1.
  apply/Bezout_coprimepP; exists (((-1) ^+ m) * S0, - ((-1) ^+ m) * T0) => /=.
  have -> : (-1) ^+ m * S0 * T1 + - (-1) ^+ m * T0 * S1 = (-1) ^+ m * (S0 * T1 - S1 * T0) :> {poly F}.
    by move: ((-1) ^+ m : {poly F}) => e; ring.
  by rewrite det -expr2 sqrr_sign eqpxx.
rewrite -(Gauss_dvdpr _ cop) => ->.
by rewrite dvdpNr dvdp_mull.
Qed.

(** The cofactor vanishes at every point at which the quotient is wrong. *)
Lemma errors_le_cofactor h R0 R1 T0 T1 :
  xgcd_inv A B R0 R1 T0 T1 -> R1 = h * T1 -> (size (error_points h) < size T1)%N.
Proof.
move=> [S0 [S1 [m [_ eq_R1 _ _ [_ lt_T]]]]] eq_h.
apply: max_poly_roots (uniq_error_points h); first by rewrite -size_poly_gt0; ssrlia.
apply/allP => x; rewrite mem_error_points => /andP[x_pts neq_x].
have root_A : A.[x] = 0 by apply/rootP; rewrite root_prod_XsubC.
have /eqP : R1.[x] = T1.[x] * B.[x] by rewrite eq_R1 hornerD !hornerM root_A mulr0 add0r.
by rewrite eq_h hornerM mulrC -subr_eq0 -mulrBr mulf_eq0 subr_eq0 (negPf neq_x) orbF.
Qed.

(** What [gao_decoding_common] does with the pair [(q1, q0)], whichever of its
    three quotient computations it takes. *)
Definition gao_quotient (k max_errors : nat) (R1 T1 : {poly F}) : Res string (seq F) :=
  if (max_errors < (size T1).-1)%N then
    Err "Gao decoding failure: Allowed at most max_errors errors but xgcd factor degree indicates more"%string
  else if R1 %% T1 != 0 then Err "Gao decoding failure: Division remainder is not zero"%string
  else if (k <= (size (R1 %/ T1)%R).-1)%N then too_high_degree F k
  else Ok (polyseq (R1 %/ T1)).

Lemma constant_quotient (q1 q0 : seq F) : poly_deg q0 = 0%N -> poly_coef q0 0 != 0 ->
  poly_div_scalar q1 (poly_coef q0 0) = polyseq (Poly q1 %/ Poly q0) /\ Poly q1 %% Poly q0 = 0.
Proof.
rewrite poly_degE poly_coefE => sz_q0 q0_neq0.
have eq_q0 : Poly q0 = ((Poly q0)`_0)%:P by apply: size1_polyC; ssrlia.
move: (Poly q0)`_0 q0_neq0 eq_q0 => c c_neq0 ->; rewrite poly_div_scalarE modpC //; split=> //.
rewrite -{2}[Poly q1]scale1r -(mulfV c_neq0) -scalerA -(mul_polyC c) mulrC mulpK //.
by rewrite polyC_eq0.
Qed.

Lemma gao_quotientE k max_errors (q1 q0 : seq F) : Poly q0 != 0 ->
  (if (max_errors < poly_deg q0)%N then
     Err "Gao decoding failure: Allowed at most max_errors errors but xgcd factor degree indicates more"%string
   else
   let* hr := (if (poly_deg q0 == 0%N) && (poly_coef q0 0 != 0)
               then Ok (poly_div_scalar q1 (poly_coef q0 0), poly_zero)
               else quo_rem q1 q0) in
   let (h, rem) := hr in
   if ~~ poly_is_zero rem then Err "Gao decoding failure: Division remainder is not zero"%string
   else if (k <= poly_deg h)%N then too_high_degree F k
   else Ok h) = gao_quotient k max_errors (Poly q1) (Poly q0).
Proof.
move=> q0_neq0; rewrite /gao_quotient -poly_degE; case: ifP => // _.
case: ifP => [/andP[/eqP deg0 coef0]|_].
  have [-> ->] := constant_quotient q1 deg0 coef0.
  by rewrite /= !eqxx /= poly_degE polyseqK.
by rewrite quo_remE (negPf q0_neq0) /= poly_is_zeroE poly_degE !polyseqK.
Qed.

(** The decoder reaches a pair of the Euclidean sequence that crosses the bound
    and answers with its quotient; the fast path is the pair [(B, 1)]. *)
Lemma gao_commonE k max_errors : (0 < k)%N -> (2 * max_errors + k <= size points)%N ->
  exists R0 R1 T0 T1,
    [/\ xgcd_inv A B R0 R1 T0 T1,
        (size R1 <= (size points + k) %/ 2)%N, ((size points + k) %/ 2 < size R0)%N
      & gao_decoding_common (size points) k max_errors B A = gao_quotient k max_errors R1 T1].
Proof.
move=> k_gt0 le_n; have lt_BA := size_B; have sz_A := size_A.
rewrite /gao_decoding_common ifN; first by rewrite -leqNgt; ssrlia.
rewrite ifN; first by rewrite -ltnNge; ssrlia.
have stop_gt0 : (0 < (size points + k) %/ 2)%N by ssrlia.
have stop_lt : ((size points + k) %/ 2 < size A)%N by ssrlia.
rewrite poly_degE polyseqK; case: ifP => [lt_stop|_].
  exists A, B, 0, 1; split=> //; [exact: xgcd_inv_init | ssrlia |].
  by rewrite /gao_quotient size_poly1 modp1 eqxx divp1.
have [||||r0 [r1 [t0 [t1 [eq_loop inv le_r1 lt_r0]]]]] :=
    @partial_xgcd_loopP F A B A B poly_zero poly_one ((size points + k) %/ 2) (size B).+1.
- by [].
- by rewrite polyseqK.
- by rewrite polyseqK.
- by rewrite !polyseqK /= cons_poly_def mul0r add0r; apply: xgcd_inv_init.
exists (Poly r0), (Poly r1), (Poly t0), (Poly t1); split=> //.
rewrite /partial_xgcd eq_loop [rbind _ _]/=; apply: gao_quotientE.
by have [S0 [S1 [m [_ _ _ _ [_ lt_t]]]]] := inv; rewrite -size_poly_gt0; ssrlia.
Qed.

Lemma gao_quotient_complete f k max_errors R0 R1 T0 T1 :
  xgcd_inv A B R0 R1 T0 T1 -> (0 < k)%N -> (2 * max_errors + k <= size points)%N ->
  (size R1 <= (size points + k) %/ 2)%N -> ((size points + k) %/ 2 < size R0)%N ->
  (size f <= k)%N -> (size (error_points f) <= max_errors)%N ->
  gao_quotient k max_errors R1 T1 = Ok (polyseq f).
Proof.
move=> inv k_gt0 le_n le_R1 lt_R0 sz_f le_e.
have [||-> dvd_T1] := @gao_key f k _ _ _ _ inv _ _ le_R1 lt_R0; [by [] | ssrlia |].
have T1_neq0 : T1 != 0.
  by have [S0 [S1 [m [_ _ _ _ [_ lt_t]]]]] := inv; rewrite -size_poly_gt0; ssrlia.
have sz_T1 : (size T1 <= size (locator f))%N.
  by apply: dvdp_leq dvd_T1; rewrite -size_poly_gt0 size_locator.
rewrite size_locator in sz_T1.
rewrite /gao_quotient ifN; first by rewrite -leqNgt; ssrlia.
rewrite modp_mull eqxx mulpK // ifN //; last by rewrite -ltnNge; ssrlia.
Qed.

Lemma gao_quotient_sound p k max_errors R0 R1 T0 T1 :
  xgcd_inv A B R0 R1 T0 T1 -> gao_quotient k max_errors R1 T1 = Ok p ->
  exists f, [/\ p = polyseq f, (size f <= k)%N & (size (error_points f) <= max_errors)%N].
Proof.
rewrite /gao_quotient => inv; case: ifP => // /negbT; rewrite -leqNgt => le_T1.
case: ifP => // /negbFE/eqP rem0; case: ifP => [_|/negbT]; first by rewrite /too_high_degree; case: k.
rewrite -ltnNge => lt_k [<-]; exists (R1 %/ T1); split=> //; first by ssrlia.
have := @errors_le_cofactor (R1 %/ T1) _ _ _ _ inv; rewrite {1}(divp_eq R1 T1) rem0 addr0.
by move=> /(_ erefl); ssrlia.
Qed.

(** Within the parameters of the code the decoder answers with the codeword of
    the received word, and with it alone. *)
Lemma gao_commonP k max_errors p : (0 < k)%N -> (2 * max_errors + k <= size points)%N ->
  gao_decoding_common (size points) k max_errors B A = Ok p <->
  exists f, [/\ p = polyseq f, (size f <= k)%N & (size (error_points f) <= max_errors)%N].
Proof.
move=> k_gt0 le_n; have [R0 [R1 [T0 [T1 [inv le_R1 lt_R0 ->]]]]] := gao_commonE k_gt0 le_n.
split=> [|[f [-> sz_f le_e]]]; first exact: gao_quotient_sound inv.
exact: gao_quotient_complete inv k_gt0 le_n le_R1 lt_R0 sz_f le_e.
Qed.
End Codewords.

(** ** The decoders *)

Section Decoders.
Variable F : fieldType.
Context {C : LagrangeCache F}.
Implicit Types (points values p : seq F) (k max_errors : nat).

(** The number of received values that are not those of [p]. *)
Definition disagreements points values p : nat :=
  count (fun xy => poly_eval p xy.1 != xy.2) (zip points values).

Lemma disagreementsE points values p :
  disagreements points values p = size (error_points points values (Poly p)).
Proof.
rewrite /disagreements size_map size_filter; apply: eq_count => xy.
by rewrite poly_evalE.
Qed.

Lemma gao_decodingE points values k max_errors : size values = size points ->
  gao_decoding points values k max_errors =
  gao_decoding_common (size points) k max_errors (interpolant points values)
    (\prod_(x <- points) ('X - x%:P) : {poly F}).
Proof.
move=> sz; rewrite /gao_decoding sz eqxx /= lagrange_interpolationE sz eqxx /=.
by rewrite vanishing_polyE.
Qed.

(** The precomputed basis and vanishing polynomial do not change the answer. *)
Lemma gao_decoding_with_field_hintsE points values k max_errors polys g :
  lagrange_polynomials points = Ok polys -> vanishing_poly points = Ok g ->
  gao_decoding_with_field_hints points values k max_errors polys g
    = gao_decoding points values k max_errors.
Proof.
rewrite lagrange_polynomialsE vanishing_polyE => -[<-] [<-].
rewrite /gao_decoding_with_field_hints; case: eqP => [sz|/eqP neq] /=.
  by rewrite gao_decodingE // lagrange_interpolation_with_polysE.
by rewrite /gao_decoding neq.
Qed.

Lemma gao_common_bad_params n k max_errors (r g : seq F) : (n < 2 * max_errors + k)%N ->
  exists msg, gao_decoding_common n k max_errors r g = Err msg.
Proof.
move=> lt_n; rewrite /gao_decoding_common; case: ltnP => [|le_k]; first by eexists.
by rewrite ifT; [ssrlia | eexists].
Qed.

Lemma gao_decodingP points values k max_errors p : uniq points -> (0 < k)%N ->
  gao_decoding points values k max_errors = Ok p <->
  [/\ size values = size points, (2 * max_errors + k <= size points)%N,
      poly_compress p = p, (size p <= k)%N & (disagreements points values p <= max_errors)%N].
Proof.
move=> uniq_pts k_gt0; case: (eqVneq (size values) (size points)) => [sz|neq]; last first.
  by rewrite /gao_decoding neq; split=> [//|[/eqP]]; rewrite (negPf neq).
rewrite gao_decodingE //; case: (leqP (2 * max_errors + k) (size points)) => [le_n|lt_n]; last first.
  by have [msg ->] := gao_common_bad_params (interpolant points values) (\prod_(x <- points) ('X - x%:P)) lt_n; split=> [//|[]].
apply: iff_trans (gao_commonP uniq_pts sz p k_gt0 le_n) _; rewrite disagreementsE.
split=> [[f [-> sz_f le_e]]|[_ _ eq_p sz_p le_e]]; first by rewrite poly_compressE polyseqK.
by exists (Poly p); rewrite -{1}eq_p poly_compressE; split=> //; rewrite -poly_compressE eq_p.
Qed.

Lemma gao_decoding_returned points values k max_errors : uniq points -> (0 < k)%N ->
  (exists p, gao_decoding points values k max_errors = Ok p) \/
  (exists msg, gao_decoding points values k max_errors = Err msg).
Proof.
move=> uniq_pts k_gt0; case: (eqVneq (size values) (size points)) => [sz|neq]; last first.
  by right; rewrite /gao_decoding neq; eexists.
rewrite gao_decodingE //; case: (leqP (2 * max_errors + k) (size points)) => [le_n|lt_n]; last first.
  by right; apply: gao_common_bad_params.
have [R0 [R1 [T0 [T1 [_ _ _ ->]]]]] := gao_commonE uniq_pts sz k_gt0 le_n.
rewrite /gao_quotient /too_high_degree; case: k k_gt0 {le_n} => // k _.
by repeat (case: ifP => _; first by right; eexists); left; eexists.
Qed.
End Decoders.

(** ** Properties *)

(** C15. Gao decoding corrects errors, and only that: for distinct points and a
    positive dimension [k], the decoder returns the vector [p] exactly when the
    parameters are those of a code that corrects [max_errors] errors and [p] is
    the compressed polynomial of degree below [k] that disagrees with at most
    [max_errors] of the received values. *)
Theorem gao_decoding_correct (F : fieldType) (C : LagrangeCache F)
    (points values p : seq F) (k max_errors : nat) :
  uniq points -> (0 < k)%N ->
  gao_decoding points values k max_errors = Ok p <->
  [/\ size values = size points, (2 * max_errors + k <= size points)%N,
      poly_compress p = p, (size p <= k)%N & (disagreements points values p <= max_errors)%N].
Proof. exact: gao_decodingP. Qed.

(** Gao decoding is total: on distinct points and for a positive dimension
    it returns a polynomial or an error, so the Euclidean loop ends, no division
    by zero and no underflow happens, whatever the received values are. *)
Theorem gao_decoding_total (F : fieldType) (C : LagrangeCache F)
    (points values : seq F) (k max_errors : nat) :
  uniq points -> (0 < k)%N -> returned (gao_decoding points values k max_errors).
Proof.
by move=> uniq_pts k_gt0; have [[p ->]|[msg ->]] := gao_decoding_returned values max_errors uniq_pts k_gt0.
Qed.

(** Reusing the precomputed basis and vanishing polynomial changes nothing:
    for every input, errors included, [gao_decoding_with_field_hints] answers
    what [gao_decoding] answers. *)
Theorem gao_hints_equiv (F : fieldType) (C : LagrangeCache F)
    (points values g : seq F) (polys : seq (seq F)) (k max_errors : nat) :
  lagrange_polynomials points = Ok polys -> vanishing_poly points = Ok g ->
  gao_decoding_with_field_hints points values k max_errors polys g
    = gao_decoding points values k max_errors.
Proof. exact: gao_decoding_with_field_hintsE. Qed.

(** ** Witnesses *)

Section Witnesses.
Let F7 : fieldType := 'F_7.
Let pts : seq F7 := [:: 1; 2%:R; 3%:R; 4%:R; 5%:R].
Let received : seq F7 := [:: 4%:R; 5%:R; 2%:R; 0; 1].
Let message : seq F7 := [:: 3%:R; 1].
Let cache := no_cache F7.

(** Five values of [3 + X], the third of which is wrong. *)
Lemma gao_decoding_correct_witness : gao_decoding (C := cache) pts received 2 1 = Ok message.
Proof.
apply/(@gao_decoding_correct F7 cache pts received message 2 1); [by vm_compute | by [] | split].
all: by vm_compute.
Defined.

Lemma gao_decoding_total_witness : returned (gao_decoding (C := cache) pts received 2 1).
Proof. by refine (@gao_decoding_total F7 cache pts received 2 1 _ _); vm_compute. Defined.

Lemma gao_hints_equiv_witness :
  let polys := if lagrange_polynomials pts is Ok polys then polys else [::] in
  let g := if vanishing_poly pts is Ok g then g else [::] in
  gao_decoding_with_field_hints pts received 2 1 polys g
    = gao_decoding (C := cache) pts received 2 1.
Proof.
move=> polys g; refine (@gao_hints_equiv F7 cache pts received g polys 2 1 _ _).
  by rewrite /polys lagrange_polynomialsE.
by rewrite /g vanishing_polyE.
Defined.
End Witnesses.
