(* ===== verification/Matrix.v ===== *)
(** * Vandermonde matrices and tables of powers
    (core/threshold-algebra/src/matrix.rs)

    The matrix whose rows are the powers of the points of an exceptional
    sequence, its product with a row vector, used to extract randomness from
    the contributions of the parties, and the tables of powers used by error
    correction. *)

From Stdlib Require Import String.
From mathcomp Require Import boot.
From mathcomp Require Import ssralg poly zmodp.
From S2P Require Import Prelude SsrLia Role PolyOps Structure.

Set Implicit Arguments.
Unset Strict Implicit.
Unset Printing Implicit Defensive.

Import GRing.Theory.
Local Open Scope ring_scope.

(** [chunks_exact(w)] of a slice, for a positive [w]: a shorter last chunk is
    left out. *)
Definition chunks_exact {A : Type} (w : nat) (s : seq A) : seq (seq A) :=
  [seq take w (drop (i * w) s) | i <- iota 0 (size s %/ w)].

Section Matrix.
Variable R : comNzRingType.

(** [compute_powers]: the powers of [point] up to [degree], each from the one
    before. *)
Definition compute_powers (point : R) (degree : nat) : seq R :=
  foldl (fun powers i => rcons powers (powers`_(i - 1) * point)) [:: 1] (iota 1 degree).

Definition compute_powers_list (points : seq R) (max_exponent : nat) : seq (seq R) :=
  foldl (fun alpha_powers p => rcons alpha_powers (compute_powers p max_exponent)) [::] points.

Record VdmMatrix := mkVdmMatrix { vdm_height : nat; vdm_width : nat; vdm_coefs : seq R }.

Definition vdm_is_empty (m : VdmMatrix) : bool := nilp (vdm_coefs m).

(** The powers pushed for one row, after its leading one. *)
Fixpoint push_powers (coefs : seq R) (power point : R) (n : nat) : seq R :=
  if n is n'.+1
  then push_powers (rcons coefs (power * point)) (power * point) point n'
  else coefs.

Definition from_exceptional_sequence {X : ExceptionalSequence R} (height width : nat)
    : Res string VdmMatrix :=
  if width == 0%N then Ok (mkVdmMatrix height width [::])
  else
    let* coefs := rfold (fun coefs idx =>
        let* point := get_from_exceptional_sequence (idx + 1) in
        Ok (push_powers (rcons coefs 1) 1 point (width - 1))) [::] (iota 0 height) in
    Ok (mkVdmMatrix height width coefs).

(** [for (res_coef, matrix_coef) in res.iter_mut().zip(row)]. *)
Fixpoint add_scaled_row (res : seq R) (lhs_coef : R) (row : seq R) : seq R :=
  match res, row with
  | r :: res', m :: row' => r + lhs_coef * m :: add_scaled_row res' lhs_coef row'
  | _, _ => res
  end.

Definition mul_vector (m : VdmMatrix) (lhs : seq R) : Res string (seq R) :=
  if size lhs != vdm_height m then Err "Cannot multiply vector by VDM matrix"%string
  else if vdm_width m == 0%N then Ok [::]
  else Ok (foldl (fun res lr => add_scaled_row res lr.1 lr.2) (nseq (vdm_width m) 0)
             (zip lhs (chunks_exact (vdm_width m) (vdm_coefs m)))).

(** ** Tables of powers *)

Lemma compute_powersE point degree :
  compute_powers point degree = [seq point ^+ i | i <- iota 0 degree.+1].
Proof.
rewrite /compute_powers; elim: degree => [|d IHd]; first by rewrite /= expr0.
rewrite (iota_rcons 1) foldl_rcons IHd (iota_rcons 0 d.+1) map_rcons add1n subn1; congr rcons.
by rewrite (nth_map 0%N) ?size_iota // nth_iota // -exprSr.
Qed.

Lemma size_compute_powers point degree : size (compute_powers point degree) = degree.+1.
Proof. by rewrite compute_powersE size_map size_iota. Qed.

Lemma compute_powers_listE points m :
  compute_powers_list points m = [seq compute_powers p m | p <- points].
Proof.
rewrite /compute_powers_list -[RHS]cat0s; elim: points [::] => [|p ps IHp] acc /=.
  by rewrite cats0.
by rewrite IHp cat_rcons.
Qed.

Lemma push_powersE coefs power point n :
  push_powers coefs power point n = coefs ++ [seq power * point ^+ i.+1 | i <- iota 0 n].
Proof.
elim: n coefs power => [|n IHn] coefs power /=; first by rewrite cats0.
rewrite IHn cat_rcons expr1 -[1%N]addn0 iotaDl -map_comp; congr (_ ++ _ :: _).
by apply: eq_map => i /=; rewrite -mulrA -exprS.
Qed.

(** The rows of the matrix, and its coefficients as their concatenation. *)
Definition vdm_rows (points : seq R) (width : nat) : seq (seq R) :=
  [seq [seq p ^+ j | j <- iota 0 width] | p <- points].

Lemma from_exceptional_sequenceE {X : ExceptionalSequence R} height width m :
  (0 < width)%N -> from_exceptional_sequence height width = Ok m ->
  exists2 points, rmap get_from_exceptional_sequence (iota 1 height) = Ok points
                & m = mkVdmMatrix height width (flatten (vdm_rows points width)).
Proof.
case: width => // w _; rewrite /from_exceptional_sequence /= subn1 /=.
set step := (fun _ _ => _); suff H n k acc coefs :
    rfold step acc (iota n k) = Ok coefs ->
    exists2 points, rmap (@get_from_exceptional_sequence R X) (iota n.+1 k) = Ok points
                  & coefs = acc ++ flatten (vdm_rows points w.+1).
  by case eq_c: rfold => [coefs|||] //= [<-]; have [ps eq_ps ->] := H _ _ _ _ eq_c; exists ps.
elim: k n acc => [|k IHk] n acc /= => [[<-]|]; first by exists [::]; rewrite ?cats0.
rewrite /step addn1; case: (get_from_exceptional_sequence _) => [p|||] //=.
case/IHk=> ps -> -> /=; exists (p :: ps) => //=; rewrite push_powersE -catA cat_rcons.
rewrite expr0 -[1%N]addn0 iotaDl -map_comp /=; congr (_ ++ _ :: (_ ++ _)).
by apply: eq_map => i; rewrite mul1r.
Qed.

(** ** The product *)

Lemma chunks_exact_flatten (A : Type) w (rows : seq (seq A)) : (0 < w)%N ->
  all (fun r => size r == w) rows -> chunks_exact w (flatten rows) = rows.
Proof.
move=> w_gt0; rewrite /chunks_exact; elim: rows => [|r rows IHr] /=; first by rewrite div0n.
case/andP=> /eqP sz_r all_r; rewrite size_cat sz_r divnDl ?dvdnn // divnn w_gt0 add1n /=.
rewrite mul0n drop0 take_size_cat //; congr (_ :: _).
rewrite -[1%N]addn0 iotaDl -map_comp -[RHS]IHr //; apply: eq_map => i /=.
by rewrite drop_cat sz_r mulSn ltnNge leq_addr /= addKn.
Qed.

Lemma nth_add_scaled_row res c row j : size row = size res ->
  (add_scaled_row res c row)`_j = res`_j + c * row`_j.
Proof.
elim: res row j => [|r res IHr] [|x row] [|j] //= => [_|_|[sz]]; rewrite ?nth_nil ?mulr0 ?addr0 //.
exact: IHr.
Qed.

Lemma size_add_scaled_row res c row : size (add_scaled_row res c row) = size res.
Proof. by elim: res row => [|r res IHr] [|x row] //=; rewrite IHr. Qed.

Lemma mul_rowsE w (points lhs res : seq R) : size res = w -> size lhs = size points ->
  let out := foldl (fun res lr => add_scaled_row res lr.1 lr.2) res (zip lhs (vdm_rows points w)) in
  size out = w /\
  forall j, (j < w)%N -> out`_j = res`_j + \sum_(i < size points) lhs`_i * points`_i ^+ j.
Proof.
elim: points lhs res => [|p ps IHp] [|l lhs] res //= sz_res => [_|[sz_lhs]].
  by split=> // j _; rewrite big_ord0 addr0.
have [||-> out_j] := IHp lhs (add_scaled_row res l [seq p ^+ j | j <- iota 0 w]) _ _ => //.
  by rewrite size_add_scaled_row.
split=> // j lt_j; rewrite out_j // nth_add_scaled_row ?size_map ?size_iota // big_ord_recl addrA.
by rewrite (nth_map 0%N) ?size_iota // nth_iota.
Qed.

(** The entries of the product are the power sums of the vector. *)
Lemma mul_vectorE {X : ExceptionalSequence R} height width m points lhs :
  rmap get_from_exceptional_sequence (iota 1 height) = Ok points ->
  from_exceptional_sequence height width = Ok m -> size lhs = height ->
  mul_vector m lhs = Ok [seq \sum_(i < height) lhs`_i * points`_i ^+ j | j <- iota 0 width].
Proof.
move=> eq_pts; case: (posnP width) => [->|w_gt0].
  by case=> <- sz; rewrite /mul_vector /= sz eqxx.
case/(from_exceptional_sequenceE w_gt0) => pts; rewrite eq_pts => -[<-] -> sz_lhs.
have sz_pts : size points = height by rewrite (size_rmap eq_pts) size_iota.
rewrite /mul_vector /= sz_lhs eqxx /= (gtn_eqF w_gt0) chunks_exact_flatten //.
  by apply/allP => r /mapP[p _ ->]; rewrite size_map size_iota.
have [||sz_out out_j] := @mul_rowsE width points lhs (nseq width 0).
- by rewrite size_nseq.
- by rewrite sz_pts.
congr Ok; apply: (@eq_from_nth _ 0) => [|j]; rewrite sz_out ?size_map ?size_iota // => lt_j.
by rewrite out_j // nth_nseq lt_j add0r sz_pts (nth_map 0%N) ?size_iota // nth_iota.
Qed.
End Matrix.

(** ** Extraction *)

Section Extraction.
Variable R : comNzRingType.
Implicit Types (points delta : seq R).

Lemma power_sums_poly n w points delta (P : {poly R}) : (size P <= w)%N ->
  (forall j, (j < w)%N -> \sum_(i < n) delta`_i * points`_i ^+ j = 0) ->
  \sum_(i < n) delta`_i * P.[points`_i] = 0.
Proof.
move=> sz_P sums; under eq_bigr do rewrite horner_coef big_distrr.
rewrite exchange_big /= big1 // => j _.
under eq_bigr do rewrite mulrCA; rewrite -big_distrr /= sums ?mulr0 //.
by apply: leq_trans (ltn_ord j) _.
Qed.

Lemma prod_unit (I : eqType) (r : seq I) (f : I -> R) :
  {in r, forall i, exists c, f i * c = 1} -> exists c, (\prod_(i <- r) f i) * c = 1.
Proof.
elim: r => [|i r IHr] unit_f; first by exists 1; rewrite big_nil mulr1.
have [|c eq_c] := IHr; first by move=> j j_r; apply: unit_f; rewrite inE j_r orbT.
by have [d eq_d] := unit_f i (mem_head _ _); exists (d * c); rewrite big_cons mulrACA eq_d eq_c mulr1.
Qed.

(** A vector with at most [w] nonzero entries whose first [w] power sums vanish
    is zero, when the differences of the points are invertible. *)
Lemma power_sums_inj n w points delta :
  (forall i j, (i < n)%N -> (j < n)%N -> i != j -> exists c, (points`_i - points`_j) * c = 1) ->
  (count (fun i => (delta`_i != 0)%R) (iota 0 n) <= w)%N ->
  (forall j, (j < w)%N -> \sum_(i < n) delta`_i * points`_i ^+ j = 0) ->
  forall i, (i < n)%N -> delta`_i = 0.
Proof.
move=> unit_pts le_w sums i lt_i; apply/eqP/negPn/negP => neq_i.
pose S := [seq j <- iota 0 n | delta`_j != 0]; pose D := rem i S.
have i_S : i \in S by rewrite mem_filter neq_i mem_iota0.
have memD j : (j \in D) = [&& j != i, delta`_j != 0 & (j < n)%N].
  by rewrite mem_rem_uniq ?filter_uniq ?iota_uniq // inE mem_filter mem_iota0.
pose P : {poly R} := \prod_(j <- D) ('X - (points`_j)%:P).
have sz_P : (size P <= w)%N.
  rewrite size_prod_XsubC size_rem //; apply: leq_trans le_w; rewrite -size_filter -/S.
  by case: S i_S {D memD P}.
have := power_sums_poly sz_P sums; rewrite (bigD1 (Ordinal lt_i)) //= big1 ?addr0.
  move=> j neq_j; have [-> | neq_dj] := eqVneq delta`_j 0; first by rewrite mul0r.
  suff /rootP-> : root P points`_j by rewrite mulr0.
  rewrite /P (big_rem (val j)) /= ?memD ?neq_dj ?ltn_ord ?andbT //.
  by rewrite rootE hornerM hornerXsubC subrr mul0r.
have [c eq_c] : exists c, P.[points`_i] * c = 1.
  rewrite horner_prod; apply: prod_unit => j; rewrite memD hornerXsubC => /and3P[neq_j _ lt_j].
  by apply: unit_pts; rewrite // eq_sym.
by move=> eq0; move: neq_i; rewrite -[delta`_i]mulr1 -eq_c mulrA eq0 mul0r eqxx.
Qed.
End Extraction.

(** ** Properties *)

(** Randomness extraction loses nothing: the product of a vector by a
    Vandermonde matrix of [width] columns determines the vector among those
    that differ from it in at most [width] entries.  So when all but [width]
    contributions are fixed, the remaining ones are mapped injectively, which
    is what makes the extracted values uniform. *)
Theorem vdm_extraction_injective (R : comNzRingType) (X : ExceptionalSequence R)
    (height width : nat) (m : VdmMatrix R) (lhs rhs : seq R) :
  from_exceptional_sequence height width = Ok m ->
  size lhs = height -> size rhs = height ->
  (count (fun i => (lhs`_i != rhs`_i)%R) (iota 0 height) <= width)%N ->
  mul_vector m lhs = mul_vector m rhs -> lhs = rhs.
Proof.
move=> eq_m sz_l sz_r le_w eq_out; apply: (@eq_from_nth _ 0) => [|i]; rewrite ?sz_l ?sz_r // => lt_i.
case: (posnP width) => [w0|w_gt0].
  have := le_w; rewrite w0 leqNgt -has_count => /hasPn/(_ i); rewrite mem_iota0 => /(_ lt_i).
  by rewrite negbK => /eqP.
have [points eq_pts _] := from_exceptional_sequenceE w_gt0 eq_m.
have [] := (mul_vectorE eq_pts eq_m sz_l, mul_vectorE eq_pts eq_m sz_r).
rewrite eq_out => -> [eq_sums].
pose delta := [seq lhs`_i - rhs`_i | i <- iota 0 height].
have delta_i j : (j < height)%N -> delta`_j = lhs`_j - rhs`_j.
  by move=> lt_j; rewrite (nth_map 0%N) ?size_iota // nth_iota.
apply/eqP; rewrite -subr_eq0 -delta_i //; apply/eqP.
have sz_pts : size points = height by rewrite (size_rmap eq_pts) size_iota.
apply: (@power_sums_inj R height width points delta) => // [j k lt_j lt_k neq||j lt_j].
- have lt_in q : (q < height)%N -> (q < size (iota 1 height))%N by rewrite size_iota.
  have := nth_rmap 0%N 0 eq_pts (lt_in _ lt_j); have := nth_rmap 0%N 0 eq_pts (lt_in _ lt_k).
  rewrite !nth_iota // => eq_k eq_j.
  by apply: exceptional_diff_unit eq_j eq_k; rewrite !add1n eqSS.
- rewrite (eq_in_count (a2 := fun i => lhs`_i != rhs`_i)) // => j; rewrite mem_iota0 => lt_j.
  by rewrite delta_i // subr_eq0.
have := congr1 (fun s => s`_j) eq_sums; rewrite !(nth_map 0%N) ?size_iota // nth_iota // add0n => eq_j.
under eq_bigr => k _ do rewrite delta_i // mulrBl; rewrite sumrB.
by rewrite -eq_j subrr.
Qed.

Section Witness.
Let F7_inj : {in gtn (2 ^ 2) &, injective (fun i : nat => i%:R : 'F_7)}.
Proof. by case=> [|[|[|[|i]]]] // [|[|[|[|j]]]] // _ _ /eqP; vm_compute. Qed.
Let seq7 : ExceptionalSequence 'F_7 := gf_exceptional_sequence F7_inj.

Lemma vdm_extraction_injective_witness : [:: 1; 2%:R; 3%:R] = [:: 1; 1 + 1; 3%:R] :> seq 'F_7.
Proof.
by refine (@vdm_extraction_injective 'F_7 seq7 3 2 _ [:: 1; 2%:R; 3%:R] [:: 1; 1 + 1; 3%:R]
  erefl erefl erefl _ _).
Defined.
End Witness.
