(* ===== verification/Bivariate.v ===== *)
(** * Bivariate polynomials (core/threshold-algebra/src/bivariate.rs)

    The square coefficient matrix that a dealer of the verifiable secret sharing
    samples, and its evaluations in one variable and in both. *)

From Stdlib Require Import String.
From mathcomp Require Import boot.
From mathcomp Require Import ssralg poly.
From S2P Require Import Prelude SsrLia PolyOps Matrix.

Set Implicit Arguments.
Unset Strict Implicit.
Unset Printing Implicit Defensive.

Import GRing.Theory.
Local Open Scope ring_scope.

Section Bivariate.
Variable R : comNzRingType.

(** [struct BivariatePoly]: the rows of the matrix one after the other. *)
Record BivariatePoly := mkBivariatePoly { bi_coefs : seq R; bi_degree : nat }.

Definition bi_dim (b : BivariatePoly) : nat := (bi_degree b + 1)%N.

(** [BivariatePoly::from_secret]: [rnd] is what the generator returns to the
    successive calls of [Z::sample]. *)
Definition bi_from_secret (rnd : nat -> R) (secret : R) (degree : nat) : BivariatePoly :=
  let d := (degree + 1)%N in
  let n := (d * d)%N in
  mkBivariatePoly (secret :: [seq rnd i | i <- iota 0 (n - 1)]) degree.

(** [for (res_coef, coef) in res.iter_mut().zip(row)] with
    [res_coef = res_coef * alpha + coef]. *)
Fixpoint horner_row (res : seq R) (alpha : R) (row : seq R) : seq R :=
  match res, row with
  | r :: res', c :: row' => r * alpha + c :: horner_row res' alpha row'
  | _, _ => res
  end.

Definition partial_x_eval (b : BivariatePoly) (alpha : R) : seq R :=
  let d := bi_dim b in
  let coefs := bi_coefs b in
  let res := take d (drop ((d - 1) * d) coefs) in
  let rows := rev (chunks_exact d (take ((d - 1) * d) coefs)) in
  poly_from_coefs (foldl (fun res row => horner_row res alpha row) res rows).

(** The Horner loop on one row: [acc = row\[d - 1\]], then the others from the
    last to the first. *)
Definition eval_row (row : seq R) (d : nat) (alpha : R) : R :=
  foldl (fun acc c => acc * alpha + c) row`_(d - 1) (rev (take (d - 1) row)).

Definition partial_y_eval (b : BivariatePoly) (alpha : R) : seq R :=
  let d := bi_dim b in
  poly_from_coefs [seq eval_row row d alpha | row <- chunks_exact d (bi_coefs b)].

(** [full_eval]: [rows.next().expect("d >= 1")], then the remaining rows. *)
Definition full_eval (b : BivariatePoly) (alpha_x alpha_y : R) : Res string R :=
  let d := bi_dim b in
  match rev (chunks_exact d (bi_coefs b)) with
  | [::] => Panic
  | last :: rows =>
      Ok (foldl (fun acc row => acc * alpha_x + eval_row row d alpha_y)
            (eval_row last d alpha_y) rows)
  end.

(** ** The polynomial *)

(** The type's invariant: [coefs.len() == (degree + 1)^2]. *)
Definition bi_wf (b : BivariatePoly) : bool := size (bi_coefs b) == (bi_dim b * bi_dim b)%N.

Definition bi_row (b : BivariatePoly) (i : nat) : seq R :=
  take (bi_dim b) (drop (i * bi_dim b) (bi_coefs b)).

(** [F(X, Y)], the coefficient of [X^i] being a polynomial in [Y]. *)
Definition bi_poly (b : BivariatePoly) : {poly {poly R}} :=
  \poly_(i < bi_dim b) Poly (bi_row b i).

Lemma horner_foldl (s : seq R) acc alpha :
  foldl (fun acc c => acc * alpha + c) acc (rev s) = acc * alpha ^+ size s + (Poly s).[alpha].
Proof.
rewrite foldl_rev horner_Poly; elim: s => [|c s IHs] /=; first by rewrite mulr1 addr0.
by rewrite IHs exprSr mulrDl addrA mulrA.
Qed.

Lemma eval_rowE (row : seq R) d alpha : (0 < d)%N -> size row = d ->
  eval_row row d alpha = (Poly row).[alpha].
Proof.
case: d => // d _ sz; rewrite -poly_evalE /eval_row /poly_eval subn1 /=.
rewrite -{3}(cat_take_drop d row) (drop_nth 0) ?sz // drop_oversize ?sz // cats1 rev_rcons /=.
by rewrite mul0r add0r.
Qed.

Section WellFormed.
Variable b : BivariatePoly.
Hypothesis wf : bi_wf b.
Let d := bi_dim b.

Lemma d_gt0 : (0 < d)%N.
Proof. by rewrite /d /bi_dim addn1. Qed.

Lemma size_bi_coefs : size (bi_coefs b) = (d * d)%N.
Proof. exact/eqP. Qed.

Lemma size_bi_row i : (i < d)%N -> size (bi_row b i) = d.
Proof.
move=> lt_i; rewrite size_take size_drop size_bi_coefs -/d -mulnBl.
have : (1 * d <= (d - i) * d)%N by rewrite leq_mul2r subn_gt0 lt_i orbT.
by rewrite mul1n leq_eqVlt => /orP[/eqP <-|->]; rewrite ?ltnn.
Qed.

Lemma chunks_bi : chunks_exact d (bi_coefs b) = [seq bi_row b i | i <- iota 0 d].
Proof. by rewrite /chunks_exact size_bi_coefs mulnK ?d_gt0. Qed.

Lemma chunks_bi_front :
  chunks_exact d (take ((d - 1) * d) (bi_coefs b)) = [seq bi_row b i | i <- iota 0 (d - 1)].
Proof.
rewrite /chunks_exact size_takel ?size_bi_coefs ?leq_mul2r ?leq_subr ?orbT // mulnK ?d_gt0 //.
apply/eq_in_map => i; rewrite mem_iota0 => lt_i; rewrite /bi_row -/d !take_drop take_takel //.
by rewrite -mulSn leq_mul2r lt_i orbT.
Qed.

Lemma coef_bi_poly i : (bi_poly b)`_i = if (i < d)%N then Poly (bi_row b i) else 0.
Proof. by rewrite coef_poly. Qed.

Lemma size_horner_row res alpha (row : seq R) : size (horner_row res alpha row) = size res.
Proof. by elim: res row => [|r res IHr] [|c row] //=; rewrite IHr. Qed.

Lemma Poly_horner_row res alpha (row : seq R) : size row = size res ->
  Poly (horner_row res alpha row) = alpha *: Poly res + Poly row.
Proof.
move=> sz; apply/polyP=> j; rewrite coefD coefZ !coef_Poly.
elim: res row j sz => [|r res IHr] [|c row] [|j] //= => [||[sz]|[sz]]; rewrite ?mulr0 ?addr0 //.
  by rewrite mulrC.
exact: IHr.
Qed.

Lemma size_horner_rows (rows : seq (seq R)) res alpha :
  size (foldl (fun res row => horner_row res alpha row) res rows) = size res.
Proof. by elim: rows res => //= row rows IHr res; rewrite IHr size_horner_row. Qed.

(** The Horner loop over whole rows. *)
Lemma horner_rowsE (rows : seq (seq R)) res alpha : size res = d -> all (fun r => size r == d) rows ->
  Poly (foldl (fun res row => horner_row res alpha row) res rows)
    = alpha ^+ size rows *: Poly res
      + \sum_(i < size rows) alpha ^+ i *: Poly (nth [::] (rev rows) i).
Proof.
elim: rows res => [|row rows IHr] res sz_res /=; first by rewrite scale1r big_ord0 addr0.
case/andP=> /eqP sz_row all_r; rewrite IHr ?size_horner_row // Poly_horner_row ?sz_row //.
rewrite scalerDr scalerA -exprSr -addrA big_ord_recr /= rev_cons nth_rcons size_rev ltnn eqxx.
rewrite [X in _ + X]addrC; congr (_ + (_ + _)).
by apply: eq_bigr => i _; rewrite nth_rcons size_rev ltn_ord.
Qed.

Lemma all_size_rows n : (n <= d)%N -> all (fun r => size r == d) (rev [seq bi_row b i | i <- iota 0 n]).
Proof.
move=> le_n; rewrite all_rev; apply/allP => r /mapP[i]; rewrite mem_iota0 => lt_i ->.
by rewrite size_bi_row ?eqxx // (leq_trans lt_i).
Qed.

Lemma bi_poly_evalX alpha : (bi_poly b).[alpha%:P] = \sum_(i < d) alpha ^+ i *: Poly (bi_row b i).
Proof.
rewrite horner_poly; apply: eq_bigr => i _; by rewrite mulrC -polyC_exp mul_polyC.
Qed.

Lemma partial_x_evalE alpha : Poly (partial_x_eval b alpha) = (bi_poly b).[alpha%:P].
Proof.
rewrite /partial_x_eval /poly_from_coefs Poly_compress -/d chunks_bi_front.
have lt_d : (d - 1 < d)%N by rewrite subn1 prednK ?d_gt0.
rewrite horner_rowsE; [exact: size_bi_row | by rewrite all_size_rows ?leq_subr |].
rewrite size_rev size_map size_iota revK bi_poly_evalX.
have eq_d : d = (d - 1).+1 by rewrite subn1 prednK ?d_gt0.
rewrite [in RHS]eq_d big_ord_recr addrC; congr (_ + _); apply: eq_bigr => i _.
by rewrite (nth_map 0%N) ?size_iota // nth_iota.
Qed.

Lemma partial_y_evalE alpha :
  Poly (partial_y_eval b alpha) = \poly_(i < d) (Poly (bi_row b i)).[alpha].
Proof.
rewrite /partial_y_eval /poly_from_coefs Poly_compress -/d chunks_bi -map_comp.
apply/polyP=> i; rewrite coef_Poly coef_poly.
case: (ltnP i d) => [lt_i|le_i]; last by rewrite nth_default // size_map size_iota.
by rewrite (nth_map 0%N) ?size_iota //= nth_iota // eval_rowE ?d_gt0 ?size_bi_row.
Qed.

Lemma bi_poly_evalY x y :
  (\poly_(i < d) (Poly (bi_row b i)).[y]).[x] = (bi_poly b).[x%:P].[y].
Proof.
rewrite horner_poly bi_poly_evalX horner_sum; apply: eq_bigr => i _.
by rewrite hornerZ mulrC.
Qed.

Lemma full_evalE x y : full_eval b x y = Ok (bi_poly b).[x%:P].[y].
Proof.
rewrite /full_eval -/d chunks_bi -map_rev.
have eq_d : d = (d - 1).+1 by rewrite subn1 prednK ?d_gt0.
have lt_d : (d - 1 < d)%N by rewrite {2}eq_d.
rewrite {1}eq_d iota_rcons rev_rcons /= add0n.
rewrite -(foldl_map (fun acc c => acc * x + c) (fun row => eval_row row d y)) -map_comp map_rev.
rewrite horner_foldl size_map size_iota eval_rowE ?d_gt0 ?size_bi_row ?lt_d //.
congr Ok; rewrite -bi_poly_evalY horner_poly [in RHS]eq_d big_ord_recr /= addrC; congr (_ + _).
rewrite (@horner_coef_wide _ (d - 1)).
  by rewrite (leq_trans (size_Poly _)) // size_map size_iota.
apply: eq_bigr => i _; rewrite coef_Poly (nth_map 0%N) ?size_iota // nth_iota //= add0n.
by rewrite eval_rowE ?d_gt0 ?size_bi_row // (leq_trans (ltn_ord i)) // leq_subr.
Qed.
End WellFormed.
End Bivariate.

(** ** Properties *)

(** The three evaluations of a bivariate polynomial agree: evaluating [X]
    and then [Y], [Y] and then [X], or both at once gives the same value, and
    the polynomial sampled for a secret evaluates to the secret at the origin
    and to univariate polynomials of degree at most [degree].  The pairwise
    checks of the verifiable secret sharing rest on this. *)
Theorem bivariate_evals_agree (R : comNzRingType) (rnd : nat -> R) (secret x y : R) (degree : nat) :
  let b := bi_from_secret rnd secret degree in
  [/\ full_eval b x y = Ok (poly_eval (partial_x_eval b x) y),
      full_eval b x y = Ok (poly_eval (partial_y_eval b y) x),
      full_eval b 0 0 = Ok secret,
      (size (partial_x_eval b x) <= degree.+1)%N
    & (size (partial_y_eval b y) <= degree.+1)%N].
Proof.
move=> b; have wf : bi_wf b.
  by rewrite /bi_wf /= size_map size_iota /bi_dim /= addn1 mulSn addSn subn1.
rewrite !(full_evalE wf) !poly_evalE partial_x_evalE // partial_y_evalE // bi_poly_evalY.
split=> //.
- rewrite polyC0 !horner_coef0 coef_bi_poly d_gt0 coef_Poly /bi_row mul0n drop0 nth_take //.
  exact: d_gt0.
- rewrite /partial_x_eval /poly_from_coefs poly_compressE (leq_trans (size_Poly _)) //.
  by rewrite size_horner_rows -/(bi_row b _) size_bi_row // /bi_dim /= addn1 ?subn1.
- rewrite /partial_y_eval /poly_from_coefs poly_compressE (leq_trans (size_Poly _)) //.
  by rewrite size_map chunks_bi // size_map size_iota /bi_dim /= addn1.
Qed.
