(* ===== verification/Shamir.v ===== *)
(** * Shamir sharings (core/threshold-algebra/src/sharing/share.rs and
    core/threshold-algebra/src/sharing/shamir.rs)

    Shares and collections of shares, the sharing of a secret, and the robust
    reconstruction used when values are opened, in a synchronous and in an
    asynchronous network.  Reconstruction calls the error correction of the
    ring, which is the class [ErrorCorrect]: its laws say what a decoder
    promises, and the theorems of this file hold for every decoder. *)

From Stdlib Require Import String.
From HB Require Import structures.
From mathcomp Require Import boot.
From mathcomp Require Import ssralg poly zmodp.
From S2P Require Import Prelude SsrLia Role PolyOps Structure Matrix.

Set Implicit Arguments.
Unset Strict Implicit.
Unset Printing Implicit Defensive.

Import GRing.Theory.
Local Open Scope ring_scope.

(** ** Shares *)

Section Share.
Variable R : comNzRingType.

Record Share := mkShare { share_owner : Role; share_value : R }.

Definition share_pair (s : Share) : nat * R := (share_owner s, share_value s).

Lemma share_pairK : cancel share_pair (fun p => mkShare p.1 p.2).
Proof. by case. Qed.

HB.instance Definition _ := Equality.copy Share (can_type share_pairK).

(** [Add for Share] and [Sub for Share]: the owners are compared by a debug
    assertion. *)
Definition share_add (a b : Share) : Res string Share :=
  if share_owner a == share_owner b :> nat
  then Ok (mkShare (share_owner a) (share_value a + share_value b)) else Panic.

Definition share_sub (a b : Share) : Res string Share :=
  if share_owner a == share_owner b :> nat
  then Ok (mkShare (share_owner a) (share_value a - share_value b)) else Panic.

(** [Add<Z>], [Sub<Z>] and [Mul<Z>] for a share and a ring element. *)
Definition share_add_const (a : Share) (x : R) := mkShare (share_owner a) (share_value a + x).
Definition share_sub_const (a : Share) (x : R) := mkShare (share_owner a) (share_value a - x).
Definition share_mul_const (a : Share) (x : R) := mkShare (share_owner a) (share_value a * x).

(** ** Collections of shares *)

(** [struct ShamirSharings { shares: Vec<Share<Z>> }]. *)
Definition ShamirSharings := seq Share.

Definition owners (sh : ShamirSharings) : seq nat := [seq share_owner s | s <- sh].

(** [ShamirSharings::create]: a stable sort by owner. *)
Definition shamir_create (shares : seq Share) : ShamirSharings :=
  sort (fun a b => (share_owner a <= share_owner b)%N) shares.

(** [binary_search_by_key] on a vector sorted by owner: the position of the
    owner, or the position at which it would be inserted. *)
Definition search_owner (sh : ShamirSharings) (owner : Role) : nat + nat :=
  let pos := find (fun s => (owner <= share_owner s)%N) sh in
  if (pos < size sh)%N && (nth owner (owners sh) pos == owner) then inl pos else inr pos.

Definition shamir_add_share (sh : ShamirSharings) (share : Share) : ShamirSharings :=
  match search_owner sh (share_owner share) with
  | inl pos => set_nth share sh pos share
  | inr pos => take pos sh ++ share :: drop pos sh
  end.

(** [zip_longest], with the operation of [Both] and the share kept when the
    other side has ended. *)
Fixpoint zip_longest_with (both : Share -> Share -> Res string Share) (xs ys : ShamirSharings)
    : Res string ShamirSharings :=
  match xs, ys with
  | x :: xs', y :: ys' =>
      let* z := both x y in let* zs := zip_longest_with both xs' ys' in Ok (z :: zs)
  | _ :: _, [::] => Ok xs
  | [::], _ => Ok ys
  end.

(** [Add] and [Sub] for sharings. *)
Definition shamir_add (xs ys : ShamirSharings) := zip_longest_with share_add xs ys.
Definition shamir_sub (xs ys : ShamirSharings) := zip_longest_with share_sub xs ys.

(** [Add<Z>] and [Mul<Z>] for a sharing and a ring element. *)
Definition shamir_add_const (sh : ShamirSharings) (x : R) : ShamirSharings :=
  [seq share_add_const s x | s <- sh].
Definition shamir_mul_const (sh : ShamirSharings) (x : R) : ShamirSharings :=
  [seq share_mul_const s x | s <- sh].

(** [fill_indexed_shares]: one value per sharing, missing values being zero. *)
Definition fill_indexed_shares (sharings : seq ShamirSharings) (values : seq R) (party_id : Role)
    : seq ShamirSharings :=
  [seq shamir_add_share vs.2 (mkShare party_id vs.1)
     | vs <- zip (vec_resize values (size sharings)) sharings].

(** ** Sharing a secret *)

Context {X : ExceptionalSequence R}.

(** [InputOp::share]; [rnd] is what the generator returns. *)
Definition shamir_share (rnd : nat -> R) (secret : R) (num_parties threshold : nat)
    : Res string ShamirSharings :=
  if (num_parties <= threshold)%N
  then Err "number of parties must be strictly bigger than the threshold"%string
  else
    let* role_with_embeddings := rmap (fun party_id =>
        let* party := indexed_from_one party_id in
        let* embedding := embed_role_to_exceptional_sequence party in
        Ok (party, embedding)) (iota 1 num_parties) in
    let poly := poly_sample_random_with_fixed_constant rnd secret threshold in
    Ok [seq mkShare re.1 (poly_eval poly re.2) | re <- role_with_embeddings].

(** ** What a sharing holds *)

(** A share is on a polynomial when its value is that of the polynomial at the
    point of its owner. *)
Definition on_poly (g : {poly R}) (s : Share) : bool :=
  if embed_role_to_exceptional_sequence (share_owner s) is Ok x then share_value s == g.[x] else false.

Definition wrong_shares (g : {poly R}) (sh : ShamirSharings) : nat :=
  count (fun s => ~~ on_poly g s) sh.

Definition embeddable (r : Role) : bool :=
  if embed_role_to_exceptional_sequence (R := R) r is Ok _ then true else false.

(** Shares of distinct parties that have a point. *)
Definition sharing_ok (sh : ShamirSharings) : bool :=
  uniq (owners sh) && all embeddable (owners sh).
End Share.

Arguments embeddable {R X}.

(** ** Error correction, as an interface *)

(** What [ErrorCorrect] promises.  A decoder returns the polynomial of degree
    at most [degree] on which all but [max_errors] shares lie, when the number
    of shares makes it unique, and an error when there is none.  [Hints] is
    what [ReconstructionHints] precomputes for a list of parties and a degree;
    hints change nothing but the running time. *)
Class ErrorCorrect (R : comNzRingType) (X : ExceptionalSequence R) := {
  Hints : Type;
  hints_new : seq Role -> nat -> Res string Hints;
  error_correct : ShamirSharings R -> nat -> nat -> Res string (seq R);
  error_correct_with_hints : ShamirSharings R -> nat -> nat -> Hints -> Res string (seq R);
  error_correct_returned : forall sh degree max_errors,
    sharing_ok sh -> returned (error_correct sh degree max_errors);
  error_correct_sound : forall sh degree max_errors p,
    sharing_ok sh -> error_correct sh degree max_errors = Ok p ->
    [/\ (2 * max_errors + degree.+1 <= size sh)%N, (size (Poly p) <= degree.+1)%N
      & (wrong_shares (Poly p) sh <= max_errors)%N];
  error_correct_complete : forall (sh : ShamirSharings R) degree max_errors (g : {poly R}),
    sharing_ok sh -> (2 * max_errors + degree.+1 <= size sh)%N ->
    (size g <= degree.+1)%N -> (wrong_shares g sh <= max_errors)%N ->
    exists2 p, error_correct sh degree max_errors = Ok p & Poly p = g;
  hints_new_Ok : forall (sh : ShamirSharings R) degree, sharing_ok sh -> exists h, hints_new (owners sh) degree = Ok h;
  error_correct_with_hintsE : forall sh degree max_errors h,
    sharing_ok sh -> hints_new (owners sh) degree = Ok h ->
    error_correct_with_hints sh degree max_errors h = error_correct sh degree max_errors
}.

Section Reconstruction.
Variable R : comNzRingType.
Context {X : ExceptionalSequence R} {EC : ErrorCorrect X}.
Implicit Types (sh : ShamirSharings R) (h : Hints) (g : {poly R}).

(** [RevealOp] for sharings. *)
Definition error_reconstruct sh (degree max_errors : nat) : Res string R :=
  let* recon := error_correct sh degree max_errors in Ok (poly_eval recon 0).

Definition reconstruct sh (degree : nat) : Res string R := error_reconstruct sh degree 0.

Definition error_reconstruct_with_hints sh (degree max_errors : nat) h : Res string R :=
  let* recon := error_correct_with_hints sh degree max_errors h in Ok (poly_eval recon 0).

(** [threshold.checked_sub(num_bots)], then the reconstruction. *)
Definition reconstruct_robust (degree threshold num_bots : nat) sh h : Res string (option R) :=
  if (threshold < num_bots)%N
  then Err "Underflow in reconstruction computing max_errors"%string
  else let* opened := error_reconstruct_with_hints sh degree (threshold - num_bots) h in
       Ok (Some opened).

Definition reconstruct_w_errors_sync (num_parties degree threshold num_bots : nat) sh h
    : Res string (option R) :=
  let num_heard_from := (size sh + num_bots)%N in
  if (degree + 2 * threshold < num_parties)%N && (degree + 2 * threshold < num_heard_from)%N
  then reconstruct_robust degree threshold num_bots sh h
  else if (num_parties <= degree + 2 * threshold)%N
  then Err "Can NOT reconstruct with the shares, degree, threshold and num_parties"%string
  else Ok None.

(** The loop that counts the shares on the opened polynomial, and returns its
    value at zero as soon as there are more than [degree + threshold]. *)
Fixpoint count_on_poly (opened_poly : seq R) (bound num_shares_on_poly : nat) sh
    : Res string (option R) :=
  if sh is s :: sh' then
    let* x := embed_role_to_exceptional_sequence (share_owner s) in
    let n := if share_value s == poly_eval opened_poly x
             then num_shares_on_poly.+1 else num_shares_on_poly in
    if (bound < n)%N then Ok (Some (poly_eval opened_poly 0))
    else count_on_poly opened_poly bound n sh'
  else Ok None.

Definition reconstruct_w_errors_async (num_parties degree threshold num_bots : nat) sh h
    : Res string (option R) :=
  let num_heard_from := (size sh + num_bots)%N in
  if (degree + 3 * threshold < num_parties)%N then
    if (degree + 2 * threshold < num_heard_from)%N
    then reconstruct_robust degree threshold num_bots sh h
    else Ok None
  else if (degree + 2 * threshold < num_parties)%N then
    if (degree + threshold < num_heard_from)%N then
      let r := (num_heard_from - (degree + threshold + 1))%N in
      match error_correct_with_hints sh degree r h with
      | Ok opened_poly =>
          if (poly_deg opened_poly <= degree)%N
          then count_on_poly opened_poly (degree + threshold) 0 sh
          else Ok None
      | Err _ => Ok None
      | Panic => Panic
      | Timeout => Timeout
      end
    else Ok None
  else Err "Can NOT reconstruct with degree, threshold and num_parties"%string.

(** ** Polynomials through exceptional points *)

(** A polynomial of degree below the number of points at which it vanishes is
    zero, when the differences of the points are invertible. *)
Lemma exceptional_roots (xs : seq R) g :
  (forall i j, (i < size xs)%N -> (j < size xs)%N -> i != j -> exists c, (xs`_i - xs`_j) * c = 1) ->
  all (root g) xs -> (size g <= size xs)%N -> g = 0.
Proof.
elim: xs g => [|x xs IHx] g unit_xs /= => [_|/andP[/factor_theorem[q ->] roots]].
  by rewrite leqn0 size_poly_eq0 => /eqP.
have [->|q_neq0] := eqVneq q 0; first by rewrite mul0r.
rewrite size_Mmonic ?monicXsubC // size_XsubC addn2 /= ltnS => sz_q.
rewrite (IHx q) ?mul0r // => [i j lt_i lt_j neq|].
  exact: (unit_xs i.+1 j.+1).
apply/allP => y /(nthP 0)[i lt_i <-]; have := allP roots _ (mem_nth 0 lt_i).
rewrite !rootE hornerM hornerXsubC; have [c eq_c] := unit_xs i.+1 0%N lt_i isT isT.
by move/eqP/(congr1 ( *%R^~ c)); rewrite mul0r -mulrA /= eq_c mulr1 => ->.
Qed.

(** The points of the shares that satisfy [P], in order. *)
Lemma sharing_points sh : sharing_ok sh ->
  exists2 xs, rmap embed_role_to_exceptional_sequence (owners sh) = Ok xs &
    size xs = size sh /\
    forall i j, (i < size xs)%N -> (j < size xs)%N -> i != j -> exists c, (xs`_i - xs`_j) * c = 1.
Proof.
case/andP=> uniq_o emb; have [xs eq_xs] : exists xs : seq R,
    rmap embed_role_to_exceptional_sequence (owners sh) = Ok xs.
  elim: (owners sh) emb {uniq_o} => [|r rs IHr] /=; first by exists [::].
  rewrite {1}/embeddable; case: (embed_role_to_exceptional_sequence r) => //= x /IHr[xs ->].
  by exists (x :: xs).
have sz : size xs = size (owners sh) := size_rmap eq_xs.
exists xs => //; split=> [|i j]; first by rewrite sz size_map.
rewrite sz => lt_i lt_j neq_ij.
apply: exceptional_diff_unit (nth_rmap 0%N 0 eq_xs lt_i) (nth_rmap 0%N 0 eq_xs lt_j).
by rewrite /one_based nth_uniq.
Qed.

Lemma sharing_ok_subseq sh1 sh2 : subseq sh1 sh2 -> sharing_ok sh2 -> sharing_ok sh1.
Proof.
move=> sub /andP[uniq_o emb]; have sub_o := map_subseq (@share_owner R) sub.
rewrite /sharing_ok (subseq_uniq sub_o uniq_o) /=.
by apply/allP => r /(mem_subseq sub_o)/(allP emb).
Qed.

(** Two polynomials of degree at most [degree] through [degree + 1] common
    shares are equal. *)
Lemma common_shares_eq sh degree g1 g2 : sharing_ok sh ->
  (size g1 <= degree.+1)%N -> (size g2 <= degree.+1)%N ->
  (degree < count (predI (on_poly g1) (on_poly g2)) sh)%N -> g1 = g2.
Proof.
move=> ok_sh sz1 sz2; set P := predI _ _; rewrite -size_filter => lt_n.
have [xs eq_xs [sz_xs unit_xs]] := sharing_points (sharing_ok_subseq (filter_subseq P sh) ok_sh).
apply/eqP; rewrite -subr_eq0; apply/eqP; apply: (exceptional_roots unit_xs); last first.
  by rewrite (leq_trans (size_polyD _ _)) // size_polyN geq_max sz_xs; ssrlia.
apply/allP => x /(nthP 0)[i lt_i <-]; rewrite sz_xs in lt_i.
have lt_o : (i < size (owners (filter P sh)))%N by rewrite size_map.
have := nth_rmap 0%N 0 eq_xs lt_o; pose s0 := mkShare 0%N (0 : R); rewrite (nth_map s0) //.
have := mem_nth s0 lt_i; rewrite mem_filter => /andP[/andP[/= on1 on2] _] emb.
by move: on1 on2; rewrite /on_poly emb => /eqP eq1 /eqP eq2; rewrite rootE !hornerE -eq1 -eq2 subrr.
Qed.

Lemma count_common g1 g2 sh :
  (size sh <= count (predI (on_poly g1) (on_poly g2)) sh + wrong_shares g1 sh + wrong_shares g2 sh)%N.
Proof.
rewrite /wrong_shares; elim: sh => //= s sh IHsh.
by case: (on_poly g1 s); case: (on_poly g2 s) => /=; ssrlia.
Qed.

Lemma count_on_wrong g sh : (count (on_poly g) sh + wrong_shares g sh = size sh)%N.
Proof. exact: count_predC. Qed.

Lemma codeword_unique sh degree g1 g2 : sharing_ok sh ->
  (size g1 <= degree.+1)%N -> (size g2 <= degree.+1)%N ->
  (wrong_shares g1 sh + wrong_shares g2 sh + degree < size sh)%N -> g1 = g2.
Proof.
move=> ok_sh sz1 sz2 lt_n; apply: (common_shares_eq ok_sh sz1 sz2).
by have := count_common g1 g2 sh; ssrlia.
Qed.

(** ** Reconstruction *)

Lemma error_reconstructE sh degree max_errors g : sharing_ok sh ->
  (2 * max_errors + degree.+1 <= size sh)%N ->
  (size g <= degree.+1)%N -> (wrong_shares g sh <= max_errors)%N ->
  error_reconstruct sh degree max_errors = Ok g.[0].
Proof.
move=> ok_sh le_n sz_g le_w; rewrite /error_reconstruct.
by have [p -> <-] := error_correct_complete ok_sh le_n sz_g le_w; rewrite /= poly_evalE.
Qed.

Lemma reconstruct_robustE sh degree threshold num_bots g h : sharing_ok sh ->
  hints_new (owners sh) degree = Ok h ->
  (size g <= degree.+1)%N -> (wrong_shares g sh + num_bots <= threshold)%N ->
  (degree + 2 * threshold < size sh + num_bots)%N ->
  reconstruct_robust degree threshold num_bots sh h = Ok (Some g.[0]).
Proof.
move=> ok_sh eq_h sz_g le_w lt_n; rewrite /reconstruct_robust ifN; first by rewrite -leqNgt; ssrlia.
rewrite /error_reconstruct_with_hints (error_correct_with_hintsE _ ok_sh eq_h).
have := @error_reconstructE sh degree (threshold - num_bots) g ok_sh.
by rewrite /error_reconstruct => -> //; ssrlia.
Qed.

(** What the counting loop does with shares that all have a point. *)
Lemma count_on_polyE p bound n sh : all embeddable (owners sh) -> (n <= bound)%N ->
  count_on_poly p bound n sh
    = Ok (if (bound < n + count (on_poly (Poly p)) sh)%N then Some (poly_eval p 0) else None).
Proof.
elim: sh n => [|s sh IHsh] n /=; first by rewrite addn0 leqNgt => _ /negbTE->.
case/andP; rewrite /embeddable {1 2}/on_poly; case emb: embed_role_to_exceptional_sequence => [x|||] // _ ok_sh le_n.
rewrite /= poly_evalE; case: eqP => _; last by rewrite leqNgt ltnS le_n /= IHsh.
case: ltnP => [lt_b|le_b]; last by rewrite IHsh // addnA addn1.
by rewrite ifT // addnA addn1 ltn_addr.
Qed.

(** The weaker asynchronous branch, reduced to the decoder's answer. *)
Definition async_weak (degree threshold : nat) sh (r : nat) : Res string (option R) :=
  match error_correct sh degree r with
  | Ok p => Ok (if (degree + threshold < count (on_poly (Poly p)) sh)%N
                then Some (poly_eval p 0) else None)
  | _ => Ok None
  end.

Lemma reconstruct_w_errors_asyncE num_parties degree threshold num_bots sh h : sharing_ok sh ->
  hints_new (owners sh) degree = Ok h ->
  (degree + 2 * threshold < num_parties)%N -> (num_parties <= degree + 3 * threshold)%N ->
  (degree + threshold < size sh + num_bots)%N ->
  reconstruct_w_errors_async num_parties degree threshold num_bots sh h
    = async_weak degree threshold sh (size sh + num_bots - (degree + threshold + 1)).
Proof.
move=> ok_sh eq_h lt_n le_n lt_heard.
rewrite /reconstruct_w_errors_async ltnNge le_n /= lt_n lt_heard /async_weak.
rewrite (error_correct_with_hintsE _ ok_sh eq_h).
have [[p eq_p]|[msg -> //]] := returned_inv
  (error_correct_returned degree (size sh + num_bots - (degree + threshold + 1)) ok_sh).
rewrite eq_p.
have [_ sz_p _] := error_correct_sound ok_sh eq_p; rewrite poly_degE ifT; first by ssrlia.
by case/andP: ok_sh => _ emb; rewrite count_on_polyE.
Qed.

(** The value returned by the weaker branch is that of the shared polynomial. *)
Lemma async_weak_sound degree threshold sh r g v : sharing_ok sh ->
  (size g <= degree.+1)%N -> (wrong_shares g sh <= threshold)%N ->
  async_weak degree threshold sh r = Ok (Some v) -> v = g.[0].
Proof.
move=> ok_sh sz_g le_w; rewrite /async_weak; case eq_p: error_correct => [p|||] //=.
have [_ sz_p _] := error_correct_sound ok_sh eq_p; case: ltnP => // lt_on [<-].
rewrite poly_evalE (@common_shares_eq sh degree (Poly p) g) //.
by have := count_common (Poly p) g sh; have := count_on_wrong (Poly p) sh; ssrlia.
Qed.

Lemma async_weak_complete degree threshold sh r g : sharing_ok sh ->
  (size g <= degree.+1)%N -> (wrong_shares g sh <= r)%N -> (2 * r + degree.+1 <= size sh)%N ->
  (degree + threshold + wrong_shares g sh < size sh)%N ->
  async_weak degree threshold sh r = Ok (Some g.[0]).
Proof.
move=> ok_sh sz_g le_w le_r lt_on; rewrite /async_weak.
have [p -> eq_p] := error_correct_complete ok_sh le_r sz_g le_w.
rewrite eq_p poly_evalE eq_p ifT //.
by have := count_on_wrong g sh; ssrlia.
Qed.
End Reconstruction.

(** ** Insertion *)

Section Insertion.
Variable R : comNzRingType.
Implicit Types (sh : ShamirSharings R) (s t : Share R).

(** The value that a sharing has for a party. *)
Definition share_lookup sh (r : Role) : option R :=
  ohead [seq share_value s | s <- sh & share_owner s == r :> nat].

Lemma shamir_add_share_cons s t sh :
  shamir_add_share (t :: sh) s =
    if (share_owner s < share_owner t)%N then s :: t :: sh
    else if share_owner s == share_owner t :> nat then s :: sh
    else t :: shamir_add_share sh s.
Proof.
rewrite /shamir_add_share /search_owner /=; case: (ltngtP (share_owner s) (share_owner t)) => [lt_st|lt_ts|eq_st] /=.
- by rewrite (gtn_eqF lt_st).
- by rewrite ltnS; case: ifP.
- by rewrite eq_st eqxx.
Qed.

Lemma path_add_share o sh s : path ltn o (owners sh) -> (o < share_owner s)%N ->
  path ltn o (owners (shamir_add_share sh s)).
Proof.
elim: sh o => [|t sh IHsh] o /=; first by move=> _ ->.
case/andP=> lt_ot path_sh lt_os; rewrite shamir_add_share_cons.
case: (ltngtP (share_owner s) (share_owner t)) => [lt_st|lt_ts|eq_st] /=.
- by rewrite lt_os lt_st.
- by rewrite lt_ot IHsh.
- by rewrite lt_os eq_st.
Qed.

(** A sorted sharing stays sorted. *)
Lemma sorted_add_share sh s : sorted ltn (owners sh) -> sorted ltn (owners (shamir_add_share sh s)).
Proof.
case: sh => [|t sh] //= path_sh; rewrite shamir_add_share_cons.
case: (ltngtP (share_owner s) (share_owner t)) => [lt_st|lt_ts|eq_st] /=.
- by rewrite lt_st.
- exact: path_add_share.
- by rewrite eq_st.
Qed.

(** Insertion updates one party's value. *)
Lemma lookup_add_share sh s r : sorted ltn (owners sh) ->
  share_lookup (shamir_add_share sh s) r
    = if r == share_owner s then Some (share_value s) else share_lookup sh r.
Proof.
elim: sh => [_|t sh IHsh /= path_sh].
  by rewrite /share_lookup /= eq_sym; case: eqP.
rewrite shamir_add_share_cons; case: (ltngtP (share_owner s) (share_owner t)) => [lt_st|lt_ts|eq_st].
- by rewrite /share_lookup /= [r == _]eq_sym; case: eqP.
- rewrite /share_lookup /=; case: eqP => [<-|neq] /=; first by rewrite (ltn_eqF lt_ts).
  exact: IHsh (path_sorted path_sh).
- by rewrite /share_lookup /= -eq_st [r == _]eq_sym; case: eqP.
Qed.

Lemma fill_indexed_sharesE (sharings : seq (ShamirSharings R)) values party_id i :
  (i < size sharings)%N ->
  nth [::] (fill_indexed_shares sharings values party_id) i
    = shamir_add_share (nth [::] sharings i) (mkShare party_id values`_i).
Proof.
move=> lt_i; have sz : size (vec_resize values (size sharings)) = size sharings.
  by rewrite size_cat size_take size_nseq; case: ltnP; ssrlia.
rewrite (nth_map (0, [::])) ?size_zip ?sz ?minnn // nth_zip //=.
by rewrite nth_vec_resize lt_i.
Qed.
End Insertion.

(** ** Linear operations *)

Section Linear.
Variable R : comNzRingType.
Context {X : ExceptionalSequence R}.
Implicit Types (xs ys zs : ShamirSharings R) (f g : {poly R}).

Lemma on_poly_lin f g (c d : R) x y z :
  share_owner x = share_owner z -> share_owner y = share_owner z ->
  share_value z = c * share_value x + d * share_value y ->
  on_poly f x -> on_poly g y -> on_poly (c *: f + d *: g) z.
Proof.
rewrite /on_poly => -> -> ->; case: embed_role_to_exceptional_sequence => // a /eqP-> /eqP->.
by rewrite !hornerE.
Qed.

(** Sharings of the same parties are added and subtracted pointwise. *)
Lemma zip_longest_lin f g (c d : R) both xs ys :
  (forall x y, share_owner x = share_owner y ->
     both x y = Ok (mkShare (share_owner x) (c * share_value x + d * share_value y))) ->
  owners xs = owners ys -> all (on_poly f) xs -> all (on_poly g) ys ->
  exists2 zs, zip_longest_with both xs ys = Ok zs &
    owners zs = owners xs /\ all (on_poly (c *: f + d *: g)) zs.
Proof.
move=> bothE; elim: xs ys => [|x xs IHxs] [|y ys] //=; first by exists [::].
case=> eq_o eq_os /andP[on_x on_xs] /andP[on_y on_ys]; rewrite bothE //=.
have [zs -> [own_zs on_zs]] := IHxs ys eq_os on_xs on_ys; rewrite /=.
exists (mkShare (share_owner x) (c * share_value x + d * share_value y) :: zs) => //=.
by rewrite own_zs on_zs (on_poly_lin _ _ _ on_x on_y) //= -eq_o.
Qed.
End Linear.

(** ** Sharing a secret *)

Section Sharing.
Variable R : comNzRingType.
Context {X : ExceptionalSequence R}.

(** The polynomial that [shamir_share] samples. *)
Definition sharing_poly (rnd : nat -> R) (secret : R) (threshold : nat) : {poly R} :=
  Poly (poly_sample_random_with_fixed_constant rnd secret threshold).

Lemma sharing_poly0 rnd secret threshold : (sharing_poly rnd secret threshold).[0] = secret.
Proof.
by rewrite horner_coef0 /sharing_poly /poly_sample_random_with_fixed_constant
  /poly_from_coefs Poly_compress coef_Poly.
Qed.

Lemma size_sharing_poly rnd secret threshold :
  (size (sharing_poly rnd secret threshold) <= threshold.+1)%N.
Proof.
rewrite /sharing_poly /poly_sample_random_with_fixed_constant /poly_from_coefs Poly_compress.
by rewrite (leq_trans (size_Poly _)) //= size_map size_iota.
Qed.

Lemma shamir_shareP rnd secret num_parties threshold sh :
  shamir_share rnd secret num_parties threshold = Ok sh ->
  [/\ owners sh = iota 1 num_parties, sharing_ok sh
    & all (on_poly (sharing_poly rnd secret threshold)) sh].
Proof.
rewrite /shamir_share; case: ifP => // _; set f := (fun _ => _).
case eq_re: (rmap f _) => [re|||] //= [<-].
have re_i i : (i < num_parties)%N -> exists2 x,
    embed_role_to_exceptional_sequence i.+1 = Ok x & nth (0%N, 0) re i = (i.+1, x).
  move=> lt_i; have := nth_rmap 0%N (0%N, 0 : R) eq_re.
  rewrite size_iota => /(_ i lt_i); rewrite nth_iota // /f /=.
  by case: embed_role_to_exceptional_sequence => [x|||] //= [<-]; exists x.
have sz_re : size re = num_parties by rewrite (size_rmap eq_re) size_iota.
set sh' := [seq _ | _ <- re]; have own : owners sh' = iota 1 num_parties.
  apply: (@eq_from_nth _ 0%N) => [|i]; rewrite !size_map sz_re ?size_iota // => lt_i.
  rewrite nth_iota // add1n /owners /sh' -map_comp (nth_map (0%N, 0)) ?sz_re //=.
  by have [x _ ->] := re_i i lt_i.
split=> //; first (apply/andP; split; first by rewrite own iota_uniq).
  rewrite own; apply/allP => r; rewrite mem_iota add1n ltnS => /andP[r_gt0 le_r].
  case: r r_gt0 le_r => // r _ lt_r.
  by have [x emb _] := re_i r lt_r; rewrite /embeddable emb.
apply/allP => s /(nthP (mkShare 0%N 0))[i]; rewrite size_map sz_re => lt_i <-.
rewrite (nth_map (0%N, 0)) ?sz_re //; have [x emb ->] := re_i i lt_i.
by rewrite /on_poly /= emb poly_evalE eqxx.
Qed.

(** Shares that differ from those dealt. *)
Definition corrupted_shares (dealt sh : ShamirSharings R) : nat :=
  count (fun s => s \notin dealt) sh.

Lemma wrong_shares_corrupted rnd secret num_parties threshold dealt sh :
  shamir_share rnd secret num_parties threshold = Ok dealt ->
  (wrong_shares (sharing_poly rnd secret threshold) sh <= corrupted_shares dealt sh)%N.
Proof.
case/shamir_shareP=> _ _ /allP on_g; apply: sub_count => s /=.
by apply: contra => /on_g.
Qed.
End Sharing.

(** ** Properties *)

(** Linear operations on sharings are local: adding, subtracting and scaling
    the shares of the same parties gives shares, of the same parties, of the
    sum, the difference and the multiple of the shared polynomials. *)
Theorem shamir_ops_linear (R : comNzRingType) (X : ExceptionalSequence R)
    (xs ys : ShamirSharings R) (f g : {poly R}) (c : R) :
  owners xs = owners ys -> all (on_poly f) xs -> all (on_poly g) ys ->
  [/\ exists2 zs, shamir_add xs ys = Ok zs & owners zs = owners xs /\ all (on_poly (f + g)) zs,
      exists2 zs, shamir_sub xs ys = Ok zs & owners zs = owners xs /\ all (on_poly (f - g)) zs,
      owners (shamir_mul_const xs c) = owners xs /\ all (on_poly (c *: f)) (shamir_mul_const xs c)
    & owners (shamir_add_const xs c) = owners xs /\ all (on_poly (f + c%:P)) (shamir_add_const xs c)].
Proof.
move=> eq_o on_xs on_ys; split.
- rewrite -[f]scale1r -[g]scale1r; apply: zip_longest_lin => // x y eq_xy.
  by rewrite /share_add eq_xy eqxx !mul1r.
- rewrite -[f]scale1r -scaleN1r; apply: zip_longest_lin => // x y eq_xy.
  by rewrite /share_sub eq_xy eqxx mul1r mulN1r.
- rewrite /owners -map_comp; split=> //; rewrite all_map; apply: sub_all on_xs => s /=.
  by rewrite /on_poly; case: embed_role_to_exceptional_sequence => // a /eqP /= ->; rewrite hornerZ mulrC.
- rewrite /owners -map_comp; split=> //; rewrite all_map; apply: sub_all on_xs => s /=.
  by rewrite /on_poly; case: embed_role_to_exceptional_sequence => // a /eqP /= ->; rewrite hornerD hornerC.
Qed.

(** Inserting a share is a map update that keeps the order: in a sharing
    sorted by owner without duplicates, [add_share] replaces or adds the value
    of the share's owner, keeps every other value, and the sharing stays
    sorted without duplicates. *)
Theorem add_share_update (R : comNzRingType) (sh : ShamirSharings R) (s : Share R) :
  sorted ltn (owners sh) ->
  sorted ltn (owners (shamir_add_share sh s)) /\
  forall r, share_lookup (shamir_add_share sh s) r
    = if r == share_owner s then Some (share_value s) else share_lookup sh r.
Proof.
move=> sorted_sh; split=> [|r]; [exact: sorted_add_share | exact: lookup_add_share].
Qed.

(** Subtraction does not read a missing left share as zero: where the
    source says that the missing side is interpreted as zero, subtracting a
    sharing from the empty one returns it unchanged, while subtracting it from
    a sharing of zeros negates every value. *)
Theorem shamir_sub_missing_left (R : comNzRingType) (ys : ShamirSharings R) :
  shamir_sub [::] ys = Ok ys /\
  shamir_sub [seq mkShare (share_owner s) 0 | s <- ys] ys
    = Ok [seq mkShare (share_owner s) (- share_value s) | s <- ys].
Proof.
split; first by case: ys.
by rewrite /shamir_sub; elim: ys => //= s ys ->; rewrite /share_sub /= eqxx sub0r.
Qed.

(** ** Witnesses *)

Section Witnesses.
Let F7_inj : {in gtn (2 ^ 2) &, injective (fun i : nat => i%:R : 'F_7)}.
Proof. by case=> [|[|[|[|i]]]] // [|[|[|[|j]]]] // _ _ /eqP; vm_compute. Qed.
#[local] Instance seq7 : ExceptionalSequence 'F_7 := gf_exceptional_sequence F7_inj.

Let threes : ShamirSharings 'F_7 := [:: mkShare 1 3%:R; mkShare 2 3%:R].
Let roles : ShamirSharings 'F_7 := [:: mkShare 1 1%:R; mkShare 2 2%:R].

(** Sharings of [3] and of [X] by two parties. *)
Lemma shamir_ops_linear_witness :
  exists2 zs, shamir_add threes roles = Ok zs &
    owners zs = [:: 1%N; 2%N] /\ all (on_poly ((3%:R)%:P + 'X)) zs.
Proof.
have [] := @shamir_ops_linear 'F_7 seq7 threes roles (3%:R)%:P 'X 1 erefl _ _ => //.
  by rewrite /= /on_poly /= !hornerC ?eqxx.
by rewrite /= /on_poly /= !hornerX ?eqxx.
Defined.

Lemma add_share_update_witness :
  share_lookup (shamir_add_share [:: mkShare 1 (2%:R : 'F_7); mkShare 3 1] (mkShare 2 5%:R)) 2
    = Some 5%:R.
Proof.
by have [_ ->] := @add_share_update 'F_7 [:: mkShare 1 2%:R; mkShare 3 1] (mkShare 2 5%:R) isT.
Defined.
End Witnesses.
