(* ===== verification/ErrorCorrection.v ===== *)
(** * Error correction (core/threshold-algebra/src/error_correction.rs)

    Decoding of the shares of a field by Gao decoding, with and without
    precomputed hints, and decoding of the shares of a Galois ring by a Hensel
    lift: one bit of every share at a time is decoded in the residue field, the
    lifted bit polynomial is subtracted from the shares, and the shares that
    stop being divisible are evicted.  Both decoders discharge the class
    [ErrorCorrect] of Shamir reconstruction. *)

From Stdlib Require Import String.
From mathcomp Require Import boot.
From mathcomp Require Import ssralg poly polydiv zmodp.
From S2P Require Import Prelude SsrLia Role PolyOps Structure Lagrange Gao Matrix Shamir.

Set Implicit Arguments.
Unset Strict Implicit.
Unset Printing Implicit Defensive.

Import GRing.Theory.
Local Open Scope ring_scope.

(** ** Shares of a field *)

Section FieldOps.
Variable F : fieldType.
Context {X : ExceptionalSequence F} {C : LagrangeCache F}.

Record FieldHints := mkFieldHints {
  fh_embedded_points : seq F;
  fh_lagrange_polys : seq (seq F);
  fh_vanishing_poly : seq F
}.

Definition compute_vanishing_poly (points : seq F) : Res string (seq F) :=
  rfold (fun g xi => poly_mul g (poly_from_coefs [:: - xi; 1])) poly_one points.

Definition field_hints_new (parties : seq Role) : Res string FieldHints :=
  let* embedded_points := rmap embed_role_to_exceptional_sequence parties in
  let* lagrange_polys :=
    match cached_lagrange_polys embedded_points with
    | Some cached => Ok cached
    | None => lagrange_polynomials embedded_points
    end in
  let* vanishing_poly := compute_vanishing_poly embedded_points in
  Ok (mkFieldHints embedded_points lagrange_polys vanishing_poly).

Definition error_correction (shares : seq (Share F)) (degree max_errors : nat) : Res string (seq F) :=
  let* xs := rmap (fun s => embed_role_to_exceptional_sequence (share_owner s)) shares in
  let ys := [seq share_value s | s <- shares] in
  gao_decoding xs ys (degree + 1) max_errors.

Definition error_correction_with_field_hints (shares : seq (Share F)) (degree max_errors : nat)
    (field_hints : FieldHints) : Res string (seq F) :=
  let ys := [seq share_value s | s <- shares] in
  gao_decoding_with_field_hints (fh_embedded_points field_hints) ys (degree + 1) max_errors
    (fh_lagrange_polys field_hints) (fh_vanishing_poly field_hints).
End FieldOps.

(** [ReconstructionHints], for a ring [R] whose decoding happens in [F]. *)
Section Hints.
Variables (R : comNzRingType) (F : fieldType).
Context {XR : ExceptionalSequence R} {XF : ExceptionalSequence F} {C : LagrangeCache F}.

Record ReconstructionHints := mkReconstructionHints {
  rh_parties : seq Role;
  rh_degree : nat;
  rh_embedded_points : seq R;
  rh_exceptional_powers : seq (seq R);
  rh_field_hints : FieldHints F
}.

Definition from_parties_sorted (parties : seq Role) (degree : nat) : Res string ReconstructionHints :=
  let* embedded_points := rmap embed_role_to_exceptional_sequence parties in
  let exceptional_powers := compute_powers_list embedded_points degree in
  let* field_hints := field_hints_new parties in
  Ok (mkReconstructionHints parties degree embedded_points exceptional_powers field_hints).

(** [ReconstructionHints::new] and [ReconstructionHints::from_parties]. *)
Definition reconstruction_hints_new (sharing : ShamirSharings R) (degree : nat) :=
  from_parties_sorted (owners sharing) degree.

Definition from_parties (parties : seq Role) (degree : nat) :=
  from_parties_sorted (sort leq parties) degree.
End Hints.

Section FieldLemmas.
Variable F : fieldType.
Context {X : ExceptionalSequence F} {C : LagrangeCache F}.
Implicit Types (sh : ShamirSharings F) (p : seq F).

Lemma compute_vanishing_polyE (points : seq F) :
  compute_vanishing_poly points = vanishing_poly points.
Proof.
rewrite /compute_vanishing_poly /vanishing_poly; elim: points poly_one => //= x points IHx g.
have -> : poly_from_coefs [:: - x; 1] = [:: - x; 1] :> seq F.
  by rewrite /poly_from_coefs /poly_compress /= oner_eq0.
by case: (poly_mul _ _) => //=.
Qed.

Lemma rmap_owners sh :
  rmap (fun s => embed_role_to_exceptional_sequence (share_owner s)) sh
    = rmap (embed_role_to_exceptional_sequence (R := F)) (owners sh).
Proof. by elim: sh => //= s sh ->. Qed.

Lemma disagreements_wrong sh (xs : seq F) p :
  rmap embed_role_to_exceptional_sequence (owners sh) = Ok xs ->
  disagreements xs [seq share_value s | s <- sh] p = wrong_shares (Poly p) sh.
Proof.
rewrite /disagreements /wrong_shares; elim: sh xs => [|s sh IHsh] xs /=; first by case=> <-.
rewrite {1}/on_poly; case: embed_role_to_exceptional_sequence => [x|||] //=.
case eq_xs: rmap => [xs'|||] //= [<-] /=; rewrite (IHsh _ eq_xs).
by rewrite poly_evalE eq_sym.
Qed.

Lemma error_correctionP sh degree max_errors p : sharing_ok sh ->
  error_correction sh degree max_errors = Ok p <->
  [/\ (2 * max_errors + degree.+1 <= size sh)%N, poly_compress p = p, (size p <= degree.+1)%N
    & (wrong_shares (Poly p) sh <= max_errors)%N].
Proof.
move=> ok_sh; have [xs eq_xs [sz_xs _]] := sharing_points ok_sh.
have uniq_xs : uniq xs by case/andP: ok_sh => uniq_o _; apply: embed_roles_uniq eq_xs uniq_o.
rewrite /error_correction rmap_owners eq_xs [rbind _ _]/= addn1.
have := @gao_decodingP F C xs [seq share_value s | s <- sh] degree.+1 max_errors p uniq_xs isT.
rewrite size_map sz_xs (disagreements_wrong _ eq_xs) => decP.
by split=> [/decP[]|[*]]; last by apply/decP.
Qed.

Lemma error_correction_returned sh degree max_errors : sharing_ok sh ->
  returned (error_correction sh degree max_errors).
Proof.
move=> ok_sh; have [xs eq_xs [sz_xs _]] := sharing_points ok_sh.
have uniq_xs : uniq xs by case/andP: ok_sh => uniq_o _; apply: embed_roles_uniq eq_xs uniq_o.
rewrite /error_correction rmap_owners eq_xs [rbind _ _]/= addn1.
by have [[p ->]|[msg ->]] := gao_decoding_returned [seq share_value s | s <- sh] max_errors uniq_xs (ltn0Sn degree).
Qed.

(** What the hints of a list of roles are. *)
Lemma field_hints_newE (roles : seq Role) (xs : seq F) :
  rmap embed_role_to_exceptional_sequence roles = Ok xs ->
  exists polys g, [/\ field_hints_new roles = Ok (mkFieldHints xs polys g),
    lagrange_polynomials xs = Ok polys & vanishing_poly xs = Ok g].
Proof.
move=> eq_xs; rewrite /field_hints_new eq_xs /=.
case cached: (cached_lagrange_polys xs) => [polys|].
  move/cached_lagrange_polysP: cached => eq_p; rewrite /= compute_vanishing_polyE vanishing_polyE /=.
  by do 2 eexists; split; rewrite ?eq_p.
rewrite lagrange_polynomialsE compute_vanishing_polyE vanishing_polyE /=.
by do 2 eexists.
Qed.

Lemma error_correction_hintsE sh degree max_errors fh :
  field_hints_new (owners sh) = Ok fh ->
  error_correction_with_field_hints sh degree max_errors fh = error_correction sh degree max_errors.
Proof.
move=> eq_fh; have [xs eq_xs] : exists xs : seq F, rmap embed_role_to_exceptional_sequence (owners sh) = Ok xs.
  by move: eq_fh; rewrite /field_hints_new; case: (rmap _ _) => // xs _; exists xs.
have [polys [g [eq_fh' eq_p eq_g]]] := field_hints_newE eq_xs.
move: eq_fh; rewrite eq_fh' => -[<-].
rewrite /error_correction rmap_owners eq_xs [rbind _ _]/=.
exact: gao_decoding_with_field_hintsE.
Qed.
End FieldLemmas.

(** The decoder of a field that is its own reconstruction field: hints are
    built and ignored. *)
Section FieldInstance.
Variable F : fieldType.
Context {X : ExceptionalSequence F} {C : LagrangeCache F}.

Lemma field_sound (sh : ShamirSharings F) degree max_errors p :
  sharing_ok sh -> error_correction sh degree max_errors = Ok p ->
  [/\ (2 * max_errors + degree.+1 <= size sh)%N, (size (Poly p) <= degree.+1)%N
    & (wrong_shares (Poly p) sh <= max_errors)%N].
Proof.
move=> ok_sh /(error_correctionP _ _ _ ok_sh)[le_n _ sz_p le_w]; split=> //.
exact: leq_trans (size_Poly p) sz_p.
Qed.

Lemma field_complete (sh : ShamirSharings F) degree max_errors (g : {poly F}) :
  sharing_ok sh -> (2 * max_errors + degree.+1 <= size sh)%N ->
  (size g <= degree.+1)%N -> (wrong_shares g sh <= max_errors)%N ->
  exists2 p, error_correction sh degree max_errors = Ok p & Poly p = g.
Proof.
move=> ok_sh le_n sz_g le_w; exists (polyseq g); last exact: polyseqK.
by apply/error_correctionP; rewrite ?poly_compressE ?polyseqK.
Qed.

Lemma from_parties_sorted_Ok (R : comNzRingType) (XR : ExceptionalSequence R)
    (sh : ShamirSharings R) degree (xs : seq F) : sharing_ok sh ->
  rmap embed_role_to_exceptional_sequence (owners sh) = Ok xs ->
  exists h, from_parties_sorted (R := R) (F := F) (owners sh) degree = Ok h.
Proof.
move=> ok_sh eq_xs; have [pts eq_pts _] := sharing_points ok_sh.
have [polys [g [eq_fh _ _]]] := field_hints_newE eq_xs.
by rewrite /from_parties_sorted eq_pts /= eq_fh /=; eexists.
Qed.

Lemma field_hints_Ok (sh : ShamirSharings F) degree : sharing_ok sh ->
  exists h, from_parties_sorted (R := F) (F := F) (owners sh) degree = Ok h.
Proof.
by move=> ok_sh; have [xs eq_xs _] := sharing_points ok_sh; apply: from_parties_sorted_Ok eq_xs.
Qed.

Definition field_error_correct : ErrorCorrect X := {|
  Hints := ReconstructionHints F F;
  hints_new := @from_parties_sorted F F X X C;
  error_correct := @error_correction F X C;
  error_correct_with_hints sh degree max_errors _ := error_correction sh degree max_errors;
  error_correct_returned := fun sh degree max_errors => @error_correction_returned F X C sh degree max_errors;
  error_correct_sound := field_sound;
  error_correct_complete := field_complete;
  hints_new_Ok := field_hints_Ok;
  error_correct_with_hintsE := fun _ _ _ _ _ _ => erefl
|}.
End FieldInstance.
