(* ===== verification/Hensel.v ===== *)
(** * Error correction over a Galois ring by Hensel lifting
    (core/threshold-algebra/src/error_correction.rs)

    The decoder of the shares of a Galois ring: for each bit of the base ring,
    the bits of the valid shares are decoded in the residue field, the lifted
    polynomial is subtracted from the shares, and a share that is no longer a
    multiple of the next power of two is evicted.  What the decoder needs of the
    ring is the class [GaloisRing]. *)

From Stdlib Require Import String.
From mathcomp Require Import boot.
From mathcomp Require Import ssralg poly polydiv.
From S2P Require Import Prelude SsrLia Role PolyOps Structure Lagrange Gao Matrix Shamir.
From S2P Require Import ErrorCorrection.

Set Implicit Arguments.
Unset Strict Implicit.
Unset Printing Implicit Defensive.

Import GRing.Theory.
Local Open Scope ring_scope.

(** [(c8 >> d) & 1]. *)
Definition bit_of (c8 d : nat) : bool := odd (c8 %/ 2 ^ d).

(** A Galois ring [R] over the integers modulo [2 ^ BASE_BIT_LENGTH], with
    residue field [F]: the methods of [QuotientMaximalIdeal], [BitWiseEval] and
    [ResiduePoly] that error correction calls, and what it relies on. *)
Class GaloisRing (R : comNzRingType) (F : fieldType)
    (XR : ExceptionalSequence R) (XF : ExceptionalSequence F) := {
  BASE_BIT_LENGTH : nat;
  EXTENSION_DEGREE : nat;
  bit_compose : R -> nat -> F;
  gf_into : F -> nat;
  monomial : nat -> R;
  shl : R -> nat -> R;
  multiple_pow2 : R -> nat -> bool;
  lazy_eval : seq nat -> seq R -> Res string R;
  residue : {rmorphism R -> F};
  base_bit_length_gt0 : (0 < BASE_BIT_LENGTH)%N;
  two_nilpotent : 2%:R ^+ BASE_BIT_LENGTH = 0 :> R;
  bit_compose_shift : forall x i, (i < BASE_BIT_LENGTH)%N ->
    bit_compose (2%:R ^+ i * x) i = residue x;
  residue_ker : forall x, residue x = 0 -> exists y, x = 2%:R * y;
  residue_lift : forall c,
    residue (\sum_(d < EXTENSION_DEGREE) (bit_of (gf_into c) d)%:R * monomial d) = c;
  residue_exceptional : forall i a, get_from_exceptional_sequence i = Ok a ->
    get_from_exceptional_sequence i = Ok (residue a);
  shlE : forall x i, (i < BASE_BIT_LENGTH)%N -> shl x i = 2%:R ^+ i * x;
  multiple_pow2P : forall x i, (i <= BASE_BIT_LENGTH)%N ->
    reflect (exists y, x = 2%:R ^+ i * y) (multiple_pow2 x i);
  lazy_evalE : forall cs powers, (size cs <= size powers)%N ->
    lazy_eval cs powers = Ok (\sum_(i < size cs)
      (\sum_(d < EXTENSION_DEGREE) (bit_of (nth 0%N cs i) d)%:R * monomial d) * powers`_i)
}.

Section HenselOps.
Variables (R : comNzRingType) (F : fieldType).
Context {XR : ExceptionalSequence R} {XF : ExceptionalSequence F} {G : GaloisRing XR XF}.
Context {C : LagrangeCache F}.

Definition ShareValidity := (Share R * bool)%type.

(** [accumulate_and_lift_bitwise_poly]: [get_mut(i).coefs\[d\] += ONE << amount]
    for every bit that is set. *)
Definition accumulate_and_lift_bitwise_poly (res : seq R) (p : seq F) (amount : nat) : seq R :=
  foldl (fun res ic =>
    foldl (fun res d =>
        if bit_of (gf_into ic.2) d
        then poly_get_mut res ic.1 (fun x => x + shl (monomial d) amount) else res)
      res (iota 0 EXTENSION_DEGREE)) res (enumerate p).

Definition compute_binary_shares (shares_with_validity : seq ShareValidity) (bit_idx : nat)
    : seq (Share F) :=
  [seq mkShare (share_owner sv.1) (bit_compose (share_value sv.1) bit_idx)
     | sv <- shares_with_validity & sv.2].

(** One share in the loop of [apply_bit_correction], [j] being its index. *)
Definition correct_share (ordered_powers : seq (seq R)) (bitwise : seq nat) (bit_idx : nat)
    (jsv : nat * ShareValidity) : Res string ShareValidity :=
  let (j, sv) := jsv in
  let (share, is_valid) := sv in
  if is_valid then
    if (j < size ordered_powers)%N then
      let* value := lazy_eval bitwise (nth [::] ordered_powers j) in
      let share := share_sub_const share (shl value bit_idx) in
      Ok (share, multiple_pow2 (share_value share) (bit_idx + 1))
    else Panic
  else Ok sv.

(** [apply_bit_correction]: the corrected shares, the accumulated polynomial,
    and the owners of the shares that became invalid. *)
Definition apply_bit_correction (shares_with_validity : seq ShareValidity)
    (ordered_powers : seq (seq R)) (fi_mod2 : seq F) (bit_idx : nat) (res : seq R)
    : Res string (seq ShareValidity * seq R * seq Role) :=
  let bitwise := [seq gf_into c | c <- fi_mod2] in
  let* corrected := rmap (correct_share ordered_powers bitwise bit_idx)
                      (enumerate shares_with_validity) in
  let evicted := [seq share_owner on.2.1
    | on <- zip shares_with_validity corrected & on.1.2 && ~~ on.2.2] in
  Ok (corrected, accumulate_and_lift_bitwise_poly res fi_mod2 bit_idx, evicted).

(** [MemoizedExceptionals::calculate_powers]. *)
Definition calculate_powers (index degree : nat) : Res string (seq R) :=
  let* point := get_from_exceptional_sequence index in Ok (compute_powers point degree).

(** The body of the loop over the bits; [max_errors - num_new_bot] underflows
    when more shares were evicted than errors are allowed. *)
Definition hensel_step (degree max_errors initial_length : nat) (ordered_powers : seq (seq R))
    (st : seq ShareValidity * seq R) (bit_idx : nat) : Res string (seq ShareValidity * seq R) :=
  let (shares_with_validity, res) := st in
  let binary_shares := compute_binary_shares shares_with_validity bit_idx in
  let num_new_bot := (initial_length - size binary_shares)%N in
  if (max_errors < num_new_bot)%N then Panic else
  let* fi_mod2 := error_correction binary_shares degree (max_errors - num_new_bot) in
  let* r := apply_bit_correction shares_with_validity ordered_powers fi_mod2 bit_idx res in
  Ok r.1.

Definition shamir_error_correct (sharing : ShamirSharings R) (degree max_errors : nat)
    : Res string (seq R) :=
  let shares_with_validity := [seq (s, true) | s <- sharing] in
  let initial_length := size shares_with_validity in
  let* ordered_powers := rmap (fun s => calculate_powers (one_based (share_owner s)) degree) sharing in
  let* st := rfold (hensel_step degree max_errors initial_length ordered_powers)
               (shares_with_validity, poly_zero) (iota 0 BASE_BIT_LENGTH) in
  Ok st.2.

(** The state of the loop with hints: whether a share was evicted, and the field
    hints computed for the shares that are left. *)
Record HintedState := mkHintedState {
  hs_shares : seq ShareValidity;
  hs_res : seq R;
  hs_validity_changed : bool;
  hs_fallback : option (FieldHints F)
}.

Definition hensel_step_with_hints (degree max_errors initial_length : nat)
    (hints : ReconstructionHints R F) (st : HintedState) (bit_idx : nat) : Res string HintedState :=
  let binary_shares := compute_binary_shares (hs_shares st) bit_idx in
  let num_new_bot := (initial_length - size binary_shares)%N in
  let decode fh :=
    if (max_errors < num_new_bot)%N then Panic
    else error_correction_with_field_hints binary_shares degree (max_errors - num_new_bot) fh in
  let* fb :=
    (if ~~ hs_validity_changed st
     then let* fi_mod2 := decode (rh_field_hints hints) in Ok (fi_mod2, hs_fallback st)
     else
       let* fh := match hs_fallback st with
                  | Some fh => Ok fh
                  | None => field_hints_new [seq share_owner sv.1 | sv <- hs_shares st & sv.2]
                  end in
       let* fi_mod2 := decode fh in Ok (fi_mod2, Some fh)) in
  let (fi_mod2, fallback) := fb in
  let* r := apply_bit_correction (hs_shares st) (rh_exceptional_powers hints) fi_mod2 bit_idx
              (hs_res st) in
  let '(corrected, res, evicted) := r in
  if evicted is [::] then Ok (mkHintedState corrected res (hs_validity_changed st) fallback)
  else Ok (mkHintedState corrected res true None).

Definition shamir_error_correct_with_hints (sharing : ShamirSharings R) (degree max_errors : nat)
    (hints : ReconstructionHints R F) : Res string (seq R) :=
  if rh_degree hints != degree then
    Err "ReconstructionHints degree does not match the provided degree"%string
  else if (rh_parties hints : seq nat) != owners sharing then
    Err "ReconstructionHints parties do not match the sharing's owner set"%string
  else
    let shares_with_validity := [seq (s, true) | s <- sharing] in
    let initial_length := size shares_with_validity in
    let* st := rfold (hensel_step_with_hints degree max_errors initial_length hints)
                 (mkHintedState shares_with_validity poly_zero false None)
                 (iota 0 BASE_BIT_LENGTH) in
    Ok (hs_res st).
End HenselOps.

Arguments hensel_step : simpl never.
Arguments hensel_step_with_hints : simpl never.

(** ** Lifting *)

Section Lifting.
Variables (R : comNzRingType) (F : fieldType).
Context {XR : ExceptionalSequence R} {XF : ExceptionalSequence F} {G : GaloisRing XR XF}.
Implicit Types (res : seq R) (p : seq F).

Definition lift_bits (c8 : nat) : R := \sum_(d < EXTENSION_DEGREE) (bit_of c8 d)%:R * monomial d.
Definition lift_poly p : {poly R} := Poly [seq lift_bits (gf_into c) | c <- p].

Lemma size_lift_poly p : (size (lift_poly p) <= size p)%N.
Proof. by rewrite (leq_trans (size_Poly _)) ?size_map. Qed.

Lemma residue_lift_poly p : map_poly residue (lift_poly p) = Poly p.
Proof.
apply/polyP=> i; rewrite coef_map !coef_Poly.
case: (ltnP i (size p)) => [lt_i|le_i]; last by rewrite !nth_default ?size_map // raddf0.
by rewrite (nth_map 0) //; apply: residue_lift.
Qed.

Lemma Poly_get_mut_add res i a : Poly (poly_get_mut res i (fun x => x + a)) = Poly res + a *: 'X^i.
Proof.
apply/polyP=> j; rewrite coefD coefZ coefXn !coef_Poly nth_poly_get_mut.
by case: eqP => [->|_]; rewrite ?mulr1 ?mulr0 ?addr0.
Qed.

Lemma accumulateE res p amount : (amount < BASE_BIT_LENGTH)%N ->
  Poly (accumulate_and_lift_bitwise_poly res p amount) = Poly res + 2%:R ^+ amount *: lift_poly p.
Proof.
move=> lt_a; rewrite /accumulate_and_lift_bitwise_poly.
have inner res' i c : Poly (foldl (fun res d => if bit_of (gf_into c) d
    then poly_get_mut res i (fun x => x + shl (monomial d) amount) else res)
    res' (iota 0 EXTENSION_DEGREE))
  = Poly res' + (2%:R ^+ amount * lift_bits (gf_into c)) *: 'X^i.
  rewrite /lift_bits big_distrr /= scaler_suml -(big_mkord xpredT
    (fun d => (2%:R ^+ amount * ((bit_of (gf_into c) d)%:R * monomial d)) *: 'X^i)) /index_iota subn0.
  elim: (iota _ _) res' => [|d ds IHd] res' /=; first by rewrite big_nil addr0.
  rewrite IHd big_cons; case: (bit_of _ d); last by rewrite mul0r mulr0 scale0r add0r.
  by rewrite Poly_get_mut_add shlE // mul1r addrA.
have -> : lift_poly p = \sum_(ic <- enumerate p) lift_bits (gf_into ic.2) *: 'X^(ic.1).
  by rewrite /lift_poly Poly_enumerate enumerate_map big_map.
rewrite scaler_sumr; elim: (enumerate p) res => [|ic ics IHi] res /=; first by rewrite big_nil addr0.
by rewrite IHi inner big_cons scalerA addrA.
Qed.

Lemma lazy_eval_horner p (x : R) degree : (size p <= degree.+1)%N ->
  lazy_eval [seq gf_into c | c <- p] (compute_powers x degree) = Ok (lift_poly p).[x].
Proof.
move=> sz_p; rewrite lazy_evalE ?size_map ?size_compute_powers // -/(lift_bits _).
congr Ok; rewrite (horner_coef_wide _ (size_lift_poly p)); apply: eq_bigr => i _.
rewrite coef_Poly !(nth_map 0) ?ltn_ord // compute_powersE (nth_map 0%N) ?size_iota.
  exact: leq_trans (ltn_ord i) sz_p.
by rewrite nth_iota // (leq_trans (ltn_ord i) sz_p).
Qed.
End Lifting.

(** ** The loop *)

Section HenselLoop.
Variables (R : comNzRingType) (F : fieldType).
Context {XR : ExceptionalSequence R} {XF : ExceptionalSequence F} {G : GaloisRing XR XF}.
Context {C : LagrangeCache F}.
Variables (sh : ShamirSharings R) (degree max_errors : nat) (xs : seq R).
Hypothesis ok_sh : sharing_ok sh.
Hypothesis eq_xs : rmap embed_role_to_exceptional_sequence (owners sh) = Ok xs.
Implicit Types (swv : seq (ShareValidity R)) (res : seq R) (fi : seq F) (i j : nat).

Let n := size sh.
Let s0 : Share R := mkShare 0%N 0.
Let owner j : Role := share_owner (nth s0 sh j).
Let value_of swv j : R := share_value (nth (s0, false) swv j).1.
Let valid swv j : bool := (nth (s0, false) swv j).2.
Let powers := [seq compute_powers x degree | x <- xs].

Lemma size_xs : size xs = n.
Proof. by rewrite (size_rmap eq_xs) size_map. Qed.

Lemma embed_owner j : (j < n)%N -> embed_role_to_exceptional_sequence (owner j) = Ok xs`_j.
Proof.
move=> lt_j; have := nth_rmap 0%N 0 eq_xs (i := j); rewrite size_map => /(_ lt_j).
by rewrite (nth_map s0).
Qed.

(** Before bit [i]: the shares are those of [sh] in order; a valid one is the
    share of [sh] minus the polynomial accumulated so far, and a multiple of
    [2 ^ i]; no more than [max_errors] were evicted. *)
Record hensel_inv i swv res : Prop := {
  inv_size : size swv = n;
  inv_owner : forall j, (j < n)%N -> share_owner (nth (s0, false) swv j).1 = owner j;
  inv_value : forall j, (j < n)%N -> valid swv j ->
    value_of swv j = share_value (nth s0 sh j) - (Poly res).[xs`_j] /\
    exists y, value_of swv j = 2%:R ^+ i * y;
  inv_degree : (size (Poly res) <= degree.+1)%N;
  inv_evicted : (count (predC (valid swv)) (iota 0 n) <= max_errors)%N
}.

Lemma count_nth (A : Type) (a0 : A) (P : pred A) (s : seq A) :
  count P s = count (fun j => P (nth a0 s j)) (iota 0 (size s)).
Proof. by rewrite -[in LHS](mkseq_nth a0 s) count_map. Qed.

Lemma count_sub_in (P Q : pred nat) (r : seq nat) : {in r, forall j, P j -> Q j} ->
  (count P r <= count Q r)%N.
Proof.
elim: r => //= j r IHr PQ; rewrite leq_add ?IHr // => [|k k_r]; last by apply: PQ; rewrite inE k_r orbT.
by case Pj: (P j) => //; rewrite PQ ?mem_head.
Qed.

Lemma valid_countE swv : size swv = n ->
  (size [seq sv <- swv | sv.2] + count (predC (valid swv)) (iota 0 n) = n)%N.
Proof.
move=> sz; rewrite size_filter (count_nth (s0, false)) sz -[RHS](size_iota 0 n).
by rewrite -(count_predC (valid swv)).
Qed.

(** The shares decoded in the residue field. *)
Lemma size_binary swv i : size (compute_binary_shares swv i) = size [seq sv <- swv | sv.2].
Proof. by rewrite size_map. Qed.

Lemma num_new_botE i swv res : hensel_inv i swv res -> forall b,
  (n - size (compute_binary_shares swv b))%N = count (predC (valid swv)) (iota 0 n).
Proof.
by move=> inv b; have := valid_countE (inv_size inv); rewrite size_binary; ssrlia.
Qed.

Lemma owners_binary i swv res b : hensel_inv i swv res ->
  subseq (owners (compute_binary_shares swv b)) (owners sh).
Proof.
move=> inv; rewrite /owners -map_comp.
have -> : [seq (@share_owner F \o (fun sv : ShareValidity R =>
    mkShare (share_owner sv.1) (bit_compose (share_value sv.1) b))) sv | sv <- swv & sv.2]
  = [seq share_owner sv.1 | sv <- swv & sv.2] by apply: eq_map.
have -> : [seq share_owner s | s <- sh] = [seq share_owner sv.1 | sv <- swv] :> seq nat.
  apply: (@eq_from_nth _ 0%N) => [|j]; rewrite !size_map ?(inv_size inv) // => lt_j.
  by rewrite !(nth_map s0) // (nth_map (s0, false)) ?(inv_size inv) // (inv_owner inv).
exact: map_subseq (filter_subseq _ _).
Qed.

Lemma binary_ok i swv res b : hensel_inv i swv res -> sharing_ok (compute_binary_shares swv b).
Proof.
move=> inv; have sub := owners_binary b inv; case/andP: ok_sh => uniq_o emb.
apply/andP; split; first exact: subseq_uniq sub uniq_o.
apply/allP => r /(mem_subseq sub)/(allP emb); rewrite /embeddable /embed_role_to_exceptional_sequence.
by case eq_r: (get_from_exceptional_sequence _) => [a|||] // _; rewrite (residue_exceptional eq_r).
Qed.

Lemma wrong_binaryE i swv res (p : {poly F}) : (i < BASE_BIT_LENGTH)%N -> hensel_inv i swv res ->
  wrong_shares p (compute_binary_shares swv i)
    = count (fun j => valid swv j && (bit_compose (value_of swv j) i != p.[residue xs`_j])) (iota 0 n).
Proof.
move=> lt_i inv; rewrite /wrong_shares /compute_binary_shares count_map count_filter.
rewrite (count_nth (s0, false)) (inv_size inv); apply: eq_in_count => j; rewrite mem_iota0 => lt_j.
rewrite /= andbC -/(valid swv j) /on_poly /= (inv_owner inv lt_j).
have := embed_owner lt_j; rewrite /embed_role_to_exceptional_sequence => /residue_exceptional->.
by [].
Qed.

(** What one step makes of the share of index [j]. *)
Definition corrected fi i (jsv : nat * ShareValidity R) : ShareValidity R :=
  let (j, sv) := jsv in
  if sv.2 then
    let share := share_sub_const sv.1 (2%:R ^+ i * (lift_poly fi).[xs`_j]) in
    (share, multiple_pow2 (share_value share) i.+1)
  else sv.

Lemma correct_sharesE i swv res fi : (i < BASE_BIT_LENGTH)%N -> hensel_inv i swv res ->
  (size fi <= degree.+1)%N ->
  rmap (correct_share powers [seq gf_into c | c <- fi] i) (enumerate swv)
    = Ok [seq corrected fi i jsv | jsv <- enumerate swv].
Proof.
move=> lt_i inv sz_fi; apply: rmap_Ok => jsv; rewrite (enumerateE (s0, false)) => /mapP[j].
rewrite mem_iota0 (inv_size inv) => lt_j -> /=; case: (nth _ _ _) => share [] //=.
rewrite size_map size_xs lt_j (nth_map 0) ?size_xs // lazy_eval_horner //=.
by rewrite shlE // addn1.
Qed.

Lemma nth_corrected i swv res fi j : hensel_inv i swv res -> (j < n)%N ->
  nth (s0, false) [seq corrected fi i jsv | jsv <- enumerate swv] j
    = corrected fi i (j, nth (s0, false) swv j).
Proof.
move=> inv lt_j; rewrite (nth_map (0%N, (s0, false))) ?size_enumerate ?(inv_size inv) //.
by rewrite (enumerateE (s0, false)) (nth_map 0%N) ?size_iota ?(inv_size inv) // nth_iota ?(inv_size inv).
Qed.

Lemma apply_bit_correctionE i swv res fi : (i < BASE_BIT_LENGTH)%N -> hensel_inv i swv res ->
  (size fi <= degree.+1)%N ->
  exists2 ev, apply_bit_correction swv powers fi i res
    = Ok ([seq corrected fi i jsv | jsv <- enumerate swv],
          accumulate_and_lift_bitwise_poly res fi i, ev)
  & (ev == [::]) = all (fun j => valid swv j ==> valid [seq corrected fi i jsv | jsv <- enumerate swv] j) (iota 0 n).
Proof.
move=> lt_i inv sz_fi; rewrite /apply_bit_correction (correct_sharesE lt_i inv sz_fi) /=.
set swv' := [seq _ | _ <- _]; eexists; first by [].
have sz' : size swv' = n by rewrite size_map size_enumerate (inv_size inv).
rewrite -size_eq0 size_map size_filter (count_nth ((s0, false), (s0, false))).
rewrite size_zip sz' (inv_size inv) minnn -leqn0 leqNgt -has_count -all_predC.
apply: eq_in_all => j; rewrite mem_iota0 => lt_j.
by rewrite /= nth_zip ?sz' ?(inv_size inv) //= negb_and negbK implybE.
Qed.

(** A share evicted at bit [i] was wrong in the residue field. *)
Lemma evicted_wrong i swv res fi j : (i < BASE_BIT_LENGTH)%N -> hensel_inv i swv res ->
  (j < n)%N -> valid swv j -> ~~ (corrected fi i (j, nth (s0, false) swv j)).2 ->
  bit_compose (value_of swv j) i != (Poly fi).[residue xs`_j].
Proof.
move=> lt_i inv lt_j val_j; have [_ [y eq_y]] := inv_value inv lt_j val_j.
move: (val_j); rewrite /corrected /valid => -> /=; rewrite -/(value_of swv j) eq_y bit_compose_shift //.
apply: contra => /eqP eq_res; apply/multiple_pow2P => //.
have [|z eq_z] := @residue_ker _ _ _ _ _ (y - (lift_poly fi).[xs`_j]).
  by rewrite raddfB /= eq_res -residue_lift_poly horner_map subrr.
by exists z; rewrite -mulrBr eq_z exprSr mulrA.
Qed.

Let bots swv := count (predC (valid swv)) (iota 0 n).

Lemma hensel_inv_step i swv res fi : (i < BASE_BIT_LENGTH)%N -> hensel_inv i swv res ->
  (size fi <= degree.+1)%N ->
  (wrong_shares (Poly fi) (compute_binary_shares swv i) <= max_errors - bots swv)%N ->
  hensel_inv i.+1 [seq corrected fi i jsv | jsv <- enumerate swv]
    (accumulate_and_lift_bitwise_poly res fi i).
Proof.
move=> lt_i inv sz_fi le_w; have corrE j := @nth_corrected i swv res fi j inv; split.
- by rewrite size_map size_enumerate (inv_size inv).
- move=> j lt_j; rewrite corrE // -(inv_owner inv lt_j) /corrected.
  by case: (nth _ _ _) => share [].
- move=> j lt_j; rewrite /valid /value_of corrE // => val_j'.
  have val_j : valid swv j by move: val_j'; rewrite /valid /corrected; case: (nth _ _ _) => share [].
  have [eq_v _] := inv_value inv lt_j val_j; move: val_j'.
  rewrite /corrected -/(valid swv j) val_j /= => /(multiple_pow2P _ lt_i) mult; split=> //.
  by rewrite -/(value_of swv j) eq_v accumulateE // hornerD hornerZ opprD addrA.
- rewrite accumulateE // (leq_trans (size_polyD _ _)) // geq_max (inv_degree inv) /=.
  by rewrite (leq_trans (size_scale_leq _ _)) // (leq_trans (size_lift_poly fi)).
- rewrite (wrong_binaryE _ lt_i inv) in le_w; have le_me := inv_evicted inv.
  set wrong := (fun j => valid swv j && _) in le_w.
  have : (count (predC (valid [seq corrected fi i jsv | jsv <- enumerate swv])) (iota 0 n)
      <= count (predU (predC (valid swv)) wrong) (iota 0 n))%N.
    apply: count_sub_in => j; rewrite mem_iota0 => lt_j inval_j /=.
    case val_j: (valid swv j) => //=; rewrite /wrong val_j; apply: (evicted_wrong lt_i inv) => //.
    by move: inval_j; rewrite /= /valid corrE.
  by have := count_predUI (predC (valid swv)) wrong (iota 0 n); rewrite -/(bots swv) in le_me *; ssrlia.
Qed.

(** One step decodes, corrects, and keeps the invariant. *)
Lemma hensel_stepE i swv res : (i < BASE_BIT_LENGTH)%N -> hensel_inv i swv res ->
  (exists2 msg, error_correction (compute_binary_shares swv i) degree (max_errors - bots swv) = Err msg
    & hensel_step degree max_errors n powers (swv, res) i = Err msg) \/
  (exists fi,
    [/\ error_correction (compute_binary_shares swv i) degree (max_errors - bots swv) = Ok fi,
        hensel_step degree max_errors n powers (swv, res) i
          = Ok ([seq corrected fi i jsv | jsv <- enumerate swv], accumulate_and_lift_bitwise_poly res fi i)
      & hensel_inv i.+1 [seq corrected fi i jsv | jsv <- enumerate swv]
          (accumulate_and_lift_bitwise_poly res fi i)]).
Proof.
move=> lt_i inv; have ok_b := binary_ok i inv.
rewrite /hensel_step (num_new_botE inv) -/(bots swv) ltnNge (inv_evicted inv) /=.
have [[fi eq_fi]|[msg eq_msg]] := returned_inv (error_correction_returned degree (max_errors - bots swv) ok_b).
  right; exists fi; have /(error_correctionP _ _ _ ok_b)[_ _ sz_fi le_w] := eq_fi.
  rewrite eq_fi /=; have [ev -> _] := apply_bit_correctionE lt_i inv sz_fi.
  by split=> //; apply: hensel_inv_step.
by left; exists msg; rewrite ?eq_msg.
Qed.

(** Every codeword is the accumulated polynomial plus a multiple of [2 ^ i], and
    its shares are still valid. *)
Definition hensel_lifts (g : {poly R}) i swv res : Prop :=
  (exists2 gi : {poly R}, (size gi <= degree.+1)%N & g = Poly res + 2%:R ^+ i *: gi) /\
  forall j, (j < n)%N -> on_poly g (nth s0 sh j) -> valid swv j.

Lemma halve_poly (p : {poly R}) k : (size p <= k)%N -> map_poly residue p = 0 ->
  exists2 q : {poly R}, (size q <= k)%N & p = 2%:R *: q.
Proof.
elim/poly_ind: p k => [|p c IHp] k sz_p eq0.
  by exists 0; rewrite ?size_poly0 // scaler0.
have [coef0 mod_p] : residue c = 0 /\ map_poly residue p = 0.
  move: eq0; rewrite rmorphD rmorphM /= map_polyX map_polyC /= => eq0; split.
    by have := congr1 (fun q : {poly F} => q`_0) eq0; rewrite coefD coefMX coefC coef0 add0r.
  apply/polyP=> i; have := congr1 (fun q : {poly F} => q`_i.+1) eq0.
  by rewrite coefD coefMX coefC !coef0 addr0.
have [y eq_y] := residue_ker coef0.
have sz_p' : (size p <= k.-1)%N.
  move: sz_p; rewrite size_MXaddC; case: ifP => [/andP[/eqP-> _]|_]; first by rewrite size_poly0.
  by case: k.
have [q sz_q eq_q] := IHp k.-1 sz_p' mod_p; case: (posnP k) => [k0|k_gt0].
  exists 0; rewrite ?size_poly0 // scaler0; apply/eqP; rewrite -size_poly_eq0 -leqn0 -k0 //.
exists (q * 'X + y%:P); last by rewrite scalerDr scalerAl -eq_q eq_y polyCM mul_polyC.
rewrite size_MXaddC; case: ifP => // _; rewrite (leq_ltn_trans sz_q) //.
by rewrite prednK.
Qed.

Lemma on_poly_value g j : (j < n)%N -> on_poly g (nth s0 sh j) ->
  share_value (nth s0 sh j) = g.[xs`_j].
Proof. by move=> lt_j; rewrite /on_poly (embed_owner lt_j) => /eqP. Qed.

(** Before bit [i], decoding finds the residue of the part of the codeword that
    is left. *)
Lemma hensel_lifts_decode g (gi : {poly R}) i swv res : (i < BASE_BIT_LENGTH)%N ->
  hensel_inv i swv res ->
  (2 * max_errors + degree.+1 <= n)%N -> (wrong_shares g sh <= max_errors)%N ->
  (size gi <= degree.+1)%N -> g = Poly res + 2%:R ^+ i *: gi ->
  (forall j, (j < n)%N -> on_poly g (nth s0 sh j) -> valid swv j) ->
  error_correction (compute_binary_shares swv i) degree (max_errors - bots swv)
    = Ok (polyseq (map_poly residue gi)).
Proof.
move=> lt_i inv le_n le_w sz_gi eq_g honest.
apply/error_correctionP; first exact: binary_ok inv.
have sz_map : (size (map_poly residue gi) <= degree.+1)%N by rewrite (leq_trans (size_poly _ _)).
have cnt := valid_countE (inv_size inv); have le_me := inv_evicted inv.
rewrite -/(bots swv) in cnt le_me; split; rewrite ?poly_compressE ?polyseqK //.
  by rewrite size_binary; ssrlia.
rewrite (wrong_binaryE _ lt_i inv); set W := (fun j => valid swv j && _).
suff : (count (predU (predC (valid swv)) W) (iota 0 n) <= wrong_shares (X := XR) g sh)%N.
  have := count_predUI (predC (valid swv)) W (iota 0 n).
  rewrite (@eq_count _ (predI _ W) pred0) ?count_pred0 => [j|]; first by rewrite /= /W; case: (valid swv j).
  by rewrite -/(bots swv); ssrlia.
rewrite /wrong_shares (count_nth s0) -/n; apply: count_sub_in => j; rewrite mem_iota0 => lt_j /=.
apply: contraL => on_j; have val_j := honest j lt_j on_j; rewrite /W val_j /= negbK.
have [eq_v _] := inv_value inv lt_j val_j; rewrite eq_v (on_poly_value lt_j on_j) eq_g.
by rewrite hornerD hornerZ addrC addKr bit_compose_shift // horner_map.
Qed.

Lemma hensel_lifts_step g i swv res : (i < BASE_BIT_LENGTH)%N -> hensel_inv i swv res ->
  (2 * max_errors + degree.+1 <= n)%N -> (wrong_shares g sh <= max_errors)%N ->
  hensel_lifts g i swv res ->
  exists swv' res', [/\ hensel_step degree max_errors n powers (swv, res) i = Ok (swv', res'),
    hensel_inv i.+1 swv' res' & hensel_lifts g i.+1 swv' res'].
Proof.
move=> lt_i inv le_n le_w [[gi sz_gi eq_g] honest].
have dec := hensel_lifts_decode lt_i inv le_n le_w sz_gi eq_g honest.
have [[msg]|[fi [eq_fi eq_step inv']]] := hensel_stepE lt_i inv; first by rewrite dec.
move: eq_fi; rewrite dec => -[eq_fi]; eexists; eexists; split; [exact: eq_step | exact: inv' |].
have [||q sz_q eq_q] := @halve_poly (gi - lift_poly fi) degree.+1.
- rewrite (leq_trans (size_polyD _ _)) // size_polyN geq_max sz_gi (leq_trans (size_lift_poly _)) //.
  by rewrite -eq_fi (leq_trans (size_poly _ _)).
- by rewrite rmorphB /= residue_lift_poly -eq_fi polyseqK subrr.
have eq_g' : g = Poly (accumulate_and_lift_bitwise_poly res fi i) + 2%:R ^+ i.+1 *: q.
  by rewrite accumulateE // exprSr -scalerA -eq_q scalerBr -addrA [X in _ + X]addrC subrK.
split=> [|j lt_j on_j]; first by exists q.
rewrite /valid (nth_corrected _ inv lt_j) /corrected -/(valid swv j) (honest j lt_j on_j) /=.
have [eq_v _] := inv_value inv lt_j (honest j lt_j on_j).
apply/multiple_pow2P => //; exists q.[xs`_j]; rewrite -/(value_of swv j) eq_v (on_poly_value lt_j on_j).
by rewrite eq_g' accumulateE // !hornerD !hornerZ -[LHS]addrA -opprD addrC addKr.
Qed.

(** ** The whole loop *)

Let loop st i k := rfold (hensel_step degree max_errors n powers) st (iota i k).

Lemma hensel_loopP i k swv res : (i + k <= BASE_BIT_LENGTH)%N -> hensel_inv i swv res ->
  (exists msg, loop (swv, res) i k = Err msg) \/
  (exists swv' res', loop (swv, res) i k = Ok (swv', res') /\ hensel_inv (i + k) swv' res').
Proof.
rewrite /loop; elim: k i swv res => [|k IHk] i swv res /= le_i inv.
  by right; exists swv, res; rewrite addn0.
have lt_i : (i < BASE_BIT_LENGTH)%N by ssrlia.
have [[msg _ ->]|[fi [_ -> inv']]] := hensel_stepE lt_i inv; first by left; exists msg.
by rewrite addnS -addSn; apply: IHk => //; ssrlia.
Qed.

Lemma hensel_loop_lifts g i k swv res : (i + k <= BASE_BIT_LENGTH)%N -> hensel_inv i swv res ->
  (2 * max_errors + degree.+1 <= n)%N -> (wrong_shares g sh <= max_errors)%N ->
  hensel_lifts g i swv res ->
  exists swv' res', loop (swv, res) i k = Ok (swv', res') /\ hensel_lifts g (i + k) swv' res'.
Proof.
move=> le_i inv le_n le_w lifts; rewrite /loop; elim: k i swv res le_i inv lifts => [|k IHk] i swv res /= le_i inv lifts.
  by exists swv, res; rewrite addn0.
have lt_i : (i < BASE_BIT_LENGTH)%N by ssrlia.
have [swv' [res' [-> inv' lifts']]] := hensel_lifts_step lt_i inv le_n le_w lifts.
by rewrite addnS -addSn; apply: IHk => //; ssrlia.
Qed.

Lemma hensel_inv_init : hensel_inv 0 [seq (s, true) | s <- sh] poly_zero.
Proof.
have nthE j : (j < n)%N -> nth (s0, false) [seq (s, true) | s <- sh] j = (nth s0 sh j, true).
  by move=> lt_j; rewrite (nth_map s0).
split; first by rewrite size_map.
- by move=> j lt_j; rewrite nthE.
- move=> j lt_j _; rewrite /value_of nthE //= horner0 subr0; split=> //.
  by eexists; rewrite expr0 mul1r.
- by rewrite size_poly0.
rewrite (@eq_in_count _ _ pred0) ?count_pred0 // => j; rewrite mem_iota0 => lt_j.
by rewrite /= /valid nthE.
Qed.

Lemma ordered_powersE :
  rmap (fun s => calculate_powers (one_based (share_owner s)) degree) sh = Ok powers.
Proof.
rewrite /powers; elim: sh xs eq_xs => [|s sh' IHsh] xs' /=; first by case=> <-.
rewrite /calculate_powers {1 2}/embed_role_to_exceptional_sequence.
case: (get_from_exceptional_sequence _) => [x|||] //=; case eq: (rmap _ _) => [ys|||] //= [<-].
by move/IHsh: eq; rewrite /calculate_powers /= => ->.
Qed.

Lemma shamir_error_correctE :
  shamir_error_correct sh degree max_errors
    = let* st := loop ([seq (s, true) | s <- sh], poly_zero) 0 BASE_BIT_LENGTH in Ok st.2.
Proof. by rewrite /shamir_error_correct ordered_powersE /= size_map. Qed.

Lemma hensel_returned : returned (shamir_error_correct sh degree max_errors).
Proof.
rewrite shamir_error_correctE.
by have [|[msg ->]|[swv [res [-> _]]]] := @hensel_loopP 0 BASE_BIT_LENGTH _ _ _ hensel_inv_init.
Qed.

Lemma hensel_sound p : shamir_error_correct sh degree max_errors = Ok p ->
  [/\ (2 * max_errors + degree.+1 <= size sh)%N, (size (Poly p) <= degree.+1)%N
    & (wrong_shares (Poly p) sh <= max_errors)%N].
Proof.
rewrite shamir_error_correctE.
have [|[msg ->] //|[swv [res [eq_l inv]]]] := @hensel_loopP 0 BASE_BIT_LENGTH _ _ _ hensel_inv_init => //.
rewrite eq_l /= => -[<-]; split; last first.
- rewrite /wrong_shares (count_nth s0) -/n (leq_trans _ (inv_evicted inv)) //.
  apply: count_sub_in => j; rewrite mem_iota0 => lt_j /=; apply: contra => val_j.
  have [eq_v [y]] := inv_value inv lt_j val_j; rewrite add0n two_nilpotent mul0r eq_v => /eqP.
  by rewrite subr_eq0 /on_poly (embed_owner lt_j).
- exact: inv_degree inv.
have K_gt0 := base_bit_length_gt0 (GaloisRing := G).
move: eq_l; rewrite /loop -(prednK K_gt0) /=.
have [[msg _ -> //]|[fi [eq_fi _ _]]] := hensel_stepE K_gt0 hensel_inv_init.
have [le_n _ _] := field_sound (binary_ok 0 hensel_inv_init) eq_fi.
move=> _; move: le_n; rewrite size_binary.
have := valid_countE (inv_size hensel_inv_init); rewrite -/(bots _).
have -> : bots [seq (s, true) | s <- sh] = 0%N; last by rewrite -/n; ssrlia.
rewrite /bots (@eq_in_count _ _ pred0) ?count_pred0 // => j; rewrite mem_iota0 => lt_j.
by rewrite /= /valid (nth_map s0).
Qed.

Lemma hensel_complete (g : {poly R}) :
  (2 * max_errors + degree.+1 <= size sh)%N ->
  (size g <= degree.+1)%N -> (wrong_shares g sh <= max_errors)%N ->
  exists2 p, shamir_error_correct sh degree max_errors = Ok p & Poly p = g.
Proof.
move=> le_n sz_g le_w; rewrite shamir_error_correctE.
have lifts : hensel_lifts g 0 [seq (s, true) | s <- sh] poly_zero.
  split=> [|j lt_j _]; last by rewrite /valid (nth_map s0).
  by exists g => //; rewrite expr0 scale1r add0r.
have [|swv [res [-> [[gK _ eq_g] _]]]] := @hensel_loop_lifts g 0 BASE_BIT_LENGTH _ _ _ hensel_inv_init le_n le_w lifts.
  by [].
by exists res => //; rewrite eq_g add0n two_nilpotent scale0r addr0.
Qed.

(** ** Hints *)

Lemma valid_ownersE i swv res : hensel_inv i swv res ->
  [seq share_owner sv.1 | sv <- swv & sv.2] = [seq owner j | j <- iota 0 n & valid swv j].
Proof.
move=> inv; rewrite -{1}(mkseq_nth (s0, false) swv) /mkseq filter_map -map_comp (inv_size inv).
apply/eq_in_map => j; rewrite mem_filter mem_iota0 => /andP[_ lt_j] /=.
exact: inv_owner inv j lt_j.
Qed.

Lemma owners_binaryE swv i :
  owners (compute_binary_shares swv i) = [seq share_owner sv.1 | sv <- swv & sv.2].
Proof. by rewrite /owners -map_comp; apply: eq_map. Qed.

Variable h : ReconstructionHints R F.
Hypothesis eq_h : from_parties_sorted (owners sh) degree = Ok h.

Lemma hints_fields : [/\ rh_parties h = owners sh, rh_degree h = degree,
  rh_exceptional_powers h = powers & field_hints_new (owners sh) = Ok (rh_field_hints h)].
Proof.
move: eq_h; rewrite /from_parties_sorted eq_xs /=; case: (field_hints_new _) => [fh|||] //= [<-].
by rewrite /= compute_powers_listE.
Qed.

(** The state with hints against the state without: as long as no share was
    evicted all are valid, and a fallback belongs to the shares that are left. *)
Definition hinted_sim (hs : HintedState R F) swv res : Prop :=
  [/\ hs_shares hs = swv, hs_res hs = res,
      ~~ hs_validity_changed hs -> all (valid swv) (iota 0 n)
    & forall fh, hs_fallback hs = Some fh ->
        field_hints_new [seq share_owner sv.1 | sv <- swv & sv.2] = Ok fh].

Lemma hinted_decode hs i swv res : hensel_inv i swv res -> hinted_sim hs swv res ->
  exists2 fallback,
    (forall fh, fallback = Some fh ->
       field_hints_new [seq share_owner sv.1 | sv <- swv & sv.2] = Ok fh) &
    forall k : seq F * option (FieldHints F) -> Res string (HintedState R F),
    rbind
      (if ~~ hs_validity_changed hs
       then let* fi := error_correction_with_field_hints (compute_binary_shares swv i) degree
                         (max_errors - bots swv) (rh_field_hints h) in Ok (fi, hs_fallback hs)
       else
         let* fh := match hs_fallback hs with
                    | Some fh => Ok fh
                    | None => field_hints_new [seq share_owner sv.1 | sv <- swv & sv.2]
                    end in
         let* fi := error_correction_with_field_hints (compute_binary_shares swv i) degree
                      (max_errors - bots swv) fh in Ok (fi, Some fh)) k
    = let* fi := error_correction (compute_binary_shares swv i) degree (max_errors - bots swv) in
      k (fi, fallback).
Proof.
move=> inv [_ _ all_valid fallbackP]; case: (boolP (hs_validity_changed hs)) => [_|unchanged] /=.
  have [fh eq_fh] : exists fh, field_hints_new [seq share_owner sv.1 | sv <- swv & sv.2] = Ok fh.
    have [ys eq_ys _] := sharing_points (binary_ok i inv); rewrite owners_binaryE in eq_ys.
    by have [polys [g [-> _ _]]] := field_hints_newE eq_ys; eexists.
  exists (Some fh) => [fh' [<-] //|k].
  have -> : match hs_fallback hs with
            | Some fh => Ok fh
            | None => field_hints_new [seq share_owner sv.1 | sv <- swv & sv.2]
            end = Ok fh :> Res string _.
    by case eq_fb: (hs_fallback hs) => [fh'|//]; move/fallbackP: eq_fb; rewrite eq_fh => -[<-].
  rewrite /= error_correction_hintsE ?owners_binaryE //.
  by case: (error_correction _ _ _).
exists (hs_fallback hs) => // k; rewrite error_correction_hintsE; last by case: (error_correction _ _ _).
have [_ _ _ <-] := hints_fields; rewrite owners_binaryE (valid_ownersE inv).
have /all_filterP -> := all_valid unchanged; congr field_hints_new.
rewrite /owners -[in RHS](mkseq_nth s0 sh) -map_comp; exact: eq_map.
Qed.

(** Without evictions the same shares are valid after a step. *)
Lemma no_eviction_valid i swv res fi swv' : hensel_inv i swv res ->
  swv' = [seq corrected fi i jsv | jsv <- enumerate swv] ->
  all (fun j => valid swv j ==> valid swv' j) (iota 0 n) ->
  {in iota 0 n, forall j, valid swv' j = valid swv j}.
Proof.
move=> inv -> /allP no_ev j j_n; have := no_ev j j_n; move: j_n; rewrite mem_iota0 => lt_j.
rewrite /valid (nth_corrected _ inv lt_j) /corrected.
by case: (nth _ _ _) => share [] //= ->.
Qed.

Lemma hinted_step hs i swv res : (i < BASE_BIT_LENGTH)%N -> hensel_inv i swv res ->
  hinted_sim hs swv res ->
  (exists2 msg, hensel_step degree max_errors n powers (swv, res) i = Err msg
     & hensel_step_with_hints degree max_errors n h hs i = Err msg) \/
  (exists swv' res' hs', [/\ hensel_step degree max_errors n powers (swv, res) i = Ok (swv', res'),
     hensel_step_with_hints degree max_errors n h hs i = Ok hs', hinted_sim hs' swv' res'
   & hensel_inv i.+1 swv' res']).
Proof.
move=> lt_i inv sim; have [fallback fbP decE] := hinted_decode inv sim.
have [eq_swv eq_res all_valid _] := sim; have [_ _ pwE _] := hints_fields.
have hintedE : hensel_step_with_hints degree max_errors n h hs i =
    let* fi := error_correction (compute_binary_shares swv i) degree (max_errors - bots swv) in
    let* r := apply_bit_correction swv powers fi i res in
    let '(corrected, res, evicted) := r in
    if evicted is [::] then Ok (mkHintedState corrected res (hs_validity_changed hs) fallback)
    else Ok (mkHintedState corrected res true None).
  rewrite -(decE (fun fb => let (fi, fallback) := fb in
    let* r := apply_bit_correction swv powers fi i res in
    let '(corrected, res, evicted) := r in
    if evicted is [::] then Ok (mkHintedState corrected res (hs_validity_changed hs) fallback)
    else Ok (mkHintedState corrected res true None))).
  rewrite /hensel_step_with_hints eq_swv eq_res pwE (num_new_botE inv) -/(bots swv).
  by rewrite ltnNge (inv_evicted inv).
have [[msg eq_msg ->]|[fi [eq_fi -> inv']]] := hensel_stepE lt_i inv.
  by left; exists msg; rewrite // hintedE eq_msg.
right; exists [seq corrected fi i jsv | jsv <- enumerate swv], (accumulate_and_lift_bitwise_poly res fi i).
have /(error_correctionP _ _ _ (binary_ok i inv))[_ _ sz_fi _] := eq_fi.
have [ev eq_ev ev0] := apply_bit_correctionE lt_i inv sz_fi.
rewrite hintedE eq_fi /= eq_ev /=; case: ev ev0 {eq_ev} => [|e ev] ev0; last first.
  by eexists; split; [| |split|].
have eq_valid := no_eviction_valid inv erefl (esym ev0).
eexists; split=> //; split=> //= [unch|fh /fbP].
  by rewrite (eq_in_all eq_valid) all_valid.
by rewrite (valid_ownersE inv) (valid_ownersE inv') (eq_in_filter eq_valid).
Qed.

Lemma hinted_loop i k hs swv res : (i + k <= BASE_BIT_LENGTH)%N -> hensel_inv i swv res ->
  hinted_sim hs swv res ->
  rbind (rfold (hensel_step_with_hints degree max_errors n h) hs (iota i k)) (fun hs => Ok (hs_res hs))
    = rbind (loop (swv, res) i k) (fun st => Ok st.2).
Proof.
rewrite /loop; elim: k i hs swv res => [|k IHk] i hs swv res /= le_i inv sim.
  by case: sim => _ ->.
have lt_i : (i < BASE_BIT_LENGTH)%N by ssrlia.
have [[msg -> -> //]|[swv' [res' [hs' [-> -> sim' inv']]]]] := hinted_step lt_i inv sim.
by apply: IHk sim'; rewrite // addSnnS.
Qed.

Lemma hensel_hintsE :
  shamir_error_correct_with_hints sh degree max_errors h = shamir_error_correct sh degree max_errors.
Proof.
have [eq_p eq_d _ _] := hints_fields.
rewrite /shamir_error_correct_with_hints shamir_error_correctE eq_p eq_d !eqxx /= size_map.
apply: hinted_loop hensel_inv_init _ => //; split=> //= _; apply/allP => j; rewrite mem_iota0 => lt_j.
by rewrite /valid (nth_map s0).
Qed.
End HenselLoop.

(** ** The decoder of a Galois ring *)

Section RingInstance.
Variables (R : comNzRingType) (F : fieldType).
Context {XR : ExceptionalSequence R} {XF : ExceptionalSequence F} {G : GaloisRing XR XF}.
Context {C : LagrangeCache F}.

Lemma ring_hints_Ok (sh : ShamirSharings R) degree : sharing_ok sh ->
  exists h, from_parties_sorted (R := R) (F := F) (owners sh) degree = Ok h.
Proof.
move=> ok_sh; have [xs eq_xs _] := sharing_points ok_sh.
apply: (@from_parties_sorted_Ok F XF C R XR sh degree [seq residue x | x <- xs] ok_sh).
elim: (owners sh) xs eq_xs => [|r rs IHr] xs /=; first by case=> <-.
rewrite {1 3}/embed_role_to_exceptional_sequence.
case eq_r: (get_from_exceptional_sequence _) => [x|||] //=; rewrite (residue_exceptional eq_r) /=.
by case eq_rs: (rmap _ _) => [ys|||] //= [<-]; rewrite (IHr _ eq_rs).
Qed.

Definition ring_error_correct : ErrorCorrect XR.
Proof.
refine {| Hints := ReconstructionHints R F;
          hints_new := @from_parties_sorted R F XR XF C;
          error_correct := @shamir_error_correct R F XR XF G C;
          error_correct_with_hints := @shamir_error_correct_with_hints R F XR XF G C;
          hints_new_Ok := ring_hints_Ok |}.
- by move=> sh degree me ok_sh; have [xs eq_xs _] := sharing_points ok_sh; apply: hensel_returned eq_xs.
- by move=> sh degree me p ok_sh; have [xs eq_xs _] := sharing_points ok_sh; apply: hensel_sound eq_xs _.
- by move=> sh degree me g ok_sh; have [xs eq_xs _] := sharing_points ok_sh; apply: hensel_complete eq_xs _.
- by move=> sh degree me h ok_sh; have [xs eq_xs _] := sharing_points ok_sh; apply: hensel_hintsE eq_xs _.
Defined.
End RingInstance.
