(* ===== verification/Karatsuba.v ===== *)
(** * Karatsuba multiplication of coefficient arrays
    (core/threshold-algebra/src/galois_rings/utils.rs)

    The products of two arrays of two to eight coefficients, each built from
    smaller ones, and the proof that each is the product of polynomials. *)

From mathcomp Require Import boot.
From mathcomp Require Import ssralg poly zmodp ring_tactic.
From S2P Require Import Prelude SsrLia PolyOps.

Set Implicit Arguments.
Unset Strict Implicit.
Unset Printing Implicit Defensive.

Import GRing.Theory.
Local Open Scope ring_scope.

Section Karatsuba.
Variable Z : comNzRingType.
Implicit Types (a b : seq Z).

(** [&a\[i..=j\]]. *)
Definition slice a (i j : nat) : seq Z := take (j.+1 - i) (drop i a).

Definition karatsuba_2 a b : seq Z :=
  let z0 := a`_1 * b`_1 in
  let z2 := a`_0 * b`_0 in
  let z3 := (a`_0 + a`_1) * (b`_0 + b`_1) in
  let z1 := z3 - z2 - z0 in
  [:: z2; z1; z0].

Definition karatsuba_3 a b : seq Z :=
  let z0 := karatsuba_2 (slice a 1 2) (slice b 1 2) in
  let z2 := a`_0 * b`_0 in
  let z3 := karatsuba_2 [:: a`_1; a`_0 + a`_2] [:: b`_1; b`_0 + b`_2] in
  let z1 := [:: z3`_0 - z0`_0; z3`_1 - z0`_1; z3`_2 - z2 - z0`_2] in
  [:: z2 + z1`_0; z1`_1; z1`_2 + z0`_0; z0`_1; z0`_2].

Definition karatsuba_4 a b : seq Z :=
  let z0 := karatsuba_2 (slice a 2 3) (slice b 2 3) in
  let z2 := karatsuba_2 (slice a 0 1) (slice b 0 1) in
  let z3 := karatsuba_2 [:: a`_0 + a`_2; a`_1 + a`_3] [:: b`_0 + b`_2; b`_1 + b`_3] in
  let z1 := [:: z3`_0 - z2`_0 - z0`_0; z3`_1 - z2`_1 - z0`_1; z3`_2 - z2`_2 - z0`_2] in
  [:: z2`_0; z2`_1; z2`_2 + z1`_0; z1`_1; z1`_2 + z0`_0; z0`_1; z0`_2].

Definition karatsuba_5 a b : seq Z :=
  let z0 := karatsuba_3 (slice a 2 4) (slice b 2 4) in
  let z2 := karatsuba_2 (slice a 0 1) (slice b 0 1) in
  let z3 := karatsuba_3 [:: a`_2; a`_0 + a`_3; a`_1 + a`_4] [:: b`_2; b`_0 + b`_3; b`_1 + b`_4] in
  let z1 := [:: z3`_0 - z0`_0; z3`_1 - z0`_1; z3`_2 - z2`_0 - z0`_2;
               z3`_3 - z2`_1 - z0`_3; z3`_4 - z2`_2 - z0`_4] in
  [:: z2`_0; z2`_1 + z1`_0; z2`_2 + z1`_1; z1`_2; z1`_3 + z0`_0; z1`_4 + z0`_1;
      z0`_2; z0`_3; z0`_4].

Definition karatsuba_6 a b : seq Z :=
  let z0 := karatsuba_3 (slice a 3 5) (slice b 3 5) in
  let z2 := karatsuba_3 (slice a 0 2) (slice b 0 2) in
  let z3 := karatsuba_3 [:: a`_0 + a`_3; a`_1 + a`_4; a`_2 + a`_5]
                        [:: b`_0 + b`_3; b`_1 + b`_4; b`_2 + b`_5] in
  let z1 := [:: z3`_0 - z2`_0 - z0`_0; z3`_1 - z2`_1 - z0`_1; z3`_2 - z2`_2 - z0`_2;
               z3`_3 - z2`_3 - z0`_3; z3`_4 - z2`_4 - z0`_4] in
  [:: z2`_0; z2`_1; z2`_2; z2`_3 + z1`_0; z2`_4 + z1`_1; z1`_2; z1`_3 + z0`_0; z1`_4 + z0`_1;
      z0`_2; z0`_3; z0`_4].

Definition karatsuba_7 a b : seq Z :=
  let z0 := karatsuba_4 (slice a 3 6) (slice b 3 6) in
  let z2 := karatsuba_3 (slice a 0 2) (slice b 0 2) in
  let z3 := karatsuba_4 [:: a`_3; a`_0 + a`_4; a`_1 + a`_5; a`_2 + a`_6]
                        [:: b`_3; b`_0 + b`_4; b`_1 + b`_5; b`_2 + b`_6] in
  let z1 := [:: z3`_0 - z0`_0; z3`_1 - z0`_1; z3`_2 - z2`_0 - z0`_2; z3`_3 - z2`_1 - z0`_3;
               z3`_4 - z2`_2 - z0`_4; z3`_5 - z2`_3 - z0`_5; z3`_6 - z2`_4 - z0`_6] in
  [:: z2`_0; z2`_1; z1`_0 + z2`_2; z1`_1 + z2`_3; z1`_2 + z2`_4; z1`_3; z1`_4 + z0`_0;
      z1`_5 + z0`_1; z1`_6 + z0`_2; z0`_3; z0`_4; z0`_5; z0`_6].

Definition karatsuba_8 a b : seq Z :=
  let z0 := karatsuba_4 (slice a 4 7) (slice b 4 7) in
  let z2 := karatsuba_4 (slice a 0 3) (slice b 0 3) in
  let z3 := karatsuba_4 [:: a`_0 + a`_4; a`_1 + a`_5; a`_2 + a`_6; a`_3 + a`_7]
                        [:: b`_0 + b`_4; b`_1 + b`_5; b`_2 + b`_6; b`_3 + b`_7] in
  let z1 := [:: z3`_0 - z2`_0 - z0`_0; z3`_1 - z2`_1 - z0`_1; z3`_2 - z2`_2 - z0`_2;
               z3`_3 - z2`_3 - z0`_3; z3`_4 - z2`_4 - z0`_4; z3`_5 - z2`_5 - z0`_5;
               z3`_6 - z2`_6 - z0`_6] in
  [:: z2`_0; z2`_1; z2`_2; z2`_3; z1`_0 + z2`_4; z1`_1 + z2`_5; z1`_2 + z2`_6; z1`_3;
      z1`_4 + z0`_0; z1`_5 + z0`_1; z1`_6 + z0`_2; z0`_3; z0`_4; z0`_5; z0`_6].

(** The routine that the extension of degree [d] calls. *)
Definition karatsuba (d : nat) a b : seq Z :=
  match d with
  | 2 => karatsuba_2 a b
  | 3 => karatsuba_3 a b
  | 4 => karatsuba_4 a b
  | 5 => karatsuba_5 a b
  | 6 => karatsuba_6 a b
  | 7 => karatsuba_7 a b
  | _ => karatsuba_8 a b
  end.

(** ** Correctness *)

(** The coefficients of the product, by convolution. *)
Definition convolution a b : seq Z :=
  [seq \sum_(i <- iota 0 k.+1) a`_i * b`_(k - i) | k <- iota 0 (size a + size b).-1].

Lemma Poly_convolution a b : Poly (convolution a b) = Poly a * Poly b.
Proof.
apply/polyP=> k; rewrite coef_Poly coefM -(big_mkord xpredT (fun i => (Poly a)`_i * (Poly b)`_(k - i))).
rewrite /index_iota subn0; under eq_bigr do rewrite !coef_Poly.
case: (ltnP k (size a + size b).-1) => [lt_k|le_k].
  by rewrite (nth_map 0%N) ?size_iota // nth_iota.
rewrite nth_default ?size_map ?size_iota // big_seq big1 // => i; rewrite mem_iota0 ltnS => le_ik.
case: (ltnP i (size a)) => [lt_i|le_i]; last by rewrite nth_default // mul0r.
by rewrite [X in _ * X]nth_default ?mulr0 //; ssrlia.
Qed.

Lemma size_convolution a b : size (convolution a b) = (size a + size b).-1.
Proof. by rewrite size_map size_iota. Qed.
End Karatsuba.


(** Compare two coefficient arrays, entry by entry. *)
Ltac coefs_ring :=
  rewrite /convolution /= !big_cons !big_nil /=;
  repeat (apply: (f_equal2 cons); first by ring).

Section Correctness.
Variable Z : comNzRingType.
Implicit Types (a b : seq Z).

Lemma karatsuba_2E a b : size a = 2 -> size b = 2 -> karatsuba_2 a b = convolution a b.
Proof.
case: a => [|a0 [|a1 []]] // _; case: b => [|b0 [|b1 []]] // _.
by rewrite /karatsuba_2; coefs_ring.
Qed.

Lemma karatsuba_3E a b : size a = 3 -> size b = 3 -> karatsuba_3 a b = convolution a b.
Proof.
case: a => [|a0 [|a1 [|a2 []]]] // _; case: b => [|b0 [|b1 [|b2 []]]] // _.
by rewrite /karatsuba_3 /slice /karatsuba_2; coefs_ring.
Qed.

Lemma karatsuba_4E a b : size a = 4 -> size b = 4 -> karatsuba_4 a b = convolution a b.
Proof.
case: a => [|a0 [|a1 [|a2 [|a3 []]]]] // _; case: b => [|b0 [|b1 [|b2 [|b3 []]]]] // _.
by rewrite /karatsuba_4 /slice /karatsuba_2; coefs_ring.
Qed.

Lemma karatsuba_5E a b : size a = 5 -> size b = 5 -> karatsuba_5 a b = convolution a b.
Proof.
case: a => [|a0 [|a1 [|a2 [|a3 [|a4 []]]]]] // _.
case: b => [|b0 [|b1 [|b2 [|b3 [|b4 []]]]]] // _.
by rewrite /karatsuba_5 !(karatsuba_2E, karatsuba_3E) // /slice; coefs_ring.
Qed.

Lemma karatsuba_6E a b : size a = 6 -> size b = 6 -> karatsuba_6 a b = convolution a b.
Proof.
case: a => [|a0 [|a1 [|a2 [|a3 [|a4 [|a5 []]]]]]] // _.
case: b => [|b0 [|b1 [|b2 [|b3 [|b4 [|b5 []]]]]]] // _.
by rewrite /karatsuba_6 !karatsuba_3E // /slice; coefs_ring.
Qed.

Lemma karatsuba_7E a b : size a = 7 -> size b = 7 -> karatsuba_7 a b = convolution a b.
Proof.
case: a => [|a0 [|a1 [|a2 [|a3 [|a4 [|a5 [|a6 []]]]]]]] // _.
case: b => [|b0 [|b1 [|b2 [|b3 [|b4 [|b5 [|b6 []]]]]]]] // _.
by rewrite /karatsuba_7 !(karatsuba_3E, karatsuba_4E) // /slice; coefs_ring.
Qed.

Lemma karatsuba_8E a b : size a = 8 -> size b = 8 -> karatsuba_8 a b = convolution a b.
Proof.
case: a => [|a0 [|a1 [|a2 [|a3 [|a4 [|a5 [|a6 [|a7 []]]]]]]]] // _.
case: b => [|b0 [|b1 [|b2 [|b3 [|b4 [|b5 [|b6 [|b7 []]]]]]]]] // _.
by rewrite /karatsuba_8 !karatsuba_4E // /slice; coefs_ring.
Qed.

Lemma karatsubaE d a b : (2 <= d <= 8)%N -> size a = d -> size b = d ->
  karatsuba d a b = convolution a b.
Proof.
case/andP; move: d => [|[|[|[|[|[|[|[|[|d]]]]]]]]] // _ _ sz_a sz_b.
- exact: karatsuba_2E.
- exact: karatsuba_3E.
- exact: karatsuba_4E.
- exact: karatsuba_5E.
- exact: karatsuba_6E.
- exact: karatsuba_7E.
- exact: karatsuba_8E.
Qed.
End Correctness.

(** ** Properties *)

(** Every Karatsuba routine multiplies: for arrays of [d] coefficients, [d]
    from two to eight, the routine returns the [2 d - 1] coefficients of the
    product of the two polynomials. *)
Theorem karatsuba_correct (Z : comNzRingType) (d : nat) (a b : seq Z) :
  (2 <= d <= 8)%N -> size a = d -> size b = d ->
  Poly (karatsuba d a b) = Poly a * Poly b /\ size (karatsuba d a b) = (2 * d).-1.
Proof.
move=> range_d sz_a sz_b; rewrite karatsubaE // Poly_convolution size_convolution sz_a sz_b.
by rewrite mul2n addnn.
Qed.

Lemma karatsuba_correct_witness :
  Poly (karatsuba 3 [:: 1; 2%:R; 3%:R] [:: 4%:R; 5%:R; 6%:R])
    = Poly [:: 1; 2%:R; 3%:R] * Poly [:: 4%:R; 5%:R; 6%:R] :> {poly 'F_7}.
Proof.
by have [] := @karatsuba_correct 'F_7 3 [:: 1; 2%:R; 3%:R] [:: 4%:R; 5%:R; 6%:R] isT erefl erefl.
Defined.
