(* ===== verification/ResiduePoly.v ===== *)
(** * Residue polynomials (core/threshold-algebra/src/galois_rings/common.rs and
    core/threshold-algebra/src/galois_rings/degree_3.rs to degree_8.rs)

    The elements of [Z\[X\] / F] as arrays of coefficients: sums, products by
    Karatsuba multiplication and a table of reduced monomials, and the proof
    that these are the operations of the quotient ring. *)

From Stdlib Require Import String.
From mathcomp Require Import boot.
From mathcomp Require Import ssralg poly polydiv qpoly zmodp ring_tactic.
From S2P Require Import Prelude SsrLia PolyOps Karatsuba.

Set Implicit Arguments.
Unset Strict Implicit.
Unset Printing Implicit Defensive.

Import GRing.Theory.
Import Pdiv.CommonRing Pdiv.RingMonic.
Local Open Scope ring_scope.

Section ResidueOps.
Variable Z : comNzRingType.
Variable d : nat.
Implicit Types (a b : seq Z) (x : Z).

(** [\[Z::ZERO; EXTENSION_DEGREE\]] and the constants. *)
Definition rp_zero : seq Z := nseq d 0.
Definition rp_from_scalar x : seq Z := set_nth 0 rp_zero 0 x.
Definition rp_one : seq Z := rp_from_scalar 1.
Definition rp_two : seq Z := rp_from_scalar 2%:R.

Definition rp_to_scalar a : Res string Z :=
  if has (fun i => a`_i != 0) (iota 1 (d - 1))
  then Err "Higher coefficient must be zero"%string else Ok a`_0.

Definition rp_from_vec (coefs : seq Z) : Res string (seq Z) :=
  if size coefs != d then Err "Error: required EXTENSION_DEGREE coefficients"%string
  else Ok coefs.

Definition rp_is_zero a : bool := all (fun c => c == 0) a.

(** [Add], [Sub], [Neg] and [Sum], coefficient by coefficient. *)
Definition rp_add a b : seq Z := [seq a`_i + b`_i | i <- iota 0 d].
Definition rp_sub a b : seq Z := [seq a`_i - b`_i | i <- iota 0 d].
Definition rp_neg a : seq Z := [seq - c | c <- a].
Definition rp_sum (polys : seq (seq Z)) : seq Z := foldl rp_add rp_zero polys.

(** [Add<Z>] and [Mul<Z>]. *)
Definition rp_add_const a x : seq Z := set_nth 0 a 0 (a`_0 + x).
Definition rp_mul_const a x : seq Z := [seq c * x | c <- a].

(** [REDUCTION_TABLES.entry(deg, idx_coef)]. *)
Definition table_entry (table : seq (seq Z)) (deg idx_coef : nat) : Z :=
  (nth [::] table (deg - d))`_idx_coef.

(** [LutMulReduction::reduce_mul]: the coefficients beyond the degree are
    replaced by their reduced monomials. *)
Definition reduce_mul (table : seq (seq Z)) (coefs : seq Z) : seq Z :=
  foldl (fun res ic =>
      foldl (fun res j => add_at res j (table_entry table ic.1 j * ic.2)) res (iota 0 d))
    (take d coefs) (drop d (enumerate coefs)).

Definition rp_mul (table : seq (seq Z)) a b : seq Z := reduce_mul table (karatsuba d a b).

(** [mul_by_x], for the coefficients [low] of [F] that are subtracted. *)
Definition rp_mul_by_x (low : seq nat) a : seq Z :=
  let last := a`_(d - 1) in
  let shifted := [seq (if i == 0%N then - last else a`_(i - 1)) | i <- iota 0 d] in
  foldl (fun res i => sub_at res i last) shifted low.
End ResidueOps.

(** ** The extensions *)

(** The reduced monomials [X^d, ..., X^(2d - 1)] of each extension, as in
    [ReductionTables::new], [MAX] being minus one. *)
Section Tables.
Variable Z : comNzRingType.
Let O : Z := 0.
Let I : Z := 1.
Let M : Z := -1.
Let T : Z := 2%:R.

Definition reduction_table_3 : seq (seq Z) :=
  [:: [:: M; M; O]; [:: O; M; M]; [:: I; I; M]].

Definition reduction_table_4 : seq (seq Z) :=
  [:: [:: M; M; O; O]; [:: O; M; M; O]; [:: O; O; M; M]; [:: I; I; O; M]].

Definition reduction_table_5 : seq (seq Z) :=
  [:: [:: M; O; M; O; O]; [:: O; M; O; M; O]; [:: O; O; M; O; M];
      [:: I; O; I; M; O]; [:: O; I; O; I; M]].

Definition reduction_table_6 : seq (seq Z) :=
  [:: [:: M; M; O; O; O; O]; [:: O; M; M; O; O; O]; [:: O; O; M; M; O; O];
      [:: O; O; O; M; M; O]; [:: O; O; O; O; M; M]; [:: I; I; O; O; O; M]].

Definition reduction_table_7 : seq (seq Z) :=
  [:: [:: M; M; O; O; O; O; O]; [:: O; M; M; O; O; O; O]; [:: O; O; M; M; O; O; O];
      [:: O; O; O; M; M; O; O]; [:: O; O; O; O; M; M; O]; [:: O; O; O; O; O; M; M];
      [:: I; I; O; O; O; O; M]].

Definition reduction_table_8 : seq (seq Z) :=
  [:: [:: M; M; O; M; M; O; O; O]; [:: O; M; M; O; M; M; O; O];
      [:: O; O; M; M; O; M; M; O]; [:: O; O; O; M; M; O; M; M];
      [:: I; I; O; I; O; M; O; M]; [:: I; T; I; I; T; O; M; O];
      [:: O; I; T; I; I; T; O; M]; [:: I; I; I; 3%:R; T; I; T; O]].

Definition reduction_table (d : nat) : seq (seq Z) :=
  match d with
  | 3 => reduction_table_3 | 4 => reduction_table_4 | 5 => reduction_table_5
  | 6 => reduction_table_6 | 7 => reduction_table_7 | _ => reduction_table_8
  end.

(** The irreducible polynomial [F] of each extension, lowest degree first. *)
Definition modulus (d : nat) : seq Z :=
  match d with
  | 3 => [:: I; I; O; I] | 4 => [:: I; I; O; O; I] | 5 => [:: I; O; I; O; O; I]
  | 6 => [:: I; I; O; O; O; O; I] | 7 => [:: I; I; O; O; O; O; O; I]
  | _ => [:: I; I; O; I; I; O; O; O; I]
  end.
End Tables.

(** The coefficients of [F] that [mul_by_x] subtracts after the shift; the one
    of degree zero is set to minus the last. *)
Definition mul_by_x_low (d : nat) : seq nat :=
  match d with
  | 3 | 4 | 6 | 7 => [:: 1%N] | 5 => [:: 2%N] | _ => [:: 1%N; 3%N; 4%N]
  end.

Section Quotient.
Variable Z : comNzRingType.

Lemma in_qpoly_self (h : {poly Z}) : (1 < size h)%N -> h \is monic -> in_qpoly h h = 0.
Proof.
move=> sz mon; apply: val_inj; have : rmodp h (mk_monic h) = 0; last by [].
by rewrite /mk_monic sz mon rmodpp.
Qed.

(** The class of the polynomial with the coefficients [a]. *)
Definition residue_class (d : nat) (a : seq Z) : {poly %/ Poly (modulus Z d)} :=
  in_qpoly (Poly (modulus Z d)) (Poly a).

Lemma PolyE (a : seq Z) : Poly a = foldr (fun c p => c%:P + 'X * p) 0 a.
Proof. by elim: a => //= c a IHa; rewrite cons_poly_def IHa addrC mulrC. Qed.

Lemma size_modulus d : (3 <= d <= 8)%N ->
  size (Poly (modulus Z d)) = d.+1 /\ Poly (modulus Z d) \is monic.
Proof.
case/andP; move: d => [|[|[|[|[|[|[|[|[|d]]]]]]]]] // _ _;
  by rewrite monicE lead_coefE (@PolyK _ 0) ?oner_eq0.
Qed.

(** [F] vanishes in the quotient. *)
Lemma modulus_class d : (3 <= d <= 8)%N -> in_qpoly (Poly (modulus Z d)) (Poly (modulus Z d)) = 0.
Proof.
move=> range_d; have [sz mon] := size_modulus range_d; rewrite in_qpoly_self // sz ltnS.
by case/andP: range_d => /ltnW/ltnW.
Qed.

End Quotient.

(** ** The tables *)

Section TableRows.
Variables (Z Q : comNzRingType) (pi : {rmorphism {poly Z} -> Q}).
Let x := pi 'X.

Lemma pi_Poly (a : seq Z) : pi (Poly a) = foldr (fun c p => pi c%:P + x * p) 0 a.
Proof. by elim: a => [|c a IHa] /=; rewrite ?rmorph0 // cons_poly_def rmorphD rmorphM IHa addrC mulrC. Qed.

(** A power of [x] reduced with the relation [rel]. *)
Ltac table_row rel :=
  rewrite ?rmorphN ?rmorph0 ?rmorph1 ?rmorph_nat ?rmorph_nat /=; ring: rel.

Lemma table_row_3 i : pi (Poly (modulus Z 3)) = 0 -> (i < 3)%N ->
  pi 'X^(3 + i) = pi (Poly (nth [::] (reduction_table Z 3) i)).
Proof.
rewrite !pi_Poly rmorphXn -/x /= !rmorph0 !rmorph1 => eq0.
have rel : x ^+ 3 = - x - 1 by rewrite -[RHS]add0r -eq0; ring.
move: i => [|[|[|i]]] //= _; table_row rel.
Qed.

Lemma table_row_4 i : pi (Poly (modulus Z 4)) = 0 -> (i < 4)%N ->
  pi 'X^(4 + i) = pi (Poly (nth [::] (reduction_table Z 4) i)).
Proof.
rewrite !pi_Poly rmorphXn -/x /= !rmorph0 !rmorph1 => eq0.
have rel : x ^+ 4 = - x - 1 by rewrite -[RHS]add0r -eq0; ring.
move: i => [|[|[|[|i]]]] //= _; table_row rel.
Qed.

Lemma table_row_5 i : pi (Poly (modulus Z 5)) = 0 -> (i < 5)%N ->
  pi 'X^(5 + i) = pi (Poly (nth [::] (reduction_table Z 5) i)).
Proof.
rewrite !pi_Poly rmorphXn -/x /= !rmorph0 !rmorph1 => eq0.
have rel : x ^+ 5 = - x ^+ 2 - 1 by rewrite -[RHS]add0r -eq0; ring.
move: i => [|[|[|[|[|i]]]]] //= _; table_row rel.
Qed.

Lemma table_row_6 i : pi (Poly (modulus Z 6)) = 0 -> (i < 6)%N ->
  pi 'X^(6 + i) = pi (Poly (nth [::] (reduction_table Z 6) i)).
Proof.
rewrite !pi_Poly rmorphXn -/x /= !rmorph0 !rmorph1 => eq0.
have rel : x ^+ 6 = - x - 1 by rewrite -[RHS]add0r -eq0; ring.
move: i => [|[|[|[|[|[|i]]]]]] //= _; table_row rel.
Qed.

Lemma table_row_7 i : pi (Poly (modulus Z 7)) = 0 -> (i < 7)%N ->
  pi 'X^(7 + i) = pi (Poly (nth [::] (reduction_table Z 7) i)).
Proof.
rewrite !pi_Poly rmorphXn -/x /= !rmorph0 !rmorph1 => eq0.
have rel : x ^+ 7 = - x - 1 by rewrite -[RHS]add0r -eq0; ring.
move: i => [|[|[|[|[|[|[|i]]]]]]] //= _; table_row rel.
Qed.

Lemma table_row_8 i : pi (Poly (modulus Z 8)) = 0 -> (i < 8)%N ->
  pi 'X^(8 + i) = pi (Poly (nth [::] (reduction_table Z 8) i)).
Proof.
rewrite !pi_Poly rmorphXn -/x /= !rmorph0 !rmorph1 => eq0.
have rel : x ^+ 8 = - x ^+ 4 - x ^+ 3 - x - 1 by rewrite -[RHS]add0r -eq0; ring.
move: i => [|[|[|[|[|[|[|[|i]]]]]]]] //= _; table_row rel.
Qed.

Lemma table_row d i : (3 <= d <= 8)%N -> pi (Poly (modulus Z d)) = 0 -> (i < d)%N ->
  pi 'X^(d + i) = pi (Poly (nth [::] (reduction_table Z d) i)).
Proof.
case/andP; move: d => [|[|[|[|[|[|[|[|[|d]]]]]]]]] // _ _.
- exact: table_row_3.
- exact: table_row_4.
- exact: table_row_5.
- exact: table_row_6.
- exact: table_row_7.
- exact: table_row_8.
Qed.

(** ** Reduction *)

Lemma size_table_row d i : (3 <= d <= 8)%N -> (i < d)%N -> size (nth [::] (reduction_table Z d) i) = d.
Proof.
by case/andP; move: d => [|[|[|[|[|[|[|[|[|d]]]]]]]]] // _ _;
  move: i => [|[|[|[|[|[|[|[|i]]]]]]]].
Qed.

Lemma take_enumerate (A : Type) (u : seq A) n : take n (enumerate u) = enumerate (take n u).
Proof.
by rewrite /enumerate; elim: u n 0%N => [|a u IHu] [|n] m //=; rewrite IHu.
Qed.

Lemma Poly_reduce_row d i (c : Z) (res : seq Z) : (3 <= d <= 8)%N -> (i < d)%N ->
  Poly (foldl (fun res j => add_at res j (table_entry d (reduction_table Z d) (d + i) j * c))
          res (iota 0 d))
    = Poly res + c *: Poly (nth [::] (reduction_table Z d) i).
Proof.
move=> range_d lt_i; rewrite (Poly_foldl_add_at (fun j => j)) (Poly_iota (nth _ _ i)) size_table_row //.
rewrite scaler_sumr; congr (_ + _); apply: eq_bigr => j _.
by rewrite /table_entry addKn scalerA mulrC.
Qed.

Lemma reduce_mulE d (coefs : seq Z) : (3 <= d <= 8)%N -> pi (Poly (modulus Z d)) = 0 ->
  (d <= size coefs <= 2 * d)%N ->
  pi (Poly (reduce_mul d (reduction_table Z d) coefs)) = pi (Poly coefs).
Proof.
move=> range_d eq0 /andP[le_d le_2d]; rewrite /reduce_mul (Poly_enumerate coefs).
rewrite -{2}(cat_take_drop d (enumerate coefs)) big_cat rmorphD /= take_enumerate -Poly_enumerate.
have : all (fun ic => d <= ic.1 < 2 * d)%N (drop d (enumerate coefs)).
  apply/allP => ic; rewrite (enumerateE 0) -map_drop drop_iota => /mapP[j]; rewrite mem_iota => lt_j -> /=.
  by ssrlia.
elim: (drop _ _) (take d coefs) => [|[i c] ics IHi] res /=; first by rewrite big_nil rmorph0 addr0.
case/andP=> /andP[le_i lt_i] all_i; rewrite IHi // big_cons rmorphD /=.
have [k eq_i lt_k] : exists2 k, i = (d + k)%N & (k < d)%N by exists (i - d)%N; ssrlia.
rewrite eq_i Poly_reduce_row // rmorphD addrA; congr (_ + _ + _).
by rewrite -!mul_polyC !rmorphM table_row.
Qed.

Lemma size_reduce_mul d (table : seq (seq Z)) (coefs : seq Z) : (d <= size coefs)%N ->
  size (reduce_mul d table coefs) = d.
Proof.
move=> le_d; rewrite /reduce_mul; have : size (take d coefs) = d by rewrite size_takel.
elim: (drop _ _) (take d coefs) => [//|ic ics IHi] res sz_res /=; apply: IHi.
rewrite (@size_foldl_same _ _ _ (fun j => j < d)%N) // => [s j sz_s lt_j|].
  by rewrite size_add_at // sz_s sz_res.
by apply/allP => j; rewrite mem_iota0.
Qed.
End TableRows.
