(* ===== verification/ResidueRing.v ===== *)
(** The residue polynomial rings as rings: for every supported degree the
    arithmetic of core/threshold-algebra/src/galois_rings is that of the
    quotient of [Z[X]] by the modulus [F]. *)
From mathcomp Require Import boot ssralg poly polydiv zmodp qpoly ring_tactic.
From S2P Require Import Prelude SsrLia PolyOps Karatsuba ResiduePoly.

Set Implicit Arguments.
Unset Strict Implicit.
Unset Printing Implicit Defensive.
Import GRing.Theory.
Local Open Scope ring_scope.

(** ** The ring of residue polynomials *)

Section ResidueRing.
Variables (Z : comNzRingType) (d : nat).
Hypothesis range_d : (3 <= d <= 8)%N.
Implicit Types (a b : seq Z).

Local Notation cls := (residue_class d).
Local Notation h := (Poly (modulus Z d)).

Lemma ext_gt0 : (0 < d)%N.
Proof. by case/andP: range_d => /ltnW/ltnW. Qed.

Lemma size_mk_monic_modulus : size (mk_monic h) = d.+1.
Proof. by have [sz mon] := size_modulus Z range_d; rewrite /mk_monic sz mon ltnS ext_gt0. Qed.

Lemma residue_class_val a : size a = d -> cls a = Poly a :> {poly Z}.
Proof.
move=> sz_a; apply: in_qpoly_small; rewrite size_mk_monic_modulus ltnS.
by rewrite (leq_trans (size_Poly _)) ?sz_a.
Qed.

Lemma Poly_inj a b : size a = size b -> Poly a = Poly b -> a = b.
Proof.
move=> sz eq_ab; apply: (@eq_from_nth _ 0) => // i _.
by rewrite -(coef_Poly a) eq_ab coef_Poly.
Qed.

Lemma residue_class_inj a b : size a = d -> size b = d -> cls a = cls b -> a = b.
Proof.
move=> sz_a sz_b eq_ab; apply: Poly_inj; first by rewrite sz_a.
by rewrite -(residue_class_val sz_a) eq_ab residue_class_val.
Qed.

Lemma nth_map_iota (f : nat -> Z) n i : [seq f j | j <- iota 0 n]`_i = if (i < n)%N then f i else 0.
Proof.
case: ltnP => [lt_i|le_i]; last by rewrite nth_default // size_map size_iota.
by rewrite (nth_map 0%N) ?size_iota // nth_iota.
Qed.

Lemma Poly_rp_add a b : size a = d -> size b = d -> Poly (rp_add d a b) = Poly a + Poly b.
Proof.
move=> sz_a sz_b; apply/polyP=> i; rewrite coefD !coef_Poly nth_map_iota.
by case: ltnP => // le_i; rewrite !nth_default ?sz_a ?sz_b ?addr0.
Qed.

Lemma Poly_rp_sub a b : size a = d -> size b = d -> Poly (rp_sub d a b) = Poly a - Poly b.
Proof.
move=> sz_a sz_b; apply/polyP=> i; rewrite coefB !coef_Poly nth_map_iota.
by case: ltnP => // le_i; rewrite !nth_default ?sz_a ?sz_b ?subr0.
Qed.

Lemma Poly_rp_neg a : Poly (rp_neg a) = - Poly a.
Proof.
apply/polyP=> i; rewrite coefN !coef_Poly.
case: (ltnP i (size a)) => [lt_i|le_i]; first by rewrite (nth_map 0).
by rewrite !nth_default ?size_map ?oppr0.
Qed.

Lemma residue_class_mul a b : size a = d -> size b = d ->
  cls (rp_mul d (reduction_table Z d) a b) = cls a * cls b.
Proof.
move=> sz_a sz_b; have range2 : (2 <= d <= 8)%N by case/andP: range_d => /ltnW-> ->.
rewrite /residue_class /rp_mul karatsubaE // -rmorphM -Poly_convolution.
apply: (reduce_mulE range_d (modulus_class Z range_d)).
by have := ext_gt0; rewrite size_convolution sz_a sz_b; ssrlia.
Qed.

Lemma size_rp_mul a b : size a = d -> size b = d -> size (rp_mul d (reduction_table Z d) a b) = d.
Proof.
move=> sz_a sz_b; have range2 : (2 <= d <= 8)%N by case/andP: range_d => /ltnW-> ->.
rewrite size_reduce_mul // karatsubaE // size_convolution sz_a sz_b.
by have := ext_gt0; ssrlia.
Qed.

(** The modulus is [X^d + 1] and the monomials that [mul_by_x] subtracts. *)
Lemma modulus_low n : (3 <= n <= 8)%N ->
  Poly (modulus Z n) = 'X^n + 1 + \sum_(i <- mul_by_x_low n) 'X^i.
Proof.
case/andP; move: n => [|[|[|[|[|[|[|[|[|n]]]]]]]]] // _ _;
  rewrite PolyE /= ?big_cons big_nil ?polyC0 ?polyC1; ring.
Qed.

Lemma Poly_shifted a : size a = d ->
  Poly [seq (if i == 0%N then - a`_(d - 1) else a`_(i - 1)) | i <- iota 0 d]
    = 'X * Poly a - a`_(d - 1) *: ('X^d + 1).
Proof.
move=> sz_a; apply/polyP=> i; rewrite coef_Poly nth_map_iota coefB coefXM coefZ coefD coefXn coef1.
rewrite coef_Poly; have := ext_gt0; case: (ltngtP i d) => [lt_i|lt_i|->] gt0.
- by case: i lt_i => [|i] lt_i; rewrite ?subn1 /= ?addr0 ?add0r ?mulr1 ?sub0r ?mulr0 ?subr0.
- rewrite !gtn_eqF ?(ltn_trans gt0 lt_i) // nth_default ?sz_a; first by ssrlia.
  by rewrite addr0 mulr0 subr0.
- by rewrite gtn_eqF // addr0 mulr1 subn1 subrr.
Qed.

(** [mul_by_x] shifts and subtracts the last coefficient times [F]. *)
Lemma Poly_mul_by_x a : size a = d ->
  Poly (rp_mul_by_x d (mul_by_x_low d) a) = 'X * Poly a - a`_(d - 1) *: h.
Proof.
move=> sz_a; rewrite /rp_mul_by_x (Poly_foldl_sub_at (fun j => j) (fun=> a`_(d - 1))) Poly_shifted //.
by rewrite (modulus_low range_d) [X in _ = _ - X]scalerDr scaler_sumr opprD addrA.
Qed.

Lemma residue_class_mul_by_x a : size a = d ->
  cls (rp_mul_by_x d (mul_by_x_low d) a) = in_qpoly h 'X * cls a.
Proof.
move=> sz_a; rewrite /residue_class Poly_mul_by_x // -mul_polyC rmorphB !rmorphM.
by rewrite [X in _ - _ * X](modulus_class Z range_d) mulr0 subr0.
Qed.

Lemma size_rp_mul_by_x a : size (rp_mul_by_x d (mul_by_x_low d) a) = d.
Proof.
rewrite /rp_mul_by_x (@size_foldl_same _ _ _ (fun j => j < d)%N) ?size_map ?size_iota //.
  by move=> s j sz_s lt_j; rewrite size_sub_at // sz_s.
by case/andP: range_d; move: (d) => [|[|[|[|[|[|[|[|[|n]]]]]]]]].
Qed.

Lemma Poly_rp_add_const a x : Poly (rp_add_const a x) = Poly a + x%:P.
Proof.
by rewrite [rp_add_const _ _](_ : _ = add_at a 0 x) // Poly_add_at expr0 alg_polyC.
Qed.

Lemma Poly_rp_mul_const a x : Poly (rp_mul_const a x) = Poly a * x%:P.
Proof.
apply/polyP=> i; rewrite coefMC !coef_Poly.
case: (ltnP i (size a)) => [lt_i|le_i]; first by rewrite (nth_map 0).
by rewrite !nth_default ?size_map ?mul0r.
Qed.

Lemma Poly_rp_from_scalar (x : Z) : Poly (rp_from_scalar d x) = x%:P.
Proof.
rewrite /rp_from_scalar /rp_zero -(prednK ext_gt0) /=.
rewrite cons_poly_def (_ : Poly (nseq _ _) = 0) ?mul0r ?add0r //.
by apply/polyP=> i; rewrite coef0 coef_Poly nth_nseq if_same.
Qed.

Lemma Poly_rp_sum (polys : seq (seq Z)) : all (fun a => size a == d) polys ->
  Poly (rp_sum d polys) = \sum_(a <- polys) Poly a.
Proof.
have zeroE : Poly (rp_zero Z d) = 0 by apply/polyP=> i; rewrite coef0 coef_Poly nth_nseq if_same.
rewrite /rp_sum -[RHS]add0r -[X in X + _]zeroE.
have : size (rp_zero Z d) = d by rewrite size_nseq.
elim: polys (rp_zero Z d) => [|a polys IHp] acc /=; first by rewrite big_nil addr0.
move=> sz_acc /andP[/eqP sz_a all_d]; rewrite big_cons addrA -Poly_rp_add //.
by apply: IHp; rewrite // size_map size_iota.
Qed.

Lemma residue_ring_laws a b : size a = d -> size b = d ->
  [/\ cls (rp_add d a b) = cls a + cls b, cls (rp_sub d a b) = cls a - cls b
    , cls (rp_neg a) = - cls a
    , cls (rp_mul d (reduction_table Z d) a b) = cls a * cls b
    & cls (rp_mul_by_x d (mul_by_x_low d) a) = in_qpoly h 'X * cls a].
Proof.
move=> sz_a sz_b; rewrite residue_class_mul // residue_class_mul_by_x //.
by rewrite /residue_class Poly_rp_add // Poly_rp_sub // Poly_rp_neg rmorphD rmorphB rmorphN.
Qed.
End ResidueRing.
