(* ===== verification/GaloisRing.v ===== *)
(** * The Galois rings (core/threshold-algebra/src/base_ring.rs,
    core/threshold-algebra/src/galois_rings/common.rs and degree_3.rs to
    degree_8.rs)

    The base rings of integers modulo [2^64] and [2^128] with their bits, and the
    bit operations of a residue polynomial: slicing to the residue field, lifting
    back, shifting, divisibility by a power of two, the exceptional sequence and
    lazy evaluation.  The residue polynomials are shown to implement the
    interface [GaloisRing] that error correction is proved against. *)

From Stdlib Require Import String PeanoNat.
From mathcomp Require Import boot.
From HB Require Import structures.
From mathcomp Require Import ssralg poly polydiv qpoly zmodp.
From S2P Require Import Prelude SsrLia Role PolyOps Structure Lagrange Gao Matrix Shamir.
From S2P Require Import ErrorCorrection Hensel Karatsuba ResiduePoly ResidueRing.

Set Implicit Arguments.
Unset Strict Implicit.
Unset Printing Implicit Defensive.

Import GRing.Theory.
Import Pdiv.CommonRing Pdiv.RingMonic.
Local Open Scope ring_scope.

(** ** The base ring *)

(** [Wrapping<u64>] is the case [K = 64] and [Wrapping<u128>] is [K = 128]. *)
Section BaseRing.
Variable K : nat.
Local Notation Z := 'Z_(2 ^ K).
Implicit Types (x y : Z).

(** [extract_bit], for a bit index below the width. *)
Definition extract_bit (x : Z) (bit_idx : nat) : bool := odd (x %/ 2 ^ bit_idx).

Definition from_u128 (value : nat) : Z := inZp value.

(** [Wrapping] masks the amount of a shift to the width of the integer. *)
Definition z_shl (x : Z) (rhs : nat) : Z := inZp (x * 2 ^ (rhs %% K)).

Definition z_and (x y : Z) : Z := inZp (Nat.land x y).

Hypothesis K_gt0 : (0 < K)%N.

Lemma modulus_gt1 : (1 < 2 ^ K)%N.
Proof. by rewrite -{1}(expn0 2) ltn_exp2l. Qed.

Lemma val_from_u128 n : from_u128 n = (n %% 2 ^ K)%N :> nat.
Proof. by rewrite /= Zp_cast ?modulus_gt1. Qed.

Lemma from_u128E n : from_u128 n = n%:R.
Proof. by apply: ord_inj; rewrite val_from_u128 val_Zp_nat ?modulus_gt1. Qed.

Lemma z_lt x : (x < 2 ^ K)%N.
Proof. by rewrite -[X in (_ < X)%N](Zp_cast modulus_gt1) ltn_ord. Qed.

Lemma z_shlE x i : (i < K)%N -> z_shl x i = 2%:R ^+ i * x.
Proof.
move=> lt_i; rewrite /z_shl modn_small // -[inZp _]/(from_u128 _) from_u128E natrM natrX.
by rewrite natr_Zp mulrC.
Qed.

Lemma two_nilpotent_base : 2%:R ^+ K = 0 :> Z.
Proof. by rewrite -natrX -from_u128E; apply: ord_inj; rewrite val_from_u128 modnn. Qed.

Lemma odd_modn_pow m n : (0 < n)%N -> odd (m %% 2 ^ n) = odd m.
Proof. by case: n => // n _; rewrite odd_mod // oddX. Qed.

Lemma modn_mul_pow (m i : nat) : (i <= K)%N -> ((2 ^ i * m) %% 2 ^ K = 2 ^ i * (m %% 2 ^ (K - i)))%N.
Proof. by move=> le_i; rewrite -[X in (_ %% 2 ^ X)%N](subnKC le_i) expnD -muln_modr. Qed.

Lemma extract_bit_shift x i : (i < K)%N -> extract_bit (2%:R ^+ i * x) i = odd x.
Proof.
move=> lt_i; rewrite /extract_bit -{1}(natr_Zp x) -natrX -natrM -from_u128E val_from_u128.
by rewrite modn_mul_pow ?(ltnW lt_i) // mulKn ?expn_gt0 // odd_modn_pow // subn_gt0.
Qed.

Lemma even_double x : ~~ odd x -> exists y, x = 2%:R * y.
Proof.
move=> even_x; exists (x./2)%:R; rewrite -natrM mul2n -[in LHS](natr_Zp x).
by rewrite -[X in X%:R]odd_double_half (negbTE even_x).
Qed.

Lemma modn_Nat m n : (0 < n)%N -> Nat.modulo m n = (m %% n)%N.
Proof.
move=> n_gt0; apply/esym/(Nat.mod_unique _ _ (m %/ n)).
  by apply/ltP; rewrite ltn_mod.
by rewrite multE plusE mulnC -divn_eq.
Qed.

Lemma pow_Nat n : Nat.pow 2 n = (2 ^ n)%N.
Proof. by elim: n => //= n ->; rewrite expnS !mulSn mul0n. Qed.

Lemma land_mask m n : Nat.land m (2 ^ n - 1) = (m %% 2 ^ n)%N.
Proof.
rewrite -modn_Nat ?expn_gt0 // -pow_Nat -Nat.land_ones; congr (Nat.land _ _).
by rewrite Nat.ones_equiv subn1.
Qed.

(** Divisibility by a power of two. *)
Lemma z_multipleP x i : (i <= K)%N -> reflect (exists y, x = 2%:R ^+ i * y) (2 ^ i %| x)%N.
Proof.
move=> le_i; apply: (iffP idP) => [/dvdnP[m eq_m]|[y ->]].
  by exists m%:R; rewrite -natrX -natrM -[LHS]natr_Zp eq_m mulnC.
rewrite -{1}(natr_Zp y) -natrX -natrM -from_u128E val_from_u128.
by rewrite modn_mul_pow // dvdn_mulr.
Qed.

(** The mask of [multiple_pow2] keeps the bits below [exp]. *)
Lemma z_and_mask x exp : (exp < K)%N -> (z_and x (z_shl 1 exp - 1) == 0) = (2 ^ exp %| x)%N.
Proof.
move=> lt_e; have lt_pow : (2 ^ exp < 2 ^ K)%N by rewrite ltn_exp2l.
have maskE : z_shl 1 exp - 1 = (2 ^ exp - 1)%N :> nat.
  rewrite z_shlE // mulr1 -natrX -[X in _ - X]/(1%:R) -natrB ?expn_gt0 // val_Zp_nat ?modulus_gt1 //.
  by rewrite modn_small // (leq_ltn_trans _ lt_pow) // leq_subr.
rewrite -val_eqE /z_and maskE land_mask -[inZp _]/(from_u128 _) [X in X == _]val_from_u128.
by rewrite modn_small // (leq_ltn_trans (leq_mod _ _)) // z_lt.
Qed.
End BaseRing.

(** ** Bits of residue polynomials *)

Section BitOps.
Variables (K d : nat).
Local Notation Z := 'Z_(2 ^ K).
Implicit Types (a : seq Z).

(** [bit_compose] up to the conversion [From<u8>] of the residue field. *)
Definition rp_bit_compose a (idx_bit : nat) : nat :=
  foldl (fun acc ie => (acc + extract_bit ie.2 idx_bit * 2 ^ ie.1)%N) 0%N (enumerate a).

(** [bit_lift] of the byte [c8] of an element of the residue field. *)
Definition rp_bit_lift (c8 pos : nat) : Res string (seq Z) :=
  rp_from_vec d [seq z_shl (from_u128 K (bit_of c8 i)) pos | i <- iota 0 d].

Definition rp_shl a (rhs : nat) : seq Z := [seq z_shl c rhs | c <- a].

(** [multiple_pow2], that asserts [exp <= Z::BIT_LENGTH]. *)
Definition rp_multiple_pow2 a (exp : nat) : Res string bool :=
  if (K < exp)%N then Panic
  else if exp == K then Ok (rp_is_zero a)
  else Ok (nilp (filter (fun bit => bit != 0) [seq z_and c (z_shl 1 exp - 1) | c <- a])).

Definition rp_get_from_exceptional_sequence (idx : nat) : Res string (seq Z) :=
  if (2 ^ d <= idx)%N then Err "Value is too large to be embedded!"%string
  else Ok [seq (if bit_of idx i then 1 else 0) | i <- iota 0 d].

(** [monomials()]. *)
Definition rp_monomials : seq (seq Z) :=
  [seq set_nth 0 (rp_zero Z d) i 1 | i <- iota 0 d].

(** The loop of [BitWiseEval::lazy_eval] over [zip_longest] of the bitwise
    coefficients and the powers. *)
Fixpoint lazy_eval_loop (coefs : seq nat) (powers : seq (seq Z)) (res_coefs : seq Z)
    : Res string (seq Z) :=
  match coefs, powers with
  | coef_2 :: coefs', coef_r :: powers' =>
      lazy_eval_loop coefs' powers'
        (foldl (fun res bit_idx =>
           if bit_of coef_2 bit_idx
           then foldl (fun res jc => add_at res (jc.1 + bit_idx) jc.2) res (enumerate coef_r)
           else res) res_coefs (iota 0 d))
  | [::], _ => Ok res_coefs
  | _ :: _, [::] => Panic
  end.

Definition rp_lazy_eval (coefs : seq nat) (powers : seq (seq Z)) : Res string (seq Z) :=
  let* res_coefs := lazy_eval_loop coefs powers (nseq (2 * d - 1) 0) in
  Ok (reduce_mul d (reduction_table Z d) res_coefs).
End BitOps.

(** ** The residue fields *)

(** What the g2p package documents of the types it generates: a field of [2 ^ d]
    elements, whose bytes are the coefficients of the polynomials in a root of
    the modulus over GF(2). *)
Class G2P (F : fieldType) (d : nat) := {
  gf_from : nat -> F;
  gf_byte : F -> nat;
  gf_from_byte : cancel gf_byte gf_from;
  gf_byte_lt : forall c, (gf_byte c < 2 ^ d)%N;
  gf_byte_from : forall n, (n < 2 ^ d)%N -> gf_byte (gf_from n) = n;
  gf_two : 2%:R = 0 :> F;
  gf_from_bits : forall n, (n < 2 ^ d)%N ->
    gf_from n = \sum_(i < d) (bit_of n i)%:R * gf_from 2 ^+ i;
  gf_modulus : (Poly (modulus F d)).[gf_from 2] = 0
}.

Section ResidueField.
Variables (F : fieldType) (d : nat).
Context {P : G2P F d}.

Lemma gf_from_inj : {in gtn (2 ^ d) &, injective (gf_from (F := F))}.
Proof. by move=> m n lt_m lt_n eq_mn; rewrite -(gf_byte_from lt_m) eq_mn gf_byte_from. Qed.

Definition residue_field_sequence : ExceptionalSequence F := gf_exceptional_sequence gf_from_inj.
End ResidueField.

(** ** Bits of bytes *)

Definition bits_value (b : nat -> bool) (d : nat) : nat := (\sum_(i < d) b i * 2 ^ i)%N.

Lemma bits_value_lt b d : (bits_value b d < 2 ^ d)%N.
Proof.
rewrite /bits_value; elim: d => [|d IHd]; first by rewrite big_ord0.
rewrite big_ord_recr /= expnS mul2n -addnn.
by case: (b d); rewrite ?mul1n ?mul0n ?addn0 ?ltn_add2r ?(ltn_addr _ IHd).
Qed.

Lemma bit_of_bits_value b d j : (j < d)%N -> bit_of (bits_value b d) j = b j.
Proof.
rewrite /bit_of /bits_value; elim: d j => // d IHd j; rewrite ltnS leq_eqVlt big_ord_recr /=.
case/predU1P => [->|lt_j].
  by rewrite divnDr ?dvdn_mull // (divn_small (bits_value_lt _ _)) mulnK ?expn_gt0 // oddb.
rewrite -(subnKC (ltnW lt_j)) expnD mulnCA divnDr ?dvdn_mulr // mulKn ?expn_gt0 // oddD.
by rewrite subnKC ?(ltnW lt_j) // IHd // oddM oddX subn_eq0 leqNgt lt_j andbF addbF.
Qed.

Lemma foldl_addn (T : Type) (f : T -> nat) (ts : seq T) acc :
  foldl (fun acc t => acc + f t)%N acc ts = (acc + \sum_(t <- ts) f t)%N.
Proof. by elim: ts acc => [|t ts IHt] acc /=; rewrite ?big_nil ?addn0 // IHt big_cons addnA. Qed.

Lemma rp_bit_composeE K d (a : seq 'Z_(2 ^ K)) i : size a = d ->
  rp_bit_compose a i = bits_value (fun j => extract_bit a`_j i) d.
Proof.
move=> sz_a; rewrite /rp_bit_compose (enumerateE 0) sz_a /bits_value foldl_addn add0n big_map /=.
by rewrite -(big_mkord xpredT (fun j => extract_bit (a`_j)%R i * 2 ^ j)%N) /index_iota subn0.
Qed.

(** ** The residue polynomials are a Galois ring *)

Section Residue.
Variables (K d : nat) (F : fieldType).
Hypothesis K_gt0 : (0 < K)%N.
Hypothesis range_d : (3 <= d <= 8)%N.
Context {P : G2P F d}.

Local Notation Z := 'Z_(2 ^ K).
Local Notation h := (Poly (modulus Z d)).
Local Notation R := {poly %/ h}.
Local Notation cls := (residue_class d).
Implicit Types (q : R) (a : seq Z).

(** The array of coefficients of an element. *)
Definition coefs q : seq Z := [seq (q : {poly Z})`_i | i <- iota 0 d].

Lemma size_coefs q : size (coefs q) = d.
Proof. by rewrite size_map size_iota. Qed.

Lemma coefsK q : cls (coefs q) = q.
Proof.
apply: val_inj; rewrite /= -[LHS]/(cls _ : {poly Z}) residue_class_val ?size_coefs //.
apply/polyP=> i; rewrite coef_Poly nth_map_iota; case: ltnP => // le_i.
rewrite nth_default // (leq_trans _ le_i) // -ltnS -(size_mk_monic_modulus Z range_d).
exact: size_mk_monic.
Qed.

Lemma classK a : size a = d -> coefs (cls a) = a.
Proof. by move=> sz_a; apply: (residue_class_inj range_d); rewrite ?size_coefs ?coefsK. Qed.

(** The parity of an integer modulo [2 ^ K]. *)
Definition parity (z : Z) : F := (odd z)%:R.

Lemma natr_odd n : (odd n)%:R = n%:R :> F.
Proof. by rewrite -[in RHS](odd_double_half n) -muln2 natrD natrM gf_two mulr0 addr0. Qed.

Lemma parity_nat n : parity n%:R = n%:R.
Proof. by rewrite /parity -from_u128E // val_from_u128 // odd_modn_pow // natr_odd. Qed.

Lemma parityE z : parity z = (z : nat)%:R.
Proof. exact: natr_odd. Qed.

Lemma parityD y z : parity (y + z) = parity y + parity z.
Proof. by rewrite -{1}(natr_Zp y) -{1}(natr_Zp z) -natrD parity_nat natrD !parityE. Qed.

Lemma parity_is_zmod : zmod_morphism parity.
Proof. by move=> y z; apply/(canRL (addrK _)); rewrite -parityD subrK. Qed.

Lemma parity_is_monoid : monoid_morphism parity.
Proof.
split=> [|y z]; first by rewrite -[X in parity X]/(1%:R) parity_nat.
by rewrite -{1}(natr_Zp y) -{1}(natr_Zp z) -natrM parity_nat natrM !parityE.
Qed.

HB.instance Definition _ := GRing.isZmodMorphism.Build Z F parity parity_is_zmod.
HB.instance Definition _ := GRing.isMonoidMorphism.Build Z F parity parity_is_monoid.

(** Reduction of the coefficients modulo two, and evaluation at the root. *)
Definition reduce_poly (p : {poly Z}) : F := (map_poly parity p).[gf_from 2].

Lemma reduce_poly_is_zmod : zmod_morphism reduce_poly.
Proof. by move=> p q; rewrite /reduce_poly rmorphB hornerD hornerN. Qed.

Lemma reduce_poly_is_monoid : monoid_morphism reduce_poly.
Proof. by split=> [|p q]; rewrite /reduce_poly ?rmorph1 ?hornerC // rmorphM hornerM. Qed.

HB.instance Definition _ := GRing.isZmodMorphism.Build {poly Z} F reduce_poly reduce_poly_is_zmod.
HB.instance Definition _ :=
  GRing.isMonoidMorphism.Build {poly Z} F reduce_poly reduce_poly_is_monoid.

Lemma map_modulus n : map_poly parity (Poly (modulus Z n)) = Poly (modulus F n).
Proof.
by rewrite map_Poly; move: n => [|[|[|[|[|[|[|[|[|n]]]]]]]]] /=; rewrite ?rmorph1 ?rmorph0.
Qed.

Definition residue_of (q : R) : F := reduce_poly (q : {poly Z}).

(** The map factors through the quotient, since the root annuls [F]. *)
Lemma residue_of_class p : residue_of (in_qpoly h p) = reduce_poly p.
Proof.
have [sz mon] := size_modulus Z range_d.
have h_gt1 : (1 < size h)%N by rewrite sz ltnS ext_gt0.
rewrite /residue_of [in RHS](rdivp_eq mon p) rmorphD rmorphM /= {3}/reduce_poly map_modulus.
by rewrite gf_modulus mulr0 add0r /mk_monic h_gt1 mon.
Qed.

Lemma residue_of_is_zmod : zmod_morphism residue_of.
Proof. by move=> p q; rewrite /residue_of -[X in reduce_poly X]/((p : {poly Z}) - (q : {poly Z})) rmorphB. Qed.

Lemma residue_of_is_monoid : monoid_morphism residue_of.
Proof.
split=> [|p q].
  by rewrite -[X in residue_of X](rmorph1 (in_qpoly h)) residue_of_class rmorph1.
by rewrite -[p * q]/(in_qpoly h ((p : {poly Z}) * q)) residue_of_class rmorphM.
Qed.

HB.instance Definition _ := GRing.isZmodMorphism.Build R F residue_of residue_of_is_zmod.
HB.instance Definition _ := GRing.isMonoidMorphism.Build R F residue_of residue_of_is_monoid.

Lemma residue_of0 : residue_of 0 = 0.
Proof. exact: rmorph0. Qed.

Lemma residue_of1 : residue_of 1 = 1.
Proof. exact: rmorph1. Qed.

Lemma residue_ofE q :
  residue_of q = \sum_(i < d) parity (coefs q)`_i * gf_from 2 ^+ i.
Proof.
rewrite /residue_of /reduce_poly (@horner_coef_wide _ d).
  rewrite (leq_trans (size_poly _ _)) // -ltnS -(size_mk_monic_modulus Z range_d).
  exact: size_mk_monic.
by apply: eq_bigr => i _; rewrite coef_map nth_map_iota ltn_ord.
Qed.

Lemma sum_bits (b : nat -> bool) :
  \sum_(i < d) (b i)%:R * gf_from 2 ^+ i = gf_from (bits_value b d) :> F.
Proof.
rewrite [RHS]gf_from_bits ?bits_value_lt //; apply: eq_bigr => i _.
by rewrite bit_of_bits_value.
Qed.

(** Elements times a natural number. *)
Lemma class_mul_const a n : cls (rp_mul_const a n%:R) = n%:R * cls a.
Proof.
rewrite /residue_class Poly_rp_mul_const rmorphM mulrC; congr (_ * _).
by rewrite polyC_natr rmorph_nat.
Qed.

Lemma coefs_mul_nat n q : coefs (n%:R * q) = rp_mul_const (coefs q) n%:R.
Proof.
by rewrite -{1}(coefsK q) -class_mul_const classK // size_map size_coefs.
Qed.

(** *** The interface of error correction *)

Definition ring_bit_compose q (i : nat) : F := gf_from (rp_bit_compose (coefs q) i).
Definition ring_monomial (i : nat) : R := cls (nth [::] (rp_monomials K d) i).
Definition ring_shl q (i : nat) : R := cls (rp_shl (coefs q) i).
Definition ring_multiple_pow2 q (i : nat) : bool :=
  if rp_multiple_pow2 (coefs q) i is Ok b then b else false.
Definition ring_lazy_eval (cs : seq nat) (powers : seq R) : Res string R :=
  let* res := rp_lazy_eval d cs [seq coefs q | q <- powers] in Ok (cls res).
Definition ring_get_from_exceptional_sequence (idx : nat) : Res string R :=
  let* a := rp_get_from_exceptional_sequence K d idx in Ok (cls a).

Lemma ring_bit_compose_shift q i : (i < K)%N ->
  ring_bit_compose (2%:R ^+ i * q) i = residue_of q.
Proof.
move=> lt_i; rewrite /ring_bit_compose (@rp_bit_composeE _ d) ?size_coefs // -sum_bits residue_ofE.
apply: eq_bigr => j _; rewrite -natrX coefs_mul_nat /parity; congr (_%:R * _).
by rewrite (nth_map 0) ?size_coefs // mulrC natrX extract_bit_shift.
Qed.

Lemma gf_from0 : gf_from 0 = 0 :> F.
Proof.
have -> : 0%N = bits_value (fun=> false) d by rewrite /bits_value big1.
by rewrite -sum_bits big1 // => i _; rewrite mul0r.
Qed.

Lemma residue_of_ker q : residue_of q = 0 -> exists y, q = 2%:R * y.
Proof.
rewrite residue_ofE (sum_bits (fun i => odd ((coefs q)`_i)%R)) -gf_from0 => eq0.
have {}eq0 : bits_value (fun i => odd ((coefs q)`_i)%R) d = 0%N.
  by apply: (gf_from_inj (P := P)) eq0; rewrite inE ?bits_value_lt ?expn_gt0.
exists (cls [seq ((c : nat)./2)%:R | c : Z <- coefs q]); rewrite -class_mul_const.
rewrite -[LHS]coefsK; congr cls; apply: (@eq_from_nth _ 0); first by rewrite !size_map.
move=> i; rewrite size_coefs => lt_i; rewrite [RHS](nth_map 0) ?size_map ?size_iota //.
rewrite [in RHS](nth_map 0) ?size_coefs // -natrM muln2.
rewrite -[LHS]natr_Zp -[X in X%:R = _]odd_double_half.
by rewrite -(bit_of_bits_value (fun i => odd ((coefs q)`_i)%R) lt_i) eq0 /bit_of div0n.
Qed.

Lemma ring_monomialE i : (i < d)%N -> ring_monomial i = in_qpoly h 'X^i.
Proof.
move=> lt_i; rewrite /ring_monomial (nth_map 0%N) ?size_iota // nth_iota //; congr in_qpoly.
apply/polyP=> j; rewrite coef_Poly nth_set_nth /= coefXn nth_nseq if_same.
by case: eqP.
Qed.

Lemma residue_of_monomial i : (i < d)%N -> residue_of (ring_monomial i) = gf_from 2 ^+ i.
Proof.
by move=> lt_i; rewrite ring_monomialE // residue_of_class rmorphXn /= /reduce_poly map_polyX hornerX.
Qed.

(** The element whose coefficients are the bits of [n]. *)
Definition bit_element (n : nat) : R := \sum_(i < d) (bit_of n i)%:R * ring_monomial i.

Lemma residue_of_bits n : (n < 2 ^ d)%N -> residue_of (bit_element n) = gf_from n.
Proof.
move=> lt_n; rewrite rmorph_sum [RHS]gf_from_bits //; apply: eq_bigr => i _.
by rewrite rmorphM rmorph_nat [X in _ * X]residue_of_monomial.
Qed.

Lemma ring_residue_lift c :
  residue_of (\sum_(i < d) (bit_of (gf_byte c) i)%:R * ring_monomial i) = c.
Proof. by rewrite [LHS]residue_of_bits ?gf_byte_lt // gf_from_byte. Qed.

Lemma bits_byte n : (n < 2 ^ d)%N -> bits_value (bit_of n) d = n.
Proof.
move=> lt_n; apply: (gf_from_inj (P := P)); rewrite ?inE ?bits_value_lt //.
by rewrite -sum_bits -gf_from_bits.
Qed.

Lemma ring_two_nilpotent : 2%:R ^+ K = 0 :> R.
Proof.
by rewrite -[2%:R](rmorph_nat (in_qpoly h \o polyC)) -rmorphXn two_nilpotent_base // rmorph0.
Qed.

(** An element with a nonzero residue is invertible. *)
Lemma residue_unit q : residue_of q != 0 -> exists c, q * c = 1.
Proof.
move=> neq0; set y := bit_element (gf_byte (residue_of q)^-1).
have res_y : residue_of y = (residue_of q)^-1 by rewrite residue_of_bits ?gf_byte_lt // gf_from_byte.
have [z eq_z] : exists z, 1 - q * y = 2%:R * z.
  by apply: residue_of_ker; rewrite rmorphB rmorphM rmorph1 [X in _ * X]res_y mulfV // subrr.
exists (y * \sum_(i < K) (2%:R * z) ^+ i); rewrite mulrA -[q * y](subKr 1) eq_z.
by rewrite -opprB mulNr -subrX1 exprMn ring_two_nilpotent mul0r sub0r opprK.
Qed.

(** *** The exceptional sequence *)

(** The coefficients of an element of the exceptional sequence. *)
Definition bit_coefs (n : nat) : seq Z := [seq (if bit_of n i then 1 else 0) | i <- iota 0 d].

Lemma bit_coefs_class n : cls (bit_coefs n) = bit_element n.
Proof.
rewrite /residue_class [Poly [seq _ | _ <- _]]Poly_iota size_map size_iota rmorph_sum.
rewrite /bit_element -(big_mkord xpredT (fun i => (bit_of n i)%:R * ring_monomial i)) /index_iota subn0.
apply: eq_big_seq => i; rewrite mem_iota add0n => /= lt_i.
rewrite nth_map_iota lt_i ring_monomialE // -mul_polyC rmorphM; congr (_ * _).
by case: (bit_of n i); rewrite ?polyC1 ?polyC0 ?rmorph1 ?rmorph0.
Qed.

Lemma ring_exceptionalE idx : ring_get_from_exceptional_sequence idx
  = if (2 ^ d <= idx)%N then Err "Value is too large to be embedded!"%string
    else Ok (bit_element idx).
Proof.
rewrite /ring_get_from_exceptional_sequence /rp_get_from_exceptional_sequence -bit_coefs_class.
by case: leqP.
Qed.

Lemma ring_exceptional_returned i : returned (ring_get_from_exceptional_sequence i).
Proof. by rewrite ring_exceptionalE; case: ifP. Qed.

Lemma ring_residue_exceptional i (a : R) : ring_get_from_exceptional_sequence i = Ok a ->
  gf_get_from_exceptional_sequence d gf_from i = Ok (residue_of a).
Proof.
rewrite ring_exceptionalE /gf_get_from_exceptional_sequence /EXCEPTIONAL_SEQUENCE_SIZE.
by case: leqP => // lt_i [<-]; rewrite residue_of_bits.
Qed.

Lemma ring_exceptional_diff_unit i j (a b : R) : i != j ->
  ring_get_from_exceptional_sequence i = Ok a -> ring_get_from_exceptional_sequence j = Ok b ->
  exists c, (a - b) * c = 1.
Proof.
move=> neq_ij /ring_residue_exceptional get_i /ring_residue_exceptional get_j.
apply: residue_unit; rewrite rmorphB /= subr_eq0; apply/negP => /eqP eq_ab.
have [c] := gf_exceptional_diff_unit (gf_from_inj (P := P)) neq_ij get_i get_j.
by rewrite eq_ab subrr mul0r => /eqP; rewrite eq_sym oner_eq0.
Qed.

Definition ring_exceptional_sequence : ExceptionalSequence R :=
  {| exceptional_returned := ring_exceptional_returned;
     exceptional_diff_unit := ring_exceptional_diff_unit |}.

(** *** Shifts *)

Lemma ring_shlE q i : (i < K)%N -> ring_shl q i = 2%:R ^+ i * q.
Proof.
move=> lt_i; rewrite -[in RHS](coefsK q) -natrX -class_mul_const; congr cls.
by apply: eq_map => c; rewrite z_shlE // mulrC natrX.
Qed.

Lemma ring_multiple_pow2E q i : (i <= K)%N ->
  ring_multiple_pow2 q i = all (fun c : Z => 2 ^ i %| c)%N (coefs q).
Proof.
move=> le_i; rewrite /ring_multiple_pow2 /rp_multiple_pow2 ltnNge le_i /=; case: eqP => [->|neq_i].
  apply: eq_all => c; rewrite -val_eqE /=; apply/eqP/idP => [-> //|]; rewrite /dvdn modn_small ?z_lt //.
  by move/eqP.
have lt_i : (i < K)%N by rewrite ltn_neqAle le_i andbT; apply/eqP.
elim: (coefs q) => //= c cs IHc; rewrite -[in RHS]z_and_mask //; case: eqP => //=.
Qed.

Lemma ring_multiple_pow2P q i : (i <= K)%N ->
  reflect (exists y, q = 2%:R ^+ i * y) (ring_multiple_pow2 q i).
Proof.
move=> le_i; rewrite ring_multiple_pow2E //; apply: (iffP allP) => [mult_q|[y ->] c].
  exists (cls [seq ((c : nat) %/ 2 ^ i)%:R | c : Z <- coefs q]); rewrite -natrX -class_mul_const.
  rewrite -[LHS]coefsK; congr cls; move: mult_q; elim: (coefs q) => //= c cs IHc mult_q.
  rewrite -natrM divnK ?natr_Zp ?mult_q ?mem_head // -IHc // => c' in_c'.
  by apply: mult_q; rewrite inE in_c' orbT.
rewrite -natrX coefs_mul_nat => /mapP[c' _ ->]; apply/z_multipleP => //.
by exists c'; rewrite mulrC natrX.
Qed.

(** *** Lazy evaluation *)

(** The polynomial with the bits of a byte as coefficients. *)
Definition bit_poly (c : nat) : {poly Z} := \sum_(b <- iota 0 d | bit_of c b) 'X^b.

Lemma bit_elementE c : bit_element c = in_qpoly h (bit_poly c).
Proof.
rewrite /bit_poly rmorph_sum big_mkcond /bit_element.
rewrite -(big_mkord xpredT (fun i => (bit_of c i)%:R * ring_monomial i)) /index_iota subn0.
apply: eq_big_seq => i; rewrite mem_iota add0n => /= lt_i; rewrite ring_monomialE //.
by case: (bit_of c i); rewrite ?mul1r ?mul0r.
Qed.

(** One pair of the loop adds the product of the bits and the power. *)
Lemma lazy_eval_step (c : nat) (power res : seq Z) :
  let res' := foldl (fun res bit_idx =>
     if bit_of c bit_idx
     then foldl (fun res jc => add_at res (jc.1 + bit_idx) jc.2) res (enumerate power)
     else res) res (iota 0 d) in
  size power = d -> size res = (2 * d - 1)%N ->
  Poly res' = Poly res + bit_poly c * Poly power /\ size res' = (2 * d - 1)%N.
Proof.
move=> /= sz_p; rewrite /bit_poly.
have : all (gtn d) (iota 0 d) by apply/allP => b; rewrite mem_iota.
elim: (iota 0 d) res => [|b bs IHb] res /=; first by rewrite big_nil mul0r addr0.
case/andP=> lt_b lt_bs sz_res; rewrite big_cons; case: ifP => _; last exact: IHb.
set res1 := foldl _ res _; have [|-> ->] := IHb res1 lt_bs; last split=> //.
  rewrite /res1 (@size_foldl_same _ _ _ (fun jc => jc.1 < d)%N) // => [s jc sz_s lt_jc|].
    by rewrite size_add_at // sz_s sz_res; ssrlia.
  by apply/allP => jc; rewrite (enumerateE 0) sz_p => /mapP[j]; rewrite mem_iota => lt_j ->.
rewrite /res1 (Poly_foldl_add_at (fun jc => jc.1 + b)%N snd) mulrDl addrA; congr (_ + _ + _).
rewrite [in RHS]Poly_enumerate mulr_sumr; apply: eq_bigr => jc _.
by rewrite exprD -scalerAr mulrC.
Qed.

Lemma lazy_eval_loopE (cs : seq nat) (powers : seq (seq Z)) res :
  all (fun p => size p == d) powers -> size res = (2 * d - 1)%N -> (size cs <= size powers)%N ->
  exists res', [/\ lazy_eval_loop d cs powers res = Ok res', size res' = (2 * d - 1)%N
    & Poly res' = Poly res + \sum_(i < size cs) bit_poly (nth 0%N cs i) * Poly (nth [::] powers i)].
Proof.
elim: cs powers res => [|c cs IHc] powers res /=.
  by move=> _ sz_res _; exists res; rewrite big_ord0 addr0.
case: powers => //= p powers /andP[/eqP sz_p all_d] sz_res le_cs.
have [eq_r sz_r] := lazy_eval_step c sz_p sz_res.
have [res' [eq_l sz' eq']] := IHc powers _ all_d sz_r le_cs; exists res'; split=> //.
by rewrite eq' eq_r big_ord_recl /= addrA.
Qed.

Lemma ring_lazy_evalE cs (powers : seq R) : (size cs <= size powers)%N ->
  ring_lazy_eval cs powers = Ok (\sum_(i < size cs) bit_element (nth 0%N cs i) * powers`_i).
Proof.
move=> le_cs; rewrite /ring_lazy_eval /rp_lazy_eval.
have [||| res [-> sz_res eq_res]] := @lazy_eval_loopE cs [seq coefs q | q <- powers] (nseq (2 * d - 1) 0).
- by apply/allP => _ /mapP[q _ ->]; rewrite size_coefs.
- by rewrite size_nseq.
- by rewrite size_map.
rewrite /=; congr Ok; rewrite /residue_class (reduce_mulE range_d (modulus_class Z range_d)).
  by have := ext_gt0 range_d; rewrite sz_res; ssrlia.
rewrite eq_res rmorphD rmorph_sum /= (_ : Poly (nseq _ _) = 0) ?rmorph0 ?add0r.
  by apply/polyP=> i; rewrite coef0 coef_Poly nth_nseq if_same.
apply: eq_bigr => i _; rewrite rmorphM bit_elementE; congr (_ * _).
by rewrite (nth_map 0) ?(leq_trans _ le_cs) // -[RHS]coefsK.
Qed.

Lemma sequences_residue i (a : R) :
  get_from_exceptional_sequence (ExceptionalSequence := ring_exceptional_sequence) i = Ok a ->
  get_from_exceptional_sequence (ExceptionalSequence := residue_field_sequence (P := P)) i
    = Ok (residue_of a).
Proof. exact: ring_residue_exceptional. Qed.

(** The residue polynomials over the integers modulo [2 ^ K], with the residue
    field generated by g2p, are a Galois ring. *)
Definition residue_galois_ring :
    GaloisRing ring_exceptional_sequence (residue_field_sequence (P := P)) :=
  {| BASE_BIT_LENGTH := K; EXTENSION_DEGREE := d; bit_compose := ring_bit_compose;
     gf_into := gf_byte; monomial := ring_monomial; shl := ring_shl;
     multiple_pow2 := ring_multiple_pow2; lazy_eval := ring_lazy_eval; residue := residue_of;
     base_bit_length_gt0 := K_gt0; two_nilpotent := ring_two_nilpotent;
     bit_compose_shift := ring_bit_compose_shift; residue_ker := residue_of_ker;
     residue_lift := ring_residue_lift; residue_exceptional := sequences_residue;
     shlE := ring_shlE; multiple_pow2P := ring_multiple_pow2P; lazy_evalE := ring_lazy_evalE |}.
End Residue.
