(* ===== verification/Gf8.v ===== *)
(** * A model of the interface [G2P]

    The field of eight elements as polynomials over GF(2) modulo [X^3 + X + 1],
    the modulus of core/threshold-algebra/src/galois_fields/gf8.rs: what the g2p
    package documents of the type it generates can hold. *)

From mathcomp Require Import boot.
From mathcomp Require Import ssralg poly polydiv zmodp qpoly qfpoly.
From S2P Require Import Prelude SsrLia PolyOps Structure Hensel ResiduePoly ResidueRing GaloisRing.

Set Implicit Arguments.
Unset Strict Implicit.
Unset Printing Implicit Defensive.

Import GRing.Theory.
Local Open Scope ring_scope.

Definition gf8_modulus : {poly 'F_2} := Poly (modulus 'F_2 3).

Lemma gf8_irreducible : monic_irreducible_poly gf8_modulus.
Proof.
have [sz mon] := @size_modulus 'F_2 3 isT; split=> //.
apply: cubic_irreducible; first by rewrite sz.
by move=> x; rewrite /root /gf8_modulus /= !horner_cons hornerC; case: x => [[|[|]]].
Qed.

Definition GF8 : fieldType := {poly %/ gf8_modulus with gf8_irreducible}.

Definition gf8_from (n : nat) : GF8 := residue_class 3 [seq (bit_of n i)%:R | i <- iota 0 3].
Definition gf8_byte (c : GF8) : nat := bits_value (fun i => (c : {poly 'F_2})`_i != 0) 3.

Lemma gf8_class (a : seq 'F_2) : size a = 3 -> (residue_class 3 a : {poly 'F_2}) = Poly a.
Proof. by move=> sz_a; apply: residue_class_val. Qed.

Lemma gf8_from_coef n i : (gf8_from n : {poly 'F_2})`_i = if (i < 3)%N then (bit_of n i)%:R else 0.
Proof. by rewrite gf8_class // coef_Poly nth_map_iota. Qed.

Lemma f2_bool (x : 'F_2) : (x != 0)%:R = x.
Proof. by case: x => [[|[|]]] // i; apply: val_inj. Qed.

Lemma gf8_from_byte : cancel gf8_byte gf8_from.
Proof.
move=> c; apply: val_inj; apply/polyP=> i; rewrite [LHS]gf8_from_coef; case: ltnP => [lt_i|le_i].
  by rewrite bit_of_bits_value // f2_bool.
rewrite nth_default // (leq_trans _ le_i) // -ltnS -(size_mk_monic_modulus 'F_2 (d := 3)) //.
exact: size_mk_monic.
Qed.

Lemma gf8_byte_from n : (n < 2 ^ 3)%N -> gf8_byte (gf8_from n) = n.
Proof.
move=> lt_n; rewrite /gf8_byte /bits_value !big_ord_recl big_ord0 !gf8_from_coef /=.
by move: n lt_n => [|[|[|[|[|[|[|[|n]]]]]]]].
Qed.

Lemma gf8_two : 2%:R = 0 :> GF8.
Proof.
rewrite -[LHS](rmorph_nat (in_qpoly gf8_modulus \o polyC)).
by rewrite (_ : 2%:R = 0) ?rmorph0 //; apply: val_inj.
Qed.

Lemma gf8_root : gf8_from 2 = in_qpoly gf8_modulus 'X.
Proof.
rewrite /gf8_from /residue_class; congr in_qpoly; apply/polyP=> i.
by rewrite coef_Poly coefX; move: i => [|[|[|i]]] //=; rewrite nth_nil.
Qed.

Lemma gf8_from_bits n : (n < 2 ^ 3)%N ->
  gf8_from n = \sum_(i < 3) (bit_of n i)%:R * gf8_from 2 ^+ i.
Proof.
move=> _; transitivity (in_qpoly gf8_modulus (\sum_(i < 3) (bit_of n i)%:R * 'X^i)).
  congr in_qpoly; apply/polyP=> i; rewrite coef_Poly nth_map_iota coef_sum.
  rewrite (eq_bigr (fun j : 'I_3 => if i == j then (bit_of n j)%:R else 0)) => [j _|].
    by rewrite -polyC_natr coefCM coefXn; case: eqP; rewrite ?mulr1 ?mulr0.
  by rewrite !big_ord_recl big_ord0 /=; move: i => [|[|[|i]]]; rewrite /= ?addr0 ?add0r.
by rewrite rmorph_sum gf8_root; apply: eq_bigr => i _; rewrite rmorphM rmorph_nat rmorphXn.
Qed.

Lemma gf8_modulus_root : (Poly (modulus GF8 3)).[gf8_from 2] = 0.
Proof.
rewrite gf8_root -[RHS](modulus_class 'F_2 (d := 3)) //.
rewrite [RHS](pi_Poly (in_qpoly gf8_modulus)) /= !horner_cons hornerC !rmorph1 !rmorph0.
by rewrite mul0r !mulr0 !addr0 !add0r !mulr1 ?mul1r [RHS]addrC [X in X + 1 = _]mulrC [X in _ * X]addrC.
Qed.

#[export] Instance gf8 : G2P GF8 3 :=
  {| gf_from := gf8_from; GaloisRing.gf_byte := gf8_byte; GaloisRing.gf_from_byte := gf8_from_byte;
     gf_byte_lt := fun c => bits_value_lt _ 3; gf_byte_from := gf8_byte_from; gf_two := gf8_two;
     gf_from_bits := gf8_from_bits; gf_modulus := gf8_modulus_root |}.
