(* ===== verification/Decoding.v ===== *)
(** * Reconstruction of a shared secret
    (core/threshold-algebra/src/sharing/shamir.rs and error_correction.rs)

    The decoder of the residue polynomials, with the Galois ring and its residue
    field in place: what it returns, that it always returns, and that the hints
    change nothing; and the round trip of sharing and reconstruction. *)

From Stdlib Require Import String.
From mathcomp Require Import boot.
From mathcomp Require Import ssralg poly polydiv zmodp qpoly.
From S2P Require Import Prelude SsrLia Role PolyOps Structure Lagrange Gao Matrix Shamir.
From S2P Require Import ErrorCorrection Hensel ResiduePoly ResidueRing GaloisRing Gf8.

Set Implicit Arguments.
Unset Strict Implicit.
Unset Printing Implicit Defensive.

Import GRing.Theory.
Local Open Scope ring_scope.

(** [ResiduePoly<Z, d>] over the integers modulo [2 ^ K]. *)
Definition ResidueRing (K d : nat) : comNzRingType := {poly %/ Poly (modulus 'Z_(2 ^ K) d)}.

Section ResidueDecoder.
Variables (K d : nat) (F : fieldType) (K_gt0 : (0 < K)%N) (range_d : (3 <= d <= 8)%N).
Context {P : G2P F d} {C : LagrangeCache F}.

Definition residue_sequence : ExceptionalSequence (ResidueRing K d) :=
  ring_exceptional_sequence K_gt0 range_d (P := P).

Definition residue_error_correct : ErrorCorrect residue_sequence :=
  @ring_error_correct _ F _ _ (residue_galois_ring K_gt0 range_d) C.

(** The functions of error_correction.rs at this ring. *)
Definition residue_decode := @shamir_error_correct _ F _ _ (residue_galois_ring K_gt0 range_d) C.
Definition residue_decode_with_hints :=
  @shamir_error_correct_with_hints _ F _ _ (residue_galois_ring K_gt0 range_d) C.
Definition residue_hints := @from_parties_sorted _ F residue_sequence (residue_field_sequence (P := P)) C.
End ResidueDecoder.

(** C5. The Hensel-lifting decoder of the residue polynomials is exact: with at
    least [degree + 1 + 2 * max_errors] shares, it returns a polynomial exactly when
    that polynomial has at most the degree of the sharing and all but at most
    [max_errors] shares are its values, for every base ring, extension degree
    and residue field. *)
Theorem ring_decoding_correct (K d : nat) (F : fieldType) (K_gt0 : (0 < K)%N)
    (range_d : (3 <= d <= 8)%N) (P : G2P F d) (C : LagrangeCache F)
    (sh : ShamirSharings (ResidueRing K d)) (degree max_errors : nat)
    (g : {poly ResidueRing K d}) :
  sharing_ok (X := residue_sequence K_gt0 range_d (P := P)) sh ->
  (2 * max_errors + degree.+1 <= size sh)%N ->
  (exists2 p, residue_decode K_gt0 range_d sh degree max_errors = Ok p & Poly p = g) <->
  (size g <= degree.+1)%N /\
  (wrong_shares (X := residue_sequence K_gt0 range_d (P := P)) g sh <= max_errors)%N.
Proof.
move=> ok_sh le_n; split=> [[p eq_p <-]|[sz_g le_w]].
  by have [_ sz_p wr_p] := error_correct_sound (ErrorCorrect := residue_error_correct K_gt0 range_d) ok_sh eq_p.
exact: (error_correct_complete (ErrorCorrect := residue_error_correct K_gt0 range_d) ok_sh le_n sz_g le_w).
Qed.


(** C32. Precomputed hints change nothing: with the hints of the owners of the
    shares, which are always computed, the decoder with hints returns what the
    decoder without hints returns. *)
Theorem ring_hints_equiv (K d : nat) (F : fieldType) (K_gt0 : (0 < K)%N)
    (range_d : (3 <= d <= 8)%N) (P : G2P F d) (C : LagrangeCache F)
    (sh : ShamirSharings (ResidueRing K d)) (degree max_errors : nat) :
  sharing_ok (X := residue_sequence K_gt0 range_d (P := P)) sh ->
  exists2 h, residue_hints K_gt0 range_d (owners sh) degree = Ok h &
    residue_decode_with_hints K_gt0 range_d sh degree max_errors h
      = residue_decode K_gt0 range_d sh degree max_errors.
Proof.
move=> ok_sh; have [h eq_h] := hints_new_Ok (ErrorCorrect := residue_error_correct K_gt0 range_d) degree ok_sh.
exists h => //.
exact: (error_correct_with_hintsE (ErrorCorrect := residue_error_correct K_gt0 range_d) max_errors ok_sh eq_h).
Qed.

(** C16. Sharing and reconstruction are inverse: from the shares of a secret, of
    which any may be missing and at most [max_errors] may be changed, the secret
    is reconstructed as long as the shares that are left are more than
    [threshold + 2 * max_errors]. *)
Theorem share_reconstruct_roundtrip (R : comNzRingType) (X : ExceptionalSequence R)
    (EC : ErrorCorrect X) (rnd : nat -> R) (secret : R) (num_parties threshold max_errors : nat)
    (dealt sh : ShamirSharings R) :
  shamir_share rnd secret num_parties threshold = Ok dealt ->
  sharing_ok sh -> (corrupted_shares dealt sh <= max_errors)%N ->
  (threshold + 2 * max_errors < size sh)%N ->
  error_reconstruct sh threshold max_errors = Ok secret.
Proof.
move=> dealtE ok_sh le_c lt_n.
rewrite (@error_reconstructE R X EC sh threshold max_errors (sharing_poly rnd secret threshold)) //.
- by ssrlia.
- exact: size_sharing_poly.
- exact: leq_trans (wrong_shares_corrupted sh dealtE) le_c.
by rewrite sharing_poly0.
Qed.

(** ** Witnesses *)

Section Witnesses.
Let K := 2%N.
Let K_gt0 : (0 < K)%N := isT.
Let range_3 : (3 <= 3 <= 8)%N := isT.
#[local] Instance seqR : ExceptionalSequence (ResidueRing K 3) :=
  residue_sequence K_gt0 range_3 (P := gf8).
#[local] Instance cache8 : LagrangeCache GF8 := no_cache _.

(** Four parties, of which the last changed its share of the constant one. *)
Let shares : ShamirSharings (ResidueRing K 3) :=
  [:: mkShare 1 1; mkShare 2 1; mkShare 3 1; mkShare 4 0].

Let embed r : (r < 8)%N -> exists x, embed_role_to_exceptional_sequence (R := ResidueRing K 3) r = Ok x.
Proof.
move=> lt_r; rewrite /embed_role_to_exceptional_sequence /= ring_exceptionalE leqNgt lt_r.
by eexists.
Qed.

Let emb r : (r < 8)%N -> embeddable (R := ResidueRing K 3) r.
Proof. by rewrite /embeddable => /embed[x ->]. Qed.

Let on_const r (c v : ResidueRing K 3) : (r < 8)%N -> on_poly c%:P (mkShare r v) = (v == c).
Proof. by rewrite /on_poly => /embed[x ->]; rewrite hornerC. Qed.

Let shares_ok : sharing_ok shares.
Proof. by apply/andP; split=> //; apply/allP => r; rewrite !inE => /or4P[] /eqP->; apply: emb. Qed.

Let one_wrong : (wrong_shares 1%:P shares <= 1)%N.
Proof. by rewrite /wrong_shares /shares /count !on_const // eqxx /= addn0 leq_b1. Qed.

Lemma ring_decoding_correct_witness :
  exists2 p, residue_decode (P := gf8) K_gt0 range_3 shares 1 1 = Ok p & Poly p = 1%:P.
Proof.
refine (proj2 (@ring_decoding_correct K 3 GF8 K_gt0 range_3 gf8 _ shares 1 1 1%:P shares_ok _) _) => //.
by split; [rewrite size_polyC; case: (_ != _) | exact: one_wrong].
Defined.


Lemma ring_hints_equiv_witness :
  exists2 h, residue_hints (P := gf8) K_gt0 range_3 (owners shares) 1 = Ok h &
    residue_decode_with_hints (P := gf8) K_gt0 range_3 shares 1 1 h
      = residue_decode (P := gf8) K_gt0 range_3 shares 1 1.
Proof. exact (@ring_hints_equiv K 3 GF8 K_gt0 range_3 gf8 _ shares 1 1 shares_ok). Defined.

Let F11_inj : {in gtn (2 ^ 3) &, injective (fun i : nat => i%:R : 'F_11)}.
Proof.
move=> i j; rewrite !inE => lt_i lt_j /(congr1 val) /=.
by rewrite !val_Zp_nat ?modn_small // (leq_trans lt_i, leq_trans lt_j).
Qed.
#[local] Instance seq11 : ExceptionalSequence 'F_11 := gf_exceptional_sequence F11_inj.

Let dealt := if shamir_share (fun=> 2%:R) (3%:R : 'F_11) 4 1 is Ok sh then sh else [::].

(** The secret [3] shared by [3 + 2X] among four parties, the third share being changed. *)
Lemma share_reconstruct_roundtrip_witness :
  @error_reconstruct 'F_11 seq11 (@field_error_correct 'F_11 seq11 (no_cache _))
    [:: mkShare 1 5%:R; mkShare 2 7%:R; mkShare 3 1%:R; mkShare 4 0] 1 1 = Ok 3%:R.
Proof.
refine (@share_reconstruct_roundtrip 'F_11 seq11 _ (fun=> 2%:R) 3%:R 4 1 1 dealt _ _ _ _ _);
  by vm_compute.
Defined.
End Witnesses.
