(* ===== verification/Degrees.v ===== *)
(** * The extensions of degree three to eight
    (core/threshold-algebra/src/galois_rings/degree_3.rs to degree_8.rs)

    Each file writes out its own multiplication, multiplication by [X], slicing,
    lifting, lazy evaluation and monomials.  They are stated here as the files
    have them and shown to be the operations of the files ResiduePoly and
    GaloisRing at the file's degree; so what is proved of those holds of every
    extension.  The serialization of an element to bytes and back is modelled
    once, the files differing in the degree only. *)

From Stdlib Require Import String.
From mathcomp Require Import boot.
From mathcomp Require Import ssralg poly polydiv zmodp qpoly.
From S2P Require Import Prelude SsrLia PolyOps Structure Hensel Karatsuba ResiduePoly ResidueRing GaloisRing Gf8.

Set Implicit Arguments.
Unset Strict Implicit.
Unset Printing Implicit Defensive.

Import GRing.Theory.
Local Open Scope ring_scope.

(** ** Multiplication by [X] and multiplication *)

Section Mul.
Variable Z : comNzRingType.
Implicit Types (a b : seq Z).

(** [for i in (1..n).rev() { coefs\[i\] = coefs\[i - 1\] }]. *)
Definition shift_coefs (n : nat) a : seq Z :=
  foldl (fun coefs i => set_nth 0 coefs i coefs`_(i - 1)) a (rev (iota 1 (n - 1))).

Definition mul_by_x_F3 a : seq Z :=
  let last := a`_2 in
  let coefs := shift_coefs 3 a in
  let coefs := set_nth 0 coefs 0 (- last) in
  sub_at coefs 1 last.

Definition mul_by_x_F4 a : seq Z :=
  let last := a`_3 in
  let coefs := shift_coefs 4 a in
  let coefs := set_nth 0 coefs 0 (- last) in
  sub_at coefs 1 last.

Definition mul_by_x_F5 a : seq Z :=
  let last := a`_4 in
  let coefs := shift_coefs 5 a in
  let coefs := set_nth 0 coefs 0 (- last) in
  sub_at coefs 2 last.

Definition mul_by_x_F6 a : seq Z :=
  let last := a`_5 in
  let coefs := shift_coefs 6 a in
  let coefs := set_nth 0 coefs 0 (- last) in
  sub_at coefs 1 last.

Definition mul_by_x_F7 a : seq Z :=
  let last := a`_6 in
  let coefs := shift_coefs 7 a in
  let coefs := set_nth 0 coefs 0 (- last) in
  sub_at coefs 1 last.

Definition mul_by_x_F8 a : seq Z :=
  let last := a`_7 in
  let coefs := shift_coefs 8 a in
  let coefs := set_nth 0 coefs 0 (- last) in
  let coefs := sub_at coefs 1 last in
  let coefs := sub_at coefs 3 last in
  sub_at coefs 4 last.

Definition mul_F3 a b : seq Z := reduce_mul 3 (reduction_table_3 Z) (karatsuba_3 a b).

Definition mul_F4 a b : seq Z := reduce_mul 4 (reduction_table_4 Z) (karatsuba_4 a b).

Definition mul_F5 a b : seq Z := reduce_mul 5 (reduction_table_5 Z) (karatsuba_5 a b).

Definition mul_F6 a b : seq Z := reduce_mul 6 (reduction_table_6 Z) (karatsuba_6 a b).

Definition mul_F7 a b : seq Z := reduce_mul 7 (reduction_table_7 Z) (karatsuba_7 a b).

Definition mul_F8 a b : seq Z := reduce_mul 8 (reduction_table_8 Z) (karatsuba_8 a b).

End Mul.

(** ** Slicing, lifting and lazy evaluation *)

Section Bits.
Variables (K : nat) (F : fieldType).
Local Notation Z := 'Z_(2 ^ K).
Implicit Types (a : seq Z) (x : F).

Definition bit_compose_F3 {P : G2P F 3} a (idx_bit : nat) : F := gf_from (rp_bit_compose a idx_bit).
Definition bit_lift_F3 {P : G2P F 3} x (pos : nat) : Res string (seq Z) :=
  rp_bit_lift K 3 (gf_byte x) pos.
Definition bit_lift_from_idx_F3 {P : G2P F 3} (idx pos : nat) : Res string (seq Z) :=
  let table := from_generator (gf_from (d := 3)) (gf_from 2) 8 in
  if (idx < 8)%N then bit_lift_F3 table`_idx pos else Err "Unexpected index"%string.
Definition embed_quotient_F3 {P : G2P F 3} x : Res string (seq Z) :=
  rp_get_from_exceptional_sequence K 3 (gf_byte x).

Definition bit_compose_F4 {P : G2P F 4} a (idx_bit : nat) : F := gf_from (rp_bit_compose a idx_bit).
Definition bit_lift_F4 {P : G2P F 4} x (pos : nat) : Res string (seq Z) :=
  rp_bit_lift K 4 (gf_byte x) pos.
Definition bit_lift_from_idx_F4 {P : G2P F 4} (idx pos : nat) : Res string (seq Z) :=
  let table := from_generator (gf_from (d := 4)) (gf_from 2) 16 in
  if (idx < 16)%N then bit_lift_F4 table`_idx pos else Err "Unexpected index"%string.
Definition embed_quotient_F4 {P : G2P F 4} x : Res string (seq Z) :=
  rp_get_from_exceptional_sequence K 4 (gf_byte x).

Definition bit_compose_F5 {P : G2P F 5} a (idx_bit : nat) : F := gf_from (rp_bit_compose a idx_bit).
Definition bit_lift_F5 {P : G2P F 5} x (pos : nat) : Res string (seq Z) :=
  rp_bit_lift K 5 (gf_byte x) pos.
Definition bit_lift_from_idx_F5 {P : G2P F 5} (idx pos : nat) : Res string (seq Z) :=
  let table := from_generator (gf_from (d := 5)) (gf_from 2) 32 in
  if (idx < 32)%N then bit_lift_F5 table`_idx pos else Err "Unexpected index"%string.
Definition embed_quotient_F5 {P : G2P F 5} x : Res string (seq Z) :=
  rp_get_from_exceptional_sequence K 5 (gf_byte x).

Definition bit_compose_F6 {P : G2P F 6} a (idx_bit : nat) : F := gf_from (rp_bit_compose a idx_bit).
Definition bit_lift_F6 {P : G2P F 6} x (pos : nat) : Res string (seq Z) :=
  rp_bit_lift K 6 (gf_byte x) pos.
Definition bit_lift_from_idx_F6 {P : G2P F 6} (idx pos : nat) : Res string (seq Z) :=
  let table := from_generator (gf_from (d := 6)) (gf_from 2) 64 in
  if (idx < 64)%N then bit_lift_F6 table`_idx pos else Err "Unexpected index"%string.
Definition embed_quotient_F6 {P : G2P F 6} x : Res string (seq Z) :=
  rp_get_from_exceptional_sequence K 6 (gf_byte x).

Definition bit_compose_F7 {P : G2P F 7} a (idx_bit : nat) : F := gf_from (rp_bit_compose a idx_bit).
Definition bit_lift_F7 {P : G2P F 7} x (pos : nat) : Res string (seq Z) :=
  rp_bit_lift K 7 (gf_byte x) pos.
Definition bit_lift_from_idx_F7 {P : G2P F 7} (idx pos : nat) : Res string (seq Z) :=
  let table := from_generator (gf_from (d := 7)) (gf_from 2) 128 in
  if (idx < 128)%N then bit_lift_F7 table`_idx pos else Err "Unexpected index"%string.
Definition embed_quotient_F7 {P : G2P F 7} x : Res string (seq Z) :=
  rp_get_from_exceptional_sequence K 7 (gf_byte x).

Definition bit_compose_F8 {P : G2P F 8} a (idx_bit : nat) : F := gf_from (rp_bit_compose a idx_bit).
Definition bit_lift_F8 {P : G2P F 8} x (pos : nat) : Res string (seq Z) :=
  rp_bit_lift K 8 (gf_byte x) pos.
Definition bit_lift_from_idx_F8 {P : G2P F 8} (idx pos : nat) : Res string (seq Z) :=
  let table := from_generator (gf_from (d := 8)) (gf_from 3) 256 in
  if (idx < 256)%N then bit_lift_F8 table`_idx pos else Err "Unexpected index"%string.
Definition embed_quotient_F8 {P : G2P F 8} x : Res string (seq Z) :=
  rp_get_from_exceptional_sequence K 8 (gf_byte x).

Definition lazy_eval_F3 (coefs : seq nat) (powers : seq (seq Z)) : Res string (seq Z) :=
  let* res_coefs := lazy_eval_loop 3 coefs powers (nseq 5 0) in
  Ok (reduce_mul 3 (reduction_table_3 Z) res_coefs).

Definition lazy_eval_F4 (coefs : seq nat) (powers : seq (seq Z)) : Res string (seq Z) :=
  let* res_coefs := lazy_eval_loop 4 coefs powers (nseq 7 0) in
  Ok (reduce_mul 4 (reduction_table_4 Z) res_coefs).

Definition lazy_eval_F5 (coefs : seq nat) (powers : seq (seq Z)) : Res string (seq Z) :=
  let* res_coefs := lazy_eval_loop 5 coefs powers (nseq 9 0) in
  Ok (reduce_mul 5 (reduction_table_5 Z) res_coefs).

Definition lazy_eval_F6 (coefs : seq nat) (powers : seq (seq Z)) : Res string (seq Z) :=
  let* res_coefs := lazy_eval_loop 6 coefs powers (nseq 11 0) in
  Ok (reduce_mul 6 (reduction_table_6 Z) res_coefs).

Definition lazy_eval_F7 (coefs : seq nat) (powers : seq (seq Z)) : Res string (seq Z) :=
  let* res_coefs := lazy_eval_loop 7 coefs powers (nseq 13 0) in
  Ok (reduce_mul 7 (reduction_table_7 Z) res_coefs).

Definition lazy_eval_F8 (coefs : seq nat) (powers : seq (seq Z)) : Res string (seq Z) :=
  let* res_coefs := lazy_eval_loop 8 coefs powers (nseq 15 0) in
  Ok (reduce_mul 8 (reduction_table_8 Z) res_coefs).

End Bits.

(** ** Bytes *)

(** [to_le_bytes] and [from_le_bytes] of an integer of [k] bytes. *)
Definition to_le_bytes (k n : nat) : seq nat :=
  [seq ((n %/ 256 ^ i) %% 256)%N | i <- iota 0 k].
Definition from_le_bytes (bytes : seq nat) : nat :=
  foldr (fun byte acc => byte + 256 * acc)%N 0%N bytes.

Section Bytes.
Variables (k d : nat).
Local Notation Z := 'Z_(2 ^ (8 * k)).

(** [to_byte_vec]: the bytes of the coefficients, one after the other. *)
Definition rp_to_byte_vec (a : seq Z) : seq nat :=
  foldl (fun res (coef : Z) => res ++ to_le_bytes k coef) [::] a.

(** [from_bytes]: the coefficient [i] from [bytes\[i * k..i * k + k\]]. *)
Definition rp_from_bytes (bytes : seq nat) : seq Z :=
  [seq from_u128 (8 * k) (from_le_bytes (take k (drop (k * i) bytes))) | i <- iota 0 d].
End Bytes.

Arguments rp_to_byte_vec : clear implicits.
Arguments rp_from_bytes : clear implicits.

Lemma size_to_le_bytes k n : size (to_le_bytes k n) = k.
Proof. by rewrite size_map size_iota. Qed.

Lemma to_le_bytes_lt k n : all (gtn 256) (to_le_bytes k n).
Proof. by apply/allP => _ /mapP[i _ ->]; rewrite /= ltn_mod. Qed.

Lemma to_le_bytesS k n : to_le_bytes k.+1 n = (n %% 256)%N :: to_le_bytes k (n %/ 256).
Proof.
rewrite /to_le_bytes /= divn1 -[X in iota X _]addn0 iotaDl -map_comp; congr (_ :: _); apply: eq_map => i /=.
by rewrite expnS divnMA.
Qed.

Lemma to_le_bytesK k n : (n < 256 ^ k)%N -> from_le_bytes (to_le_bytes k n) = n.
Proof.
elim: k n => [|k IHk] n; first by rewrite expn0 ltnS leqn0 => /eqP->.
rewrite expnS mulnC => lt_n; rewrite to_le_bytesS /= IHk ?ltn_divLR //.
by rewrite addnC mulnC -divn_eq.
Qed.

Lemma from_le_bytes_lt bytes : all (gtn 256) bytes -> (from_le_bytes bytes < 256 ^ size bytes)%N.
Proof.
elim: bytes => //= b bytes IHb /andP[lt_b /IHb lt_bs].
by rewrite expnS (leq_trans (n := 256 + 256 * from_le_bytes bytes)) ?ltn_add2r // -mulnS leq_mul2l lt_bs.
Qed.

Lemma from_le_bytesK bytes : all (gtn 256) bytes ->
  to_le_bytes (size bytes) (from_le_bytes bytes) = bytes.
Proof.
elim: bytes => //= b bytes IHb /andP[lt_b lt_bs]; rewrite to_le_bytesS.
rewrite addnC mulnC modnMDl modn_small // divnMDl // divn_small // addn0 IHb //.
Qed.

Section BytesLemmas.
Variables (k d : nat).
Hypothesis k_gt0 : (0 < k)%N.
Local Notation Z := 'Z_(2 ^ (8 * k)).

Let bits_gt0 : (0 < 8 * k)%N.
Proof. by rewrite muln_gt0. Qed.

Let byte_modulus : (256 ^ k = 2 ^ (8 * k))%N.
Proof. by rewrite -[256%N]/(2 ^ 8)%N -expnM. Qed.

Lemma rp_to_byte_vecE (a : seq Z) : rp_to_byte_vec k a = flatten [seq to_le_bytes k (c : Z) | c <- a].
Proof.
rewrite /rp_to_byte_vec -[RHS]cat0s; elim: a [::] => [|c a IHa] res /=; first by rewrite cats0.
by rewrite IHa catA.
Qed.

Lemma size_rp_to_byte_vec (a : seq Z) : size (rp_to_byte_vec k a) = (k * size a)%N.
Proof.
rewrite rp_to_byte_vecE; elim: a => [|c a IHa] /=; first by rewrite muln0.
by rewrite size_cat IHa size_to_le_bytes mulnS.
Qed.

(** The bytes of the coefficient [i]. *)
Lemma nth_bytes (a : seq Z) i : (i < size a)%N ->
  take k (drop (k * i) (flatten [seq to_le_bytes k (c : Z) | c <- a])) = to_le_bytes k (a`_i)%R.
Proof.
elim: a i => // c a IHa [|i] lt_i /=; first by rewrite muln0 drop0 take_size_cat ?size_to_le_bytes.
by rewrite mulnS addnC -drop_drop drop_size_cat ?size_to_le_bytes ?IHa.
Qed.

Lemma rp_bytesK (a : seq Z) : size a = d -> rp_from_bytes k d (rp_to_byte_vec k a) = a.
Proof.
move=> sz_a; apply: (@eq_from_nth _ 0); rewrite size_map size_iota ?sz_a // => i lt_i.
rewrite (nth_map 0%N) ?size_iota // nth_iota // add0n rp_to_byte_vecE.
rewrite nth_bytes ?sz_a // to_le_bytesK; first by rewrite byte_modulus z_lt.
by rewrite from_u128E // natr_Zp.
Qed.

(** The other direction, on [k * d] bytes. *)
Lemma rp_bytes_rev (bytes : seq nat) : all (gtn 256) bytes -> size bytes = (k * d)%N ->
  rp_to_byte_vec k (rp_from_bytes k d bytes) = bytes.
Proof.
rewrite rp_to_byte_vecE /rp_from_bytes; elim: d bytes => [|n IHn] bytes lt_b sz_b.
  by apply/esym/size0nil; rewrite sz_b muln0.
have sz_take : size (take k bytes) = k by rewrite size_takel // sz_b mulnS leq_addr.
move: lt_b; rewrite -{1}(cat_take_drop k bytes) all_cat => /andP[lt_take lt_drop].
rewrite /= muln0 drop0 -[RHS](cat_take_drop k) -(IHn (drop k bytes)) //.
  by rewrite size_drop sz_b mulnS addKn.
congr (_ ++ _).
  rewrite Zp_cast ?modulus_gt1 // -byte_modulus modn_small.
    by rewrite -{2}sz_take from_le_bytes_lt.
  by rewrite -{1}sz_take from_le_bytesK.
rewrite [iota 1 n](iotaDl 1 0 n) -map_comp; congr (flatten _); rewrite -!map_comp.
by apply: eq_map => i /=; rewrite mulnS drop_drop addnC.
Qed.

Lemma rp_to_byte_vec_lt (a : seq Z) : all (gtn 256) (rp_to_byte_vec k a).
Proof. by rewrite rp_to_byte_vecE; elim: a => //= c a IHa; rewrite all_cat to_le_bytes_lt. Qed.
End BytesLemmas.

(** Serialization of an element of an extension over [k] bytes is a
    bijection: [from_bytes] of [to_byte_vec] is the element, and [to_byte_vec] of
    [from_bytes] of any array of the right number of bytes is the array; what
    [to_byte_vec] writes is such an array. *)
Theorem residue_bytes_roundtrip (k d : nat) (a : seq 'Z_(2 ^ (8 * k))) (bytes : seq nat) :
  (0 < k)%N -> size a = d -> all (gtn 256) bytes -> size bytes = (k * d)%N ->
  [/\ rp_from_bytes k d (rp_to_byte_vec k a) = a
    , rp_to_byte_vec k (rp_from_bytes k d bytes) = bytes
    , all (gtn 256) (rp_to_byte_vec k a) & size (rp_to_byte_vec k a) = (k * d)%N].
Proof.
move=> k_gt0 sz_a lt_b sz_b.
by rewrite rp_bytesK // rp_bytes_rev // rp_to_byte_vec_lt // size_rp_to_byte_vec sz_a.
Qed.

Lemma residue_bytes_roundtrip_witness :
  rp_from_bytes 2 3 (rp_to_byte_vec 2 [:: 1; 300%:R; 65535%:R]) = [:: 1; 300%:R; 65535%:R].
Proof.
by case: (@residue_bytes_roundtrip 2 3 [:: 1; 300%:R; 65535%:R] [:: 1; 2; 3; 4; 5; 255]%N isT erefl isT erefl).
Defined.

(** ** The operations of an extension by its degree *)

(** The supported degrees, one by one. *)
Lemma degree_ind (P : nat -> Prop) : P 3%N -> P 4%N -> P 5%N -> P 6%N -> P 7%N -> P 8%N ->
  forall d, (3 <= d <= 8)%N -> P d.
Proof. by move=> ? ? ? ? ? ? [|[|[|[|[|[|[|[|[|d]]]]]]]]] /andP[]. Qed.

Section Extension.
Variables (Z : comNzRingType) (d : nat).

Definition mul_ext : seq Z -> seq Z -> seq Z :=
  match d with
  | 3 => @mul_F3 Z | 4 => @mul_F4 Z | 5 => @mul_F5 Z | 6 => @mul_F6 Z | 7 => @mul_F7 Z
  | _ => @mul_F8 Z
  end.

Definition mul_by_x_ext : seq Z -> seq Z :=
  match d with
  | 3 => @mul_by_x_F3 Z | 4 => @mul_by_x_F4 Z | 5 => @mul_by_x_F5 Z | 6 => @mul_by_x_F6 Z
  | 7 => @mul_by_x_F7 Z | _ => @mul_by_x_F8 Z
  end.

Hypothesis range_d : (3 <= d <= 8)%N.

Lemma mul_extE a b : mul_ext a b = rp_mul d (reduction_table Z d) a b.
Proof. by rewrite /mul_ext /rp_mul; elim/degree_ind: range_d. Qed.

Lemma mul_by_x_extE a : size a = d -> mul_by_x_ext a = rp_mul_by_x d (mul_by_x_low d) a.
Proof.
rewrite /mul_by_x_ext; elim/degree_ind: range_d; do 9?[case: a => [|? a]] => //.
Qed.
End Extension.

(** C33. For every supported degree, on arrays of [EXTENSION_DEGREE] coefficients,
    the addition, subtraction and negation of [ResiduePoly] and the Karatsuba
    multiplication with table reduction and the multiplication by [X] of the
    file of the degree are the operations of the quotient ring [Z\[X\] / F]; the
    results are again arrays of that size; and two arrays that represent the
    same class are equal. *)
Theorem residue_ring_correct (Z : comNzRingType) (d : nat) (a b : seq Z) :
  (3 <= d <= 8)%N -> size a = d -> size b = d ->
  [/\ [/\ residue_class d (rp_add d a b) = residue_class d a + residue_class d b
        , residue_class d (rp_sub d a b) = residue_class d a - residue_class d b
        , residue_class d (rp_neg a) = - residue_class d a
        , residue_class d (mul_ext d a b) = residue_class d a * residue_class d b
        & residue_class d (mul_by_x_ext d a) = in_qpoly _ 'X * residue_class d a]
    , [/\ size (rp_add d a b) = d, size (rp_sub d a b) = d, size (rp_neg a) = d
        , size (mul_ext d a b) = d & size (mul_by_x_ext d a) = d]
    & residue_class d a = residue_class d b -> a = b].
Proof.
move=> range_d sz_a sz_b; rewrite mul_extE // mul_by_x_extE //; split; last exact: residue_class_inj.
  exact: residue_ring_laws.
by rewrite !size_map size_iota size_rp_mul // size_rp_mul_by_x.
Qed.

Lemma residue_ring_correct_witness :
  let: a := [:: 1; 2%:R; 3%:R; 0] : seq 'Z_4 in
  let: b := [:: 2%:R; 1; 1; 3%:R] : seq 'Z_4 in
  residue_class 4 (mul_ext 4 a b) = residue_class 4 a * residue_class 4 b.
Proof.
by case: (@residue_ring_correct 'Z_4 4 [:: 1; 2%:R; 3%:R; 0] [:: 2%:R; 1; 1; 3%:R]
            isT erefl erefl) => -[].
Defined.

(** ** Slices and lifts *)

Section ExtensionBits.
Variables (K d : nat) (F : fieldType).
Local Notation Z := 'Z_(2 ^ K).

Definition bit_compose_ext : G2P F d -> seq Z -> nat -> F :=
  match d return G2P F d -> seq Z -> nat -> F with
  | 3 => @bit_compose_F3 K F | 4 => @bit_compose_F4 K F | 5 => @bit_compose_F5 K F
  | 6 => @bit_compose_F6 K F | 7 => @bit_compose_F7 K F | 8 => @bit_compose_F8 K F
  | _ => fun _ _ _ => 0
  end.

Definition bit_lift_ext : G2P F d -> F -> nat -> Res string (seq Z) :=
  match d return G2P F d -> F -> nat -> Res string (seq Z) with
  | 3 => @bit_lift_F3 K F | 4 => @bit_lift_F4 K F | 5 => @bit_lift_F5 K F
  | 6 => @bit_lift_F6 K F | 7 => @bit_lift_F7 K F | 8 => @bit_lift_F8 K F
  | _ => fun _ _ _ => Panic
  end.

Definition bit_lift_from_idx_ext : G2P F d -> nat -> nat -> Res string (seq Z) :=
  match d return G2P F d -> nat -> nat -> Res string (seq Z) with
  | 3 => @bit_lift_from_idx_F3 K F | 4 => @bit_lift_from_idx_F4 K F | 5 => @bit_lift_from_idx_F5 K F
  | 6 => @bit_lift_from_idx_F6 K F | 7 => @bit_lift_from_idx_F7 K F | 8 => @bit_lift_from_idx_F8 K F
  | _ => fun _ _ _ => Panic
  end.

Definition embed_quotient_ext : G2P F d -> F -> Res string (seq Z) :=
  match d return G2P F d -> F -> Res string (seq Z) with
  | 3 => @embed_quotient_F3 K F | 4 => @embed_quotient_F4 K F | 5 => @embed_quotient_F5 K F
  | 6 => @embed_quotient_F6 K F | 7 => @embed_quotient_F7 K F | 8 => @embed_quotient_F8 K F
  | _ => fun _ _ => Panic
  end.

Definition lazy_eval_ext : seq nat -> seq (seq Z) -> Res string (seq Z) :=
  match d with
  | 3 => @lazy_eval_F3 K | 4 => @lazy_eval_F4 K | 5 => @lazy_eval_F5 K
  | 6 => @lazy_eval_F6 K | 7 => @lazy_eval_F7 K | _ => @lazy_eval_F8 K
  end.

(** The generator of the multiplicative group that the table is built from. *)
Definition generator : nat := if d == 8 then 3 else 2.

Hypothesis range_d : (3 <= d <= 8)%N.

Lemma bit_compose_extE (P : G2P F d) a i : bit_compose_ext P a i = gf_from (rp_bit_compose a i).
Proof. by move: P; rewrite /bit_compose_ext; elim/degree_ind: range_d. Qed.

Lemma bit_lift_extE (P : G2P F d) x pos : bit_lift_ext P x pos = rp_bit_lift K d (gf_byte x) pos.
Proof. by move: P; rewrite /bit_lift_ext; elim/degree_ind: range_d. Qed.

Lemma embed_quotient_extE (P : G2P F d) x :
  embed_quotient_ext P x = rp_get_from_exceptional_sequence K d (gf_byte x).
Proof. by move: P; rewrite /embed_quotient_ext; elim/degree_ind: range_d. Qed.

Lemma bit_lift_from_idx_extE (P : G2P F d) idx pos : bit_lift_from_idx_ext P idx pos =
  if (idx < 2 ^ d)%N
  then rp_bit_lift K d (gf_byte (from_generator gf_from (gf_from generator) (2 ^ d))`_idx) pos
  else Err "Unexpected index"%string.
Proof. by move: P; rewrite /bit_lift_from_idx_ext /generator; elim/degree_ind: range_d. Qed.

Lemma lazy_eval_extE cs powers : lazy_eval_ext cs powers = rp_lazy_eval d cs powers.
Proof. by rewrite /lazy_eval_ext; elim/degree_ind: range_d. Qed.
End ExtensionBits.

Section Slices.
Variables (K d : nat) (F : fieldType).
Hypothesis K_gt0 : (0 < K)%N.
Hypothesis range_d : (3 <= d <= 8)%N.
Context {P : G2P F d}.
Local Notation Z := 'Z_(2 ^ K).
Local Notation cls := (residue_class d).
Implicit Types (a b : seq Z) (x : F).

Lemma size_bit_coefs n : size (bit_coefs K d n) = d.
Proof. by rewrite size_map size_iota. Qed.

Lemma rp_bit_liftE n pos : rp_bit_lift K d n pos = Ok (rp_shl (bit_coefs K d n) pos).
Proof.
rewrite /rp_bit_lift /rp_from_vec size_map size_iota eqxx /= /rp_shl /bit_coefs -map_comp; congr Ok.
by apply: eq_map => i /=; rewrite from_u128E //; case: (bit_of n i).
Qed.

Lemma bit_compose_class a i : size a = d -> bit_compose_ext P a i = ring_bit_compose (cls a) i.
Proof. by move=> sz_a; rewrite bit_compose_extE // /ring_bit_compose classK. Qed.

Lemma bit_compose0 a : size a = d -> bit_compose_ext P a 0 = residue_of (cls a).
Proof.
by move=> sz_a; rewrite bit_compose_class // -[X in ring_bit_compose X]mul1r -[1](expr0 2%:R) ring_bit_compose_shift.
Qed.

Lemma lift_class n pos : (pos < K)%N ->
  cls (rp_shl (bit_coefs K d n) pos) = 2%:R ^+ pos * bit_element K d n.
Proof.
move=> lt_pos; rewrite -ring_shlE // -bit_coefs_class /ring_shl classK ?size_bit_coefs //.
Qed.

Lemma bit_compose_low n pos i : (pos < K)%N -> (i < pos)%N ->
  bit_compose_ext P (rp_shl (bit_coefs K d n) pos) i = 0.
Proof.
move=> lt_pos lt_i; rewrite bit_compose_class ?size_map ?size_iota // lift_class //.
rewrite -(subnKC (ltnW lt_i)) exprD -mulrA ring_bit_compose_shift // ?(ltn_trans lt_i) //.
by rewrite rmorphM rmorphXn rmorph_nat gf_two expr0n subn_eq0 leqNgt lt_i mul0r.
Qed.

Lemma slice_lift x pos : (pos < K)%N ->
  bit_lift_ext K P x pos = Ok (rp_shl (bit_coefs K d (gf_byte x)) pos)
  /\ bit_compose_ext P (rp_shl (bit_coefs K d (gf_byte x)) pos) pos = x.
Proof.
move=> lt_pos; rewrite bit_lift_extE // rp_bit_liftE // bit_compose_class ?size_map ?size_iota //.
by rewrite lift_class // ring_bit_compose_shift // residue_of_bits ?gf_byte_lt ?gf_from_byte.
Qed.

Lemma lift_inj x y pos : (pos < K)%N -> bit_lift_ext K P x pos = bit_lift_ext K P y pos -> x = y.
Proof.
move=> lt_pos; have [-> {2}<-] := slice_lift x lt_pos; have [-> {2}<-] := slice_lift y lt_pos.
by case=> ->.
Qed.
End Slices.

(** For every supported degree and every bit position of the base ring:
    lifting an element of the residue field to that position succeeds, its slice
    at the position is the element and the slices below it are zero; embedding
    it through the exceptional sequence gives a preimage of the element; and the
    slice at position zero is a ring morphism onto the residue field, for the
    addition and the multiplication of the extension. *)
Theorem slices_lifts_roundtrip (K d : nat) (F : fieldType) (P : G2P F d) (x : F) (pos : nat)
    (a b : seq 'Z_(2 ^ K)) :
  (0 < K)%N -> (3 <= d <= 8)%N -> (pos < K)%N -> size a = d -> size b = d ->
  [/\ exists2 lifted, bit_lift_ext K P x pos = Ok lifted &
        [/\ size lifted = d, bit_compose_ext P lifted pos = x
          & forall i, (i < pos)%N -> bit_compose_ext P lifted i = 0]
    , exists2 e, embed_quotient_ext K P x = Ok e & size e = d /\ bit_compose_ext P e 0 = x
    , bit_compose_ext P (rp_add d a b) 0 = bit_compose_ext P a 0 + bit_compose_ext P b 0
    & bit_compose_ext P (mul_ext d a b) 0 = bit_compose_ext P a 0 * bit_compose_ext P b 0].
Proof.
move=> K_gt0 range_d lt_pos sz_a sz_b; have lt_x := gf_byte_lt x; split.
- have [-> slice_x] := slice_lift K_gt0 range_d x lt_pos; eexists; first by []; split=> // [|i lt_i].
    by rewrite !size_map size_iota.
  exact: bit_compose_low.
- rewrite embed_quotient_extE // /rp_get_from_exceptional_sequence leqNgt lt_x /=.
  eexists; first by []; split; first by rewrite size_map size_iota.
  by rewrite bit_compose0 ?size_bit_coefs // bit_coefs_class // residue_of_bits // gf_from_byte.
- rewrite !bit_compose0 // ?size_map ?size_iota // -rmorphD; congr residue_of.
  by case: (residue_ring_laws range_d sz_a sz_b).
rewrite mul_extE // !bit_compose0 ?size_rp_mul // -rmorphM; congr residue_of.
by case: (residue_ring_laws range_d sz_a sz_b).
Qed.

Lemma slices_lifts_roundtrip_witness :
  exists2 lifted, bit_lift_ext 2 gf8 (gf_from 5) 1 = Ok lifted & bit_compose_ext gf8 lifted 1 = gf_from 5.
Proof.
have [[l eq_l [_ slice_l _]] _ _ _] :=
  @slices_lifts_roundtrip 2 3 GF8 gf8 (gf_from 5) 1 [:: 1; 2%:R; 3%:R] [:: 0; 1; 1] isT isT isT erefl erefl.
by exists l.
Defined.

(** ** Lazy evaluation *)

Section LazyEval.
Variables (K d : nat).
Hypothesis K_gt0 : (0 < K)%N.
Hypothesis range_d : (3 <= d <= 8)%N.
Local Notation Z := 'Z_(2 ^ K).
Local Notation cls := (residue_class d).

(** The evaluation that multiplies in the extension and adds the products. *)
Definition eval_reference (cs : seq nat) (powers : seq (seq Z)) : seq Z :=
  rp_sum d [seq mul_ext d (bit_coefs K d cp.1) cp.2 | cp <- zip cs powers].

Lemma lazy_eval_loop_panic cs (powers : seq (seq Z)) res : (size powers < size cs)%N ->
  lazy_eval_loop d cs powers res = Panic.
Proof. by elim: cs powers res => // c cs IHc [|p powers] res //= lt_p; rewrite IHc. Qed.

Lemma size_rp_sum (polys : seq (seq Z)) : size (rp_sum d polys) = d.
Proof.
rewrite /rp_sum; have : size (rp_zero Z d) = d by rewrite size_nseq.
by elim: polys (rp_zero Z d) => //= a polys IHp acc sz_acc; apply: IHp; rewrite size_map size_iota.
Qed.

Lemma eval_reference_class cs (powers : seq (seq Z)) : all (fun a => size a == d) powers ->
  (size cs <= size powers)%N ->
  cls (eval_reference cs powers) = \sum_(i < size cs) bit_element K d (nth 0%N cs i) * cls (nth [::] powers i).
Proof.
move=> all_d le_cs; rewrite /eval_reference /residue_class Poly_rp_sum //.
  elim: cs powers all_d {le_cs} => [|c cs IHc] [|p powers] //= /andP[/eqP sz_p /IHc->].
  by rewrite mul_extE // size_rp_mul ?size_bit_coefs ?eqxx.
rewrite big_map (big_nth (0%N, [::])) size_zip (minn_idPl le_cs) big_mkord rmorph_sum.
apply: eq_bigr => i _; rewrite nth_zip_cond size_zip (minn_idPl le_cs) ltn_ord /=.
rewrite -[LHS]/(cls _) mul_extE // residue_class_mul ?bit_coefs_class ?size_bit_coefs //.
by apply/eqP/(all_nthP [::] all_d); rewrite (leq_trans _ le_cs).
Qed.
End LazyEval.

(** Lazy evaluation, that adds up the unreduced products of the bits and
    reduces once, gives coefficient for coefficient the evaluation that
    multiplies every coefficient of the bitwise polynomial by its power in the
    extension and adds the products; and it panics exactly when there are fewer
    powers than coefficients. *)
Theorem lazy_eval_equiv (K d : nat) (cs : seq nat) (powers : seq (seq 'Z_(2 ^ K))) :
  (0 < K)%N -> (3 <= d <= 8)%N -> all (fun a => size a == d) powers ->
  lazy_eval_ext d cs powers
    = if (size cs <= size powers)%N then Ok (eval_reference d cs powers) else Panic.
Proof.
move=> K_gt0 range_d all_d; rewrite lazy_eval_extE //; case: leqP => [le_cs|lt_p]; last first.
  by rewrite /rp_lazy_eval lazy_eval_loop_panic.
have := ring_lazy_evalE K_gt0 range_d (cs := cs) (powers := [seq residue_class d a | a <- powers]).
rewrite size_map => /(_ le_cs); rewrite /ring_lazy_eval -map_comp map_id_in.
  by move=> a a_in /=; rewrite classK //; apply/eqP/(allP all_d).
have [|||res [eq_res sz_res _]] := @lazy_eval_loopE K d K_gt0 range_d cs powers (nseq (2 * d - 1) 0) => //.
  by rewrite size_nseq.
rewrite /rp_lazy_eval eq_res /= => -[eq_cls]; congr Ok; apply: (residue_class_inj range_d).
- by rewrite size_reduce_mul // sz_res; have := ext_gt0 range_d; ssrlia.
- exact: size_rp_sum.
rewrite eq_cls eval_reference_class //; apply: eq_bigr => i _.
by rewrite (nth_map [::]) // (leq_trans _ le_cs).
Qed.

Lemma lazy_eval_equiv_witness :
  let: powers := [:: [:: 1; 0; 0]; [:: 2%:R; 3%:R; 1]] : seq (seq 'Z_(2 ^ 2)) in
  lazy_eval_ext 3 [:: 5; 6] powers = Ok (eval_reference 3 [:: 5; 6] powers).
Proof.
exact (@lazy_eval_equiv 2 3 [:: 5; 6] [:: [:: 1; 0; 0]; [:: 2%:R; 3%:R; 1]] isT isT isT).
Defined.
