(* ===== verification/Generators.v ===== *)
(** * The generator tables
    (core/threshold-algebra/src/galois_fields/gf8.rs to gf256.rs, and
    [bit_lift_from_idx] of galois_rings/degree_3.rs to degree_8.rs)

    The tables [GFx_FROM_GENERATOR] list the powers of [X], or of [X + 1] in
    degree eight, and then zero.  An element of the residue field is the class of
    its coefficients over the integers modulo two, so the powers are computed
    with the operations of the extension over that ring; that they are different
    is then checked by evaluation. *)

From Stdlib Require Import String.
From mathcomp Require Import boot.
From mathcomp Require Import ssralg poly zmodp qpoly.
From S2P Require Import Prelude SsrLia PolyOps Structure Hensel Karatsuba ResiduePoly ResidueRing GaloisRing Gf8 Degrees.

Set Implicit Arguments.
Unset Strict Implicit.
Unset Printing Implicit Defensive.

Import GRing.Theory.
Local Open Scope ring_scope.

(** ** Elements of the residue field as arrays of bits *)

Section FieldBits.
Variables (F : fieldType) (d : nat).
Hypothesis range_d : (3 <= d <= 8)%N.
Context {P : G2P F d}.
Local Notation bits := (seq 'Z_(2 ^ 1)).
Implicit Types (a b : bits) (x : F).

(** The element with the given coefficients. *)
Definition element a : F := residue_of (residue_class d a).

Lemma residue_of_inj1 : injective (@residue_of 1 d F P).
Proof.
move=> p q eq_pq; apply/eqP; rewrite -subr_eq0; apply/eqP.
have [|y ->] := @residue_of_ker 1 d F isT range_d P (p - q); first by rewrite rmorphB [X in X - _]eq_pq subrr.
by rewrite -[2%:R]expr1 ring_two_nilpotent ?mul0r.
Qed.

Lemma element_inj a b : size a = d -> size b = d -> element a = element b -> a = b.
Proof. by move=> sz_a sz_b /residue_of_inj1; apply: residue_class_inj. Qed.

Lemma element_bits n : (n < 2 ^ d)%N -> element (bit_coefs 1 d n) = gf_from n.
Proof. by move=> lt_n; rewrite /element bit_coefs_class residue_of_bits. Qed.

Lemma element_add a b : size a = d -> size b = d -> element (rp_add d a b) = element a + element b.
Proof.
move=> sz_a sz_b; rewrite /element -rmorphD; congr residue_of.
by case: (residue_ring_laws range_d sz_a sz_b).
Qed.

Lemma element_mul a b : size a = d -> size b = d -> element (mul_ext d a b) = element a * element b.
Proof.
move=> sz_a sz_b; rewrite /element -rmorphM mul_extE //; congr residue_of.
by case: (residue_ring_laws range_d sz_a sz_b).
Qed.

Lemma gf_from1 : gf_from 1 = 1 :> F.
Proof.
have pow_gt1 : (1 < 2 ^ d)%N by rewrite -[1%N](expn0 2) ltn_exp2l //; case/andP: range_d => /ltnW/ltnW.
rewrite gf_from_bits // (bigD1 (Ordinal (ext_gt0 range_d))) //= big1 => [i neq_i|].
  by rewrite /bit_of divn_small ?mul0r // -[X in (X < _)%N](expn0 2) ltn_exp2l // lt0n.
by rewrite addr0 expr0 mulr1.
Qed.

Lemma gf_from3 : gf_from 3 = gf_from 2 + 1 :> F.
Proof.
have lt3 : (3 < 2 ^ d)%N by rewrite -[4%N]/(2 ^ 2)%N leq_exp2l //; case/andP: range_d => /ltnW.
have [lt1 lt2] : (1 < 2 ^ d)%N /\ (2 < 2 ^ d)%N by split; apply: ltn_trans lt3.
rewrite -gf_from1 // -!element_bits // -element_add ?size_bit_coefs //.
congr element; apply: (@eq_from_nth _ 0); rewrite !size_map size_iota // => i lt_i.
rewrite /bit_coefs !nth_map_iota lt_i; case: i lt_i => [|[|i]] //= _; rewrite ?add0r ?addr0 //.
have small n : (n < 4)%N -> (n < 2 ^ i.+2)%N by move/leq_trans; apply; rewrite -[4%N]/(2 ^ 2)%N leq_exp2l.
by rewrite /bit_of !divn_small ?addr0 ?small.
Qed.
End FieldBits.

(** ** The tables *)

(** The product of an element by the generator, on its coefficients. *)
Definition generator_step (d : nat) (a : seq 'Z_(2 ^ 1)) : seq 'Z_(2 ^ 1) :=
  if d == 8 then rp_add d (mul_by_x_ext d a) a else mul_by_x_ext d a.

(** The first [2 ^ d - 1] powers of the generator. *)
Definition generator_powers (d : nat) : seq (seq 'Z_(2 ^ 1)) :=
  traject (generator_step d) (bit_coefs 1 d 1) (2 ^ d - 1).

Lemma generator_powers_uniq d : (3 <= d <= 8)%N -> uniq (bit_coefs 1 d 0 :: generator_powers d).
Proof. by elim/degree_ind; vm_compute. Qed.

Section Tables.
Variables (F : fieldType) (d : nat).
Hypothesis range_d : (3 <= d <= 8)%N.
Context {P : G2P F d}.
Local Notation g := (gf_from (generator d) : F).
Local Notation table := (from_generator (gf_from (F := F) (d := d)) g (2 ^ d)).

Lemma size_generator_step a : size a = d -> size (generator_step d a) = d.
Proof.
move=> sz_a; rewrite /generator_step; case: ifP; first by rewrite size_map size_iota.
by rewrite mul_by_x_extE // size_rp_mul_by_x.
Qed.

Lemma element_step a : size a = d -> element (generator_step d a) = g * element a :> F.
Proof.
move=> sz_a; have sz_x : size (mul_by_x_ext d a) = d by rewrite mul_by_x_extE // size_rp_mul_by_x.
have shifted : element (mul_by_x_ext d a) = gf_from 2 * element a :> F.
  rewrite /element mul_by_x_extE // residue_class_mul_by_x // rmorphM; congr (_ * _).
  by rewrite [LHS]residue_of_class // /reduce_poly map_polyX // hornerX.
rewrite /generator_step /generator; case: ifP => // _.
by rewrite element_add // shifted gf_from3 // mulrDl mul1r.
Qed.

Lemma element_powers i : element (iter i (generator_step d) (bit_coefs 1 d 1)) = g ^+ i :> F
  /\ size (iter i (generator_step d) (bit_coefs 1 d 1)) = d.
Proof.
elim: i => [|i [IHe IHs]] /=; last by rewrite element_step // IHe exprS size_generator_step.
rewrite element_bits ?gf_from1 ?size_bit_coefs //.
by rewrite -[X in (X < _)%N](expn0 2) ltn_exp2l // (ext_gt0 range_d).
Qed.

Lemma nth_from_generator_loop (state : F) idx last n i : (i < n)%N -> (idx + i <= last)%N ->
  (from_generator_loop (gf_from (d := d)) g state idx last n)`_i
    = if (idx + i == last)%N then 0 else state * g ^+ i.
Proof.
elim: n state idx i => // n IHn state idx [|i] lt_i le_l /=.
  by rewrite addn0 gf_from0 mulr1.
have lt_l : (idx < last)%N by apply: leq_trans le_l; rewrite addnS ltnS leq_addr.
rewrite IHn ?addSnnS // (ltn_eqF lt_l) exprS mulrA //.
Qed.

Lemma nth_from_generator i : (i < 2 ^ d)%N -> table`_i = if i == (2 ^ d).-1 then 0 else g ^+ i.
Proof.
move=> lt_i; rewrite nth_from_generator_loop ?add0n ?gf_from1 ?mul1r //.
by rewrite -ltnS prednK // (leq_trans _ lt_i).
Qed.

Lemma size_from_generator : size table = (2 ^ d)%N.
Proof.
have size_loop n state idx last : size (from_generator_loop (gf_from (d := d)) g state idx last n) = n.
  by elim: n state idx => //= n IHn state idx; rewrite IHn.
exact: size_loop.
Qed.

(** The elements of the table are the classes of zero and of the powers. *)
Lemma table_elements i : (i < 2 ^ d)%N -> exists2 a, a \in bit_coefs 1 d 0 :: generator_powers d &
  table`_i = element a.
Proof.
move=> lt_i; rewrite nth_from_generator //; case: eqP => [_|/eqP neq_i].
  by exists (bit_coefs 1 d 0); rewrite ?inE ?eqxx // element_bits ?gf_from0 ?expn_gt0.
exists (iter i (generator_step d) (bit_coefs 1 d 1)); last by case: (element_powers i).
rewrite inE; apply/orP; right; apply/trajectP; exists i => //.
by rewrite subn1 ltn_neqAle neq_i -ltnS prednK ?expn_gt0.
Qed.
End Tables.

(** *** Every element of the field has one place in the table. *)

Section Complete.
Variables (F : fieldType) (d : nat).
Hypothesis range_d : (3 <= d <= 8)%N.
Context {P : G2P F d}.
Local Notation table := (from_generator (gf_from (F := F) (d := d)) (gf_from (generator d)) (2 ^ d)).

Lemma table_uniq : uniq table.
Proof.
have eq_t : table = rcons [seq element a | a <- generator_powers d] 0.
  apply: (@eq_from_nth _ 0); rewrite size_from_generator ?size_rcons ?size_map ?size_traject ?subn1.
    by rewrite prednK ?expn_gt0.
  move=> i lt_i; rewrite nth_from_generator // nth_rcons size_map size_traject subn1.
  have le_i : (i <= (2 ^ d).-1)%N by rewrite -ltnS prednK ?expn_gt0.
  move: le_i; rewrite leq_eqVlt; case: eqP => [-> _|_ /= lt_p]; first by rewrite ltnn.
  rewrite lt_p (nth_map [::]) ?size_traject ?subn1 // (set_nth_default (bit_coefs 1 d 1)) ?size_traject ?subn1 //.
  by rewrite nth_traject ?subn1 //; case: (element_powers range_d (P := P) i).
have /= /andP[notin uniq_p] := generator_powers_uniq range_d.
have size_p a : a \in generator_powers d -> size a = d.
  by case/trajectP=> i _ ->; case: (element_powers range_d (P := P) i).
rewrite eq_t rcons_uniq map_inj_in_uniq ?uniq_p ?andbT => [a b /size_p sz_a /size_p sz_b|].
  exact: element_inj.
apply/mapP=> -[a a_in]; rewrite -(gf_from0 (P := P)) -element_bits ?expn_gt0 // => eq_a.
by move/negP: notin; apply; rewrite (element_inj range_d _ _ eq_a) ?size_bit_coefs ?size_p.
Qed.

Lemma mem_table (x : F) : x \in table.
Proof.
have uniq_b : uniq [seq gf_byte y | y <- table].
  by rewrite map_inj_uniq ?table_uniq //; apply: can_inj gf_from_byte.
have [||_ eq_b] := uniq_min_size uniq_b (s2 := iota 0 (2 ^ d)).
- by move=> _ /mapP[y _ ->]; rewrite mem_iota gf_byte_lt.
- by rewrite size_map size_from_generator size_iota.
have : gf_byte x \in [seq gf_byte y | y <- table] by rewrite eq_b mem_iota gf_byte_lt.
by rewrite mem_map //; apply: can_inj gf_from_byte.
Qed.
End Complete.

(** Every element of the residue field has exactly one index in the table of
    the generator, so [bit_lift_from_idx] gives every lift of [bit_lift] at one
    index below the size of the field; and it fails at every other index. *)
Theorem generator_table_complete (K d : nat) (F : fieldType) (P : G2P F d) (x : F) (pos : nat) :
  (0 < K)%N -> (3 <= d <= 8)%N -> (pos < K)%N ->
  (exists! idx, (idx < 2 ^ d)%N /\ bit_lift_from_idx_ext K P idx pos = bit_lift_ext K P x pos)
  /\ forall idx, (2 ^ d <= idx)%N ->
       bit_lift_from_idx_ext K P idx pos = Err "Unexpected index"%string.
Proof.
move=> K_gt0 range_d lt_pos; split=> [|idx le_idx]; last first.
  by rewrite bit_lift_from_idx_extE // ltnNge le_idx.
pose table := from_generator (@gf_from F d P) (@gf_from F d P (generator d)) (2 ^ d).
have x_in : x \in table := mem_table range_d x.
have lt_i : (index x table < 2 ^ d)%N by rewrite -(size_from_generator (P := P)) index_mem.
exists (index x table); split=> [|j [lt_j]].
  by rewrite bit_lift_from_idx_extE // lt_i bit_lift_extE // nth_index.
rewrite bit_lift_from_idx_extE // lt_j -[X in gf_byte X]/(table`_j) -(bit_lift_extE K range_d P).
move/(lift_inj K_gt0 range_d lt_pos) <-.
by rewrite index_uniq ?table_uniq ?size_from_generator.
Qed.

Lemma generator_table_complete_witness :
  exists! idx, (idx < 2 ^ 3)%N /\ bit_lift_from_idx_ext 2 gf8 idx 1 = bit_lift_ext 2 gf8 (gf_from 5) 1.
Proof. exact (proj1 (@generator_table_complete 2 3 GF8 gf8 (gf_from 5) 1 isT isT isT)). Defined.
