(* ===== verification/Newton.v ===== *)
(** * Inversion and square-root style equations by Newton iteration
    (core/threshold-algebra/src/galois_rings/common.rs, [Invert] and [Solve];
    degree_3.rs to degree_8.rs, [Solve1]; galois_fields/gf16.rs, gf64.rs and
    gf256.rs, the [NEWTON_INNER_LOOP] tables)

    [invert] lifts the inverse of the residue and refines it; [solve] finds [x]
    with [x + x^2 = v] by lifting a solution in the residue field.  Both are
    stated on arrays of coefficients, with the multiplication of the extension.
    The division of the residue field is g2p's: an argument, that is only known
    to divide by a nonzero element. *)

From Stdlib Require Import String.
From mathcomp Require Import boot.
From mathcomp Require Import ssralg poly polydiv zmodp qpoly ring_tactic.
From S2P Require Import Prelude SsrLia PolyOps Structure Hensel Karatsuba ResiduePoly ResidueRing GaloisRing Gf8 Degrees Generators.

Set Implicit Arguments.
Unset Strict Implicit.
Unset Printing Implicit Defensive.

Import GRing.Theory.
Local Open Scope ring_scope.

(** ** Solving over the residue field *)

Section Solve1.
Variables (K : nat) (F : fieldType).
Local Notation Z := 'Z_(2 ^ K).
Implicit Types (v : seq Z).

Definition GF16_NEWTON_INNER_LOOP : seq nat := [:: 8; 5; 11].
Definition GF64_NEWTON_INNER_LOOP : seq nat := [:: 33; 17; 45; 2; 36].
Definition GF256_NEWTON_INNER_LOOP : seq nat := [:: 43; 3; 47; 19; 52; 77; 208].

Definition solve_1_F3 {P : G2P F 3} v : Res string (seq Z) :=
  let v := bit_compose_F3 v 0 in
  let v_squared := v * v in
  let v_pow_4 := v_squared * v_squared in
  let res := v + v_pow_4 in
  rp_get_from_exceptional_sequence K 3 (gf_byte res).

Definition solve_1_F4 {P : G2P F 4} v : Res string (seq Z) :=
  let res := gf_from 0 in
  let v := bit_compose_F4 v 0 in
  let v_powers := two_powers v 3 in
  let res := foldl (fun res i => res + gf_from (nth 0%N GF16_NEWTON_INNER_LOOP i) * v_powers`_i) res (iota 0 3) in
  rp_get_from_exceptional_sequence K 4 (gf_byte res).

Definition solve_1_F5 {P : G2P F 5} v : Res string (seq Z) :=
  let v := bit_compose_F5 v 0 in
  let v_squared := v * v in
  let v_pow_4 := v_squared * v_squared in
  let v_pow_8 := v_pow_4 * v_pow_4 in
  let v_pow_16 := v_pow_8 * v_pow_8 in
  let res := v + v_pow_4 + v_pow_16 in
  rp_get_from_exceptional_sequence K 5 (gf_byte res).

Definition solve_1_F6 {P : G2P F 6} v : Res string (seq Z) :=
  let res := gf_from 0 in
  let v := bit_compose_F6 v 0 in
  let v_powers := two_powers v 5 in
  let res := foldl (fun res i => res + gf_from (nth 0%N GF64_NEWTON_INNER_LOOP i) * v_powers`_i) res (iota 0 5) in
  rp_get_from_exceptional_sequence K 6 (gf_byte res).

Definition solve_1_F7 {P : G2P F 7} v : Res string (seq Z) :=
  let v := bit_compose_F7 v 0 in
  let v_squared := v * v in
  let v_pow_4 := v_squared * v_squared in
  let v_pow_8 := v_pow_4 * v_pow_4 in
  let v_pow_16 := v_pow_8 * v_pow_8 in
  let v_pow_32 := v_pow_16 * v_pow_16 in
  let v_pow_64 := v_pow_32 * v_pow_32 in
  let res := v + v_pow_4 + v_pow_16 + v_pow_64 in
  rp_get_from_exceptional_sequence K 7 (gf_byte res).

Definition solve_1_F8 {P : G2P F 8} v : Res string (seq Z) :=
  let res := gf_from 0 in
  let v := bit_compose_F8 v 0 in
  let v_powers := two_powers v 7 in
  let res := foldl (fun res i => res + gf_from (nth 0%N GF256_NEWTON_INNER_LOOP i) * v_powers`_i) res (iota 0 7) in
  rp_get_from_exceptional_sequence K 8 (gf_byte res).

Definition solve_1_ext (d : nat) : G2P F d -> seq Z -> Res string (seq Z) :=
  match d return G2P F d -> seq Z -> Res string (seq Z) with
  | 3 => @solve_1_F3 | 4 => @solve_1_F4 | 5 => @solve_1_F5
  | 6 => @solve_1_F6 | 7 => @solve_1_F7 | 8 => @solve_1_F8
  | _ => fun _ _ => Panic
  end.
End Solve1.

(** ** Inversion and solving over the extension *)

Section Newton.
Variables (K d : nat) (F : fieldType).
Context {P : G2P F d}.
Local Notation Z := 'Z_(2 ^ K).
Local Notation mul := (mul_ext d).
Local Notation one := (rp_one Z d).
Local Notation two := (rp_two Z d).
Implicit Types (a v : seq Z).

(** [Div] of the residue field. *)
Variable gf_div : F -> F -> Res string F.

(** [x0 *= Self::TWO - self * x0]. *)
Definition invert_step a x0 : seq Z := mul x0 (rp_sub d two (mul a x0)).

(** The debug assertion at the end stops only a build that has them. *)
Definition rp_invert (debug_assertions : bool) a : Res string (seq Z) :=
  if a == rp_zero Z d then Err "Cannot invert 0"%string
  else
    let alpha_k := bit_compose_ext P a 0 in
    let* ainv := gf_div 1 alpha_k in
    let* x0 := embed_quotient_ext K P ainv in
    let x0 := iter (trunc_log 2 K) (invert_step a) x0 in
    if debug_assertions && (mul x0 a != one) then Panic else Ok x0.

(** One round of the outer loop of [solve]. *)
Definition solve_step v (xy : seq Z * seq Z) : seq Z * seq Z :=
  let (x, y) := xy in
  let z := rp_add d one (mul two x) in
  let y := mul y (rp_sub d two (mul z y)) in
  let y := mul y (rp_sub d two (mul z y)) in
  (mul (rp_add d (mul x x) v) y, y).

(** The assertions compare the width with its power of two and the bytes of the
    largest element with those of the two base rings. *)
Definition rp_solve v : Res string (seq Z) :=
  if (2 ^ trunc_log 2 K != K)%N || ((K != 64) && (K != 128)) then Panic
  else
    let* x := solve_1_ext P v in
    let x := (iter (trunc_log 2 K) (solve_step v) (x, one)).1 in
    if v != rp_add d x (mul x x)
    then Err "The outer Newton Raphson inversion computation in solve() failed"%string
    else Ok x.
End Newton.

(** ** Newton iteration in a ring *)

Section Algebra.
Variable R : comNzRingType.
Implicit Types (q x y v e : R).

(** The multiples of [2 ^ n]. *)
Definition pow2_dvd (n : nat) q : Prop := exists y, q = 2%:R ^+ n * y.

Lemma pow2_dvd0 q : pow2_dvd 0 q.
Proof. by exists q; rewrite mul1r. Qed.

Lemma pow2_dvdD n p q : pow2_dvd n p -> pow2_dvd n q -> pow2_dvd n (p + q).
Proof. by move=> [x ->] [y ->]; exists (x + y); rewrite mulrDr. Qed.

Lemma pow2_dvdM m n p q : pow2_dvd m p -> pow2_dvd n q -> pow2_dvd (m + n) (p * q).
Proof. by move=> [x ->] [y ->]; exists (x * y); rewrite exprD mulrACA. Qed.

Lemma pow2_dvdMr n p q : pow2_dvd n p -> pow2_dvd n (p * q).
Proof. by move=> [x ->]; exists (x * q); rewrite mulrA. Qed.

Lemma pow2_dvdMl n p q : pow2_dvd n q -> pow2_dvd n (p * q).
Proof. by rewrite mulrC; apply: pow2_dvdMr. Qed.

Lemma pow2_dvd_le m n q : (m <= n)%N -> pow2_dvd n q -> pow2_dvd m q.
Proof. by move=> /subnK<- [y ->]; exists (2%:R ^+ (n - m) * y); rewrite mulrA -exprD addnC. Qed.

Lemma pow2_dvdX m n q : pow2_dvd m q -> pow2_dvd (m * n) (q ^+ n).
Proof. by move=> [y ->]; exists (y ^+ n); rewrite exprMn -exprM. Qed.

(** The error of the inverse is squared. *)
Lemma invert_error q x : 1 - q * (x * (2%:R - q * x)) = (1 - q * x) ^+ 2.
Proof. by rewrite expr2; ring. Qed.

Lemma invert_errors q x n :
  1 - q * iter n (fun x => x * (2%:R - q * x)) x = (1 - q * x) ^+ (2 ^ n).
Proof. by elim: n => [|n IHn] /=; rewrite ?expr1 // invert_error IHn -exprM expnSr. Qed.

(** [x^2 + x - v] after a round of [solve], for the error [1 - z y] of the inverse
    of [z = 1 + 2 x]. *)
Lemma solve_residual x y v :
  (1 + 2%:R * x) ^+ 2 * (((x * x + v) * y) ^+ 2 + (x * x + v) * y - v)
  = (x ^+ 2 + x - v) ^+ 2
    + (1 - (1 + 2%:R * x) * y)
      * ((x * x + v) ^+ 2 * (1 - (1 + 2%:R * x) * y) - 2%:R * (x * x + v) ^+ 2
         - (x * x + v) * (1 + 2%:R * x)).
Proof. by rewrite !expr2; ring. Qed.

Lemma solve_move x y v :
  (1 + 2%:R * x) * ((x * x + v) * y - x)
  = - (x ^+ 2 + x - v) - (x * x + v) * (1 - (1 + 2%:R * x) * y).
Proof. by rewrite expr2; ring. Qed.

Lemma pow2_dvdN n q : pow2_dvd n q -> pow2_dvd n (- q).
Proof. by move=> [y ->]; exists (- y); rewrite mulrN. Qed.

(** A round of [solve] in the ring. *)
Definition solve_round v (xy : R * R) : R * R :=
  let (x, y) := xy in
  let z := 1 + 2%:R * x in
  let y := y * (2%:R - z * y) in
  let y := y * (2%:R - z * y) in
  ((x * x + v) * y, y).

Hypothesis odd_unit : forall x, exists c, (1 + 2%:R * x) * c = 1.

(** What holds before the round [k]. *)
Definition solve_inv v (k : nat) (xy : R * R) : Prop :=
  pow2_dvd (2 ^ k) (xy.1 ^+ 2 + xy.1 - v)
  /\ exists2 b, (2 ^ k <= 2 * b)%N & pow2_dvd b (1 - (1 + 2%:R * xy.1) * xy.2).

Lemma solve_round_inv v k xy : solve_inv v k xy -> solve_inv v k.+1 (solve_round v xy).
Proof.
case: xy => x y [/= dvd_f [b le_b dvd_e]]; have [c eq_c] := odd_unit x.
set y2 := _ * (2%:R - _ * (_ * _)); set x' := _ * y2.
have dvd_e2 : pow2_dvd (2 ^ k.+1) (1 - (1 + 2%:R * x) * y2).
  apply: (@pow2_dvd_le _ (b * 2 * 2)); first by rewrite expnS; move: le_b; ssrlia.
  by rewrite /y2 !invert_error; do 2!apply: pow2_dvdX.
have le_k : (2 ^ k <= 2 ^ k.+1)%N by rewrite leq_exp2l.
have dvd_move : pow2_dvd (2 ^ k) (x' - x).
  rewrite -[x' - x]mul1r -eq_c mulrAC solve_move; apply: pow2_dvdMr; apply: pow2_dvdD.
    exact: pow2_dvdN.
  by apply: pow2_dvdN; apply: pow2_dvdMl; apply: pow2_dvd_le dvd_e2.
split=> /=.
  rewrite -[X in pow2_dvd _ X]mul1r -(expr1n _ 2) -eq_c exprMn mulrAC solve_residual.
  apply: pow2_dvdMr; apply: pow2_dvdD; last exact: pow2_dvdMr.
  by rewrite expnSr; apply: pow2_dvdX.
exists (2 ^ k)%N; first by rewrite expnS.
have -> : 1 - (1 + 2%:R * x') * y2 = 1 - (1 + 2%:R * x) * y2 - (x' - x) * (2%:R * y2) by ring.
by apply: pow2_dvdD; [apply: pow2_dvd_le dvd_e2 | apply: pow2_dvdN; apply: pow2_dvdMr].
Qed.

Lemma solve_rounds v x n : pow2_dvd 1 (x ^+ 2 + x - v) -> solve_inv v n (iter n (solve_round v) (x, 1)).
Proof.
move=> dvd_f; elim: n => [|n IHn] /=; last exact: solve_round_inv.
by split=> //=; exists 1%N => //; exists (- x); rewrite expr1 mulr1 mulrN opprD addrA subrr add0r.
Qed.
End Algebra.

(** ** The arrays and their classes *)

Section Classes.
Variables (K d : nat).
Hypothesis range_d : (3 <= d <= 8)%N.
Local Notation Z := 'Z_(2 ^ K).
Local Notation cls := (residue_class d).
Implicit Types (a b v : seq Z).

Lemma size_ext_ops a b : size a = d -> size b = d ->
  [/\ size (rp_add d a b) = d, size (rp_sub d a b) = d & size (mul_ext d a b) = d].
Proof. by move=> sz_a sz_b; rewrite !size_map size_iota mul_extE // size_rp_mul. Qed.

Lemma class_ops a b : size a = d -> size b = d ->
  [/\ cls (rp_add d a b) = cls a + cls b, cls (rp_sub d a b) = cls a - cls b
    & cls (mul_ext d a b) = cls a * cls b].
Proof. by move=> sz_a sz_b; rewrite mul_extE //; case: (residue_ring_laws range_d sz_a sz_b). Qed.

Lemma size_scalar (x : Z) : size (rp_from_scalar d x) = d.
Proof. by rewrite size_set_nth size_nseq; apply/maxn_idPr; apply: ext_gt0. Qed.

Lemma class_scalar n : cls (rp_from_scalar d (n%:R : Z)) = n%:R.
Proof. by rewrite /residue_class Poly_rp_from_scalar // polyC_natr rmorph_nat. Qed.

Lemma class_one : cls (rp_one Z d) = 1.
Proof. exact: (class_scalar 1). Qed.

Lemma invert_step_class a x : size a = d -> size x = d ->
  size (invert_step d a x) = d /\ cls (invert_step d a x) = cls x * (2%:R - cls a * cls x).
Proof.
move=> sz_a sz_x; have [_ _ sz_ax] := size_ext_ops sz_a sz_x; have [_ _ eq_ax] := class_ops sz_a sz_x.
have [_ sz_s _] := size_ext_ops (size_scalar 2%:R) sz_ax; have [_ eq_s _] := class_ops (size_scalar 2%:R) sz_ax.
have [_ _ ->] := class_ops sz_x sz_s; have [_ _ ->] := size_ext_ops sz_x sz_s.
by rewrite eq_s eq_ax class_scalar.
Qed.

Lemma invert_steps_class a x n : size a = d -> size x = d ->
  size (iter n (invert_step d a) x) = d
  /\ cls (iter n (invert_step d a) x) = iter n (fun y => y * (2%:R - cls a * y)) (cls x).
Proof.
move=> sz_a sz_x; elim: n => //= n [IHs <-]; exact: invert_step_class.
Qed.

Lemma solve_step_class v x y : size v = d -> size x = d -> size y = d ->
  let: (x', y') := solve_step d v (x, y) in
  [/\ size x' = d, size y' = d & (cls x', cls y') = solve_round (cls v) (cls x, cls y)].
Proof.
move=> sz_v sz_x sz_y; have sz_2 := size_scalar (2%:R : Z); have sz_1 := size_scalar (1 : Z).
have [_ _ sz_2x] := size_ext_ops sz_2 sz_x; have [sz_z _ _] := size_ext_ops sz_1 sz_2x.
have [_ _ sz_xx] := size_ext_ops sz_x sz_x; have [sz_s _ _] := size_ext_ops sz_xx sz_v.
have eq_z : cls (rp_add d (rp_one Z d) (mul_ext d (rp_two Z d) x)) = 1 + 2%:R * cls x.
  have [-> _ _] := class_ops sz_1 sz_2x; have [_ _ ->] := class_ops sz_2 sz_x.
  by rewrite class_one class_scalar.
have eq_s : cls (rp_add d (mul_ext d x x) v) = cls x * cls x + cls v.
  by have [-> _ _] := class_ops sz_xx sz_v; have [_ _ ->] := class_ops sz_x sz_x.
have [sz_y1 eq_y1] := invert_step_class sz_z sz_y; have [sz_y2 eq_y2] := invert_step_class sz_z sz_y1.
have [_ _ sz_x'] := size_ext_ops sz_s sz_y2; have [_ _ eq_x'] := class_ops sz_s sz_y2.
rewrite /solve_step /solve_round -eq_z -eq_y1 -eq_y2 -eq_s -eq_x'.
by split.
Qed.
End Classes.

(** ** Inversion *)

Section Invert.
Variables (K d : nat) (F : fieldType).
Hypothesis K_gt0 : (0 < K)%N.
Hypothesis range_d : (3 <= d <= 8)%N.
Context {P : G2P F d}.
Local Notation Z := 'Z_(2 ^ K).
Local Notation cls := (residue_class d).
Implicit Types (a b v : seq Z).

Lemma embed_quotient_ok x : embed_quotient_ext K P x = Ok (bit_coefs K d (gf_byte x)).
Proof. by rewrite embed_quotient_extE // /rp_get_from_exceptional_sequence leqNgt gf_byte_lt. Qed.

Lemma residue_bit_coefs n : (n < 2 ^ d)%N -> residue_of (cls (bit_coefs K d n)) = gf_from n :> F.
Proof. by move=> lt_n; rewrite bit_coefs_class residue_of_bits. Qed.

Lemma residue_embedded x : residue_of (cls (bit_coefs K d (gf_byte x))) = x.
Proof. by rewrite residue_bit_coefs ?gf_byte_lt ?gf_from_byte. Qed.

(** The iterations reach the inverse. *)
Lemma invert_reaches a x : (2 ^ trunc_log 2 K = K)%N -> size a = d -> size x = d ->
  residue_of (cls a) * residue_of (cls x) = 1 :> F ->
  mul_ext d (iter (trunc_log 2 K) (invert_step d a) x) a = rp_one Z d.
Proof.
move=> pow_K sz_a sz_x res1; have [sz_n eq_n] := invert_steps_class range_d (trunc_log 2 K) sz_a sz_x.
have [_ _ sz_m] := size_ext_ops range_d sz_n sz_a; have [_ _ eq_m] := class_ops range_d sz_n sz_a.
apply: (residue_class_inj range_d sz_m (size_scalar range_d _)); rewrite eq_m eq_n class_one //.
apply/esym/eqP; rewrite -subr_eq0 mulrC invert_errors pow_K.
have [y ->] : exists y, 1 - cls a * cls x = 2%:R * y.
  by apply: (residue_of_ker K_gt0 range_d (P := P)); rewrite rmorphB rmorphM rmorph1 res1 subrr.
by rewrite exprMn ring_two_nilpotent // mul0r.
Qed.

Lemma invert_residue a b : size a = d -> size b = d -> mul_ext d b a = rp_one Z d ->
  bit_compose_ext P a 0 != 0.
Proof.
move=> sz_a sz_b eq1; rewrite bit_compose0 //; apply/eqP => res0.
have : residue_of (cls b * cls a) = 0 :> F by rewrite rmorphM [X in _ * X]res0 mulr0.
have [_ _ <-] := class_ops range_d sz_b sz_a; rewrite eq1 class_one //.
by rewrite residue_of1 // => /eqP; rewrite oner_eq0.
Qed.

Lemma rp_invert_ok (gf_div : F -> F -> Res string F) debug_assertions a : (2 ^ trunc_log 2 K = K)%N ->
  (forall x y : F, y != 0 -> gf_div x y = Ok (x / y)) -> size a = d -> bit_compose_ext P a 0 != 0 ->
  exists2 b, rp_invert gf_div debug_assertions a = Ok b & size b = d /\ mul_ext d b a = rp_one Z d.
Proof.
move=> pow_K div_ok sz_a neq0; rewrite /rp_invert; case: eqP => [a0|_].
  by move: neq0; rewrite a0 bit_compose0 ?size_nseq // /residue_class Poly_nseq0 rmorph0 residue_of0 ?eqxx.
set x0 := bit_coefs K d (gf_byte (1 / bit_compose_ext P a 0)); have sz_x : size x0 = d := size_bit_coefs K d _.
have eq1 : mul_ext d (iter (trunc_log 2 K) (invert_step d a) x0) a = rp_one _ d.
  apply: invert_reaches => //.
  by rewrite [X in _ * X]residue_embedded // -bit_compose0 // div1r mulfV.
rewrite div_ok //= embed_quotient_ok //= eq1 eqxx andbF; eexists; [reflexivity | split=> //].
by have [] := invert_steps_class range_d (trunc_log 2 K) sz_a sz_x.
Qed.
End Invert.

(** C34. When the width of the base ring is a power of two, [invert] returns, with
    and without debug assertions, the inverse of every element whose residue is
    nonzero, and refuses zero with an error.  For another element, which has no
    inverse, it depends on the division of the residue field by zero: when that
    returns a value, the final assertion panics in a build with debug assertions, and
    a build without them returns as a success a value that is not an inverse. *)
Theorem invert_correct (K d : nat) (F : fieldType) (P : G2P F d)
    (gf_div : F -> F -> Res string F) (debug_assertions : bool) (a : seq 'Z_(2 ^ K)) :
  (2 ^ trunc_log 2 K = K)%N -> (3 <= d <= 8)%N ->
  (forall x y : F, y != 0 -> gf_div x y = Ok (x / y)) -> size a = d ->
  [/\ bit_compose_ext P a 0 != 0 ->
       exists2 b, rp_invert gf_div debug_assertions a = Ok b & size b = d /\ mul_ext d b a = rp_one _ d
    , a = rp_zero _ d -> rp_invert gf_div debug_assertions a = Err "Cannot invert 0"%string
    & a != rp_zero _ d -> bit_compose_ext P a 0 = 0 -> forall x, gf_div 1 0 = Ok x ->
        (forall c, size c = d -> mul_ext d c a <> rp_one _ d) /\
        if debug_assertions then rp_invert gf_div debug_assertions a = Panic
        else exists2 b, rp_invert gf_div debug_assertions a = Ok b & size b = d].
Proof.
move=> pow_K range_d div_ok sz_a; have K_gt0 : (0 < K)%N by rewrite -pow_K expn_gt0.
split=> [neq0|->|neq0 res0 x eq_x]; first exact: rp_invert_ok.
  by rewrite /rp_invert eqxx.
have no_inv c : size c = d -> mul_ext d c a <> rp_one _ d.
  by move=> sz_c eq1; have := invert_residue K_gt0 range_d sz_a sz_c eq1 (P := P); rewrite res0 eqxx.
split=> //; rewrite /rp_invert (negbTE neq0) res0 eq_x /= embed_quotient_ok //=.
have [sz_b _] := invert_steps_class range_d (trunc_log 2 K) sz_a (size_bit_coefs K d (gf_byte x)).
by case: debug_assertions => /=; [rewrite ifT //; apply/eqP; apply: no_inv | eexists; [reflexivity | ]].
Qed.

(** ** Solutions in the residue field *)

(** [solve_1] computes a sum of multiples of the powers [v ^ (2 ^ i)]. *)
Definition solve_coefs (d : nat) : seq nat :=
  match d with
  | 3 => [:: 1; 0; 1] | 4 => GF16_NEWTON_INNER_LOOP | 5 => [:: 1; 0; 1; 0; 1]
  | 6 => GF64_NEWTON_INNER_LOOP | 7 => [:: 1; 0; 1; 0; 1; 0; 1] | _ => GF256_NEWTON_INNER_LOOP
  end%N.

(** The same sum on the coefficients of the elements, to be evaluated. *)
Fixpoint linear_sum_bits (d : nat) (cs : seq nat) (p : seq 'Z_(2 ^ 1)) : seq 'Z_(2 ^ 1) :=
  if cs is c :: cs' then rp_add d (mul_ext d (bit_coefs 1 d c) p) (linear_sum_bits d cs' (mul_ext d p p))
  else rp_zero _ d.

Definition solve_check (d n : nat) : bool :=
  let w := bit_coefs 1 d n in
  let v := rp_add d w (mul_ext d w w) in
  let r := linear_sum_bits d (solve_coefs d) v in
  rp_add d r (mul_ext d r r) == v.

Lemma solve_checked d : (3 <= d <= 8)%N -> all (solve_check d) (iota 0 (2 ^ d)).
Proof. by elim/degree_ind; vm_compute. Qed.

Section SolveField.
Variables (F : fieldType) (d : nat).
Hypothesis range_d : (3 <= d <= 8)%N.
Context {P : G2P F d}.

Fixpoint linear_sum (cs : seq nat) (p : F) : F :=
  if cs is c :: cs' then gf_from c * p + linear_sum cs' (p * p) else 0.

Lemma element_linear_sum cs p : all (gtn (2 ^ d)) cs -> size p = d ->
  size (linear_sum_bits d cs p) = d /\ element (linear_sum_bits d cs p) = linear_sum cs (element p).
Proof.
elim: cs p => [|c cs IHc] p /=.
  by rewrite size_nseq /element /residue_class Poly_nseq0 rmorph0 residue_of0.
move=> /andP[lt_c lt_cs] sz_p; have sz_c := size_bit_coefs 1 d c.
have [_ _ sz_pp] := size_ext_ops range_d sz_p sz_p; have [_ _ sz_cp] := size_ext_ops range_d sz_c sz_p.
have [sz_l eq_l] := IHc _ lt_cs sz_pp; have [-> _ _] := size_ext_ops range_d sz_cp sz_l.
by rewrite element_add // eq_l !element_mul // element_bits.
Qed.

Lemma solve_coefs_lt : all (gtn (2 ^ d)) (solve_coefs d).
Proof. by elim/degree_ind: range_d. Qed.

(** When [v] is [w + w^2] the sum solves [r + r^2 = v]. *)
Lemma linear_sum_solves (w v : F) : v = w + w * w ->
  linear_sum (solve_coefs d) v + linear_sum (solve_coefs d) v * linear_sum (solve_coefs d) v = v.
Proof.
move=> ->; set n := @gf_byte F d P w.
have -> : w = element (bit_coefs 1 d n) by rewrite element_bits ?gf_byte_lt ?gf_from_byte.
have sz_w := size_bit_coefs 1 d n; have [_ _ sz_ww] := size_ext_ops range_d sz_w sz_w.
have [sz_v _ _] := size_ext_ops range_d sz_w sz_ww.
rewrite -element_mul // -element_add //.
have [sz_r <-] := element_linear_sum solve_coefs_lt sz_v.
have [_ _ sz_rr] := size_ext_ops range_d sz_r sz_r; rewrite -element_mul // -element_add //.
by have /allP/(_ n) := solve_checked range_d; rewrite mem_iota gf_byte_lt => /(_ isT)/eqP->.
Qed.
End SolveField.

(** ** Solving *)

Section Solve.
Variables (K d : nat) (F : fieldType).
Hypothesis K_gt0 : (0 < K)%N.
Hypothesis range_d : (3 <= d <= 8)%N.
Context {P : G2P F d}.
Local Notation Z := 'Z_(2 ^ K).
Local Notation cls := (residue_class d).
Implicit Types (a b v w x : seq Z).

(** The initial value, whose residue is the sum. *)
Definition solve_start v : seq Z :=
  bit_coefs K d (gf_byte (linear_sum (P := P) (solve_coefs d) (bit_compose_ext P v 0))).

Lemma solve_1_extE v : solve_1_ext P v = Ok (solve_start v).
Proof.
rewrite /solve_start -embed_quotient_ok //; move: P; rewrite /solve_1_ext; elim/degree_ind: range_d => Q;
  rewrite /= /embed_quotient_ext /bit_compose_ext; congr (rp_get_from_exceptional_sequence _ _ (gf_byte _)) => /=;
  by rewrite ?gf_from0 ?gf_from1 ?add0r ?addr0 ?mul0r ?mul1r ?addr0 ?add0r ?addrA.
Qed.

Lemma solve_steps_class v x y n : size v = d -> size x = d -> size y = d ->
  let: r := iter n (solve_step d v) (x, y) in
  [/\ size r.1 = d, size r.2 = d & (cls r.1, cls r.2) = iter n (solve_round (cls v)) (cls x, cls y)].
Proof.
move=> sz_v sz_x sz_y; elim: n => //= n; case: (iter n _ _) => x' y' /= [sz_x' sz_y' <-].
by have := solve_step_class range_d sz_v sz_x' sz_y'; case: (solve_step d v (x', y')).
Qed.

Lemma odd_class_unit (q : {poly %/ Poly (modulus Z d)}) : exists c, (1 + 2%:R * q) * c = 1.
Proof.
apply: (residue_unit K_gt0 range_d (P := P)); rewrite rmorphD rmorphM rmorph_nat gf_two mul0r addr0.
by rewrite [X in X != 0]residue_of1 ?oner_neq0.
Qed.

(** The rounds reach a solution from one in the residue field. *)
Lemma solve_reaches v x : (2 ^ trunc_log 2 K = K)%N -> size v = d -> size x = d ->
  residue_of (cls x) + residue_of (cls x) * residue_of (cls x) = residue_of (cls v) :> F ->
  let: r := (iter (trunc_log 2 K) (solve_step d v) (x, rp_one Z d)).1 in
  size r = d /\ rp_add d r (mul_ext d r r) = v.
Proof.
move=> pow_K sz_v sz_x res_v; set r := (iter _ _ _).1.
have [sz_r _ eq_r] := solve_steps_class (trunc_log 2 K) sz_v sz_x (size_scalar range_d 1).
have [_ _ sz_rr] := size_ext_ops range_d sz_r sz_r; have [sz_s _ _] := size_ext_ops range_d sz_r sz_rr.
split=> //; apply: (residue_class_inj range_d sz_s sz_v).
have [-> _ _] := class_ops range_d sz_r sz_rr; have [_ _ ->] := class_ops range_d sz_r sz_r.
have [|/=] := @solve_rounds _ odd_class_unit (cls v) (cls x) (trunc_log 2 K).
  have [|y eq_y] := residue_of_ker K_gt0 range_d (P := P) (q := cls x ^+ 2 + cls x - cls v).
    by rewrite rmorphB rmorphD rmorphXn expr2 [X in X - _]addrC res_v subrr.
  by exists y; rewrite eq_y expr1.
rewrite class_one // in eq_r; move=> [y]; rewrite -eq_r /= pow_K ring_two_nilpotent // mul0r => /eqP.
by rewrite subr_eq0 expr2 addrC => /eqP.
Qed.

Hypothesis width : K = 64%N \/ K = 128%N.

Lemma solve_asserts : ((2 ^ trunc_log 2 K != K)%N || ((K != 64) && (K != 128))) = false.
Proof. by case: width => ->. Qed.

Lemma rp_solve_ok v : size v = d -> (exists r : F, r + r * r = bit_compose_ext P v 0) ->
  exists2 x, rp_solve (P := P) v = Ok x & size x = d /\ rp_add d x (mul_ext d x x) = v.
Proof.
move=> sz_v [r eq_r]; rewrite /rp_solve solve_asserts solve_1_extE //=; set x0 := solve_start v.
have pow_K : (2 ^ trunc_log 2 K)%N = K by case: width => ->.
have [||sz_x eq_x] := solve_reaches pow_K sz_v (x := x0).
- exact: size_bit_coefs.
- by rewrite residue_embedded // (linear_sum_solves range_d (esym eq_r)) bit_compose0.
by rewrite eq_x eqxx; eexists; first reflexivity.
Qed.
End Solve.

(** Over a base ring of 64 or 128 bits, [solve] returns an [x] with
    [x + x^2 = v] whenever that equation has a solution in the residue field, and
    the error of its final check when it has none. *)
Theorem solve_correct (K d : nat) (F : fieldType) (P : G2P F d) (v : seq 'Z_(2 ^ K)) :
  K = 64%N \/ K = 128%N -> (3 <= d <= 8)%N -> size v = d ->
  let: solvable := exists r : F, r + r * r = bit_compose_ext P v 0 in
  (solvable -> exists2 x, rp_solve (P := P) v = Ok x & size x = d /\ rp_add d x (mul_ext d x x) = v)
  /\ (~ solvable ->
     rp_solve (P := P) v = Err "The outer Newton Raphson inversion computation in solve() failed"%string).
Proof.
move=> width range_d sz_v.
have K_gt0 : (0 < K)%N by case: width => ->.
split=> [|not_s]; first exact: rp_solve_ok.
rewrite /rp_solve solve_asserts // solve_1_extE //=; set x0 := solve_start v.
have sz_0 : size x0 = d := size_bit_coefs K d _.
case: eqP => // eq_v; case: not_s.
have [sz_x _ _] := solve_steps_class range_d (trunc_log 2 K) sz_v sz_0 (size_scalar range_d 1).
move: sz_x eq_v; set x := (iter _ _ _).1 => sz_x eq_v; have [_ _ sz_xx] := size_ext_ops range_d sz_x sz_x.
exists (bit_compose_ext P x 0).
transitivity (bit_compose_ext P (rp_add d x (mul_ext d x x)) 0); last by rewrite -eq_v.
have [sz_s _ _] := size_ext_ops range_d sz_x sz_xx; rewrite !bit_compose0 //.
have [-> _ _] := class_ops range_d sz_x sz_xx; have [_ _ ->] := class_ops range_d sz_x sz_x.
by rewrite [RHS]rmorphD rmorphM.
Qed.

Lemma invert_correct_witness :
  exists2 b, rp_invert (P := gf8) (fun x y => Ok (x / y)) true (rp_one 'Z_(2 ^ 64) 3) = Ok b &
    size b = 3 /\ mul_ext 3 b (rp_one _ 3) = rp_one _ 3.
Proof.
have [inv_ok _ _] := @invert_correct 64 3 GF8 gf8 (fun x y => Ok (x / y)) true (rp_one _ 3) erefl isT
  (fun _ _ _ => erefl) erefl.
by apply: inv_ok; rewrite bit_compose0 // class_one // residue_of1 // oner_neq0.
Defined.

Lemma solve_correct_witness :
  exists2 x, rp_solve (P := gf8) (rp_zero 'Z_(2 ^ 64) 3) = Ok x &
    size x = 3 /\ rp_add 3 x (mul_ext 3 x x) = rp_zero _ 3.
Proof.
have [sol_ok _] := @solve_correct 64 3 GF8 gf8 (rp_zero _ 3) (or_introl erefl) isT erefl.
apply: sol_ok; exists 0; rewrite bit_compose0 // mulr0 addr0 /residue_class Poly_nseq0.
by rewrite rmorph0 residue_of0.
Defined.
