(* ===== verification/Open.v ===== *)
(** * Robust opening (core/threshold-execution/src/sharing/open.rs)

    A party opens a batch of secrets: it sends its shares, seeds each sharing
    with its own share, and collects the answers of the other parties one at a
    time.  An answer is a list of values, a malformed message, a timeout, or a
    receive job that failed; the last three are counted as bots.  As soon as
    enough parties were heard from, it tries to reconstruct the whole batch,
    again on every new share, and stops with the first success.

    The order in which the jobs finish is the list of events that the loop
    consumes, so the theorems hold for every order of arrival. *)

From Stdlib Require Import String.
From mathcomp Require Import boot.
From mathcomp Require Import ssralg poly zmodp.
From S2P Require Import Prelude SsrLia Role PolyOps Structure Lagrange Gao Matrix Shamir.
From S2P Require Import ErrorCorrection.

Set Implicit Arguments.
Unset Strict Implicit.
Unset Printing Implicit Defensive.

Import GRing.Theory.
Local Open Scope ring_scope.

(** core/threshold-types/src/network.rs *)
Inductive NetworkMode := Sync | Async.

Section Open.
Variable R : comNzRingType.
Context {X : ExceptionalSequence R} {EC : ErrorCorrect X}.

(** What a receive job ends with. *)
Inductive JobEvent : Type :=
  | JoinError
  | Elapsed
  | Received (contributor : Role) (partial_openings : option (seq R)).

(** The mutable variables of [try_reconstruct_from_shares]. *)
Record OpenState := mkOpenState {
  sharings : seq (ShamirSharings R);
  num_bots : nat;
  collected_shares : nat;
  has_attempted : bool;
  last_reconstruction_attempt : nat
}.

Definition attempt_bound (network_mode : NetworkMode) (num_parties degree t : nat) : nat :=
  match network_mode with
  | Sync => degree + 2 * t
  | Async => if (degree + 3 * t < num_parties)%N then degree + 2 * t else degree + t
  end.

Definition reconstruct_fn (network_mode : NetworkMode) :
    nat -> nat -> nat -> nat -> ShamirSharings R -> Hints -> Res string (option R) :=
  match network_mode with
  | Sync => @reconstruct_w_errors_sync R X EC
  | Async => @reconstruct_w_errors_async R X EC
  end.

(** [collect] of an iterator of options into an option of a vector. *)
Fixpoint collect_options (A : Type) (os : seq (option A)) : option (seq A) :=
  match os with
  | [::] => Some [::]
  | None :: _ => None
  | Some a :: os' => if collect_options os' is Some l then Some (a :: l) else None
  end.

(** [unwrap_or_default] of a [Result<Option<_>>]. *)
Definition unwrap_or_default (A : Type) (r : Res string (option A)) : Res string (option A) :=
  if r is Err _ then Ok None else r.

(** The task spawned for one attempt. *)
Definition attempt (network_mode : NetworkMode) (num_parties threshold degree : nat)
    (st : OpenState) : Res string (option (seq R)) :=
  if sharings st is first :: _ then
    let* hints := hints_new (owners first) degree in
    let* opened := rmap (fun sharing => unwrap_or_default
                      (reconstruct_fn network_mode num_parties degree threshold (num_bots st)
                         sharing hints)) (sharings st) in
    Ok (collect_options opened)
  else Ok (Some [::]).

(** What the loop does with the outcome of a job that was joined. *)
Definition add_bot (st : OpenState) : OpenState :=
  mkOpenState (sharings st) (num_bots st).+1 (collected_shares st) (has_attempted st)
    (last_reconstruction_attempt st).

Definition record_contribution (st : OpenState) (contributor : Role) (values : seq R) : OpenState :=
  mkOpenState (fill_indexed_shares (sharings st) values contributor) (num_bots st)
    (collected_shares st).+1 (has_attempted st) (last_reconstruction_attempt st).

Definition record_event (st : OpenState) (e : JobEvent) : OpenState :=
  if e is Received contributor (Some values) then record_contribution st contributor values
  else add_bot st.

Definition should_attempt_reconstruction (bound initial_shares : nat) (st : OpenState)
    (jobs_is_empty : bool) : bool :=
  (bound < initial_shares + collected_shares st + num_bots st)%N &&
  [|| ~~ has_attempted st, (last_reconstruction_attempt st < collected_shares st)%N | jobs_is_empty].

Definition mark_attempt (st : OpenState) : OpenState :=
  mkOpenState (sharings st) (num_bots st) (collected_shares st) true (collected_shares st).

(** The loop over the jobs: a job that cannot be joined is only counted. *)
Fixpoint reconstruct_loop (network_mode : NetworkMode) (num_parties threshold degree : nat)
    (initial_shares : nat) (jobs : seq JobEvent) (st : OpenState) : Res string (option (seq R)) :=
  match jobs with
  | [::] => Err "Could not reconstruct the sharing"%string
  | JoinError :: jobs' =>
      reconstruct_loop network_mode num_parties threshold degree initial_shares jobs' (add_bot st)
  | e :: jobs' =>
      let st := record_event st e in
      if should_attempt_reconstruction (attempt_bound network_mode num_parties degree threshold)
           initial_shares st (nilp jobs')
      then
        let* res := attempt network_mode num_parties threshold degree st in
        if res is Some _ then Ok res
        else reconstruct_loop network_mode num_parties threshold degree initial_shares jobs'
               (mark_attempt st)
      else reconstruct_loop network_mode num_parties threshold degree initial_shares jobs' st
  end.

Definition try_reconstruct_from_shares (num_parties threshold num_bots : nat)
    (sharings : seq (ShamirSharings R)) (degree : nat) (jobs : seq JobEvent)
    (network_mode : NetworkMode) : Res string (option (seq R)) :=
  let initial_shares := if sharings is s :: _ then size s else 0 in
  reconstruct_loop network_mode num_parties threshold degree initial_shares jobs
    (mkOpenState sharings num_bots 0 false 0).

(** core/threshold-types/src/opening.rs; the map is an association list. *)
Inductive OpeningKind : Type :=
  | ToSome (shares_map : seq (Role * seq R))
  | ToAll (shares : seq R).

(** The session data that opening reads. *)
Record OpenSession := mkOpenSession {
  own_role : Role;
  roles : seq Role;
  session_threshold : nat;
  corrupt_roles : seq Role;
  network_mode : NetworkMode
}.

(** What a party sends. *)
Definition outgoing (session : OpenSession) (shares : OpeningKind) : seq (Role * seq R) :=
  match shares with
  | ToSome shares_map => [seq rv <- shares_map | rv.1 != own_role session :> nat]
  | ToAll values => [seq (r, values) | r <- roles session & r != own_role session :> nat]
  end.

(** The shares that a party keeps for reconstruction. *)
Definition shares_for_reconstruction (session : OpenSession) (shares : OpeningKind)
    : option (seq R) :=
  match shares with
  | ToSome shares_map =>
      foldl (fun acc rv => if rv.1 == own_role session :> nat then Some rv.2 else acc) None shares_map
  | ToAll values => Some values
  end.

(** [SecureRobustOpen::execute], for the jobs that receive from the parties that
    are not known to be corrupt. *)
Definition execute (session : OpenSession) (shares : OpeningKind) (degree : nat)
    (jobs : seq JobEvent) : Res string (option (seq R)) :=
  if shares_for_reconstruction session shares is Some values then
    try_reconstruct_from_shares (size (roles session)) (session_threshold session)
      (size (corrupt_roles session))
      [seq shamir_create [:: mkShare (own_role session) v] | v <- values] degree jobs
      (network_mode session)
  else Ok None.
End Open.

Arguments JoinError {R}.
Arguments Elapsed {R}.

(** ** One reconstruction *)

Section Reconstruct.
Variable R : comNzRingType.
Context {X : ExceptionalSequence R} {EC : ErrorCorrect X}.
Implicit Types (sh : ShamirSharings R) (g : {poly R}) (h : Hints).

Lemma reconstruct_robust_cases degree threshold bots sh h g : sharing_ok sh ->
  hints_new (owners sh) degree = Ok h -> (size g <= degree.+1)%N ->
  (wrong_shares g sh + bots <= threshold)%N ->
  reconstruct_robust degree threshold bots sh h = Ok (Some g.[0]) \/
  exists msg, reconstruct_robust degree threshold bots sh h = Err msg.
Proof.
move=> ok_sh eq_h sz_g le_w; rewrite /reconstruct_robust; case: ltnP => [_|le_b]; first by right; eexists.
rewrite /error_reconstruct_with_hints (error_correct_with_hintsE _ ok_sh eq_h).
have [[p eq_p]|[msg ->]] := returned_inv (error_correct_returned degree (threshold - bots) ok_sh);
  last by right; exists msg.
have [le_n sz_p wr_p] := error_correct_sound ok_sh eq_p; left; rewrite eq_p /= poly_evalE.
by rewrite (codeword_unique ok_sh sz_p sz_g) //; ssrlia.
Qed.

(** Below the corruption threshold, a reconstruction never returns a wrong
    value: it returns the secret, asks for more shares, or fails. *)
Lemma reconstruct_fn_cases mode n degree threshold bots sh h g : sharing_ok sh ->
  hints_new (owners sh) degree = Ok h -> (size g <= degree.+1)%N ->
  (wrong_shares g sh + bots <= threshold)%N ->
  let r := unwrap_or_default (reconstruct_fn mode n degree threshold bots sh h) in
  r = Ok None \/ r = Ok (Some g.[0]).
Proof.
move=> ok_sh eq_h sz_g le_w; have robust := reconstruct_robust_cases ok_sh eq_h sz_g le_w.
case: mode; rewrite /= /reconstruct_w_errors_sync /reconstruct_w_errors_async.
  case: ifP => _; last by case: ifP; left.
  by case: robust => [->|[msg ->]]; [right | left].
case: ltnP => [lt_n|le_n]; first case: ifP => _; try by left.
  by case: robust => [->|[msg ->]]; [right | left].
case: ltnP => [lt_n|_]; last by left.
case: ltnP => [lt_heard|_]; last by left.
have := @reconstruct_w_errors_asyncE R X EC n degree threshold bots sh h ok_sh eq_h lt_n le_n lt_heard.
rewrite /reconstruct_w_errors_async ltnNge le_n /= lt_n lt_heard => -> {robust}.
case eq_a: async_weak => [[v|]|||] //=; try by left.
- by right; rewrite (async_weak_sound ok_sh sz_g _ eq_a) //; ssrlia.
- by move: eq_a; rewrite /async_weak; case: error_correct.
- by move: eq_a; rewrite /async_weak; case: error_correct.
Qed.

Lemma reconstruct_fn_strong mode n degree threshold bots sh h g : sharing_ok sh ->
  hints_new (owners sh) degree = Ok h -> (size g <= degree.+1)%N ->
  (wrong_shares g sh + bots <= threshold)%N ->
  (degree + 2 * threshold < n)%N -> (mode = Async -> degree + 3 * threshold < n)%N ->
  (degree + 2 * threshold < size sh + bots)%N ->
  reconstruct_fn mode n degree threshold bots sh h = Ok (Some g.[0]).
Proof.
move=> ok_sh eq_h sz_g le_w lt_n async_n lt_heard.
have robust := reconstruct_robustE ok_sh eq_h sz_g le_w lt_heard.
case: mode async_n => [_|/(_ erefl) lt_3n] /=.
  by rewrite /reconstruct_w_errors_sync lt_n lt_heard.
by rewrite /reconstruct_w_errors_async lt_3n lt_heard.
Qed.

Lemma reconstruct_fn_weak n degree threshold r sh h g : sharing_ok sh ->
  hints_new (owners sh) degree = Ok h -> (size g <= degree.+1)%N ->
  (degree + 2 * threshold < n)%N -> (n <= degree + 3 * threshold)%N -> (r <= threshold)%N ->
  size sh = (degree + threshold + 1 + r)%N -> (wrong_shares g sh <= r)%N ->
  reconstruct_fn Async n degree threshold 0 sh h = Ok (Some g.[0]).
Proof.
move=> ok_sh eq_h sz_g lt_n le_n le_r sz_sh le_w /=.
rewrite reconstruct_w_errors_asyncE //; first by ssrlia.
by rewrite (@async_weak_complete _ _ _ _ _ _ _ g) //; ssrlia.
Qed.

(** In the weaker asynchronous regime the decoder is asked to correct more
    errors than the shares allow as soon as more than half of the threshold is
    known to be corrupt. *)
Lemma reconstruct_fn_stuck n degree threshold bots sh h : sharing_ok sh ->
  hints_new (owners sh) degree = Ok h ->
  (degree + 2 * threshold < n)%N -> (n <= degree + 3 * threshold)%N -> (threshold < 2 * bots)%N ->
  reconstruct_fn Async n degree threshold bots sh h = Ok None.
Proof.
move=> ok_sh eq_h lt_n le_n lt_b /=; case: (ltnP (degree + threshold) (size sh + bots)) => lt_heard.
  rewrite reconstruct_w_errors_asyncE // /async_weak; case eq_p: error_correct => [p|||] //.
  have [le_sh _ _] := error_correct_sound ok_sh eq_p; rewrite ifF //; apply/negbTE; rewrite -leqNgt.
  by rewrite (leq_trans (count_size _ _)) //; ssrlia.
by rewrite /reconstruct_w_errors_async ltnNge le_n /= lt_n ltnNge lt_heard.
Qed.

Lemma reconstruct_fn_too_few mode n degree threshold bots sh h : (n <= degree + 2 * threshold)%N ->
  unwrap_or_default (reconstruct_fn mode n degree threshold bots sh h) = Ok None.
Proof.
move=> le_n; case: mode; rewrite /= /reconstruct_w_errors_sync /reconstruct_w_errors_async.
  by rewrite ltnNge le_n /=.
by rewrite ltnNge (_ : n <= degree + 3 * threshold)%N ?ltnNge ?le_n //=; ssrlia.
Qed.
End Reconstruct.

(** ** Owners *)

Fixpoint insert_owner (r : nat) (ow : seq nat) : seq nat :=
  if ow is o :: ow' then
    if (r < o)%N then r :: ow else if r == o then r :: ow' else o :: insert_owner r ow'
  else [:: r].

Lemma size_insert_owner r ow : r \notin ow -> size (insert_owner r ow) = (size ow).+1.
Proof.
elim: ow => //= o ow IHow; rewrite inE negb_or => /andP[neq_r notin_r].
by case: ltngtP neq_r => //= _ _; rewrite IHow.
Qed.

Lemma mem_insert_owner r ow x : (x \in insert_owner r ow) = (x == r) || (x \in ow).
Proof.
elim: ow => //= o ow IHow; case: ltngtP => [_|_|<-]; rewrite !inE // ?IHow; first exact: orbCA.
by rewrite orbA orbb.
Qed.

Section Owners.
Variable R : comNzRingType.
Context {X : ExceptionalSequence R}.
Implicit Types (sh : ShamirSharings R) (s : Share R) (g : {poly R}).

Lemma owners_add_share sh s :
  owners (shamir_add_share sh s) = insert_owner (share_owner s) (owners sh) :> seq nat.
Proof. by elim: sh => //= t sh IHsh; rewrite shamir_add_share_cons -IHsh; case: ltngtP => //= ->. Qed.

Lemma sorted_insert_owner r ow : sorted ltn ow -> sorted ltn (insert_owner r ow).
Proof.
pose sh := [seq mkShare o (0 : R) | o <- ow] => sorted_ow.
have own : owners sh = ow by rewrite /owners -map_comp map_id.
have := @sorted_add_share R sh (mkShare r 0); rewrite owners_add_share own; exact.
Qed.

Lemma wrong_add_share g sh s : share_owner s \notin (owners sh : seq nat) ->
  wrong_shares g (shamir_add_share sh s) = (~~ on_poly g s + wrong_shares g sh)%N.
Proof.
rewrite /wrong_shares; elim: sh => //= t sh IHsh; rewrite inE negb_or => /andP[neq notin].
rewrite shamir_add_share_cons (negbTE neq); case: ifP => _ //=.
by rewrite IHsh // addnCA.
Qed.
End Owners.

(** ** The loop *)

Section Loop.
Variable R : comNzRingType.
Context {X : ExceptionalSequence R} {EC : ErrorCorrect X}.
Implicit Types (sh : ShamirSharings R) (g : {poly R}) (e : JobEvent R) (st : OpenState R).

(** The polynomials that the batch shares. *)
Variables (gs : seq {poly R}) (degree threshold : nat).
Hypothesis size_gs : all (fun g => size g <= degree.+1)%N gs.

Definition secrets : seq R := [seq g.[0] | g <- gs].

(** A contribution is honest when every value is that of the polynomial. *)
Definition honest_values (r : Role) (values : seq R) : bool :=
  all2 (fun g v => on_poly g (mkShare r v)) gs (vec_resize values (size gs)).

Definition bot_event e : bool := if e is Received _ (Some _) then false else true.
Definition wrong_event e : bool :=
  if e is Received r (Some values) then ~~ honest_values r values else false.
Definition contributor_of e : option Role :=
  if e is Received r (Some _) then Some r else None.
Definition contributors (jobs : seq (JobEvent R)) : seq nat := pmap contributor_of jobs.

(** A sharing of a batch whose parties are [ow] and with at most [w] wrong shares. *)
Definition filled (ow : seq nat) (w : nat) (g : {poly R}) (sh : ShamirSharings R) : bool :=
  (owners sh == ow :> seq nat) && (wrong_shares g sh <= w)%N.

Record open_inv (ow : seq nat) (w : nat) st : Prop := OpenInv {
  inv_filled : all2 (filled ow w) gs (sharings st);
  inv_sorted : sorted ltn ow;
  inv_embeddable : all (embeddable (R := R)) ow;
  inv_corrupt : (w + num_bots st <= threshold)%N
}.

Lemma collect_options_cases (f : ShamirSharings R -> Res string (option R)) (P : {poly R} -> pred (ShamirSharings R))
    (ps : seq {poly R}) shs :
  (forall g sh, g \in ps -> P g sh -> f sh = Ok None \/ f sh = Ok (Some g.[0])) -> all2 P ps shs ->
  exists2 os, rmap f shs = Ok os &
    collect_options os = None \/ collect_options os = Some [seq g.[0] | g <- ps].
Proof.
elim: ps shs => [|g ps IHp] [|sh shs] //= cases; first by exists [::] => //; right.
case/andP=> P_g P_gs; have [|os -> eq_os] := IHp shs _ P_gs.
  by move=> g' sh' in_g; apply: cases; rewrite inE in_g orbT.
have [->|->] /= := cases g sh (mem_head _ _) P_g; first by exists (None :: os) => //; left.
by exists (Some g.[0] :: os) => //=; case: eq_os => ->; [left | right].
Qed.

Lemma collect_options_all (f : ShamirSharings R -> Res string (option R)) (P : {poly R} -> pred (ShamirSharings R))
    (ps : seq {poly R}) shs :
  (forall g sh, g \in ps -> P g sh -> f sh = Ok (Some g.[0])) -> all2 P ps shs ->
  exists2 os, rmap f shs = Ok os & collect_options os = Some [seq g.[0] | g <- ps].
Proof.
elim: ps shs => [|g ps IHp] [|sh shs] //= cases; first by exists [::].
case/andP=> P_g P_gs; have [|os -> eq_os] := IHp shs _ P_gs.
  by move=> g' sh' in_g; apply: cases; rewrite inE in_g orbT.
by rewrite (cases g sh (mem_head _ _) P_g) /=; exists (Some g.[0] :: os) => //=; rewrite eq_os.
Qed.

Lemma collect_options_none (f : ShamirSharings R -> Res string (option R)) (P : {poly R} -> pred (ShamirSharings R))
    (ps : seq {poly R}) shs :
  (forall g sh, P g sh -> f sh = Ok None) -> all2 P ps shs -> ps <> [::] ->
  exists2 os, rmap f shs = Ok os & collect_options os = None.
Proof.
move=> none; case: ps shs => [|g ps] [|sh shs] //= /andP[/none -> all_P] _.
suff [os ->] : exists os, rmap f shs = Ok os by exists (None :: os).
elim: ps shs all_P => [|g' ps IHp] [|sh' shs] //=; first by exists [::].
by case/andP=> /none -> /IHp[os ->]; exists (None :: os).
Qed.

Lemma inv_sharing_ok ow w st g sh : open_inv ow w st -> filled ow w g sh -> sharing_ok sh.
Proof.
case=> _ sorted_ow emb_ow _ /andP[/eqP own _]; rewrite /sharing_ok own emb_ow andbT.
by apply: sorted_uniq sorted_ow; [exact: ltn_trans | exact: ltnn].
Qed.

(** Every sharing of the batch has the owners, and so the hints, of the first. *)
Lemma attempt_hints ow w st : open_inv ow w st ->
  (sharings st = [::] /\ gs = [::]) \/
  exists2 first, ohead (sharings st) = Some first /\ owners first = ow :> seq nat &
    exists h, hints_new ow degree = Ok h.
Proof.
move=> inv; have := inv_filled inv; case: gs (sharings st) => [|g ps] [|sh shs] //=; first by left.
case/andP=> fill _; right; exists sh; first by case/andP: fill => /eqP.
have ok_sh := inv_sharing_ok inv fill; have [h eq_h] := hints_new_Ok degree ok_sh.
by exists h; case/andP: fill => /eqP <-.
Qed.

Lemma attemptE mode n ow w st h : open_inv ow w st -> hints_new ow degree = Ok h -> gs <> [::] ->
  attempt mode n threshold degree st =
    (let* opened := rmap (fun sh => unwrap_or_default
       (reconstruct_fn mode n degree threshold (num_bots st) sh h)) (sharings st) in
     Ok (collect_options opened)).
Proof.
move=> inv eq_h; have := inv_filled inv; rewrite /attempt.
case: gs (sharings st) => [|g ps] [|sh shs] //= /andP[/andP[/eqP own _] _] _.
by rewrite own eq_h.
Qed.

Lemma attempt_nil mode n ow w st : open_inv ow w st -> gs = [::] ->
  attempt mode n threshold degree st = Ok (Some secrets).
Proof.
by move=> inv; have := inv_filled inv; rewrite /attempt /secrets; case: gs (sharings st) => [|g ps] [|sh shs].
Qed.

(** An attempt below the corruption threshold is never wrong. *)
Lemma attempt_cases mode n ow w st : open_inv ow w st ->
  attempt mode n threshold degree st = Ok None \/
  attempt mode n threshold degree st = Ok (Some secrets).
Proof.
move=> inv; have [[_ eq_gs]|[first _ [h eq_h]]] := attempt_hints inv.
  by right; apply: attempt_nil inv eq_gs.
have [eq_gs|/eqP neq_gs] := eqVneq gs [::]; first by right; apply: attempt_nil inv eq_gs.
rewrite (attemptE _ _ inv eq_h neq_gs).
have [|os -> eq_os] := @collect_options_cases
  (fun sh => unwrap_or_default (reconstruct_fn mode n degree threshold (num_bots st) sh h))
  _ _ _ _ (inv_filled inv); last by rewrite /=; case: eq_os => ->; [left | right].
move=> g sh in_g fill; have ok_sh := inv_sharing_ok inv fill; case/andP: fill => /eqP own wr_g.
apply: reconstruct_fn_cases; rewrite ?own ?(allP size_gs) //.
by have := inv_corrupt inv; ssrlia.
Qed.

Lemma attempt_success mode n ow w st : open_inv ow w st ->
  (forall h g sh, g \in gs -> filled ow w g sh -> sharing_ok sh -> hints_new (owners sh) degree = Ok h ->
     reconstruct_fn mode n degree threshold (num_bots st) sh h = Ok (Some g.[0])) ->
  attempt mode n threshold degree st = Ok (Some secrets).
Proof.
move=> inv success; have [[_ eq_gs]|[first _ [h eq_h]]] := attempt_hints inv.
  exact: attempt_nil inv eq_gs.
have [eq_gs|/eqP neq_gs] := eqVneq gs [::]; first exact: attempt_nil inv eq_gs.
rewrite (attemptE _ _ inv eq_h neq_gs).
have [|os -> eq_os] := @collect_options_all
  (fun sh => unwrap_or_default (reconstruct_fn mode n degree threshold (num_bots st) sh h))
  _ _ _ _ (inv_filled inv); last by rewrite /= eq_os.
move=> g sh in_g fill; rewrite (success h g) //; first exact: inv_sharing_ok inv fill.
by case/andP: fill => /eqP ->.
Qed.

Lemma attempt_strong mode n ow w st : open_inv ow w st ->
  (degree + 2 * threshold < n)%N -> (mode = Async -> degree + 3 * threshold < n)%N ->
  (degree + 2 * threshold < size ow + num_bots st)%N ->
  attempt mode n threshold degree st = Ok (Some secrets).
Proof.
move=> inv lt_n async_n lt_heard; apply: (attempt_success inv) => h g sh in_g /andP[/eqP own wr_g] ok_sh eq_h.
apply: reconstruct_fn_strong => //; first exact: (allP size_gs).
  by have := inv_corrupt inv; ssrlia.
by have := size_map (@share_owner R) sh; rewrite -/(owners sh) own => <-.
Qed.

Lemma attempt_weak n ow w st : open_inv ow w st ->
  (degree + 2 * threshold < n)%N -> (n <= degree + 3 * threshold)%N -> (w <= threshold)%N ->
  num_bots st = 0%N -> size ow = (degree + threshold + 1 + w)%N ->
  attempt Async n threshold degree st = Ok (Some secrets).
Proof.
move=> inv lt_n le_n le_w no_bots sz_ow.
apply: (attempt_success inv) => h g sh in_g /andP[/eqP own wr_g] ok_sh eq_h.
rewrite no_bots; apply: reconstruct_fn_weak eq_h _ lt_n le_n le_w _ wr_g => //; first exact: (allP size_gs).
by rewrite -sz_ow -own size_map.
Qed.

(** *** The events keep the invariant *)

Lemma filled_contribution ow w r (b : bool) (ps : seq {poly R}) (vals : seq R) shs :
  r \notin ow -> all2 (filled ow w) ps shs -> size vals = size ps ->
  all2 (fun g v => on_poly g (mkShare r v)) ps vals || b ->
  all2 (filled (insert_owner r ow) (w + b)) ps
    [seq shamir_add_share vs.2 (mkShare r vs.1) | vs <- zip vals shs].
Proof.
move=> notin; elim: ps vals shs => [|g ps IHp] [|v vals] [|sh shs] //= /andP[/andP[/eqP own wr] fill] [sz].
move=> honest; rewrite IHp //; first by move: honest; case: (b); rewrite ?orbT ?orbF // => /andP[].
rewrite andbT /filled owners_add_share own eqxx /= wrong_add_share ?own //.
by case: (b) honest => [_|]; [case: on_poly => /=; ssrlia | rewrite orbF => /andP[-> _]; rewrite addn0].
Qed.

Lemma record_contribution_inv ow w st r values : open_inv ow w st ->
  r \notin ow -> embeddable (R := R) r ->
  (w + ~~ honest_values r values + num_bots st <= threshold)%N ->
  open_inv (insert_owner r ow) (w + ~~ honest_values r values) (record_contribution st r values).
Proof.
move=> inv notin emb le_t; split=> //=; last 2 first.
- exact: (@sorted_insert_owner R) (inv_sorted inv).
- by apply/allP => x; rewrite mem_insert_owner => /predU1P[-> //|/(allP (inv_embeddable inv))].
have fill := inv_filled inv; have sz : size (sharings st) = size gs.
  by move: fill; elim: gs (sharings st) => [|g ps IHp] [|sh shs] //= /andP[_ /IHp->].
rewrite /fill_indexed_shares sz; apply: filled_contribution => //; last by rewrite orbN.
by rewrite size_cat size_take size_nseq; case: ltnP; ssrlia.
Qed.

Lemma add_bot_inv ow w st : open_inv ow w st -> (w + num_bots st < threshold)%N ->
  open_inv ow w (add_bot st).
Proof. by case=> fill sorted_ow emb _ lt_t; split=> //=; rewrite addnS. Qed.

Lemma mark_attempt_inv ow w st : open_inv ow w st -> open_inv ow w (mark_attempt st).
Proof. by case. Qed.

Lemma weaken_inv ow w w' st : (w <= w')%N -> (w' + num_bots st <= threshold)%N ->
  open_inv ow w st -> open_inv ow w' st.
Proof.
move=> le_w le_t [fill sorted_ow emb _]; split=> //; move: fill.
elim: gs (sharings st) => [|g ps IHp] [|sh shs] //= /andP[/andP[own wr] /IHp->].
by rewrite andbT /filled own (leq_trans wr).
Qed.

(** The jobs that are left: the contributors are new parties, and the number of
    corrupt parties stays below the threshold. *)
Record jobs_ok (ow : seq nat) (w bots : nat) (jobs : seq (JobEvent R)) : Prop := JobsOk {
  jobs_uniq : uniq (ow ++ contributors jobs);
  jobs_embeddable : all (embeddable (R := R)) (contributors jobs);
  jobs_corrupt : (w + bots + count wrong_event jobs + count bot_event jobs <= threshold)%N
}.

(** One event: one more party was heard from. *)
Lemma record_event_inv ow w st e jobs : open_inv ow w st -> jobs_ok ow w (num_bots st) (e :: jobs) ->
  exists ow', [/\ open_inv ow' (w + wrong_event e) (record_event st e),
    jobs_ok ow' (w + wrong_event e) (num_bots (record_event st e)) jobs,
    (size ow' + collected_shares st = size ow + collected_shares (record_event st e))%N
  & (size ow' + num_bots (record_event st e) = (size ow + num_bots st).+1)%N].
Proof.
move=> inv [uniq_ow emb le_t]; have [[r [values eq_e]]|] :
    (exists r values, e = Received r (Some values)) \/ bot_event e /\ wrong_event e = false.
- by case: e {uniq_ow emb le_t} => [||r [values|]]; [right | right | left; exists r, values | right].
- move: uniq_ow emb le_t; rewrite {}eq_e /= => uniq_ow /andP[emb_r emb] le_t.
  have notin : r \notin ow.
    by move: uniq_ow; rewrite cat_uniq /= negb_or => /and3P[_ /andP[]].
  exists (insert_owner r ow); split; last 2 first.
  + by rewrite size_insert_owner // addSn addnS.
  + by rewrite size_insert_owner.
  + by apply: record_contribution_inv => //; ssrlia.
  split=> //=; last by ssrlia.
  rewrite cat_uniq; move: uniq_ow; rewrite -cat_rcons cat_uniq => /and3P[_ disj ->]; rewrite andbT; apply/andP; split.
    by apply: (sorted_uniq ltn_trans ltnn); apply: (@sorted_insert_owner R) (inv_sorted inv).
  by apply: contra disj => /hasP[x in_x]; rewrite mem_insert_owner -in_cons -mem_rcons => mem; apply/hasP; exists x.
case=> bot no_wrong; have eq_rec : record_event st e = add_bot st by case: (e) bot => [||r []].
have no_contrib : contributor_of e = None by case: (e) bot => [||r []].
move: uniq_ow emb le_t; rewrite /contributors /= no_contrib bot no_wrong /= => uniq_ow emb le_t.
exists ow; rewrite eq_rec addn0; split=> //=; last by rewrite addnS.
  by apply: add_bot_inv => //; ssrlia.
by split=> //=; ssrlia.
Qed.

Lemma heard_event initial (ow ow' : seq nat) st st' : (initial + collected_shares st = size ow)%N ->
  (size ow' + collected_shares st = size ow + collected_shares st')%N ->
  (initial + collected_shares st' = size ow')%N.
Proof. by ssrlia. Qed.

(** Safety: whatever the jobs return and in whatever order, the loop ends with
    the secrets or with an error. *)
Lemma loop_safe mode n initial jobs ow w st :
  open_inv ow w st -> jobs_ok ow w (num_bots st) jobs ->
  let res := reconstruct_loop mode n threshold degree initial jobs st in
  res = Ok (Some secrets) \/ exists msg, res = Err msg.
Proof.
elim: jobs ow w st => [|e jobs IHj] ow w st inv ok_jobs; first by right; eexists.
have [ow' [inv' ok' _ _]] := record_event_inv inv ok_jobs.
have cont := IHj _ _ _ inv' ok'; have cont' := IHj _ _ _ (mark_attempt_inv inv') ok'.
case: e {ok_jobs} cont cont' inv' ok' => [||r o] //= cont cont' inv' ok'; case: ifP => _ //=;
  by case: (attempt_cases mode n inv') => -> /=; [exact: cont' | left].
Qed.

(** Liveness in the regimes of robust reconstruction: the first job that ends
    after enough parties were heard from completes the opening. *)
Lemma loop_live_strong mode n initial jobs1 e jobs2 ow w st :
  open_inv ow w st -> jobs_ok ow w (num_bots st) (jobs1 ++ e :: jobs2) ->
  (degree + 2 * threshold < n)%N -> (mode = Async -> degree + 3 * threshold < n)%N ->
  (initial + collected_shares st = size ow)%N -> has_attempted st = false -> e <> JoinError ->
  (degree + 2 * threshold < size ow + num_bots st + size jobs1 + 1)%N ->
  reconstruct_loop mode n threshold degree initial (jobs1 ++ e :: jobs2) st = Ok (Some secrets).
Proof.
move=> inv ok_jobs lt_n async_n; have bound : attempt_bound mode n degree threshold = (degree + 2 * threshold)%N.
  by case: mode async_n => //= /(_ erefl) ->.
elim: jobs1 ow w st inv ok_jobs => [|e1 jobs1 IHj] ow w st inv ok_jobs coll fresh join_e lt_heard.
  rewrite addn0 in lt_heard.
  have [ow' [inv' ok' coll' heard']] := record_event_inv inv ok_jobs.
  have {}coll := heard_event coll coll'.
  have att : should_attempt_reconstruction (attempt_bound mode n degree threshold) initial
      (record_event st e) (nilp jobs2).
    rewrite /should_attempt_reconstruction bound coll heard'; apply/andP; split; first by ssrlia.
    by case: (e) => [||r [v|]]; rewrite /= fresh.
  have succ : attempt mode n threshold degree (record_event st e) = Ok (Some secrets).
    by apply: (attempt_strong inv') => //; rewrite heard'; ssrlia.
  by case: e join_e att succ {ok_jobs inv' ok' coll' heard' coll} => // [|r o] _ att succ; rewrite /= att succ.
have [ow' [inv' ok' coll' heard']] := record_event_inv inv ok_jobs.
have {}coll := heard_event coll coll'.
have fresh' : has_attempted (record_event st e1) = false by case: (e1) => [||r [v|]].
have cont : reconstruct_loop mode n threshold degree initial (jobs1 ++ e :: jobs2) (record_event st e1)
    = Ok (Some secrets).
  by apply: IHj inv' ok' coll fresh' join_e _; move: lt_heard; rewrite heard' /=; ssrlia.
have att : should_attempt_reconstruction (attempt_bound mode n degree threshold) initial
    (record_event st e1) (nilp (jobs1 ++ e :: jobs2)) ->
    attempt mode n threshold degree (record_event st e1) = Ok (Some secrets).
  by case/andP; rewrite bound coll => lt _; apply: (attempt_strong inv').
case: e1 cont att {ok_jobs inv' ok' coll' heard' coll fresh' lt_heard} => [||r o] //= cont att;
  by case: ifP => [/att ->|_].
Qed.

Lemma loop_consE mode n initial e jobs st : e <> JoinError ->
  reconstruct_loop mode n threshold degree initial (e :: jobs) st =
    if should_attempt_reconstruction (attempt_bound mode n degree threshold) initial
         (record_event st e) (nilp jobs)
    then
      let* res := attempt mode n threshold degree (record_event st e) in
      if res is Some _ then Ok res
      else reconstruct_loop mode n threshold degree initial jobs (mark_attempt (record_event st e))
    else reconstruct_loop mode n threshold degree initial jobs (record_event st e).
Proof. by case: e. Qed.

(** Liveness in the weaker asynchronous regime: without bots, the opening is
    complete when the shares received are [degree + threshold + 1] more than
    the wrong ones among them. *)
Lemma loop_live_weak n initial jobs1 jobs2 ow w r st :
  open_inv ow w st -> jobs_ok ow w (num_bots st) (jobs1 ++ jobs2) ->
  (degree + 2 * threshold < n)%N -> (n <= degree + 3 * threshold)%N ->
  (initial + collected_shares st = size ow)%N -> num_bots st = 0%N ->
  (last_reconstruction_attempt st <= collected_shares st)%N ->
  all (fun e => ~~ bot_event e) jobs1 -> jobs1 <> [::] ->
  (w + count wrong_event jobs1 <= r)%N -> (r <= threshold)%N ->
  (size ow + size jobs1 = degree + threshold + 1 + r)%N ->
  reconstruct_loop Async n threshold degree initial (jobs1 ++ jobs2) st = Ok (Some secrets).
Proof.
move=> inv ok_jobs lt_n le_n; elim: jobs1 ow w st inv ok_jobs => // e jobs1 IHj ow w st inv ok_jobs coll.
move=> no_bots le_last /= /andP[no_bot_e no_bot] _ le_r le_t sz_ow.
rewrite -[LHS]/(reconstruct_loop Async n threshold degree initial (e :: jobs1 ++ jobs2) st).
have [ow' [inv' ok' coll' heard']] := record_event_inv inv ok_jobs; have {}coll := heard_event coll coll'.
have [c [vals eq_e]] : exists c vals, e = Received c (Some vals).
  by case: (e) no_bot_e => [||c [vals|]] // _; exists c, vals.
have [no_bots' collE] : num_bots (record_event st e) = 0%N /\
    (last_reconstruction_attempt (record_event st e) < collected_shares (record_event st e))%N.
  by rewrite eq_e.
rewrite no_bots no_bots' !addn0 in heard'.
have [eq_j|neq_j] := eqVneq (size jobs1) 0%N; last first.
  have cont st' : st' = record_event st e \/ st' = mark_attempt (record_event st e) ->
      reconstruct_loop Async n threshold degree initial (jobs1 ++ jobs2) st' = Ok (Some secrets).
    move=> st'E; apply: (IHj ow' (w + wrong_event e)%N) => //; try (by case: st'E => ->).
    - by case: st'E => -> //; apply: mark_attempt_inv.
    - by case: st'E => -> //; apply: ltnW.
    - by move=> eq_j; rewrite eq_j in neq_j.
    - by ssrlia.
    - by ssrlia.
  rewrite loop_consE; first by rewrite eq_e.
  case: ifP => _; last by apply: cont; left.
  by case: (attempt_cases Async n inv') => -> //=; apply: cont; right.
have succ : attempt Async n threshold degree (record_event st e) = Ok (Some secrets).
  apply: (@attempt_weak n ow' r) => //; last by ssrlia.
  by apply: weaken_inv inv'; rewrite ?no_bots'; ssrlia.
have att : should_attempt_reconstruction (attempt_bound Async n degree threshold) initial
    (record_event st e) (nilp (jobs1 ++ jobs2)).
  have bound : attempt_bound Async n degree threshold = (degree + threshold)%N.
    by rewrite /attempt_bound ltnNge le_n.
  rewrite /should_attempt_reconstruction bound coll no_bots' collE orbT andbT heard'.
  by ssrlia.
by rewrite loop_consE ?att ?succ // eq_e.
Qed.

(** The weaker regime is stuck when more than half of the threshold is known
    to be corrupt. *)
Lemma loop_stuck n initial jobs ow w st : gs <> [::] ->
  open_inv ow w st -> jobs_ok ow w (num_bots st) jobs ->
  (degree + 2 * threshold < n)%N -> (n <= degree + 3 * threshold)%N -> (threshold < 2 * num_bots st)%N ->
  reconstruct_loop Async n threshold degree initial jobs st
    = Err "Could not reconstruct the sharing"%string.
Proof.
move=> neq_gs inv ok_jobs lt_n le_n; elim: jobs ow w st inv ok_jobs => // e jobs IHj ow w st inv ok_jobs lt_b.
have [ow' [inv' ok' _ _]] := record_event_inv inv ok_jobs.
have {}lt_b : (threshold < 2 * num_bots (record_event st e))%N by case: (e) => [||c [v|]] /=; ssrlia.
have stuck : attempt Async n threshold degree (record_event st e) = Ok None.
  have [[_ //]|[first _ [h eq_h]]] := attempt_hints inv'; rewrite (attemptE _ _ inv' eq_h neq_gs).
  have [|os -> eq_os] := @collect_options_none (fun sh => unwrap_or_default
    (reconstruct_fn Async n degree threshold (num_bots (record_event st e)) sh h))
    _ _ _ _ (inv_filled inv') neq_gs; last by rewrite /= eq_os.
  move=> g sh fill; rewrite reconstruct_fn_stuck //; first exact: inv_sharing_ok inv' fill.
  by case/andP: fill => /eqP ->.
have cont := IHj _ _ _ inv' ok' lt_b; have cont' := IHj _ _ _ (mark_attempt_inv inv') ok' lt_b.
by case: e stuck cont cont' {ok_jobs inv' ok' lt_b} => [||c o] //= stuck cont cont'; case: ifP; rewrite ?stuck.
Qed.

(** With too few parties every reconstruction fails. *)
Lemma loop_too_few mode n initial jobs ow w st : gs <> [::] ->
  open_inv ow w st -> jobs_ok ow w (num_bots st) jobs -> (n <= degree + 2 * threshold)%N ->
  reconstruct_loop mode n threshold degree initial jobs st
    = Err "Could not reconstruct the sharing"%string.
Proof.
move=> neq_gs inv ok_jobs le_n; elim: jobs ow w st inv ok_jobs => // e jobs IHj ow w st inv ok_jobs.
have [ow' [inv' ok' _ _]] := record_event_inv inv ok_jobs.
have fails : attempt mode n threshold degree (record_event st e) = Ok None.
  have [[_ //]|[first _ [h eq_h]]] := attempt_hints inv'; rewrite (attemptE _ _ inv' eq_h neq_gs).
  have [|os -> eq_os] := @collect_options_none (fun sh => unwrap_or_default
    (reconstruct_fn mode n degree threshold (num_bots (record_event st e)) sh h))
    _ _ _ _ (inv_filled inv') neq_gs; last by rewrite /= eq_os.
  by move=> g sh _; rewrite reconstruct_fn_too_few.
have cont := IHj _ _ _ inv' ok'; have cont' := IHj _ _ _ (mark_attempt_inv inv') ok'.
by case: e fails cont cont' {ok_jobs inv' ok'} => [||c o] //= fails cont cont'; case: ifP; rewrite ?fails.
Qed.

(** A job that cannot be joined does not trigger an attempt. *)
Lemma loop_join_errors mode n initial jobs k st :
  (initial + collected_shares st + num_bots st + size jobs
     <= attempt_bound mode n degree threshold)%N ->
  reconstruct_loop mode n threshold degree initial (jobs ++ nseq k JoinError) st
    = Err "Could not reconstruct the sharing"%string.
Proof.
elim: jobs st => [|e jobs IHj] st /= le_b.
  by elim: k st {le_b} => //= k IHk st.
have no_att last : should_attempt_reconstruction (attempt_bound mode n degree threshold) initial
    (record_event st e) last = false.
  by apply/negbTE; rewrite negb_and -leqNgt; apply/orP; left; case: (e) => [||c [v|]] /=; ssrlia.
have cont : reconstruct_loop mode n threshold degree initial (jobs ++ nseq k JoinError) (record_event st e)
    = Err "Could not reconstruct the sharing"%string.
  by apply: IHj; case: (e) => [||c [v|]] /=; ssrlia.
by case: e no_att cont => [||c o] //= no_att cont; rewrite ?no_att.
Qed.
End Loop.

(** ** Opening a batch *)

(** A batch opened to all parties: the polynomials have the degree of the
    sharing, the party's own values are theirs, the contributors are distinct
    parties with a point, and the parties that are known to be corrupt, do not
    answer, or answer with a wrong value are within the threshold. *)
Record opening_ok {R : comNzRingType} {X : ExceptionalSequence R} (gs : seq {poly R}) (degree : nat)
    (session : OpenSession) (values : seq R) (jobs : seq (JobEvent R)) : Prop := OpeningOk {
  opening_degree : all (fun g : {poly R} => size g <= degree.+1)%N gs;
  opening_batch : size values = size gs;
  opening_own : honest_values gs (own_role session) values;
  opening_uniq : uniq ((own_role session : nat) :: contributors jobs);
  opening_embeddable : all (embeddable (R := R)) ((own_role session : nat) :: contributors jobs);
  opening_corrupt : (size (corrupt_roles session) + count (wrong_event gs) jobs
                       + count (@bot_event R) jobs <= session_threshold session)%N
}.

Section Opening.
Variable R : comNzRingType.
Context {X : ExceptionalSequence R} {EC : ErrorCorrect X}.
Variables (gs : seq {poly R}) (degree : nat) (session : OpenSession) (values : seq R).

Definition seeded : seq (ShamirSharings R) :=
  [seq shamir_create [:: mkShare (own_role session) v] | v <- values].

Definition initial_state : OpenState R := mkOpenState seeded (size (corrupt_roles session)) 0 false 0.

Lemma opening_inv jobs : opening_ok gs degree session values jobs ->
  open_inv gs (session_threshold session) [:: own_role session : nat] 0 initial_state /\
  jobs_ok gs (session_threshold session) [:: own_role session : nat] 0
    (num_bots initial_state) jobs.
Proof.
case=> deg sz own uniq_c /andP[emb_o emb_c] le_t; split; split=> //=; try by ssrlia.
  move: own; rewrite /honest_values /vec_resize -sz take_size subnn cats0 /seeded.
  elim: gs values {sz deg le_t} => [|g ps IHp] [|v vs] //= /andP[on_v /IHp->].
  by rewrite /filled /= eqxx /wrong_shares /= on_v.
Qed.

Lemma executeE jobs : size values = size gs -> gs <> [::] ->
  execute session (ToAll values) degree jobs
    = reconstruct_loop (network_mode session) (size (roles session)) (session_threshold session)
        degree 1 jobs initial_state.
Proof. by rewrite /initial_state /seeded; case: gs values => // g ps [|v vs]. Qed.

Definition joined (e : JobEvent R) : bool := if e is JoinError then false else true.

(** When every job is joined and all of them make enough parties, the batch is opened. *)
Lemma execute_live jobs : opening_ok gs degree session values jobs -> gs <> [::] ->
  jobs <> [::] -> all joined jobs ->
  (degree + 2 * session_threshold session < size (roles session))%N ->
  (network_mode session = Async -> degree + 3 * session_threshold session < size (roles session))%N ->
  (degree + 2 * session_threshold session < 1 + size (corrupt_roles session) + size jobs)%N ->
  execute session (ToAll values) degree jobs = Ok (Some (secrets gs)).
Proof.
move=> ok neq_gs; case/lastP: jobs ok => // jobs e ok _; rewrite all_rcons => /andP[join_e _].
rewrite size_rcons -cats1 in ok * => lt_n async_n lt_heard; have [inv jobs_inv] := opening_inv ok.
rewrite (executeE _ (opening_batch ok)) //.
apply: (loop_live_strong (opening_degree ok) inv jobs_inv lt_n async_n) => //; first by move=> eq_e; rewrite eq_e in join_e.
by rewrite -addnA addn1.
Qed.

Lemma execute_too_few jobs : opening_ok gs degree session values jobs -> gs <> [::] ->
  (size (roles session) <= degree + 2 * session_threshold session)%N ->
  execute session (ToAll values) degree jobs = Err "Could not reconstruct the sharing"%string.
Proof.
move=> ok neq_gs le_n; have [inv jobs_inv] := opening_inv ok; rewrite (executeE _ (opening_batch ok)) //.
exact: (loop_too_few (opening_degree ok) _ _ neq_gs inv jobs_inv le_n).
Qed.
End Opening.

(** ** Properties *)

(** C6. Opening is never wrong: below the corruption threshold, in a synchronous
    or asynchronous network, and whatever the order in which the answers come,
    a party that opens a batch to all ends with the shared secrets or with an
    error, never with another value and never with a panic. *)
Theorem robust_open_safe (R : comNzRingType) (X : ExceptionalSequence R) (EC : ErrorCorrect X)
    (gs : seq {poly R}) (degree : nat) (session : OpenSession) (values : seq R)
    (jobs : seq (JobEvent R)) :
  opening_ok gs degree session values jobs ->
  execute session (ToAll values) degree jobs = Ok (Some (secrets gs)) \/
  exists msg, execute session (ToAll values) degree jobs = Err msg.
Proof.
move=> ok; have [inv jobs_inv] := opening_inv ok.
exact: (loop_safe (opening_degree ok) _ _ _ inv jobs_inv).
Qed.

(** C7. Opening completes: with [degree + 2 * threshold < n] in a synchronous
    network, or [degree + 3 * threshold < n] in an asynchronous one, and with at most
    [threshold] parties that are known to be corrupt, answer with a wrong value, or
    do not answer, a nonempty batch is opened to the secrets as soon as a job that
    can be joined ends and makes the parties that have answered, timed out or are
    known to be corrupt more than [degree + 2 * threshold], the party itself included. *)
Theorem robust_open_live (R : comNzRingType) (X : ExceptionalSequence R) (EC : ErrorCorrect X)
    (gs : seq {poly R}) (degree : nat) (session : OpenSession) (values : seq R)
    (jobs1 : seq (JobEvent R)) (e : JobEvent R) (jobs2 : seq (JobEvent R)) :
  opening_ok gs degree session values (jobs1 ++ e :: jobs2) -> gs <> [::] -> e <> JoinError ->
  (degree + 2 * session_threshold session < size (roles session))%N ->
  (network_mode session = Async -> degree + 3 * session_threshold session < size (roles session))%N ->
  (degree + 2 * session_threshold session < 1 + size (corrupt_roles session) + size jobs1 + 1)%N ->
  execute session (ToAll values) degree (jobs1 ++ e :: jobs2) = Ok (Some (secrets gs)).
Proof.
move=> ok neq_gs join_e lt_n async_n lt_heard; have [inv jobs_inv] := opening_inv ok.
rewrite (executeE _ _ _ (opening_batch ok)) //.
exact: (loop_live_strong (opening_degree ok) inv jobs_inv).
Qed.

(** C30. Opening completes in the weaker asynchronous regime
    [degree + 2 * threshold < n <= degree + 3 * threshold] when no party is
    known to be corrupt and none times out: if the party's own share and the
    first answers are [degree + threshold + 1 + r] shares, at most [r] of them
    wrong and [r] at most the threshold, the batch is opened to the secrets. *)
Theorem robust_open_async_live (R : comNzRingType) (X : ExceptionalSequence R) (EC : ErrorCorrect X)
    (gs : seq {poly R}) (degree : nat) (session : OpenSession) (values : seq R)
    (jobs1 jobs2 : seq (JobEvent R)) (r : nat) :
  opening_ok gs degree session values (jobs1 ++ jobs2) -> gs <> [::] -> jobs1 <> [::] ->
  network_mode session = Async -> corrupt_roles session = [::] ->
  all (fun e => ~~ bot_event e) jobs1 ->
  (degree + 2 * session_threshold session < size (roles session))%N ->
  (size (roles session) <= degree + 3 * session_threshold session)%N ->
  (count (wrong_event gs) jobs1 <= r)%N -> (r <= session_threshold session)%N ->
  (1 + size jobs1 = degree + session_threshold session + 1 + r)%N ->
  execute session (ToAll values) degree (jobs1 ++ jobs2) = Ok (Some (secrets gs)).
Proof.
move=> ok neq_gs neq_j mode no_corrupt no_bots lt_n le_n le_r le_t sz_j.
have [inv jobs_inv] := opening_inv ok; rewrite (executeE _ _ _ (opening_batch ok)) // mode.
by apply: (loop_live_weak (opening_degree ok) inv jobs_inv lt_n le_n) no_bots neq_j le_r le_t sz_j;
  rewrite //= no_corrupt.
Qed.

(** C39. The weaker asynchronous regime cannot open once more than half of the
    threshold is known to be corrupt: the number of errors to correct counts the
    known corrupt parties as shares, so every attempt fails, and opening ends
    with an error even when all the other parties answer correctly. *)
Theorem robust_open_async_stuck (R : comNzRingType) (X : ExceptionalSequence R) (EC : ErrorCorrect X)
    (gs : seq {poly R}) (degree : nat) (session : OpenSession) (values : seq R)
    (jobs : seq (JobEvent R)) :
  opening_ok gs degree session values jobs -> gs <> [::] -> network_mode session = Async ->
  (degree + 2 * session_threshold session < size (roles session))%N ->
  (size (roles session) <= degree + 3 * session_threshold session)%N ->
  (session_threshold session < 2 * size (corrupt_roles session))%N ->
  execute session (ToAll values) degree jobs = Err "Could not reconstruct the sharing"%string.
Proof.
move=> ok neq_gs mode lt_n le_n lt_b; have [inv jobs_inv] := opening_inv ok.
rewrite (executeE _ _ _ (opening_batch ok)) // mode.
exact: (loop_stuck (opening_degree ok) 1 neq_gs inv jobs_inv).
Qed.

(** C40. A receive job that cannot be joined is counted but never triggers an
    attempt: where the last of the answers that reach the bar is a timeout the
    batch is opened to the secrets, and where it is a job that could not be
    joined opening fails, with the same shares and the same count of bots. *)
Theorem robust_open_join_error (R : comNzRingType) (X : ExceptionalSequence R) (EC : ErrorCorrect X)
    (gs : seq {poly R}) (degree : nat) (session : OpenSession) (values : seq R)
    (jobs : seq (JobEvent R)) :
  opening_ok gs degree session values (jobs ++ [:: Elapsed]) -> gs <> [::] ->
  network_mode session = Sync ->
  (degree + 2 * session_threshold session < size (roles session))%N ->
  (1 + size (corrupt_roles session) + size jobs = degree + 2 * session_threshold session)%N ->
  execute session (ToAll values) degree (jobs ++ [:: Elapsed]) = Ok (Some (secrets gs)) /\
  execute session (ToAll values) degree (jobs ++ [:: JoinError])
    = Err "Could not reconstruct the sharing"%string.
Proof.
move=> ok neq_gs mode lt_n heard; have [inv jobs_inv] := opening_inv ok.
rewrite !(executeE _ _ _ (opening_batch ok)) // mode; split.
  by apply: (loop_live_strong (opening_degree ok) inv jobs_inv) => //=; ssrlia.
by apply: (@loop_join_errors _ _ _ gs degree _ (opening_degree ok) Sync _ 1 jobs 1); rewrite /=; ssrlia.
Qed.

(** ** Witnesses *)

Section Witnesses.
Let F11_inj : {in gtn (2 ^ 3) &, injective (fun i : nat => i%:R : 'F_11)}.
Proof.
move=> i j; rewrite !inE => lt_i lt_j /(congr1 val) /=.
by rewrite !val_Zp_nat ?modn_small // (leq_trans lt_i, leq_trans lt_j).
Qed.
#[local] Instance seq11 : ExceptionalSequence 'F_11 := gf_exceptional_sequence F11_inj.
#[local] Instance ec11 : ErrorCorrect seq11 := @field_error_correct 'F_11 seq11 (no_cache _).

Let three : {poly 'F_11} := (3%:R)%:P.
Let session mode corrupt : OpenSession := mkOpenSession 1 [:: 1; 2; 3; 4]%N 1 corrupt mode.

Let on_three r v : (r < 8)%N -> on_poly three (mkShare r v) = (v == 3%:R).
Proof.
move=> lt_r; rewrite /on_poly /embed_role_to_exceptional_sequence /= /gf_get_from_exceptional_sequence.
by rewrite leqNgt lt_r /= hornerC.
Qed.

(** Four parties, one of them corrupt, and the sharing of [3] by a constant. *)
Let opening mode corrupt jobs :
  uniq (1%N :: contributors jobs) -> all (gtn 8) (contributors jobs) ->
  (size corrupt + count (wrong_event [:: three]) jobs + count (@bot_event _) jobs <= 1)%N ->
  opening_ok [:: three] 1 (session mode corrupt) [:: 3%:R] jobs.
Proof.
move=> uniq_c lt_c le_t; split=> //=.
- by rewrite size_polyC andbT; case: (_ != _).
- by rewrite /honest_values /= on_three // eqxx.
apply: sub_all lt_c => r /= lt_r; rewrite /embeddable /embed_role_to_exceptional_sequence /=.
by rewrite /gf_get_from_exceptional_sequence leqNgt lt_r.
Qed.

Let answer (r v : nat) : JobEvent 'F_11 := Received r (Some [:: v%:R]).

Let answer_ok r : (r < 8)%N -> honest_values [:: three] r [:: 3%:R].
Proof. by move=> lt_r; rewrite /honest_values /= on_three // eqxx. Qed.

Let three_neq0 : [:: three] <> [::] := ltac:(discriminate).

(** Party three answers with a wrong value. *)
Lemma robust_open_safe_witness :
  let jobs := [:: answer 2 3; answer 3 5; answer 4 3] in
  execute (session Sync [::]) (ToAll [:: 3%:R]) 1 jobs = Ok (Some (secrets [:: three])) \/
  exists msg, execute (session Sync [::]) (ToAll [:: 3%:R]) 1 jobs = Err msg.
Proof.
refine (@robust_open_safe 'F_11 seq11 ec11 [:: three] 1 (session Sync [::]) [:: 3%:R] _ _).
by apply: opening => //=; rewrite !answer_ok //; case: honest_values.
Defined.

Lemma robust_open_live_witness :
  execute (session Sync [::]) (ToAll [:: 3%:R]) 1 ([:: answer 2 3; Elapsed] ++ answer 4 3 :: [::])
    = Ok (Some (secrets [:: three])).
Proof.
refine (@robust_open_live 'F_11 seq11 ec11 [:: three] 1 (session Sync [::]) [:: 3%:R] _ _ _ _ _ _ _ _ _) => //.
by apply: opening => //; rewrite /= !answer_ok.
Defined.

Lemma robust_open_async_live_witness :
  execute (session Async [::]) (ToAll [:: 3%:R]) 1 ([:: answer 2 3; answer 4 3] ++ [:: Elapsed])
    = Ok (Some (secrets [:: three])).
Proof.
refine (@robust_open_async_live 'F_11 seq11 ec11 [:: three] 1 (session Async [::]) [:: 3%:R] _ _ 0
  _ _ _ _ _ _ _ _ _ _ _) => //; first by apply: opening => //; rewrite /= !answer_ok.
by rewrite /= !answer_ok.
Defined.

(** Party three is known to be corrupt, the others answer correctly. *)
Lemma robust_open_async_stuck_witness :
  execute (session Async [:: 3%N]) (ToAll [:: 3%:R]) 1 [:: answer 2 3; answer 4 3]
    = Err "Could not reconstruct the sharing"%string.
Proof.
refine (@robust_open_async_stuck 'F_11 seq11 ec11 [:: three] 1 (session Async [:: 3%N]) [:: 3%:R] _
  _ _ _ _ _ _) => //.
by apply: opening => //; rewrite /= !answer_ok.
Defined.

Lemma robust_open_join_error_witness :
  execute (session Sync [::]) (ToAll [:: 3%:R]) 1 ([:: answer 2 3; answer 4 3] ++ [:: JoinError])
    = Err "Could not reconstruct the sharing"%string.
Proof.
refine (proj2 (@robust_open_join_error 'F_11 seq11 ec11 [:: three] 1 (session Sync [::]) [:: 3%:R]
  [:: answer 2 3; answer 4 3] _ _ _ _ _)) => //.
by apply: opening => //; rewrite /= !answer_ok.
Defined.
End Witnesses.
