(* ===== verification/OpenList.v ===== *)
(** * Opening a list to all parties
    (core/threshold-execution/src/sharing/open.rs, [robust_open_list_to_all])

    A list that does not fit in one message is opened in chunks, one robust opening
    ([Open.execute]) after the other; the first opening that fails ends it.  The
    answers that the receive jobs of each of these openings end with are an
    argument, in the order in which they end. *)

From Stdlib Require Import String ZArith Lia.
From mathcomp Require Import boot.
From mathcomp Require Import ssralg poly.
From S2P Require Import Prelude SsrLia Role PolyOps Structure Shamir ErrorCorrection Open.

Set Implicit Arguments.
Unset Strict Implicit.
Unset Printing Implicit Defensive.

Import GRing.Theory.
Local Open Scope ring_scope.

(** core/threshold-execution/src/sharing/constants.rs *)
Definition MAX_MESSAGE_BYTE_SIZE : Z := (1024 * 1024 * 1024)%Z.

(** [Ring::BIT_LENGTH] (core/threshold-algebra/src/structure_traits.rs). *)
Class RingWidth (R : comNzRingType) := { BIT_LENGTH : Z }.
Arguments BIT_LENGTH R {RingWidth}.

(** ** Chunks *)

(** The next chunk and what is left: the whole vector with [mem::take], or its
    first elements with [split_off] and [mem::replace]. *)
Definition split_chunk {A : Type} (chunk_size : Z) (shares : seq A) : seq A * seq A :=
  if (Z.of_nat (size shares) <=? chunk_size)%Z then (shares, [::])
  else (take (Z.to_nat chunk_size) shares, drop (Z.to_nat chunk_size) shares).

(** What is left after some chunks, and the chunk that comes then. *)
Definition left_after {A : Type} (chunk_size : Z) (calls : nat) (shares : seq A) : seq A :=
  iter calls (fun rest => (split_chunk chunk_size rest).2) shares.
Definition nth_chunk {A : Type} (chunk_size : Z) (calls : nat) (shares : seq A) : seq A :=
  (split_chunk chunk_size (left_after chunk_size calls shares)).1.

Section OpenList.
Variable R : comNzRingType.
Context {X : ExceptionalSequence R} {EC : ErrorCorrect X} {RW : RingWidth R}.

(** [MAX_MESSAGE_BYTE_SIZE / (Z::BIT_LENGTH >> 3)]: a division by zero panics. *)
Definition open_chunk_size : Res string Z :=
  let bytes := Z.shiftr (BIT_LENGTH R) 3 in
  if (bytes =? 0)%Z then Panic else Ok (MAX_MESSAGE_BYTE_SIZE / bytes)%Z.

(** The loop; [jobs calls] are the answers to the opening number [calls]. *)
Fixpoint open_chunks (fuel : nat) (session : OpenSession) (degree : nat) (chunk_size : Z)
    (jobs : nat -> seq (JobEvent R)) (calls : nat) (shares : seq R) (result : option (seq R))
    : Res string (option (seq R)) :=
  if nilp shares then Ok (Some (odflt [::] result)) else
  if fuel is fuel'.+1 then
    let: (chunk, rest) := split_chunk chunk_size shares in
    let* opened := execute session (ToAll chunk) degree (jobs calls) in
    if opened is Some res
    then open_chunks fuel' session degree chunk_size jobs calls.+1 rest
           (Some (if result is Some acc then acc ++ res else res))
    else Ok None
  else Timeout.

(** Every chunk takes at least one element when the chunk size is positive. *)
Definition robust_open_list_to_all (session : OpenSession) (shares : seq R) (degree : nat)
    (jobs : nat -> seq (JobEvent R)) : Res string (option (seq R)) :=
  let* chunk_size := open_chunk_size in
  open_chunks (size shares) session degree chunk_size jobs 0 shares None.
End OpenList.

Arguments open_chunk_size R {RW}.

(** ** Lemmas on chunks *)

Section Chunks.
Variable chunk_size : Z.
Hypothesis chunk_size_gt0 : (0 < chunk_size)%Z.

Lemma split_chunk_cat {A : Type} (xs : seq A) : (split_chunk chunk_size xs).1 ++ (split_chunk chunk_size xs).2 = xs.
Proof. by rewrite /split_chunk; case: Z.leb => /=; rewrite ?cats0 ?cat_take_drop. Qed.

Lemma split_chunk_map {A B : Type} (f : A -> B) (xs : seq A) :
  split_chunk chunk_size (map f xs) = (map f (split_chunk chunk_size xs).1, map f (split_chunk chunk_size xs).2).
Proof. by rewrite /split_chunk size_map; case: Z.leb; rewrite //= map_take map_drop. Qed.

Lemma left_afterS {A : Type} calls (xs : seq A) :
  left_after chunk_size calls.+1 xs = (split_chunk chunk_size (left_after chunk_size calls xs)).2.
Proof. by []. Qed.

Lemma left_after_map {A B : Type} (f : A -> B) calls (xs : seq A) :
  left_after chunk_size calls (map f xs) = map f (left_after chunk_size calls xs).
Proof. by elim: calls => // calls IHc; rewrite !left_afterS IHc split_chunk_map. Qed.

Lemma nth_chunk_map {A B : Type} (f : A -> B) calls (xs : seq A) :
  nth_chunk chunk_size calls (map f xs) = map f (nth_chunk chunk_size calls xs).
Proof. by rewrite /nth_chunk left_after_map split_chunk_map. Qed.

(** A chunk of a list that is not empty is not empty, so less is left. *)
Lemma split_chunk_nonempty {A : Type} (xs : seq A) : xs <> [::] -> (split_chunk chunk_size xs).1 <> [::].
Proof.
case: xs => // x xs _; rewrite /split_chunk; case: Z.leb => //=.
by have -> : Z.to_nat chunk_size = (Z.to_nat chunk_size).-1.+1 by lia.
Qed.

Lemma split_chunk_rest {A : Type} (xs : seq A) : xs <> [::] -> (size (split_chunk chunk_size xs).2 < size xs)%N.
Proof.
move=> neq; rewrite -[X in (_ < size X)%N](split_chunk_cat xs) size_cat -[X in (X < _)%N]add0n ltn_add2r.
by have := split_chunk_nonempty neq; case: (split_chunk _ _).1.
Qed.

Lemma all_left_after {A : Type} (a : pred A) calls (xs : seq A) : all a xs -> all a (left_after chunk_size calls xs).
Proof.
move=> all_a; elim: calls => //= calls; rewrite -{1}(split_chunk_cat (left_after chunk_size calls xs)) all_cat.
by case/andP.
Qed.

Lemma all_nth_chunk {A : Type} (a : pred A) calls (xs : seq A) : all a xs -> all a (nth_chunk chunk_size calls xs).
Proof.
by move/(all_left_after calls); rewrite -{1}(split_chunk_cat (left_after chunk_size calls xs)) all_cat => /andP[].
Qed.
End Chunks.

(** ** What the loop returns *)

Lemma open_chunk_size_gt0 (R : comNzRingType) (RW : RingWidth R) : (8 <= BIT_LENGTH R <= MAX_MESSAGE_BYTE_SIZE)%Z ->
  exists2 cs, open_chunk_size R = Ok cs & (0 < cs)%Z.
Proof.
move=> width; have [lo hi] : (1 <= Z.shiftr (BIT_LENGTH R) 3 <= MAX_MESSAGE_BYTE_SIZE)%Z.
  rewrite Z.shiftr_div_pow2 //; split; first by apply: Z.div_le_lower_bound; lia.
  by apply: Z.div_le_upper_bound; lia.
exists (MAX_MESSAGE_BYTE_SIZE / Z.shiftr (BIT_LENGTH R) 3)%Z; last by apply: Z.div_str_pos; lia.
by rewrite /open_chunk_size ifF //; apply/Z.eqb_neq; lia.
Qed.

Section Loop.
Variable R : comNzRingType.
Context {X : ExceptionalSequence R} {EC : ErrorCorrect X} {RW : RingWidth R}.
Variables (session : OpenSession) (degree : nat) (jobs : nat -> seq (JobEvent R)).

(** When every opening gives the images of its chunk, the loop ends with the
    images of the list. *)
Lemma open_chunks_ok {A : Type} (f g : A -> R) chunk_size (xs : seq A) : (0 < chunk_size)%Z ->
  (forall calls, nth_chunk chunk_size calls xs <> [::] ->
     execute session (ToAll (map f (nth_chunk chunk_size calls xs))) degree (jobs calls)
     = Ok (Some (map g (nth_chunk chunk_size calls xs)))) ->
  forall fuel calls result, (size (left_after chunk_size calls xs) <= fuel)%N ->
  open_chunks fuel session degree chunk_size jobs calls (map f (left_after chunk_size calls xs)) result
  = Ok (Some (odflt [::] result ++ map g (left_after chunk_size calls xs))).
Proof.
move=> cs_gt0 opens; elim=> [|fuel IHf] calls result le_f.
  by move: le_f; rewrite leqn0 => /eqP/size0nil ->; rewrite /= cats0.
case eq_l: (left_after chunk_size calls xs) => [|x rest]; first by rewrite /= cats0.
have neq : left_after chunk_size calls xs <> [::] by rewrite eq_l.
have := split_chunk_rest cs_gt0 neq; have eq_s := split_chunk_cat chunk_size (x :: rest).
rewrite [open_chunks _ _ _ _ _ _ _ _]/= -[f x :: _]/(map f (x :: rest)) -eq_l split_chunk_map.
rewrite -/(nth_chunk _ _ _) -left_afterS opens; first exact: split_chunk_nonempty.
rewrite [rbind _ _]/= => lt_r; rewrite IHf; first by rewrite -ltnS (leq_trans lt_r).
congr (Ok (Some _)); rewrite /nth_chunk left_afterS -[X in _ = _ ++ map g X](split_chunk_cat chunk_size).
by rewrite map_cat; case: result => //= acc; rewrite catA.
Qed.

(** The chunk size is positive and every opening of a chunk gives the images of it. *)
Lemma robust_open_list_ok {A : Type} (f g : A -> R) (xs : seq A) :
  (8 <= BIT_LENGTH R <= MAX_MESSAGE_BYTE_SIZE)%Z ->
  (forall chunk_size calls, open_chunk_size R = Ok chunk_size -> nth_chunk chunk_size calls xs <> [::] ->
     execute session (ToAll (map f (nth_chunk chunk_size calls xs))) degree (jobs calls)
     = Ok (Some (map g (nth_chunk chunk_size calls xs)))) ->
  robust_open_list_to_all session (map f xs) degree jobs = Ok (Some (map g xs)).
Proof.
move=> width opens; have [cs eq_cs cs_gt0] := open_chunk_size_gt0 width.
rewrite /robust_open_list_to_all eq_cs /= size_map.
exact: (@open_chunks_ok _ f g cs xs cs_gt0 (fun calls => opens cs calls eq_cs) (size xs) 0 None (leqnn _)).
Qed.

(** An error of the first opening is the result. *)
Lemma robust_open_list_err (xs : seq R) msg : xs <> [::] ->
  (8 <= BIT_LENGTH R <= MAX_MESSAGE_BYTE_SIZE)%Z ->
  (forall chunk_size, open_chunk_size R = Ok chunk_size ->
     execute session (ToAll (nth_chunk chunk_size 0 xs)) degree (jobs 0) = Err msg) ->
  robust_open_list_to_all session xs degree jobs = Err msg.
Proof.
move=> neq width fails; have [cs eq_cs cs_gt0] := open_chunk_size_gt0 width; have := fails _ eq_cs.
rewrite /robust_open_list_to_all eq_cs /nth_chunk [left_after _ _ _]/= [rbind _ _]/=; case: xs neq {fails} => // x xs _.
by rewrite /=; case: split_chunk => chunk rest /= ->.
Qed.
End Loop.
