(* ===== verification/Protocol.v ===== *)
(** * Protocols that open secrets (the shape of the code under
    core/threshold-execution/src/online)

    The online protocols compute on a party's own shares and interact with the
    other parties only by opening secrets: a party hands a vector of share values
    to robust opening and goes on with what was opened.  A protocol is therefore a
    program with one kind of interaction, and the parties run one program each.

    In a joint execution the parties that run open lists at the same time.  An
    opening is a run of [robust_open_list_to_all] at every one of them, on the answers
    that it gets: the values of the other running parties, and from the parties that
    do not run anything or nothing, in any order.  [joint] says that every execution
    ends with the given results; [opened_ready] shows of the opening that, with
    parties enough, it gives the secrets, and [opened_too_few] that it fails otherwise.

    A panic in a job of the compute pool aborts the process, so
    [spawn_compute_bound] is transparent. *)

From Stdlib Require Import String ZArith.
From mathcomp Require Import boot.
From mathcomp Require Import ssralg poly.
From S2P Require Import Prelude SsrLia Role PolyOps Structure Shamir ErrorCorrection Open OpenList.

Set Implicit Arguments.
Unset Strict Implicit.
Unset Printing Implicit Defensive.

Import GRing.Theory.
Local Open Scope ring_scope.

(** ** Programs *)

Section Programs.
Variable R : comNzRingType.

(** A finished computation, or a call of [robust_open_list_to_all] with the
    values to open and the degree, and what the program does with its result. *)
Inductive Prog (A : Type) : Type :=
| PDone (r : Res string A)
| POpen (to_open : seq R) (degree : nat) (k : Res string (option (seq R)) -> Prog A).

Fixpoint pbind {A B : Type} (p : Prog A) (f : A -> Prog B) : Prog B :=
  match p with
  | PDone (Ok a) => f a
  | PDone (Err e) => PDone (Err e)
  | PDone Panic => PDone Panic
  | PDone Timeout => PDone Timeout
  | POpen vs degree k => POpen vs degree (fun r => pbind (k r) f)
  end.

(** [robust_open_list_to_all(session, shares, degree).await]: the call of the definition of
    that name in [OpenList], which an execution makes with the session of the party; its
    result, errors included, is what the program continues with. *)
Definition robust_open (to_open : seq R) (degree : nat) : Prog (option (seq R)) :=
  POpen to_open degree (fun r => PDone r).
End Programs.

Arguments PDone {R A} r.
Arguments POpen {R A} to_open degree k.

Notation "'let!' x ':=' p 'in' q" := (pbind p (fun x => q))
  (at level 10, x binder, p at level 100, q at level 200).

(** [iter.zip_eq(iter)]: panics when the lengths differ. *)
Definition zip_eq {A B E : Type} (xs : seq A) (ys : seq B) : Res E (seq (A * B)) :=
  if size xs == size ys then Ok (zip xs ys) else Panic.

(** [chunks_exact(2)], as pairs. *)
Fixpoint chunks_exact2 {A : Type} (xs : seq A) : seq (A * A) :=
  if xs is a :: b :: xs' then (a, b) :: chunks_exact2 xs' else [::].

Lemma zip_maps (A B C D : Type) (f : A -> C) (g : B -> D) (xs : seq A) (ys : seq B) :
  zip (map f xs) (map g ys) = [seq (f xy.1, g xy.2) | xy <- zip xs ys].
Proof. by elim: xs ys => [|x xs IHx] [|y ys] //=; rewrite IHx. Qed.

(** ** The session and its network *)

(** What the parties of a session share, which of them run the protocol, and whom
    each of these holds for corrupt.  The other parties send what they like, or
    nothing. *)
Record Network := mkNetwork {
  net_parties : nat;
  net_threshold : nat;
  net_mode : NetworkMode;
  running : seq Role;
  net_corrupt : Role -> seq Role
}.

(** The session of a party, as opening reads it. *)
Definition open_session (net : Network) (i : Role) : OpenSession :=
  mkOpenSession i (iota 1 (net_parties net)) (net_threshold net) (net_corrupt net i) (net_mode net).

(** The parties that a party receives from. *)
Definition receive_from (net : Network) (i : Role) : seq Role :=
  [seq j <- iota 1 (net_parties net) | (j \notin (net_corrupt net i : seq nat)) && (j != i :> nat)].

Section Joint.
Context {R : comNzRingType} {X : ExceptionalSequence R} {EC : ErrorCorrect X} {RW : RingWidth R}.
Variable net : Network.

(** What a receive job can end with: the values that a running party sends arrive;
    from another party come values, a malformed message or nothing. *)
Definition answer (sent : Role -> seq R) (j : Role) (e : JobEvent R) : Prop :=
  if j \in (running net : seq nat) then e = Received j (Some (sent j))
  else e = Elapsed \/ exists o, e = Received j o.

(** The answers that a party gets when the parties open lists: to each opening of a
    chunk one answer of every party that it receives from, in some order. *)
Definition delivered (to_open : Role -> seq R) (i : Role) (jobs : nat -> seq (JobEvent R)) : Prop :=
  forall chunk_size calls, open_chunk_size R = Ok chunk_size ->
  exists2 order : seq Role, perm_eq (order : seq nat) (receive_from net i) &
    List.Forall2 (answer (fun j => nth_chunk chunk_size calls (to_open j))) order (jobs calls).

(** ** Joint executions *)

(** Every execution ends, with these results: the parties that run are done with
    them, or they all open lists and, whatever answers each of them gets, go on with
    what [robust_open_list_to_all] makes of these answers. *)
Inductive joint_run {A : Type} : (Role -> Prog R A) -> (Role -> Res string A) -> Prop :=
| run_done progs outs :
    (forall i, i \in running net -> progs i = PDone (outs i)) -> joint_run progs outs
| run_open progs to_open degree k outs :
    (forall i, i \in running net -> progs i = POpen (to_open i) (degree i) (k i)) ->
    (forall jobs : Role -> nat -> seq (JobEvent R),
       (forall i, i \in running net -> delivered to_open i (jobs i)) ->
       joint_run (fun i => k i (robust_open_list_to_all (open_session net i) (to_open i) (degree i) (jobs i))) outs) ->
    joint_run progs outs.

(** Every execution ends and succeeds at every party. *)
Definition joint {A : Type} (progs : Role -> Prog R A) (outs : Role -> A) : Prop :=
  joint_run progs (fun i => Ok (outs i)).

Lemma joint_run_ext A (progs progs' : Role -> Prog R A) outs :
  (forall i, i \in running net -> progs i = progs' i) -> joint_run progs outs -> joint_run progs' outs.
Proof.
move=> eq_p run; case: run eq_p => [p o eq_o|p vs deg k o eq_k run] eq_p.
  by apply: run_done => i in_i; rewrite -eq_p ?eq_o.
by apply: run_open run => i in_i; rewrite -eq_p ?eq_k.
Qed.

Lemma run_bind A B (progs : Role -> Prog R A) outs (f : Role -> A -> Prog R B) outs' :
  joint_run progs outs -> joint_run (fun i => pbind (PDone (outs i)) (f i)) outs' ->
  joint_run (fun i => pbind (progs i) (f i)) outs'.
Proof.
elim=> {progs outs} [p o eq_o|p vs deg k o eq_k _ IHk] run.
  by apply: joint_run_ext run => i in_i; rewrite eq_o.
apply: (run_open (to_open := vs) (degree := deg) (k := fun i r => pbind (k i r) (f i))) => [i in_i|jobs del].
  by rewrite eq_k.
exact: IHk.
Qed.

Lemma joint_ext A (progs progs' : Role -> Prog R A) outs :
  (forall i, i \in running net -> progs i = progs' i) -> joint progs outs -> joint progs' outs.
Proof. exact: joint_run_ext. Qed.

Lemma joint_bind A B (progs : Role -> Prog R A) outs (f : Role -> A -> Prog R B) outs' :
  joint progs outs -> joint (fun i => f i (outs i)) outs' -> joint (fun i => pbind (progs i) (f i)) outs'.
Proof. by move=> run run'; apply: run_bind run _. Qed.

(** Local computation. *)
Lemma run_local A B (rs : Role -> Res string A) outs (f : Role -> A -> Prog R B) outs' :
  (forall i, i \in running net -> rs i = Ok (outs i)) -> joint_run (fun i => f i (outs i)) outs' ->
  joint_run (fun i => pbind (PDone (rs i)) (f i)) outs'.
Proof. by move=> eq_o; apply: joint_run_ext => i in_i; rewrite eq_o. Qed.

Lemma joint_local A B (rs : Role -> Res string A) outs (f : Role -> A -> Prog R B) outs' :
  (forall i, i \in running net -> rs i = Ok (outs i)) -> joint (fun i => f i (outs i)) outs' ->
  joint (fun i => pbind (PDone (rs i)) (f i)) outs'.
Proof. exact: run_local. Qed.

(** A guard that fails at no party. *)
Lemma run_guard A (c : Role -> bool) (progs progs' : Role -> Prog R A) outs :
  (forall i, i \in running net -> c i = false) -> joint_run progs outs ->
  joint_run (fun i => if c i then progs' i else progs i) outs.
Proof. by move=> c_f; apply: joint_run_ext => i /c_f->. Qed.

Lemma joint_guard A (c : Role -> bool) (progs progs' : Role -> Prog R A) outs :
  (forall i, i \in running net -> c i = false) -> joint progs outs ->
  joint (fun i => if c i then progs' i else progs i) outs.
Proof. exact: run_guard. Qed.

(** A local computation that ends the program. *)
Lemma joint_result A (rs : Role -> Res string A) outs :
  (forall i, i \in running net -> rs i = Ok (outs i)) -> joint (fun i => PDone (rs i)) outs.
Proof. by move=> eq_o; apply: run_done => i in_i; rewrite eq_o. Qed.
End Joint.

Section Shares.
Context {R : comNzRingType} {X : ExceptionalSequence R}.

(** The point of a party. *)
Definition point (i : Role) : R :=
  if embed_role_to_exceptional_sequence i is Ok x then x else 0.

(** ** Shares of polynomials *)

(** The share of a party of the secret of a polynomial, and of several. *)
Definition sh (i : Role) (p : {poly R}) : Share R := mkShare i p.[point i].
Definition shs (i : Role) (ps : seq {poly R}) : seq (Share R) := [seq sh i p | p <- ps].
Definition secret (p : {poly R}) : R := p.[0].
Definition of_degree (t : nat) (p : {poly R}) : bool := (size p <= t.+1)%N.

Lemma share_addE i p q : share_add (sh i p) (sh i q) = Ok (sh i (p + q)).
Proof. by rewrite /share_add eqxx /sh hornerD. Qed.

Lemma share_subE i p q : share_sub (sh i p) (sh i q) = Ok (sh i (p - q)).
Proof. by rewrite /share_sub eqxx /sh hornerD hornerN. Qed.

Lemma share_mul_constE i p c : share_mul_const (sh i p) c = sh i (c *: p).
Proof. by rewrite /share_mul_const /sh hornerZ mulrC. Qed.

Lemma share_add_constE i p c : share_add_const (sh i p) c = sh i (p + c%:P).
Proof. by rewrite /share_add_const /sh hornerD hornerC. Qed.

Lemma share_sub_constE i p c : share_sub_const (sh i p) c = sh i (p - c%:P).
Proof. by rewrite /share_sub_const /sh hornerD hornerN hornerC. Qed.

Section Degrees.
Variable t : nat.
Implicit Types (p q : {poly R}).

Lemma of_degreeD p q : of_degree t p -> of_degree t q -> of_degree t (p + q).
Proof. by rewrite /of_degree => sz_p sz_q; rewrite (leq_trans (size_polyD _ _)) // geq_max sz_p. Qed.

Lemma of_degreeN p : of_degree t (- p) = of_degree t p.
Proof. by rewrite /of_degree size_polyN. Qed.

Lemma of_degreeB p q : of_degree t p -> of_degree t q -> of_degree t (p - q).
Proof. by move=> sz_p sz_q; rewrite of_degreeD ?of_degreeN. Qed.

Lemma of_degreeZ c p : of_degree t p -> of_degree t (c *: p).
Proof. by rewrite /of_degree; apply: leq_trans; apply: size_scale_leq. Qed.

Lemma of_degreeC c : of_degree t c%:P.
Proof. by rewrite /of_degree (leq_trans (size_polyC_leq1 c)). Qed.
End Degrees.
End Shares.

(** ** What opening gives *)

(** The parties that run are distinct parties of the session, at most as many as the
    threshold do not run, and nobody holds a running party for corrupt; every party
    has a point and a value fits in a message. *)
Record network_ok (R : comNzRingType) (X : ExceptionalSequence R) (RW : RingWidth R) (net : Network) (t : nat)
    : Prop := NetworkOk {
  network_threshold : net_threshold net = t;
  network_uniq : uniq (running net : seq nat);
  network_range : forall i, i \in (running net : seq nat) -> (0 < i <= net_parties net)%N;
  network_corrupt : forall i, i \in (running net : seq nat) -> uniq (net_corrupt net i : seq nat) /\
    forall j, j \in (net_corrupt net i : seq nat) -> (0 < j <= net_parties net)%N && (j \notin (running net : seq nat));
  network_silent : (net_parties net <= size (running net) + t)%N;
  network_embeds : forall i, (0 < i <= net_parties net)%N -> embeddable (R := R) i;
  network_width : (8 <= BIT_LENGTH R <= MAX_MESSAGE_BYTE_SIZE)%Z
}.
Arguments network_ok R {X RW} net t.

(** There are parties enough to open sharings of the degree of the threshold. *)
Record ready (R : comNzRingType) (X : ExceptionalSequence R) (RW : RingWidth R) (net : Network) (t : nat)
    : Prop := Ready {
  ready_network : network_ok R net t;
  ready_others : (1 < net_parties net)%N;
  ready_parties : (3 * t < net_parties net)%N;
  ready_async : net_mode net = Async -> (4 * t < net_parties net)%N
}.
Arguments ready R {X RW} net t.

Section Opening.
Context {R : comNzRingType} {X : ExceptionalSequence R} {EC : ErrorCorrect X} {RW : RingWidth R}.
Variables (net : Network) (t : nat).
Hypothesis ok : network_ok R net t.

(** The values of polynomials at the point of a party. *)
Definition values (ps : seq {poly R}) (i : Role) : seq R := [seq p.[point i] | p : {poly R} <- ps].

Lemma honest_point i (ps : seq {poly R}) : embeddable (R := R) i -> honest_values ps i (values ps i).
Proof.
move=> emb; rewrite /honest_values /vec_resize -(size_map (fun p : {poly R} => p.[point i])) take_size subnn cats0 -/(values ps i).
elim: ps => //= p ps ->; rewrite andbT /on_poly /point /=; move: emb; rewrite /embeddable.
by case: embed_role_to_exceptional_sequence.
Qed.

Lemma mem_receive_from i j : (j \in (receive_from net i : seq nat)) =
  [&& j \notin (net_corrupt net i : seq nat), j != i & (0 < j <= net_parties net)%N].
Proof. by rewrite mem_filter mem_iota add1n ltnS -andbA. Qed.

Lemma receive_from_size i : i \in (running net : seq nat) ->
  (1 + size (net_corrupt net i) + size (receive_from net i) = net_parties net)%N.
Proof.
move=> in_i; have [uniq_c corrupt_c] := network_corrupt ok in_i.
pose l := (i :: net_corrupt net i) ++ receive_from net i; have -> : (1 + size (net_corrupt net i) + size (receive_from net i) = size l)%N.
  by rewrite size_cat.
rewrite -[RHS](size_iota 1); apply: perm_size; apply: uniq_perm (iota_uniq _ _) _; last first.
  move=> j; rewrite mem_cat inE mem_receive_from mem_iota add1n ltnS; case: (eqVneq j i) => [->|_] /=; first by rewrite (network_range ok).
  by case: (boolP (j \in _)) => [/corrupt_c/andP[->]|_].
rewrite cat_uniq /= uniq_c (filter_uniq _ (iota_uniq _ _)) !andbT; apply/andP; split.
  by apply/negP => /corrupt_c; rewrite in_i andbF.
by apply/hasPn => j; rewrite mem_receive_from inE negb_or => /and3P[-> -> _].
Qed.

(** The parties that do not run, known to be corrupt or not, are within the threshold. *)
Lemma silent_count i : i \in (running net : seq nat) ->
  (size (net_corrupt net i) + count [predC (running net : seq nat)] (receive_from net i) <= t)%N.
Proof.
move=> in_i; have [uniq_c corrupt_c] := network_corrupt ok in_i.
rewrite -size_filter -size_cat -(leq_add2l (size (running net))) (leq_trans _ (network_silent ok)) // -size_cat.
rewrite -[X in (_ <= X)%N](size_iota 1); apply: uniq_leq_size.
  rewrite !cat_uniq (network_uniq ok) uniq_c !filter_uniq ?iota_uniq //= !andbT; apply/andP; split.
    by apply/hasPn => j; rewrite mem_cat mem_filter => /orP[/corrupt_c/andP[]|/andP[]].
  by apply/hasPn => j; rewrite mem_filter mem_receive_from => /andP[_ /andP[]].
move=> j; rewrite !mem_cat mem_filter mem_receive_from mem_iota add1n ltnS.
by case/or3P=> [/(network_range ok)|/corrupt_c/andP[]|/and4P[]].
Qed.

Lemma nth_values cs calls ps i : nth_chunk cs calls (values ps i) = values (nth_chunk cs calls ps) i.
Proof. exact: nth_chunk_map. Qed.

Lemma answers_ok (gs : seq {poly R}) order jobs : List.Forall2 (answer net (values gs)) order jobs ->
  [/\ subseq (contributors jobs) order, all (@joined R) jobs, size jobs = size order
    & (count (wrong_event gs) jobs + count (@bot_event R) jobs <= count [predC (running net : seq nat)] order)%N].
Proof.
elim=> {order jobs} [|j e order jobs ans _ [sub_c join_j sz_j le_c]] //; rewrite /answer in ans.
have sub_cons c : subseq (contributors jobs) (c :: order) by rewrite (subseq_trans sub_c) ?subseq_cons.
rewrite /= sz_j; case: ifP ans => [in_j -> /=|_].
  rewrite /contributors /= eqxx honest_point ?(network_embeds ok) ?(network_range ok) //.
case=> [->|[[v|] ->]] /=; rewrite /contributors /= ?eqxx; split=> //; try by rewrite /= ?addSn ?addnS ltnS.
- exact: sub_cons.
- by rewrite add0n -addnA leq_add // leq_b1.
exact: sub_cons.
Qed.

(** What a party opens is within what the file Open asks for. *)
Lemma delivered_opening (ps : seq {poly R}) degree i jobs chunk_size calls : i \in (running net : seq nat) ->
  all (fun p : {poly R} => size p <= degree.+1)%N ps ->
  delivered net (values ps) i jobs -> open_chunk_size R = Ok chunk_size ->
  let gs := nth_chunk chunk_size calls ps in
  [/\ opening_ok gs degree (open_session net i) (values gs i) (jobs calls), all (@joined R) (jobs calls)
    & (1 + size (net_corrupt net i) + size (jobs calls) = net_parties net)%N].
Proof.
move=> in_i deg del eq_cs gs; have [order perm_o] := del _ calls eq_cs.
have ext l l' : List.Forall2 (answer net (fun j => nth_chunk chunk_size calls (values ps j))) l l' ->
  List.Forall2 (answer net (values gs)) l l'.
  by elim=> // j e m m' ans _ IHm; constructor=> //; rewrite /answer -nth_values.
move/ext/answers_ok => [sub_c join_j sz_j le_c]; split=> //; last by rewrite sz_j (perm_size perm_o) receive_from_size.
have mem_c j : j \in contributors (jobs calls) -> (0 < j <= net_parties net)%N && (j != i).
  by move/(mem_subseq sub_c); rewrite (perm_mem perm_o) mem_receive_from => /and3P[_ -> ->].
split=> //=.
- exact: all_nth_chunk.
- by rewrite size_map.
- by rewrite honest_point ?(network_embeds ok) ?(network_range ok).
- rewrite (subseq_uniq sub_c) ?andbT; first by rewrite (perm_uniq perm_o) filter_uniq ?iota_uniq.
  by apply/negP => /mem_c; rewrite eqxx andbF.
- rewrite (network_embeds ok) ?(network_range ok) //=; apply/allP => j /mem_c/andP[range_j _].
  exact: (network_embeds ok).
rewrite (network_threshold ok) -addnA (leq_trans _ (silent_count in_i)) // leq_add2l.
by rewrite -(permP perm_o).
Qed.

(** Opening with too few parties fails. *)
Lemma opened_too_few (ps : seq {poly R}) degree i jobs : i \in (running net : seq nat) -> ps <> [::] ->
  all (fun p : {poly R} => size p <= degree.+1)%N ps -> (net_parties net <= degree + 2 * t)%N ->
  delivered net (values ps) i jobs ->
  robust_open_list_to_all (open_session net i) (values ps i) degree jobs = Err "Could not reconstruct the sharing"%string.
Proof.
move=> in_i neq deg le_n del; apply: robust_open_list_err (network_width ok) _; first by case: ps neq {deg del}.
move=> cs eq_cs; have [opens _ _] := delivered_opening 0 in_i deg del eq_cs.
have [cs' eq_cs' cs_gt0] := open_chunk_size_gt0 (network_width ok); move: eq_cs'; rewrite eq_cs nth_values => -[eq_s].
rewrite -eq_s in cs_gt0.
apply: execute_too_few opens _ _; last by rewrite /= size_iota (network_threshold ok).
exact: (split_chunk_nonempty cs_gt0 neq).
Qed.

Lemma run_too_few B (ps : seq {poly R}) degree (f : Role -> option (seq R) -> Prog R B) : ps <> [::] ->
  all (fun p : {poly R} => size p <= degree.+1)%N ps -> (net_parties net <= degree + 2 * t)%N ->
  joint_run net (fun i => pbind (robust_open [seq p.[point i] | p : {poly R} <- ps] degree) (f i))
    (fun=> Err "Could not reconstruct the sharing"%string).
Proof.
move=> neq deg le_n; apply: (run_open (to_open := values ps) (degree := fun=> degree)
  (k := fun i r => pbind (PDone r) (f i))) => // jobs del.
by apply: run_done => i in_i; rewrite opened_too_few //; apply: del.
Qed.
End Opening.

Section Ready.
Context {R : comNzRingType} {X : ExceptionalSequence R} {EC : ErrorCorrect X} {RW : RingWidth R}.
Variables (net : Network) (t : nat).
Hypothesis is_ready : ready R net t.

(** Whatever answers a party gets, it opens the values of polynomials to their
    values at zero: robust opening, with its chunks, refines this contract. *)
Lemma opened_ready (ps : seq {poly R}) i jobs : i \in (running net : seq nat) ->
  all (of_degree t) ps -> delivered net (values ps) i jobs ->
  robust_open_list_to_all (open_session net i) (values ps i) t jobs = Ok (Some [seq secret p | p <- ps]).
Proof.
case: is_ready => ok n_gt1 lt_n async_n in_i deg del; apply: robust_open_list_ok (network_width ok) _ => cs calls eq_cs neq.
have [opens join_j sz_j] := delivered_opening ok calls in_i deg del eq_cs.
apply: execute_live opens neq _ join_j _ _ _; rewrite /= ?size_iota ?(network_threshold ok) -?mulSn ?sz_j //.
move=> eq_j; move: sz_j; rewrite eq_j addn0 add1n => eq_n.
by have := silent_count ok in_i; move: lt_n n_gt1; rewrite -eq_n; ssrlia.
Qed.

(** Opening polynomials gives their values at zero. *)
Lemma joint_robust_open B (ps : seq {poly R}) (f : Role -> option (seq R) -> Prog R B) outs :
  all (of_degree t) ps ->
  joint net (fun i => f i (Some [seq p.[0] | p : {poly R} <- ps])) outs ->
  joint net (fun i => pbind (robust_open [seq p.[point i] | p : {poly R} <- ps] t) (f i)) outs.
Proof.
move=> deg run; apply: (run_open (to_open := values ps) (degree := fun=> t)
  (k := fun i r => pbind (PDone r) (f i))) => // jobs del.
by apply: joint_run_ext run => i in_i; rewrite opened_ready //; apply: del.
Qed.
End Ready.

(** ** Executions *)

Section Executions.
Context {R : comNzRingType} {X : ExceptionalSequence R} {EC : ErrorCorrect X} {RW : RingWidth R}.
Variable net : Network.

(** One execution, for one choice of the answers to every opening. *)
Inductive execution {A : Type} : (Role -> Prog R A) -> (Role -> Res string A) -> Prop :=
| execution_done progs outs :
    (forall i, i \in running net -> progs i = PDone (outs i)) -> execution progs outs
| execution_open progs to_open degree k jobs outs :
    (forall i, i \in running net -> progs i = POpen (to_open i) (degree i) (k i)) ->
    (forall i, i \in running net -> delivered net to_open i (jobs i)) ->
    execution (fun i => k i (robust_open_list_to_all (open_session net i) (to_open i) (degree i) (jobs i))) outs ->
    execution progs outs.

Lemma execution_ext A (progs progs' : Role -> Prog R A) outs :
  (forall i, i \in running net -> progs i = progs' i) -> execution progs outs -> execution progs' outs.
Proof.
move=> eq_p run; case: run eq_p => [p o eq_o|p vs deg k jobs o eq_k del run] eq_p.
  by apply: execution_done => i in_i; rewrite -eq_p ?eq_o.
by apply: execution_open del run => i in_i; rewrite -eq_p ?eq_k.
Qed.

(** What is delivered depends on what the running parties open only. *)
Lemma delivered_same (to_open to_open' : Role -> seq R) i jobs :
  (forall j, j \in running net -> to_open j = to_open' j) -> delivered net to_open i jobs -> delivered net to_open' i jobs.
Proof.
move=> eq_o del cs calls eq_cs; have [order perm_o ans] := del cs calls eq_cs; exists order => //.
by elim: ans => // j e m m' ans _ IHm; constructor=> //; move: ans; rewrite /answer; case: ifP => // /eq_o->.
Qed.

(** The answers when the parties that do not run send nothing. *)
Definition silent_jobs (to_open : Role -> seq R) (i : Role) (calls : nat) : seq (JobEvent R) :=
  if open_chunk_size R is Ok chunk_size then
    [seq if j \in (running net : seq nat) then Received j (Some (nth_chunk chunk_size calls (to_open j))) else Elapsed
    | j <- receive_from net i]
  else [::].

Lemma silent_delivered (to_open : Role -> seq R) i : delivered net to_open i (silent_jobs to_open i).
Proof.
move=> cs calls eq_cs; exists (receive_from net i); rewrite // /silent_jobs eq_cs.
by elim: (receive_from net i) => //= j l IHl; constructor=> //; rewrite /answer; case: ifP => in_j; [rewrite in_j | left; rewrite in_j].
Qed.

(** A joint execution is right about every execution, and there is one. *)
Lemma joint_adequate A (progs : Role -> Prog R A) outs : (0 < size (running net))%N -> joint_run net progs outs ->
  execution progs outs /\ forall outs', execution progs outs' -> forall i, i \in running net -> outs' i = outs i.
Proof.
move=> gt0 run; have /hasP[j in_j _] : has predT (running net) by rewrite has_predT.
elim: run => {progs outs} [p o eq_o|p vs deg k o eq_k run IHk].
  split=> [|o' run']; first exact: execution_done.
  case: run' eq_o => [p' o2 eq_o'|p' vs' deg' k' jobs o2 eq_k' _ _] eq_o i in_i.
    by have := eq_o i in_i; rewrite eq_o' // => -[].
  by have := eq_o j in_j; rewrite eq_k'.
split.
  apply: (execution_open (jobs := silent_jobs vs) eq_k); first by move=> i _; apply: silent_delivered.
  by have [] := IHk (silent_jobs vs) (fun i _ => silent_delivered vs i).
move=> o' run'; case: run' eq_k => [p' o2 eq_o'|p' vs' deg' k' jobs o2 eq_k' del run'] eq_k i in_i.
  by have := eq_k j in_j; rewrite eq_o'.
have eqs r : r \in running net -> [/\ vs r = vs' r, deg r = deg' r & k r = k' r].
  by move=> in_r; have := eq_k r in_r; rewrite eq_k' // => -[-> -> ->].
have [|_ all_o] := IHk jobs; last apply: all_o in_i.
  by move=> r /del; apply: delivered_same => q /eqs[->].
by apply: execution_ext run' => r /eqs[-> -> ->].
Qed.
End Executions.

(** ** Property *)

(** C8. Opening a list to all parties of a session.  Let the parties that run be
    distinct, let at most as many as the threshold not run, and let nobody hold a
    running party for corrupt; whatever the others send and in whatever order the
    answers to the openings of the chunks come, a running party that opens its shares
    of secrets of the degree of the threshold gets the secrets when there are at least
    two parties, more than three times the threshold (more than four times in an
    asynchronous network), and an error when there are at most three times the
    threshold and something is opened. *)
Theorem robust_open_list_correct (R : comNzRingType) (X : ExceptionalSequence R) (EC : ErrorCorrect X) (RW : RingWidth R)
    (net : Network) (t : nat) (ps : seq {poly R}) (i : Role) (jobs : nat -> seq (JobEvent R)) :
  network_ok R net t -> i \in running net -> all (of_degree t) ps -> delivered net (values ps) i jobs ->
  let res := robust_open_list_to_all (open_session net i) (values ps i) t jobs in
  ((1 < net_parties net)%N -> (3 * t < net_parties net)%N -> (net_mode net = Async -> 4 * t < net_parties net)%N ->
     res = Ok (Some [seq secret p | p <- ps])) /\
  ((net_parties net <= 3 * t)%N -> ps <> [::] -> res = Err "Could not reconstruct the sharing"%string).
Proof.
move=> ok in_i deg del res; split=> [gt1 lt_n async_n|le_n neq]; first exact: (opened_ready (Ready ok gt1 lt_n async_n)).
by apply: (opened_too_few ok) => //; rewrite -mulSn.
Qed.
