(* ===== verification/Triples.v ===== *)
(** * Triples (core/threshold-execution/src/online/triple.rs and
    online/preprocessing/memory)

    A triple is a party's shares of [a], [b] and [a * b]: the parties open the
    operands masked by [a] and [b] and combine linearly.  The material comes from
    stores that hand out their content in order; what the protocols rely on is the
    class [Store], and the in-memory stores are its instances. *)

From Stdlib Require Import String.
From mathcomp Require Import boot.
From mathcomp Require Import ssralg poly ring_tactic.
From S2P Require Import Prelude SsrLia Role PolyOps Structure Shamir ErrorCorrection OpenList Protocol.

Set Implicit Arguments.
Unset Strict Implicit.
Unset Printing Implicit Defensive.

Import GRing.Theory.
Local Open Scope ring_scope.

(** ** Stores *)

(** What [TriplePreprocessing], [RandomPreprocessing] and [BitPreprocessing]
    promise of [next_*_vec] and [append_*]: a store [P] with a sequence of [T]. *)
Class Store (P T : Type) := {
  contents : P -> seq T;
  with_contents : P -> seq T -> P;
  next_vec : P -> nat -> Res string (seq T * P);
  append : P -> seq T -> P;
  contents_with : forall p ts, contents (with_contents p ts) = ts;
  with_with : forall p ts us, with_contents (with_contents p ts) us = with_contents p us;
  with_same : forall p, with_contents p (contents p) = p;
  next_vecE : forall p n, (n <= size (contents p))%N ->
    next_vec p n = Ok (take n (contents p), with_contents p (drop n (contents p)));
  next_vec_short : forall p n, (size (contents p) < n)%N -> exists e, next_vec p n = Err e;
  appendE : forall p ts, append p ts = with_contents p (contents p ++ ts)
}.

(** Two sequences of one store that do not interfere. *)
Class Independent {P T U : Type} (S1 : Store P T) (S2 : Store P U) := {
  contents_with1 : forall p (ts : seq T), contents (Store := S2) (with_contents p ts) = contents p;
  contents_with2 : forall p (us : seq U), contents (Store := S1) (with_contents p us) = contents p;
  with_comm : forall p (ts : seq T) (us : seq U),
    with_contents (with_contents p ts) us = with_contents (with_contents p us) ts
}.

(** The default methods [next_triple] and [next_random]: the check of the length,
    then [next_*_vec(1).unwrap().pop().unwrap()]. *)
Definition next_one {P T : Type} {S : Store P T} (empty : string) (p : P) : Res string (T * P) :=
  if size (contents p) == 0%N then Err empty
  else if next_vec p 1 is Ok (ts, p') then (if rev ts is t :: _ then Ok (t, p') else Panic) else Panic.

Section Memory.
Variable R : comNzRingType.

Record Triple := { triple_a : Share R; triple_b : Share R; triple_c : Share R }.

(** [self.available.drain(0..amount).collect()] after the check of the length. *)
Definition drain {T : Type} (available : seq T) (amount : nat) : seq T * seq T :=
  (take amount available, drop amount available).

Record InMemoryBasePreprocessing := {
  base_triples : seq Triple;
  base_randoms : seq (Share R)
}.

Definition base_next_triple_vec (p : InMemoryBasePreprocessing) (amount : nat) :=
  if (amount <= size (base_triples p))%N then
    let (ts, rest) := drain (base_triples p) amount in
    Ok (ts, {| base_triples := rest; base_randoms := base_randoms p |})
  else Err "Not enough triples to pop"%string.
Definition base_append_triples (p : InMemoryBasePreprocessing) (triples : seq Triple) :=
  {| base_triples := base_triples p ++ triples; base_randoms := base_randoms p |}.
Definition base_next_random_vec (p : InMemoryBasePreprocessing) (amount : nat) :=
  if (amount <= size (base_randoms p))%N then
    let (rs, rest) := drain (base_randoms p) amount in
    Ok (rs, {| base_triples := base_triples p; base_randoms := rest |})
  else Err "Not enough randomness to pop"%string.
Definition base_append_randoms (p : InMemoryBasePreprocessing) (randoms : seq (Share R)) :=
  {| base_triples := base_triples p; base_randoms := base_randoms p ++ randoms |}.

Record InMemoryBitPreprocessing := { available_bits : seq (Share R) }.

Definition bit_append_bits (p : InMemoryBitPreprocessing) (bits : seq (Share R)) :=
  {| available_bits := available_bits p ++ bits |}.
(** [pop]: the last of the vector, where [next_bit_vec] takes the first ones. *)
Definition bit_next_bit (p : InMemoryBitPreprocessing) : Res string (Share R * InMemoryBitPreprocessing) :=
  if rev (available_bits p) is b :: bits then Ok (b, {| available_bits := rev bits |})
  else Err "available_bits is empty"%string.
Definition bit_next_bit_vec (p : InMemoryBitPreprocessing) (amount : nat) :=
  if (size (available_bits p) < amount)%N then Err "Not enough bits to drain"%string
  else
    let (bs, rest) := drain (available_bits p) amount in
    Ok (bs, {| available_bits := rest |}).

Record InMemoryBitDecPreprocessing := {
  bitdec_triples : seq Triple;
  bitdec_bits : seq (Share R)
}.

Definition bitdec_next_triple_vec (p : InMemoryBitDecPreprocessing) (amount : nat) :=
  if (amount <= size (bitdec_triples p))%N then
    let (ts, rest) := drain (bitdec_triples p) amount in
    Ok (ts, {| bitdec_triples := rest; bitdec_bits := bitdec_bits p |})
  else Err "Not enough triples to pop"%string.
Definition bitdec_append_triples (p : InMemoryBitDecPreprocessing) (triples : seq Triple) :=
  {| bitdec_triples := bitdec_triples p ++ triples; bitdec_bits := bitdec_bits p |}.
Definition bitdec_append_bits (p : InMemoryBitDecPreprocessing) (bits : seq (Share R)) :=
  {| bitdec_triples := bitdec_triples p; bitdec_bits := bitdec_bits p ++ bits |}.
Definition bitdec_next_bit_vec (p : InMemoryBitDecPreprocessing) (amount : nat) :=
  if (size (bitdec_bits p) < amount)%N then Err "Not enough bits to pop"%string
  else
    let (bs, rest) := drain (bitdec_bits p) amount in
    Ok (bs, {| bitdec_triples := bitdec_triples p; bitdec_bits := rest |}).

(** [num_required_triples] and [num_required_bits] of [BitDecPreprocessing]. *)
Definition num_required_triples (num_ctxts : nat) : nat := 1217 * num_ctxts.
Definition num_required_bits (num_ctxts : nat) : nat := 64 * num_ctxts.

Definition cast_to_in_memory_impl (p : InMemoryBitDecPreprocessing) (num_ctxts : nat)
    : Res string (InMemoryBitDecPreprocessing * InMemoryBitDecPreprocessing) :=
  let num_bits := num_required_bits num_ctxts in
  let num_triples := num_required_triples num_ctxts in
  if (size (bitdec_bits p) < num_bits)%N then Err "Not enough bits available"%string
  else if (size (bitdec_triples p) < num_triples)%N then Err "Not enough triples available"%string
  else
    match bitdec_next_triple_vec p num_triples with
    | Ok (ts, p1) =>
        match bitdec_next_bit_vec p1 num_bits with
        | Ok (bs, p2) => Ok ({| bitdec_triples := ts; bitdec_bits := bs |}, p2)
        | _ => Panic
        end
    | _ => Panic
    end.
End Memory.

(** The stores are instances. *)
Section Instances.
Variable R : comNzRingType.

#[export] Program Instance base_triple_store : Store (InMemoryBasePreprocessing R) (Triple R) := {|
  contents := @base_triples R;
  with_contents p ts := {| base_triples := ts; base_randoms := base_randoms p |};
  next_vec := @base_next_triple_vec R;
  append := @base_append_triples R |}.
Next Obligation. by case: p. Qed.
Next Obligation. by rewrite /base_next_triple_vec H. Qed.
Next Obligation. by rewrite /base_next_triple_vec leqNgt H; eexists. Qed.

#[export] Program Instance base_random_store : Store (InMemoryBasePreprocessing R) (Share R) := {|
  contents := @base_randoms R;
  with_contents p rs := {| base_triples := base_triples p; base_randoms := rs |};
  next_vec := @base_next_random_vec R;
  append := @base_append_randoms R |}.
Next Obligation. by case: p. Qed.
Next Obligation. by rewrite /base_next_random_vec H. Qed.
Next Obligation. by rewrite /base_next_random_vec leqNgt H; eexists. Qed.

#[export] Program Instance bit_store : Store (InMemoryBitPreprocessing R) (Share R) := {|
  contents := @available_bits R;
  with_contents p bs := {| available_bits := bs |};
  next_vec := @bit_next_bit_vec R;
  append := @bit_append_bits R |}.
Next Obligation. by case: p. Qed.
Next Obligation. by rewrite /bit_next_bit_vec ltnNge H. Qed.
Next Obligation. by rewrite /bit_next_bit_vec H; eexists. Qed.

#[export] Program Instance bitdec_triple_store : Store (InMemoryBitDecPreprocessing R) (Triple R) := {|
  contents := @bitdec_triples R;
  with_contents p ts := {| bitdec_triples := ts; bitdec_bits := bitdec_bits p |};
  next_vec := @bitdec_next_triple_vec R;
  append := @bitdec_append_triples R |}.
Next Obligation. by case: p. Qed.
Next Obligation. by rewrite /bitdec_next_triple_vec H. Qed.
Next Obligation. by rewrite /bitdec_next_triple_vec leqNgt H; eexists. Qed.

#[export] Program Instance bitdec_bit_store : Store (InMemoryBitDecPreprocessing R) (Share R) := {|
  contents := @bitdec_bits R;
  with_contents p bs := {| bitdec_triples := bitdec_triples p; bitdec_bits := bs |};
  next_vec := @bitdec_next_bit_vec R;
  append := @bitdec_append_bits R |}.
Next Obligation. by case: p. Qed.
Next Obligation. by rewrite /bitdec_next_bit_vec ltnNge H. Qed.
Next Obligation. by rewrite /bitdec_next_bit_vec H; eexists. Qed.

#[export] Instance base_independent : Independent base_triple_store base_random_store.
Proof. by split. Qed.

#[export] Instance bitdec_independent : Independent bitdec_triple_store bitdec_bit_store.
Proof. by split. Qed.
End Instances.

(** ** Multiplication and opening *)

Section Online.
Variable R : comNzRingType.

(** The threshold of the session. *)
Variable threshold : nat.

(** The two jobs that [mult_list] runs on the compute pool. *)
Definition mult_masks (x_vec y_vec : seq (Share R)) (triples : seq (Triple R)) : Res string (seq R) :=
  let* yt := zip_eq y_vec triples in
  let* xyt := zip_eq x_vec yt in
  rfold (fun acc xyt =>
    let: (cur_x, (cur_y, triple)) := xyt in
    let* epsilon := share_add cur_x (triple_a triple) in
    let* rho := share_add (triple_b triple) cur_y in
    Ok (acc ++ [:: share_value epsilon; share_value rho])) [::] xyt.

Definition mult_linear (y_vec : seq (Share R)) (triples : seq (Triple R)) (epsilonrho : seq R)
    : Res string (seq (Share R)) :=
  let* et := zip_eq (chunks_exact2 epsilonrho) triples in
  let* yet := zip_eq y_vec et in
  rmap (fun yet =>
    let: (curr_y, (curr_epsilonrho, triple)) := yet in
    let* d := share_sub (share_mul_const curr_y curr_epsilonrho.1)
                (share_mul_const (triple_a triple) curr_epsilonrho.2) in
    share_add d (triple_c triple)) yet.

Definition mult_list (x_vec y_vec : seq (Share R)) (triples : seq (Triple R)) : Prog R (seq (Share R)) :=
  let batch_size := size x_vec in
  if (batch_size != size y_vec) || (batch_size != size triples)
  then PDone (Err "Trying to multiply two lists of values using a list of triple, but they are not of equal length"%string)
  else
    let! to_open := PDone (mult_masks x_vec y_vec triples) in
    let! opened := robust_open to_open threshold in
    match opened with
    | None => PDone (Err "Could not open shares"%string)
    | Some epsilonrho =>
        if (2 * batch_size)%N != size epsilonrho
        then PDone (Err "Inconsistent share lengths"%string)
        else PDone (mult_linear y_vec triples epsilonrho)
    end.

Definition mult (x y : Share R) (triple : Triple R) : Prog R (Share R) :=
  let! res := mult_list [:: x] [:: y] [:: triple] in
  PDone (if res is r :: _ then Ok r else Err "Mult_list did not return a result"%string).

Definition open_list (to_open : seq (Share R)) : Prog R (seq R) :=
  let! opened := robust_open [seq share_value s | s <- to_open] threshold in
  PDone (if opened is Some vals then Ok vals else Err "Could not open shares"%string).

Definition open (to_open : Share R) : Prog R R :=
  let! res := open_list [:: to_open] in
  PDone (if res is r :: _ then Ok r else Err "Open_list did not return a result"%string).
End Online.

(** ** What a multiplication computes *)

Section Correct.
Context {R : comNzRingType} {X : ExceptionalSequence R}.
Context {EC : ErrorCorrect X} {RW : RingWidth R}.
Variables (net : Network) (t : nat).
Hypothesis is_ready : ready R net t.
Implicit Types (p q : {poly R}) (xs ys zs ps : seq {poly R}).

(** The polynomials of a triple, its shares, and that it is one. *)
Definition PTriple := ({poly R} * {poly R} * {poly R})%type.
Implicit Types (abc : PTriple) (ts : seq PTriple).

Definition tsh (i : Role) abc : Triple R :=
  {| triple_a := sh i abc.1.1; triple_b := sh i abc.1.2; triple_c := sh i abc.2 |}.
Definition tshs (i : Role) ts : seq (Triple R) := [seq tsh i abc | abc <- ts].

Definition good_triple abc : bool :=
  [&& of_degree t abc.1.1, of_degree t abc.1.2, of_degree t abc.2
    & secret abc.2 == secret abc.1.1 * secret abc.1.2].

(** Polynomials of the degree of the threshold, with the secrets [vs]. *)
Definition shared (vs : seq R) ps : Prop := all (of_degree t) ps /\ [seq secret p | p <- ps] = vs.

Lemma shared_size vs ps : shared vs ps -> size ps = size vs.
Proof. by case=> _ <-; rewrite size_map. Qed.

Lemma shared_cat vs ws ps qs : shared vs ps -> shared ws qs -> shared (vs ++ ws) (ps ++ qs).
Proof. by case=> d1 <- [d2 <-]; split; rewrite ?all_cat ?d1 ?map_cat. Qed.

Lemma all_sub (a : pred {poly R}) ps qs : {subset qs <= ps} -> all a ps -> all a qs.
Proof. by move=> sub /allP all_p; apply/allP => p /sub/all_p. Qed.

Lemma shared_take n vs ps : shared vs ps -> shared (take n vs) (take n ps).
Proof. by case=> d <-; split; rewrite ?map_take //; apply: (all_sub _ d) => p; apply: mem_take. Qed.

Lemma shared_drop n vs ps : shared vs ps -> shared (drop n vs) (drop n ps).
Proof. by case=> d <-; split; rewrite ?map_drop //; apply: (all_sub _ d) => p; apply: mem_drop. Qed.

Lemma shared_split vs ws ps qs : shared (vs ++ ws) (ps ++ qs) -> size vs = size ps -> shared vs ps /\ shared ws qs.
Proof.
move=> h eq_s; have := shared_take (size vs) h; have := shared_drop (size vs) h.
by rewrite take_size_cat // drop_size_cat // take_size_cat // drop_size_cat.
Qed.

Lemma shared_nil : shared [::] [::].
Proof. by []. Qed.

Lemma shared_zip (f : R -> R -> R) (g : {poly R} -> {poly R} -> {poly R}) vs ws ps qs :
  (forall p q, of_degree t p -> of_degree t q -> of_degree t (g p q)) ->
  (forall p q, secret (g p q) = f (secret p) (secret q)) ->
  shared vs ps -> shared ws qs ->
  shared [seq f vw.1 vw.2 | vw <- zip vs ws] [seq g pq.1 pq.2 | pq <- zip ps qs].
Proof.
move=> deg_g sec_g [d1 <-] [d2 <-]; split; last first.
  by rewrite zip_maps -!map_comp; apply: eq_map => -[p q] /=.
elim: ps qs d1 d2 => [|p ps IHp] [|q qs] //= /andP[dp dps] /andP[dq dqs].
by rewrite deg_g //= IHp.
Qed.

Definition mult_poly p q abc : {poly R} :=
  (secret p + secret abc.1.1) *: q - (secret abc.1.2 + secret q) *: abc.1.1 + abc.2.

Lemma secret_mult p q abc : good_triple abc -> secret (mult_poly p q abc) = secret p * secret q.
Proof.
case/and4P=> _ _ _ /eqP; rewrite /secret /mult_poly !(hornerD, hornerN, hornerZ) => ->; rewrite /secret; ring.
Qed.

Lemma degree_mult p q abc : of_degree t p -> of_degree t q -> good_triple abc -> of_degree t (mult_poly p q abc).
Proof. by move=> dp dq /and4P[da db dc _]; rewrite of_degreeD ?of_degreeB ?of_degreeZ. Qed.

(** The polynomials that are opened. *)
Definition masked (xyt : {poly R} * ({poly R} * PTriple)) : seq {poly R} :=
  [:: xyt.1 + xyt.2.2.1.1; xyt.2.2.1.2 + xyt.2.1].

Lemma zip_triples i xs ys ts : zip (shs i xs) (zip (shs i ys) (tshs i ts))
  = [seq (sh i xyt.1, (sh i xyt.2.1, tsh i xyt.2.2)) | xyt <- zip xs (zip ys ts)].
Proof. by rewrite /shs /tshs !zip_maps. Qed.

Lemma mult_masksE i xs ys ts : size xs = size ys -> size xs = size ts ->
  mult_masks (shs i xs) (shs i ys) (tshs i ts)
  = Ok [seq p.[point i] | p : {poly R} <- flatten (map masked (zip xs (zip ys ts)))].
Proof.
move=> eq_y eq_t; rewrite /mult_masks /zip_eq !size_map -eq_y -eq_t eqxx /= size_zip !size_map -eq_y -eq_t.
rewrite minnn eqxx /= zip_triples; set f := (X in rfold X); set l := zip xs _.
have foldE acc : rfold f acc [seq (sh i xyt.1, (sh i xyt.2.1, tsh i xyt.2.2)) | xyt <- l]
    = Ok (acc ++ [seq p.[point i] | p : {poly R} <- flatten (map masked l)]); last exact: foldE.
elim: l acc => [|[x [y abc]] l IHl] acc /=; first by rewrite cats0.
by rewrite !share_addE /= IHl -catA.
Qed.

Lemma chunks_masked (l : seq ({poly R} * ({poly R} * PTriple))) :
  chunks_exact2 [seq p.[0] | p : {poly R} <- flatten (map masked l)]
  = [seq (secret (xyt.1 + xyt.2.2.1.1), secret (xyt.2.2.1.2 + xyt.2.1)) | xyt <- l].
Proof. by elim: l => [|xyt l IHl] //=; rewrite IHl. Qed.

Lemma size_masked (l : seq ({poly R} * ({poly R} * PTriple))) : size (flatten (map masked l)) = (2 * size l)%N.
Proof. by elim: l => [|xyt l IHl] //=; rewrite IHl mulnS. Qed.

Lemma mult_linearE i xs ys ts : size xs = size ys -> size xs = size ts ->
  mult_linear (shs i ys) (tshs i ts) [seq p.[0] | p : {poly R} <- flatten (map masked (zip xs (zip ys ts)))]
  = Ok (shs i [seq mult_poly xyt.1 xyt.2.1 xyt.2.2 | xyt <- zip xs (zip ys ts)]).
Proof.
rewrite /mult_linear chunks_masked /zip_eq => eq_y eq_t.
rewrite !size_map !size_zip -eq_y -eq_t !minnn eqxx /= size_zip !size_map !size_zip -eq_y -eq_t !minnn eqxx /=.
elim: xs ys ts eq_y eq_t => [|x xs IHx] [|y ys] [|abc ts] //= [eq_y] [eq_t].
rewrite !share_mul_constE share_subE /= share_addE /= IHx //=.
by rewrite /mult_poly /secret !hornerD.
Qed.

Lemma degree_masked xs ys ts : all (of_degree t) xs -> all (of_degree t) ys -> all good_triple ts ->
  all (of_degree t) (flatten (map masked (zip xs (zip ys ts)))).
Proof.
elim: xs ys ts => [|x xs IHx] [|y ys] [|abc ts] //= /andP[dx dxs] /andP[dy dys] /andP[/and4P[da db dc _] dts].
by rewrite !of_degreeD // IHx.
Qed.

(** The parties that hold shares of the operands end with shares of the products. *)
Lemma mult_list_joint vs ws xs ys ts : shared vs xs -> shared ws ys -> all good_triple ts ->
  size xs = size ys -> size xs = size ts ->
  exists2 zs, shared [seq vw.1 * vw.2 | vw <- zip vs ws] zs &
    joint net (fun i => mult_list t (shs i xs) (shs i ys) (tshs i ts)) (fun i => shs i zs).
Proof.
move=> [dx <-] [dy <-] dt eq_y eq_t.
exists [seq mult_poly xyt.1 xyt.2.1 xyt.2.2 | xyt <- zip xs (zip ys ts)]; first split.
- elim: xs ys ts dx dy dt {eq_y eq_t} => [|x xs IHx] [|y ys] [|abc ts] //= /andP[dx dxs] /andP[dy dys] /andP[good dts].
  by rewrite degree_mult ?IHx.
- elim: xs ys ts dt eq_y eq_t {dx dy} => [|x xs IHx] [|y ys] [|abc ts] //= /andP[good dts] [eq_y] [eq_t].
  by rewrite secret_mult ?IHx.
apply: joint_guard; first by move=> i _; rewrite !size_map -eq_y -eq_t eqxx.
apply: joint_local => [i _|]; first exact: mult_masksE.
apply: joint_robust_open => //; first exact: degree_masked.
apply: joint_guard => [i _|]; first by rewrite !size_map size_masked !size_zip -eq_y -eq_t !minnn eqxx.
by apply: joint_result => i _; apply: mult_linearE.
Qed.

(** With too few parties the opening of the masked operands fails. *)
Lemma mult_list_too_few vs ws xs ys ts : network_ok R net t -> shared vs xs -> shared ws ys -> all good_triple ts ->
  size xs = size ys -> size xs = size ts -> (net_parties net <= 3 * t)%N -> xs <> [::] ->
  joint_run net (fun i => mult_list t (shs i xs) (shs i ys) (tshs i ts))
    (fun=> Err "Could not reconstruct the sharing"%string).
Proof.
move=> ok [dx _] [dy _] dt eq_y eq_t le_n neq; set ps := flatten (map masked (zip xs (zip ys ts))).
have neq_p : ps <> [::] by rewrite /ps; case: xs ys ts neq eq_y eq_t {dx dy dt ps} => // x xs [|y ys] [|abc ts].
apply: run_guard; first by move=> i _; rewrite !size_map -eq_y -eq_t eqxx.
apply: run_local => [i _|]; first exact: mult_masksE.
by apply: (run_too_few ok) (degree_masked dx dy dt) _; rewrite -?mulSn.
Qed.

(** Opening shares gives the secrets. *)
Lemma open_list_joint B vs ps (f : Role -> seq R -> Prog R B) outs : shared vs ps ->
  joint net (fun i => f i vs) outs ->
  joint net (fun i => pbind (open_list t (shs i ps)) (f i)) outs.
Proof.
move=> [dp <-] run; apply: joint_bind run; rewrite /open_list.
apply: (joint_ext (progs := fun i => pbind (robust_open [seq p.[point i] | p : {poly R} <- ps] t)
  (fun opened => PDone (if opened is Some vals then Ok vals else Err "Could not open shares"%string)))).
  by move=> i _; rewrite -map_comp.
by apply: joint_robust_open => //; apply: joint_result.
Qed.

(** ** Drawing from the stores *)

Section Draw.
Context {P T U : Type} {S : Store P T}.
Variables (pre : Role -> P) (share : Role -> U -> T).

(** The stores of the parties with the shares of [us]. *)
Definition stocked (us : seq U) (i : Role) : P := with_contents (pre i) [seq share i u | u <- us].

Lemma draw us rest i : next_vec (stocked (us ++ rest) i) (size us) = Ok ([seq share i u | u <- us], stocked rest i).
Proof.
rewrite next_vecE contents_with ?size_map ?size_cat ?leq_addr // /stocked with_with.
by rewrite map_cat take_size_cat ?drop_size_cat ?size_map.
Qed.

Lemma joint_draw B us rest (f : Role -> seq T * P -> Prog R B) outs :
  joint net (fun i => f i ([seq share i u | u <- us], stocked rest i)) outs ->
  joint net (fun i => pbind (PDone (next_vec (stocked (us ++ rest) i) (size us))) (f i)) outs.
Proof. by move=> run; apply: joint_local run => i _; apply: draw. Qed.
End Draw.

(** Stores with shares, of random values or bits, and with triples. *)
Section DrawShares.
Context {P : Type} {S : Store P (Triple R)} {SB : Store P (Share R)} {I : Independent S SB}.
Variable pre : Role -> P.
Implicit Types (rs brest : seq {poly R}).

Definition stocked2 rs ts (r : Role) : P :=
  with_contents (with_contents (pre r) (shs r rs)) (tshs r ts).

Lemma draw_shares rs brest ts r :
  next_vec (Store := SB) (stocked2 (rs ++ brest) ts r) (size rs) = Ok (shs r rs, stocked2 brest ts r).
Proof.
rewrite next_vecE contents_with1 contents_with ?size_map ?size_cat ?leq_addr // /stocked2 with_comm with_with.
by rewrite /shs map_cat take_size_cat ?drop_size_cat ?size_map.
Qed.

Lemma draw_triples rs ts rest r :
  next_vec (Store := S) (stocked2 rs (ts ++ rest) r) (size ts) = Ok (tshs r ts, stocked2 rs rest r).
Proof. exact: (draw (fun r => with_contents (pre r) (shs r rs)) tsh). Qed.
End DrawShares.
End Correct.

(** C24. Multiplication of shared vectors with triples.  When the vectors and the
    triples have one length and the session is ready to open sharings (the silent or
    corrupt parties are at most the threshold, the parties more than three times the
    threshold, or four times in an asynchronous network), every execution ends at all
    the running parties with shares, again of the degree of the threshold, of the
    products, whatever the other parties send; with at most three times the threshold
    parties every execution of a nonempty multiplication ends with the error of the
    opening at every running party; and for different lengths every party returns the
    error before anything is sent. *)
Theorem mult_list_correct (R : comNzRingType) (X : ExceptionalSequence R) (EC : ErrorCorrect X) (RW : RingWidth R)
    (net : Network) (t : nat) (vs ws : seq R) (xs ys : seq {poly R}) (ts : seq PTriple) : network_ok R net t ->
  shared t vs xs -> shared t ws ys -> all (good_triple t) ts ->
  if (size xs == size ys) && (size xs == size ts)
  then
    (ready R net t -> exists2 zs, shared t [seq vw.1 * vw.2 | vw <- zip vs ws] zs &
      joint net (fun i => mult_list t (shs i xs) (shs i ys) (tshs i ts)) (fun i => shs i zs)) /\
    ((net_parties net <= 3 * t)%N -> xs <> [::] ->
      joint_run net (fun i => mult_list t (shs i xs) (shs i ys) (tshs i ts))
        (fun=> Err "Could not reconstruct the sharing"%string))
  else forall i, mult_list t (shs i xs) (shs i ys) (tshs i ts)
    = PDone (Err "Trying to multiply two lists of values using a list of triple, but they are not of equal length"%string).
Proof.
move=> ok hx hy gts; case: ifP => [/andP[/eqP eq_y /eqP eq_t]|/negbT neq]; last first.
  by move=> i; rewrite /mult_list !size_map -negb_and neq.
by split=> [is_ready|le_n neq]; [exact: mult_list_joint | exact: (mult_list_too_few ok hx hy)].
Qed.
