(* ===== verification/BitOps.v ===== *)
(** * Operations on shared bits
    (core/threshold-execution/src/online/bit_manipulation.rs)

    Exclusive or and conjunction of shared bits, alone and in batches, the binary
    adder of shared and clear bits, the decomposition of a shared value into
    shared bits, and the extraction of plaintexts from decomposed values.  The
    calls of [anyhow_error_and_log] for inputs of different length build an error
    that is dropped, so they leave no trace here. *)

From Stdlib Require Import String.
From mathcomp Require Import boot.
From mathcomp Require Import ssralg poly.
From S2P Require Import Prelude SsrLia Role PolyOps Structure Shamir Protocol Triples.

Set Implicit Arguments.
Unset Strict Implicit.
Unset Printing Implicit Defensive.

Import GRing.Theory.
Local Open Scope ring_scope.

(** What the code uses of [ZConsts], [Shl] and [to_scalar]; an element of the
    base ring is given by its value. *)
Class BitRing (R : comNzRingType) := {
  CHAR_LOG2 : nat;
  bit_shl : R -> nat -> R;
  to_scalar : R -> Res string nat;
  char_log2_gt0 : (0 < CHAR_LOG2)%N;
  two_char : 2%:R ^+ CHAR_LOG2 = 0 :> R;
  bit_shlE : forall x i, (i < CHAR_LOG2)%N -> bit_shl x i = 2%:R ^+ i * x;
  to_scalarE : forall n : nat, to_scalar n%:R = Ok (n %% 2 ^ CHAR_LOG2)
}.

(** [BitExtract::extract_bit] of a base ring, on the value. *)
Definition scalar_bit (scalar bit_idx : nat) : bool := odd (scalar %/ 2 ^ bit_idx).

(** ** Vectors *)

(** [vec\[i\]] and [vec\[a..b\]]. *)
Definition vec_index {A E : Type} (xs : seq A) (i : nat) : Res E A :=
  if drop i xs is x :: _ then Ok x else Panic.
Definition vec_slice {A E : Type} (xs : seq A) (a b : nat) : Res E (seq A) :=
  if (b < a)%N || (size xs < b)%N then Panic else Ok (drop a (take b xs)).

(** [vec.pop().unwrap()], with the vector that remains. *)
Definition vec_pop {A E : Type} (xs : seq A) : Res E (A * seq A) :=
  if rev xs is x :: ys then Ok (x, rev ys) else Panic.

Section Local.
Variable R : comNzRingType.
Context {B : BitRing R}.
Local Notation SecretVec := (seq (Share R)).

Definition shift_right_1d (x : SecretVec) (amount : nat) : Res string SecretVec :=
  if (size x < amount)%N then Panic
  else
    let tail := (size x - amount)%N in
    let* x0 := vec_index x 0 in
    Ok (nseq amount (mkShare (share_owner x0) 0) ++ take tail x).

Definition shift_right_2d (x : seq SecretVec) (amount : nat) : Res string (seq SecretVec) :=
  rmap (fun secret => shift_right_1d secret amount) x.

Definition format_to_batch (x : SecretVec) (batch_size : nat) : Res string (seq SecretVec) :=
  rmap (fun batch_idx => rmap (fun i => vec_index x (batch_idx * CHAR_LOG2 + i)) (iota 0 CHAR_LOG2))
    (iota 0 batch_size).

Definition mul_rows (lhs : seq SecretVec) (rhs : seq (seq R)) : Res string (seq SecretVec) :=
  let* rows := zip_eq lhs rhs in
  rmap (fun xy => let* l := zip_eq xy.1 xy.2 in Ok [seq share_mul_const xxyy.1 xxyy.2 | xxyy <- l]) rows.

Definition xor_list_secret_clear (lhs : seq SecretVec) (rhs : seq (seq R)) : Res string (seq SecretVec) :=
  let* prods := mul_rows lhs rhs in
  let* rows := zip_eq lhs rhs in
  let* rows := zip_eq rows prods in
  rmap (fun lrp =>
    let* l := zip_eq lrp.1.1 lrp.1.2 in
    let* l := zip_eq l lrp.2 in
    rmap (fun e => share_sub (share_add_const e.1.1 e.1.2) (share_mul_const e.2 2%:R)) l) rows.

(** [and_list_secret_clear] of [BatchedBits] is the rows of products. *)
Definition and_list_secret_clear (lhs : seq SecretVec) (rhs : seq (seq R)) : Res string (seq SecretVec) :=
  mul_rows lhs rhs.

Definition xor_with_prods (lhs rhs prods : SecretVec) : Res string SecretVec :=
  let* l := zip_eq lhs rhs in
  let* l := zip_eq l prods in
  rmap (fun e => let* s := share_add e.1.1 e.1.2 in share_sub s (share_mul_const e.2 2%:R)) l.

Definition bit_sum (input : SecretVec) : Res string (Share R) :=
  if input is s0 :: _ then
    let* res := rfold (fun res ib =>
        let res := res + bit_shl (share_value ib.2) ib.1 in
        if share_owner ib.2 != share_owner s0 :> nat
        then Err "Mismatched owners in the values to compute bit sum of"%string else Ok res)
      0 (enumerate input) in
    Ok (mkShare (share_owner s0) res)
  else Err "Cannot do bit summing on an empty list"%string.
End Local.

(** ** The operations that multiply *)

Section Online.
Variable R : comNzRingType.
Context {B : BitRing R} {P : Type} {S : Store P (Triple R)}.
Variable threshold : nat.
Local Notation SecretVec := (seq (Share R)).

(** [Bits::and_list_secret_secret] and [Bits::xor_list_secret_secret]. *)
Definition bits_and (lhs rhs : SecretVec) (preproc : P) : Prog R (SecretVec * P) :=
  let! drawn := PDone (next_vec preproc (size lhs)) in
  let! prods := mult_list threshold lhs rhs drawn.1 in
  PDone (Ok (prods, drawn.2)).

Definition bits_xor (lhs rhs : SecretVec) (preproc : P) : Prog R (SecretVec * P) :=
  let! ands := bits_and lhs rhs preproc in
  let! res := PDone (xor_with_prods lhs rhs ands.1) in
  PDone (Ok (res, ands.2)).

(** The methods of [BatchedBits]. *)
Definition xor_list_secret_secret (lhs rhs : seq SecretVec) (preproc : P) : Prog R (seq SecretVec * P) :=
  let batch_size := size lhs in
  let lhs := flatten lhs in
  let rhs := flatten rhs in
  if (size lhs %% CHAR_LOG2 != 0)%N || (size rhs %% CHAR_LOG2 != 0)%N then PDone Panic
  else
    let! flattened := bits_xor lhs rhs preproc in
    let! res := PDone (format_to_batch flattened.1 batch_size) in
    PDone (Ok (res, flattened.2)).

Definition and_list_secret_secret (lhs rhs : seq SecretVec) (preproc : P) : Prog R (seq SecretVec * P) :=
  let batch_size := size lhs in
  let! flattened := bits_and (flatten lhs) (flatten rhs) preproc in
  let! res := PDone (format_to_batch flattened.1 batch_size) in
  PDone (Ok (res, flattened.2)).

Definition compressed_xor_and (lhs1 rhs1 lhs2 rhs2 : seq SecretVec) (preproc : P)
    : Prog R (seq SecretVec * seq SecretVec * P) :=
  let lhs := flatten lhs1 in
  let rhs := flatten rhs1 in
  let! ands := bits_and (lhs ++ flatten lhs2) (rhs ++ flatten rhs2) preproc in
  let! prods := PDone (vec_slice ands.1 0 (size lhs)) in
  let! xor_ := PDone (xor_with_prods lhs rhs prods) in
  let! res1 := PDone (format_to_batch xor_ (size lhs1)) in
  let! half := PDone (vec_slice ands.1 (size lhs) (size ands.1)) in
  let! res2 := PDone (format_to_batch half (size lhs2)) in
  PDone (Ok (res1, res2, ands.2)).

(** The rounds of the adder. *)
Fixpoint adder_rounds (i n : nat) (g p : seq SecretVec) (prep : P) : Prog R (seq SecretVec * P) :=
  if n is n'.+1 then
    let! p1 := PDone (shift_right_2d p (2 ^ i)) in
    let! g1 := PDone (shift_right_2d g (2 ^ i)) in
    let! p_and_g := and_list_secret_secret p g1 prep in
    let! gp := compressed_xor_and g p_and_g.1 p p1 p_and_g.2 in
    adder_rounds i.+1 n' gp.1.1 gp.1.2 gp.2
  else PDone (Ok (g, prep)).

Definition binary_adder_secret_clear (lhs : seq SecretVec) (rhs : seq (seq R)) (prep : P)
    : Prog R (seq SecretVec * P) :=
  let log_r := trunc_log 2 CHAR_LOG2 in
  let! p_store := PDone (xor_list_secret_clear lhs rhs) in
  let! g := PDone (and_list_secret_clear lhs rhs) in
  let! l0 := PDone (vec_index lhs 0) in
  if size l0 != CHAR_LOG2 then PDone Panic
  else
    let! gp := adder_rounds 0 log_r g p_store prep in
    let! c := PDone (shift_right_2d gp.1 1) in
    xor_list_secret_secret c p_store gp.2.

Definition extract_ptxts (partial_decs : seq SecretVec) (message_mod_bits : nat) (preproc : P)
    : Prog R (SecretVec * P) :=
  let ct_len := CHAR_LOG2 in
  let! sums := PDone (rmap (fun partial_dec =>
    if (ct_len < message_mod_bits + 1)%N then Panic
    else
      let* plaintext_bits := vec_slice partial_dec (ct_len - (message_mod_bits + 1)) (ct_len - 1) in
      let* plaintext_sum := bit_sum plaintext_bits in
      let* sign_bit := vec_index partial_dec (ct_len - 1) in
      Ok (sign_bit, plaintext_sum)) partial_decs) in
  let sign_bits := unzip1 sums in
  let recomposed_decryptions := unzip2 sums in
  let! drawn := PDone (next_vec preproc (size sign_bits)) in
  let! prods := mult_list threshold sign_bits recomposed_decryptions drawn.1 in
  let! res := PDone (
    let* l := zip_eq prods recomposed_decryptions in
    rmap (fun pr => share_sub pr.2 pr.1) l) in
  PDone (Ok (res, drawn.2)).

(** ** Decomposition *)

Context {SB : Store P (Share R)}.

(** One entry of the masks: [CHAR_LOG2] bits from the end of the vector, and
    their sum. *)
Fixpoint pop_bits {A : Type} (n : nat) (random_bits bits_per_entry : seq A) : Res string (seq A * seq A) :=
  if n is n'.+1 then
    let* popped := vec_pop random_bits in
    pop_bits n' popped.2 (rcons bits_per_entry popped.1)
  else Ok (bits_per_entry, random_bits).

Definition make_masks (random_bits : SecretVec) (batch_size : nat) : Res string (SecretVec * seq SecretVec) :=
  let* res := rfold (fun (st : SecretVec * (SecretVec * seq SecretVec)) _ =>
      let* popped := pop_bits CHAR_LOG2 st.1 [::] in
      let* mask := bit_sum popped.1 in
      Ok (popped.2, (rcons st.2.1 mask, rcons st.2.2 popped.1)))
    (random_bits, ([::], [::])) (iota 0 batch_size) in
  Ok res.2.

Definition clear_bits (entry : R) : Res string (seq R) :=
  let* scalar := to_scalar entry in
  let scalar_bits := [seq scalar_bit scalar bit_idx | bit_idx <- iota 0 CHAR_LOG2] in
  Ok [seq (bit : nat)%:R | bit : bool <- scalar_bits].

Definition bit_dec_batch (prep : P) (inputs : SecretVec) : Prog R (seq SecretVec * P) :=
  let batch_size := size inputs in
  let! drawn := PDone (next_vec (Store := SB) prep (CHAR_LOG2 * batch_size)) in
  let! masked := PDone (make_masks drawn.1 batch_size) in
  if size inputs != size masked.1
  then PDone (Err "Inputs and masks are of different length"%string)
  else
    let! masked_secrets := PDone (
      let* l := zip_eq inputs masked.1 in
      rmap (fun sm => share_sub sm.1 sm.2) l) in
    let! opened_masks := open_list threshold masked_secrets in
    let! opened_masked_bits := PDone (rmap clear_bits opened_masks) in
    binary_adder_secret_clear masked.2 opened_masked_bits drawn.2.
End Online.
