(* ===== verification/BitRows.v ===== *)
(** * Shared bits, row by row (the theory of BitOps)

    What the operations on shared bits compute: vectors of polynomials of the
    degree of the threshold whose secrets are bits, in rows of [CHAR_LOG2], and
    the polynomials each operation leaves.  A batch is a list [us] of entries and
    a function that gives the bits of each. *)

From Stdlib Require Import String.
From mathcomp Require Import boot.
From mathcomp Require Import ssralg poly ring_tactic.
From S2P Require Import Prelude SsrLia Role PolyOps Structure Shamir ErrorCorrection OpenList Protocol Triples BitOps.

Set Implicit Arguments.
Unset Strict Implicit.
Unset Printing Implicit Defensive.

Import GRing.Theory.
Local Open Scope ring_scope.

(** ** Lists *)

Definition zipw {A B C : Type} (f : A -> B -> C) (xs : seq A) (ys : seq B) : seq C :=
  [seq f xy.1 xy.2 | xy <- zip xs ys].

Lemma size_zipw A B C (f : A -> B -> C) xs ys : size xs = size ys -> size (zipw f xs ys) = size xs.
Proof. by move=> eq_s; rewrite size_map size_zip eq_s minnn. Qed.

Lemma zipw_cat A B C (f : A -> B -> C) xs1 xs2 ys1 ys2 : size xs1 = size ys1 ->
  zipw f (xs1 ++ xs2) (ys1 ++ ys2) = zipw f xs1 ys1 ++ zipw f xs2 ys2.
Proof. by move=> eq_s; rewrite /zipw zip_cat // map_cat. Qed.

Lemma zipw_mkseq A B C (f : A -> B -> C) (g : nat -> A) (h : nat -> B) n :
  zipw f (mkseq g n) (mkseq h n) = mkseq (fun j => f (g j) (h j)) n.
Proof. by rewrite /zipw /mkseq zip_maps -map_comp; elim: (iota 0 n) => //= j l ->. Qed.

Lemma zipw_flatten U A B C (f : A -> B -> C) (g : U -> seq A) (h : U -> seq B) us :
  (forall u, size (g u) = size (h u)) ->
  zipw f (flatten (map g us)) (flatten (map h us)) = flatten [seq zipw f (g u) (h u) | u <- us].
Proof. by move=> eq_s; elim: us => //= u us IHu; rewrite zipw_cat ?IHu. Qed.

Lemma reshape_mkseq (A : Type) (x0 : A) (s : seq A) n m : size s = (n * m)%N ->
  reshape (nseq n m) s = [seq mkseq (fun j => nth x0 s (k * m + j)) m | k <- iota 0 n].
Proof.
move=> sz; apply: (@eq_from_nth _ [::]); rewrite ?size_map ?size_iota ?size_reshape ?size_nseq // => k lt_k.
rewrite nth_reshape nth_nseq lt_k take_nseq ?(ltnW lt_k) // sumn_nseq mulnC (nth_map 0%N) ?size_iota // nth_iota //.
have le_k : (k * m + m <= size s)%N by rewrite sz -mulSnr leq_mul2r lt_k orbT.
rewrite -(map_nth_iota x0) ?size_drop; first by ssrlia.
have -> : iota (k * m) m = map (addn (k * m)) (iota 0 m) by rewrite -iotaDl addn0.
by rewrite -map_comp.
Qed.

Lemma vec_indexE A E (x0 : A) xs i : (i < size xs)%N -> vec_index xs i = Ok (nth x0 xs i) :> Res E A.
Proof. by move=> lt_i; rewrite /vec_index (drop_nth x0 lt_i). Qed.

Lemma vec_popE A E (xs : seq A) x : vec_pop (rcons xs x) = Ok (x, xs) :> Res E (A * seq A).
Proof. by rewrite /vec_pop rev_rcons revK. Qed.

Lemma vec_sliceE A B E (f : A -> B) xs a b : (a <= b)%N -> (b <= size xs)%N ->
  vec_slice (map f xs) a b = Ok (map f (drop a (take b xs))) :> Res E (seq B).
Proof. by move=> le_ab le_b; rewrite /vec_slice size_map ltnNge le_ab ltnNge le_b map_drop map_take. Qed.

(** ** Vectors *)

Section Rows.
Context {R : comNzRingType} {X : ExceptionalSequence R} {B : BitRing R}.
Variable t : nat.
Local Notation L := (@CHAR_LOG2 R B).
Local Notation shared := (shared t).
Implicit Types (ps qs xs ys zs : seq {poly R}) (pss xss yss zss : seq (seq {poly R})) (bs cs : seq bool).

(** Shared bits. *)
Definition bitv bs : seq R := [seq (b : nat)%:R | b : bool <- bs].
Definition bits_shared bs ps : Prop := shared (bitv bs) ps.

Lemma bits_size bs ps : bits_shared bs ps -> size ps = size bs.
Proof. by move=> /shared_size; rewrite size_map. Qed.

Lemma bitv_and bs cs : zipw *%R (bitv bs) (bitv cs) = bitv (zipw andb bs cs).
Proof. by rewrite /zipw /bitv zip_maps -!map_comp; apply: eq_map => -[[] []] /=; rewrite ?mulr1 ?mulr0. Qed.

Definition xor_poly (x y z : {poly R}) : {poly R} := x + y - 2%:R *: z.

Lemma xor_with_prodsE i xs ys zs : size xs = size ys -> size zs = size xs ->
  xor_with_prods (shs i xs) (shs i ys) (shs i zs) = Ok (shs i [seq xor_poly e.1.1 e.1.2 e.2 | e <- zip (zip xs ys) zs]).
Proof.
move=> eq_y eq_z; rewrite /xor_with_prods /zip_eq !size_map -eq_y eqxx /= size_zip !size_map -eq_y minnn eq_z eqxx /=.
rewrite /shs !zip_maps.
elim: xs ys zs eq_y eq_z => [|x xs IHx] [|y ys] [|z zs] //= [eq_y] [eq_z].
by rewrite share_addE /= share_mul_constE share_subE /= IHx.
Qed.

Lemma xor_shared bs cs xs ys zs : bits_shared bs xs -> bits_shared cs ys -> size bs = size cs ->
  shared (zipw *%R (bitv bs) (bitv cs)) zs ->
  bits_shared (zipw addb bs cs) [seq xor_poly e.1.1 e.1.2 e.2 | e <- zip (zip xs ys) zs].
Proof.
move=> hx hy eq_s hz; have sx := bits_size hx; have sy := bits_size hy.
have sz : size zs = size bs by rewrite (shared_size hz) size_zipw ?size_map.
elim: bs cs xs ys zs eq_s sx sy sz hx hy hz => [|b bs IHb] [|c cs] [|x xs] [|y ys] [|z zs] //= [eq_s] [sx] [sy] [sz].
move=> [/= /andP[dx dxs] [ex exs]] [/= /andP[dy dys] [ey eys]] [/= /andP[dz dzs] [ez ezs]].
have [] // := IHb cs xs ys zs => dr er; split=> /=; first by rewrite dr of_degreeB ?of_degreeD ?of_degreeZ.
congr (_ :: _); last by [].
rewrite /secret /xor_poly !(hornerD, hornerN, hornerZ) -!/(secret _) ex ey ez.
by case: b c {ex ey ez IHb} => [] [] /=; rewrite ?mulr1 ?mulr0 ?subr0 ?addr0 ?add0r // -natrD subrr.
Qed.

(** ** Batches *)

Section Batch.
Variables (U : Type) (us : seq U).
Implicit Types (f g h : U -> nat -> bool).

(** The rows of a batch, one for each entry. *)
Definition rows f : seq (seq bool) := [seq mkseq (f u) L | u <- us].
Definition rows_shared f pss : Prop :=
  bits_shared (flatten (rows f)) (flatten pss) /\ shape pss = nseq (size us) L.
Definition shs2 (i : Role) pss : seq (seq (Share R)) := [seq shs i ps | ps <- pss].

Lemma flatten_shs i pss : flatten (shs2 i pss) = shs i (flatten pss).
Proof. by rewrite /shs map_flatten. Qed.

Lemma shape_rows f : shape (rows f) = nseq (size us) L.
Proof. by rewrite /rows; elim: us => //= u us' ->; rewrite size_mkseq. Qed.

Lemma size_rows f : size (flatten (rows f)) = (size us * L)%N.
Proof. by rewrite size_flatten shape_rows sumn_nseq mulnC. Qed.

Lemma rows_shared_size f pss : rows_shared f pss -> size pss = size us.
Proof. by case=> _ eq_s; rewrite -(size_map size) -/(shape pss) eq_s size_nseq. Qed.

Lemma rows_ext f g pss : (forall u j, (j < L)%N -> f u j = g u j) -> rows_shared f pss -> rows_shared g pss.
Proof.
move=> eq_fg; suff -> : rows_shared f pss = rows_shared g pss by [].
rewrite /rows_shared; congr (bits_shared (flatten _) _ /\ _); apply: eq_map => u.
by apply/eq_in_map => j; rewrite mem_iota => /eq_fg->.
Qed.

Lemma rows_zipw (op : bool -> bool -> bool) f g :
  zipw op (flatten (rows f)) (flatten (rows g)) = flatten (rows (fun u j => op (f u j) (g u j))).
Proof.
by rewrite zipw_flatten => [u|]; rewrite ?size_mkseq //; congr flatten; apply: eq_map => u; rewrite zipw_mkseq.
Qed.

Lemma rows_reshape f ps : bits_shared (flatten (rows f)) ps -> rows_shared f (reshape (nseq (size us) L) ps).
Proof.
move=> hp; have sz : size ps = sumn (nseq (size us) L) by rewrite (bits_size hp) size_rows sumn_nseq mulnC.
by split; rewrite ?reshapeKr ?sz // reshapeKl ?sz.
Qed.

Lemma format_to_batchE i n ps : size ps = (n * L)%N ->
  format_to_batch (shs i ps) n = Ok (shs2 i (reshape (nseq n L) ps)).
Proof.
move=> sz; rewrite (reshape_mkseq 0 sz) /format_to_batch /shs2 -map_comp; apply: rmap_Ok => k.
rewrite mem_iota /= => lt_k; rewrite /shs /mkseq -map_comp; apply: rmap_Ok => j; rewrite mem_iota => lt_j.
have lt_kj : (k * L + j < size ps)%N by rewrite sz; apply: (@leq_trans (k.+1 * L)); rewrite ?leq_mul2r ?lt_k ?orbT // mulSnr ltn_add2l.
by rewrite (vec_indexE _ (sh i 0)) ?size_map // (nth_map 0).
Qed.

(** ** Shifts *)

Definition shift_polys (k : nat) ps : seq {poly R} := nseq k 0 ++ take (size ps - k) ps.

Lemma shift_right_2dE i f pss k : rows_shared f pss -> (k <= L)%N ->
  shift_right_2d (shs2 i pss) k = Ok (shs2 i [seq shift_polys k ps | ps <- pss]).
Proof.
move=> [_ eq_s] le_k; have in_s ps : ps \in pss -> size ps = L.
  by move=> in_ps; apply/eqP; have := map_f size in_ps; rewrite -/(shape pss) eq_s mem_nseq => /andP[].
rewrite /shift_right_2d /shs2; elim: pss in_s {eq_s} => [|ps pss IHp] //= in_s.
rewrite IHp => [qs in_q|]; first by rewrite in_s // inE in_q orbT.
have sz := in_s _ (mem_head _ _); rewrite /shift_right_1d size_map sz ltnNge le_k /=.
case: ps sz {in_s IHp} => [eq0|p ps sz] /=; first by have := @char_log2_gt0 R B; rewrite -eq0.
rewrite /shift_polys /shs map_cat map_nseq map_take sz; congr (Ok ((nseq _ _ ++ _) :: _)).
by rewrite /sh horner0.
Qed.

Lemma shift_row (f : nat -> bool) ps k : bits_shared (mkseq f L) ps -> (k <= L)%N ->
  bits_shared (mkseq (fun j => (k <= j)%N && f (j - k)%N) L) (shift_polys k ps).
Proof.
move=> hp le_k; have sz := bits_size hp; rewrite size_mkseq in sz.
have -> : mkseq (fun j => (k <= j)%N && f (j - k)%N) L = nseq k false ++ take (L - k) (mkseq f L).
  apply: (@eq_from_nth _ false); rewrite ?size_cat size_mkseq ?size_nseq ?size_takel ?size_mkseq ?leq_subr ?subnKC // => j lt_j.
  rewrite nth_mkseq // nth_cat size_nseq nth_nseq; case: ltnP => // le_j /=.
  by rewrite nth_take ?nth_mkseq //; ssrlia.
rewrite /bits_shared /bitv map_cat map_nseq map_take /shift_polys sz; apply: shared_cat.
  by split; rewrite ?map_nseq /secret ?horner0 //; apply/allP => p /nseqP[-> _]; rewrite /of_degree size_poly0.
exact: (shared_take (L - k) hp).
Qed.

Lemma shift_rows f pss k : rows_shared f pss -> (k <= L)%N ->
  rows_shared (fun u j => (k <= j)%N && f u (j - k)%N) [seq shift_polys k ps | ps <- pss].
Proof.
move=> [hp eq_s] le_k; rewrite /rows_shared /rows; move: hp eq_s; rewrite /rows.
elim: us pss => [|u us' IHu] [|ps pss] //= hp [sz eq_s].
rewrite /bits_shared /bitv map_cat in hp *; have [|h1 h2] := shared_split hp; first by rewrite size_map size_mkseq.
have [h3 eq_s'] := IHu _ h2 eq_s; split; first by rewrite map_cat; apply: shared_cat => //; apply: shift_row.
by rewrite eq_s' size_cat size_nseq size_takel ?leq_subr // sz subnKC.
Qed.

(** ** Shared and clear bits *)

Definition clear_rows f : seq (seq R) := [seq bitv (mkseq (f u) L) | u <- us].
Definition mul_clear (p : {poly R}) (r : R) : {poly R} := r *: p.
Definition xor_clear (p : {poly R}) (r : R) : {poly R} := p + r%:P - 2%:R *: (r *: p).

Lemma clear_mul_rowsE i pss (rss : seq (seq R)) : shape pss = shape rss ->
  mul_rows (shs2 i pss) rss = Ok (shs2 i (zipw (zipw mul_clear) pss rss)).
Proof.
move=> eq_s; have eq_z : size pss = size rss by rewrite -(size_map size) -/(shape _) eq_s size_map.
rewrite /mul_rows /zip_eq size_map eq_z eqxx /=; elim: pss rss eq_s {eq_z} => [|ps pss IHp] [|rs rss] //= [eq_r eq_s].
rewrite size_map eq_r eqxx /= IHp //= /zipw /=; congr (Ok (_ :: _)).
rewrite /shs /zipw -map_comp -[rs in zip _ rs]map_id zip_maps -map_comp.
by apply: eq_map => -[p r] /=; rewrite share_mul_constE.
Qed.

Lemma xor_list_secret_clearE i pss (rss : seq (seq R)) : shape pss = shape rss ->
  xor_list_secret_clear (shs2 i pss) rss = Ok (shs2 i (zipw (zipw xor_clear) pss rss)).
Proof.
move=> eq_s; have eq_z : size pss = size rss by rewrite -(size_map size) -/(shape _) eq_s size_map.
rewrite /xor_list_secret_clear clear_mul_rowsE //= /zip_eq !size_map eq_z eqxx /= !(size_zip, size_map) eq_z !minnn eqxx /=.
elim: pss rss eq_s {eq_z} => [|ps pss IHp] [|rs rss] //= [eq_r eq_s].
rewrite size_map eq_r eqxx /= !(size_zip, size_map) eq_r !minnn eqxx /=.
have -> : rmap (fun e : Share R * R * Share R => share_sub (share_add_const e.1.1 e.1.2) (share_mul_const e.2 2%:R))
    (zip (zip (shs i ps) rs) (shs i (zipw mul_clear ps rs))) = Ok (shs i (zipw xor_clear ps rs)).
  elim: ps rs eq_r {IHp eq_s} => [|p ps IHp] [|r rs] //= [eq_r].
  by rewrite share_add_constE share_mul_constE share_subE /= IHp.
by rewrite /= IHp.
Qed.

Section ClearRow.
Variables (op : bool -> bool -> bool) (opp : {poly R} -> R -> {poly R}).
Hypothesis opp_ok : forall p (b c : bool), of_degree t p -> secret p = (b : nat)%:R ->
  of_degree t (opp p (c : nat)%:R) /\ secret (opp p (c : nat)%:R) = (op b c : nat)%:R.

Lemma clear_row_shared bs cs ps : bits_shared bs ps -> size bs = size cs ->
  bits_shared (zipw op bs cs) (zipw opp ps (bitv cs)).
Proof.
move=> hp; have := bits_size hp; elim: bs cs ps hp => [|b bs IHb] [|c cs] [|p ps] //=
  [/= /andP[dp dps] [ep eps]] [sz] [eq_s].
have [] := opp_ok c dp ep => dq eq; have [] := IHb cs ps (conj dps eps) sz eq_s => drs ers.
by split=> /=; rewrite ?dq // eq ers.
Qed.
End ClearRow.

Lemma xor_clear_ok p (b c : bool) : of_degree t p -> secret p = (b : nat)%:R ->
  of_degree t (xor_clear p (c : nat)%:R) /\ secret (xor_clear p (c : nat)%:R) = (b (+) c : nat)%:R.
Proof.
move=> dp ep; rewrite of_degreeB ?of_degreeD ?of_degreeC ?of_degreeZ //; split=> //.
rewrite /secret !(hornerD, hornerN, hornerZ, hornerC) -/(secret p) ep.
by case: b c {ep} => [] [] /=; rewrite ?mulr1 ?mulr0 ?subr0 ?addr0 ?add0r // -natrD subrr.
Qed.

Lemma clear_rows_shared (op : bool -> bool -> bool) (opp : {poly R} -> R -> {poly R}) f g pss :
  (forall p (b c : bool), of_degree t p -> secret p = (b : nat)%:R ->
    of_degree t (opp p (c : nat)%:R) /\ secret (opp p (c : nat)%:R) = (op b c : nat)%:R) ->
  rows_shared f pss -> rows_shared (fun u j => op (f u j) (g u j)) (zipw (zipw opp) pss (clear_rows g)).
Proof.
move=> opp_ok [hp eq_s]; rewrite /rows_shared /rows /clear_rows; move: hp eq_s; rewrite /rows.
elim: us pss => [|u us' IHu] [|ps pss] //= hp [sz eq_s].
rewrite /bits_shared /bitv map_cat in hp *; have [|h1 h2] := shared_split hp; first by rewrite size_map size_mkseq.
have [h3 eq_s'] := IHu _ h2 eq_s; split.
  by rewrite map_cat -zipw_mkseq; apply: shared_cat => //; apply: clear_row_shared; rewrite // !size_mkseq.
by rewrite eq_s' size_zipw sz ?size_map ?size_iota.
Qed.

Lemma and_clear_rows f g pss : rows_shared f pss ->
  rows_shared (fun u j => f u j && g u j) (zipw (zipw mul_clear) pss (clear_rows g)).
Proof.
apply: clear_rows_shared => p b c dp ep; rewrite of_degreeZ //; split=> //.
by rewrite /secret hornerZ -/(secret p) ep; case: b c {ep} => [] [] /=; rewrite ?mulr1 ?mulr0.
Qed.

Lemma xor_clear_rows f g pss : rows_shared f pss ->
  rows_shared (fun u j => f u j (+) g u j) (zipw (zipw xor_clear) pss (clear_rows g)).
Proof. exact: clear_rows_shared xor_clear_ok. Qed.

Lemma shape_clear_rows f g pss : rows_shared f pss -> shape pss = shape (clear_rows g).
Proof.
by case=> _ ->; rewrite /clear_rows /shape -map_comp; elim: us => //= u us' ->; rewrite size_map size_mkseq.
Qed.
End Batch.

(** ** The operations that multiply *)

Context {EC : ErrorCorrect X} {RW : RingWidth R}.
Variable net : Network.
Hypothesis is_ready : ready R net t.

Section Stores.
Context {P : Type} {S : Store P (Triple R)}.
Variable pre : Role -> P.
Local Notation stocked := (stocked pre (@tsh R X)).
Implicit Types (ts rest : seq (PTriple (R := R))).

Lemma bits_and_joint bs cs xs ys ts rest : bits_shared bs xs -> bits_shared cs ys ->
  size bs = size cs -> all (good_triple t) ts -> size ts = size bs ->
  exists2 zs, bits_shared (zipw andb bs cs) zs &
    joint net (fun i => bits_and t (shs i xs) (shs i ys) (stocked (ts ++ rest) i))
      (fun i => (shs i zs, stocked rest i)).
Proof.
move=> hx hy eq_s good sz_t; have sx := bits_size hx; have sy := bits_size hy.
have [||zs hz run] := mult_list_joint is_ready hx hy good; rewrite ?sx ?sy //.
exists zs; first by rewrite /bits_shared -bitv_and.
rewrite /bits_and; apply: (joint_ext (progs := fun i =>
  let! drawn := PDone (next_vec (stocked (ts ++ rest) i) (size ts)) in
  let! prods := mult_list t (shs i xs) (shs i ys) drawn.1 in PDone (Ok (prods, drawn.2)))).
  by move=> i _; rewrite size_map sx sz_t.
apply: joint_draw; apply: (joint_bind run); exact: joint_result.
Qed.

Lemma bits_xor_joint bs cs xs ys ts rest : bits_shared bs xs -> bits_shared cs ys ->
  size bs = size cs -> all (good_triple t) ts -> size ts = size bs ->
  exists2 zs, bits_shared (zipw addb bs cs) zs &
    joint net (fun i => bits_xor t (shs i xs) (shs i ys) (stocked (ts ++ rest) i))
      (fun i => (shs i zs, stocked rest i)).
Proof.
move=> hx hy eq_s good sz_t; have sx := bits_size hx; have sy := bits_size hy.
have [zs hz run] := bits_and_joint rest hx hy eq_s good sz_t.
have sz := bits_size hz; rewrite size_zipw // in sz.
exists [seq xor_poly e.1.1 e.1.2 e.2 | e <- zip (zip xs ys) zs].
  by apply: xor_shared => //; rewrite bitv_and.
apply: (joint_bind run); apply: joint_local; last exact: joint_result.
by move=> i _; rewrite xor_with_prodsE ?sx ?sy.
Qed.

Section BatchOps.
Variables (U : Type) (us : seq U).
Implicit Types (f g h k : U -> nat -> bool).
Local Notation rows_shared := (rows_shared us).

Lemma and_rows_joint f g xss yss ts rest : rows_shared f xss -> rows_shared g yss ->
  all (good_triple t) ts -> size ts = (size us * L)%N ->
  exists2 zss, rows_shared (fun u j => f u j && g u j) zss &
    joint net (fun i => and_list_secret_secret t (shs2 i xss) (shs2 i yss) (stocked (ts ++ rest) i))
      (fun i => (shs2 i zss, stocked rest i)).
Proof.
move=> hx hy good sz_t; have sx := rows_shared_size hx.
have [||zs hz run] := bits_and_joint rest hx.1 hy.1 _ good; rewrite ?size_rows //.
rewrite rows_zipw in hz; exists (reshape (nseq (size us) L) zs); first exact: rows_reshape.
rewrite /and_list_secret_secret; apply: joint_bind.
  by apply: joint_ext run => i _; rewrite !flatten_shs.
apply: joint_local; last exact: joint_result.
by move=> i _; rewrite size_map sx format_to_batchE // (bits_size hz) size_rows.
Qed.

Lemma xor_rows_joint f g xss yss ts rest : rows_shared f xss -> rows_shared g yss ->
  all (good_triple t) ts -> size ts = (size us * L)%N ->
  exists2 zss, rows_shared (fun u j => f u j (+) g u j) zss &
    joint net (fun i => xor_list_secret_secret t (shs2 i xss) (shs2 i yss) (stocked (ts ++ rest) i))
      (fun i => (shs2 i zss, stocked rest i)).
Proof.
move=> hx hy good sz_t; have sx := rows_shared_size hx.
have [||zs hz run] := bits_xor_joint rest hx.1 hy.1 _ good; rewrite ?size_rows //.
rewrite rows_zipw in hz; exists (reshape (nseq (size us) L) zs); first exact: rows_reshape.
rewrite /xor_list_secret_secret; apply: joint_guard.
  by move=> i _; rewrite !flatten_shs !size_map (bits_size hx.1) (bits_size hy.1) !size_rows modnMl.
apply: joint_bind; first by apply: joint_ext run => i _; rewrite !flatten_shs.
apply: joint_local; last exact: joint_result.
by move=> i _; rewrite size_map sx format_to_batchE // (bits_size hz) size_rows.
Qed.

Lemma compressed_joint f g h k xss yss xss' yss' ts rest :
  rows_shared f xss -> rows_shared g yss -> rows_shared h xss' -> rows_shared k yss' ->
  all (good_triple t) ts -> size ts = (2 * (size us * L))%N ->
  exists2 rs, rows_shared (fun u j => f u j (+) g u j) rs.1 /\ rows_shared (fun u j => h u j && k u j) rs.2 &
    joint net (fun i => compressed_xor_and t (shs2 i xss) (shs2 i yss) (shs2 i xss') (shs2 i yss') (stocked (ts ++ rest) i))
      (fun i => (shs2 i rs.1, shs2 i rs.2, stocked rest i)).
Proof.
move=> hx hy hx' hy' good sz_t; set m := (size us * L)%N in sz_t *.
have sx : size (flatten xss) = m by rewrite (bits_size hx.1) size_rows.
have hall := shared_cat hx.1 hx'.1; have hall' := shared_cat hy.1 hy'.1; rewrite -!map_cat in hall hall'.
have [||zs hz run] := bits_and_joint rest hall hall' _ good; rewrite ?size_cat ?size_rows ?sz_t ?mul2n ?addnn //.
rewrite zipw_cat ?size_rows // !rows_zipw in hz.
have size_z : size zs = (m + m)%N by rewrite (bits_size hz) size_cat !size_rows.
have h1 := shared_take m hz; have h2 := shared_drop m hz.
rewrite -map_take take_size_cat ?size_rows // in h1; rewrite -map_drop drop_size_cat ?size_rows // in h2.
pose xor_ := [seq xor_poly e.1.1 e.1.2 e.2 | e <- zip (zip (flatten xss) (flatten yss)) (take m zs)].
have hxor : bits_shared (flatten (rows us (fun u j => f u j (+) g u j))) xor_.
  rewrite -rows_zipw; apply: xor_shared => //; first exact: hx.1; first exact: hy.1.
    by rewrite !size_rows.
  by rewrite bitv_and rows_zipw.
exists (reshape (nseq (size us) L) xor_, reshape (nseq (size us) L) (drop m zs)).
  by split; apply: rows_reshape.
rewrite /compressed_xor_and; apply: joint_bind.
  by apply: joint_ext run => i _; rewrite !flatten_shs /shs !map_cat.
have sy : size (flatten yss) = m by rewrite (bits_size hy.1) size_rows.
have size_lhs i : size (flatten (shs2 i xss)) = m by rewrite flatten_shs size_map.
apply: joint_local => [i _|]; first by rewrite size_lhs vec_sliceE ?size_z ?leq_addr ?drop0.
apply: joint_local => [i _|]; first by rewrite !flatten_shs xor_with_prodsE ?sx ?sy // size_takel ?size_z ?leq_addr.
apply: joint_local => [i _|].
  by rewrite size_map (rows_shared_size hx) format_to_batchE // (bits_size hxor) size_rows.
apply: joint_local => [i _|].
  by rewrite size_lhs size_map size_z vec_sliceE ?size_z ?leq_addr.
apply: joint_local => [i _|]; last exact: joint_result.
rewrite size_map (rows_shared_size hx') -size_z take_size format_to_batchE //.
by rewrite size_drop size_z addnK.
Qed.
End BatchOps.
End Stores.
End Rows.
