(* ===== verification/BitAdder.v ===== *)
(** * The binary adder and the decomposition into bits (the theory of BitOps)

    The rounds of the adder double the window over which carries are known, and
    the last one covers the word; the decomposition adds the bits of the mask to
    the bits of the opened difference. *)

From Stdlib Require Import String.
From mathcomp Require Import boot.
From mathcomp Require Import ssralg poly ring_tactic.
From S2P Require Import Prelude SsrLia Role PolyOps Structure Shamir ErrorCorrection OpenList Protocol Triples BitOps BitRows.
From S2P Require Import GaloisRing.

Set Implicit Arguments.
Unset Strict Implicit.
Unset Printing Implicit Defensive.

Import GRing.Theory.
Local Open Scope ring_scope.

(** ** Carries *)

Lemma bits_valueS (f : nat -> bool) n : bits_value f n.+1 = (bits_value f n + f n * 2 ^ n)%N.
Proof. by rewrite /bits_value big_ord_recr. Qed.

Lemma eq_bits_value (f g : nat -> bool) n : (forall j, f j = g j) -> bits_value f n = bits_value g n.
Proof. by move=> eq_fg; apply: eq_bigr => j _; rewrite eq_fg. Qed.

Lemma bits_value_split (f : nat -> bool) j n : (j < n)%N ->
  exists h, bits_value f n = (bits_value f j + (f j + h.*2) * 2 ^ j)%N.
Proof.
elim: n => // n IHn; rewrite ltnS leq_eqVlt bits_valueS => /predU1P[->|lt_j].
  by exists 0%N; rewrite addn0.
have [h ->] := IHn lt_j; exists (h + f n * 2 ^ (n - j.+1))%N.
have -> : (2 ^ n = 2 ^ (n - j.+1) * 2 * 2 ^ j)%N by rewrite -expnSr -expnD; congr expn; ssrlia.
by rewrite -!muln2; ssrlia.
Qed.

Section Carry.
Variables a b : nat -> bool.

(** The carry out of position [j] produced by the [m] positions up to it, and
    that all of them propagate. *)
Fixpoint window_carry (m j : nat) : bool :=
  if m is m'.+1 then (a j && b j) || (a j (+) b j) && (if j is j'.+1 then window_carry m' j' else false)
  else false.
Definition window_prop (m j : nat) : bool :=
  (m <= j.+1)%N && all (fun k => a (j - k) (+) b (j - k)) (iota 0 m).

Lemma window_propS m j : window_prop m.+1 j.+1 = (a j.+1 (+) b j.+1) && window_prop m j.
Proof.
rewrite /window_prop /= ltnS subn0 andbCA; congr (_ && (_ && _)).
by rewrite -[1%N]addn0 iotaDl all_map; apply: eq_all => k /=.
Qed.

Lemma window_prop_add m n j : (0 < n)%N ->
  window_prop (m + n) j = window_prop m j && ((m <= j)%N && window_prop n (j - m)).
Proof.
move=> n_gt0; rewrite /window_prop iotaD all_cat.
have -> : all (fun k => a (j - k) (+) b (j - k)) (iota m n) = all (fun k => a (j - m - k) (+) b (j - m - k)) (iota 0 n).
  by rewrite -[m in iota m]addn0 iotaDl all_map; apply: eq_all => k /=; rewrite subnDA.
by case: (all _ (iota 0 m)); case: (all _ (iota 0 n)); rewrite ?andbT ?andbF //; apply/idP/idP; ssrlia.
Qed.

Lemma window_carry_add m n j :
  window_carry (m + n) j = window_carry m j || window_prop m j && ((m <= j)%N && window_carry n (j - m)).
Proof.
elim: m j => [|m IHm] j /=; first by rewrite /window_prop subn0.
case: j => [|j]; first by rewrite ltn0 !andbF !orbF.
by rewrite IHm window_propS ltnS subSS andb_orr orbA !andbA.
Qed.

Lemma window_exclusive m j : window_prop m j -> window_carry m j = false.
Proof.
elim: m j => [|m IHm] [|j] //=.
  by rewrite /window_prop /= => /andP[_ /andP[]]; case: (a 0%N) (b 0%N) => [] [].
by rewrite window_propS => /andP[+ /IHm->]; case: (a j.+1) (b j.+1) => [] [].
Qed.

(** One round. *)
Lemma window_carry_double m j : window_carry (m + m) j
  = window_carry m j (+) (window_prop m j && ((m <= j)%N && window_carry m (j - m))).
Proof.
rewrite window_carry_add; case prop: (window_prop m j); last by rewrite !andFb orbF addbF.
by rewrite (window_exclusive prop).
Qed.

(** A window that reaches position zero gives the carry of the addition. *)
Lemma window_carryE m j : (j < m)%N ->
  window_carry m j = (2 ^ j.+1 <= bits_value a j.+1 + bits_value b j.+1)%N.
Proof.
elim: j m => [|j IHj] [|m] // lt_j.
  by rewrite /= /bits_value !big_ord_recr !big_ord0 /=; case: (a 0%N) (b 0%N) => [] [].
rewrite /= IHj // !(bits_valueS _ j.+1) [(2 ^ j.+2)%N]expnS.
have := bits_value_lt a j.+1; have := bits_value_lt b j.+1.
by case: (a j.+1) (b j.+1) => [] [] /= lt_a lt_b; apply/idP/idP; ssrlia.
Qed.

(** The bits of the sum. *)
Lemma sum_bit L j : (j < L)%N -> odd ((bits_value a L + bits_value b L) %/ 2 ^ j)
  = a j (+) b j (+) ((0 < j)%N && window_carry L j.-1).
Proof.
move=> lt_j; have [ha ->] := bits_value_split a lt_j; have [hb ->] := bits_value_split b lt_j.
rewrite addnACA -mulnDl [(bits_value a j + _ + _)%N]addnC divnMDl ?expn_gt0 // oddD addnACA -doubleD !oddD odd_double addbF !oddb; congr (_ (+) _).
have lt_a := bits_value_lt a j; have lt_b := bits_value_lt b j.
case: j lt_j lt_a lt_b => [|j] lt_j lt_a lt_b; first by rewrite /bits_value !big_ord0.
rewrite window_carryE ?(ltnW lt_j) //=; case: leqP => [le_s|lt_s]; last by rewrite divn_small.
by rewrite -(subnK le_s) divnDr ?dvdnn // divnn expn_gt0 /= divn_small //; ssrlia.
Qed.
End Carry.

(** ** The adder *)

Section Adder.
Context {R : comNzRingType} {X : ExceptionalSequence R} {B : BitRing R}.
Context {EC : ErrorCorrect X} {RW : RingWidth R}.
Variables (net : Network) (t : nat).
Hypothesis is_ready : ready R net t.
Hypothesis pow_char : (2 ^ trunc_log 2 (@CHAR_LOG2 R B))%N = @CHAR_LOG2 R B.
Local Notation L := (@CHAR_LOG2 R B).
Context {P : Type} {S : Store P (Triple R)}.
Variable pre : Role -> P.
Local Notation stocked := (stocked pre (@tsh R X)).
Local Notation good := (all (good_triple t)).
Implicit Types (ts rest : seq (PTriple (R := R))) (us : seq ((nat -> bool) * (nat -> bool))).

Lemma split_seq (T : Type) (s : seq T) n m : size s = (n + m)%N ->
  exists s1 s2, [/\ s = s1 ++ s2, size s1 = n & size s2 = m].
Proof.
move=> sz; exists (take n s), (drop n s).
by rewrite cat_take_drop size_drop size_takel sz ?leq_addr // addKn.
Qed.

Lemma adder_rounds_joint us i n gss pss ts rest :
  rows_shared t us (fun u => window_carry u.1 u.2 (2 ^ i)) gss ->
  rows_shared t us (fun u => window_prop u.1 u.2 (2 ^ i)) pss ->
  (2 ^ (i + n) <= L)%N -> good ts -> size ts = (3 * n * (size us * L))%N ->
  exists2 gss', rows_shared t us (fun u => window_carry u.1 u.2 (2 ^ (i + n))) gss' &
    joint net (fun r => adder_rounds t i n (shs2 r gss) (shs2 r pss) (stocked (ts ++ rest) r))
      (fun r => (shs2 r gss', stocked rest r)).
Proof.
set m := (size us * L)%N; elim: n i gss pss ts => [|n IHn] i gss pss ts hg hp le_L gts sz_t.
  exists gss; first by rewrite addn0.
  by have /size0nil -> : size ts = 0%N by [rewrite sz_t muln0]; apply: joint_result.
have [ts1 [ts' [eq_t sz1]]] : exists s1 s2, [/\ ts = s1 ++ s2, size s1 = m & size s2 = (2 * m + 3 * n * m)%N].
  by apply: split_seq; rewrite sz_t; ssrlia.
case/split_seq=> ts2 [ts3 [eq_t' sz2 sz3]]; rewrite eq_t eq_t' -!catA.
move: gts; rewrite eq_t eq_t' !all_cat => /and3P[g1 g2 g3].
have le_i : (2 ^ i <= L)%N by rewrite (leq_trans _ le_L) // leq_exp2l // leq_addr.
have hp1 := shift_rows hp le_i; have hg1 := shift_rows hg le_i.
have [zss hz run1] := and_rows_joint is_ready pre (ts2 ++ ts3 ++ rest) hp hg1 g1 sz1.
have [[gss1 pss1] /= [hg2 hp2] run2] := compressed_joint is_ready pre (ts3 ++ rest) hg hz hp hp1 g2 sz2.
have double : (2 ^ i.+1 = 2 ^ i + 2 ^ i)%N by rewrite expnS mul2n addnn.
have [|||||gss' hg' run3] := IHn i.+1 gss1 pss1 ts3; rewrite ?addSnnS //.
- by apply: rows_ext hg2 => u j _; rewrite double window_carry_double.
- by apply: rows_ext hp2 => u j _; rewrite double window_prop_add ?expn_gt0.
exists gss'; first by rewrite addnS -addSn.
apply: joint_local => [r _|]; first exact: shift_right_2dE hp le_i.
apply: joint_local => [r _|]; first exact: shift_right_2dE hg le_i.
by apply: (joint_bind run1); apply: (joint_bind run2).
Qed.

(** The triples an adder uses for one entry. *)
Definition adder_triples : nat := (3 * trunc_log 2 L + 1) * L.

Lemma binary_adder_joint us xss ts rest : rows_shared t us fst xss -> (0 < size us)%N ->
  good ts -> size ts = (size us * adder_triples)%N ->
  exists2 zss, rows_shared t us (fun u j => odd ((bits_value u.1 L + bits_value u.2 L) %/ 2 ^ j)) zss &
    joint net (fun r => binary_adder_secret_clear t (shs2 r xss) (clear_rows us snd) (stocked (ts ++ rest) r))
      (fun r => (shs2 r zss, stocked rest r)).
Proof.
move=> hx us_gt0 gts; rewrite /adder_triples mulnCA => sz_t.
have [ts1 [ts2 [eq_t sz1 sz2]]] : exists s1 s2,
    [/\ ts = s1 ++ s2, size s1 = (3 * trunc_log 2 L * (size us * L))%N & size s2 = (size us * L)%N].
  by apply: split_seq; rewrite sz_t; ssrlia.
move: gts; rewrite eq_t all_cat -catA => /andP[g1 g2].
have hg := and_clear_rows snd hx; have hp := xor_clear_rows snd hx; have eq_s := shape_clear_rows snd hx.
have [|||||gss hg' run1] := @adder_rounds_joint us 0 (trunc_log 2 L)
  (zipw (zipw (@mul_clear R)) xss (clear_rows us snd)) (zipw (zipw (@xor_clear R)) xss (clear_rows us snd)) ts1 (ts2 ++ rest).
- by apply: rows_ext hg => -[a b] [|j] _ /=; rewrite ?andbF ?orbF.
- by apply: rows_ext hp => -[a b] j _; rewrite /window_prop /= subn0 andbT.
- by rewrite add0n pow_char.
- by [].
- by [].
have hc := shift_rows hg' char_log2_gt0; rewrite add0n pow_char in hc hg'.
have [zss hz run2] := xor_rows_joint is_ready pre rest hc hp g2 sz2.
exists zss; first by apply: rows_ext hz => u j lt_j; rewrite sum_bit // addbC subn1.
rewrite /binary_adder_secret_clear.
apply: joint_local => [r _|]; first exact: xor_list_secret_clearE.
apply: joint_local => [r _|]; first exact: clear_mul_rowsE.
apply: joint_local => [r _|].
  by rewrite (vec_indexE _ [::]) // size_map (rows_shared_size hx).
apply: joint_guard => [r _|].
  rewrite (nth_map [::]) ?(rows_shared_size hx) // size_map.
  have : nth [::] xss 0 \in xss by rewrite mem_nth // (rows_shared_size hx).
  by move/(map_f size); rewrite -/(shape xss) hx.2 mem_nseq => /andP[_ /eqP->]; rewrite eqxx.
apply: (joint_bind run1); apply: joint_local => [r _|]; last exact: run2.
exact: (shift_right_2dE _ hg' char_log2_gt0).
Qed.
End Adder.
