(* ===== verification/BitDec.v ===== *)
(** * The decomposition of shared values (the theory of BitOps)

    The sum of shared bits, the masks that [bit_dec_batch] makes of random bits,
    the decomposition itself and the extraction of the plaintexts. *)

From Stdlib Require Import String.
From mathcomp Require Import boot.
From mathcomp Require Import ssralg poly ring_tactic.
From S2P Require Import Prelude SsrLia Role PolyOps Structure Shamir ErrorCorrection OpenList Protocol Triples BitOps BitRows.
From S2P Require Import GaloisRing BitAdder.

Set Implicit Arguments.
Unset Strict Implicit.
Unset Printing Implicit Defensive.

Import GRing.Theory.
Local Open Scope ring_scope.

(** ** Sums of bits *)

Section Sums.
Context {R : comNzRingType} {X : ExceptionalSequence R} {B : BitRing R}.
Variable t : nat.
Local Notation L := (@CHAR_LOG2 R B).
Implicit Types (ps qs : seq {poly R}).

Definition sum_poly ps : {poly R} := \sum_(k < size ps) 2%:R ^+ k *: ps`_k.

Lemma bit_sumE i ps : (0 < size ps <= L)%N -> bit_sum (shs i ps) = Ok (sh i (sum_poly ps)).
Proof.
case: ps => // p0 ps' /andP[_ le_L].
pose f (res : R) (ib : nat * Share R) : Res string R := if share_owner ib.2 != i
  then Err "Mismatched owners in the values to compute bit sum of"%string
  else Ok (res + @bit_shl R B (share_value ib.2) ib.1).
set ps := p0 :: ps' in le_L *; change (bit_sum (shs i ps)) with
  (let* res := rfold f 0 (enumerate (shs i ps)) in Ok (mkShare i res)).
have foldE m acc qs : (m + size qs <= L)%N -> rfold f acc (zip (iota m (size qs)) (shs i qs))
    = Ok (acc + (\sum_(k < size qs) 2%:R ^+ (m + k) *: qs`_k).[point i]).
  elim: qs m acc => [|q qs IHq] m acc le_m /=; first by rewrite big_ord0 horner0 addr0.
  rewrite /f /= eqxx /= -/f IHq; first by rewrite addSnnS.
  rewrite big_ord_recl /= addn0 hornerD hornerZ bit_shlE; first by rewrite -addn1 (leq_trans _ le_m) // leq_add2l.
  by rewrite addrA; congr (Ok (_ + _.[_])); apply: eq_bigr => k _; rewrite addSnnS.
by rewrite /enumerate size_map (foldE 0%N) //= add0r.
Qed.

Lemma bits_sum_shared (f : nat -> bool) n ps : bits_shared t (mkseq f n) ps ->
  of_degree t (sum_poly ps) /\ secret (sum_poly ps) = (bits_value f n)%:R.
Proof.
move=> [dp eps]; have sz : size ps = n by rewrite -(size_map secret) eps size_map size_mkseq.
split; rewrite /sum_poly.
  elim/big_ind: _ => [|p q|k _]; [by rewrite /of_degree size_poly0 | exact: of_degreeD |].
  by apply: of_degreeZ; apply: (allP dp); rewrite mem_nth.
rewrite /secret horner_sum sz /bits_value natr_sum; apply: eq_bigr => k _.
rewrite hornerZ natrM natrX mulrC; congr (_ * _).
by have := congr1 (nth 0 ^~ k) eps; rewrite (nth_map 0) ?sz // (nth_map false) ?size_mkseq // nth_mkseq.
Qed.

(** ** Masks *)

Lemma pop_bitsE i n qs acc : (n <= size qs)%N ->
  pop_bits n (shs i (rev qs)) (shs i acc) = Ok (shs i (acc ++ take n qs), shs i (rev (drop n qs))).
Proof.
elim: n qs acc => [|n IHn] qs acc; first by rewrite take0 drop0 cats0.
case: qs => // q qs; rewrite ltnS => le_n.
by rewrite /= rev_cons /shs map_rcons vec_popE /= -map_rcons IHn // cat_rcons.
Qed.

Lemma make_masksE i n qs : size qs = (n * L)%N ->
  make_masks (shs i (rev qs)) n
  = Ok (shs i [seq sum_poly ps | ps <- reshape (nseq n L) qs], shs2 i (reshape (nseq n L) qs)).
Proof.
move=> sz; rewrite /make_masks; set f := (X in rfold X).
have foldE k m ms rs ps : size ps = (k * L)%N -> rfold f (shs i (rev ps), (shs i ms, shs2 i rs)) (iota m k)
    = Ok (shs i [::], (shs i (ms ++ [seq sum_poly p | p <- reshape (nseq k L) ps]), shs2 i (rs ++ reshape (nseq k L) ps))).
  elim: k m ms rs ps => [|k IHk] m ms rs ps sz_p; first by move/size0nil: sz_p => ->; rewrite !cats0.
  have le_L : (L <= size ps)%N by rewrite sz_p mulSn leq_addr.
  rewrite /= {1}/f (pop_bitsE _ [::]) //= bit_sumE ?size_takel ?char_log2_gt0 ?leqnn //=.
  rewrite -!map_rcons IHk ?size_drop ?sz_p ?mulSn ?addKn //.
  by rewrite !cat_rcons.
by rewrite (foldE n 0%N [::] [::]).
Qed.
End Sums.

(** ** Arithmetic of the decomposition *)

Lemma bit_mod x L j : (j < L)%N -> odd ((x %% 2 ^ L) %/ 2 ^ j) = odd (x %/ 2 ^ j).
Proof.
move=> lt_j; rewrite {2}(divn_eq x (2 ^ L)) -(subnK (ltnW lt_j)) expnD mulnA divnMDl ?expn_gt0 //.
by rewrite oddD oddM oddX subn_eq0 leqNgt lt_j orbF /= andbF.
Qed.

Lemma bits_valueK x L : bits_value (fun j => odd (x %/ 2 ^ j)) L = (x %% 2 ^ L)%N.
Proof.
elim: L => [|L IHL]; first by rewrite /bits_value big_ord0 expn0 modn1.
have lt_r : (x %% 2 ^ L < 2 ^ L)%N by rewrite ltn_pmod ?expn_gt0.
have eq_x : x = ((x %/ 2 ^ L)./2 * 2 ^ L.+1 + (x %% 2 ^ L + odd (x %/ 2 ^ L) * 2 ^ L))%N.
  rewrite {1}(divn_eq x (2 ^ L)) -{1}(odd_double_half (x %/ 2 ^ L)) expnS mulnDl -muln2.
  by move: (odd _) (_./2) (x %% _)%N => o h r; ssrlia.
rewrite bits_valueS IHL [in RHS]eq_x modnMDl [RHS]modn_small //.
by rewrite expnS mul2n -addnn; case: (odd _); rewrite ?mul1n ?mul0n ?addn0 ?ltn_add2r // ltn_addr.
Qed.

Section Decomposition.
Context {R : comNzRingType} {X : ExceptionalSequence R} {B : BitRing R}.
Local Notation L := (@CHAR_LOG2 R B).

(** The value that is opened for the secret [n] and the mask [r]. *)
Definition masked_value (n r : nat) : nat := n + 2 ^ L - r.

Lemma masked_valueE n r : (r < 2 ^ L)%N -> n%:R - r%:R = (masked_value n r)%:R :> R.
Proof.
move=> lt_r; rewrite /masked_value natrB; first by rewrite ltnW // ltn_addl.
by rewrite natrD natrX two_char addr0.
Qed.

Lemma masked_sum n r j : (r < 2 ^ L)%N -> (j < L)%N ->
  odd ((r + masked_value n r %% 2 ^ L) %/ 2 ^ j) = odd (n %/ 2 ^ j).
Proof.
move=> lt_r lt_j; rewrite -(bit_mod _ lt_j) modnDmr /masked_value subnKC; first by rewrite ltnW // ltn_addl.
by rewrite modnDr bit_mod.
Qed.

Lemma clear_bitsE n : clear_bits (n%:R : R) = Ok (bitv (mkseq (fun j => odd (n %/ 2 ^ j)) L)).
Proof.
rewrite /clear_bits to_scalarE /=; congr (Ok (bitv _)).
by apply/eq_in_map => j; rewrite mem_iota => lt_j; rewrite /scalar_bit bit_mod.
Qed.
End Decomposition.

(** ** The decomposition *)

Section BitDec.
Context {R : comNzRingType} {X : ExceptionalSequence R} {B : BitRing R}.
Context {EC : ErrorCorrect X} {RW : RingWidth R}.
Variables (net : Network) (t : nat).
Hypothesis is_ready : ready R net t.
Hypothesis pow_char : (2 ^ trunc_log 2 (@CHAR_LOG2 R B))%N = @CHAR_LOG2 R B.
Local Notation L := (@CHAR_LOG2 R B).
Context {P : Type} {S : Store P (Triple R)} {SB : Store P (Share R)} {I : Independent S SB}.
Variable pre : Role -> P.
Implicit Types (ts rest : seq (PTriple (R := R))) (rs brest ins : seq {poly R}) (ns : seq nat).

Local Notation stocked2 := (stocked2 (S := S) (SB := SB) pre).

(** The entries of a batch: the bits of the mask and those of the opened value. *)
Definition entry_bits (bs : seq bool) (k : nat) (j : nat) : bool := nth false bs (k * L + j).
Definition entries (bs : seq bool) ns : seq ((nat -> bool) * (nat -> bool)) :=
  [seq (entry_bits bs k, fun j => odd (masked_value (R := R) (nth 0%N ns k) (bits_value (entry_bits bs k) L) %/ 2 ^ j))
  | k <- iota 0 (size ns)].

Lemma rows_entries bs ns : size bs = (size ns * L)%N -> flatten (rows (entries bs ns) fst) = bs.
Proof.
move=> sz; rewrite /rows /entries -map_comp -[LHS]/(flatten [seq mkseq (entry_bits bs k) L | k <- iota 0 (size ns)]).
by rewrite -(reshape_mkseq false sz) reshapeKr // sumn_nseq sz mulnC.
Qed.

(** The output of the adder on the entries. *)
Lemma entries_sum bs ns :
  rows (entries bs ns) (fun u j => odd ((bits_value u.1 L + bits_value u.2 L) %/ 2 ^ j))
  = rows ns (fun n j => odd (n %/ 2 ^ j)).
Proof.
rewrite /rows /entries -map_comp -[in RHS](mkseq_nth 0%N ns) -map_comp; apply: eq_map => k /=.
apply/eq_in_map => j; rewrite mem_iota => lt_j.
by rewrite bits_valueK masked_sum ?bits_value_lt.
Qed.
(** The masks and the masked secrets. *)
Lemma masks_shared bs ns pss : rows_shared t (entries bs ns) fst pss ->
  shared t [seq (bits_value (entry_bits bs k) L)%:R | k <- iota 0 (size ns)] [seq sum_poly ps | ps <- pss].
Proof.
rewrite /rows_shared /rows /entries -map_comp size_map => -[].
elim: (iota 0 (size ns)) pss => [|k ks IHk] [|ps pss] //= hp [sz eq_s].
rewrite /bits_shared /bitv map_cat in hp; have [|h1 h2] := shared_split hp; first by rewrite size_map size_mkseq.
have [d e] := bits_sum_shared h1; have [ds es] := IHk _ h2 eq_s; split=> /=; first by rewrite d.
by rewrite e es.
Qed.

Definition opened_values bs ns : seq nat :=
  [seq masked_value (R := R) (nth 0%N ns k) (bits_value (entry_bits bs k) L) | k <- iota 0 (size ns)].

Lemma masked_shared bs ns ins ms : shared t [seq n%:R | n : nat <- ns] ins ->
  shared t [seq (bits_value (entry_bits bs k) L)%:R | k <- iota 0 (size ns)] ms ->
  shared t [seq n%:R | n : nat <- opened_values bs ns] (zipw (fun p q => p - q) ins ms).
Proof.
move=> hi hm; have -> : [seq n%:R | n : nat <- opened_values bs ns]
    = [seq vw.1 - vw.2 | vw <- zip [seq n%:R | n : nat <- ns] [seq (bits_value (entry_bits bs k) L)%:R | k <- iota 0 (size ns)]] :> seq R.
  rewrite -{2}[ns](mkseq_nth 0%N) /mkseq -map_comp zip_maps -!map_comp /opened_values.
  elim: (iota 0 (size ns)) => //= k ks ->; by rewrite masked_valueE ?bits_value_lt.
apply: (shared_zip (f := fun x y => x - y) (g := fun p q => p - q) _ _ hi hm) => p q; first exact: of_degreeB.
by rewrite /secret hornerD hornerN.
Qed.

Lemma clear_entries bs ns : rmap (@clear_bits R B) [seq n%:R | n : nat <- opened_values bs ns]
  = Ok (clear_rows (entries bs ns) snd).
Proof.
rewrite /clear_rows /entries /opened_values -!map_comp.
by elim: (iota 0 (size ns)) => //= k ks ->; rewrite clear_bitsE.
Qed.

(** The parties that hold shares of values of the base ring end with shares of
    their bits. *)
Lemma bit_dec_joint ns ins (bs : seq bool) rs brest ts rest :
  shared t [seq n%:R | n : nat <- ns] ins -> bits_shared t bs rs -> size bs = (L * size ns)%N ->
  (0 < size ns)%N -> all (good_triple t) ts -> size ts = (size ns * adder_triples (R := R))%N ->
  exists2 zss, rows_shared t ns (fun n j => odd (n %/ 2 ^ j)) zss &
    joint net (fun r => bit_dec_batch t (stocked2 (rs ++ brest) (ts ++ rest) r) (shs r ins))
      (fun r => (shs2 r zss, stocked2 brest rest r)).
Proof.
move=> hi hb sz_b ns_gt0 gts sz_t; have sz_i : size ins = size ns by rewrite (shared_size hi) size_map.
have sz_r : size (rev rs) = (size ns * L)%N by rewrite size_rev (bits_size hb) sz_b mulnC.
have size_e : size (entries (rev bs) ns) = size ns by rewrite size_map size_iota.
have hrows : rows_shared t (entries (rev bs) ns) fst (reshape (nseq (size ns) L) (rev rs)).
  rewrite -{1}size_e; apply: rows_reshape; rewrite rows_entries ?size_rev ?sz_b 1?mulnC //.
  by case: hb => d e; split; rewrite ?all_rev // map_rev e /bitv map_rev.
have hmask := masks_shared hrows; have hopen := masked_shared hi hmask.
have [||zss hz run] := binary_adder_joint is_ready pow_char (fun r => with_contents (pre r) (shs r brest)) rest hrows _ gts;
  rewrite ?size_e //.
exists zss; first by move: hz; rewrite /rows_shared entries_sum size_e.
apply: joint_local => [r _|]; first by rewrite size_map sz_i -sz_b -(bits_size hb) draw_shares.
apply: joint_local => [r _|]; first by rewrite size_map sz_i -[rs in shs r rs]revK make_masksE.
apply: joint_guard => [r _|]; first by rewrite !size_map size_reshape size_nseq sz_i eqxx.
apply: joint_local => [r _|].
  rewrite /zip_eq !size_map size_reshape size_nseq sz_i eqxx /=.
  set ms := map _ (reshape _ _); rewrite (_ : rmap _ _ = Ok (shs r (zipw (fun p q => p - q) ins ms))) //.
  by rewrite /shs /zipw zip_maps -map_comp; elim: (zip ins ms) => //= -[p q] l IHl /=; rewrite share_subE /= IHl.
apply: (open_list_joint is_ready hopen); apply: joint_local => [r _|]; first exact: clear_entries.
exact: run.
Qed.
End BitDec.

(** ** Extraction *)

Section Extract.
Context {R : comNzRingType} {X : ExceptionalSequence R} {B : BitRing R}.
Variable t : nat.
Local Notation L := (@CHAR_LOG2 R B).
Variable message_mod_bits : nat.
Hypothesis mod_gt0 : (0 < message_mod_bits)%N.
Hypothesis mod_lt : (message_mod_bits < L)%N.
Local Notation offset := (L - (message_mod_bits + 1))%N.
Implicit Types (row : seq {poly R}) (pss : seq (seq {poly R})).

Definition sign_poly row : {poly R} := row`_(L - 1).
Definition plaintext_polys row : seq {poly R} := drop offset (take (L - 1) row).

Lemma bits_slice (f : nat -> bool) row : bits_shared t (mkseq f L) row ->
  bits_shared t (mkseq (fun j => f (offset + j)%N) message_mod_bits) (plaintext_polys row).
Proof.
move=> hr; have := shared_drop offset (shared_take (L - 1) hr); rewrite /bits_shared /bitv.
suff -> : mkseq (fun j => f (offset + j)%N) message_mod_bits = drop offset (take (L - 1) (mkseq f L)) by rewrite map_drop map_take.
rewrite /mkseq -map_take -map_drop take_iota drop_iota add0n (minn_idPl _) ?leq_subr //.
have -> : (L - 1 - offset)%N = message_mod_bits by move: mod_lt; ssrlia.
have -> : iota offset message_mod_bits = map (addn offset) (iota 0 message_mod_bits) by rewrite -iotaDl addn0.
by rewrite -map_comp.
Qed.

Lemma extract_row r (f : nat -> bool) row : bits_shared t (mkseq f L) row ->
  (if (L < message_mod_bits + 1)%N then Panic
   else
     let* plaintext_bits := vec_slice (shs r row) offset (L - 1) in
     let* plaintext_sum := bit_sum plaintext_bits in
     let* sign_bit := vec_index (shs r row) (L - 1) in
     Ok (sign_bit, plaintext_sum)) = Ok (sh r (sign_poly row), sh r (sum_poly (plaintext_polys row))) :> Res string _.
Proof.
move=> hr; have sz := bits_size hr; rewrite size_mkseq in sz; have szp := bits_size (bits_slice hr); rewrite size_mkseq in szp.
have guard : (L < message_mod_bits + 1)%N = false by rewrite ltnNge addn1 mod_lt.
rewrite guard vec_sliceE ?sz ?leq_subr //; first by move: mod_lt; ssrlia.
rewrite -[[seq sh r p | p <- _]]/(shs r (plaintext_polys row)) /= bit_sumE ?szp ?mod_gt0 ?(ltnW mod_lt) //=.
have lt1 : (L - 1 < size row)%N by rewrite sz subn1 prednK ?char_log2_gt0.
by rewrite (vec_indexE _ (sh r 0)) ?size_map //= (nth_map 0).
Qed.

Lemma extract_rows r (U : Type) (us : seq U) f pss : rows_shared t us f pss ->
  [/\ rmap (fun partial_dec =>
        if (L < message_mod_bits + 1)%N then Panic
        else
          let* plaintext_bits := vec_slice partial_dec offset (L - 1) in
          let* plaintext_sum := bit_sum plaintext_bits in
          let* sign_bit := vec_index partial_dec (L - 1) in
          Ok (sign_bit, plaintext_sum)) (shs2 r pss)
      = Ok (zip (shs r (map sign_poly pss)) (shs r [seq sum_poly (plaintext_polys row) | row <- pss])),
      shared t [seq (f u (L - 1)%N : nat)%:R | u <- us] (map sign_poly pss)
    & shared t [seq (bits_value (fun j => f u (offset + j)%N) message_mod_bits)%:R | u <- us]
        [seq sum_poly (plaintext_polys row) | row <- pss]].
Proof.
rewrite /rows_shared /rows => -[]; elim: us pss => [|u us IHu] [|row pss] //= hp [sz eq_s].
rewrite /bits_shared /bitv map_cat in hp; have [|h1 h2] := shared_split hp; first by rewrite size_map size_mkseq.
have [eq_r [ds es] [dp ep]] := IHu pss h2 eq_s; rewrite (extract_row _ h1) /= eq_r /=.
have [d e] := bits_sum_shared (bits_slice h1).
split=> //; split=> /=; rewrite ?d ?ds ?dp ?e ?ep ?es //.
  by rewrite andbT; apply: (allP h1.1); rewrite mem_nth // sz subn1 prednK ?char_log2_gt0.
congr (_ :: _); have := congr1 (nth 0 ^~ (L - 1)%N) h1.2.
have lt1 : (L - 1 < L)%N by rewrite subn1 prednK ?char_log2_gt0.
by rewrite (nth_map 0) ?sz // (nth_map false) ?size_mkseq // nth_mkseq.
Qed.

Context {EC : ErrorCorrect X} {RW : RingWidth R}.
Variable net : Network.
Hypothesis is_ready : ready R net t.
Context {P : Type} {S : Store P (Triple R)}.
Variable pre : Role -> P.

(** The plaintext of an entry: none when the top bit is set. *)
Definition plaintext (f : nat -> bool) : nat :=
  if f (L - 1)%N then 0 else bits_value (fun j => f (offset + j)%N) message_mod_bits.

Lemma extract_joint (U : Type) (us : seq U) f pss ts rest : rows_shared t us f pss ->
  all (good_triple t) ts -> size ts = size us ->
  exists2 zs, shared t [seq (plaintext (f u))%:R | u <- us] zs &
    joint net (fun r => extract_ptxts t (shs2 r pss) message_mod_bits (stocked pre (@tsh R X) (ts ++ rest) r))
      (fun r => (shs r zs, stocked pre (@tsh R X) rest r)).
Proof.
move=> hp gts sz_t; have szp := rows_shared_size hp; have [_ hs hr] := extract_rows 0%N hp.
set signs := map sign_poly pss in hs; set recs := map _ pss in hr.
have [||zs hz run] := mult_list_joint is_ready hs hr gts; rewrite ?size_map ?szp //.
have sz_z : size zs = size pss by rewrite (shared_size hz) size_map size_zip !size_map minnn szp.
exists (zipw (fun p q => q - p) zs recs).
  have := shared_zip (f := fun x y => y - x) (g := fun p q => q - p) _ _ hz hr; rewrite /zipw.
  suff -> : [seq vw.2 - vw.1 | vw <- zip [seq vw.1 * vw.2 | vw <- zip [seq (f u (L - 1)%N : nat)%:R | u <- us]
      [seq (bits_value (fun j => f u (offset + j)%N) message_mod_bits)%:R | u <- us]]
      [seq (bits_value (fun j => f u (offset + j)%N) message_mod_bits)%:R | u <- us]]
    = [seq (plaintext (f u))%:R | u <- us] :> seq R.
    by apply=> [p q dp dq|p q]; [apply: of_degreeB | rewrite /secret hornerD hornerN].
  elim: {hp hs hr szp hz sz_t} us => //= u us ->; rewrite /plaintext; case: (f u _); rewrite ?mul1r ?subrr //.
  by rewrite mul0r subr0.
rewrite /extract_ptxts; apply: joint_local => [r _|]; first by case: (extract_rows r hp) => -> _ _.
have unz r : unzip1 (zip (shs r signs) (shs r recs)) = shs r signs /\ unzip2 (zip (shs r signs) (shs r recs)) = shs r recs.
  by rewrite unzip1_zip ?unzip2_zip ?size_map.
apply: (joint_ext (progs := fun r => let! drawn := PDone (next_vec (stocked pre (@tsh R X) (ts ++ rest) r) (size ts)) in
    let! prods := mult_list t (shs r signs) (shs r recs) drawn.1 in
    let! res := PDone (let* l := zip_eq prods (shs r recs) in rmap (fun pr => share_sub pr.2 pr.1) l) in
    PDone (Ok (res, drawn.2)))).
  by move=> r _; have [-> ->] := unz r; rewrite !size_map sz_t szp.
apply: joint_draw; apply: (joint_bind run); apply: joint_local; last exact: joint_result.
move=> r _; rewrite /zip_eq !size_map sz_z eqxx /= /shs /zipw zip_maps -map_comp.
by elim: (zip zs recs) => //= -[p q] l IHl /=; rewrite share_subE /= IHl.
Qed.
End Extract.
