(* ===== verification/BitLift.v ===== *)
(** * Lifting shared bits to the larger base ring
    (core/threshold-execution/src/online/bit_lift.rs)

    Bits shared over the extension of the 64-bit integers become bits shared over
    the extension of the 128-bit integers: the parties open them masked by random
    bits of the larger ring, reduced, and take the masks off in the larger ring. *)

From Stdlib Require Import String.
From HB Require Import structures.
From mathcomp Require Import boot.
From mathcomp Require Import ssralg poly.
From S2P Require Import Prelude SsrLia Role PolyOps Structure Shamir ErrorCorrection OpenList Protocol Triples BitOps BitRows.

Set Implicit Arguments.
Unset Strict Implicit.
Unset Printing Implicit Defensive.

Import GRing.Theory.
Local Open Scope ring_scope.

(** What the code uses of the two extensions: [to_residuepoly64] is a ring
    morphism that maps the points of the parties to each other, and the lift of
    the coefficients, which is none, keeps bits. *)
Class ModulusSwitch {R64 R128 : comNzRingType} (X64 : ExceptionalSequence R64) (X128 : ExceptionalSequence R128) := {
  to_residuepoly64 : R128 -> R64;
  lift_residuepoly : R64 -> R128;
  switch_zmod : zmod_morphism to_residuepoly64;
  switch_monoid : monoid_morphism to_residuepoly64;
  switch_point : forall i, to_residuepoly64 (point (X := X128) i) = point (X := X64) i;
  lift_bit : forall b : bool, lift_residuepoly (b : nat)%:R = (b : nat)%:R
}.

Section BitLift.
Context {R64 R128 : comNzRingType} {X64 : ExceptionalSequence R64} {X128 : ExceptionalSequence R128}.
Context {M : ModulusSwitch X64 X128}.

(** [Share::new(b.owner(), b.value().to_residuepoly64())]. *)
Definition switch_share (b : Share R128) : Share R64 := mkShare (share_owner b) (to_residuepoly64 (share_value b)).

Context {P : Type} {S : Store P (Triple R64)} {SB : Store P (Share R128)}.
Variable threshold : nat.

(** [execute] of [SecureBitLift]. *)
Definition bit_lift (secret_bit_vector : seq (Share R64)) (preproc : P) : Prog R64 (seq (Share R128) * P) :=
  let amount := size secret_bit_vector in
  let! random_bits_z128 := PDone (next_vec (Store := SB) preproc amount) in
  let random_bits_z64 := [seq switch_share b | b <- random_bits_z128.1] in
  let! masked_secret_bits := bits_xor threshold secret_bit_vector random_bits_z64 random_bits_z128.2 in
  let! opened_masked_bits_z64 := open_list threshold masked_secret_bits.1 in
  let opened_masked_bits_z128 := [seq lift_residuepoly s | s <- opened_masked_bits_z64] in
  let! unmasked_lifted_bits := PDone (
    let* l := xor_list_secret_clear [:: random_bits_z128.1] [:: opened_masked_bits_z128] in
    vec_index l 0) in
  PDone (Ok (unmasked_lifted_bits, masked_secret_bits.2)).
End BitLift.

(** ** Shares under the morphism *)

Section Switched.
Context {R64 R128 : comNzRingType} {X64 : ExceptionalSequence R64} {X128 : ExceptionalSequence R128}.
Context {M : ModulusSwitch X64 X128}.
Variable t : nat.
Local Notation switch := (to_residuepoly64 (ModulusSwitch := M)).
Local Notation of_deg := (of_degree t).

HB.instance Definition _ := GRing.isZmodMorphism.Build R128 R64 switch switch_zmod.
HB.instance Definition _ := GRing.isMonoidMorphism.Build R128 R64 switch switch_monoid.

Definition switch_polys (ps : seq {poly R128}) : seq {poly R64} := [seq map_poly switch p | p : {poly R128} <- ps].

Lemma switch_shs i ps : [seq switch_share b | b <- shs i ps] = shs i (switch_polys ps).
Proof.
rewrite /shs /switch_polys -!map_comp; apply: eq_map => p.
by rewrite /= /switch_share /sh /= -switch_point horner_map.
Qed.

Lemma switch_shared vs ps : shared t vs ps -> shared t [seq switch v | v <- vs] (switch_polys ps).
Proof.
case=> d <-; split; last by rewrite -!map_comp; apply: eq_map => p; rewrite /= /secret -{1}(rmorph0 switch) horner_map.
rewrite all_map; apply: sub_all d => p /=; rewrite /of_degree; exact: leq_trans (size_poly _ _).
Qed.

Lemma switch_bits bs ps : bits_shared t bs ps -> bits_shared t bs (switch_polys ps).
Proof.
move/switch_shared; rewrite /bits_shared /bitv -map_comp.
suff -> : [seq (switch \o (fun b : bool => (b : nat)%:R)) b | b <- bs] = [seq (b : nat)%:R | b : bool <- bs] by [].
by apply: eq_map => b /=; rewrite rmorph_nat.
Qed.

(** ** The lifted bits *)

Context {EC : ErrorCorrect X64} {RW : RingWidth R64}.
Variable net : Network.
Hypothesis is_ready : ready R64 net t.
Context {P : Type} {S : Store P (Triple R64)} {SB : Store P (Share R128)} {I : Independent S SB}.
Variable pre : Role -> P.

(** The store of a party with shares of bits and of triples. *)
Definition lift_stocked (rs : seq {poly R128}) (ts : seq (PTriple (R := R64))) (i : Role) : P :=
  with_contents (with_contents (pre i) (shs i rs)) (tshs i ts).

Lemma lift_draw rs brest ts i :
  next_vec (Store := SB) (lift_stocked (rs ++ brest) ts i) (size rs) = Ok (shs i rs, lift_stocked brest ts i).
Proof.
rewrite next_vecE contents_with1 contents_with ?size_map ?size_cat ?leq_addr // /lift_stocked with_comm with_with.
by rewrite /shs map_cat take_size_cat ?drop_size_cat ?size_map.
Qed.

(** C23. Lifting keeps the bits.  In a session that is ready to open sharings (more
    than three times the threshold parties, or four times in an asynchronous network,
    of which at most as many as the threshold do not run), let the running parties
    hold shares over the 64-bit extension of some bits, and as many random bits of the
    128-bit extension and triples.  Then every execution ends at all of them with
    shares over the 128-bit extension of the same bits, whatever the random bits are
    and whatever the other parties send. *)
Theorem bit_lift_correct bs cs xs rs brest ts rest : bits_shared t bs xs -> bits_shared t cs rs ->
  size cs = size bs -> all (good_triple t) ts -> size ts = size bs ->
  exists2 qs, bits_shared t bs qs &
    joint net (fun i => bit_lift t (shs i xs) (lift_stocked (rs ++ brest) (ts ++ rest) i))
      (fun i => (shs i qs, lift_stocked brest rest i)).
Proof.
move=> hx hr eq_s gts sz_t; have sz_x := bits_size hx; have sz_r := bits_size hr.
have [|zs hz run] := bits_xor_joint is_ready (fun i => with_contents (pre i) (shs i brest)) rest hx (switch_bits hr) _ gts sz_t; first by rewrite eq_s.
pose ms := zipw addb bs cs; exists (zipw xor_clear rs (bitv ms)).
  have -> : bs = zipw addb cs ms.
    rewrite /ms; elim: (bs) (cs) eq_s => [|b bs' IHb] [|c cs'] //= [/IHb eq_b]; rewrite {1}eq_b /zipw /=; congr (_ :: _).
    by case: b c => [] [].
  by apply: clear_row_shared => //; [exact: xor_clear_ok | rewrite /ms size_zipw].
apply: joint_local => [i _|]; first by rewrite size_map sz_x -eq_s -sz_r; apply: lift_draw.
apply: (joint_bind (outs := fun i => (shs i zs, lift_stocked brest rest i))).
  by apply: joint_ext run => i _; rewrite switch_shs.
apply: (open_list_joint is_ready hz); apply: joint_local => [i _|]; last exact: joint_result.
have -> : [seq lift_residuepoly s | s <- bitv ms] = bitv (R := R128) ms.
  by rewrite /bitv -map_comp; apply: eq_map => b /=; rewrite lift_bit.
by rewrite (xor_list_secret_clearE i (pss := [:: rs])) //= size_map /ms size_zipw // sz_r eq_s.
Qed.
End Switched.
