(* ===== verification/GenBits.v ===== *)
(** * Random shared bits (core/threshold-execution/src/online/gen_bits.rs and
    online/preprocessing/memory/bitdec.rs)

    A random shared [a] gives a random shared bit: the parties open [a^2 + a],
    solve for a root [r] and scale [a - r], which is zero or the difference of the
    two roots. *)

From Stdlib Require Import String.
From mathcomp Require Import boot.
From mathcomp Require Import ssralg poly ring_tactic.
From S2P Require Import Prelude SsrLia Role PolyOps Structure Shamir ErrorCorrection OpenList Protocol Triples BitOps BitRows.

Set Implicit Arguments.
Unset Strict Implicit.
Unset Printing Implicit Defensive.

Import GRing.Theory.
Local Open Scope ring_scope.

(** What the protocol relies on of [Solve] and [Invert] and of the ring: [solve]
    finds a root of [x^2 + x = v] when there is one, odd elements are inverted,
    and zero and one are the only idempotents. *)
Class SolveInvert (R : comNzRingType) := {
  ring_solve : R -> Res string R;
  ring_invert : R -> Res string R;
  ring_solveE : forall a, exists2 r, ring_solve (a * a + a) = Ok r & r * r + r = a * a + a;
  ring_invertE : forall r, exists2 c, ring_invert (0 - (1 + r * 2%:R)) = Ok c & (0 - (1 + r * 2%:R)) * c = 1;
  idempotents : forall b : R, b * b = b -> b = 0 \/ b = 1
}.

Section GenBits.
Context {R : comNzRingType} {SI : SolveInvert R} {P : Type} {SR : Store P (Share R)} {ST : Store P (Triple R)}.
Variable threshold : nat.

(** The closure of the last job. *)
Definition bit_from_root (va : R * Share R) : Res string (Share R) :=
  let: (cur_v, cur_a) := va in
  let* cur_r := ring_solve cur_v in
  let cur_d := 0 - (1 + cur_r * 2%:R) in
  let* inv_d := ring_invert cur_d in
  Ok (share_mul_const (share_sub_const cur_a cur_r) inv_d).

Definition gen_bits_even (amount : nat) (preproc : P) : Prog R (seq (Share R) * P) :=
  let! drawn := PDone (next_vec (Store := SR) preproc amount) in
  let a := drawn.1 in
  let! triples := PDone (next_vec (Store := ST) drawn.2 amount) in
  let! s := mult_list threshold a a triples.1 in
  let! v := PDone (
    let* l := zip_eq a s in
    rmap (fun as_ => share_add as_.2 as_.1) l) in
  let! opened_v_vec := open_list threshold v in
  let! bits := PDone (
    let* l := zip_eq opened_v_vec a in
    rmap bit_from_root l) in
  PDone (Ok (bits, triples.2)).
End GenBits.

(** [fill_from_base_preproc] of [InMemoryBitDecPreprocessing]. *)
Definition fill_from_base_preproc {R : comNzRingType} {SI : SolveInvert R} (threshold : nat)
    (self : InMemoryBitDecPreprocessing R) (preprocessing : InMemoryBasePreprocessing R) (num_ctxts : nat)
    : Prog R (InMemoryBitDecPreprocessing R * InMemoryBasePreprocessing R) :=
  let! bit_vec := gen_bits_even threshold (num_required_bits num_ctxts) preprocessing in
  let self := bitdec_append_bits self bit_vec.1 in
  let! triple_vec := PDone (base_next_triple_vec bit_vec.2 (num_required_triples num_ctxts)) in
  let self := bitdec_append_triples self triple_vec.1 in
  PDone (Ok (self, triple_vec.2)).

(** ** The bits *)

Section Correct.
Context {R : comNzRingType} {X : ExceptionalSequence R} {SI : SolveInvert R}.
Context {EC : ErrorCorrect X} {RW : RingWidth R}.
Variables (net : Network) (t : nat).
Hypothesis is_ready : ready R net t.

(** The root and the inverse turn [a] into a bit. *)
Lemma root_bit (a : R) : exists r c (b : bool), [/\ ring_solve (a * a + a) = Ok r,
  ring_invert (0 - (1 + r * 2%:R)) = Ok c & (a - r) * c = (b : nat)%:R].
Proof.
have [r eq_r root] := ring_solveE a; have [c eq_c inv] := ring_invertE r; set d := 0 - _ in eq_c inv.
have idem : (a - r) * c * ((a - r) * c) = (a - r) * c.
  have uu : (a - r) * (a - r) = (a - r) * d.
    apply/eqP; rewrite -subr_eq0 (_ : _ - _ = a * a + a - (r * r + r)); first by rewrite /d; ring.
    by rewrite root subrr.
  by rewrite mulrACA uu -mulrA [d * _]mulrCA inv mulr1.
case: (idempotents idem) => eq_b; exists r, c; [by exists false | by exists true].
Qed.

Lemma bits_from_roots (vs : seq R) (ps : seq {poly R}) : shared t vs ps -> exists bs qs,
  [/\ size bs = size vs, bits_shared t bs qs
    & forall i, rmap bit_from_root (zip [seq a * a + a | a <- vs] (shs i ps)) = Ok (shs i qs)].
Proof.
elim: vs ps => [|a vs IHv] [|p ps] //=; try by case=> //=.
  by move=> _; exists [::], [::].
move=> [/= /andP[dp dps] [ep eps]]; have [bs [qs [sz [dq eq_q] run]]] := IHv ps (conj dps eps).
have [r [c [b [eq_r eq_c eq_b]]]] := root_bit a.
exists (b :: bs), (c *: (p - r%:P) :: qs); split=> [|| i] /=; first by rewrite sz.
  split=> /=; first by rewrite dq of_degreeZ ?of_degreeB ?of_degreeC.
  by rewrite eq_q; congr (_ :: _); rewrite /secret hornerZ hornerD hornerN hornerC -/(secret p) ep mulrC.
by rewrite eq_r /= eq_c /= share_sub_constE share_mul_constE run.
Qed.

Context {P : Type} {SR : Store P (Share R)} {ST : Store P (Triple R)} {I : Independent ST SR}.
Variable pre : Role -> P.
Local Notation stocked2 := (stocked2 (S := ST) (SB := SR) pre).

(** The parties that hold shares of random values end with shares of bits. *)
Lemma gen_bits_joint (vs : seq R) rs brest ts rest : shared t vs rs -> all (good_triple t) ts -> size ts = size rs ->
  exists bs qs, [/\ size bs = size rs, bits_shared t bs qs
    & joint net (fun i => gen_bits_even t (size rs) (stocked2 (rs ++ brest) (ts ++ rest) i))
        (fun i => (shs i qs, stocked2 brest rest i))].
Proof.
move=> hr gts sz_t; have sz_v := shared_size hr; have [bs [qs [sz hq roots]]] := bits_from_roots hr.
have [||ss hs run] := mult_list_joint is_ready hr hr gts => //.
have sz_s : size ss = size rs by rewrite (shared_size hs) size_map size_zip minnn.
exists bs, qs; split; rewrite ?sz //.
apply: joint_local => [i _|]; first exact: draw_shares.
apply: joint_local => [i _|]; first by rewrite -sz_t; apply: draw_triples.
apply: (joint_bind run); apply: joint_local => [i _|].
  rewrite /= /zip_eq !size_map sz_s eqxx /= (_ : rmap _ _ = Ok (shs i (zipw +%R ss rs))) //.
  rewrite /shs /zipw zip_maps -map_comp; elim: (rs) (ss) => [|p ps IHp] [|q qs'] //=.
  by rewrite share_addE /= IHp.
have hv := shared_zip (f := +%R) (g := +%R) (@of_degreeD _ _) _ hs hr.
apply: (open_list_joint is_ready (hv _)) => [p q|]; first by rewrite /secret hornerD.
have eq_v : [seq vw.1 + vw.2 | vw <- zip [seq vw.1 * vw.2 | vw <- zip vs vs] vs] = [seq a * a + a | a <- vs].
  by elim: (vs) => //= a l ->.
apply: joint_local => [i _|]; last exact: joint_result.
by rewrite eq_v /zip_eq !size_map sz_v eqxx /= roots.
Qed.
End Correct.

(** ** Filling the store of the decomposition *)

Section Fill.
Context {R : comNzRingType} {X : ExceptionalSequence R} {SI : SolveInvert R}.
Context {EC : ErrorCorrect X} {RW : RingWidth R}.
Variables (net : Network) (t : nat).
Hypothesis is_ready : ready R net t.
Variable pre : Role -> InMemoryBasePreprocessing R.
Local Notation base := (stocked2 (S := base_triple_store R) (SB := base_random_store R) pre).

Lemma fill_joint (vs : seq R) rs brest ts0 ts1 rest n : shared t vs rs -> size rs = num_required_bits n ->
  all (good_triple t) ts0 -> size ts0 = size rs -> size ts1 = num_required_triples n ->
  exists bs qs, [/\ size bs = size rs, bits_shared t bs qs
    & joint net (fun i => fill_from_base_preproc t {| bitdec_triples := [::]; bitdec_bits := [::] |}
        (base (rs ++ brest) (ts0 ++ ts1 ++ rest) i) n)
      (fun i => ({| bitdec_triples := tshs i ts1; bitdec_bits := shs i qs |}, base brest rest i))].
Proof.
move=> hr sz_r g0 sz0 sz1; have [bs [qs [sz_b hq run]]] := gen_bits_joint is_ready pre brest (ts1 ++ rest) hr g0 sz0.
exists bs, qs; split=> //; rewrite /fill_from_base_preproc -sz_r; apply: (joint_bind run).
apply: joint_local => [i _|].
  by rewrite -sz1; apply: (draw_triples (S := base_triple_store R) (SB := base_random_store R)).
exact: joint_result.
Qed.
End Fill.
