(* ===== verification/Distributions.v ===== *)
(** * Shared noise (core/threshold-execution/src/online/secret_distributions.rs and
    online/preprocessing, the noise-flooding masks)

    Samples of the distributions TUniform and NewHope from shared random bits, and
    the masks of noise-flooding decryption, each the sum of two TUniform samples. *)

From Stdlib Require Import String.
From mathcomp Require Import boot.
From mathcomp Require Import ssralg poly ring_tactic.
From S2P Require Import Prelude SsrLia Role PolyOps Structure Shamir Protocol Triples BitOps BitRows.
From S2P Require Import Constants GaloisRing BitAdder BitDec.

Set Implicit Arguments.
Unset Strict Implicit.
Unset Printing Implicit Defensive.

Import GRing.Theory.
Local Open Scope ring_scope.

(** [NoiseBounds] and [NoiseInfo] of tfhe_internals/parameters.rs. *)
Inductive NoiseBounds :=
| LweNoise (bound : nat)
| LweHatNoise (bound : nat)
| GlweNoise (bound : nat)
| GlweNoiseSnS (bound : nat)
| CompressionKSKNoise (bound : nat)
| SnsCompressionKSKNoise (bound : nat).

Definition get_bound (nb : NoiseBounds) : nat :=
  match nb with
  | LweNoise bound | LweHatNoise bound | GlweNoise bound
  | GlweNoiseSnS bound | CompressionKSKNoise bound | SnsCompressionKSKNoise bound => bound
  end.

Record NoiseInfo := { noise_amount : nat; noise_bound : NoiseBounds }.

Definition tuniform_bound (info : NoiseInfo) : nat := get_bound (noise_bound info).
Definition num_bits_needed (info : NoiseInfo) : nat := noise_amount info * (tuniform_bound info + 2).

Section Distributions.
Context {R : comNzRingType} {P : Type} {S : Store P (Share R)}.

(** One sample of [t_uniform]; the powers of two are of type [u128]. *)
Definition t_uniform_sample (b : seq (Share R)) (bound top : nat) : Res string (Share R) :=
  let* b_top := vec_index b top in
  if (128 <= bound)%N then Panic
  else
    let ei := share_sub_const b_top (2 ^ bound)%:R in
    rfold (fun ei j =>
      let* bj := vec_index b (top - j) in
      share_add ei (share_mul_const bj (2 ^ (j - 1))%:R)) ei (iota 1 (bound + 1)).

Definition t_uniform (n bound : nat) (preproc : P) : Res string (seq (Share R) * P) :=
  let required_bits := (n * (bound + 2))%N in
  let* drawn := next_vec preproc required_bits in
  let* res := rmap (fun e => t_uniform_sample drawn.1 bound (required_bits - 1 - e * (bound + 2))) (iota 0 n) in
  Ok (res, drawn.2).

Definition from_noise_info (noise_info : NoiseInfo) (preproc : P) : Res string (seq (Share R) * P) :=
  t_uniform (noise_amount noise_info) (tuniform_bound noise_info) preproc.

(** One difference of two popped bits. *)
Definition pop_difference (b : seq (Share R)) : Res string (Share R * seq (Share R)) :=
  let* p1 := vec_pop b in
  let* p2 := vec_pop p1.2 in
  let* d := share_sub p1.1 p2.1 in
  Ok (d, p2.2).

Definition newhope_sample (b : seq (Share R)) (bound : nat) : Res string (Share R * seq (Share R)) :=
  let* first := pop_difference b in
  rfold (fun (eb : Share R * seq (Share R)) _ =>
    let* next := pop_difference eb.2 in
    let* e := share_add eb.1 next.1 in
    Ok (e, next.2)) first (iota 1 (bound - 1)).

Definition newhope (n bound : nat) (preproc : P) : Res string (seq (Share R) * P) :=
  let* drawn := next_vec preproc (2 * n * bound) in
  let* res := rfold (fun (rb : seq (Share R) * seq (Share R)) _ =>
      let* e := newhope_sample rb.2 bound in
      Ok (rcons rb.1 e.1, e.2)) ([::], drawn.1) (iota 1 n) in
  Ok (res.1, drawn.2).
End Distributions.

(** ** The masks of noise flooding *)

Section Masks.
Variable R : comNzRingType.

Record InMemoryNoiseFloodPreprocessing := { available_masks : seq R }.

Definition append_masks (p : InMemoryNoiseFloodPreprocessing) (masks : seq R) :=
  {| available_masks := available_masks p ++ masks |}.
Definition next_mask (p : InMemoryNoiseFloodPreprocessing) : Res string (R * InMemoryNoiseFloodPreprocessing) :=
  if rev (available_masks p) is m :: ms then Ok (m, {| available_masks := rev ms |})
  else Err "available masks is empty"%string.

Fixpoint next_masks (amount : nat) (p : InMemoryNoiseFloodPreprocessing) (res : seq R)
    : Res string (seq R * InMemoryNoiseFloodPreprocessing) :=
  if amount is n.+1 then let* m := next_mask p in next_masks n m.2 (rcons res m.1) else Ok (res, p).
Definition next_mask_vec (p : InMemoryNoiseFloodPreprocessing) (amount : nat) :=
  if (amount <= size (available_masks p))%N then next_masks amount p [::]
  else Err "Not enough masks to pop"%string.

(** [fill_from_bits_preproc]: the sums of pairs of samples. *)
Definition fill_from_bits_preproc {P : Type} {S : Store P (Share R)} (self : InMemoryNoiseFloodPreprocessing)
    (bit_preproc : P) (num_ctxts : nat) : Res string (InMemoryNoiseFloodPreprocessing * P) :=
  let bound_d := (STATSEC + LOG_B_SWITCH_SQUASH)%N in
  let* drawn := t_uniform (2 * num_ctxts) bound_d bit_preproc in
  Ok (append_masks self [seq share_value ab.1 + share_value ab.2 | ab <- chunks_exact2 drawn.1], drawn.2).
End Masks.

(** ** TUniform *)

Section TUniform.
Context {R : comNzRingType} {X : ExceptionalSequence R}.
Variable t : nat.
Implicit Types (ps qs : seq {poly R}) (bs : seq bool).

(** The value of the bits of a sample, before [2^bound] is subtracted. *)
Definition t_value bs (bound top : nat) : nat :=
  nth false bs top + bits_value (fun j => nth false bs (top - j.+1)) bound.+1.

Lemma t_value_le bs bound top : (t_value bs bound top <= 2 ^ bound.+1)%N.
Proof.
rewrite /t_value; have := bits_value_lt (fun j => nth false bs (top - j.+1)) bound.+1.
by case: (nth _ _ _) => //= lt_v; rewrite ltnW.
Qed.

Definition t_poly ps (bound top : nat) : {poly R} :=
  ps`_top - (2 ^ bound)%:R%:P + \sum_(j < bound.+1) (2 ^ j)%:R *: ps`_(top - j.+1).

Lemma t_uniform_sampleE i ps bound top : (bound < 128)%N -> (top < size ps)%N -> (bound < top)%N ->
  t_uniform_sample (shs i ps) bound top = Ok (sh i (t_poly ps bound top)).
Proof.
move=> lt_b lt_top lt_bt; rewrite /t_uniform_sample (vec_indexE _ (sh i 0)) ?size_map //= leqNgt lt_b /=.
rewrite (nth_map 0) // share_sub_constE /t_poly; set f := (X in rfold X); set q := _ - _; rewrite addn1.
have foldE k m : (m + k <= bound.+1)%N -> rfold f (sh i (q + \sum_(j < m) (2 ^ j)%:R *: ps`_(top - j.+1))) (iota m.+1 k)
    = Ok (sh i (q + \sum_(j < m + k) (2 ^ j)%:R *: ps`_(top - j.+1))).
  elim: k m => [|k IHk] m le_m /=; first by rewrite addn0.
  have lt_j : (top - m.+1 < size ps)%N by rewrite (leq_ltn_trans (leq_subr _ _)).
  rewrite /f (vec_indexE _ (sh i 0)) ?size_map //= (nth_map 0) // subn1 share_mul_constE share_addE /= -/f.
  by rewrite -addrA -(big_ord_recr m (fun j => (2 ^ j)%:R *: ps`_(top - j.+1))) IHk ?addSnnS.
by have := foldE bound.+1 0%N; rewrite big_ord0 addr0 add0n => ->.
Qed.

Lemma nth_shared vs ps k : shared t vs ps -> (k < size ps)%N -> of_degree t ps`_k /\ secret ps`_k = vs`_k.
Proof. by move=> [d <-] lt_k; rewrite (nth_map 0) //; split=> //; apply: (allP d); rewrite mem_nth. Qed.

Lemma t_poly_shared bs ps bound top : bits_shared t bs ps -> (top < size ps)%N ->
  of_degree t (t_poly ps bound top) /\ secret (t_poly ps bound top) = (t_value bs bound top)%:R - (2 ^ bound)%:R.
Proof.
move=> hp lt_top; have nthE k : (k <= top)%N -> of_degree t ps`_k /\ secret ps`_k = (nth false bs k : nat)%:R.
  move=> le_k; have lt_k := leq_ltn_trans le_k lt_top; have [d e] := nth_shared hp lt_k; split=> //.
  by rewrite e (nth_map false) // -(bits_size hp).
have [d0 e0] := nthE top (leqnn _); split.
  rewrite of_degreeD ?of_degreeB ?of_degreeC //.
  elim/big_ind: _ => [|p q|k _]; [by rewrite /of_degree size_poly0 | exact: of_degreeD |].
  by apply: of_degreeZ; case: (nthE (top - k.+1)%N (leq_subr _ _)).
rewrite /secret /t_poly !(hornerD, hornerN, hornerC, horner_sum) -/(secret _) e0 /t_value natrD addrAC; congr (_ + _ - _).
rewrite /bits_value natr_sum; apply: eq_bigr => j _; rewrite hornerZ natrM mulrC; congr (_ * _).
by case: (nthE (top - j.+1)%N (leq_subr _ _)).
Qed.

Definition top_index (n bound e : nat) : nat := n * (bound + 2) - 1 - e * (bound + 2).

Lemma top_index_lt n bound e : (e < n)%N -> (bound < top_index n bound e < n * (bound + 2))%N.
Proof.
move=> lt_e; have le_m : ((e.+1) * (bound + 2) <= n * (bound + 2))%N by rewrite leq_mul2r lt_e orbT.
by rewrite mulSn in le_m; rewrite /top_index; ssrlia.
Qed.

Definition t_polys ps (n bound : nat) : seq {poly R} := [seq t_poly ps bound (top_index n bound e) | e <- iota 0 n].

Lemma t_polys_shared bs ps n bound : bits_shared t bs ps -> size ps = (n * (bound + 2))%N ->
  shared t [seq (t_value bs bound (top_index n bound e))%:R - (2 ^ bound)%:R | e <- iota 0 n] (t_polys ps n bound).
Proof.
move=> hp sz; have sampleE e : e \in iota 0 n -> of_degree t (t_poly ps bound (top_index n bound e)) /\
    secret (t_poly ps bound (top_index n bound e)) = (t_value bs bound (top_index n bound e))%:R - (2 ^ bound)%:R.
  by rewrite mem_iota => /top_index_lt-/(_ bound) /andP[_ lt_n]; apply: t_poly_shared; rewrite ?sz.
split; first by apply/allP => p /mapP[e /sampleE[d _] ->].
by rewrite -map_comp; apply/eq_in_map => e /sampleE[_ eq_e] /=; rewrite eq_e.
Qed.

Lemma t_uniformE (P : Type) (S : Store P (Share R)) (pre : Role -> P) ps rest n bound i :
  size ps = (n * (bound + 2))%N -> (bound < 128)%N ->
  t_uniform n bound (stocked pre (@sh R X) (ps ++ rest) i) = Ok (shs i (t_polys ps n bound), stocked pre (@sh R X) rest i).
Proof.
move=> sz lt_b; rewrite /t_uniform -sz draw /= sz /t_polys /shs -map_comp.
rewrite (rmap_Ok (g := fun e => sh i (t_poly ps bound (top_index n bound e)))) // => e.
rewrite mem_iota => /top_index_lt-/(_ bound) /andP[lt1 lt2].
by apply: t_uniform_sampleE; rewrite // sz.
Qed.

(** ** NewHope *)

Definition difference_poly qs (k : nat) : {poly R} := qs`_(k.*2) - qs`_(k.*2.+1).

Lemma pop_differenceE i q1 q2 qs :
  pop_difference (shs i (rev (q1 :: q2 :: qs))) = Ok (sh i (q1 - q2), shs i (rev qs)).
Proof. by rewrite /pop_difference 2!rev_cons /shs 2!map_rcons vec_popE /= vec_popE /= share_subE. Qed.

Lemma newhope_sampleE i qs bound : (0 < bound)%N -> (bound.*2 <= size qs)%N ->
  newhope_sample (shs i (rev qs)) bound
  = Ok (sh i (\sum_(k < bound) difference_poly qs k), shs i (rev (drop bound.*2 qs))).
Proof.
case: bound => // bound _; rewrite doubleS; case: qs => [|q1 [|q2 qs]] //= le_b.
rewrite /newhope_sample pop_differenceE /= subn1 /=; set f := (X in rfold X).
have foldE n m p qs' : (n.*2 <= size qs')%N -> rfold f (sh i p, shs i (rev qs')) (iota m n)
    = Ok (sh i (p + \sum_(k < n) difference_poly qs' k), shs i (rev (drop n.*2 qs'))).
  elim: n m p qs' => [|n IHn] m p qs' le_n /=; first by rewrite big_ord0 addr0 drop0.
  case: qs' le_n => [|q1' [|q2' qs']] // le_n; rewrite /f pop_differenceE /= share_addE /= -/f IHn //.
  by rewrite big_ord_recl -addrA.
by rewrite foldE // big_ord_recl.
Qed.

(** The comment above the pops says that they never fail; without a bound none of
    the bits is drawn, and they do. *)
Lemma newhope_zero_panics (P : Type) (S : Store P (Share R)) n (p : P) : newhope n.+1 0 p = Panic.
Proof. by rewrite /newhope muln0 next_vecE //= take0. Qed.
End TUniform.

(** ** Masks *)

Section MaskShares.
Context {R : comNzRingType} {X : ExceptionalSequence R}.
Variable t : nat.

Lemma chunks_map (A B : Type) (f : A -> B) (xs : seq A) :
  chunks_exact2 (map f xs) = [seq (f ab.1, f ab.2) | ab <- chunks_exact2 xs].
Proof.
elim: (size xs) {-2}xs (leqnn (size xs)) => [|n IHn] [|a [|b xs']] //= lt_n.
by rewrite IHn // ltnW.
Qed.

(** The bound of the samples and the polynomials of the masks. *)
Definition bound_d : nat := STATSEC + LOG_B_SWITCH_SQUASH.
Definition mask_polys (ps : seq {poly R}) (num_ctxts : nat) : seq {poly R} :=
  [seq ab.1 + ab.2 | ab <- chunks_exact2 (t_polys ps (2 * num_ctxts) bound_d)].

Lemma fill_from_bitsE (P : Type) (S : Store P (Share R)) (pre : Role -> P) ps rest num_ctxts masks i :
  size ps = (2 * num_ctxts * (bound_d + 2))%N ->
  fill_from_bits_preproc {| available_masks := masks |} (stocked pre (@sh R X) (ps ++ rest) i) num_ctxts
  = Ok ({| available_masks := masks ++ [seq p.[point i] | p : {poly R} <- mask_polys ps num_ctxts] |},
        stocked pre (@sh R X) rest i).
Proof.
move=> sz; rewrite /fill_from_bits_preproc t_uniformE //= /append_masks /= /shs chunks_map /mask_polys -!map_comp.
by congr (Ok ({| available_masks := _ ++ _ |}, _)); apply: eq_map => ab /=; rewrite hornerD.
Qed.

Lemma shared_pairs vs (qs : seq {poly R}) : shared t vs qs ->
  shared t [seq vw.1 + vw.2 | vw <- chunks_exact2 vs] [seq ab.1 + ab.2 | ab <- chunks_exact2 qs].
Proof.
case=> d <-; rewrite chunks_map -map_comp; move: d.
elim: (size qs) {-2}qs (leqnn (size qs)) => [|n IHn] [|a [|b qs']] //= lt_n /and3P[da db dqs].
have [d e] := IHn qs' (ltnW lt_n) dqs; split=> /=; first by rewrite d of_degreeD.
by rewrite e /secret hornerD.
Qed.

Lemma size_chunks (A : Type) n (xs : seq A) : size xs = (2 * n)%N -> size (chunks_exact2 xs) = n.
Proof. by rewrite mul2n; elim: n xs => [|n IHn] [|a [|b xs]] //= [/IHn->]. Qed.

Lemma all_chunks M (xs : seq nat) : all (leq^~ M) xs -> all (fun xy => xy.1 + xy.2 <= M + M)%N (chunks_exact2 xs).
Proof.
elim: (size xs) {-2}xs (leqnn (size xs)) => [|n IHn] [|a [|b xs']] //= lt_n /and3P[la lb lxs].
by rewrite leq_add // IHn // ltnW.
Qed.

(** Every mask is a value between [- 2^(bound_d + 1)] and [2^(bound_d + 1)]. *)
Lemma mask_polys_shared bs ps num_ctxts : bits_shared t bs ps -> size ps = (2 * num_ctxts * (bound_d + 2))%N ->
  exists2 ys, size ys = num_ctxts /\ all (fun y => y <= 2 ^ bound_d.+2)%N ys
    & shared t [seq y%:R - (2 ^ bound_d.+1)%:R | y : nat <- ys] (mask_polys ps num_ctxts).
Proof.
rewrite /mask_polys; move: bound_d => B hp sz; have hq := shared_pairs (t_polys_shared hp sz).
pose xs := [seq t_value bs B (top_index (2 * num_ctxts) B e) | e <- iota 0 (2 * num_ctxts)].
exists [seq (xy.1 + xy.2)%N | xy <- chunks_exact2 xs]; first split.
- by rewrite size_map (@size_chunks _ num_ctxts) // size_map size_iota.
- rewrite all_map [in (2 ^ B.+2)%N]expnS mul2n -addnn; apply: all_chunks.
  by apply/allP => _ /mapP[e _ ->]; apply: t_value_le.
suff -> : [seq y%:R - (2 ^ B.+1)%:R | y : nat <- [seq (xy.1 + xy.2)%N | xy <- chunks_exact2 xs]]
    = [seq vw.1 + vw.2 | vw <- chunks_exact2 [seq (t_value bs B (top_index (2 * num_ctxts) B e))%:R - (2 ^ B)%:R | e <- iota 0 (2 * num_ctxts)]] :> seq R by [].
rewrite /xs !chunks_map -!map_comp; apply: eq_map => ab /=.
have -> : (2 ^ B.+1)%N = (2 ^ B + 2 ^ B)%N by rewrite expnS mul2n addnn.
by rewrite !natrD opprD addrACA.
Qed.
End MaskShares.
