(* ===== verification/Reconstruct.v ===== *)
(** * Decoding of opened values (core/threshold-execution/src/endpoints/reconstruct.rs
    and tfhe_internals/switch_and_squash.rs)

    An opened value is the message times a scaling factor plus noise of either
    sign; [from_expanded_msg] rounds it.  The values are machine words, as
    binary numbers. *)

From Stdlib Require Import String NArith ZArith Lia List.
From S2P Require Import Prelude.
Import ListNotations.

Local Open Scope N_scope.

(** [from_expanded_msg] for a scalar of [bits] bits; the intermediate values are
    of type [u128], and the addition wraps. *)
Definition from_expanded_msg (bits raw_plaintext message_and_carry_mod_bits : N) : Res string N :=
  if bits <? message_and_carry_mod_bits + 1 then Panic
  else
    let delta_pad_bits := bits - (message_and_carry_mod_bits + 1) in
    if 2 ^ bits - 1 - 2 ^ delta_pad_bits <? raw_plaintext then Ok 0
    else if delta_pad_bits =? 0 then Panic
    else
      let delta_pad_half := 2 ^ (delta_pad_bits - 1) in
      let raw_msg := N.shiftr ((raw_plaintext + delta_pad_half) mod 2 ^ 128) delta_pad_bits in
      Ok (raw_msg mod 2 ^ message_and_carry_mod_bits).

(** The two loops of [reconstruct_packed_message] on the coefficients of the opened
    values: the [break] leaves the inner loop only. *)
Fixpoint packed_coefs (total_mod_bits : N) (num_blocks : nat) (coefs : list N) (st : list N * nat)
    : Res string (list N * nat) :=
  match coefs with
  | [] => Ok st
  | coef :: coefs' =>
      let* m := from_expanded_msg 128 coef total_mod_bits in
      let (out, processed_blocks) := st in
      let st := (out ++ [m], S processed_blocks) in
      if Nat.leb num_blocks (S processed_blocks) then Ok st
      else packed_coefs total_mod_bits num_blocks coefs' st
  end.

Definition reconstruct_packed_message (openeds : option (list (list N))) (total_mod_bits : N) (num_blocks : nat)
    : Res string (list N) :=
  match openeds with
  | Some openeds =>
      let* st := rfold (fun st coefs => packed_coefs total_mod_bits num_blocks coefs st) ([], 0%nat) openeds in
      if Nat.ltb (snd st) num_blocks then Err "expected to process more blocks"%string else Ok (fst st)
  | None => Err "No opened value"%string
  end.

(** The block recomposer of tfhe: blocks are added until it reports that the width
    of the integer is reached. *)
Record BlockRecomposer (W T : Type) := {
  recomposer_new : N -> W;
  add_unmasked : W -> N -> W * bool;
  recomposer_value : W -> T
}.
Arguments recomposer_new {W T} b bits_in_block.
Arguments add_unmasked {W T} b recomposer block.
Arguments recomposer_value {W T} b recomposer.

Section Combine.
Context {W T : Type} (B : BlockRecomposer W T).

Fixpoint add_blocks (recomposer : W) (decryptions : list N) : W :=
  match decryptions with
  | [] => recomposer
  | block :: decryptions' =>
      let (recomposer, more) := add_unmasked B recomposer block in
      if more then add_blocks recomposer decryptions' else recomposer
  end.

Definition combine_decryptions (bits_in_block : N) (decryptions : list N) : Res string T :=
  Ok (recomposer_value B (add_blocks (recomposer_new B bits_in_block) decryptions)).

Definition combine_plaintext_blocks (bits_in_block : N) (partial_decryptions : list N) : Res string T :=
  match combine_decryptions bits_in_block partial_decryptions with
  | Ok res => Ok res
  | Err error => Err ("Panicked in combining " ++ error)%string
  | Panic => Panic
  | Timeout => Timeout
  end.
End Combine.

(** ** Rounding *)

Section Rounding.
Variables bits modbits : N.
Hypothesis mod_bits_lt : modbits + 1 < bits.
Hypothesis bits_le : bits <= 128.
Local Notation delta := (2 ^ (bits - (modbits + 1))).

Lemma delta_twice_half : delta = 2 * 2 ^ (bits - (modbits + 1) - 1).
Proof. rewrite <- N.pow_succ_r'. f_equal. lia. Qed.

Lemma modulus_split : 2 ^ bits = 2 * (2 ^ modbits * delta).
Proof.
  rewrite <- N.pow_add_r, <- N.pow_succ_r'. f_equal. lia.
Qed.

(** The opened value is [delta * m + e] modulo [2^bits], for a noise [e] with
    [- delta / 2 <= e < delta / 2], given as [e + delta / 2]. *)
Lemma from_expanded_msg_round m e : m < 2 ^ modbits -> e < delta ->
  from_expanded_msg bits ((delta * m + e + (2 ^ bits - delta / 2)) mod 2 ^ bits) modbits = Ok m.
Proof.
  intros Hm He. unfold from_expanded_msg.
  destruct (N.ltb_spec bits (modbits + 1)); [lia|].
  pose proof delta_twice_half as Hd. pose proof modulus_split as Hq.
  set (D := delta) in *. set (h := 2 ^ (bits - (modbits + 1) - 1)) in *. set (M := 2 ^ modbits) in *.
  assert (Hh : 0 < h) by (apply N.neq_0_lt_0, N.pow_nonzero; lia).
  assert (HD2 : D / 2 = h) by (rewrite Hd, N.mul_comm, N.div_mul; lia).
  rewrite HD2. set (Q := 2 ^ bits) in *.
  assert (HQ : Q <= 2 ^ 128) by (apply N.pow_le_mono_r; lia).
  assert (Hwrap : D * m + e < M * D) by nia.
  assert (HM : 0 < M) by lia.
  destruct (N.ltb_spec (D * m + e) h) as [Hneg|Hpos].
  - assert (Hm0 : m = 0) by nia. subst m.
    rewrite N.mod_small by nia.
    destruct (N.ltb_spec (Q - 1 - D) (D * 0 + e + (Q - h))); [reflexivity|nia].
  - replace (D * m + e + (Q - h)) with (D * m + e - h + 1 * Q) by nia.
    rewrite N.Div0.mod_add, N.mod_small by nia.
    destruct (N.ltb_spec (Q - 1 - D) (D * m + e - h)); [nia|].
    destruct (N.eqb_spec (bits - (modbits + 1)) 0); [lia|].
    rewrite N.sub_add by lia. rewrite N.shiftr_div_pow2. fold D.
    rewrite (N.mod_small _ (2 ^ 128)) by nia.
    replace ((D * m + e) / D) with m by (apply (N.div_unique _ _ _ e); lia).
    now rewrite N.mod_small.
Qed.
End Rounding.

(** C35. Decoding is right at every noise level the parameters allow: for a word of
    at most 128 bits with [delta = 2^(bits - modbits - 1)], a value that is
    [delta * m + e] modulo [2^bits] with [- delta/2 <= e < delta/2] (given as
    [e + delta/2]) decodes to [m], also when the noise makes the value wrap below
    zero. *)
Theorem from_expanded_msg_correct (bits modbits m e : N) :
  modbits + 1 < bits -> bits <= 128 -> m < 2 ^ modbits -> e < 2 ^ (bits - (modbits + 1)) ->
  from_expanded_msg bits
    ((2 ^ (bits - (modbits + 1)) * m + e + (2 ^ bits - 2 ^ (bits - (modbits + 1)) / 2)) mod 2 ^ bits) modbits = Ok m.
Proof. intros. now apply from_expanded_msg_round. Qed.

Lemma from_expanded_msg_correct_witness :
  from_expanded_msg 128 ((2 ^ (128 - (4 + 1)) * 11 + 7 + (2 ^ 128 - 2 ^ (128 - (4 + 1)) / 2)) mod 2 ^ 128) 4 = Ok 11
  /\ from_expanded_msg 64 ((2 ^ (64 - (4 + 1)) * 0 + 7 + (2 ^ 64 - 2 ^ (64 - (4 + 1)) / 2)) mod 2 ^ 64) 4 = Ok 0.
Proof. split; apply from_expanded_msg_correct; vm_compute; (reflexivity || discriminate). Defined.

(** ** Packed messages *)

Section Packed.
Variables (modbits : N) (num_blocks : nat).
Hypothesis mod_bits_lt : modbits + 1 < 128.

(** What a coefficient decodes to. *)
Definition decoded (coef : N) : N :=
  match from_expanded_msg 128 coef modbits with Ok m => m | _ => 0 end.

Lemma decoded_ok coef : from_expanded_msg 128 coef modbits = Ok (decoded coef).
Proof.
  unfold decoded, from_expanded_msg.
  destruct (N.ltb_spec 128 (modbits + 1)); [lia|].
  destruct (_ <? coef); [reflexivity|].
  destruct (N.eqb_spec (128 - (modbits + 1)) 0); [lia|reflexivity].
Qed.

Lemma packed_coefs_before coefs out p : (p + length coefs < num_blocks)%nat ->
  packed_coefs modbits num_blocks coefs (out, p) = Ok (out ++ map decoded coefs, p + length coefs)%nat.
Proof.
  revert out p. induction coefs as [|c coefs IH]; simpl; intros out p H.
  - now rewrite app_nil_r, Nat.add_0_r.
  - rewrite decoded_ok. simpl. destruct (Nat.leb_spec num_blocks (S p)); [lia|].
    rewrite IH by lia. rewrite <- app_assoc. simpl. do 2 f_equal. lia.
Qed.

Lemma packed_coefs_reach coefs out p : (p < num_blocks <= p + length coefs)%nat ->
  packed_coefs modbits num_blocks coefs (out, p) = Ok (out ++ map decoded (firstn (num_blocks - p) coefs), num_blocks).
Proof.
  revert out p. induction coefs as [|c coefs IH]; simpl; intros out p H; [lia|].
  rewrite decoded_ok. simpl. destruct (Nat.leb_spec num_blocks (S p)).
  - replace (num_blocks - p)%nat with 1%nat by lia. simpl. do 2 f_equal. lia.
  - rewrite IH by lia. replace (num_blocks - p)%nat with (S (num_blocks - S p)) by lia.
    simpl. now rewrite <- app_assoc.
Qed.

Lemma packed_coefs_after c coefs out p : (num_blocks <= p)%nat ->
  packed_coefs modbits num_blocks (c :: coefs) (out, p) = Ok (out ++ [decoded c], S p).
Proof. intros H. simpl. rewrite decoded_ok. simpl. destruct (Nat.leb_spec num_blocks (S p)); [reflexivity|lia]. Qed.

Lemma packed_rest rest out p : (num_blocks <= p)%nat -> Forall (fun coefs => coefs <> []) rest ->
  rfold (fun st coefs => packed_coefs modbits num_blocks coefs st) (out, p) rest
  = Ok (out ++ map (fun coefs => decoded (hd 0%N coefs)) rest, p + length rest)%nat.
Proof.
  revert out p. induction rest as [|coefs rest IH]; intros out p H Hne.
  - simpl. now rewrite app_nil_r, Nat.add_0_r.
  - inversion_clear Hne as [|? ? Hc Hr]. destruct coefs as [|c coefs]; [congruence|].
    cbn [rfold]. rewrite packed_coefs_after by lia. cbn [rbind]. rewrite IH by (lia || assumption).
    cbn. rewrite <- app_assoc. cbn. do 2 f_equal. lia.
Qed.

Lemma packed_first first last out p : (p + length (concat first) < num_blocks <= p + length (concat first) + length last)%nat ->
  rfold (fun st coefs => packed_coefs modbits num_blocks coefs st) (out, p) (first ++ [last])
  = Ok (out ++ map decoded (firstn (num_blocks - p) (concat first ++ last)), num_blocks).
Proof.
  revert out p. induction first as [|coefs first IH]; intros out p H.
  - cbn in *. rewrite packed_coefs_reach by lia. reflexivity.
  - cbn in *. rewrite length_app in H. rewrite packed_coefs_before by lia. cbn [rbind]. rewrite IH by lia.
    rewrite <- !app_assoc, (firstn_app (num_blocks - p) coefs).
    rewrite (firstn_all2 coefs) by lia. rewrite map_app.
    now replace (num_blocks - p - length coefs)%nat with (num_blocks - (p + length coefs))%nat by lia.
Qed.
End Packed.

(** [reconstruct_packed_message] decodes the first [num_blocks] coefficients of
    the opened values in order, when the last opened value is the one in which
    that count is reached; for every opened value after it, it still decodes and
    returns the first coefficient, so that the output is longer than
    [num_blocks]; and with fewer coefficients it returns an error. *)
Theorem reconstruct_packed_message_blocks (modbits : N) (num_blocks : nat) (first rest : list (list N)) (last : list N) :
  modbits + 1 < 128 -> Forall (fun coefs => coefs <> []) rest ->
  (length (concat first) < num_blocks)%nat ->
  ((num_blocks <= length (concat first) + length last)%nat ->
    reconstruct_packed_message (Some (first ++ [last] ++ rest)) modbits num_blocks
    = Ok (map (decoded modbits) (firstn num_blocks (concat first ++ last))
          ++ map (fun coefs => decoded modbits (hd 0%N coefs)) rest)) /\
  reconstruct_packed_message (Some first) modbits num_blocks = Err "expected to process more blocks"%string.
Proof.
  intros Hm Hne Hf. split.
  - intros Hl. unfold reconstruct_packed_message.
    rewrite app_assoc, rfold_app, packed_first by (assumption || lia). cbn [rbind].
    rewrite packed_rest by (assumption || lia). cbn [rbind snd fst].
    destruct (Nat.ltb_spec (num_blocks + length rest) num_blocks); [lia|].
    now rewrite Nat.sub_0_r.
  - unfold reconstruct_packed_message.
    enough (H : forall cs out p, (p + length (concat cs) < num_blocks)%nat ->
        rfold (fun st coefs => packed_coefs modbits num_blocks coefs st) (out, p) cs
        = Ok (out ++ map (decoded modbits) (concat cs), p + length (concat cs))%nat).
    { rewrite H by lia. cbn [rbind snd]. destruct (Nat.ltb_spec (0 + length (concat first)) num_blocks); [reflexivity|lia]. }
    induction cs as [|coefs cs IH]; cbn; intros out p H.
    + now rewrite app_nil_r, Nat.add_0_r.
    + rewrite length_app in *. rewrite packed_coefs_before by (assumption || lia). cbn [rbind]. rewrite IH by lia.
      rewrite <- app_assoc, map_app. do 2 f_equal. lia.
Qed.

Lemma reconstruct_packed_message_blocks_witness :
  reconstruct_packed_message (Some [[2 ^ 123 * 5]; [2 ^ 123 * 6]]) 4 1 = Ok [5; 6].
Proof.
  destruct (reconstruct_packed_message_blocks 4 1 [] [[2 ^ 123 * 6]] [2 ^ 123 * 5]) as [H _];
    [reflexivity | repeat constructor; discriminate | cbn; lia |].
  exact (H (le_n 1)).
Defined.
