(* ===== verification/Decrypt.v ===== *)
(** * Threshold decryption (core/threshold-execution/src/endpoints/decryption_non_wasm.rs)

    A party's share of [b - <a, s>], the decryption by bit decomposition and the
    decryption by noise flooding, each from the material of the offline phase on.  The
    keyswitch, the ciphertexts and the recomposition of the blocks of an integer
    belong to tfhe and are parameters. *)

From Stdlib Require Import String.
From mathcomp Require Import boot.
From mathcomp Require Import ssralg poly ring_tactic.
From S2P Require Import Prelude SsrLia Role Constants PolyOps Structure Shamir Protocol Triples BitOps BitRows.
From S2P Require Import BitLift GenBits Distributions Reconstruct.

Set Implicit Arguments.
Unset Strict Implicit.
Unset Printing Implicit Defensive.

Import GRing.Theory.
Local Open Scope ring_scope.

(** ** Ciphertexts and keys *)

(** An LWE ciphertext, its mask and its body. *)
Record LweCiphertext := { lwe_mask : seq nat; lwe_body : nat }.

Inductive PBSOrder := KeyswitchBootstrap | BootstrapKeyswitch.
Inductive AtomicPatternKind := Standard (order : PBSOrder) | KeySwitch32.
Record Ciphertext := { atomic_pattern : AtomicPatternKind; ct_lwe : LweCiphertext }.

Inductive SnsDecryptionKeyType := SnsKey | SnsCompressionKey.

Section Keys.
Variables R64 R128 : comNzRingType.

(** The fields of [PrivateKeySet] that decryption reads. *)
Inductive LweSecretKeyShareEnum := KeyZ64 (data : seq (Share R64)) | KeyZ128 (data : seq (Share R128)).

Record PrivateKeySet := {
  lwe_compute_secret_key_share : LweSecretKeyShareEnum;
  glwe_secret_key_share_sns_as_lwe : option (seq (Share R128));
  glwe_sns_compression_key_as_lwe : option (seq (Share R128));
  message_modulus_log : nat;
  carry_modulus_log : nat
}.

Definition total_block_bits (keys : PrivateKeySet) : nat := carry_modulus_log keys + message_modulus_log keys.

Context {X64 : ExceptionalSequence R64} {X128 : ExceptionalSequence R128} {M : ModulusSwitch X64 X128}.

Definition convert_to_z64 (key : LweSecretKeyShareEnum) : seq (Share R64) :=
  match key with
  | KeyZ64 inner => inner
  | KeyZ128 inner => [seq switch_share x | x <- inner]
  end.
End Keys.

Arguments KeyZ64 {R64 R128} data.
Arguments KeyZ128 {R64 R128} data.

(** ** Shares of the phase *)

(** The fold of [<a, s>], over either ring. *)
Definition a_time_s {R : comNzRingType} (key : seq (Share R)) (mask : seq nat) : Res string R :=
  let* l := zip_eq [seq share_value s | s <- key] mask in
  Ok (foldl (fun acc sm => acc + sm.1 * sm.2%:R) 0 l).

Section Partial.
Context {R64 R128 : comNzRingType} {X64 : ExceptionalSequence R64} {X128 : ExceptionalSequence R128}.
Context {M : ModulusSwitch X64 X128}.

(** [keyswitch_lwe_ciphertext] of tfhe, with its key. *)
Variable keyswitch_lwe_ciphertext : LweCiphertext -> LweCiphertext.

(** The mask and the body that are decrypted. *)
Definition switched (ct_block : Ciphertext) : LweCiphertext :=
  let pbs_order := if atomic_pattern ct_block is Standard pbsorder then pbsorder else KeyswitchBootstrap in
  if pbs_order is KeyswitchBootstrap then keyswitch_lwe_ciphertext (ct_lwe ct_block) else ct_lwe ct_block.

Definition partial_decrypt64 (keys : PrivateKeySet R64 R128) (ct_block : Ciphertext) : Res string R64 :=
  let ciphertext_modulus := 64%N in
  let lwe := switched ct_block in
  let key_share64 := convert_to_z64 (lwe_compute_secret_key_share keys) in
  let* a_s := a_time_s key_share64 (lwe_mask lwe) in
  if (ciphertext_modulus < total_block_bits keys + 1)%N then Panic
  else
    let delta_pad_bits := (ciphertext_modulus - (total_block_bits keys + 1))%N in
    if delta_pad_bits == 0%N then Panic
    else
      let delta_pad_half := (2 ^ (delta_pad_bits - 1))%N in
      Ok ((lwe_body lwe)%:R - a_s + delta_pad_half%:R).

Definition partial_decrypt128 (keys : PrivateKeySet R64 R128) (ct : LweCiphertext)
    (ddec_key_type : SnsDecryptionKeyType) : Res string R128 :=
  let* sns_secret_key :=
    match ddec_key_type with
    | SnsKey =>
        if glwe_secret_key_share_sns_as_lwe keys is Some key then Ok key
        else Err "Missing the switch and squash secret key"%string
    | SnsCompressionKey =>
        if glwe_sns_compression_key_as_lwe keys is Some key then Ok key
        else Err "Missing the switch and squash compression secret key"%string
    end in
  let* a_s := a_time_s sns_secret_key (lwe_mask ct) in
  Ok ((lwe_body ct)%:R - a_s).
End Partial.

(** ** Decoding *)

Definition reconstruct_message {R : comNzRingType} {B : BitRing R} (openeds : option (seq R))
    (total_mod_bits : nat) : Res string (seq BinNums.N) :=
  if openeds is Some openeds then
    rmap (fun opened =>
      let* v_scalar := to_scalar opened in
      from_expanded_msg (BinNat.N.of_nat 128) (BinNat.N.of_nat v_scalar) (BinNat.N.of_nat total_mod_bits)) openeds
  else Err "Right shift not possible - no opened value"%string.

(** ** Decryption *)

(** The decryption of a block, with its bits. *)
Record BlockPartialDecrypt := { block_bits : nat; partial_decryption : BinNums.N }.

Section Decryption.
Context {R64 R128 : comNzRingType} {B64 : BitRing R64} {B128 : BitRing R128}.
Context {X64 : ExceptionalSequence R64} {X128 : ExceptionalSequence R128} {M : ModulusSwitch X64 X128}.
Variable keyswitch_lwe_ciphertext : LweCiphertext -> LweCiphertext.

(** The block recomposer of tfhe. *)
Variables (W T : Type) (recomposer : BlockRecomposer W T).

Variable threshold : nat.

Definition open_bit_composed_ptxts (res : seq R64) : Prog R64 (seq nat) :=
  let! opened := robust_open res threshold in
  PDone (if opened is Some openeds then rmap to_scalar openeds
         else Err "Error receiving shares for reconstructing bit-composed message"%string).

Definition open_masked_ptxts (res : seq R128) (keys : PrivateKeySet R64 R128) : Prog R128 (seq BinNums.N) :=
  let! opened := robust_open res threshold in
  PDone (reconstruct_message opened (total_block_bits keys)).

Section BitDec.
Context {P : Type} {S : Store P (Triple R64)} {SB : Store P (Share R64)}.

(** The decomposition and the extraction, with the values of the shares. *)
Definition bitdec_ptxts (prep : P) (keys : PrivateKeySet R64 R128) (shared_ptxts : seq (Share R64)) : Prog R64 (seq R64 * P) :=
  let! bits := bit_dec_batch threshold prep shared_ptxts in
  let total_bits := total_block_bits keys in
  let! ptxt_sums := extract_ptxts threshold bits.1 total_bits bits.2 in
  PDone (Ok ([seq share_value ptxt_sum | ptxt_sum <- ptxt_sums.1], ptxt_sums.2)).

Definition shared_partials (own_role : Role) (keys : PrivateKeySet R64 R128) (ciphertext : seq Ciphertext)
    : Res string (seq (Share R64)) :=
  rmap (fun current_ct_block =>
    let* partial_dec := partial_decrypt64 keyswitch_lwe_ciphertext keys current_ct_block in
    Ok (mkShare own_role partial_dec)) ciphertext.

Definition run_decryption_bitdec (own_role : Role) (prep : P) (keys : PrivateKeySet R64 R128)
    (ciphertext : seq Ciphertext) : Prog R64 (T * P) :=
  let! shared_ptxts := PDone (shared_partials own_role keys ciphertext) in
  let! ptxt_sums := bitdec_ptxts prep keys shared_ptxts in
  let! ptxts64 := open_bit_composed_ptxts ptxt_sums.1 in
  let ptxts128 := [seq BinNat.N.of_nat ptxt | ptxt <- ptxts64] in
  let usable_message_bits := message_modulus_log keys in
  let! res := PDone (combine_plaintext_blocks recomposer (BinNat.N.of_nat usable_message_bits) ptxts128) in
  PDone (Ok (res, ptxt_sums.2)).

(** One block of [task_decryption_bitdec_par], then the loop over the blocks and
    their stores. *)
Definition task_block (role : Role) (keys : PrivateKeySet R64 R128) (block : Ciphertext) (preprocessing : P)
    : Prog R64 (BlockPartialDecrypt * P) :=
  let! partial_decrypt := PDone (
    if partial_decrypt64 keyswitch_lwe_ciphertext keys block is Ok partial_dec then Ok [:: mkShare role partial_dec] else Panic) in
  let! ptxt_sums := bitdec_ptxts preprocessing keys partial_decrypt in
  let! ptxts64 := open_bit_composed_ptxts ptxt_sums.1 in
  let ptxts128 := [seq BinNat.N.of_nat ptxt | ptxt <- ptxts64] in
  let usable_message_bits := message_modulus_log keys in
  if ptxts128 is ptxt128 :: _
  then PDone (Ok ({| block_bits := usable_message_bits; partial_decryption := ptxt128 |}, ptxt_sums.2))
  else PDone (Err "Expected batch of size 1"%string).

Fixpoint task_blocks (role : Role) (keys : PrivateKeySet R64 R128) (cps : seq (Ciphertext * P))
    (vec_partial_decryptions : seq BlockPartialDecrypt) (done : seq P) : Prog R64 (seq BlockPartialDecrypt * seq P) :=
  if cps is (block, preprocessing) :: cps' then
    let! res := task_block role keys block preprocessing in
    task_blocks role keys cps' (rcons vec_partial_decryptions res.1) (rcons done res.2)
  else PDone (Ok (vec_partial_decryptions, done)).

Definition task_decryption_bitdec_par (role : Role) (preprocessings : seq P) (keys : PrivateKeySet R64 R128)
    (ciphertexts : seq Ciphertext) : Prog R64 (seq BlockPartialDecrypt * seq P) :=
  if size ciphertexts != size preprocessings then PDone (Err "Expected as many preprocessings as ciphertexts"%string)
  else
    let! cps := PDone (zip_eq ciphertexts preprocessings) in
    task_blocks role keys cps [::] [::].
End BitDec.

(** [secure_decrypt_using_bitdec], from the material of the offline phase on:
    [init_prep_bitdec] fills an empty store. *)
Definition decrypt_using_bitdec {SI : SolveInvert R64} (own_role : Role) (correlated_randomness : InMemoryBasePreprocessing R64)
    (keys : PrivateKeySet R64 R128) (ciphertext : seq Ciphertext) : Prog R64 T :=
  let! prep := fill_from_base_preproc threshold {| bitdec_triples := [::]; bitdec_bits := [::] |}
    correlated_randomness (size ciphertext) in
  let! outputs := run_decryption_bitdec own_role prep.1 keys ciphertext in
  PDone (Ok outputs.1).

(** [secure_partial_decrypt_using_bitdec], from the same material on: the shares
    of the plaintexts stay with the parties. *)
Definition partial_decrypt_using_bitdec {SI : SolveInvert R64} (own_role : Role)
    (correlated_randomness : InMemoryBasePreprocessing R64) (keys : PrivateKeySet R64 R128) (ciphertext : seq Ciphertext)
    : Prog R64 (seq R64) :=
  let! prep := fill_from_base_preproc threshold {| bitdec_triples := [::]; bitdec_bits := [::] |}
    correlated_randomness (size ciphertext) in
  let! pdec_blocks := PDone (shared_partials own_role keys ciphertext) in
  let! ptxt_sums := bitdec_ptxts prep.1 keys pdec_blocks in
  PDone (Ok ptxt_sums.1).

(** [decrypt] of [SecureOnlineNoiseFloodDecryption]; the lock of the store is held
    by one job. *)
Definition decrypt_noiseflood (preprocessing : InMemoryNoiseFloodPreprocessing R128) (keys : PrivateKeySet R64 R128)
    (ciphertext : seq LweCiphertext) (packing_factor : nat) (ddec_key_type : SnsDecryptionKeyType)
    : Prog R128 (T * InMemoryNoiseFloodPreprocessing R128) :=
  let! masked := PDone (rfold (fun (st : seq R128 * InMemoryNoiseFloodPreprocessing R128) current_ct_block =>
      let* partial_decrypt := partial_decrypt128 keys current_ct_block ddec_key_type in
      let* mask := next_mask st.2 in
      Ok (rcons st.1 (partial_decrypt + mask.1), mask.2)) ([::], preprocessing) ciphertext) in
  let! partial_decrypted := open_masked_ptxts masked.1 keys in
  let usable_message_bits := (packing_factor * message_modulus_log keys)%N in
  let! res := PDone (combine_plaintext_blocks recomposer (BinNat.N.of_nat usable_message_bits) partial_decrypted) in
  PDone (Ok (res, masked.2)).

(** [fill_from_base_preproc] of [NoiseFloodPreprocessing]. *)
Definition noise_fill_from_base_preproc {SI : SolveInvert R128} (self : InMemoryNoiseFloodPreprocessing R128)
    (preprocessing : InMemoryBasePreprocessing R128) (num_ctxts : nat)
    : Prog R128 (InMemoryNoiseFloodPreprocessing R128 * InMemoryBasePreprocessing R128) :=
  let bound_d := (STATSEC + LOG_B_SWITCH_SQUASH)%N in
  let num_bits := (2 * num_ctxts * (bound_d + 2))%N in
  let! bits := gen_bits_even threshold num_bits preprocessing in
  let! filled := PDone (fill_from_bits_preproc self {| available_bits := bits.1 |} num_ctxts) in
  PDone (Ok (filled.1, bits.2)).

(** [decrypt_using_noiseflooding] for a large session, from the material of the
    offline phase and the switched ciphertext on. *)
Definition decrypt_using_noiseflooding {SI : SolveInvert R128} (correlated_randomness : InMemoryBasePreprocessing R128)
    (keys : PrivateKeySet R64 R128) (ct_large : seq LweCiphertext) (packing_factor : nat)
    (ddec_key_type : SnsDecryptionKeyType) : Prog R128 T :=
  let! preprocessing := noise_fill_from_base_preproc {| available_masks := [::] |} correlated_randomness (size ct_large) in
  let! outputs := decrypt_noiseflood preprocessing.1 keys ct_large packing_factor ddec_key_type in
  PDone (Ok outputs.1).
End Decryption.
