(* ===== verification/Decryption.v ===== *)
(** * Threshold decryption is right (the theory of Decrypt)

    From shares of the key, of triples and of random values, both decryption
    protocols give every party the messages of the ciphertexts. *)

From Stdlib Require Import String.
From mathcomp Require Import boot.
From mathcomp Require Import ssralg poly ring_tactic.
From S2P Require Import Prelude SsrLia Role Constants PolyOps Structure Shamir ErrorCorrection OpenList Protocol Triples BitOps BitRows.
From S2P Require Import GaloisRing BitAdder BitDec BitLift GenBits Distributions Reconstruct Decrypt.

Set Implicit Arguments.
Unset Strict Implicit.
Unset Printing Implicit Defensive.

Import GRing.Theory.
Local Open Scope ring_scope.

(** ** The phase of a ciphertext *)

Section Phase.
Context {R : comNzRingType} {X : ExceptionalSequence R}.
Variable t : nat.
Implicit Types (c : LweCiphertext) (ks : seq {poly R}).

(** [b - <a, s>] for the secrets [s] of a key. *)
Definition phase (s : seq R) c : R := (lwe_body c)%:R - \sum_(sa <- zip s (lwe_mask c)) sa.1 * sa.2%:R.

Definition phase_poly ks c : {poly R} := (lwe_body c)%:R%:P - \sum_(ka <- zip ks (lwe_mask c)) ka.2%:R *: ka.1.

Lemma phase_shared s ks c : shared t s ks -> size (lwe_mask c) = size s ->
  of_degree t (phase_poly ks c) /\ secret (phase_poly ks c) = phase s c.
Proof.
move=> [dk <-]; rewrite size_map /phase_poly /phase => sz; set a := lwe_mask c in sz *.
split.
  apply: of_degreeB; first exact: of_degreeC.
  elim: ks a sz dk => [|k ks IHk] [|x a] //= => [_ _|[sz] /andP[dk dks]].
    by rewrite big_nil /of_degree size_poly0.
  by rewrite big_cons of_degreeD ?of_degreeZ ?IHk.
rewrite /secret hornerD hornerN hornerC horner_sum; congr (_ - _).
elim: ks a sz {dk} => [|k ks IHk] [|x a] //= => [_|[sz]]; first by rewrite !big_nil.
by rewrite !big_cons IHk // hornerZ mulrC.
Qed.

Lemma a_time_sE i ks (a : seq nat) : size a = size ks ->
  a_time_s (shs i ks) a = Ok (\sum_(ka <- zip ks a) ka.2%:R *: ka.1).[point i].
Proof.
move=> sz; rewrite /a_time_s /zip_eq !size_map sz eqxx /=; congr Ok; rewrite horner_sum -map_comp.
have foldE acc : foldl (fun acc (sm : R * nat) => acc + sm.1 * sm.2%:R) acc (zip [seq p.[point i] | p : {poly R} <- ks] a)
    = acc + \sum_(ka <- zip ks a) (ka.2%:R *: ka.1).[point i]; last by rewrite foldE add0r.
elim: ks a sz acc => [|k ks IHk] [|x a] //= => [_|[sz]] acc; first by rewrite big_nil addr0.
by rewrite IHk // big_cons hornerZ mulrC addrA.
Qed.
End Phase.

(** ** Messages *)

(** The scaling factor of a message of [tb] bits in a word of [L] bits, with its
    bit of padding, and its half. *)
Definition delta (L tb : nat) : nat := 2 ^ (L - (tb + 1)).
Definition delta_half (L tb : nat) : nat := 2 ^ (L - (tb + 1) - 1).

Section Messages.
Variables (L tb : nat).
Hypothesis lt_tb : (tb + 1 < L)%N.

Lemma delta_twice : delta L tb = (2 * delta_half L tb)%N.
Proof. by rewrite /delta /delta_half -expnS; congr expn; move: lt_tb; ssrlia. Qed.

Lemma delta_word : (2 ^ L)%N = (2 * (delta L tb * 2 ^ tb))%N.
Proof. by rewrite /delta -expnD -expnS; congr expn; move: lt_tb; ssrlia. Qed.

Lemma scaled_lt m e : (m < 2 ^ tb)%N -> (e < delta L tb)%N -> (delta L tb * m + e < delta L tb * 2 ^ tb)%N.
Proof.
by move=> lt_m lt_e; apply: (@leq_trans (delta L tb * m.+1)); rewrite ?leq_mul2l ?lt_m ?orbT // mulnS addnC ltn_add2r.
Qed.

(** The top bit of a scaled message is clear and the next ones are the message. *)
Lemma plaintext_message (R : comNzRingType) (B : BitRing R) m e : @CHAR_LOG2 R B = L ->
  (m < 2 ^ tb)%N -> (e < delta L tb)%N ->
  plaintext (R := R) tb (fun j => odd ((delta L tb * m + e) %/ 2 ^ j)) = m.
Proof.
move=> eq_L lt_m lt_e; rewrite /plaintext eq_L; have lt_n := scaled_lt lt_m lt_e.
have top : (2 ^ (L - 1) = delta L tb * 2 ^ tb)%N by rewrite /delta -expnD; congr expn; move: lt_tb; ssrlia.
rewrite top divn_small //=.
rewrite -[X in bits_value _ X]/tb (eq_bits_value (g := fun j => odd (m %/ 2 ^ j))) => [j|].
  by rewrite expnD divnMA -/(delta L tb) mulnC divnMDl ?expn_gt0 // (divn_small lt_e) addn0.
by rewrite bits_valueK modn_small.
Qed.
End Messages.

(** ** Decryption by bit decomposition *)

Section BitDecryption.
Context {R64 R128 : comNzRingType} {X64 : ExceptionalSequence R64} {X128 : ExceptionalSequence R128} {B64 : BitRing R64}.
Context {M : ModulusSwitch X64 X128}.
Context {EC : ErrorCorrect X64} {RW : RingWidth R64}.
Variables (net : Network) (t : nat).
Hypothesis is_ready : ready R64 net t.
Hypothesis char64 : @CHAR_LOG2 R64 B64 = 64%N.
Variable keyswitch_lwe_ciphertext : LweCiphertext -> LweCiphertext.
Variables (W T : Type) (recomposer : BlockRecomposer W T).

(** The parties hold shares of a key, and agree on the parameters. *)
Variables (keys : Role -> PrivateKeySet R64 R128) (s : seq R64) (ks : seq {poly R64}) (tb mb : nat).
Hypothesis key_shared : shared t s ks.
Hypothesis keys_ok : forall i, i \in running net ->
  [/\ convert_to_z64 (lwe_compute_secret_key_share (keys i)) = shs i ks,
      total_block_bits (keys i) = tb & message_modulus_log (keys i) = mb].
Hypothesis tb_gt0 : (0 < tb)%N.
Hypothesis lt_tb : (tb + 1 < 64)%N.

Local Notation switched := (switched keyswitch_lwe_ciphertext).

(** The block [c] is a ciphertext of [m] under the key, with noise [e - delta/2]. *)
Definition encrypts64 (c : Ciphertext) (me : nat * nat) : Prop :=
  [/\ size (lwe_mask (switched c)) = size s, (me.1 < 2 ^ tb)%N, (me.2 < delta 64 tb)%N
    & phase s (switched c) = (delta 64 tb * me.1 + me.2)%:R - (delta_half 64 tb)%:R].

(** A key that is shared over the larger ring. *)
Lemma convert_z128 i (ps : seq {poly R128}) : convert_to_z64 (KeyZ128 (shs i ps)) = shs i (switch_polys ps).
Proof. exact: switch_shs. Qed.

Definition partial_poly (c : Ciphertext) : {poly R64} := phase_poly ks (switched c) + (delta_half 64 tb)%:R%:P.

Lemma partial_decrypt64E i c : i \in running net -> size (lwe_mask (switched c)) = size s ->
  partial_decrypt64 keyswitch_lwe_ciphertext (keys i) c = Ok (partial_poly c).[point i].
Proof.
move=> in_i sz; have [eq_k eq_tb _] := keys_ok in_i.
rewrite /partial_decrypt64 eq_k eq_tb a_time_sE ?(shared_size key_shared) //= ltnNge (ltnW lt_tb) /=.
have -> : (64 - (tb + 1) == 0)%N = false by rewrite subn_eq0 leqNgt lt_tb.
by rewrite /partial_poly /phase_poly /delta_half !(hornerD, hornerN, hornerC).
Qed.

Lemma partial_shared cs mes : List.Forall2 encrypts64 cs mes ->
  shared t [seq n%:R | n : nat <- [seq (delta 64 tb * me.1 + me.2)%N | me <- mes]] [seq partial_poly c | c <- cs].
Proof.
elim=> {cs mes} [|c me cs mes [sz _ _ eq_p] _ [d e]] //=; have [dp ep] := phase_shared key_shared sz.
split=> /=; first by rewrite d of_degreeD ?of_degreeC.
by rewrite e /secret hornerD hornerC -/(secret _) ep eq_p subrK.
Qed.

Lemma partial_rmap i cs mes : i \in running net -> List.Forall2 encrypts64 cs mes ->
  shared_partials keyswitch_lwe_ciphertext i (keys i) cs = Ok (shs i [seq partial_poly c | c <- cs]).
Proof. by rewrite /shared_partials => in_i; elim=> //= c me cs' mes' [sz _ _ _] _ IHc; rewrite partial_decrypt64E //= IHc. Qed.

(** What extraction finds and what opening returns. *)
Lemma plaintexts cs mes : List.Forall2 encrypts64 cs mes ->
  [seq plaintext (R := R64) (B := B64) tb (fun j => odd (n %/ 2 ^ j)) | n <- [seq (delta 64 tb * me.1 + me.2)%N | me <- mes]]
  = [seq me.1 | me <- mes].
Proof. by elim=> //= c me cs' mes' [_ lt_m lt_e _] _ ->; rewrite (plaintext_message (L := 64)). Qed.

Lemma scalars cs mes : List.Forall2 encrypts64 cs mes ->
  rmap (@to_scalar R64 B64) [seq me.1%:R | me <- mes] = Ok [seq me.1 | me <- mes].
Proof.
have le_L : (2 ^ tb <= 2 ^ @CHAR_LOG2 R64 B64)%N by rewrite leq_exp2l // char64 ltnW // -addn1 ltnW.
by elim=> //= c me cs' mes' [_ lt_m _ _] _ ->; rewrite to_scalarE /= modn_small // (leq_trans lt_m).
Qed.

(** Opening the plaintexts. *)
Lemma open_ptxts_joint cs mes zs : List.Forall2 encrypts64 cs mes -> shared t [seq me.1%:R | me <- mes] zs ->
  joint net (fun i => open_bit_composed_ptxts t [seq p.[point i] | p : {poly R64} <- zs]) (fun=> [seq me.1 | me <- mes]).
Proof.
move=> enc [dz eq_z]; apply: joint_robust_open => //.
by apply: joint_result => i _; rewrite -[map _ zs]/(map secret zs) eq_z (scalars enc).
Qed.

Section Online.
Context {P : Type} {S : Store P (Triple R64)} {SB : Store P (Share R64)} {I : Independent S SB}.
Implicit Types (pre : Role -> P).
Local Notation stocked2 := (stocked2 (S := S) (SB := SB)).

(** The parties decompose their shares of the phases and end with shares of the messages. *)
Lemma bitdec_ptxts_joint pre cs mes bs rs brest ts rest :
  (0 < size cs)%N -> List.Forall2 encrypts64 cs mes ->
  bits_shared t bs rs -> size bs = num_required_bits (size cs) ->
  all (good_triple t) ts -> size ts = num_required_triples (size cs) ->
  exists2 zs, shared t [seq me.1%:R | me <- mes] zs &
    joint net (fun i => bitdec_ptxts t (stocked2 pre (rs ++ brest) (ts ++ rest) i) (keys i) (shs i [seq partial_poly c | c <- cs]))
      (fun i => ([seq p.[point i] | p : {poly R64} <- zs], stocked2 pre brest rest i)).
Proof.
move=> cs_gt0 enc hb sz_b gts sz_t; have sz : size cs = size mes by elim: enc => //= c me cs' mes' _ _ ->.
have hp := partial_shared enc; set ns := [seq _ | me <- mes] in hp.
have sz_n : size ns = size cs by rewrite size_map.
have pow_char : (2 ^ trunc_log 2 (@CHAR_LOG2 R64 B64))%N = @CHAR_LOG2 R64 B64 by rewrite char64.
have adder64 : adder_triples (R := R64) = 1216%N by rewrite /adder_triples char64.
have [ts1 [ts2 [eq_t sz1 sz2]]] : exists s1 s2, [/\ ts = s1 ++ s2, size s1 = (size ns * 1216)%N & size s2 = size ns].
  by apply: split_seq; rewrite sz_t sz_n /num_required_triples mulSn addnC mulnC.
move: gts; rewrite eq_t all_cat -catA => /andP[g1 g2].
have [|||zss hz run1] := bit_dec_joint is_ready pow_char pre brest (ts2 ++ rest) hp hb _ _ g1.
- by rewrite char64 sz_n.
- by rewrite sz_n.
- by rewrite adder64.
have lt_mod : (tb < @CHAR_LOG2 R64 B64)%N by rewrite char64 -addn1 ltnW.
have [|zs hzs run2] := extract_joint tb_gt0 lt_mod is_ready (fun i => with_contents (pre i) (shs i brest)) rest hz g2; first by [].
exists zs; first by move: hzs; rewrite (map_comp (fun m : nat => m%:R)) (plaintexts enc) -map_comp.
apply: (joint_bind run1); apply: (joint_bind (outs := fun i => (shs i zs, stocked2 pre brest rest i))).
  by apply: joint_ext run2 => i in_i; have [_ -> _] := keys_ok in_i.
by apply: joint_result => i _; rewrite /shs -map_comp.
Qed.

(** The messages, recomposed. *)
Definition recomposed (bits : nat) (ms : seq nat) : T :=
  recomposer_value recomposer (add_blocks recomposer (recomposer_new recomposer (BinNat.N.of_nat bits)) [seq BinNat.N.of_nat m | m <- ms]).

Lemma run_decryption_bitdec_joint pre cs mes bs rs brest ts rest :
  (0 < size cs)%N -> List.Forall2 encrypts64 cs mes ->
  bits_shared t bs rs -> size bs = num_required_bits (size cs) ->
  all (good_triple t) ts -> size ts = num_required_triples (size cs) ->
  joint net (fun i => run_decryption_bitdec keyswitch_lwe_ciphertext recomposer t
      i (stocked2 pre (rs ++ brest) (ts ++ rest) i) (keys i) cs)
    (fun i => (recomposed mb [seq me.1 | me <- mes], stocked2 pre brest rest i)).
Proof.
move=> cs_gt0 enc hb sz_b gts sz_t; have [zs hz run] := bitdec_ptxts_joint pre brest rest cs_gt0 enc hb sz_b gts sz_t.
apply: joint_local => [i in_i|]; first exact: partial_rmap enc.
apply: (joint_bind run); apply: (joint_bind (open_ptxts_joint enc hz)).
apply: joint_local => [i in_i|]; last exact: joint_result.
by have [_ _ ->] := keys_ok in_i.
Qed.

(** ** Blocks of several ciphertexts *)

(** The stores of the parties hold what a block needs. *)
Definition block_ready (stock : Role -> P) : Prop :=
  exists pre bs rs brest ts rest, [/\ bits_shared t bs rs, size bs = num_required_bits 1, all (good_triple t) ts,
    size ts = num_required_triples 1 & forall i, stock i = stocked2 pre (rs ++ brest) (ts ++ rest) i].

Lemma task_block_joint c me stock : encrypts64 c me -> block_ready stock ->
  exists after, joint net (fun i => task_block keyswitch_lwe_ciphertext t i (keys i) c (stock i))
    (fun i => ({| block_bits := mb; partial_decryption := BinNat.N.of_nat me.1 |}, after i)).
Proof.
move=> enc [pre [bs [rs [brest [ts [rest [hb sz_b gts sz_t eq_s]]]]]]].
have encs : List.Forall2 encrypts64 [:: c] [:: me] by constructor=> //; constructor.
have [sz _ _ _] := enc.
have [zs hz run] := bitdec_ptxts_joint pre brest rest (cs := [:: c]) isT encs hb sz_b gts sz_t.
exists (stocked2 pre brest rest); apply: joint_local => [i in_i|]; first by rewrite partial_decrypt64E.
apply: (joint_bind (outs := fun i => ([seq p.[point i] | p : {poly R64} <- zs], stocked2 pre brest rest i))).
  by apply: joint_ext run => i _; rewrite eq_s.
apply: (joint_bind (open_ptxts_joint encs hz)); apply: joint_result => i in_i.
by have [_ _ ->] := keys_ok in_i.
Qed.

Lemma task_blocks_joint cs mes (stocks : seq (Role -> P)) acc dones : List.Forall2 encrypts64 cs mes ->
  List.Forall2 (fun _ stock => block_ready stock) cs stocks ->
  exists afters, joint net
    (fun i => task_blocks keyswitch_lwe_ciphertext t i (keys i) (zip cs [seq stock i | stock <- stocks]) acc [seq d i | d : Role -> P <- dones])
    (fun i => (acc ++ [seq {| block_bits := mb; partial_decryption := BinNat.N.of_nat me.1 |} | me <- mes],
               [seq d i | d : Role -> P <- dones ++ afters])).
Proof.
move=> enc ready; elim: enc stocks acc dones ready => {cs mes} [|c me cs mes enc_c _ IHc] stocks acc dones ready.
  by inversion ready; subst; exists [::]; apply: joint_result => i _; rewrite !cats0.
inversion ready as [|? stock ? stocks' ready_c ready_cs]; subst; have [after run] := task_block_joint enc_c ready_c.
have [afters runs] := IHc stocks' (rcons acc {| block_bits := mb; partial_decryption := BinNat.N.of_nat me.1 |})
  (rcons dones after) ready_cs.
exists (after :: afters); apply: (joint_bind run).
apply: (joint_ext (progs := fun i => task_blocks keyswitch_lwe_ciphertext t i (keys i) (zip cs [seq stock i | stock <- stocks'])
  (rcons acc {| block_bits := mb; partial_decryption := BinNat.N.of_nat me.1 |}) [seq d i | d : Role -> P <- rcons dones after])).
  by move=> i _; rewrite map_rcons.
by move: runs; rewrite !cat_rcons.
Qed.
End Online.

Context {SI : SolveInvert R64}.

(** The store that is filled. *)
Definition no_prep (_ : Role) : InMemoryBitDecPreprocessing R64 := {| bitdec_triples := [::]; bitdec_bits := [::] |}.

(** C1. Decryption by bit decomposition is right, end to end.  In a session of more
    than three times the threshold parties (four times in an asynchronous network), of
    which at most as many as the threshold do not run, let the running parties hold
    shares of a key, of random values and of triples, as many as [init_prep_bitdec]
    asks the offline phase for, and let every block be a ciphertext of its message
    with noise within half the scaling factor.  Then every execution, whatever the
    other parties send and in whatever order answers come, runs to the end (random
    bits are made of the random values, the shares of the phases are decomposed into
    bits, the plaintexts are extracted and opened), and every running party returns
    the recomposition of the messages. *)
Theorem bitdec_decryption_correct (pre : Role -> InMemoryBasePreprocessing R64)
    (vs : seq R64) rs brest ts rest cs mes :
  (0 < size cs)%N -> List.Forall2 encrypts64 cs mes ->
  shared t vs rs -> size rs = num_required_bits (size cs) ->
  all (good_triple t) ts -> size ts = (num_required_bits (size cs) + num_required_triples (size cs))%N ->
  joint net (fun i => decrypt_using_bitdec keyswitch_lwe_ciphertext recomposer t
      i (stocked2 (S := base_triple_store R64) (SB := base_random_store R64) pre (rs ++ brest) (ts ++ rest) i) (keys i) cs)
    (fun=> recomposed mb [seq me.1 | me <- mes]).
Proof.
move=> cs_gt0 enc hr sz_r gts sz_t; have [ts0 [ts1 [eq_t sz0 sz1]]] := split_seq sz_t.
move: gts; rewrite eq_t all_cat -catA => /andP[g0 g1].
have [|bs [qs [sz_b hq run]]] := fill_joint is_ready pre brest rest hr sz_r g0 _ sz1; first by rewrite sz0.
have := run_decryption_bitdec_joint (I := bitdec_independent R64) no_prep [::] [::] cs_gt0 enc hq _ g1 sz1.
rewrite sz_b !cats0 => /(_ sz_r) run2.
by apply: (joint_bind run); apply: (joint_bind run2); apply: joint_result.
Qed.

(** C17. Partial decryption by bit decomposition, for user decryption: in the same
    sessions and from the same keys, material and ciphertexts, every execution runs
    to the end, and the running parties hold shares of the degree of the threshold of
    the messages themselves, with no noise left in them. *)
Theorem bitdec_partial_decryption_correct (pre : Role -> InMemoryBasePreprocessing R64)
    (vs : seq R64) rs brest ts rest cs mes :
  (0 < size cs)%N -> List.Forall2 encrypts64 cs mes ->
  shared t vs rs -> size rs = num_required_bits (size cs) ->
  all (good_triple t) ts -> size ts = (num_required_bits (size cs) + num_required_triples (size cs))%N ->
  exists2 zs, shared t [seq me.1%:R | me <- mes] zs &
    joint net (fun i => partial_decrypt_using_bitdec keyswitch_lwe_ciphertext t
        i (stocked2 (S := base_triple_store R64) (SB := base_random_store R64) pre (rs ++ brest) (ts ++ rest) i) (keys i) cs)
      (fun i => [seq p.[point i] | p : {poly R64} <- zs]).
Proof.
move=> cs_gt0 enc hr sz_r gts sz_t; have [ts0 [ts1 [eq_t sz0 sz1]]] := split_seq sz_t.
move: gts; rewrite eq_t all_cat -catA => /andP[g0 g1].
have [|bs [qs [sz_b hq run]]] := fill_joint is_ready pre brest rest hr sz_r g0 _ sz1; first by rewrite sz0.
have := bitdec_ptxts_joint (I := bitdec_independent R64) no_prep [::] [::] cs_gt0 enc hq _ g1 sz1.
rewrite sz_b !cats0 => /(_ sz_r) [zs hz run2]; exists zs => //.
apply: (joint_bind run); apply: joint_local => [i in_i|]; first exact: partial_rmap enc.
by apply: (joint_bind run2); apply: joint_result.
Qed.
End BitDecryption.

(** ** Decoding *)

Local Notation N1 := (BinNums.Npos BinNums.xH).
Local Notation N2 := (BinNums.Npos (BinNums.xO BinNums.xH)).

Lemma N_pow2 n : BinNat.N.of_nat (2 ^ n) = BinNat.N.pow N2 (BinNat.N.of_nat n).
Proof. by rewrite -pow_Nat Nnat.Nat2N.inj_pow. Qed.

Lemma N_lt m n : (m < n)%N -> BinNat.N.lt (BinNat.N.of_nat m) (BinNat.N.of_nat n).
Proof. by move/ltP => lt_mn; rewrite /BinNat.N.lt -Nnat.Nat2N.inj_compare; apply/PeanoNat.Nat.compare_lt_iff. Qed.

Lemma from_expanded_nat L tb m e : (tb + 1 < L)%N -> (L <= 128)%N -> (m < 2 ^ tb)%N -> (e < delta L tb)%N ->
  from_expanded_msg (BinNat.N.of_nat L)
    (BinNat.N.of_nat ((delta L tb * m + e + (2 ^ L - delta_half L tb)) %% 2 ^ L)) (BinNat.N.of_nat tb)
  = Ok (BinNat.N.of_nat m).
Proof.
move=> lt_tb le_L lt_m lt_e.
have eq_d : BinNat.N.of_nat (delta L tb) = BinNat.N.pow N2 (BinNat.N.sub (BinNat.N.of_nat L) (BinNat.N.add (BinNat.N.of_nat tb) N1)).
  by rewrite /delta N_pow2 Nnat.Nat2N.inj_sub Nnat.Nat2N.inj_add.
have eq_h : BinNat.N.of_nat (delta_half L tb) = BinNat.N.div (BinNat.N.of_nat (delta L tb)) N2.
  by rewrite (delta_twice lt_tb) Nnat.Nat2N.inj_mul BinNat.N.mul_comm BinNat.N.div_mul.
rewrite -modn_Nat ?expn_gt0 // Nnat.Nat2N.inj_mod !Nnat.Nat2N.inj_add Nnat.Nat2N.inj_sub Nnat.Nat2N.inj_mul N_pow2 eq_h eq_d.
apply: from_expanded_msg_round.
- by have := N_lt lt_tb; rewrite Nnat.Nat2N.inj_add.
- by apply/BinNat.N.lt_succ_r; apply: (N_lt (n := 129)).
- by rewrite -N_pow2; apply: N_lt.
- by rewrite -eq_d; apply: N_lt.
Qed.

(** ** Decryption by noise flooding *)

Section Flooded.
Context {R64 R128 : comNzRingType} {X : ExceptionalSequence R128} {B128 : BitRing R128}.
Variables (parties : seq Role) (t : nat).
Hypothesis char128 : @CHAR_LOG2 R128 B128 = 128%N.
Variables (W T : Type) (recomposer : BlockRecomposer W T).

Variables (ddec_key_type : SnsDecryptionKeyType) (packing_factor : nat).
Variables (keys : Role -> PrivateKeySet R64 R128) (s : seq R128) (ks : seq {poly R128}) (tb mb : nat).
Hypothesis key_shared : shared t s ks.
Hypothesis keys_ok : forall i, i \in parties ->
  [/\ (if ddec_key_type is SnsKey then glwe_secret_key_share_sns_as_lwe (keys i)
       else glwe_sns_compression_key_as_lwe (keys i)) = Some (shs i ks),
      total_block_bits (keys i) = tb & message_modulus_log (keys i) = mb].
Hypothesis lt_tb : (tb + 1 < 128)%N.

(** The masks lie between [- V] and [V]. *)
Variable V : nat.

(** A ciphertext of [m] with noise [p - q]: together with the masks it stays
    within half the scaling factor. *)
Definition encrypts128 (c : LweCiphertext) (mpq : nat * (nat * nat)) : Prop :=
  let: (m, (p, q)) := mpq in
  [/\ size (lwe_mask c) = size s, (m < 2 ^ tb)%N, (p + V < delta_half 128 tb)%N,
      (q + V <= delta_half 128 tb)%N
    & phase s c = (delta 128 tb * m + p)%:R - q%:R].

Definition flooded (cm : LweCiphertext * {poly R128}) : {poly R128} := phase_poly ks cm.1 + cm.2.

Lemma partial_decrypt128E i c : i \in parties -> size (lwe_mask c) = size s ->
  partial_decrypt128 (keys i) c ddec_key_type = Ok (phase_poly ks c).[point i].
Proof.
move=> in_i sz; have [eq_k _ _] := keys_ok in_i; rewrite /partial_decrypt128.
have -> : match ddec_key_type with
  | SnsKey => if glwe_secret_key_share_sns_as_lwe (keys i) is Some key then Ok key
              else Err "Missing the switch and squash secret key"%string
  | SnsCompressionKey => if glwe_sns_compression_key_as_lwe (keys i) is Some key then Ok key
              else Err "Missing the switch and squash compression secret key"%string
  end = Ok (shs i ks) by case: ddec_key_type eq_k => ->.
by rewrite /= a_time_sE ?(shared_size key_shared) //= /phase_poly !(hornerD, hornerN, hornerC).
Qed.

Lemma flood_fold i cs mpqs (ms rest : seq {poly R128}) acc : i \in parties -> List.Forall2 encrypts128 cs mpqs -> size ms = size cs ->
  rfold (fun (st : seq R128 * InMemoryNoiseFloodPreprocessing R128) current_ct_block =>
      let* partial_decrypt := partial_decrypt128 (keys i) current_ct_block ddec_key_type in
      let* mask := next_mask st.2 in
      Ok (rcons st.1 (partial_decrypt + mask.1), mask.2))
    (acc, {| available_masks := [seq p.[point i] | p : {poly R128} <- rest ++ rev ms] |}) cs
  = Ok (acc ++ [seq p.[point i] | p : {poly R128} <- map flooded (zip cs ms)],
        {| available_masks := [seq p.[point i] | p : {poly R128} <- rest] |}).
Proof.
move=> in_i enc; elim: enc acc ms => {cs mpqs} [|c [m [p q]] cs mpqs [sz _ _ _ _] _ IHc] acc [|x ms] //= => [_|[sz_m]].
  by rewrite !cats0.
rewrite partial_decrypt128E //= /next_mask /= rev_cons -rcons_cat map_rcons rev_rcons /= revK IHc //.
by rewrite -cats1 -catA /= /flooded /= hornerD.
Qed.

(** The values that are opened. *)
Definition opened_value (mpq : nat * (nat * nat)) (y : nat) : nat :=
  let: (m, (p, q)) := mpq in
  delta 128 tb * m + (p + y + (delta_half 128 tb - (q + V))) + (2 ^ 128 - delta_half 128 tb).

Lemma opened_ring (R : comNzRingType) (D H Q m p q y : nat) : (q + V <= H)%N -> (H <= Q)%N -> Q%:R = 0 :> R ->
  (D * m + (p + y + (H - (q + V))) + (Q - H))%:R = (D * m + p)%:R - q%:R + (y%:R - V%:R) :> R.
Proof. by move=> le_q le_h eq_0; rewrite !natrD !natrB // eq_0 natrD; ring. Qed.

Lemma opened_noise (H p q y : nat) : (p + V < H)%N -> (q + V <= H)%N -> (y <= 2 * V)%N ->
  (p + y + (H - (q + V)) < 2 * H)%N.
Proof. ssrlia. Qed.

Lemma word_zero : (2 ^ 128)%:R = 0 :> R128.
Proof. by rewrite -char128 natrX two_char. Qed.

Lemma half_le_word : (delta_half 128 tb <= 2 ^ 128)%N.
Proof. by rewrite leq_exp2l // -subnDA leq_subr. Qed.

Lemma flooded_secret c mpq y (mask : {poly R128}) : encrypts128 c mpq -> of_degree t mask ->
  secret mask = y%:R - V%:R ->
  of_degree t (flooded (c, mask)) /\ secret (flooded (c, mask)) = (opened_value mpq y)%:R.
Proof.
case: mpq => m [p q] [sz _ _ le_q eq_p] dm em; have [dp ep] := phase_shared key_shared sz.
split; first exact: of_degreeD.
rewrite /secret /flooded hornerD -!/(secret _) [X in X + _]ep em eq_p.
by rewrite (opened_ring _ _ _ _ le_q half_le_word word_zero).
Qed.

Lemma opened_decode c mpq y : encrypts128 c mpq -> (y <= 2 * V)%N ->
  (let* v_scalar := @to_scalar R128 B128 (opened_value mpq y)%:R in
   from_expanded_msg (BinNat.N.of_nat 128) (BinNat.N.of_nat v_scalar) (BinNat.N.of_nat tb)) = Ok (BinNat.N.of_nat mpq.1).
Proof.
case: mpq => m [p q] [_ lt_m lt_p le_q _] le_y.
rewrite to_scalarE char128; cbn [rbind]; rewrite /opened_value; apply: from_expanded_nat lt_m _ => //.
by rewrite [X in (_ < X)%N](delta_twice lt_tb); apply: opened_noise.
Qed.

(** The masked phases and what opening them decodes to. *)
Lemma flooded_shared cs mpqs (ms : seq {poly R128}) ys : List.Forall2 encrypts128 cs mpqs -> size ys = size cs ->
  shared t [seq y%:R - V%:R | y : nat <- ys] ms ->
  shared t [seq (opened_value my.1 my.2)%:R | my <- zip mpqs ys] (map flooded (zip cs ms)).
Proof.
move=> enc; elim: enc ms ys => {cs mpqs} [|c mpq cs mpqs enc_c _ IHc] [|mask ms] [|y ys] //= [sz] hm; try by case: hm.
have [/= /andP[dm dms] [em ems]] := hm; have [df ef] := flooded_secret enc_c dm em.
by have [d e] := IHc ms ys sz (conj dms ems); split=> /=; rewrite ?df ?ef ?e.
Qed.

Lemma opened_decodes cs mpqs ys : List.Forall2 encrypts128 cs mpqs -> size ys = size cs ->
  all (fun y => y <= 2 * V)%N ys ->
  reconstruct_message (Some [seq (opened_value my.1 my.2)%:R : R128 | my <- zip mpqs ys]) tb
  = Ok [seq BinNat.N.of_nat mpq.1 | mpq <- mpqs].
Proof.
rewrite /reconstruct_message; set f := (X in rmap X).
have fE c mpq y : encrypts128 c mpq -> (y <= 2 * V)%N -> f (opened_value mpq y)%:R = Ok (BinNat.N.of_nat mpq.1).
  exact: opened_decode.
move: f fE => f fE enc; elim: enc ys => {cs mpqs} [|c mpq cs mpqs enc_c _ IHc] [|y ys] //= [sz] /andP[le_y le_ys].
by rewrite (fE c) //= IHc.
Qed.

Lemma shared_rev (vs : seq R128) ps : shared t vs ps -> shared t (rev vs) (rev ps).
Proof. by case=> d <-; split; rewrite ?all_rev // map_rev. Qed.

(** Decryption from masks that are shared. *)
Lemma decrypt_noiseflood_joint {EC : ErrorCorrect X} {RW : RingWidth R128} {net : Network} cs mpqs (ms rest : seq {poly R128}) ys : List.Forall2 encrypts128 cs mpqs ->
  size ys = size cs -> all (fun y => y <= 2 * V)%N ys ->
  shared t [seq y%:R - V%:R | y : nat <- ys] ms -> ready R128 net t -> running net = parties ->
  joint net (fun i => decrypt_noiseflood recomposer t
      {| available_masks := [seq p.[point i] | p : {poly R128} <- rest ++ rev ms] |} (keys i) cs packing_factor ddec_key_type)
    (fun i => (recomposed recomposer (packing_factor * mb) [seq mpq.1 | mpq <- mpqs], {| available_masks := [seq p.[point i] | p : {poly R128} <- rest] |})).
Proof.
move=> enc sz le_ys hm is_ready eq_p; have hf := flooded_shared enc sz hm.
have sz_m : size ms = size cs by rewrite (shared_size hm) size_map.
apply: joint_local => [i|]; first by rewrite eq_p => in_i; exact: (flood_fold rest [::] in_i enc sz_m).
apply: (joint_bind (outs := fun=> [seq BinNat.N.of_nat mpq.1 | mpq <- mpqs])).
  apply: joint_robust_open => //; first by case: hf.
  apply: joint_result => i; rewrite eq_p => in_i; have [_ -> _] := keys_ok in_i; have [_ eq_f] := hf.
  by rewrite -[map _ _]/(map secret _) eq_f (opened_decodes enc).
apply: joint_local => [i|]; last exact: joint_result.
by rewrite eq_p => in_i; have [_ _ ->] := keys_ok in_i; rewrite /combine_plaintext_blocks /= /recomposed -map_comp.
Qed.
End Flooded.

Section NoiseFlood.
Context {R64 R128 : comNzRingType} {X : ExceptionalSequence R128} {B128 : BitRing R128}.
Context {EC : ErrorCorrect X} {RW : RingWidth R128}.
Variables (net : Network) (t : nat).
Hypothesis is_ready : ready R128 net t.
Hypothesis char128 : @CHAR_LOG2 R128 B128 = 128%N.
Variables (W T : Type) (recomposer : BlockRecomposer W T).

Variables (ddec_key_type : SnsDecryptionKeyType) (packing_factor : nat).
Variables (keys : Role -> PrivateKeySet R64 R128) (s : seq R128) (ks : seq {poly R128}) (tb mb : nat).
Hypothesis key_shared : shared t s ks.
Hypothesis keys_ok : forall i, i \in running net ->
  [/\ (if ddec_key_type is SnsKey then glwe_secret_key_share_sns_as_lwe (keys i)
       else glwe_sns_compression_key_as_lwe (keys i)) = Some (shs i ks),
      total_block_bits (keys i) = tb & message_modulus_log (keys i) = mb].
Hypothesis lt_tb : (tb + 1 < 128)%N.
Context {SI : SolveInvert R128}.

(** C2. Decryption by noise flooding is right, end to end.  In a session of more than
    three times the threshold parties (four times in an asynchronous network), of
    which at most as many as the threshold do not run, let the running parties hold
    shares of the switch-and-squash key, of random values and of triples, as many as
    the masks of the blocks need, and let every block be a ciphertext of its message
    whose noise leaves room for the masks within half the scaling factor.  Then every
    execution, whatever the other parties send and in whatever order answers come,
    runs to the end (random bits are made of the random values, TUniform masks of the
    bits, the masked phases are opened and rounded), and every running party returns
    the recomposition of the messages: the masks, of up to [2^(STATSEC + LOG_B_SWITCH_SQUASH + 1)], never
    change a message. *)
Theorem noiseflood_decryption_correct (pre : Role -> InMemoryBasePreprocessing R128)
    (vs : seq R128) rs brest ts rest cs mpqs :
  List.Forall2 (encrypts128 s tb (2 ^ bound_d.+1)) cs mpqs ->
  shared t vs rs -> size rs = (2 * size cs * (STATSEC + LOG_B_SWITCH_SQUASH + 2))%N ->
  all (good_triple t) ts -> size ts = size rs ->
  joint net (fun i => decrypt_using_noiseflooding recomposer t
      (stocked2 (S := base_triple_store R128) (SB := base_random_store R128) pre (rs ++ brest) (ts ++ rest) i)
      (keys i) cs packing_factor ddec_key_type)
    (fun=> recomposed recomposer (packing_factor * mb) [seq mpq.1 | mpq <- mpqs]).
Proof.
move=> enc hr sz_r gts sz_t.
have [bs [qs [sz_b hq run]]] := gen_bits_joint is_ready pre brest rest hr gts sz_t.
have sz_q : size qs = (2 * size cs * (bound_d + 2))%N by rewrite (bits_size hq) sz_b sz_r.
have [ys [sz_y le_ys] hm] := mask_polys_shared hq sz_q.
have hm' := shared_rev hm; rewrite -map_rev in hm'.
have := decrypt_noiseflood_joint (EC := EC) char128 recomposer packing_factor key_shared keys_ok lt_tb [::] enc _ _ hm' is_ready erefl; rewrite -expnS revK size_rev all_rev => /(_ sz_y le_ys) run2.
rewrite /decrypt_using_noiseflooding /noise_fill_from_base_preproc -sz_r.
apply: (joint_bind (outs := fun i => ({| available_masks := [seq p.[point i] | p : {poly R128} <- mask_polys qs (size cs)] |},
  stocked2 (S := base_triple_store R128) (SB := base_random_store R128) pre brest rest i))).
  apply: (joint_bind run); apply: joint_local => [i _|].
    have := @fill_from_bitsE _ _ _ (bit_store R128) (fun=> {| available_bits := [::] |}) qs [::] (size cs) [::] i sz_q.
    rewrite cats0 => filled; exact: filled.
  exact: joint_result.
by apply: (joint_bind run2); apply: joint_result.
Qed.
End NoiseFlood.
