(* ===== verification/OnlineRing.v ===== *)
(** * The extensions as rings of the online protocols
    (core/threshold-algebra/src/galois_rings/common.rs and base_ring.rs)

    The residue polynomials implement what the protocols on shared bits ask of
    their ring, and reduction of the coefficients from 128 to 64 bits is a ring
    morphism that maps the points of the parties to each other. *)

From Stdlib Require Import String.
From HB Require Import structures.
From mathcomp Require Import boot.
From mathcomp Require Import ssralg poly polydiv zmodp qpoly ring_tactic.
From S2P Require Import Prelude SsrLia Role PolyOps Structure Hensel Karatsuba ResiduePoly ResidueRing GaloisRing Degrees.
From S2P Require Import Newton Shamir OpenList Protocol Triples BitOps BitRows BitLift GenBits.

Set Implicit Arguments.
Unset Strict Implicit.
Unset Printing Implicit Defensive.

Import GRing.Theory Pdiv.Ring Pdiv.RingMonic.
Local Open Scope ring_scope.

Section Instances.
Variables (K d : nat) (F : fieldType).
Hypothesis K_gt0 : (0 < K)%N.
Hypothesis range_d : (3 <= d <= 8)%N.
Context {P : G2P F d}.
Local Notation Z := 'Z_(2 ^ K).
Local Notation R := {poly %/ Poly (modulus Z d)}.
Local Notation cls := (residue_class d).
Implicit Types (q : R) (a v : seq Z).

(** [to_scalar], with the value of the base ring element. *)
Definition ring_to_scalar q : Res string nat := let* z := rp_to_scalar d (coefs q) in Ok (z : nat).

Lemma coefs_nat n : coefs (n%:R : R) = rp_from_scalar d n%:R.
Proof. by rewrite -(class_scalar _ range_d n) classK // size_scalar. Qed.

Lemma ring_to_scalarE n : ring_to_scalar n%:R = Ok (n %% 2 ^ K)%N.
Proof.
rewrite /ring_to_scalar coefs_nat /rp_to_scalar; case: hasP => [[i]|_].
  rewrite mem_iota => /andP[i_gt0 _]; rewrite nth_set_nth /= nth_nseq.
  by case: i i_gt0 => //= i _; case: ifP; rewrite eqxx.
by rewrite /= nth_set_nth /= -from_u128E // val_from_u128.
Qed.

Definition ring_bits : BitRing R :=
  {| CHAR_LOG2 := K; bit_shl := @ring_shl K d; to_scalar := ring_to_scalar; char_log2_gt0 := K_gt0;
     two_char := ring_two_nilpotent d K_gt0; bit_shlE := ring_shlE K_gt0 range_d; to_scalarE := ring_to_scalarE |}.

(** ** Solving and inverting *)

Variables (gf_div : F -> F -> Res string F) (debug_assertions : bool).
Hypothesis gf_divE : forall x y : F, y != 0 -> gf_div x y = Ok (x / y).
Hypothesis width : K = 64%N \/ K = 128%N.

Definition solve_element q : Res string R := let* x := rp_solve (P := P) (coefs q) in Ok (cls x).
Definition invert_element q : Res string R := let* x := rp_invert (P := P) gf_div debug_assertions (coefs q) in Ok (cls x).

Lemma element_residue q : bit_compose_ext P (coefs q) 0 = residue_of q.
Proof. by rewrite bit_compose0 ?size_coefs // coefsK. Qed.

Lemma solve_elementE (a : R) : exists2 r, solve_element (a * a + a) = Ok r & r * r + r = a * a + a.
Proof.
rewrite /solve_element; have sz := size_coefs (a * a + a).
have [|x -> [sz_x eq_x]] := rp_solve_ok K_gt0 range_d (P := P) width sz.
  by exists (residue_of a); rewrite element_residue rmorphD rmorphM addrC.
exists (cls x) => //; have [_ _ sz_xx] := size_ext_ops range_d sz_x sz_x.
have := congr1 cls eq_x; rewrite coefsK //; have [-> _ _] := class_ops range_d sz_x sz_xx.
by have [_ _ ->] := class_ops range_d sz_x sz_x; rewrite addrC.
Qed.

Lemma invert_elementE (r : R) :
  exists2 c, invert_element (0 - (1 + r * 2%:R)) = Ok c & (0 - (1 + r * 2%:R)) * c = 1.
Proof.
have pow_K : (2 ^ trunc_log 2 K)%N = K by case: width => ->.
set q := 0 - _; have sz := size_coefs q; rewrite /invert_element.
have [|b -> [sz_b eq_b]] := rp_invert_ok K_gt0 range_d debug_assertions pow_K gf_divE sz.
  rewrite element_residue /q sub0r rmorphN rmorphD rmorph1 rmorphM rmorph_nat gf_two mulr0 addr0.
  by rewrite oppr_eq0 oner_eq0.
exists (cls b) => //; have := congr1 cls eq_b; have [_ _ ->] := class_ops range_d sz_b sz.
by rewrite coefsK // class_one // mulrC.
Qed.

(** The ring is local. *)
Lemma even_idempotent (b : R) : b * b = b -> residue_of b = 0 :> F -> b = 0.
Proof.
move=> idem /(residue_of_ker K_gt0 range_d)[y eq_b].
have powE n : b ^+ n.+1 = b by elim: n => // n IHn; rewrite exprS IHn.
by rewrite -(powE K.-1) prednK // eq_b exprMn ring_two_nilpotent // mul0r.
Qed.

Lemma local_idempotents (b : R) : b * b = b -> b = 0 \/ b = 1.
Proof.
move=> idem; have := congr1 (@residue_of K d F P) idem; rewrite rmorphM => /eqP.
rewrite -subr_eq0 -[X in _ - X]mulr1 -mulrBr mulf_eq0 subr_eq0 => /orP[] /eqP res.
  by left; apply: even_idempotent.
right; apply/esym/eqP; rewrite -subr_eq0; apply/eqP; apply: even_idempotent.
  by have -> : (1 - b) * (1 - b) = 1 - b + (b * b - b) by [ring]; rewrite idem subrr addr0.
by rewrite rmorphB rmorph1 res subrr.
Qed.

Definition ring_solve_invert : SolveInvert R :=
  {| ring_solve := solve_element; ring_invert := invert_element; ring_solveE := solve_elementE;
     ring_invertE := invert_elementE; idempotents := local_idempotents |}.
End Instances.

(** ** Change of the base ring *)

Section Switch.
Variables (K L d : nat) (F : fieldType).
Hypothesis L_gt0 : (0 < L)%N.
Hypothesis le_LK : (L <= K)%N.
Hypothesis range_d : (3 <= d <= 8)%N.
Local Notation ZK := 'Z_(2 ^ K).
Local Notation ZL := 'Z_(2 ^ L).
Local Notation RK := {poly %/ Poly (modulus ZK d)}.
Local Notation RL := {poly %/ Poly (modulus ZL d)}.

Let K_gt0 : (0 < K)%N.
Proof. exact: leq_trans le_LK. Qed.

Definition z_switch (z : ZK) : ZL := from_u128 L z.


Lemma z_switch_nat n : z_switch n%:R = n%:R.
Proof.
rewrite /z_switch -(from_u128E K_gt0 n) -(from_u128E L_gt0 n) val_from_u128 //; apply: ord_inj.
by rewrite !val_from_u128 // modn_dvdm // dvdn_exp2l.
Qed.

Lemma z_switchE z : z_switch z = (z : nat)%:R.
Proof. exact: from_u128E. Qed.

Lemma z_switchD y z : z_switch (y + z) = z_switch y + z_switch z.
Proof. by rewrite -{1}(natr_Zp y) -{1}(natr_Zp z) -natrD z_switch_nat natrD !z_switchE. Qed.

Lemma z_switch_is_zmod : zmod_morphism z_switch.
Proof. by move=> y z; apply/(canRL (addrK _)); rewrite -z_switchD subrK. Qed.

Lemma z_switch_is_monoid : monoid_morphism z_switch.
Proof.
split=> [|y z]; first exact: (z_switch_nat 1).
by rewrite -{1}(natr_Zp y) -{1}(natr_Zp z) -natrM z_switch_nat natrM !z_switchE.
Qed.

HB.instance Definition _ := GRing.isZmodMorphism.Build ZK ZL z_switch z_switch_is_zmod.
HB.instance Definition _ := GRing.isMonoidMorphism.Build ZK ZL z_switch z_switch_is_monoid.

Lemma map_switch_modulus n : map_poly z_switch (Poly (modulus ZK n)) = Poly (modulus ZL n).
Proof.
by rewrite map_Poly; move: n => [|[|[|[|[|[|[|[|[|n]]]]]]]]] /=; rewrite ?rmorph1 ?rmorph0.
Qed.

(** The coefficients, one by one. *)
Definition rp_switch (a : seq ZK) : seq ZL := [seq z_switch c | c <- a].
Definition ring_switch (q : RK) : RL := residue_class d (rp_switch (coefs q)).

Lemma ring_switchE q : ring_switch q = in_qpoly (Poly (modulus ZL d)) (map_poly z_switch q).
Proof.
rewrite /ring_switch /residue_class; congr in_qpoly.
by rewrite -map_Poly -(residue_class_val range_d (size_coefs q)) coefsK.
Qed.

Lemma ring_switch_class p :
  ring_switch (in_qpoly (Poly (modulus ZK d)) p) = in_qpoly (Poly (modulus ZL d)) (map_poly z_switch p).
Proof.
have [sz mon] := size_modulus ZK range_d; have h_gt1 : (1 < size (Poly (modulus ZK d)))%N by rewrite sz ltnS ext_gt0.
rewrite ring_switchE [in RHS](rdivp_eq mon p) !rmorphD !rmorphM /= map_switch_modulus.
have -> : in_qpoly (Poly (modulus ZL d)) (Poly (modulus ZL d)) = 0.
  have [szL monL] := size_modulus ZL range_d; have hL_gt1 : (1 < size (Poly (modulus ZL d)))%N by rewrite szL ltnS ext_gt0.
  by apply: val_inj; rewrite /= /mk_monic hL_gt1 monL rmodpp.
by rewrite mulr0 add0r /mk_monic h_gt1 mon.
Qed.

Lemma ring_switch_is_zmod : zmod_morphism ring_switch.
Proof. by move=> p q; rewrite !ring_switchE -[X in map_poly _ X]/((p : {poly ZK}) - (q : {poly ZK})) !rmorphB. Qed.

Lemma ring_switch_is_monoid : monoid_morphism ring_switch.
Proof.
split=> [|p q].
  by rewrite -[X in ring_switch X](rmorph1 (in_qpoly (Poly (modulus ZK d)))) ring_switch_class !rmorph1.
by rewrite -[p * q]/(in_qpoly _ ((p : {poly ZK}) * q)) ring_switch_class !rmorphM !ring_switchE.
Qed.

(** The points. *)
Lemma ring_switch_bits n : ring_switch (bit_element K d n) = bit_element L d n.
Proof.
rewrite -!bit_coefs_class // /ring_switch classK ?size_bit_coefs //; congr residue_class.
rewrite /rp_switch /bit_coefs -map_comp; apply: eq_map => i /=.
by case: bit_of; rewrite ?rmorph1 ?rmorph0.
Qed.
End Switch.

(** The lift of a bit. *)
Lemma lift_ring_bit (K L d : nat) (b : bool) : (0 < L)%N -> (0 < K)%N -> (3 <= d <= 8)%N ->
  @ring_switch K L d (b : nat)%:R = (b : nat)%:R.
Proof.
move=> L_gt0 K_gt0 range_d; rewrite -(class_scalar L range_d b) /ring_switch coefs_nat //; congr residue_class.
have z0 : z_switch L (0 : 'Z_(2 ^ K)) = 0 by rewrite /z_switch from_u128E.
have zb : z_switch L ((b : nat)%:R : 'Z_(2 ^ K)) = (b : nat)%:R.
  rewrite /z_switch -[in LHS]from_u128E // val_from_u128 // modn_small ?from_u128E //.
  exact: leq_ltn_trans (leq_b1 b) (modulus_gt1 K_gt0).
by rewrite /rp_switch /rp_from_scalar /rp_zero; case: d {range_d} => [|d] /=; rewrite ?map_nseq ?z0 zb.
Qed.

Section SwitchInstance.
Variables (K L d : nat) (F : fieldType).
Hypothesis L_gt0 : (0 < L)%N.
Hypothesis K_gt0 : (0 < K)%N.
Hypothesis le_LK : (L <= K)%N.
Hypothesis range_d : (3 <= d <= 8)%N.
Context {P : G2P F d}.
Local Notation XL := (ring_exceptional_sequence L_gt0 range_d (P := P)).
Local Notation XK := (ring_exceptional_sequence K_gt0 range_d (P := P)).

Lemma ring_switch_point i : ring_switch L (point (X := XK) i) = point (X := XL) i.
Proof.
rewrite /point /embed_role_to_exceptional_sequence /= !ring_exceptionalE; case: leqP => _.
  by have := ring_switch_is_zmod L_gt0 le_LK range_d 0 0; rewrite !subrr.
exact: ring_switch_bits.
Qed.

Definition ring_modulus_switch : ModulusSwitch XL XK :=
  {| to_residuepoly64 := @ring_switch K L d; lift_residuepoly := @ring_switch L K d;
     switch_zmod := ring_switch_is_zmod L_gt0 le_LK range_d;
     switch_monoid := ring_switch_is_monoid L_gt0 le_LK range_d;
     switch_point := ring_switch_point; lift_bit := fun b => lift_ring_bit b K_gt0 L_gt0 range_d |}.
End SwitchInstance.

(** [BIT_LENGTH] of the extension: that of the base ring times the degree. *)
Definition ring_width (K d : nat) : RingWidth {poly %/ Poly (modulus 'Z_(2 ^ K) d)} := {| BIT_LENGTH := BinInt.Z.of_nat (K * d) |}.
