(* ===== verification/OnlineExamples.v ===== *)
(** * Executions of the online protocols

    Four parties, threshold one, the fourth of which does not run, over the extensions
    of degree three: the theorems on opening, on multiplication, on decryption and on
    lifting applied to shared keys, bits and material; and three parties, which are too
    few to open. *)

From Stdlib Require Import String ZArith.
From mathcomp Require Import boot.
From mathcomp Require Import ssralg poly zmodp qpoly.
From S2P Require Import Prelude SsrLia Role Constants PolyOps Structure Lagrange Shamir ErrorCorrection ResiduePoly ResidueRing GaloisRing Gf8 Degrees Newton Decoding.
From S2P Require Import Open OpenList Protocol Triples BitOps BitRows BitLift GenBits Distributions Reconstruct Decrypt Decryption OnlineRing.

Set Implicit Arguments.
Unset Strict Implicit.
Unset Printing Implicit Defensive.

Import GRing.Theory.
Local Open Scope ring_scope.

Section Material.
Context {R : comNzRingType} {X : ExceptionalSequence R}.

(** Shares of zero that are not zero, and triples of them. *)
Definition zero_shares (n : nat) : seq {poly R} := nseq n 'X.
Definition zero_triples (n : nat) : seq (PTriple (R := R)) := nseq n ('X, 'X, 'X).

Lemma of_degreeX : of_degree 1 ('X : {poly R}).
Proof. by rewrite /of_degree size_polyX. Qed.

Lemma zero_shares_shared n : shared 1 (nseq n 0) (zero_shares n).
Proof.
split; first by apply/allP => p /nseqP[-> _]; apply: of_degreeX.
by rewrite /zero_shares map_nseq /secret hornerX.
Qed.

Lemma zero_triples_good n : all (good_triple 1) (zero_triples n).
Proof.
apply/allP => abc /nseqP[-> _]; rewrite /good_triple /= of_degreeX /=.
by rewrite /secret hornerX mulr0.
Qed.
End Material.

(** A store of two sequences. *)
Section PairStore.
Variables T U : Type.

Definition draw_first (p : seq T * seq U) (n : nat) : Res string (seq T * (seq T * seq U)) :=
  if (size p.1 < n)%N then Err "Not enough"%string else Ok (take n p.1, (drop n p.1, p.2)).
Definition draw_second (p : seq T * seq U) (n : nat) : Res string (seq U * (seq T * seq U)) :=
  if (size p.2 < n)%N then Err "Not enough"%string else Ok (take n p.2, (p.1, drop n p.2)).

Program Definition pair_fst_store : Store (seq T * seq U) T := {|
  contents p := p.1; with_contents p ts := (ts, p.2); next_vec := draw_first; append p ts := (p.1 ++ ts, p.2) |}.
Next Obligation. by rewrite /draw_first ltnNge H. Qed.
Next Obligation. by rewrite /draw_first H; eexists. Qed.

Program Definition pair_snd_store : Store (seq T * seq U) U := {|
  contents p := p.2; with_contents p us := (p.1, us); next_vec := draw_second; append p us := (p.1, p.2 ++ us) |}.
Next Obligation. by rewrite /draw_second ltnNge H. Qed.
Next Obligation. by rewrite /draw_second H; eexists. Qed.

Lemma pair_independent : Independent pair_fst_store pair_snd_store.
Proof. by split. Qed.
End PairStore.

(** The widths, sealed: the moduli are never computed in unary. *)
Definition k64 : nat := locked 64.
Definition k128 : nat := locked 128.

Lemma k64E : k64 = 64%N.
Proof. by rewrite /k64 -lock. Qed.

Lemma k128E : k128 = 128%N.
Proof. by rewrite /k128 -lock. Qed.

Lemma k64_gt0 : (0 < k64)%N.
Proof. by rewrite k64E. Qed.

Lemma k128_gt0 : (0 < k128)%N.
Proof. by rewrite k128E. Qed.

Lemma k64_le : (k64 <= k128)%N.
Proof. by rewrite k64E k128E. Qed.

Definition gf8_div (x y : GF8) : Res string GF8 := Ok (x / y).

Local Notation R64 := (ResidueRing k64 3).
Local Notation R128 := (ResidueRing k128 3).

#[local] Instance x64 : ExceptionalSequence R64 := ring_exceptional_sequence k64_gt0 (d := 3) isT (P := gf8).
#[local] Instance x128 : ExceptionalSequence R128 := ring_exceptional_sequence k128_gt0 (d := 3) isT (P := gf8).
#[local] Instance b64 : BitRing R64 := ring_bits k64_gt0 (d := 3) isT.
#[local] Instance b128 : BitRing R128 := ring_bits k128_gt0 (d := 3) isT.
#[local] Instance m64 : ModulusSwitch x64 x128 := ring_modulus_switch k64_gt0 k128_gt0 k64_le (d := 3) isT (P := gf8).
#[local] Instance si64 : SolveInvert R64 :=
  ring_solve_invert k64_gt0 (d := 3) isT (P := gf8) (gf_div := gf8_div) false (fun _ _ _ => erefl) (or_introl k64E).
#[local] Instance si128 : SolveInvert R128 :=
  ring_solve_invert k128_gt0 (d := 3) isT (P := gf8) (gf_div := gf8_div) false (fun _ _ _ => erefl) (or_intror k128E).

#[local] Instance ec64 : ErrorCorrect x64 := residue_error_correct k64_gt0 (d := 3) isT (P := gf8) (C := no_cache _).
#[local] Instance ec128 : ErrorCorrect x128 := residue_error_correct k128_gt0 (d := 3) isT (P := gf8) (C := no_cache _).
#[local] Instance w64 : RingWidth R64 := ring_width k64 3.
#[local] Instance w128 : RingWidth R128 := ring_width k128 3.

(** ** A session of four parties, the last of which does not run

    The first party knows it, the others do not. *)

Definition three_parties : seq Role := [:: 1; 2; 3].
Definition four_session : Network :=
  mkNetwork 4 1 Sync three_parties (fun i => if i == 1%N then [:: 4] else [::]).

Lemma four_session_ok (R : comNzRingType) (X : ExceptionalSequence R) (RW : RingWidth R) :
  (forall i, (0 < i <= 4)%N -> embeddable (R := R) i) -> (8 <= BIT_LENGTH R <= MAX_MESSAGE_BYTE_SIZE)%Z ->
  ready R four_session 1.
Proof.
move=> embeds width; split=> //; split=> //= i; rewrite !inE.
  by case/or3P=> /eqP->.
by case/or3P=> /eqP-> /=; split=> // j; rewrite inE => /eqP->.
Qed.

Lemma ring_embeddable (K : nat) (K_gt0 : (0 < K)%N) i : (0 < i <= 4)%N ->
  @embeddable _ (residue_sequence K_gt0 (d := 3) isT (P := gf8)) i.
Proof.
case/andP=> _ le_i; rewrite /embeddable /embed_role_to_exceptional_sequence /=.
by rewrite ring_exceptionalE // leqNgt (leq_ltn_trans le_i).
Qed.

Lemma ready64 : ready R64 four_session 1.
Proof. by apply: four_session_ok => [i|]; [exact: (ring_embeddable k64_gt0) | rewrite /= k64E]. Qed.

Lemma ready128 : ready R128 four_session 1.
Proof. by apply: four_session_ok => [i|]; [exact: (ring_embeddable k128_gt0) | rewrite /= k128E]. Qed.

(** ** Multiplication and lifting *)

(** Three parties are too few for a threshold of one. *)
Definition three_session : Network := mkNetwork 3 1 Sync three_parties (fun=> [::]).

Lemma three_session_ok : network_ok R64 three_session 1.
Proof.
have [ok _ _ _] := ready64; split=> //; last exact: (network_width ok).
- by move=> i; rewrite !inE => /or3P[] /eqP->.
- by move=> i /andP[i_gt0 le_i]; apply: (network_embeds ok); rewrite i_gt0 /= ltnW.
Qed.

Lemma mult_list_correct_witness :
  (exists2 zs, shared (R := R64) 1 [:: 0; 0] zs &
    joint four_session (fun i => mult_list 1 (shs i (zero_shares 2)) (shs i (zero_shares 2)) (tshs i (zero_triples 2)))
      (fun i => shs i zs)) /\
  joint_run three_session (fun i => mult_list 1 (shs i (zero_shares (R := R64) 2)) (shs i (zero_shares 2)) (tshs i (zero_triples 2)))
    (fun=> Err "Could not reconstruct the sharing"%string).
Proof.
have [enough _] := @mult_list_correct R64 x64 ec64 w64 four_session 1 [:: 0; 0] [:: 0; 0] (zero_shares 2) (zero_shares 2) (zero_triples 2)
  (ready_network ready64) (zero_shares_shared 2) (zero_shares_shared 2) (zero_triples_good 2).
have [_ few] := @mult_list_correct R64 x64 ec64 w64 three_session 1 [:: 0; 0] [:: 0; 0] (zero_shares 2) (zero_shares 2) (zero_triples 2)
  three_session_ok (zero_shares_shared 2) (zero_shares_shared 2) (zero_triples_good 2).
split; last exact: few.
by have [zs hz run] := enough ready64; exists zs => //; move: hz; rewrite /= !mulr0.
Defined.

(** Opening three shares of zero, in one message. *)
Lemma robust_open_list_correct_witness :
  exists jobs, delivered four_session (values (zero_shares (R := R64) 3)) 2 jobs /\
    robust_open_list_to_all (open_session four_session 2) (values (zero_shares (R := R64) 3) 2) 1 jobs
    = Ok (Some [:: 0; 0; 0]).
Proof.
have del := @silent_delivered R64 w64 four_session (@values R64 x64 (zero_shares 3)) 2; eexists; split; first exact: del.
have [|opens _] := @robust_open_list_correct R64 x64 ec64 w64 four_session 1 (zero_shares 3) 2 _
  (ready_network ready64) isT _ del; first by have [] := zero_shares_shared (R := R64) 3.
by rewrite opens //= /secret hornerX.
Defined.

#[local] Instance lift_triples : Store (seq (Triple R64) * seq (Share R128)) (Triple R64) := pair_fst_store _ _.
#[local] Instance lift_bits : Store (seq (Triple R64) * seq (Share R128)) (Share R128) := pair_snd_store _ _.
#[local] Instance lift_independent : Independent lift_triples lift_bits := pair_independent _ _.

Definition lift_store (rs : seq {poly R128}) (ts : seq (PTriple (R := R64))) (i : Role) : seq (Triple R64) * seq (Share R128) :=
  lift_stocked (fun=> ([::], [::])) rs ts i.

(** The bits one and zero, masked by shares of zero. *)
Lemma bit_lift_correct_witness :
  exists2 qs, bits_shared (R := R128) 1 [:: true; false] qs &
    joint four_session
      (fun i => bit_lift 1 (shs i [:: 1 + 'X : {poly R64}; 'X]) (lift_store (zero_shares 2 ++ [::]) (zero_triples 2 ++ [::]) i))
      (fun i => (shs i qs, lift_store [::] [::] i)).
Proof.
apply: (@bit_lift_correct R64 R128 x64 x128 m64 1 ec64 w64 four_session ready64 _ _ _ lift_independent (fun=> ([::], [::]))
  [:: true; false] [:: false; false]) => //.
- split; first by rewrite /= of_degreeX of_degreeD ?of_degreeX ?of_degreeC.
  by rewrite /= /secret hornerD hornerC hornerX addr0.
- exact: zero_shares_shared.
- exact: zero_triples_good.
Defined.

(** ** Decryption *)

(** A key of one element with shares over the larger ring. *)
Definition key_polys : seq {poly R128} := [:: 1 + 'X].
Definition example_keys (i : Role) : PrivateKeySet R64 R128 :=
  {| lwe_compute_secret_key_share := KeyZ128 (shs i key_polys); glwe_secret_key_share_sns_as_lwe := Some (shs i key_polys);
     glwe_sns_compression_key_as_lwe := None; message_modulus_log := 2; carry_modulus_log := 2 |}.

Lemma key_polys_shared : shared 1 [:: 1] key_polys.
Proof.
split; first by rewrite /= of_degreeD ?of_degreeX ?of_degreeC.
by rewrite /= /secret hornerD hornerC hornerX addr0.
Qed.

(** A block of [m] for that key, with no noise but the offset. *)
Definition example_lwe (L m : nat) : LweCiphertext := {| lwe_mask := [:: 3]; lwe_body := delta L 4 * m + 3 |}.
Definition example_block (m : nat) : Ciphertext :=
  {| atomic_pattern := Standard BootstrapKeyswitch; ct_lwe := example_lwe 64 m |}.

Lemma example_phase (R : comNzRingType) L m : phase [:: 1 : R] (example_lwe L m) = (delta L 4 * m)%:R.
Proof. by rewrite /phase /example_lwe /= big_seq1 mul1r natrD addrK. Qed.

(** A recomposer that keeps the blocks. *)
Definition blocks : BlockRecomposer (seq BinNums.N) (seq BinNums.N) :=
  {| recomposer_new := fun=> [::]; add_unmasked := fun w b => (rcons w b, true); recomposer_value := id |}.

Definition base_store {R : comNzRingType} {X : ExceptionalSequence R} (rs : seq {poly R}) (ts : seq (PTriple (R := R))) (i : Role)
    : InMemoryBasePreprocessing R :=
  stocked2 (S := base_triple_store R) (SB := base_random_store R)
    (fun=> {| base_triples := [::]; base_randoms := [::] |}) rs ts i.

Definition key64 : seq R64 := [seq to_residuepoly64 v | v : R128 <- [:: 1]].

Lemma key64E : key64 = [:: 1].
Proof. by congr [:: _]; case: (switch_monoid (ModulusSwitch := m64)). Qed.

Lemma offset_sub (R : comNzRingType) (a b : nat) : (a + b)%:R - b%:R = a%:R :> R.
Proof. by rewrite natrD addrK. Qed.

Lemma half_lt L tb : (tb + 1 < L)%N -> (delta_half L tb < delta L tb)%N.
Proof. by move=> lt_tb; rewrite (delta_twice lt_tb) mul2n -addnn -[X in (X < _)%N]addn0 ltn_add2l expn_gt0. Qed.

Lemma example_encrypts64 m : (m < 2 ^ 4)%N ->
  List.Forall2 (encrypts64 (fun c => c) key64 4) [:: example_block m] [:: (m, delta_half 64 4)].
Proof.
move=> lt_m; apply: List.Forall2_cons (List.Forall2_nil _); split; [by rewrite key64E | exact: lt_m | exact: half_lt |].
rewrite key64E.
exact (etrans (example_phase _ 64 m) (esym (offset_sub _ _ (delta_half 64 4)))).
Qed.

Lemma example_keys64 i : i \in three_parties ->
  [/\ convert_to_z64 (lwe_compute_secret_key_share (example_keys i)) = shs i (switch_polys key_polys),
      total_block_bits (example_keys i) = 4 & message_modulus_log (example_keys i) = 2].
Proof. by split; first exact: switch_shs. Qed.

Lemma bitdec_decryption_correct_witness :
  joint four_session (fun i => decrypt_using_bitdec (fun c => c) blocks 1 i
      (base_store (R := R64) (zero_shares 64 ++ [::]) (zero_triples (64 + 1217) ++ [::]) i) (example_keys i) [:: example_block 5])
    (fun=> [:: BinNat.N.of_nat 5]).
Proof.
exact (@bitdec_decryption_correct R64 R128 x64 x128 b64 m64 ec64 w64 four_session 1 ready64 k64E (fun c => c) _ _ blocks example_keys
  key64 (switch_polys key_polys) 4 2 (switch_shared key_polys_shared) example_keys64 isT isT si64
  (fun=> {| base_triples := [::]; base_randoms := [::] |}) (nseq 64 0) (zero_shares 64) [::]
  (zero_triples (64 + 1217)) [::] [:: example_block 5] [:: (5, delta_half 64 4)]
  isT (example_encrypts64 (m := 5) isT) (zero_shares_shared 64) (size_nseq _ _) (zero_triples_good _) (size_nseq _ _)).
Defined.

Lemma bitdec_partial_decryption_correct_witness :
  exists2 zs, shared (R := R64) 1 [:: 5%:R] zs &
    joint four_session (fun i => partial_decrypt_using_bitdec (fun c => c) 1 i
        (base_store (R := R64) (zero_shares 64 ++ [::]) (zero_triples (64 + 1217) ++ [::]) i) (example_keys i) [:: example_block 5])
      (fun i => [seq p.[point i] | p : {poly R64} <- zs]).
Proof.
exact (@bitdec_partial_decryption_correct R64 R128 x64 x128 b64 m64 ec64 w64 four_session 1 ready64 k64E (fun c => c) example_keys
  key64 (switch_polys key_polys) 4 2 (switch_shared key_polys_shared) example_keys64 isT isT si64
  (fun=> {| base_triples := [::]; base_randoms := [::] |}) (nseq 64 0) (zero_shares 64) [::]
  (zero_triples (64 + 1217)) [::] [:: example_block 5] [:: (5, delta_half 64 4)]
  isT (example_encrypts64 (m := 5) isT) (zero_shares_shared 64) (size_nseq _ _) (zero_triples_good _) (size_nseq _ _)).
Defined.

Lemma no_offset (R : comNzRingType) (a : nat) : a%:R = (a + 0)%:R - 0%:R :> R.
Proof. by rewrite addn0 subr0. Qed.

Lemma masks_fit : (2 ^ bound_d.+1 < delta_half 128 4)%N.
Proof. by rewrite ltn_exp2l. Qed.

Lemma example_encrypts128 m : (m < 2 ^ 4)%N ->
  List.Forall2 (encrypts128 [:: 1 : R128] 4 (2 ^ bound_d.+1)) [:: example_lwe 128 m] [:: (m, (0, 0))%N].
Proof.
move=> lt_m; apply: List.Forall2_cons (List.Forall2_nil _); split; [by [] | exact: lt_m | exact: masks_fit | exact: ltnW masks_fit |].
exact (etrans (example_phase _ 128 m) (no_offset _ _)).
Qed.

Lemma example_keys128 i : i \in three_parties ->
  [/\ glwe_secret_key_share_sns_as_lwe (example_keys i) = Some (shs i key_polys),
      total_block_bits (example_keys i) = 4 & message_modulus_log (example_keys i) = 2].
Proof. by []. Qed.

Lemma noiseflood_decryption_correct_witness :
  joint four_session (fun i => decrypt_using_noiseflooding blocks 1
      (base_store (R := R128) (zero_shares 224 ++ [::]) (zero_triples 224 ++ [::]) i) (example_keys i) [:: example_lwe 128 5] 1 SnsKey)
    (fun=> [:: BinNat.N.of_nat 5]).
Proof.
refine (@noiseflood_decryption_correct R64 R128 x128 b128 ec128 w128 four_session 1 ready128 k128E _ _ blocks SnsKey 1 example_keys
  [:: 1] key_polys 4 2 key_polys_shared example_keys128 isT si128
  (fun=> {| base_triples := [::]; base_randoms := [::] |}) (nseq 224 0) (zero_shares 224) [::]
  (zero_triples 224) [::] [:: example_lwe 128 5] [:: (5, (0, 0))%N]
  (example_encrypts128 (m := 5) isT) (zero_shares_shared 224) (size_nseq _ _) (zero_triples_good _) _).
by rewrite !size_nseq.
Defined.
