(* ===== verification/Prf.v ===== *)
(** * The pseudorandom functions (core/threshold-execution/src/small_execution/prf.rs)

    Each set of parties shares a key; three ciphers are derived from it for a session, and
    their values at counters are the pseudorandom values of the shared randomness.  A
    block is a list of bytes.  The block cipher AES-128 is a parameter: a function of a
    key and a block. *)

From Stdlib Require Import ZArith List Lia String Bool.
From S2P Require Import Prelude Constants.
Import ListNotations.
Local Open Scope Z_scope.

(** ** Bytes *)

(** [u128::to_le_bytes] and [u128::from_le_bytes]. *)
Fixpoint le_bytes (w : nat) (n : Z) : list Z :=
  match w with
  | O => []
  | S w' => n mod 256 :: le_bytes w' (n / 256)
  end.

Definition u128_to_le_bytes (n : Z) : list Z := le_bytes 16 n.

Fixpoint u128_from_le_bytes (l : list Z) : Z :=
  match l with
  | [] => 0
  | b :: l' => b + 256 * u128_from_le_bytes l'
  end.

(** [arr[i] = b]. *)
Fixpoint set_byte (i : nat) (b : Z) (l : list Z) : list Z :=
  match l, i with
  | [], _ => []
  | _ :: l', O => b :: l'
  | a :: l', S i' => a :: set_byte i' b l'
  end.

(** [x as u8]. *)
Definition as_u8 (x : Z) : Z := x mod 256.

Definition KEY_BYTE_LEN : nat := 16.
Definition AES_BATCH : nat := 8.

Definition xor_u8_arr_in_place (arr1 arr2 : list Z) : list Z :=
  map (fun ab => Z.lxor (fst ab) (snd ab)) (combine arr1 arr2).

(** [arr[0] ^= c]. *)
Definition xor_byte0 (c : Z) (l : list Z) : list Z :=
  match l with [] => [] | b :: l' => Z.lxor b c :: l' end.

(** ** The ciphers of a session *)

Definition PrfKey := list Z.

(** [PhiAes], [ChiAes] and [PsiAes] hold a cipher, that is, its key. *)
Record PhiAes := mkPhiAes { phi_key : list Z }.
Record ChiAes := mkChiAes { chi_key : list Z }.
Record PsiAes := mkPsiAes { psi_key : list Z }.

Definition phi_aes_new (key : PrfKey) (sid : Z) : PhiAes :=
  mkPhiAes (xor_u8_arr_in_place (xor_byte0 PHI_XOR_CONSTANT key) (u128_to_le_bytes sid)).

Definition chi_aes_new (key : PrfKey) (sid : Z) : ChiAes :=
  mkChiAes (xor_u8_arr_in_place (xor_byte0 CHI_XOR_CONSTANT key) (u128_to_le_bytes sid)).

Definition psi_aes_new (key : PrfKey) (sid : Z) : PsiAes :=
  mkPsiAes (xor_u8_arr_in_place key (u128_to_le_bytes sid)).

Section Prf.
(** [Aes128::new(key).encrypt_block(block)]. *)
Variable aes128 : list Z -> list Z -> list Z.

(** [saturating_add] of 128-bit integers. *)
Definition saturating_add (a b : Z) : Z := Z.min (a + b) (2 ^ 128 - 1).

(** The number of blocks of a value, [ceil(log2(bd1 + 1) / 128)], which is computed in
    floating point. *)
Definition phi_num_blocks (bd1 : Z) : Z := (Z.log2_up (bd1 + 1) + 127) / 128.

Definition phi_block (ctr : Z) : list Z := set_byte 15 0 (u128_to_le_bytes ctr).

Definition phi_range (pa : PhiAes) (start : Z) (count : nat) (bd1 : Z) : Res string (list Z) :=
  if (count =? 0)%nat then Ok []
  else if 2 ^ 126 <? bd1 then Err "Bd1 must be at most 2^126 to not overflow, but is larger"%string
  else
    let max_ctr := saturating_add start (Z.of_nat count - 1) in
    if 2 ^ 120 <=? max_ctr then Err "ctr in phi must be smaller than 2^120"%string
    else if negb (phi_num_blocks bd1 =? 1) then Panic
    else
      let blocks := map (fun k => phi_block (start + Z.of_nat k)) (seq 0 count) in
      let modulus := 2 * bd1 in
      let neg_bd1 := - bd1 in
      Ok (map (fun block => neg_bd1 + u128_from_le_bytes (aes128 (phi_key pa) block) mod modulus) blocks).

(** [encrypt_indexed_prf_blocks], for the extension degree and the number of blocks of
    the base ring, before the conversion of the chunks. *)
Fixpoint encrypt_batches (key base : list Z) (num_u128_base_ring n_blocks : nat)
    (encode_block_indices : list Z -> Z -> Z -> list Z) (fuel start : nat) (chunks : list Z) : list Z :=
  match fuel with
  | O => chunks
  | S fuel' =>
      if (start <? n_blocks)%nat then
        let chunk := Nat.min (n_blocks - start) AES_BATCH in
        let buf := map (fun slot =>
          let idx := (start + slot)%nat in
          encode_block_indices base (Z.of_nat (idx / num_u128_base_ring)) (Z.of_nat (idx mod num_u128_base_ring)))
          (seq 0 chunk) in
        encrypt_batches key base num_u128_base_ring n_blocks encode_block_indices fuel' (start + chunk)
          (chunks ++ map (fun block => u128_from_le_bytes (aes128 key block)) buf)
      else chunks
  end.

Definition encrypt_indexed_prf_blocks (key : list Z) (ctr : Z) (extension_degree num_u128_base_ring : nat)
    (encode_block_indices : list Z -> Z -> Z -> list Z) : list Z :=
  let n_blocks := (extension_degree * num_u128_base_ring)%nat in
  encrypt_batches key (u128_to_le_bytes ctr) num_u128_base_ring n_blocks encode_block_indices n_blocks 0 [].

Definition psi_encode (block : list Z) (i v : Z) : list Z := set_byte 14 (as_u8 i) (set_byte 15 (as_u8 v) block).

Definition chi_encode (j : Z) (block : list Z) (i v : Z) : list Z :=
  set_byte 13 j (set_byte 14 (as_u8 i) (set_byte 15 (as_u8 v) block)).

Definition psi_chunks (extension_degree num_u128_base_ring : nat) (pa : PsiAes) (ctr : Z) : Res string (list Z) :=
  if 2 ^ 112 <=? ctr then Err "ctr in psi must be smaller than 2^112"%string
  else Ok (encrypt_indexed_prf_blocks (psi_key pa) ctr extension_degree num_u128_base_ring psi_encode).

Definition chi_chunks (extension_degree num_u128_base_ring : nat) (pa : ChiAes) (ctr j : Z) : Res string (list Z) :=
  if 2 ^ 104 <=? ctr then Err "ctr in chi must be smaller than 2^104"%string
  else Ok (encrypt_indexed_prf_blocks (chi_key pa) ctr extension_degree num_u128_base_ring (chi_encode j)).
End Prf.

(** ** Bytes and numbers *)

Lemma le_bytes_length w n : List.length (le_bytes w n) = w.
Proof. revert n; induction w; intros n; simpl; auto. Qed.

Lemma from_le_bytes_of w n : 0 <= n < 256 ^ Z.of_nat w -> u128_from_le_bytes (le_bytes w n) = n.
Proof.
  revert n; induction w as [|w IH]; intros n Hn; [simpl in *; lia|].
  rewrite Nat2Z.inj_succ, Z.pow_succ_r in Hn by lia. cbn [le_bytes u128_from_le_bytes].
  rewrite IH; [pose proof (Z.div_mod n 256 ltac:(lia)); lia|].
  split; [apply Z.div_pos; lia | apply Z.div_lt_upper_bound; lia].
Qed.

Lemma le_bytes_inj w m n : 0 <= m < 256 ^ Z.of_nat w -> 0 <= n < 256 ^ Z.of_nat w ->
  le_bytes w m = le_bytes w n -> m = n.
Proof. intros Hm Hn Heq. rewrite <- (from_le_bytes_of w m), <- (from_le_bytes_of w n) by assumption. now rewrite Heq. Qed.

(** Writing a byte that is zero adds it at its place. *)
Lemma set_byte_add i b w n : (i < w)%nat -> 0 <= b < 256 -> 0 <= n -> (n / 256 ^ Z.of_nat i) mod 256 = 0 ->
  set_byte i b (le_bytes w n) = le_bytes w (n + b * 256 ^ Z.of_nat i).
Proof.
  revert w n; induction i as [|i IH]; intros [|w] n Hi Hb Hn H0; try lia; cbn [le_bytes set_byte].
  - rewrite Z.pow_0_r, Z.div_1_r, Z.mul_1_r in *. f_equal; [|f_equal].
    + rewrite Z.add_mod, H0, Z.add_0_l, Z.mod_mod, Z.mod_small by lia. reflexivity.
    + pose proof (Z.div_mod n 256 ltac:(lia)). apply (Z.div_unique_pos _ _ _ b); lia.
  - rewrite Nat2Z.inj_succ, Z.pow_succ_r in * by lia.
    replace (n + b * (256 * 256 ^ Z.of_nat i)) with (n + b * 256 ^ Z.of_nat i * 256) by ring.
    rewrite Z.mod_add, Z.div_add by lia. f_equal. apply IH; [lia | lia | apply Z.div_pos; lia |].
    now rewrite Z.div_div by lia.
Qed.

(** The positions of the indices in a block. *)
Lemma set_high_bytes n b13 b14 b15 : 0 <= n < 2 ^ 104 -> 0 <= b13 < 256 -> 0 <= b14 < 256 -> 0 <= b15 < 256 ->
  set_byte 13 b13 (set_byte 14 b14 (set_byte 15 b15 (u128_to_le_bytes n))) =
  u128_to_le_bytes (n + b13 * 2 ^ 104 + b14 * 2 ^ 112 + b15 * 2 ^ 120).
Proof.
  intros Hn H13 H14 H15. unfold u128_to_le_bytes.
  change (2 ^ 104) with (256 ^ Z.of_nat 13) in *. change (2 ^ 112) with (256 ^ Z.of_nat 14). change (2 ^ 120) with (256 ^ Z.of_nat 15).
  rewrite (set_byte_add 15), (set_byte_add 14), (set_byte_add 13); try lia.
  - f_equal. lia.
  - cbn in *. Z.to_euclidean_division_equations. lia.
  - cbn in *. Z.to_euclidean_division_equations. lia.
  - cbn in *. Z.to_euclidean_division_equations. lia.
Qed.

Lemma psi_blockE ctr i v : 0 <= ctr < 2 ^ 112 -> 0 <= i < 256 -> 0 <= v < 256 ->
  psi_encode (u128_to_le_bytes ctr) i v = u128_to_le_bytes (ctr + i * 2 ^ 112 + v * 2 ^ 120).
Proof.
  intros Hn Hi Hv. unfold psi_encode, u128_to_le_bytes, as_u8. rewrite !(Z.mod_small _ 256) by lia.
  change (2 ^ 112) with (256 ^ Z.of_nat 14) in *. change (2 ^ 120) with (256 ^ Z.of_nat 15).
  rewrite (set_byte_add 15), (set_byte_add 14); try lia.
  - f_equal. lia.
  - cbn in *. Z.to_euclidean_division_equations. lia.
  - cbn in *. Z.to_euclidean_division_equations. lia.
Qed.

Lemma chi_blockE ctr j i v : 0 <= ctr < 2 ^ 104 -> 0 <= j < 256 -> 0 <= i < 256 -> 0 <= v < 256 ->
  chi_encode j (u128_to_le_bytes ctr) i v = u128_to_le_bytes (ctr + j * 2 ^ 104 + i * 2 ^ 112 + v * 2 ^ 120).
Proof.
  intros Hn Hj Hi Hv. unfold chi_encode, as_u8. rewrite !(Z.mod_small _ 256) by lia. now apply set_high_bytes.
Qed.

Lemma phi_blockE ctr : 0 <= ctr < 2 ^ 120 -> phi_block ctr = u128_to_le_bytes ctr.
Proof.
  intros Hn. unfold phi_block, u128_to_le_bytes. change (2 ^ 120) with (256 ^ Z.of_nat 15) in *.
  rewrite (set_byte_add 15); try lia; [f_equal; lia|]. cbn in *. Z.to_euclidean_division_equations. lia.
Qed.

(** ** The values *)

Section PrfProps.
Variable aes128 : list Z -> list Z -> list Z.

(** The encryption of a block, as a number. *)
Definition encrypted (key block : list Z) : Z := u128_from_le_bytes (aes128 key block).

Lemma seq_shifted s c : seq s c = map (fun k => (s + k)%nat) (seq 0 c).
Proof.
  revert s; induction c as [|c IH]; intros s; [reflexivity|]. cbn [seq map]. f_equal; [lia|].
  rewrite (IH (S s)), (IH 1%nat), map_map. apply map_ext. intros k. lia.
Qed.

(** The batches encrypt the blocks of all the indices, in order. *)
Lemma encrypt_batchesE key base m n enc fuel start chunks : (n - start <= fuel)%nat -> (start <= n)%nat ->
  encrypt_batches aes128 key base m n enc fuel start chunks =
  chunks ++ map (fun idx => encrypted key (enc base (Z.of_nat (idx / m)) (Z.of_nat (idx mod m)))) (seq start (n - start)).
Proof.
  revert start chunks; induction fuel as [|fuel IH]; intros start chunks Hf Hs; cbn [encrypt_batches].
  - replace (n - start)%nat with 0%nat by lia. now rewrite app_nil_r.
  - destruct (Nat.ltb_spec start n) as [Hlt|Hge].
    2: { replace (n - start)%nat with 0%nat by lia. now rewrite app_nil_r. }
    set (c := Nat.min (n - start) AES_BATCH). assert (0 < c <= n - start)%nat by (unfold c, AES_BATCH; lia).
    rewrite IH by lia. rewrite <- app_assoc. f_equal.
    replace (seq start (n - start)) with (seq start c ++ seq (start + c) (n - (start + c)))
      by (rewrite <- seq_app; f_equal; lia).
    rewrite map_app, map_map, (seq_shifted start c), map_map. reflexivity.
Qed.

Lemma encrypt_indexed_prf_blocksE key ctr degree m enc :
  encrypt_indexed_prf_blocks aes128 key ctr degree m enc =
  map (fun idx => encrypted key (enc (u128_to_le_bytes ctr) (Z.of_nat (idx / m)) (Z.of_nat (idx mod m)))) (seq 0 (degree * m)).
Proof. unfold encrypt_indexed_prf_blocks. rewrite encrypt_batchesE by lia. now rewrite Nat.sub_0_r. Qed.

(** A mask value. *)
Definition phi_value (pa : PhiAes) (bd1 ctr : Z) : Z := - bd1 + encrypted (phi_key pa) (phi_block ctr) mod (2 * bd1).

Lemma phi_num_blocks_one bd1 : 1 <= bd1 <= 2 ^ 126 -> phi_num_blocks bd1 = 1.
Proof.
  intros Hb. unfold phi_num_blocks. assert (1 <= Z.log2_up (bd1 + 1) <= 127) as Hl.
  { split.
    - apply (Z.log2_up_le_mono 2 (bd1 + 1)). lia.
    - transitivity (Z.log2_up (2 ^ 127)); [apply Z.log2_up_le_mono; lia | rewrite Z.log2_up_pow2 by lia; lia]. }
  Z.to_euclidean_division_equations. lia.
Qed.

Lemma phi_range_ok pa start count bd1 : 1 <= bd1 <= 2 ^ 126 -> 0 <= start -> start + Z.of_nat count <= 2 ^ 120 ->
  phi_range aes128 pa start count bd1 = Ok (map (fun k => phi_value pa bd1 (start + Z.of_nat k)) (seq 0 count)).
Proof.
  intros Hb Hs Hc. unfold phi_range. destruct (Nat.eqb_spec count 0) as [->|Hne]; [reflexivity|].
  rewrite (proj2 (Z.ltb_ge _ _)) by lia. rewrite (proj2 (Z.leb_gt _ _)) by (unfold saturating_add; lia).
  rewrite phi_num_blocks_one by assumption. cbn [negb Z.eqb Pos.eqb]. now rewrite map_map.
Qed.
End PrfProps.

(** The guards on the counters. *)
Lemma phi_accepts (aes128 : list Z -> list Z -> list Z) pa ctr bd1 : 0 <= ctr -> 1 <= bd1 <= 2 ^ 126 ->
  (exists r, phi_range aes128 pa ctr 1 bd1 = Ok r) <-> ctr < 2 ^ 120.
Proof.
  intros Hc Hb. split.
  - intros [r Hr]. unfold phi_range in Hr. cbn [Nat.eqb] in Hr.
    rewrite (proj2 (Z.ltb_ge _ _)) in Hr by lia. destruct (Z.leb_spec (2 ^ 120) (saturating_add ctr (Z.of_nat 1 - 1))) as [|Hlt]; [easy|].
    unfold saturating_add in Hlt. lia.
  - intros Hlt. rewrite phi_range_ok by lia. eauto.
Qed.

Lemma psi_accepts (aes128 : list Z -> list Z -> list Z) degree m pa ctr :
  (exists r, psi_chunks aes128 degree m pa ctr = Ok r) <-> ctr < 2 ^ 112.
Proof. unfold psi_chunks. destruct (Z.leb_spec (2 ^ 112) ctr); split; [now intros [r Hr] | lia | easy | eauto]. Qed.

Lemma chi_accepts (aes128 : list Z -> list Z -> list Z) degree m pa ctr j :
  (exists r, chi_chunks aes128 degree m pa ctr j = Ok r) <-> ctr < 2 ^ 104.
Proof. unfold chi_chunks. destruct (Z.leb_spec (2 ^ 104) ctr); split; [now intros [r Hr] | lia | easy | eauto]. Qed.

(** ** Separation of the uses *)

(** The uses of a set key in a session. *)
Inductive PrfUse : Type :=
| UsePhi (ctr : Z)
| UsePsi (ctr i v : Z)
| UseChi (ctr j i v : Z).

(** What the functions accept ([phi_accepts], [psi_accepts], [chi_accepts]); the indices are bytes. *)
Definition valid_use (u : PrfUse) : Prop :=
  match u with
  | UsePhi ctr => 0 <= ctr < 2 ^ 120
  | UsePsi ctr i v => 0 <= ctr < 2 ^ 112 /\ 0 <= i < 256 /\ 0 <= v < 256
  | UseChi ctr j i v => 0 <= ctr < 2 ^ 104 /\ 0 <= j < 256 /\ 0 <= i < 256 /\ 0 <= v < 256
  end.

(** The key and the block that the use hands to the block cipher. *)
Definition cipher_input (key : PrfKey) (sid : Z) (u : PrfUse) : list Z * list Z :=
  match u with
  | UsePhi ctr => (phi_key (phi_aes_new key sid), phi_block ctr)
  | UsePsi ctr i v => (psi_key (psi_aes_new key sid), psi_encode (u128_to_le_bytes ctr) i v)
  | UseChi ctr j i v => (chi_key (chi_aes_new key sid), chi_encode j (u128_to_le_bytes ctr) i v)
  end.

Lemma lxor_cancel_r a b c : Z.lxor a c = Z.lxor b c -> a = b.
Proof. intros Heq. rewrite <- (Z.lxor_0_r a), <- (Z.lxor_0_r b), <- (Z.lxor_nilpotent c), <- !Z.lxor_assoc. now rewrite Heq. Qed.

Lemma lxor_cancel_l a b c : Z.lxor c a = Z.lxor c b -> a = b.
Proof. rewrite !(Z.lxor_comm c). apply lxor_cancel_r. Qed.

(** The keys of the three ciphers of a session differ in their first byte. *)
Lemma session_keys_differ key sid : key <> [] ->
  phi_key (phi_aes_new key sid) <> psi_key (psi_aes_new key sid) /\
  chi_key (chi_aes_new key sid) <> psi_key (psi_aes_new key sid) /\
  phi_key (phi_aes_new key sid) <> chi_key (chi_aes_new key sid).
Proof.
  intros Hk. destruct key as [|k0 key]; [easy|].
  unfold phi_aes_new, chi_aes_new, psi_aes_new, xor_u8_arr_in_place, u128_to_le_bytes. simpl.
  assert (Hx : forall a b r r' : Z, a <> b -> r = r' -> Z.lxor (Z.lxor k0 a) r <> Z.lxor (Z.lxor k0 b) r').
  { intros a b r r' Hab -> Heq. apply Hab. now apply lxor_cancel_r, lxor_cancel_l in Heq. }
  rewrite <- (Z.lxor_0_r k0) at 2 4. unfold PHI_XOR_CONSTANT, CHI_XOR_CONSTANT.
  repeat split; intros Heq; injection Heq as Heq; revert Heq; apply Hx; lia || reflexivity.
Qed.

Lemma blocks_inj m n : 0 <= m < 2 ^ 128 -> 0 <= n < 2 ^ 128 -> u128_to_le_bytes m = u128_to_le_bytes n -> m = n.
Proof. intros Hm Hn. now apply le_bytes_inj. Qed.

(** C21. Within a session no two uses of a set key ask the block cipher for the same block
    under the same key: masks, random values and zero shares, all counters below their
    limits, all dimensions, blocks and threshold indices, are separated. *)
Theorem prf_uses_separated key sid u u' : key <> [] -> valid_use u -> valid_use u' ->
  cipher_input key sid u = cipher_input key sid u' -> u = u'.
Proof.
  intros Hk Hu Hu' Heq. destruct (session_keys_differ key sid Hk) as (H1 & H2 & H3).
  destruct u, u'; cbn [cipher_input valid_use] in *; apply pair_equal_spec in Heq as [Hkey Hb];
    try congruence; try (now destruct H1); try (now destruct H2); try (now destruct H3).
  - rewrite !phi_blockE in Hb by lia. apply blocks_inj in Hb; [congruence | lia | lia].
  - rewrite !psi_blockE in Hb by lia. apply blocks_inj in Hb; [|lia|lia].
    assert (v = v0) by lia. assert (i = i0) by lia. f_equal; lia.
  - rewrite !chi_blockE in Hb by lia. apply blocks_inj in Hb; [|lia|lia].
    assert (v = v0) by lia. assert (i = i0) by lia. assert (j = j0) by lia. f_equal; lia.
Qed.

(** ** Sessions *)

Lemma lxor_low c n : 0 <= c < 256 -> 0 <= n -> (Z.lxor n c) mod 256 = Z.lxor (n mod 256) c /\ (Z.lxor n c) / 256 = n / 256.
Proof.
  intros Hc Hn. change 256 with (2 ^ 8) in *. split.
  - rewrite <- !Z.land_ones by lia. apply Z.bits_inj'. intros i Hi.
    rewrite Z.land_spec, !Z.lxor_spec, Z.land_spec, Z.testbit_ones_nonneg by lia.
    destruct (Z.ltb_spec i 8) as [Hlt|Hge]; [now rewrite !andb_true_r|]. rewrite !andb_false_r.
    rewrite (Z.bits_above_log2 c); [reflexivity | lia |].
    destruct (Z.eq_dec c 0) as [->|]; [simpl; lia|]. apply Z.lt_le_trans with 8; [apply Z.log2_lt_pow2; lia | lia].
  - rewrite <- !Z.shiftr_div_pow2, Z.shiftr_lxor by lia.
    rewrite (Z.shiftr_div_pow2 c), (Z.div_small c) by lia. apply Z.lxor_0_r.
Qed.

(** C22. The separation does not extend over sessions: the constants that separate the ciphers
    are added to the same byte of the key as the session identifier, so the mask cipher of one
    session is the cipher for random values of the session whose identifier differs in one bit,
    and a mask of the one is computed from the first block of a random value of the other. *)
Theorem prf_sessions_collide (aes128 : list Z -> list Z -> list Z) key sid ctr degree m :
  List.length key = KEY_BYTE_LEN -> 0 <= sid < 2 ^ 128 -> 0 <= ctr < 2 ^ 112 -> (0 < degree)%nat -> (0 < m)%nat ->
  phi_key (phi_aes_new key (Z.lxor sid 2)) = psi_key (psi_aes_new key sid) /\
  exists x rest, psi_chunks aes128 degree m (psi_aes_new key sid) ctr = Ok (x :: rest) /\
    forall bd1, phi_value aes128 (phi_aes_new key (Z.lxor sid 2)) bd1 ctr = - bd1 + x mod (2 * bd1).
Proof.
  intros Hlen Hsid Hctr Hd Hm.
  assert (Hkey : phi_key (phi_aes_new key (Z.lxor sid 2)) = psi_key (psi_aes_new key sid)).
  { destruct key as [|k0 key]; [reflexivity|].
    unfold phi_aes_new, psi_aes_new, xor_u8_arr_in_place, u128_to_le_bytes, PHI_XOR_CONSTANT. cbn [phi_key psi_key xor_byte0 le_bytes].
    destruct (lxor_low 2 sid) as [-> ->]; [lia | lia |]. cbn [combine map fst snd]. f_equal.
    rewrite (Z.lxor_comm (sid mod 256)), Z.lxor_assoc, <- (Z.lxor_assoc 2), Z.lxor_nilpotent. now rewrite Z.lxor_0_l. }
  split; [exact Hkey|]. unfold psi_chunks. rewrite (proj2 (Z.leb_gt _ _)) by lia. rewrite encrypt_indexed_prf_blocksE.
  destruct degree as [|degree]; [lia|]. destruct m as [|m]; [lia|]. cbn [Nat.mul Nat.add seq map].
  eexists _, _. split; [reflexivity|]. intros bd1. unfold phi_value. do 3 f_equal. rewrite Hkey. f_equal.
  rewrite Nat.Div0.div_0_l, Nat.Div0.mod_0_l, phi_blockE, psi_blockE by lia. f_equal. lia.
Qed.

(** ** Masks *)

(** Masks: for a bound between one and [2^126] and counters below [2^120] the range of
    masks is the list of the masks at its counters, so batches can be cut anywhere, and every
    mask lies in [-bd1 .. bd1); a larger bound and a larger counter are errors, and a bound of
    zero panics. *)
Theorem phi_range_correct (aes128 : list Z -> list Z -> list Z) pa start count bd1 :
  0 <= start -> 0 <= bd1 -> (0 < count)%nat ->
  (bd1 <= 2 ^ 126 -> start + Z.of_nat count <= 2 ^ 120 ->
     if bd1 =? 0 then phi_range aes128 pa start count bd1 = Panic
     else phi_range aes128 pa start count bd1 =
            Ok (map (fun k => phi_value aes128 pa bd1 (start + Z.of_nat k)) (seq 0 count)) /\
          forall ctr, - bd1 <= phi_value aes128 pa bd1 ctr < bd1) /\
  (2 ^ 126 < bd1 \/ 2 ^ 120 < start + Z.of_nat count ->
     exists msg, phi_range aes128 pa start count bd1 = Err msg).
Proof.
  intros Hs Hb Hc. split.
  - intros Hb1 Hct. destruct (Z.eqb_spec bd1 0) as [->|Hne].
    + unfold phi_range. destruct (Nat.eqb_spec count 0); [lia|].
      rewrite (proj2 (Z.leb_gt _ _)) by (unfold saturating_add; lia). reflexivity.
    + split; [apply phi_range_ok; lia|]. intros ctr. unfold phi_value.
      pose proof (Z.mod_pos_bound (encrypted aes128 (phi_key pa) (phi_block ctr)) (2 * bd1)). lia.
  - intros Hbad. unfold phi_range. destruct (Nat.eqb_spec count 0); [lia|].
    destruct (Z.ltb_spec (2 ^ 126) bd1); [eauto|].
    rewrite (proj2 (Z.leb_le _ _)) by (unfold saturating_add; lia). eauto.
Qed.

(** ** Witnesses *)

(** A cipher for examples: the block itself. *)
Definition toy_aes (key block : list Z) : list Z := map (fun ab => Z.lxor (fst ab) (snd ab)) (combine key block).

Definition example_key : PrfKey := repeat 7 16.

Lemma prf_uses_separated_witness : UsePsi 5 1 0 = UsePsi (4 + 1) 1 0.
Proof. apply (prf_uses_separated example_key 9); [discriminate | simpl; lia | simpl; lia | reflexivity]. Defined.

Lemma prf_sessions_collide_witness :
  phi_key (phi_aes_new example_key 11) = psi_key (psi_aes_new example_key 9).
Proof. apply (prf_sessions_collide toy_aes example_key 9 3 8 1); [reflexivity | lia | lia | lia | lia]. Defined.
