(* ===== verification/Prss.v ===== *)
(** * Pseudorandom secret sharing (core/threshold-execution/src/small_execution/prss.rs,
    with [normalized_parties_root] of core/threshold-algebra/src/poly.rs and
    [PRSSConversions] of core/threshold-algebra/src/lib.rs)

    Every set of all but [threshold] parties shares a key.  A party derives its share of
    a random value, of zero, or of a bounded mask without interaction: it sums, over the
    sets it is in, the pseudorandom value of the set times the polynomial of the set at
    its point, which is one at zero and vanishes at the parties outside the set. *)

From Stdlib Require Import String ZArith.
From mathcomp Require Import boot.
From mathcomp Require Import ssralg poly.
From S2P Require Import Prelude SsrLia Role Constants PolyOps Structure Matrix Prf.

Set Implicit Arguments.
Unset Strict Implicit.
Unset Printing Implicit Defensive.

Import GRing.Theory.
Local Open Scope ring_scope.

(** [PRSSConversions], with the numbers of blocks that the ring asks for; [from_u128_chunks]
    asserts the number of chunks, and [from_i128] panics for the rings that have no masks. *)
Class PRSSConversions (R : comNzRingType) := {
  EXTENSION_DEGREE : nat;
  num_u128_base_ring : nat;
  from_u128_chunks : seq Z -> Res string R;
  from_i128 : Z -> Res string R;
  mul_by_i128 : R -> Z -> Res string R;
  from_u128_chunks_Ok : forall cs, size cs = (EXTENSION_DEGREE * num_u128_base_ring)%N ->
    exists a, from_u128_chunks cs = Ok a;
  mul_by_i128E : forall a z, mul_by_i128 a z = let* b := from_i128 z in Ok (a * b)
}.

(** ** The polynomials of the sets *)

Section Points.
Context {R : comNzRingType} {X : ExceptionalSequence R}.

(** [Invert::invert]. *)
Variable invert : R -> Res string R.

(** [Poly::normalized_parties_root]: the polynomials [(x - g) / -g] for the points [g] of
    the parties, and the points. *)
Definition normalized_parties_root (num_parties : nat) : Res string (seq (seq R) * seq R) :=
  let* inv_coefs := rmap (fun idx => let* gamma := get_from_exceptional_sequence idx in
                                     invert (0 - gamma)) (iota 1 num_parties) in
  let inv_coefs := 0 :: inv_coefs in
  let* x_coords := rmap get_from_exceptional_sequence (iota 0 num_parties.+1) in
  let neg_parties := [seq poly_from_coefs [:: 0 - x_coords`_p] | p <- iota 0 num_parties.+1] in
  let x := poly_from_coefs [:: 0; 1] in
  let* res := rmap (fun p => poly_mul (poly_add x (nth [::] neg_parties p)) (poly_from_coefs [:: inv_coefs`_p]))
                (iota 1 num_parties) in
  Ok (res, x_coords).

(** The polynomial of a set. *)
Definition set_poly (all_roles : seq Role) (roots : seq (seq R)) (s : seq Role) : Res string (seq R) :=
  rfold (fun poly p => if p \notin (s : seq nat) then let* root := role_index roots p in poly_mul poly root else Ok poly)
    (poly_from_coefs [:: 1]) all_roles.

(** [party_compute_f_a_points], with its debug assertions. *)
Definition party_compute_f_a_points (all_roles : seq Role) (partysets : seq (seq Role)) : Res string (seq (seq R)) :=
  let num_parties := size all_roles in
  let* roots := normalized_parties_root num_parties in
  rmap (fun s =>
    let* poly := set_poly all_roles roots.1 s in
    if (poly_eval poly 0 == 1) && (num_parties - size s == poly_deg poly)%N then
      Ok [seq poly_eval poly (roots.2)`_p | p <- iota 1 num_parties]
    else Panic) partysets.

Definition embed_parties_and_compute_alpha_powers (num_parties threshold : nat) : Res string (seq (seq R)) :=
  let* parties := rmap get_from_exceptional_sequence (iota 1 num_parties) in
  Ok (compute_powers_list parties threshold).
End Points.

(** ** Setup and state *)

Section Prss.
Context {R : comNzRingType} {X : ExceptionalSequence R} {PC : PRSSConversions R}.
Variables (invert : R -> Res string R) (aes128 : seq Z -> seq Z -> seq Z).

(** [Itertools::combinations]. *)
Variable combinations : seq Role -> nat -> seq (seq Role).

Definition create_sets (all_roles : seq Role) (t : nat) : seq (seq Role) :=
  combinations all_roles (size all_roles - t).

Record PrssSet := mkPrssSet { set_parties : seq Role; set_key : PrfKey; f_a_points : seq R }.

Record PRSSSetup := mkPRSSSetup { sets : seq PrssSet; alpha_powers : seq (seq R) }.

Record PRSSCounters := mkPRSSCounters { mask_ctr : Z; prss_ctr : Z; przs_ctr : Z }.

Record PrfAes := mkPrfAes { phi_aes : PhiAes; psi_aes : PsiAes; chi_aes : ChiAes }.

Record PRSSState := mkPRSSState { counters : PRSSCounters; prss_setup : PRSSSetup; prfs : seq PrfAes }.

(** The sets of a party. *)
Definition party_sets (all_roles : seq Role) (t : nat) (my_role : Role) : seq (seq Role) :=
  [seq aset <- create_sets all_roles t | my_role \in (aset : seq nat)].

(** The loop of [init] that pairs the sets with the agreed keys; an index out of bounds
    panics. *)
Definition prss_set_at (psets : seq (seq Role)) (ars : seq PrfKey) (points : seq (seq R)) (idx : nat)
    : Res string PrssSet :=
  if (idx < size ars)%N && (idx < size points)%N
  then Ok (mkPrssSet (nth [::] psets idx) (nth [::] ars idx) (nth [::] points idx))
  else Panic.

(** [AbortRealPrssInit::init], with the result [ars] of [AgreeRandom]; the sorted roles of
    the session are [all_roles]. *)
Definition abort_prss_init (all_roles : seq Role) (threshold : nat) (my_role : Role)
    (ars : Res string (seq PrfKey)) : Res string PRSSSetup :=
  let num_parties := size all_roles in
  if (PRSS_SIZE_MAX < 'C(num_parties, threshold))%N then Err "PRSS set size is too large!"%string
  else
    let psets := party_sets all_roles threshold my_role in
    let* ars := ars in
    let* points := party_compute_f_a_points invert all_roles psets in
    let* powers := embed_parties_and_compute_alpha_powers num_parties threshold in
    let* party_prss_sets := rmap (prss_set_at psets ars points) (iota 0 (size psets)) in
    Ok (mkPRSSSetup party_prss_sets powers).

(** [new_prss_session_state]. *)
Definition new_prss_session_state (setup : PRSSSetup) (sid : Z) : PRSSState :=
  mkPRSSState (mkPRSSCounters 0 0 0) setup
    [seq mkPrfAes (phi_aes_new (set_key s) sid) (psi_aes_new (set_key s) sid) (chi_aes_new (set_key s) sid)
    | s <- sets setup].

(** [psi] and [chi], with the conversion to the ring. *)
Definition psi (pa : PsiAes) (ctr : Z) : Res string R :=
  let* chunks := psi_chunks aes128 EXTENSION_DEGREE num_u128_base_ring pa ctr in from_u128_chunks chunks.

Definition chi (pa : ChiAes) (ctr j : Z) : Res string R :=
  let* chunks := chi_chunks aes128 EXTENSION_DEGREE num_u128_base_ring pa ctr j in from_u128_chunks chunks.

(** ** The next values *)

(** What the loops over the sets look up for each set. *)
Definition set_data {A : Type} (state : PRSSState) (party_role : Role) (f : PrfAes -> R -> Res string A)
    : Res string (seq A) :=
  rmap (fun iset : nat * PrssSet =>
    if party_role \notin (set_parties iset.2 : seq nat) then
      Err "Called with a party role that is not in a precomputed set of parties!"%string
    else if onth (prfs state) iset.1 is Some aes_prf then
      let* f_a := role_index (f_a_points iset.2) party_role in f aes_prf f_a
    else Err "PRFs not properly initialized!"%string)
  (enumerate (sets (prss_setup state))).

Definition add_counters (c : PRSSCounters) (mask prss przs : nat) : PRSSCounters :=
  mkPRSSCounters (mask_ctr c + Z.of_nat mask)%Z (prss_ctr c + Z.of_nat prss)%Z (przs_ctr c + Z.of_nat przs)%Z.

Definition with_counters (state : PRSSState) (c : PRSSCounters) : PRSSState :=
  mkPRSSState c (prss_setup state) (prfs state).

(** [PRSS.Next]. *)
Definition prss_next_vec (state : PRSSState) (party_role : Role) (amount : nat) : Res string (seq R * PRSSState) :=
  let* res :=
    if amount == 0%N then Ok [::]
    else
      let* data := set_data state party_role (fun aes_prf f_a => Ok (aes_prf, f_a)) in
      rmap (fun idx =>
        let ctr := (prss_ctr (counters state) + Z.of_nat idx)%Z in
        rfold (fun res (d : PrfAes * R) => let* p := psi (psi_aes d.1) ctr in Ok (res + d.2 * p)) 0 data)
      (iota 0 amount) in
  Ok (res, with_counters state (add_counters (counters state) 0 amount 0)).

(** [PRZS.Next]. *)
Definition przs_next_vec (state : PRSSState) (party_role : Role) (threshold amount : nat)
    : Res string (seq R * PRSSState) :=
  let* res :=
    if amount == 0%N then Ok [::]
    else
      let* data := set_data state party_role (fun aes_prf f_a =>
        let* fa_alpha := rmap (fun j =>
          let* powers := role_index (alpha_powers (prss_setup state)) party_role in
          if onth powers j is Some alpha_j then Ok (f_a * alpha_j) else Panic) (iota 1 threshold) in
        Ok (aes_prf, fa_alpha)) in
      rmap (fun idx =>
        let ctr := (przs_ctr (counters state) + Z.of_nat idx)%Z in
        rfold (fun res (d : PrfAes * seq R) =>
          rfold (fun res (ja : nat * R) =>
            let* c := chi (chi_aes d.1) ctr (as_u8 (Z.of_nat ja.1.+1)) in Ok (res + ja.2 * c))
            res (enumerate d.2)) 0 data)
      (iota 0 amount) in
  Ok (res, with_counters state (add_counters (counters state) 0 0 amount)).

(** The part of a chunk that one set adds. *)
Definition add_mask_set (state : PRSSState) (party_role : Role) (bd1 : Z) (lo : nat)
    (out : seq R) (iset : nat * PrssSet) : Res string (seq R) :=
  if party_role \notin (set_parties iset.2 : seq nat) then
    Err "Called prss.mask_next() with a party role that is not in a precomputed set of parties!"%string
  else if onth (prfs state) iset.1 is Some aes_prf then
    let* f_a := role_index (f_a_points iset.2) party_role in
    let* phi_vals := phi_range aes128 (phi_aes aes_prf) (mask_ctr (counters state) + 2 * Z.of_nat lo)%Z (2 * size out)%N bd1 in
    rmap (fun jo : nat * R =>
      let phi := (nth 0%Z phi_vals (2 * jo.1)%N + nth 0%Z phi_vals (2 * jo.1).+1)%Z in
      let* m := mul_by_i128 f_a phi in Ok (jo.2 + m)) (enumerate out)
  else Err "PRFs not properly initialized!"%string.

(** [PRSS-Mask.Next]; [par_min_chunk] is the configured chunk length. *)
Definition mask_next_vec (par_min_chunk : nat) (state : PRSSState) (party_role : Role) (bd : Z) (amount : nat)
    : Res string (seq R * PRSSState) :=
  let bd1 := ((bd * 2 ^ Z.of_nat STATSEC) mod 2 ^ 128)%Z in
  let chunk := maxn par_min_chunk 1 in
  let* res := rmap (fun chunk_idx =>
    let lo := (chunk_idx * chunk)%N in
    let out := nseq (minn chunk (amount - lo)) (0 : R) in
    rfold (add_mask_set state party_role bd1 lo) out (enumerate (sets (prss_setup state))))
    (iota 0 (divn (amount + chunk.-1) chunk)) in
  Ok (flatten res, with_counters state (add_counters (counters state) (2 * amount) 0 0)).
End Prss.
