(* ===== verification/PrssProps.v ===== *)
(** * What pseudorandom secret sharing computes (core/threshold-execution/src/small_execution/prss.rs)

    The shares that the parties derive from common set keys lie on one polynomial: of
    degree [t] for a random value or a mask, whose secret is the sum of the values of the
    sets, and of degree [2t] with secret zero for a share of zero. *)

From Stdlib Require Import String ZArith Lia.
From mathcomp Require Import boot.
From mathcomp Require Import ssralg poly.
From S2P Require Import Prelude SsrLia Role Constants PolyOps Structure Matrix Shamir Protocol Prf Prss.

Set Implicit Arguments.
Unset Strict Implicit.
Unset Printing Implicit Defensive.

Import GRing.Theory.
Local Open Scope ring_scope.

(** What the sharing relies on of [Invert]: invertible elements are inverted. *)
Definition inverts {R : comNzRingType} (invert : R -> Res string R) : Prop :=
  forall a b, a * b = 1 -> exists2 c, invert a = Ok c & a * c = 1.

(** ** The polynomials of the sets *)

Section SetPoly.
Context {R : comNzRingType} {X : ExceptionalSequence R}.
Variables (invert : R -> Res string R) (n : nat).
Hypothesis invertE : inverts invert.
Hypothesis zero_point : get_from_exceptional_sequence 0 = Ok (0 : R).
Hypothesis embeds : forall i, (i <= n)%N -> exists x : R, get_from_exceptional_sequence i = Ok x.

Lemma pointE i : (i <= n)%N -> get_from_exceptional_sequence i = Ok (point i).
Proof. by move=> /embeds[x eq_x]; rewrite /point /embed_role_to_exceptional_sequence /one_based eq_x. Qed.

Lemma point0 : point 0 = 0 :> R.
Proof. by have := pointE (leq0n n); rewrite zero_point => -[<-]. Qed.

(** The inverse that the code computes. *)
Definition neg_inverse (i : nat) : R := if invert (0 - point i) is Ok c then c else 0.

Lemma neg_inverseE i : (0 < i <= n)%N ->
  invert (0 - point i) = Ok (neg_inverse i) /\ (0 - point i) * neg_inverse i = 1.
Proof.
case/andP=> i_gt0 le_i; rewrite /neg_inverse.
have [|b eq_b] := @exceptional_diff_unit R X 0 i 0 (point i) _ zero_point (pointE le_i); first by rewrite eq_sym -lt0n.
by have [c -> eq_c] := invertE eq_b.
Qed.

(** The factor of a party. *)
Definition root_poly (p : nat) : {poly R} := neg_inverse p *: ('X - (point p)%:P).

Lemma root_poly0 p : (0 < p <= n)%N -> (root_poly p).[0] = 1.
Proof. by move=> /neg_inverseE[_ eq_c]; rewrite hornerZ hornerXsubC mulrC. Qed.

Lemma root_poly_point p : (root_poly p).[point p] = 0.
Proof. by rewrite hornerZ hornerXsubC subrr mulr0. Qed.

Lemma Poly_const (c : R) : Poly [:: c] = c%:P.
Proof. by rewrite /= cons_poly_def mul0r add0r. Qed.

Lemma Poly_X : Poly [:: 0; 1] = 'X :> {poly R}.
Proof. by rewrite /= !cons_poly_def mul0r add0r mul1r addr0. Qed.

Lemma Poly_from_coefs (s : seq R) : Poly (poly_from_coefs s) = Poly s.
Proof. exact: Poly_compress. Qed.

Lemma neg_inverse_neq0 p : (0 < p <= n)%N -> neg_inverse p != 0.
Proof. by move=> /neg_inverseE[_ eq_c]; apply/eqP => c0; move: eq_c; rewrite c0 mulr0 => /esym/eqP; rewrite oner_eq0. Qed.

Lemma rbind_Ok (E A B : Type) (a : A) (k : A -> Res E B) : rbind (Ok a) k = k a.
Proof. by []. Qed.

Lemma normalized_parties_rootE : normalized_parties_root invert n =
  Ok ([seq (root_poly p : seq R) | p <- iota 1 n], [seq point i | i <- iota 0 n.+1]).
Proof.
rewrite /normalized_parties_root.
have -> : rmap (fun idx => let* gamma := get_from_exceptional_sequence idx in invert (0 - gamma)) (iota 1 n) =
    Ok [seq neg_inverse i | i <- iota 1 n].
  apply: rmap_Ok => i; rewrite mem_iota add1n ltnS => range_i; rewrite pointE /=; first by case/andP: range_i.
  by have [] := neg_inverseE range_i.
have -> : rmap get_from_exceptional_sequence (iota 0 n.+1) = Ok [seq point i | i <- iota 0 n.+1].
  by apply: rmap_Ok => i; rewrite mem_iota add0n ltnS => /andP[_ le_i]; apply: pointE.
rewrite !rbind_Ok; set prod := rmap _ _.
have -> : prod = Ok [seq (root_poly p : seq R) | p <- iota 1 n]; last by [].
apply: rmap_Ok => p; rewrite mem_iota add1n ltnS => range_p; have /andP[p_gt0 le_p] := range_p.
have nth_inv : (0 :: [seq neg_inverse i | i <- iota 1 n])`_p = neg_inverse p.
  by case: p p_gt0 le_p {range_p} => // p _ lt_p /=; rewrite (nth_map 0%N) ?size_iota // nth_iota.
rewrite nth_inv (nth_map 0%N) ?size_iota ?ltnS // nth_iota ?ltnS // add0n (nth_map 0%N) ?size_iota ?ltnS // nth_iota ?ltnS // add0n.
rewrite poly_mul_Ok.
  by apply/orP; right; rewrite /poly_from_coefs poly_compressE Poly_const size_polyC neg_inverse_neq0.
congr Ok; congr polyseq; rewrite Poly_from_coefs Poly_const poly_addE polyseqK !Poly_from_coefs Poly_X Poly_const.
by rewrite sub0r polyCN mulrC mul_polyC.
Qed.

(** The polynomial of a set of parties. *)
Definition f_poly (s : seq Role) : {poly R} := \prod_(p <- iota 1 n | p \notin (s : seq nat)) root_poly p.

Lemma nth_error_nth (A : Type) (a : A) (l : seq A) i : (i < size l)%N -> List.nth_error l i = Some (nth a l i).
Proof. by elim: l i => [|b l IHl] [|i] //= lt_i; rewrite IHl. Qed.

Lemma role_index_iota (E A : Type) (g : nat -> A) m i : (0 < i <= m)%N ->
  role_index (E := E) [seq g p | p <- iota 1 m] i = Ok (g i).
Proof.
case: i => // i /= lt_i; rewrite /role_index /get_from /zero_based /= Nat.sub_0_r.
by rewrite (nth_error_nth (g 0%N)) ?size_map ?size_iota //= (nth_map 0%N) ?size_iota // nth_iota.
Qed.

Lemma root_poly_neq0 p : (0 < p <= n)%N -> root_poly p != 0.
Proof. by move=> /root_poly0 r0; apply/eqP => z; move: r0; rewrite z horner0 => /eqP; rewrite eq_sym oner_eq0. Qed.

Lemma set_polyE s : set_poly (iota 1 n) [seq (root_poly p : seq R) | p <- iota 1 n] s = Ok (f_poly s : seq R).
Proof.
rewrite /set_poly /f_poly; set f := fun _ _ => _.
suff gen (l : seq nat) (g : {poly R}) : all (fun p => 0 < p <= n)%N l ->
    rfold f (polyseq g) l = Ok (polyseq (g * \prod_(p <- l | p \notin (s : seq nat)) root_poly p)).
  have -> : poly_from_coefs [:: 1] = polyseq (1 : {poly R}) by rewrite /poly_from_coefs poly_compressE Poly_const.
  by rewrite gen ?mul1r //; apply/allP => p; rewrite mem_iota add1n ltnS.
elim: l g => [|p l IHl] g /=; first by rewrite big_nil mulr1.
case/andP=> range_p all_l; rewrite {1}/f big_cons; case: ifP => _ /=; last exact: IHl.
rewrite role_index_iota //= poly_mul_Ok; first by apply/orP; right; rewrite size_poly_gt0 root_poly_neq0.
by rewrite rbind_Ok !polyseqK IHl // mulrA.
Qed.

Lemma f_poly0 s : (f_poly s).[0] = 1.
Proof.
rewrite /f_poly horner_prod big_seq_cond big1 // => p /andP[]; rewrite mem_iota add1n ltnS => range_p _.
exact: root_poly0.
Qed.

Lemma f_poly_out s i : (0 < i <= n)%N -> i \notin (s : seq nat) -> (f_poly s).[point i] = 0.
Proof.
move=> range_i out_i; rewrite /f_poly horner_prod (big_rem i) ?mem_iota ?add1n ?ltnS //=.
by rewrite out_i root_poly_point mul0r.
Qed.

(** The degree is the number of parties outside the set. *)
Lemma size_f_poly s : size (f_poly s) = (count (fun p => p \notin (s : seq nat)) (iota 1 n)).+1.
Proof.
rewrite /f_poly; have: all (fun p => 0 < p <= n)%N (iota 1 n) by apply/allP => p; rewrite mem_iota add1n ltnS.
elim: (iota 1 n) => [|p l IHl] /=; first by rewrite big_nil size_poly1.
case/andP=> range_p /IHl sz_l; rewrite big_cons; case: ifP => _ //=; rewrite add1n -sz_l /root_poly -scalerAl.
set q := \prod_(_ <- l | _) _ in sz_l *; have [_ eq_c] := neg_inverseE range_p.
have sz_m : size (('X - (point p)%:P) * q) = (size q).+1.
  by rewrite size_monicM ?monicXsubC ?size_XsubC // -size_poly_gt0 sz_l.
apply/anti_leq; rewrite -sz_m size_scale_leq /=.
rewrite -{1}[_ * q]scale1r -eq_c -scalerA; exact: size_scale_leq.
Qed.

(** A set of all but [t] parties. *)
Definition good_set (t : nat) (s : seq Role) : bool :=
  [&& uniq (s : seq nat), size s == (n - t)%N & all (fun p : nat => 0 < p <= n)%N s].

Lemma count_notin s t : good_set t s -> (t <= n)%N -> count (fun p => p \notin (s : seq nat)) (iota 1 n) = t.
Proof.
case/and3P=> uniq_s /eqP sz_s /allP in_s le_t.
have cnt_in : count (fun p => p \in (s : seq nat)) (iota 1 n) = (n - t)%N.
  rewrite -sz_s -size_filter; apply/perm_size/uniq_perm => //; first by rewrite filter_uniq ?iota_uniq.
  by move=> p; rewrite mem_filter mem_iota add1n ltnS; apply/andP/idP => [[]|p_s] //; split=> //; apply: in_s.
have := count_predC (fun p => p \in (s : seq nat)) (iota 1 n); rewrite size_iota cnt_in => eq_n.
by apply/eqP; rewrite -(eqn_add2l (n - t)) subnK //; apply/eqP.
Qed.

Lemma size_f_poly_good s t : good_set t s -> (t <= n)%N -> size (f_poly s) = t.+1.
Proof. by move=> good_s le_t; rewrite size_f_poly (count_notin good_s). Qed.

(** The points of the polynomials of the sets. *)
Definition set_points (s : seq Role) : seq R := [seq (f_poly s).[point i] | i <- iota 1 n].

Lemma party_compute_f_a_pointsE (psets : seq (seq Role)) t : (t <= n)%N -> all (good_set t) psets ->
  party_compute_f_a_points invert (iota 1 n) psets = Ok [seq set_points s | s <- psets].
Proof.
move=> le_t /allP good; rewrite /party_compute_f_a_points size_iota normalized_parties_rootE rbind_Ok.
apply: (rmap_Ok (A := seq nat)) => s /good good_s; rewrite set_polyE rbind_Ok.
rewrite poly_evalE polyseqK f_poly0 eqxx poly_degE polyseqK (size_f_poly_good good_s le_t) /=.
case/and3P: good_s => _ /eqP-> _; rewrite subKn // eqxx; congr Ok.
apply: (proj1 (eq_in_map _ _ _)) => p; rewrite mem_iota add1n ltnS => /andP[p_gt0 le_p].
rewrite poly_evalE polyseqK; congr (_.[_]); rewrite -[X in X`_p]/([seq point i | i <- iota 0 n.+1]).
by rewrite (nth_map 0%N) ?size_iota ?ltnS // nth_iota ?ltnS.
Qed.
End SetPoly.

(** ** Loops *)

Lemma rmap_map (E A B C : Type) (f : B -> Res E C) (g : A -> B) (l : seq A) :
  rmap f [seq g a | a <- l] = rmap (fun a => f (g a)) l.
Proof. by elim: l => //= a l ->. Qed.

Lemma eq_in_rmap (E B : Type) (A : eqType) (f g : A -> Res E B) (l : seq A) :
  {in l, forall a, f a = g a} -> rmap f l = rmap g l.
Proof.
elim: l => //= a l IHl fg; rewrite fg ?mem_head //; case: (g a) => //= b.
by rewrite IHl // => c c_l; apply: fg; rewrite inE c_l orbT.
Qed.

(** A loop that adds up. *)
Lemma rfold_sum (E : Type) (A : eqType) (V : zmodType) (f : V -> A -> Res E V) (F : A -> V) (l : seq A) v :
  {in l, forall a, forall v, f v a = Ok (v + F a)} -> rfold f v l = Ok (v + \sum_(a <- l) F a).
Proof.
elim: l v => [|a l IHl] v fF /=; first by rewrite big_nil addr0.
by rewrite fF ?mem_head //= IHl ?big_cons ?addrA // => b b_l; apply: fF; rewrite inE b_l orbT.
Qed.

Lemma onth_nth (A : Type) (a : A) (l : seq A) i : (i < size l)%N -> onth l i = Some (nth a l i).
Proof. by elim: l i => [|b l IHl] [|i] //= lt_i; apply: IHl. Qed.

Lemma In_map_mem (A : Type) (T : eqType) (f : A -> T) (l : seq A) a : List.In a l -> f a \in [seq f b | b <- l].
Proof. by elim: l => //= b l IHl [->|/IHl in_l]; rewrite inE ?eqxx // in_l orbT. Qed.

Lemma rfold_map (E A B S : Type) (f : S -> B -> Res E S) (g : A -> B) v (l : seq A) :
  rfold f v [seq g a | a <- l] = rfold (fun v a => f v (g a)) v l.
Proof. by elim: l v => //= a l IHl v; case: (f v (g a)) => //= v'. Qed.

Lemma list_seq_iota i m : List.seq i m = iota i m.
Proof. by elim: m i => //= m IHm i; rewrite IHm. Qed.

Lemma list_mapE (A B : Type) (f : A -> B) (l : seq A) : List.map f l = [seq f a | a <- l].
Proof. by elim: l => //= a l ->. Qed.

(** Consecutive chunks are the whole. *)
Lemma flatten_chunks (A : Type) (G : nat -> A) (chunk amount q : nat) :
  flatten [seq [seq G (k * chunk + j)%N | j <- iota 0 (minn chunk (amount - k * chunk))] | k <- iota 0 q] =
  [seq G k | k <- iota 0 (minn amount (q * chunk))].
Proof.
elim: q => [|q IHq]; first by rewrite mul0n minn0.
rewrite iota_rcons map_rcons flatten_rcons IHq add0n mulSn; case: (leqP amount (q * chunk)) => [le_a|/ltnW le_q].
  rewrite (eqP (_ : amount - q * chunk == 0)%N) ?subn_eq0 // minn0 cats0.
  by congr (map _ (iota _ _)); apply/esym/minn_idPl; rewrite (leq_trans le_a) ?leq_addl.
have -> : minn amount (chunk + q * chunk) = (q * chunk + minn chunk (amount - q * chunk))%N.
  by rewrite addn_minr subnKC // addnC minnC.
have shift m : iota (q * chunk) m = [seq (q * chunk + j)%N | j <- iota 0 m] by rewrite -iotaDl addn0.
by rewrite iotaD map_cat add0n shift -map_comp.
Qed.

(** A counter of a batch stays below the bound of the batch. *)
Lemma ctr_lt (c b : Z) (k amount : nat) : (c + Z.of_nat amount <= b)%Z -> (k < amount)%N -> (c + Z.of_nat k < b)%Z.
Proof. by move=> le_b /ltP/Nat2Z.inj_lt; lia. Qed.

(** ** Setup and state *)

Section Sharing.
Context {R : comNzRingType} {X : ExceptionalSequence R} {PC : PRSSConversions R}.
Variables (invert : R -> Res string R) (aes128 : seq Z -> seq Z -> seq Z).
Variable combinations : seq Role -> nat -> seq (seq Role).
Variables (n t : nat) (key : seq Role -> PrfKey) (sid : Z).
Hypothesis invertE : inverts invert.
Hypothesis zero_point : get_from_exceptional_sequence 0 = Ok (0 : R).
Hypothesis embeds : forall i, (i <= n)%N -> exists x : R, get_from_exceptional_sequence i = Ok x.
Hypothesis le_t : (t <= n)%N.
Hypothesis combinationsE : forall l k s, s \in combinations l k -> subseq s l && (size s == k).

Local Notation all_roles := (iota 1 n).
Local Notation all_sets := (create_sets combinations all_roles t).
Local Notation sets_of i := (party_sets combinations all_roles t i).
Local Notation f_poly := (f_poly invert n).

Lemma good_sets : all (good_set n t) all_sets.
Proof.
apply/allP => s /combinationsE/andP[sub_s /eqP sz_s]; rewrite size_iota in sz_s.
rewrite /good_set sz_s eqxx (subseq_uniq sub_s (iota_uniq 1 n)) /=; apply/allP => p /(mem_subseq sub_s).
by rewrite mem_iota add1n ltnS.
Qed.

Lemma good_party_sets i : all (good_set n t) (sets_of i).
Proof. by apply/allP => s; rewrite mem_filter => /andP[_]; apply: (allP good_sets). Qed.

(** What the initialisation of a party gives when the parties of a set agree on its key. *)
Definition party_setup (i : Role) : PRSSSetup (R := R) :=
  mkPRSSSetup [seq mkPrssSet s (key s) (set_points invert n s) | s <- sets_of i]
    (compute_powers_list [seq point j | j <- all_roles] t).

Lemma abort_prss_initE i : ('C(n, t) <= PRSS_SIZE_MAX)%N ->
  abort_prss_init invert combinations all_roles t i (Ok [seq key s | s <- sets_of i]) = Ok (party_setup i).
Proof.
move=> small; rewrite /abort_prss_init size_iota ltnNge small /=.
rewrite (party_compute_f_a_pointsE invertE zero_point embeds le_t (good_party_sets i)) rbind_Ok.
rewrite /embed_parties_and_compute_alpha_powers.
have -> : rmap get_from_exceptional_sequence all_roles = Ok [seq point j | j <- all_roles].
  by apply: rmap_Ok => j; rewrite mem_iota add1n ltnS => /andP[_ le_j]; apply: (pointE embeds).
rewrite !rbind_Ok; set res := rmap _ _.
suff -> : res = Ok [seq mkPrssSet s (key s) (set_points (X := X) invert n s) | s <- sets_of i] by [].
rewrite /res.
rewrite (@rmap_Ok _ _ _ _ (fun idx => let s := nth [::] (sets_of i) idx in mkPrssSet s (key s) (set_points (X := X) invert n s))).
  move=> idx; rewrite mem_iota0 => lt_i; rewrite /prss_set_at !size_map lt_i /=.
  by rewrite !(nth_map [::]).
congr Ok; transitivity [seq mkPrssSet s (key s) (set_points (X := X) invert n s) | s <- mkseq (nth [::] (sets_of i)) (size (sets_of i))].
  by rewrite -map_comp.
by rewrite mkseq_nth.
Qed.

Definition prf_of (s : seq Role) : PrfAes :=
  mkPrfAes (phi_aes_new (key s) sid) (psi_aes_new (key s) sid) (chi_aes_new (key s) sid).

(** The state of a party at some counters. *)
Definition party_state (i : Role) (c : PRSSCounters) : PRSSState (R := R) :=
  with_counters (new_prss_session_state (party_setup i) sid) c.

Lemma enumerate_setsE (B : Type) i c (f : nat * PrssSet (R := R) -> Res string B) (g : seq Role -> Res string B) :
  (forall idx s, s \in sets_of i -> onth (prfs (party_state i c)) idx = Some (prf_of s) ->
     f (idx, mkPrssSet s (key s) (set_points invert n s)) = g s) ->
  rmap f (enumerate (sets (prss_setup (party_state i c)))) = rmap g (sets_of i).
Proof.
move=> fg; rewrite /= enumerate_map rmap_map (enumerateE [::]) rmap_map.
transitivity (rmap g (mkseq (nth [::] (sets_of i)) (size (sets_of i)))); last by rewrite mkseq_nth.
rewrite rmap_map; apply: eq_in_rmap => idx; rewrite mem_iota0 => lt_i /=.
apply: fg; first exact: mem_nth.
by rewrite /= -map_comp (onth_nth (prf_of [::])) ?size_map // (nth_map [::]).
Qed.

Lemma set_dataE (B : Type) i c (f : PrfAes -> R -> Res string B) : (0 < i <= n)%N ->
  set_data (party_state i c) i f = rmap (fun s => f (prf_of s) (f_poly s).[point i]) (sets_of i).
Proof.
move=> range_i; apply: enumerate_setsE => idx s; rewrite mem_filter => /andP[in_s _] /= prf_s.
by rewrite in_s /= prf_s role_index_iota.
Qed.

(** ** The values of the sets *)

Definition psi_val (s : seq Role) (ctr : Z) : R := if psi aes128 (psi_aes (prf_of s)) ctr is Ok a then a else 0.

Definition chi_val (s : seq Role) (ctr : Z) (j : nat) : R :=
  if chi aes128 (chi_aes (prf_of s)) ctr (as_u8 (Z.of_nat j)) is Ok a then a else 0.

Lemma size_encrypted k c d m enc : size (encrypt_indexed_prf_blocks aes128 k c d m enc) = (d * m)%N.
Proof.
rewrite encrypt_indexed_prf_blocksE -[size _]/(List.length _) List.length_map List.length_seq.
by rewrite multE.
Qed.

Lemma psi_valE s ctr : (ctr < 2 ^ 112)%Z -> psi aes128 (psi_aes (prf_of s)) ctr = Ok (psi_val s ctr).
Proof.
move=> lt_c; rewrite /psi_val /psi /psi_chunks; have -> : (2 ^ 112 <=? ctr)%Z = false by apply/Z.leb_gt.
rewrite rbind_Ok; set cs := encrypt_indexed_prf_blocks _ _ _ _ _ _.
by have [|a ->] := @from_u128_chunks_Ok R PC cs; first exact: size_encrypted.
Qed.

Lemma chi_valE s ctr j : (ctr < 2 ^ 104)%Z ->
  chi aes128 (chi_aes (prf_of s)) ctr (as_u8 (Z.of_nat j)) = Ok (chi_val s ctr j).
Proof.
move=> lt_c; rewrite /chi_val /chi /chi_chunks; have -> : (2 ^ 104 <=? ctr)%Z = false by apply/Z.leb_gt.
rewrite rbind_Ok; set cs := encrypt_indexed_prf_blocks _ _ _ _ _ _.
by have [|a ->] := @from_u128_chunks_Ok R PC cs; first exact: size_encrypted.
Qed.

(** A sum over the sets of a party is a sum over all sets. *)
Lemma sum_party_sets i (G : seq Role -> R) : (0 < i <= n)%N ->
  \sum_(s <- sets_of i) (f_poly s).[point i] * G s = \sum_(s <- all_sets) (f_poly s).[point i] * G s.
Proof.
move=> range_i; rewrite /party_sets big_filter [in RHS](bigID (fun s : seq Role => i \in (s : seq nat))) /=.
rewrite [X in _ = _ + X]big1 ?addr0 // => s out_i; by rewrite (f_poly_out _ range_i out_i) mul0r.
Qed.

Lemma good_size s : s \in all_sets -> size (f_poly s) = t.+1.
Proof. by move=> /(allP good_sets) good_s; apply: (size_f_poly_good invertE zero_point embeds good_s le_t). Qed.

(** A combination of the polynomials of the sets. *)
Definition sets_poly (G : seq Role -> {poly R}) : {poly R} := \sum_(s <- all_sets) f_poly s * G s.

Lemma sets_poly_point i G : (0 < i <= n)%N ->
  (sets_poly G).[point i] = \sum_(s <- sets_of i) (f_poly s).[point i] * (G s).[point i].
Proof.
move=> range_i; rewrite (sum_party_sets (fun s => (G s).[point i]) range_i) /sets_poly horner_sum.
by apply: eq_bigr => s _; rewrite hornerM.
Qed.

Lemma sets_poly_secret G : secret (sets_poly G) = \sum_(s <- all_sets) (G s).[0].
Proof.
rewrite /secret /sets_poly horner_sum; apply: eq_bigr => s _.
by rewrite hornerM (f_poly0 invertE zero_point embeds) mul1r.
Qed.

Lemma sets_poly_degree (G : seq Role -> {poly R}) d : (forall s, size (G s) <= d.+1)%N -> of_degree (t + d) (sets_poly G).
Proof.
move=> sz_G; rewrite /of_degree /sets_poly big_seq; apply: (leq_trans (size_sum _ _ _)).
apply/bigmax_leqP_seq => s in_s _; apply: (leq_trans (size_polyMleq _ _)).
by rewrite (good_size in_s) addSn /= -addnS leq_add2l.
Qed.

(** ** Random values *)

Definition prss_poly (ctr : Z) : {poly R} := sets_poly (fun s => (psi_val s ctr)%:P).

Lemma prss_next_vecE i c amount : (0 < i <= n)%N -> (prss_ctr c + Z.of_nat amount <= 2 ^ 112)%Z ->
  prss_next_vec aes128 (party_state i c) i amount =
  Ok ([seq (prss_poly (prss_ctr c + Z.of_nat k)).[point i] | k <- iota 0 amount],
      party_state i (add_counters c 0 amount 0)).
Proof.
move=> range_i le_c; rewrite /prss_next_vec; case: amount le_c => [|m] le_c //.
rewrite (_ : (m.+1 == 0)%N = false) // set_dataE //.
rewrite (@rmap_Ok _ _ _ _ (fun s => (prf_of s, (f_poly s).[point i]))) // !rbind_Ok.
rewrite (@rmap_Ok _ _ _ _ (fun k => (prss_poly (prss_ctr c + Z.of_nat k)).[point i])) // => k.
rewrite mem_iota0 => lt_k; rewrite rfold_map.
rewrite (@rfold_sum _ _ _ _ (fun s => (f_poly s).[point i] * psi_val s (prss_ctr c + Z.of_nat k))) => [s _ v|].
  by rewrite /= psi_valE //; apply: ctr_lt le_c lt_k.
by rewrite add0r sets_poly_point //; congr Ok; apply: eq_bigr => s _; rewrite hornerC.
Qed.

(** ** Shares of zero *)

Definition przs_factor (ctr : Z) (s : seq Role) : {poly R} := \sum_(j <- iota 1 t) chi_val s ctr j *: 'X^j.

Definition przs_poly (ctr : Z) : {poly R} := sets_poly (przs_factor ctr).

Lemma size_przs_factor ctr s : (size (przs_factor ctr s) <= t.+1)%N.
Proof.
rewrite /przs_factor big_seq; apply: (leq_trans (size_sum _ _ _)); apply/bigmax_leqP_seq => j.
rewrite mem_iota add1n => _ /andP[_ lt_j]; apply: (leq_trans (size_scale_leq _ _)).
by rewrite size_polyXn.
Qed.

Lemma przs_factor0 ctr s : (przs_factor ctr s).[0] = 0.
Proof.
rewrite /przs_factor horner_sum big_seq big1 // => j; rewrite mem_iota => /andP[j_gt0 _].
by rewrite hornerZ hornerXn expr0n eqn0Ngt j_gt0 mulr0.
Qed.

Lemma przs_next_vecE i c amount : (0 < i <= n)%N -> (przs_ctr c + Z.of_nat amount <= 2 ^ 104)%Z ->
  przs_next_vec aes128 (party_state i c) i t amount =
  Ok ([seq (przs_poly (przs_ctr c + Z.of_nat k)).[point i] | k <- iota 0 amount],
      party_state i (add_counters c 0 0 amount)).
Proof.
move=> range_i le_c; rewrite /przs_next_vec; case: amount le_c => [|m] le_c //.
rewrite (_ : (m.+1 == 0)%N = false) // set_dataE //.
have powers s : rmap (fun j => let* powers := role_index (alpha_powers (prss_setup (party_state i c))) i in
    if onth powers j is Some alpha_j then Ok ((f_poly s).[point i] * alpha_j) else Panic) (iota 1 t) =
    Ok [seq (f_poly s).[point i] * point i ^+ j | j <- iota 1 t] :> Res string _.
  apply: rmap_Ok => j; rewrite mem_iota add1n => /andP[_ lt_j].
  rewrite /= compute_powers_listE -map_comp role_index_iota //= compute_powersE.
  by rewrite (onth_nth 0) ?size_map ?size_iota // (nth_map 0%N) ?size_iota // nth_iota.
rewrite (@rmap_Ok _ _ _ _ (fun s => (prf_of s, [seq (f_poly s).[point i] * point i ^+ j | j <- iota 1 t]))) => [s _|].
  by rewrite powers.
rewrite !rbind_Ok (@rmap_Ok _ _ _ _ (fun k => (przs_poly (przs_ctr c + Z.of_nat k)).[point i])) // => k.
rewrite mem_iota0 => lt_k; rewrite rfold_map.
rewrite (@rfold_sum _ _ _ _ (fun s => (f_poly s).[point i] * (przs_factor (przs_ctr c + Z.of_nat k) s).[point i])) => [s _ v|].
  rewrite [X in enumerate X]/= enumerate_map rfold_map (enumerateE 0%N) rfold_map size_iota.
  rewrite (@rfold_sum _ _ _ _ (fun idx => (f_poly s).[point i] * point i ^+ idx.+1 * chi_val s (przs_ctr c + Z.of_nat k) idx.+1)).
    move=> idx; rewrite mem_iota0 => lt_i u.
    rewrite -[X in let* _ := X in _]/(chi aes128 (chi_aes (prf_of s)) (przs_ctr c + Z.of_nat k) (as_u8 (Z.of_nat idx.+1))).
    by rewrite chi_valE ?rbind_Ok /= ?nth_iota ?add1n //; apply: ctr_lt le_c lt_k.
  congr (Ok (_ + _)); rewrite /przs_factor horner_sum big_distrr (iotaDl 1 0) big_map /=.
  by apply: eq_bigr => idx _; rewrite hornerZ hornerXn add1n -mulrA; congr (_ * _); rewrite mulrC.
by rewrite add0r sets_poly_point.
Qed.

Lemma prss_poly_ok ctr : of_degree t (prss_poly ctr) /\ secret (prss_poly ctr) = \sum_(s <- all_sets) psi_val s ctr.
Proof.
split; last by rewrite sets_poly_secret; apply: eq_bigr => s _; rewrite hornerC.
by rewrite -[t]addn0; apply: sets_poly_degree => s; apply: size_polyC_leq1.
Qed.

Lemma przs_poly_ok ctr : of_degree (t + t) (przs_poly ctr) /\ secret (przs_poly ctr) = 0.
Proof.
split; first by apply: sets_poly_degree => s; apply: size_przs_factor.
by rewrite sets_poly_secret big1 // => s _; apply: przs_factor0.
Qed.

(** C12. Pseudorandom secret sharing: when the parties of every set agree on its key, every
    party initialises, and the values that the parties derive at a counter, in batches of any
    sizes, are the evaluations of one polynomial: for random values of degree at most [t] with
    the sum of the values of the sets as secret, for shares of zero of degree at most [2t] with
    secret zero.  The counters advance by the sizes of the batches. *)
Theorem prss_correct : ('C(n, t) <= PRSS_SIZE_MAX)%N ->
  exists (setups : Role -> PRSSSetup (R := R)) (P Q : Z -> {poly R}),
  [/\ forall i, (0 < i <= n)%N ->
        abort_prss_init invert combinations all_roles t i (Ok [seq key s | s <- sets_of i]) = Ok (setups i),
      forall ctr, of_degree t (P ctr) /\ secret (P ctr) = \sum_(s <- all_sets) psi_val s ctr,
      forall ctr, of_degree (t + t) (Q ctr) /\ secret (Q ctr) = 0
    & forall i c amount, (0 < i <= n)%N ->
        let state := with_counters (new_prss_session_state (setups i) sid) c in
        ((prss_ctr c + Z.of_nat amount <= 2 ^ 112)%Z -> prss_next_vec aes128 state i amount =
           Ok ([seq (P (prss_ctr c + Z.of_nat k)%Z).[point i] | k <- iota 0 amount],
               with_counters state (add_counters c 0 amount 0))) /\
        ((przs_ctr c + Z.of_nat amount <= 2 ^ 104)%Z -> przs_next_vec aes128 state i t amount =
           Ok ([seq (Q (przs_ctr c + Z.of_nat k)%Z).[point i] | k <- iota 0 amount],
               with_counters state (add_counters c 0 0 amount)))].
Proof.
move=> small; exists party_setup, prss_poly, przs_poly; split=> [i _|ctr|ctr|i c amount range_i state].
- exact: abort_prss_initE.
- exact: prss_poly_ok.
- exact: przs_poly_ok.
by split=> le_c; [apply: prss_next_vecE | apply: przs_next_vecE].
Qed.

(** ** Masks *)

(** The integer that a set contributes to a mask, and its element. *)
Definition mask_val (bd1 : Z) (s : seq Role) (ctr : Z) : Z :=
  (phi_value aes128 (phi_aes (prf_of s)) bd1 ctr + phi_value aes128 (phi_aes (prf_of s)) bd1 (ctr + 1))%Z.

Definition i128_val (z : Z) : R := if from_i128 z is Ok b then b else 0.

Definition mask_poly (bd1 ctr : Z) : {poly R} := sets_poly (fun s => (i128_val (mask_val bd1 s ctr))%:P).

(** Adding to every element, set after set. *)
Lemma rfold_rows (A : eqType) (F : A -> nat -> R) m (l : seq A) (h : nat -> R) (f : seq R -> A -> Res string (seq R)) :
  {in l, forall a h, f [seq h j | j <- iota 0 m] a = Ok [seq h j + F a j | j <- iota 0 m]} ->
  rfold f [seq h j | j <- iota 0 m] l = Ok [seq h j + \sum_(a <- l) F a j | j <- iota 0 m].
Proof.
elim: l h => [|a l IHl] h fF /=.
  by congr Ok; apply: eq_map => j; rewrite big_nil addr0.
rewrite fF ?mem_head //= IHl => [b b_l h'|]; first by apply: fF; rewrite inE b_l orbT.
by congr Ok; apply: eq_map => j; rewrite big_cons addrA.
Qed.

Lemma rfold_sets_rows i c (F : seq Role -> nat -> R) m h (f : seq R -> nat * PrssSet (R := R) -> Res string (seq R)) :
  (forall h idx s, s \in sets_of i -> onth (prfs (party_state i c)) idx = Some (prf_of s) ->
     f [seq h j | j <- iota 0 m] (idx, mkPrssSet s (key s) (set_points invert n s)) =
     Ok [seq h j + F s j | j <- iota 0 m]) ->
  rfold f [seq h j | j <- iota 0 m] (enumerate (sets (prss_setup (party_state i c)))) =
  Ok [seq h j + \sum_(s <- sets_of i) F s j | j <- iota 0 m].
Proof.
move=> fF; rewrite /= enumerate_map rfold_map (enumerateE [::]) rfold_map.
rewrite (rfold_rows (F := fun idx => F (nth [::] (sets_of i) idx))) => [idx|].
  rewrite mem_iota0 => lt_i h'; apply: fF; first exact: mem_nth.
  by rewrite /= -map_comp (onth_nth (prf_of [::])) ?size_map // (nth_map [::]).
congr Ok; apply: eq_map => j; congr (_ + _).
transitivity (\sum_(s <- mkseq (nth [::] (sets_of i)) (size (sets_of i))) F s j); first by rewrite big_map.
by rewrite mkseq_nth.
Qed.

Hypothesis has_masks : forall z : Z, exists b : R, from_i128 z = Ok b.

Lemma i128_valE z : from_i128 z = Ok (i128_val z).
Proof. by rewrite /i128_val; have [b ->] := has_masks z. Qed.

Lemma nth_phi_vals pa bd1 start m k : (k < m)%N ->
  nth 0%Z (List.map (fun k => phi_value aes128 pa bd1 (start + Z.of_nat k)) (List.seq 0 m)) k =
  phi_value aes128 pa bd1 (start + Z.of_nat k).
Proof. by move=> lt_k; rewrite list_seq_iota list_mapE (nth_map 0%N) ?size_iota // nth_iota. Qed.

Lemma add_mask_setE i c bd1 lo m s (h : nat -> R) idx : (0 < i <= n)%N -> (1 <= bd1 <= 2 ^ 126)%Z ->
  (0 <= mask_ctr c)%Z -> (mask_ctr c + 2 * Z.of_nat (lo + m) <= 2 ^ 120)%Z ->
  s \in sets_of i -> onth (prfs (party_state i c)) idx = Some (prf_of s) ->
  add_mask_set aes128 (party_state i c) i bd1 lo [seq h j | j <- iota 0 m]
    (idx, mkPrssSet s (key s) (set_points invert n s)) =
  Ok [seq h j + (f_poly s).[point i] * i128_val (mask_val bd1 s (mask_ctr c + 2 * Z.of_nat (lo + j))) | j <- iota 0 m].
Proof.
move=> range_i range_b c_ge0 le_c; rewrite mem_filter => /andP[in_s _] prf_s.
rewrite /add_mask_set [set_parties _]/= [f_a_points _]/= in_s prf_s role_index_iota // [~~ true]/= rbind_Ok.
rewrite -[counters _]/c size_map size_iota phi_range_ok //; first by lia.
  by move: le_c; rewrite mulSn mul1n -!plusE; lia.
rewrite rbind_Ok enumerate_map rmap_map (enumerateE 0%N) rmap_map size_iota.
apply: rmap_Ok => j; rewrite mem_iota0 => lt_j; rewrite nth_iota // add0n.
have lt_2j : ((2 * j).+1 < 2 * m)%N by rewrite !mul2n -doubleS -[X in (X < _)%N]/(j.*2.+1) -doubleS leq_double.
rewrite [(j, h j).1]/= [(j, h j).2]/= !nth_phi_vals ?(ltnW lt_2j) // mul_by_i128E.
rewrite i128_valE !rbind_Ok; congr (Ok (_ + _ * i128_val _)); rewrite /mask_val.
by congr (phi_value _ _ _ _ + phi_value _ _ _ _)%Z; ssrlia.
Qed.

Lemma mask_next_vecE chunk i c bd amount : (0 < i <= n)%N -> (1 <= bd <= 2 ^ 86)%Z ->
  (0 <= mask_ctr c)%Z -> (mask_ctr c + 2 * Z.of_nat amount <= 2 ^ 120)%Z ->
  mask_next_vec aes128 chunk (party_state i c) i bd amount =
  Ok ([seq (mask_poly (bd * 2 ^ 40) (mask_ctr c + 2 * Z.of_nat k)).[point i] | k <- iota 0 amount],
      party_state i (add_counters c (2 * amount) 0 0)).
Proof.
move=> range_i range_b c_ge0 le_c; rewrite /mask_next_vec -[Z.of_nat STATSEC]/40%Z.
rewrite (Z.mod_small (bd * _)); first by lia.
set ch := maxn chunk 1; have ch_gt0 : (0 < ch)%N by rewrite /ch; ssrlia.
have range_b1 : (1 <= bd * 2 ^ 40 <= 2 ^ 126)%Z by lia.
rewrite (@rmap_Ok _ _ _ _ (fun q => [seq (mask_poly (bd * 2 ^ 40) (mask_ctr c + 2 * Z.of_nat (q * ch + j))).[point i]
    | j <- iota 0 (minn ch (amount - q * ch))])) => [q|].
  rewrite mem_iota0 leq_divRL // mulSn => lt_q.
  have -> m : nseq m 0 = [seq (0 : R) | _ <- iota 0 m] by elim: m 0%N => //= m IHm k; rewrite (IHm k.+1).
  rewrite (rfold_sets_rows (F := fun s j => (f_poly s).[point i] *
      i128_val (mask_val (bd * 2 ^ 40) s (mask_ctr c + 2 * Z.of_nat (q * ch + j))))) => [h idx s in_s prf_s|].
    rewrite add_mask_setE //; move: (q * ch)%N lt_q => x lt_q; clear -lt_q le_c ch_gt0; ssrlia.
  congr Ok; apply: eq_map => j; rewrite add0r sets_poly_point //.
  by apply: eq_bigr => s _; rewrite hornerC.
rewrite rbind_Ok (flatten_chunks (fun k => (mask_poly (bd * 2 ^ 40) (mask_ctr c + 2 * Z.of_nat k)).[point i])).
congr (Ok ([seq _ | k <- iota 0 _], _)); apply/minn_idPl.
have := divn_eq (amount + ch.-1) ch; have := ltn_pmod (amount + ch.-1) ch_gt0; move: (_ %% _)%N (_ %/ _ * _)%N => r x.
by clear -ch_gt0; ssrlia.
Qed.

(** C19. Masks: for a bound [bd] between one and [2^86] and a ring that has masks, the masks of
    the parties are the evaluations of one polynomial of degree at most [t], whatever the chunk
    length of the parallel computation; its secret is the sum of one integer for each set, which
    lies between [- 2 * bd * 2^40] and [2 * bd * 2^40 - 2]. *)
Theorem masks_correct : ('C(n, t) <= PRSS_SIZE_MAX)%N ->
  exists (setups : Role -> PRSSSetup (R := R)) (P : Z -> Z -> {poly R}) (m : Z -> seq Role -> Z -> Z),
  [/\ forall i, (0 < i <= n)%N ->
        abort_prss_init invert combinations all_roles t i (Ok [seq key s | s <- sets_of i]) = Ok (setups i),
      forall bd ctr, of_degree t (P bd ctr) /\ secret (P bd ctr) = \sum_(s <- all_sets) i128_val (m bd s ctr),
      forall bd s ctr, (1 <= bd)%Z -> (- (2 * bd * 2 ^ 40) <= m bd s ctr <= 2 * bd * 2 ^ 40 - 2)%Z
    & forall chunk i c bd amount, (0 < i <= n)%N -> (1 <= bd <= 2 ^ 86)%Z ->
        (0 <= mask_ctr c)%Z -> (mask_ctr c + 2 * Z.of_nat amount <= 2 ^ 120)%Z ->
        let state := with_counters (new_prss_session_state (setups i) sid) c in
        mask_next_vec aes128 chunk state i bd amount =
          Ok ([seq (P bd (mask_ctr c + 2 * Z.of_nat k)%Z).[point i] | k <- iota 0 amount],
              with_counters state (add_counters c (2 * amount) 0 0))].
Proof.
move=> small; exists party_setup, (fun bd => mask_poly (bd * 2 ^ 40)), (fun bd => mask_val (bd * 2 ^ 40)).
split=> [i _|bd ctr|bd s ctr ge1|chunk i c bd amount range_i range_b c_ge0 le_c state].
- exact: abort_prss_initE.
- split; last by rewrite sets_poly_secret; apply: eq_bigr => s _; rewrite hornerC.
  by rewrite -[t]addn0; apply: sets_poly_degree => s; apply: size_polyC_leq1.
- have bnd x : (0 <= x mod (2 * (bd * 2 ^ 40)) < 2 * (bd * 2 ^ 40))%Z by apply: Z.mod_pos_bound; lia.
  by rewrite /mask_val /phi_value; set x := encrypted _ _ _; set y := encrypted _ _ _; have := bnd x; have := bnd y; lia.
exact: mask_next_vecE.
Qed.
End Sharing.
