(* ===== verification/SmallOffline.v ===== *)
(** * The offline phase for few parties (core/threshold-execution/src/small_execution/offline.rs)

    Random values come from pseudorandom secret sharing.  For triples the parties derive
    shares of [x], [y] and [v] and a share of zero of double degree, broadcast
    [x * y + z + v], decode it to [d], and keep [d - v] as their share of the product; a
    value that cannot be decoded is checked against what every party should have sent.
    The broadcast and the checks of pseudorandom values are arguments. *)

From Stdlib Require Import String ZArith.
From mathcomp Require Import boot.
From mathcomp Require Import ssralg poly.
From S2P Require Import Prelude SsrLia Role Constants PolyOps Structure Shamir Protocol Triples Prf Prss.

Set Implicit Arguments.
Unset Strict Implicit.
Unset Printing Implicit Defensive.

Import GRing.Theory.
Local Open Scope ring_scope.

Section SmallOffline.
Context {R : comNzRingType} {X : ExceptionalSequence R} {EC : ErrorCorrect X} {PC : PRSSConversions R}.
Variable aes128 : seq Z -> seq Z -> seq Z.

(** The values of a broadcast: a vector of ring elements, or another one. *)
Inductive BroadcastD : Type :=
| RingVector (v : seq R)
| OtherBroadcast.

(** What the phase reads and changes of a session. *)
Record OfflineSession := mkOfflineSession {
  off_role : Role;
  off_num_parties : nat;
  off_threshold : nat;
  off_corrupt : seq Role;
  off_prss : PRSSState (R := R)
}.

(** [add_corrupt]: never the party itself. *)
Definition off_add_corrupt (session : OfflineSession) (role : Role) : OfflineSession :=
  if (role == off_role session :> nat) || (role \in (off_corrupt session : seq nat)) then session
  else mkOfflineSession (off_role session) (off_num_parties session) (off_threshold session)
         (role :: off_corrupt session) (off_prss session).

Definition with_prss (session : OfflineSession) (state : PRSSState) : OfflineSession :=
  mkOfflineSession (off_role session) (off_num_parties session) (off_threshold session)
    (off_corrupt session) state.

Definition next_random_batch (amount : nat) (session : OfflineSession)
    : Res string (seq (Share R) * OfflineSession) :=
  let* r := prss_next_vec aes128 (off_prss session) (off_role session) amount in
  Ok ([seq mkShare (off_role session) x | x <- r.1], with_prss session r.2).

(** What a party derives for a batch of triples: [x], [y], [v] and the values to broadcast. *)
Definition triple_shares (session : OfflineSession) (amount : nat)
    : Res string (seq R * seq R * seq R * seq R * OfflineSession) :=
  let* p := prss_next_vec aes128 (off_prss session) (off_role session) (3 * amount) in
  let* z := przs_next_vec aes128 p.2 (off_role session) (off_threshold session) amount in
  let vec_x_single := take amount p.1 in
  let vec_y_single := take amount (drop amount p.1) in
  let vec_v_single := take amount (drop (2 * amount) p.1) in
  if [|| size vec_x_single != amount, size vec_y_single != amount, size vec_v_single != amount
      | size z.1 != amount]
  then Err "BUG: Not all expected values were generated"%string
  else
    let* xy := zip_eq vec_x_single vec_y_single in
    let* xyv := zip_eq xy vec_v_single in
    let* xyvz := zip_eq xyv z.1 in
    let res := [seq q.1.1.1 * q.1.1.2 + (q.2 + q.1.2) | q <- xyvz] in
    Ok (vec_x_single, vec_y_single, vec_v_single, res, with_prss session z.2).

(** The loop of [reconstruct_d_values] that keeps the vectors of the right type and length. *)
Definition keep_vector (amount : nat) (acc : OfflineSession * seq (Role * seq R)) (d : Role * BroadcastD)
    : OfflineSession * seq (Role * seq R) :=
  if d.2 is RingVector cur_values then
    if size cur_values != amount then (off_add_corrupt acc.1 d.1, acc.2)
    else (acc.1, rcons acc.2 (d.1, cur_values))
  else (off_add_corrupt acc.1 d.1, acc.2).

(** [Result::ok], where a panic still is one. *)
Definition ok_result (A : Type) (r : Res string A) : Res string (option A) :=
  match r with
  | Ok a => Ok (Some a)
  | Err _ => Ok None
  | Panic => Panic
  | Timeout => Timeout
  end.

Definition reconstruct_d_values (session : OfflineSession) (amount : nat) (d_recons : seq (Role * BroadcastD))
    : Res string (seq (option R) * OfflineSession) :=
  let: (session, party_vectors) := foldl (keep_vector amount) (session, [::]) d_recons in
  let num_corrupt := size (off_corrupt session) in
  if (off_num_parties session < num_corrupt)%N then Panic
  else if (off_num_parties session - num_corrupt < 2 * off_threshold session + 1)%N then
    Err "BUG: Not enough honest parties to correct the errors"%string
  else
    let degree := (2 * off_threshold session)%N in
    let max_errors := divn (off_num_parties session - num_corrupt - (degree + 1)) 2 in
    let roles := [seq rv.1 | rv <- party_vectors] in
    let* hints := hints_new (sort leq (roles : seq nat)) degree in
    let* values := rmap (fun i =>
      let shares := [seq mkShare rv.1 (rv.2)`_i | rv <- party_vectors] in
      ok_result (error_reconstruct_with_hints (shamir_create shares) degree max_errors hints)) (iota 0 amount) in
    Ok (values, session).

(** The loop that stores the triples, and the indices of those that failed. *)
Fixpoint collect_triples (my_role : Role) (i : nat) (xyv : seq (R * (R * R))) (ds : seq (option R))
    : Res string (seq (Triple R) * seq nat) :=
  match xyv with
  | [::] => Ok ([::], [::])
  | (x, (y, v)) :: xyv' =>
      match ds with
      | [::] => Err "Not all expected d values exist"%string
      | d :: ds' =>
          let* rest := collect_triples my_role i.+1 xyv' ds' in
          if d is Some d' then
            Ok (Build_Triple (mkShare my_role x) (mkShare my_role y) (mkShare my_role (d' - v)) :: rest.1, rest.2)
          else Ok (rest.1, i :: rest.2)
      end
  end.

(** The values of a party by their position; [None] where there is no share. *)
Definition parse_d_share (i : nat) (d : Role * BroadcastD) : Role * option R :=
  (d.1, if d.2 is RingVector cur_values then onth cur_values i else None).

Definition parse_d_shares (amount : nat) (d_recons : seq (Role * BroadcastD)) : seq (seq (Role * option R)) :=
  [seq [seq parse_d_share i d | d <- d_recons] | i <- iota 0 amount].

(** [HashMap::get]. *)
Definition role_get (A : Type) (m : seq (Role * A)) (role : Role) : option A :=
  if [seq e <- m | e.1 == role :> nat] is e :: _ then Some e.2 else None.

(** [Option::with_context] and the question mark. *)
Definition with_context (A : Type) (o : option A) (msg : string) : Res string A := if o is Some a then Ok a else Err msg.

(** [prss_check] and [przs_check]: what every party should have derived at a counter. *)
Variable prss_check przs_check : OfflineSession -> Z -> Res string (seq (Role * R) * OfflineSession).

Definition check_share (vec_x vec_y vec_v vec_z : seq (Role * R)) (session : OfflineSession) (d : Role * option R)
    : Res string OfflineSession :=
  let* v_single := with_context (role_get vec_v d.1) "Not all expected v check values exist"%string in
  let* z_double := with_context (role_get vec_z d.1) "Not all expected z check values exist"%string in
  let v_double := v_single + z_double in
  let* x := with_context (role_get vec_x d.1) "Not all expected x check values exist"%string in
  let* y := with_context (role_get vec_y d.1) "Not all expected y check values exist"%string in
  let d_prime_double := x * y + v_double in
  if d.2 is Some d_share then
    if d_prime_double != d_share then Ok (off_add_corrupt session d.1) else Ok session
  else Ok (off_add_corrupt session d.1).

Definition check_d (session : OfflineSession) (prss_ctr przs_ctr : Z) (amount : nat)
    (shared_d_double : seq (Role * option R)) : Res string OfflineSession :=
  let* x := prss_check session prss_ctr in
  let* y := prss_check x.2 (prss_ctr + Z.of_nat amount)%Z in
  let* v := prss_check y.2 (prss_ctr + 2 * Z.of_nat amount)%Z in
  let* z := przs_check v.2 przs_ctr in
  rfold (check_share x.1 y.1 v.1 z.1) z.2 shared_d_double.

(** [broadcast_from_all_w_corrupt_set_update] of a vector. *)
Variable broadcast : OfflineSession -> seq R -> Res string (seq (Role * BroadcastD) * OfflineSession).

Definition next_triple_batch (session : OfflineSession) (amount : nat) : Res string (seq (Triple R) * OfflineSession) :=
  let base := counters (off_prss session) in
  let* s := triple_shares session amount in
  let: (xs, ys, vs, ds, session) := s in
  let* b := broadcast session ds in
  let* d := reconstruct_d_values b.2 amount b.1 in
  let* yv := zip_eq ys vs in
  let* xyv := zip_eq xs yv in
  let* t := collect_triples (off_role session) 0 xyv d.1 in
  let d_shares := parse_d_shares amount b.1 in
  let* session := rfold (fun session i =>
    if onth d_shares i is Some d_share then
      check_d session (prss_ctr base + Z.of_nat i)%Z (przs_ctr base + Z.of_nat i)%Z amount d_share
    else Err "Expected d share does not exist"%string) d.2 t.2 in
  Ok (t.1, session).
End SmallOffline.

(** [RealSmallPreprocessing::execute]: batches until there are enough triples; the
    broadcasts and checks of the rounds are given, one after the other. *)
Section Execute.
Context {R : comNzRingType} {X : ExceptionalSequence R} {EC : ErrorCorrect X} {PC : PRSSConversions R}.
Variable aes128 : seq Z -> seq Z -> seq Z.

Record Network := mkNetwork {
  net_prss_check : OfflineSession (R := R) -> Z -> Res string (seq (Role * R) * OfflineSession (R := R));
  net_przs_check : OfflineSession (R := R) -> Z -> Res string (seq (Role * R) * OfflineSession (R := R));
  net_broadcast : OfflineSession (R := R) -> seq R -> Res string (seq (Role * BroadcastD (R := R)) * OfflineSession (R := R))
}.

Fixpoint gather_triples (rounds : seq Network) (triples : nat) (stored : seq (Triple R)) (session : OfflineSession (R := R))
    : Res string (seq (Triple R) * OfflineSession (R := R)) :=
  if (size stored < triples)%N then
    if rounds is net :: rounds' then
      let* r := next_triple_batch aes128 (net_prss_check net) (net_przs_check net) (net_broadcast net)
                  session (triples - size stored) in
      gather_triples rounds' triples (stored ++ r.1) r.2
    else Timeout
  else Ok (stored, session).

Definition small_execute (rounds : seq Network) (triples randoms : nat) (session : OfflineSession (R := R))
    : Res string (seq (Triple R) * seq (Share R) * OfflineSession (R := R)) :=
  let* t := gather_triples rounds triples [::] session in
  if (0 < randoms)%N then
    let* r := next_random_batch aes128 randoms t.2 in Ok (t.1, r.1, r.2)
  else Ok (t.1, [::], t.2).
End Execute.
