(* ===== verification/SmallOfflineProps.v ===== *)
(** * What the small offline phase produces (core/threshold-execution/src/small_execution/offline.rs)

    The random shares and the triples of the parties are shares of the polynomials that
    the online protocols ask for, as long as no more broadcast values are wrong than the
    decoder corrects.  Beyond that bound a decoder may return a wrong value. *)

From Stdlib Require Import String ZArith Lia.
From mathcomp Require Import boot.
From mathcomp Require Import ssralg poly.
From S2P Require Import Prelude SsrLia Role Constants PolyOps Structure Matrix Shamir Protocol Triples Prf Prss PrssProps SmallOffline.

Set Implicit Arguments.
Unset Strict Implicit.
Unset Printing Implicit Defensive.

Import GRing.Theory.
Local Open Scope ring_scope.

(** ** Decoding the broadcast values *)

Section Reconstruct.
Context {R : comNzRingType} {X : ExceptionalSequence R} {EC : ErrorCorrect X}.
Implicit Types (session : OfflineSession (R := R)) (d : Role * BroadcastD (R := R)) (ds : seq (Role * BroadcastD (R := R))).

(** The entry has the right type and length. *)
Definition valid_entry (amount : nat) d : bool := if d.2 is RingVector v then size v == amount else false.

(** The vectors that are kept, and the parties that are not. *)
Definition kept (amount : nat) ds : seq (Role * seq R) :=
  pmap (fun d => if d.2 is RingVector v then if size v == amount then Some (d.1, v) else None else None) ds.

Definition refused (amount : nat) ds : seq nat := [seq d.1 | d <- ds & ~~ valid_entry amount d].

(** The session after the parties that are not kept were added to the corrupt set. *)
Definition after_refusal (amount : nat) session ds : OfflineSession (R := R) :=
  foldl (fun s d => if valid_entry amount d then s else off_add_corrupt s d.1) session ds.

Lemma after_refusal_cons amount session d ds : after_refusal amount session (d :: ds) =
  after_refusal amount (if valid_entry amount d then session else off_add_corrupt session d.1) ds.
Proof. by []. Qed.

Lemma keep_vectorsE amount session ds acc :
  foldl (keep_vector amount) (session, acc) ds = (after_refusal amount session ds, acc ++ kept amount ds).
Proof.
elim: ds session acc => [|[r [v|]] ds IHds] session acc /=; first by rewrite cats0.
  rewrite {2}/keep_vector /after_refusal /= /valid_entry /=; case: eqP => _ /=; rewrite IHds //.
  by rewrite cat_rcons.
by rewrite {2}/keep_vector /= IHds.
Qed.

Lemma add_corrupt_fields session r :
  [/\ off_role (off_add_corrupt session r) = off_role session,
      off_num_parties (off_add_corrupt session r) = off_num_parties session,
      off_threshold (off_add_corrupt session r) = off_threshold session
    & off_prss (off_add_corrupt session r) = off_prss session].
Proof. by rewrite /off_add_corrupt; case: ifP. Qed.

Lemma after_refusal_fields amount session ds :
  [/\ off_role (after_refusal amount session ds) = off_role session,
      off_num_parties (after_refusal amount session ds) = off_num_parties session,
      off_threshold (after_refusal amount session ds) = off_threshold session
    & off_prss (after_refusal amount session ds) = off_prss session].
Proof.
elim: ds session => [|d ds IHds] session //=; case: ifP => _ //.
by have [-> -> -> ->] := IHds (off_add_corrupt session d.1); have [-> -> -> ->] := add_corrupt_fields session d.1.
Qed.

Lemma after_refusal_corrupt amount session ds r :
  (r \in (off_corrupt (after_refusal amount session ds) : seq nat)) =
  (r \in (off_corrupt session : seq nat)) || (r != off_role session :> nat) && (r \in refused amount ds).
Proof.
elim: ds session => [|d ds IHds] session; first by rewrite /= andbF orbF.
rewrite after_refusal_cons /refused /=; case: ifP => [_|_] /=; first exact: IHds.
have [eq_r _ _ _] := add_corrupt_fields session d.1.
rewrite IHds eq_r inE /off_add_corrupt.
have [->|/eqP/negPf ne_r] := r =P d.1.
  by case: (boolP (d.1 == off_role session :> nat)) => //= _; case: ifP => [->|_] //=; rewrite inE eqxx ?orbT.
by case: ifP => _ /=; rewrite ?inE ?ne_r.
Qed.

Lemma kept_refused amount ds : (size (kept amount ds) + size (refused amount ds))%N = size ds.
Proof.
rewrite /kept /refused size_map; elim: ds => [|[r [v|]] ds IHds] //=; rewrite /valid_entry /=.
  by case: eqP => _ /=; rewrite ?addSn ?addnS IHds.
by rewrite addnS IHds.
Qed.

Lemma kept_roles amount ds : subseq [seq rv.1 : nat | rv <- kept amount ds] [seq d.1 : nat | d <- ds].
Proof.
elim: ds => [|[r [v|]] ds IHds] //=; last exact: subseq_trans IHds (subseq_cons _ _).
case: (size v == amount) => /=; first by rewrite eqxx.
exact: subseq_trans IHds (subseq_cons _ _).
Qed.

Lemma refused_roles amount ds : subseq (refused amount ds) [seq d.1 : nat | d <- ds].
Proof.
elim: ds => [|d ds IHds] //; rewrite /refused /=; case: (valid_entry amount d) => /=; last by rewrite eqxx.
exact: subseq_trans IHds (subseq_cons _ _).
Qed.

(** The shares of a value that is decoded. *)
Definition d_sharing (vectors : seq (Role * seq R)) (k : nat) : ShamirSharings R :=
  shamir_create [seq mkShare rv.1 (rv.2)`_k | rv <- vectors].

Lemma perm_create (shares : seq (Share R)) : perm_eq (shamir_create shares) shares.
Proof. by rewrite /shamir_create perm_sort. Qed.

Lemma owners_d_sharing vectors k : owners (d_sharing vectors k) = sort leq [seq rv.1 : nat | rv <- vectors].
Proof.
rewrite /owners /d_sharing /shamir_create; set l := [seq mkShare _ _ | rv <- vectors].
have -> : [seq rv.1 : nat | rv <- vectors] = [seq share_owner s | s <- l] by rewrite -map_comp.
by rewrite sort_map.
Qed.

Lemma size_d_sharing vectors k : size (d_sharing vectors k) = size vectors.
Proof. by rewrite (perm_size (perm_create _)) size_map. Qed.

Lemma wrong_d_sharing g vectors k :
  wrong_shares g (d_sharing vectors k) = wrong_shares g [seq mkShare rv.1 (rv.2)`_k | rv <- vectors].
Proof. by rewrite /wrong_shares (permP (perm_create _)). Qed.

Lemma ok_d_sharing vectors k : uniq [seq rv.1 : nat | rv <- vectors] ->
  all embeddable [seq rv.1 : nat | rv <- vectors] -> sharing_ok (d_sharing vectors k).
Proof.
move=> uniq_v emb_v; rewrite /sharing_ok owners_d_sharing sort_uniq uniq_v /=.
by rewrite (perm_all _ (permEl (perm_sort _ _))).
Qed.

(** The values decode to the secrets of polynomials on which all but [max_errors] of the
    kept shares lie. *)
Lemma reconstruct_d_valuesE session amount ds (g : nat -> {poly R}) :
  let session' := after_refusal amount session ds in
  let n := off_num_parties session in
  let t := off_threshold session in
  let max_errors := divn (n - size (off_corrupt session') - (2 * t + 1)) 2 in
  uniq [seq d.1 : nat | d <- ds] -> size ds = n -> all embeddable [seq d.1 : nat | d <- ds] ->
  off_role session \notin refused amount ds -> (size (off_corrupt session') + (2 * t + 1) <= n)%N ->
  (forall k, (k < amount)%N -> size (g k) <= (2 * t).+1 /\
     wrong_shares (g k) [seq mkShare rv.1 (rv.2)`_k | rv <- kept amount ds] <= max_errors)%N ->
  reconstruct_d_values session amount ds = Ok ([seq Some (secret (g k)) | k <- iota 0 amount], session').
Proof.
move=> session' n t max_errors uniq_d sz_d emb_d own le_c g_ok.
have [_ eq_n eq_t _] := after_refusal_fields amount session ds.
have uniq_k := subseq_uniq (kept_roles amount ds) uniq_d.
have emb_k : all embeddable [seq rv.1 : nat | rv <- kept amount ds].
  by apply/allP => r /(mem_subseq (kept_roles amount ds)) /(allP emb_d).
have le_refused : (size (refused amount ds) <= size (off_corrupt session'))%N.
  apply: uniq_leq_size; first exact: subseq_uniq (refused_roles amount ds) uniq_d.
  move=> r in_r; rewrite after_refusal_corrupt in_r andbT; apply/orP; right.
  by apply: contraNneq own => <-.
have sz_k : (n - size (off_corrupt session') <= size (kept amount ds))%N.
  by have := kept_refused amount ds; rewrite sz_d; move: le_refused; clear; ssrlia.
rewrite /reconstruct_d_values keep_vectorsE cat0s -/session' eq_n eq_t -/n -/t.
rewrite ltnNge (leq_trans (leq_addr _ _) le_c) /= ltnNge leq_subRL ?(leq_trans (leq_addr _ _) le_c) // le_c /=.
have [h eq_h] := hints_new_Ok (2 * t) (ok_d_sharing 0 uniq_k emb_k); rewrite owners_d_sharing in eq_h.
rewrite eq_h rbind_Ok (@rmap_Ok _ _ _ _ (fun k => Some (secret (g k)))) // => k; rewrite mem_iota0 => lt_k.
have [sz_g le_w] := g_ok k lt_k; have ok_s := ok_d_sharing k uniq_k emb_k.
rewrite /error_reconstruct_with_hints (error_correct_with_hintsE _ ok_s); first by rewrite owners_d_sharing.
have := @error_reconstructE R X EC (d_sharing (kept amount ds) k) (2 * t) max_errors (g k) ok_s.
rewrite /error_reconstruct wrong_d_sharing size_d_sharing => -> //.
by rewrite /max_errors; move: sz_k le_c; move: (size (off_corrupt _)) (size (kept _ _)) => a b; clear; ssrlia.
Qed.
End Reconstruct.

(** ** Triples *)

Section Triples.
Context {R : comNzRingType} {X : ExceptionalSequence R} {EC : ErrorCorrect X} {PC : PRSSConversions R}.
Variables (invert : R -> Res string R) (aes128 : seq Z -> seq Z -> seq Z).
Variable combinations : seq Role -> nat -> seq (seq Role).
Variables (n t : nat) (key : seq Role -> PrfKey) (sid : Z).
Hypothesis invertE : inverts invert.
Hypothesis zero_point : get_from_exceptional_sequence 0 = Ok (0 : R).
Hypothesis embeds : forall i, (i <= n)%N -> exists x : R, get_from_exceptional_sequence i = Ok x.
Hypothesis le_t : (t <= n)%N.
Hypothesis combinationsE : forall l k s, s \in combinations l k -> subseq s l && (size s == k).

Local Notation state i c := (party_state invert combinations n t key sid i c).
Local Notation prss_at ctr := (prss_poly invert aes128 combinations n t key sid ctr).
Local Notation przs_at ctr := (przs_poly invert aes128 combinations n t key sid ctr).

(** The session of a party at some counters, with a corrupt set. *)
Definition offline_session (i : Role) (c : PRSSCounters) (corrupt : seq Role) : OfflineSession (R := R) :=
  mkOfflineSession i n t corrupt (state i c).

(** The polynomials of a batch at counters [c]. *)
Definition x_poly (c : PRSSCounters) (amount k : nat) : {poly R} := prss_at (prss_ctr c + Z.of_nat k)%Z.
Definition y_poly (c : PRSSCounters) (amount k : nat) : {poly R} := prss_at (prss_ctr c + Z.of_nat (amount + k))%Z.
Definition v_poly (c : PRSSCounters) (amount k : nat) : {poly R} := prss_at (prss_ctr c + Z.of_nat (2 * amount + k))%Z.
Definition z_poly (c : PRSSCounters) (amount k : nat) : {poly R} := przs_at (przs_ctr c + Z.of_nat k)%Z.

Definition d_poly (c : PRSSCounters) (amount k : nat) : {poly R} :=
  x_poly c amount k * y_poly c amount k + (z_poly c amount k + v_poly c amount k).

(** The counters after a batch. *)
Definition after_batch (c : PRSSCounters) (amount : nat) : PRSSCounters :=
  add_counters (add_counters c 0 (3 * amount) 0) 0 0 amount.

Lemma next_random_batchE i c corrupt amount : (0 < i <= n)%N -> (prss_ctr c + Z.of_nat amount <= 2 ^ 112)%Z ->
  next_random_batch aes128 amount (offline_session i c corrupt) =
  Ok (shs i [seq prss_at (prss_ctr c + Z.of_nat k)%Z | k <- iota 0 amount],
      offline_session i (add_counters c 0 amount 0) corrupt).
Proof. by move=> range_i le_c; rewrite /next_random_batch prss_next_vecE //= /shs -!map_comp. Qed.

Lemma take_drop_map (A : Type) (f : nat -> A) (s a m : nat) : (s + a <= m)%N ->
  take a (drop s [seq f k | k <- iota 0 m]) = [seq f (s + k)%N | k <- iota 0 a].
Proof.
move=> le_m; rewrite -map_drop -map_take drop_iota take_iota add0n.
have -> : minn a (m - s) = a by apply/minn_idPl; ssrlia.
by rewrite -[X in iota X]addn0 iotaDl -map_comp.
Qed.

Lemma zip_eq_maps (E A B T : Type) (f : T -> A) (g : T -> B) (l : seq T) :
  zip_eq (E := E) [seq f k | k <- l] [seq g k | k <- l] = Ok [seq (f k, g k) | k <- l].
Proof. by rewrite /zip_eq !size_map eqxx; congr Ok; elim: l => //= k l ->. Qed.

Lemma triple_sharesE i c corrupt amount : (0 < i <= n)%N ->
  (prss_ctr c + Z.of_nat (3 * amount) <= 2 ^ 112)%Z -> (przs_ctr c + Z.of_nat amount <= 2 ^ 104)%Z ->
  triple_shares aes128 (offline_session i c corrupt) amount =
  Ok ([seq (x_poly c amount k).[point i] | k <- iota 0 amount], [seq (y_poly c amount k).[point i] | k <- iota 0 amount],
      [seq (v_poly c amount k).[point i] | k <- iota 0 amount], [seq (d_poly c amount k).[point i] | k <- iota 0 amount],
      offline_session i (after_batch c amount) corrupt).
Proof.
move=> range_i le_p le_z; rewrite /triple_shares prss_next_vecE // rbind_Ok przs_next_vecE //=.
  by rewrite Z.add_0_r.
rewrite -[X in take amount X]drop0 !take_drop_map; [by ssrlia | by ssrlia | by ssrlia |].
rewrite !size_map size_iota eqxx /= !(zip_eq_maps, rbind_Ok) -!map_comp Z.add_0_r.
congr (Ok (_, _, _, _, _)); apply: eq_map => k /=.
by rewrite /d_poly !hornerE.
Qed.

Lemma prss_at_ok ctr : of_degree t (prss_at ctr).
Proof. by have [] := prss_poly_ok aes128 key sid invertE zero_point embeds le_t combinationsE ctr. Qed.

Lemma przs_at_ok ctr : of_degree (t + t) (przs_at ctr) /\ secret (przs_at ctr) = 0.
Proof. exact: (przs_poly_ok aes128 key sid invertE zero_point embeds le_t combinationsE ctr). Qed.

Lemma d_poly_degree c amount k : (size (d_poly c amount k) <= (2 * t).+1)%N.
Proof.
have [sz_z _] := przs_at_ok (przs_ctr c + Z.of_nat k); have szp ctr : (size (prss_at ctr) <= t.+1)%N := prss_at_ok ctr.
rewrite mul2n -addnn /d_poly (leq_trans (size_polyD _ _)) // geq_max; apply/andP; split.
  apply: (leq_trans (size_polyMleq _ _)); have := szp (prss_ctr c + Z.of_nat k)%Z.
  by have := szp (prss_ctr c + Z.of_nat (amount + k))%Z; rewrite /x_poly /y_poly; ssrlia.
rewrite (leq_trans (size_polyD _ _)) // geq_max; apply/andP; split; first exact: sz_z.
by apply: (leq_trans (szp _)); rewrite ltnS leq_addl.
Qed.

(** The polynomials of a triple. *)
Definition batch_triple (c : PRSSCounters) (amount k : nat) : PTriple (R := R) :=
  (x_poly c amount k, y_poly c amount k, (secret (d_poly c amount k))%:P - v_poly c amount k).

Lemma batch_triple_good c amount k : good_triple t (batch_triple c amount k).
Proof.
have [_ z0] := przs_at_ok (przs_ctr c + Z.of_nat k); rewrite /good_triple /batch_triple /= !prss_at_ok /=.
apply/andP; split.
  rewrite /of_degree (leq_trans (size_polyD _ _)) // size_polyN geq_max; apply/andP.
  by split; [apply: leq_trans (size_polyC_leq1 _) _ | apply: prss_at_ok].
rewrite /secret /d_poly !(hornerD, hornerN, hornerM, hornerC).
have -> : (z_poly c amount k).[0] = 0 := z0.
by rewrite add0r addrK.
Qed.

Lemma collect_triplesE i c amount m s :
  collect_triples i s [seq ((x_poly c amount k).[point i], ((y_poly c amount k).[point i], (v_poly c amount k).[point i])) | k <- m]
    [seq Some (secret (d_poly c amount k)) | k <- m] = Ok (tshs i [seq batch_triple c amount k | k <- m], [::]).
Proof.
elim: m s => //= k m IHm s; rewrite IHm /=; congr (Ok (_ :: _, _)).
by rewrite /tsh /sh /= !hornerE.
Qed.

(** What a party is given by the broadcast: one entry for each party, its own of the right
    shape, and among the entries that are kept at most as many wrong values as the decoder
    corrects. *)
Definition received_ok (i : Role) (c : PRSSCounters) (amount : nat) (ds : seq (Role * BroadcastD (R := R)))
    (corrupt : seq Role) : Prop :=
  let after := off_corrupt (after_refusal amount (offline_session i (after_batch c amount) corrupt) ds) in
  [/\ perm_eq [seq d.1 : nat | d <- ds] (iota 1 n), i \notin refused amount ds, (size after + (2 * t + 1) <= n)%N
    & forall k, (k < amount)%N -> (wrong_shares (d_poly c amount k) [seq mkShare rv.1 (rv.2)`_k | rv <- kept amount ds]
        <= divn (n - size after - (2 * t + 1)) 2)%N].

Lemma next_triple_batchE i c corrupt amount net ds corrupt' : (0 < i <= n)%N ->
  (prss_ctr c + Z.of_nat (3 * amount) <= 2 ^ 112)%Z -> (przs_ctr c + Z.of_nat amount <= 2 ^ 104)%Z ->
  net_broadcast net (offline_session i (after_batch c amount) corrupt) [seq (d_poly c amount k).[point i] | k <- iota 0 amount] =
    Ok (ds, offline_session i (after_batch c amount) corrupt') ->
  received_ok i c amount ds corrupt' ->
  next_triple_batch aes128 (net_prss_check net) (net_przs_check net) (net_broadcast net) (offline_session i c corrupt) amount =
  Ok (tshs i [seq batch_triple c amount k | k <- iota 0 amount],
      offline_session i (after_batch c amount)
        (off_corrupt (after_refusal amount (offline_session i (after_batch c amount) corrupt') ds))).
Proof.
move=> range_i le_p le_z eq_b [perm_d own le_n wrong]; rewrite /next_triple_batch triple_sharesE // rbind_Ok eq_b rbind_Ok.
rewrite (@reconstruct_d_valuesE R X EC _ amount ds (d_poly c amount)) //=.
- by rewrite (perm_uniq perm_d) iota_uniq.
- by rewrite -(size_map (fun d => d.1 : nat)) (perm_size perm_d) size_iota.
- apply/allP => r; rewrite (perm_mem perm_d) mem_iota add1n ltnS => /andP[_ le_r].
  by rewrite /embeddable /embed_role_to_exceptional_sequence /one_based (pointE embeds).
- by move=> k lt_k; split; [apply: d_poly_degree | apply: wrong].
rewrite !(zip_eq_maps, rbind_Ok) collect_triplesE /=; congr (Ok (_, _)).
set s := after_refusal _ _ _.
have [] := after_refusal_fields amount (offline_session i (after_batch c amount) corrupt') ds.
by rewrite -/s; case: s => r m u w p /= -> -> -> ->.
Qed.

(** C10. The offline phase: when the parties of every set agree on its key and the broadcast gives
    every honest party at most as many wrong values as the decoder corrects, the phase ends at
    every honest party with shares of the same triples, whose third secret is the product of the
    first two, and of the same random values, all of degree at most [t]. *)
Theorem small_offline_correct (honest : seq Role) c triples randoms (corrupt : Role -> seq Role) (nets : Role -> Network) :
  ('C(n, t) <= PRSS_SIZE_MAX)%N -> (0 < triples)%N ->
  (prss_ctr c + Z.of_nat (3 * triples) + Z.of_nat randoms <= 2 ^ 112)%Z -> (przs_ctr c + Z.of_nat triples <= 2 ^ 104)%Z ->
  (forall i, i \in (honest : seq nat) -> (0 < i <= n)%N /\ exists ds corrupt',
     net_broadcast (nets i) (offline_session i (after_batch c triples) (corrupt i))
       [seq (d_poly c triples k).[point i] | k <- iota 0 triples] = Ok (ds, offline_session i (after_batch c triples) corrupt') /\
     received_ok i c triples ds corrupt') ->
  exists (ts : seq (PTriple (R := R))) (rs : seq {poly R}),
  [/\ size ts = triples, size rs = randoms, all (good_triple t) ts, all (of_degree t) rs
    & forall i, i \in (honest : seq nat) ->
        abort_prss_init invert combinations (iota 1 n) t i (Ok [seq key s | s <- party_sets combinations (iota 1 n) t i]) =
          Ok (party_setup invert combinations n t key i) /\
        exists session', small_execute aes128 [:: nets i] triples randoms (offline_session i c (corrupt i)) =
          Ok (tshs i ts, shs i rs, session')].
Proof.
move=> small triples_gt0 le_p le_z net_ok; pose c' := after_batch c triples.
exists [seq batch_triple c triples k | k <- iota 0 triples], [seq prss_at (prss_ctr c' + Z.of_nat k)%Z | k <- iota 0 randoms].
split; rewrite ?size_map ?size_iota //; try by apply/allP => p /mapP[k _ ->]; exact: batch_triple_good || exact: prss_at_ok.
move=> i /net_ok[range_i [ds [corrupt' [eq_b rec_ok]]]]; split; first exact: abort_prss_initE.
rewrite /small_execute /gather_triples triples_gt0 subn0 (next_triple_batchE range_i _ le_z eq_b rec_ok); first by lia.
rewrite rbind_Ok cat0s [size _ < _](_ : _ = false); first by rewrite !size_map size_iota ltnn.
rewrite rbind_Ok; case: posnP => [->|_]; first by eexists.
by rewrite next_random_batchE //=; [move: le_p; rewrite Z.add_0_r; lia | eexists].
Qed.
End Triples.

(** ** Errors beyond the decoder *)

(** With [3t + 1] parties and [t >= 2] the decoder of the values of degree [2t] corrects
    [t / 2] errors, and the [t] values of the corrupt parties can lie with all but one of the
    others on another polynomial. *)
Section Attack.
Context {R : comNzRingType} {X : ExceptionalSequence R} {EC : ErrorCorrect X}.
Variables (t : nat) (bad : seq nat).
Let n := (3 * t + 1)%N.
Hypothesis zero_point : get_from_exceptional_sequence 0 = Ok (0 : R).
Hypothesis embeds : forall i, (i <= n)%N -> exists x : R, get_from_exceptional_sequence i = Ok x.

(** The honest parties whose values the other polynomial keeps: all but one. *)
Definition kept_parties : seq nat := behead [seq j <- iota 1 n | j \notin bad].

(** The difference of the two polynomials, with [delta] at zero. *)
Definition shift_poly (delta c : R) : {poly R} := (delta * c)%:P * \prod_(j <- kept_parties) ('X - (point j)%:P).

Lemma size_kept_parties : uniq bad -> {subset bad <= iota 1 n} -> size bad = t -> size kept_parties = (2 * t)%N.
Proof.
move=> uniq_b sub_b sz_b; rewrite size_behead size_filter.
have := count_predC (mem bad) (iota 1 n); rewrite size_iota.
have -> : count (mem bad) (iota 1 n) = t.
  by rewrite -size_filter -sz_b; apply/perm_size/uniq_perm; rewrite ?filter_uniq ?iota_uniq // => j;
    rewrite mem_filter; apply: andb_idr => /sub_b.
by rewrite -[count (predC _) _]/(count (fun j => j \notin bad) _) /n; clear; ssrlia.
Qed.

Lemma shift_poly_scale : exists c, forall delta, (shift_poly delta c).[0] = delta.
Proof.
have [j|c eq_c] := @prod_unit R nat kept_parties (fun j => 0 - point j).
  move=> /mem_behead; rewrite mem_filter mem_iota => /andP[_ /andP[gt0_j lt_j]].
  apply: exceptional_diff_unit zero_point (pointE embeds _); last by move: lt_j; rewrite add1n ltnS.
  by rewrite eq_sym -lt0n.
exists c => delta; rewrite hornerM hornerC horner_prod -mulrA.
by under eq_bigr do rewrite hornerXsubC; rewrite [c * _]mulrC eq_c mulr1.
Qed.

(** What the parties broadcast: the corrupt ones add the difference to what they should. *)
Definition attack_value (delta c : R) (g : {poly R}) (j : nat) : R :=
  if j \in bad then g.[point j] + (shift_poly delta c).[point j] else g.[point j].

Lemma count_behead (h : seq nat) : (count (fun j => j \notin behead h) h <= 1)%N.
Proof.
case: h => [|j h] //=; rewrite -[X in (_ <= X)%N]addn0; apply: leq_add; first exact: leq_b1.
by rewrite leqn0 -leqn0 leqNgt -has_count -all_predC; apply/allP => k in_k /=; rewrite in_k.
Qed.

(** The two polynomials differ at the point of one honest party at most. *)
Lemma shift_poly_wrong delta c g :
  (wrong_shares (g + shift_poly delta c) [seq mkShare j (attack_value delta c g j) | j <- iota 1 n] <= 1)%N.
Proof.
rewrite /wrong_shares count_map; apply: leq_trans (count_behead [seq j <- iota 1 n | j \notin bad]).
rewrite count_filter (eq_in_count (a2 := fun j => (j <= n)%N && ~~ on_poly (g + shift_poly delta c) (mkShare j (attack_value delta c g j)))).
  by move=> j; rewrite mem_iota add1n ltnS => /andP[_ ->].
apply: sub_count => j /andP[le_j] /=.
rewrite /on_poly /attack_value /= /embed_role_to_exceptional_sequence /one_based (pointE embeds le_j) hornerD.
case: ifP => [_|_ neq]; first by rewrite eqxx.
rewrite andbT; apply: contra neq => in_k; rewrite hornerM horner_prod (bigD1_seq j in_k) /=.
  by rewrite /kept_parties -drop1 drop_uniq // filter_uniq // iota_uniq.
by rewrite hornerXsubC subrr mul0r mulr0 addr0 eqxx.
Qed.

Lemma shift_poly_degree delta c : uniq bad -> {subset bad <= iota 1 n} -> size bad = t ->
  of_degree (2 * t) (shift_poly delta c).
Proof.
move=> uniq_b sub_b sz_b; rewrite /of_degree /shift_poly mul_polyC (leq_trans (size_scale_leq _ _)) //.
by rewrite size_prod_XsubC size_kept_parties.
Qed.

(** C11. With [3t + 1] parties, [t >= 2], the parties of any set [bad] of [t] can add to the
    decoded product any [delta] they like: there are errors, which depend on [bad] and [delta]
    and not on the shared values, that make every party decode [secret g + delta] for
    [secret g], without a failure and without anyone being added to the set of corrupt parties. *)
Theorem additive_error_accepted (delta : R) :
  (2 <= t)%N -> uniq bad -> {subset bad <= iota 1 n} -> size bad = t ->
  exists err : Role -> R, (forall j, j \notin bad -> err j = 0) /\
  forall (g : {poly R}) (session : OfflineSession (R := R)), of_degree (2 * t) g ->
    off_num_parties session = n -> off_threshold session = t -> off_corrupt session = [::] ->
    reconstruct_d_values session 1 [seq (j, RingVector [:: g.[point j] + err j]) | j <- iota 1 n] =
      Ok ([:: Some (secret g + delta)], session).
Proof.
move=> ge2_t uniq_b sub_b sz_b; have [c eq_c] := shift_poly_scale.
exists (fun j => if j \in bad then (shift_poly delta c).[point j] else 0); split=> [j /negbTE-> //|].
move=> g session deg_g eq_n eq_t no_c; set ds := map _ _.
have eq_ds : [seq d.1 : nat | d <- ds] = iota 1 n by rewrite -map_comp map_id.
have eq_s : after_refusal 1 session ds = session by rewrite /ds; elim: (iota 1 n).
have eq_k : kept 1 ds = [seq (j, [:: attack_value delta c g j]) | j <- iota 1 n].
  rewrite /ds; elim: (iota 1 n) => //= j m ->; congr ((_, [:: _]) :: _).
  by rewrite /attack_value; case: ifP; rewrite ?addr0.
have eq_r : refused 1 ds = [::] by rewrite /ds; elim: (iota 1 n).
rewrite (@reconstruct_d_valuesE R X EC session 1 ds (fun=> g + shift_poly delta c)) ?eq_ds ?iota_uniq ?eq_s ?eq_r //.
- by rewrite -(size_map (fun d => d.1 : nat)) eq_ds size_iota eq_n.
- apply/allP => r; rewrite mem_iota add1n ltnS => /andP[_ le_r].
  by rewrite /embeddable /embed_role_to_exceptional_sequence /one_based (pointE embeds le_r).
- by rewrite no_c eq_t eq_n /n add0n; clear; ssrlia.
- move=> k; rewrite ltnS leqn0 => /eqP->; rewrite eq_t eq_n no_c subn0; split.
    by rewrite (leq_trans (size_polyD _ _)) // geq_max; apply/andP; split=> //; apply: shift_poly_degree.
  rewrite eq_k -map_comp (leq_trans (shift_poly_wrong delta c g)) //.
  by rewrite divn_gt0 // /n; move: ge2_t; clear; ssrlia.
by rewrite /= /secret hornerD eq_c.
Qed.
End Attack.
