(* ===== verification/PrssCheck.v ===== *)
(** * Checks of pseudorandom values (core/threshold-execution/src/small_execution/prss.rs)

    [prss_check] and [przs_check]: when a value cannot be decoded the parties broadcast
    what the sets they are in derive at a counter, take for each set the value with the
    most votes, put the parties that voted otherwise on the list of corrupt ones, and
    compute what every party should hold.  A hash map is the list of its entries; the
    order of an iteration is a parameter. *)

From Stdlib Require Import String ZArith.
From mathcomp Require Import boot.
From mathcomp Require Import ssralg poly.
From S2P Require Import Prelude SsrLia Role Constants PolyOps Structure Matrix Prf Prss SmallOffline.

Set Implicit Arguments.
Unset Strict Implicit.
Unset Printing Implicit Defensive.

Import GRing.Theory.
Local Open Scope ring_scope.

(** ** Maps *)

Section Maps.
Variables (K : eqType) (V : Type).
Implicit Types (m : seq (K * V)) (k : K) (v : V).

(** [HashMap::get] and [HashMap::insert]. *)
Fixpoint hash_get m k : option V :=
  if m is e :: m' then if e.1 == k then Some e.2 else hash_get m' k else None.

Fixpoint hash_put m k v : seq (K * V) :=
  if m is e :: m' then if e.1 == k then (k, v) :: m' else e :: hash_put m' k v else [:: (k, v)].
End Maps.

(** [Iterator::max_by_key]: the last of the largest. *)
Definition max_by_key {T : Type} (key : T -> nat) (l : seq T) : option T :=
  foldl (fun best x => if best is Some b then if (key b <= key x)%N then Some x else best else Some x) None l.

Section PrssCheck.
Context {R : comNzRingType} {X : ExceptionalSequence R} {PC : PRSSConversions R}.
Variables (invert : R -> Res string R) (aes128 : seq Z -> seq Z -> seq Z).
Variable combinations : seq Role -> nat -> seq (seq Role).

(** The order in which the entries of a map or a set are visited. *)
Variable iter_order : forall T : Type, seq T -> seq T.

(** The values of a broadcast: the votes of a party, or another one. *)
Inductive BroadcastVotes : Type :=
| PRSSVotes (votes : seq (seq Role * seq R))
| OtherVotes.

Definition ValueVotes : Type := seq (seq R * seq nat).

Inductive ComputeShareMode : Type :=
| ModePrss
| ModePrzs.

(** The roles of the session, sorted. *)
Definition session_roles (session : OfflineSession (R := R)) : seq Role := iota 1 (off_num_parties session).

(** ** Counting *)

Definition add_vote (value_votes : ValueVotes) (cur_prf_val : seq R) (cur_role : Role) (session : OfflineSession (R := R))
    : ValueVotes * OfflineSession (R := R) :=
  if hash_get value_votes cur_prf_val is Some existing_roles then
    if cur_role \in existing_roles then (value_votes, off_add_corrupt session cur_role)
    else (hash_put value_votes cur_prf_val (rcons existing_roles cur_role), session)
  else (hash_put value_votes cur_prf_val [:: cur_role], session).

(** One pair that a party sent. *)
Definition sort_vote (role : Role) (acc : seq (seq nat * ValueVotes) * OfflineSession (R := R)) (vote : seq Role * seq R)
    : seq (seq nat * ValueVotes) * OfflineSession (R := R) :=
  if hash_get acc.1 vote.1 is Some value_votes then
    let r := add_vote value_votes vote.2 role acc.2 in (hash_put acc.1 vote.1 r.1, r.2)
  else (hash_put acc.1 vote.1 [:: (vote.2, [:: role])], acc.2).

Definition sort_votes (broadcast_result : seq (Role * BroadcastVotes)) (session : OfflineSession (R := R))
    : seq (seq nat * ValueVotes) * OfflineSession (R := R) :=
  foldl (fun acc (b : Role * BroadcastVotes) =>
    if b.2 is PRSSVotes vec_pairs then foldl (sort_vote b.1) acc vec_pairs
    else (acc.1, off_add_corrupt acc.2 b.1)) ([::], session) broadcast_result.

(** ** The winning values *)

(** Every voter of a set is corrupt. *)
Definition add_voters (session : OfflineSession (R := R)) (value_votes : ValueVotes) : OfflineSession (R := R) :=
  foldl (fun s (vv : seq R * seq nat) => foldl (fun s voter => off_add_corrupt s voter) s (iter_order vv.2))
    session (iter_order value_votes).

Definition winning_value (acc : seq (seq nat * seq R) * OfflineSession (R := R)) (e : seq nat * ValueVotes)
    : Res string (seq (seq nat * seq R) * OfflineSession (R := R)) :=
  if max_by_key (fun vv : seq R * seq nat => size vv.2) (iter_order e.2) is Some (value_max, _) then
    if hash_get e.2 value_max is Some votes then
      if (size votes <= off_threshold acc.2)%N then
        if e.1 \in create_sets combinations (session_roles acc.2) (off_threshold acc.2) then
          Err "PR*S-Check went wrong, did not find enough votes for a valid subset"%string
        else Ok (acc.1, add_voters acc.2 e.2)
      else Ok (hash_put acc.1 e.1 value_max, acc.2)
    else Panic
  else Err "No votes found!"%string.

Definition find_winning_prf_values (count : seq (seq nat * ValueVotes)) (session : OfflineSession (R := R))
    : Res string (seq (seq nat * seq R) * OfflineSession (R := R)) :=
  rfold winning_value ([::], session) (iter_order count).

Definition flag_non_voters (count : seq (seq nat * ValueVotes)) (session : OfflineSession (R := R)) (tv : seq nat * seq R)
    : OfflineSession (R := R) :=
  if obind (fun value_map => hash_get value_map tv.2) (hash_get count tv.1) is Some roles_votes then
    if (size roles_votes < size tv.1)%N then
      foldl (fun s cur_role => if cur_role \notin roles_votes then off_add_corrupt s cur_role else s) session tv.1
    else session
  else session.

Definition handle_non_voting_parties (true_prf_vals : seq (seq nat * seq R)) (count : seq (seq nat * ValueVotes))
    (session : OfflineSession (R := R)) : OfflineSession (R := R) :=
  foldl (flag_non_voters count) session (iter_order true_prf_vals).

(** ** The shares of the parties *)

(** What the value of one set adds to the share of a party. *)
Definition add_set_value (mode : ComputeShareMode) (threshold : nat) (alphas : option (seq (seq R))) (cur_role : Role)
    (f_a : R) (cur_prf_val : seq R) (cur_s : R) : Res string R :=
  match mode with
  | ModePrss =>
      if size cur_prf_val != 1%N then Err "Did not receive a single PRSS psi value"%string
      else Ok (cur_s + f_a * cur_prf_val`_0)
  | ModePrzs =>
      if size cur_prf_val != threshold then Err "Did not receive t PRZS chi values"%string
      else rfold (fun cur_s (icv : nat * R) =>
        if alphas is Some alpha then
          let* powers := role_index alpha cur_role in
          if onth powers icv.1.+1 is Some a then Ok (cur_s + f_a * a * icv.2) else Panic
        else Err "alphas not initialized"%string) cur_s (enumerate cur_prf_val)
  end.

Definition compute_party_shares (true_prf_vals : seq (seq nat * seq R)) (session : OfflineSession (R := R))
    (mode : ComputeShareMode) : Res string (seq (Role * R)) :=
  let roles := session_roles session in
  let all_sets := create_sets combinations roles (off_threshold session) in
  let* points := party_compute_f_a_points invert roles all_sets in
  let* alphas := if mode is ModePrzs then
                   let* a := embed_parties_and_compute_alpha_powers (off_num_parties session) (off_threshold session) in
                   Ok (Some a)
                 else Ok None in
  rmap (fun cur_role =>
    let* cur_s := rfold (fun cur_s (iset : nat * seq nat) =>
      if cur_role \in iset.2 then
        let* f_a := (if onth points iset.1 is Some row then role_index row cur_role else Panic) in
        if hash_get true_prf_vals iset.2 is Some cur_prf_val then
          add_set_value mode (off_threshold session) alphas cur_role f_a cur_prf_val cur_s
        else Err "A prf value which should exist does no longer exist"%string
      else Ok cur_s) 0 (enumerate all_sets) in
    Ok (cur_role, cur_s)) roles.

(** ** The checks *)

(** [broadcast_from_all_w_corrupt_set_update] of votes. *)
Variable broadcast_votes : OfflineSession (R := R) -> seq (seq Role * seq R) ->
  Res string (seq (Role * BroadcastVotes) * OfflineSession (R := R)).

(** What a party broadcasts: its values of the sets it is in. *)
Definition own_values (state : PRSSState (R := R)) (f : PrfAes -> Res string (seq R)) : Res string (seq (seq Role * seq R)) :=
  rmap (fun iset : nat * PrssSet (R := R) =>
    if onth (prfs state) iset.1 is Some aes_prf then let* v := f aes_prf in Ok (set_parties iset.2, v)
    else Err "PRFs not properly initialized!"%string) (enumerate (sets (prss_setup state))).

(** From the values of the party on. *)
Definition check_values (session : OfflineSession (R := R)) (values : seq (seq Role * seq R)) (mode : ComputeShareMode)
    : Res string (seq (Role * R) * OfflineSession (R := R)) :=
  let* b := broadcast_votes session values in
  let: (count, session) := sort_votes b.1 b.2 in
  let* w := find_winning_prf_values count session in
  let session := handle_non_voting_parties w.1 count w.2 in
  let* shares := compute_party_shares w.1 session mode in
  Ok (shares, session).

Definition prss_check (session : OfflineSession (R := R)) (ctr : Z) : Res string (seq (Role * R) * OfflineSession (R := R)) :=
  let* psi_values := own_values (off_prss session) (fun aes_prf =>
    let* p := psi aes128 (psi_aes aes_prf) ctr in Ok [:: p]) in
  check_values session psi_values ModePrss.

Definition przs_check (session : OfflineSession (R := R)) (ctr : Z) : Res string (seq (Role * R) * OfflineSession (R := R)) :=
  let* chi_values := own_values (off_prss session) (fun aes_prf =>
    rmap (fun j => chi aes128 (chi_aes aes_prf) ctr (as_u8 (Z.of_nat j))) (iota 1 (off_threshold session))) in
  check_values session chi_values ModePrzs.
End PrssCheck.
