(* ===== verification/PrssCheckProps.v ===== *)
(** * What the checks of pseudorandom values decide (core/threshold-execution/src/small_execution/prss.rs)

    With more than three times the threshold of parties the votes of the honest members of
    a set outnumber those of the corrupt parties: the checks return what every party should
    hold, and put corrupt parties only on the list. *)

From Stdlib Require Import String ZArith Lia.
From mathcomp Require Import boot.
From mathcomp Require Import ssralg poly.
From S2P Require Import Prelude SsrLia Role Constants PolyOps Structure Matrix Protocol Prf Prss PrssProps SmallOffline SmallOfflineProps PrssCheck.

Set Implicit Arguments.
Unset Strict Implicit.
Unset Printing Implicit Defensive.

Import GRing.Theory.
Local Open Scope ring_scope.

(** ** Maps *)

Section MapFacts.
Variables (K : eqType) (V : Type).
Implicit Types (m : seq (K * V)) (k : K) (v : V).

Lemma hash_get_put m k v k' : hash_get (hash_put m k v) k' = if k == k' then Some v else hash_get m k'.
Proof.
elim: m => [|e m IHm] //=; case: (e.1 =P k) => [->|neq] /=; first by case: (k == k').
by rewrite IHm; case: (e.1 =P k') => // <-; case: eqP => // eq_k; case: neq.
Qed.

Lemma mem_keys_put m k v : unzip1 (hash_put m k v) =i k :: unzip1 m.
Proof.
move=> k'; elim: m => [|e m IHm] //=; case: (e.1 =P k) => [->|neq] /=; first by rewrite !inE orbA orbb.
by rewrite !inE IHm inE orbCA.
Qed.

Lemma uniq_keys_put m k v : uniq (unzip1 m) -> uniq (unzip1 (hash_put m k v)).
Proof.
elim: m => [|e m IHm] //= /andP[notin uniq_m]; case: (e.1 =P k) => [eq_k|neq] /=; first by rewrite -eq_k notin.
by rewrite IHm // mem_keys_put inE negb_or notin !andbT; apply/eqP.
Qed.

Lemma hash_get_None m k : k \notin unzip1 m -> hash_get m k = None.
Proof. by elim: m => [|e m IHm] //=; rewrite inE negb_or eq_sym => /andP[/negbTE-> /IHm]. Qed.
End MapFacts.

Lemma hash_get_mem (K V : eqType) (m : seq (K * V)) (e : K * V) : uniq (unzip1 m) -> e \in m -> hash_get m e.1 = Some e.2.
Proof.
elim: m => [|e' m IHm] //= /andP[notin uniq_m]; rewrite inE => /orP[/eqP-> |in_m]; first by rewrite eqxx.
by case: eqP => [eq_e|_]; [move: notin; rewrite eq_e map_f | apply: IHm].
Qed.

Lemma hash_get_in (K V : eqType) (m : seq (K * V)) k v : hash_get m k = Some v -> (k, v) \in m.
Proof. by elim: m => [|[k' v'] m IHm] //=; case: eqP => [-> [->]|_ /IHm in_m]; rewrite inE ?eqxx ?in_m ?orbT. Qed.

Lemma mem_hash_put (K V : eqType) (m : seq (K * V)) k v e : e \in hash_put m k v -> e = (k, v) \/ e \in m.
Proof.
elim: m => [|e' m IHm] /=; first by rewrite inE => /eqP; left.
case: eqP => [_|_]; rewrite !inE => /orP[/eqP->|in_e]; [by left | by right; rewrite in_e orbT | by right; rewrite eqxx |].
by case: (IHm in_e) => [->|->]; [left | right; rewrite orbT].
Qed.

Lemma hash_put_nonempty (K V : eqType) (m : seq (K * V)) k v : hash_put m k v != [::].
Proof. by case: m => [|e m] //=; case: ifP. Qed.

(** The entry that [max_by_key] returns. *)
Lemma max_by_keyP (T : eqType) (key : T -> nat) (l : seq T) :
  if max_by_key key l is Some x then x \in l /\ {in l, forall y, key y <= key x}%N else l = [::].
Proof.
elim/last_ind: l => [|l x IHl] //=; rewrite /max_by_key foldl_rcons -/(max_by_key key l).
case: (max_by_key key l) IHl => [b [in_b max_b]|->]; last by split=> [|y]; rewrite !inE // => /eqP->.
case: leqP => [le_b|lt_x]; (split; first by rewrite mem_rcons inE ?eqxx ?in_b ?orbT) => y; rewrite mem_rcons inE.
  by case/orP=> [/eqP-> //|/max_b le_y]; apply: leq_trans le_b.
by case/orP=> [/eqP->|/max_b //]; apply: ltnW.
Qed.

(** ** Parties put on the list of corrupt ones *)

Section Sessions.
Context {R : comNzRingType}.
Implicit Types s : OfflineSession (R := R).

Definition add_all s (l : seq nat) : OfflineSession (R := R) := foldl (fun s (r : Role) => off_add_corrupt s r) s l.

Lemma add_all_cat s l1 l2 : add_all s (l1 ++ l2) = add_all (add_all s l1) l2.
Proof. exact: foldl_cat. Qed.

Lemma add_all_fields s l :
  [/\ off_role (add_all s l) = off_role s, off_num_parties (add_all s l) = off_num_parties s,
      off_threshold (add_all s l) = off_threshold s & off_prss (add_all s l) = off_prss s].
Proof.
elim: l s => [|r l IHl] s //=; have [-> -> -> ->] := IHl (off_add_corrupt s r); exact: add_corrupt_fields.
Qed.

(** A loop whose steps put parties on the list puts those of all its steps on it. *)
Lemma foldl_add_all (A : eqType) (f : OfflineSession (R := R) -> A -> OfflineSession (R := R)) (bad : seq nat) (l : seq A) :
  {in l, forall a, exists2 log, {subset log <= bad} & forall s, f s a = add_all s log} ->
  exists2 log, {subset log <= bad} & forall s, foldl f s l = add_all s log.
Proof.
elim: l => [|a l IHl] ok; first by exists [::].
have [|log sub_l eq_l] := IHl; first by move=> b in_b; apply: ok; rewrite inE in_b orbT.
have [log' sub_l' eq_l'] := ok a (mem_head _ _); exists (log' ++ log) => [r|s /=].
  by rewrite mem_cat => /orP[/sub_l'|/sub_l].
by rewrite eq_l' eq_l add_all_cat.
Qed.

Lemma add_one (bad : seq nat) (r : nat) : r \in bad ->
  exists2 log, {subset log <= bad} & forall s, off_add_corrupt s r = add_all s log.
Proof. by move=> bad_r; exists [:: r] => // r'; rewrite inE => /eqP->. Qed.

Lemma add_none (bad : seq nat) : exists2 log, {subset log <= bad} & forall s, s = add_all s log.
Proof. by exists [::]. Qed.
End Sessions.

(** ** Counting the votes *)

Section Counting.
Context {R : comNzRingType}.
Implicit Types (count : seq (seq nat * ValueVotes (R := R))) (session : OfflineSession (R := R)).

(** The parties that are counted for a value of a set. *)
Definition voters count (s : seq nat) (v : seq R) : seq nat :=
  if hash_get count s is Some vv then odflt [::] (hash_get vv v) else [::].

(** The votes [P] are counted, each voter once. *)
Definition counted count (P : seq (nat * (seq nat * seq R))) : Prop :=
  [/\ uniq (unzip1 count),
      {in count, forall e, uniq (unzip1 e.2) /\ e.2 != [::]},
      forall s v, uniq (voters count s v)
    & forall s v r, (r \in voters count s v) = ((r, (s, v)) \in P)].

(** The votes after one more. *)
Definition count_vote (role : nat) count (vote : seq nat * seq R) : seq (seq nat * ValueVotes (R := R)) :=
  hash_put count vote.1
    (if hash_get count vote.1 is Some vv then
       if role \in voters count vote.1 vote.2 then vv else hash_put vv vote.2 (rcons (voters count vote.1 vote.2) role)
     else [:: (vote.2, [:: role])]).

Lemma sort_voteE role count session vote : sort_vote role (count, session) vote =
  (count_vote role count vote, if role \in voters count vote.1 vote.2 then off_add_corrupt session role else session).
Proof.
case: vote => s v; rewrite /sort_vote /count_vote /voters /=; case: (hash_get count s) => //= vv.
by rewrite /add_vote; case: (hash_get vv v) => //= ro; case: ifP.
Qed.

Lemma count_vote_voters role count vote s v : voters (count_vote role count vote) s v =
  if (vote.1 == s) && (vote.2 == v) && (role \notin voters count s v) then rcons (voters count s v) role else voters count s v.
Proof.
case: vote => s' v'; rewrite /count_vote {1}/voters /= hash_get_put; case: (s' =P s) => [<-|_] //=; rewrite /voters.
case: (hash_get count s') => [vv|] /=; last by rewrite andbT; case: (v' == v).
case: ifP => in_r; rewrite ?hash_get_put; case: (v' =P v) => [<-|_] //=; by rewrite in_r.
Qed.

Lemma count_vote_counted role count vote P : counted count P -> counted (count_vote role count vote) (rcons P (role, vote)).
Proof.
case=> uniq_c votes_c uniq_v mem_v; split.
- exact: uniq_keys_put.
- move=> e /mem_hash_put[-> /=|/votes_c //]; case eq_g: (hash_get count vote.1) => [vv|] //=.
  have [uniq_vv nonempty] := votes_c _ (hash_get_in eq_g); case: ifP => // _.
  by rewrite uniq_keys_put ?hash_put_nonempty.
- move=> s v; rewrite count_vote_voters; case: ifP => // /andP[_ notin].
  by rewrite rcons_uniq notin uniq_v.
move=> s v r; rewrite count_vote_voters mem_rcons inE -mem_v; case: vote => s' v' /=.
rewrite -[(r, (s, v)) == _]/((r == role) && ((s == s') && (v == v'))) [s == _]eq_sym [v == _]eq_sym.
case: (s' == s); case: (v' == v); rewrite ?andbF ?andbT //=.
by case: ifP; rewrite ?mem_rcons ?inE // => /negbFE in_r; case: (r =P role) => // ->.
Qed.

(** The votes of an entry of the broadcast. *)
Definition cast_votes (b : Role * BroadcastVotes (R := R)) : seq (nat * (seq nat * seq R)) :=
  if b.2 is PRSSVotes l then [seq (b.1 : nat, v) | v <- l] else [::].

Variable bad : seq nat.

Lemma sort_party_votes (role : nat) (l : seq (seq nat * seq R)) count P : counted count P ->
  (role \notin bad -> uniq l /\ {in l, forall v, (role, v) \notin P}) ->
  exists count' log, [/\ counted count' (P ++ [seq (role, v) | v <- l]), {subset log <= bad}
    & forall session, foldl (sort_vote role) (count, session) l = (count', add_all session log)].
Proof.
elim: l count P => [|v l IHl] count P ok honest; first by exists count, [::]; rewrite cats0.
have [|count' [log [ok' sub_l eq_l]]] := IHl _ _ (count_vote_counted role v ok).
  move=> /honest[/andP[notin uniq_l] not_P]; split=> // w in_w; rewrite mem_rcons inE negb_or.
  rewrite not_P ?inE ?in_w ?orbT // andbT; apply/eqP => -[eq_w].
  by move: notin; rewrite -eq_w in_w.
exists count', (if role \in voters count v.1 v.2 then role :: log else log); split.
- by move: ok'; rewrite cat_rcons.
- case: ifP => // in_v r; rewrite inE => /orP[/eqP->|/sub_l //]; apply: contraT => /honest[_ not_P].
  have := not_P _ (mem_head _ _); have [_ _ _ mem_v] := ok.
  by rewrite [v]surjective_pairing -mem_v in_v.
by move=> session /=; rewrite sort_voteE eq_l; case: ifP.
Qed.

Lemma sort_votesE (res : seq (Role * BroadcastVotes (R := R))) : uniq [seq b.1 : nat | b <- res] ->
  (forall b, b.1 \notin bad -> List.In b res -> exists2 l : seq (seq nat * seq R), b.2 = PRSSVotes l & uniq l) ->
  exists count log, [/\ counted count (flatten [seq cast_votes b | b <- res]), {subset log <= bad}
    & forall session, sort_votes res session = (count, add_all session log)].
Proof.
pose step acc (b : Role * BroadcastVotes (R := R)) := if b.2 is PRSSVotes vec_pairs then foldl (sort_vote b.1) acc vec_pairs
    else (acc.1, off_add_corrupt acc.2 b.1).
move=> uniq_r honest; rewrite /sort_votes -/step.
suff gen : forall count P, counted count P -> {in P, forall q, q.1 \notin [seq b.1 : nat | b <- res]} ->
    exists count' log, [/\ counted count' (P ++ flatten [seq cast_votes b | b <- res]), {subset log <= bad}
      & forall s, foldl step (count, s) res = (count', add_all s log)].
  exact: (gen [::] [::]).
elim: res uniq_r honest => [|[role e] res IHres] => [_ _ count P ok _|]; first by exists count, [::]; rewrite cats0.
case/andP=> /= notin uniq_r honest count P ok fresh.
have [count1 [log1 [ok1 sub1 eq1]]] : exists count1 log1, [/\ counted count1 (P ++ cast_votes (role, e)), {subset log1 <= bad}
    & forall s, step (count, s) (role, e) = (count1, add_all s log1)].
  rewrite /step /cast_votes /=; case: e honest => [l|] honest /=; last first.
    exists count, [:: role : nat]; rewrite cats0; split=> // r; rewrite inE => /eqP->; apply: contraT => good.
    by have [] := honest (role, OtherVotes) good (or_introl erefl).
  apply: sort_party_votes => // good; have [l' [<-] uniq_l] := honest (role, PRSSVotes l) good (or_introl erefl).
  by split=> // v _; apply/negP => /fresh; rewrite /= inE eqxx.
have [||count2 [log2 [ok2 sub2 eq2]]] := IHres uniq_r _ _ _ ok1.
- by move=> b good in_b; apply: honest => //; right.
- move=> q; rewrite mem_cat => /orP[/fresh|]; first by rewrite /= inE negb_or => /andP[].
  by rewrite /cast_votes /=; case: (e) => [l|] //= /mapP[v _ ->].
exists count2, (log1 ++ log2); rewrite catA; split=> // [r|s]; first by rewrite mem_cat => /orP[/sub1|/sub2].
by rewrite -[foldl _ _ _]/(foldl step (step (count, s) (role, e)) res) eq1 eq2 add_all_cat.
Qed.
End Counting.

(** ** The winning values *)

Lemma mem_flatten_In (A : Type) (T : eqType) (f : A -> seq T) (l : seq A) x :
  x \in flatten [seq f a | a <- l] <-> exists2 a, List.In a l & x \in f a.
Proof.
elim: l => [|a l IHl] /=; first by split=> // -[].
rewrite mem_cat; split=> [/orP[in_x|/IHl[b in_b in_x]]|[b [<-|in_b] in_x]].
- by exists a => //; left.
- by exists b => //; right.
- by rewrite in_x.
by apply/orP; right; apply/IHl; exists b.
Qed.

Lemma In_uniq_key (A : Type) (f : A -> nat) (l : seq A) a b : uniq [seq f x | x <- l] ->
  List.In a l -> List.In b l -> f a = f b -> a = b.
Proof.
elim: l => //= x l IHl /andP[notin uniq_l] [<-|in_a] [<-|in_b] // eq_f; last exact: IHl.
- by move: notin; rewrite eq_f In_map_mem.
by move: notin; rewrite -eq_f In_map_mem.
Qed.

Section Winning.
Context {R : comNzRingType}.
Variable combinations : seq Role -> nat -> seq (seq Role).
Variable iter_order : forall T : Type, seq T -> seq T.
Variables (n t : nat) (bad : seq nat) (val : seq nat -> seq R) (res : seq (Role * BroadcastVotes (R := R))).
Hypothesis combinationsE : forall l k s, s \in combinations l k -> subseq s l && (size s == k).
Hypothesis combinations_uniq : forall l k, uniq (l : seq nat) -> uniq (combinations l k).
Hypothesis iter_orderE : forall (T : eqType) (s : seq T), perm_eq (iter_order s) s.
Hypothesis lt_n : (3 * t < n)%N.
Hypothesis le_bad : (size bad <= t)%N.

Local Notation all_sets := (create_sets combinations (iota 1 n) t).
Local Notation sets_of i := (party_sets combinations (iota 1 n) t i).

(** The votes of an honest party. *)
Definition honest_votes (j : Role) : BroadcastVotes (R := R) := PRSSVotes [seq (s, val s) | s <- sets_of j].

(** Every party has an entry, and the honest ones vote for the values. *)
Definition votes_ok : Prop := perm_eq [seq b.1 : nat | b <- res] (iota 1 n) /\
  forall j, j \notin bad -> (0 < j <= n)%N -> List.In (j, honest_votes j) res.

Hypothesis ok_res : votes_ok.

Lemma all_setsP s : s \in all_sets -> [/\ uniq s, size s = (n - t)%N & {in s, forall j, 0 < j <= n}%N].
Proof.
case/combinationsE/andP=> sub_s /eqP sz_s; split; first exact: subseq_uniq sub_s (iota_uniq _ _).
  by rewrite sz_s size_iota.
by move=> j /(mem_subseq sub_s); rewrite mem_iota add1n ltnS.
Qed.

Lemma uniq_res : uniq [seq b.1 : nat | b <- res].
Proof. by case: ok_res => /perm_uniq-> _; rewrite iota_uniq. Qed.

Lemma honest_entry b : List.In b res -> b.1 \notin bad -> b.2 = honest_votes b.1.
Proof.
case: ok_res => roles honest in_b good; have range_b : (0 < b.1 <= n)%N.
  by have := In_map_mem (fun b => b.1 : nat) in_b; rewrite (perm_mem roles) mem_iota add1n ltnS.
by rewrite {1}(In_uniq_key (f := fun b => b.1 : nat) uniq_res in_b (honest _ good range_b)).
Qed.

Lemma honest_entries b : b.1 \notin bad -> List.In b res -> exists2 l : seq (seq nat * seq R), b.2 = PRSSVotes l & uniq l.
Proof.
move=> good in_b; exists [seq (s, val s) | s <- sets_of b.1]; first exact: honest_entry.
by rewrite map_inj_uniq => [s s' [] //|]; apply/filter_uniq/combinations_uniq/iota_uniq.
Qed.

Variable tally : seq (seq nat * ValueVotes (R := R)).
Hypothesis ok_tally : counted tally (flatten [seq cast_votes b | b <- res]).

(** A set has the votes of its honest members, and other votes come from corrupt parties. *)
Lemma honest_voters s : s \in all_sets -> {in s, forall j, j \notin bad -> j \in voters tally s (val s)}.
Proof.
move=> in_s j j_s good; have [_ _ _ ->] := ok_tally; apply/mem_flatten_In.
have [_ _ range] := all_setsP in_s; exists (j, honest_votes j); first by case: ok_res => _; apply; rewrite ?range.
by rewrite /cast_votes /= map_f // (map_f (fun s => (s, val s))) // mem_filter j_s.
Qed.

Lemma bad_voters s v : (s \in all_sets -> v != val s) -> {subset voters tally s v <= bad}.
Proof.
move=> other r; have [_ _ _ ->] := ok_tally; case/mem_flatten_In=> b in_b.
case: (boolP (b.1 \in bad)) => [bad_b|good]; rewrite /cast_votes.
  by case: b.2 => //= l /mapP[w _ [-> _]].
rewrite (honest_entry in_b good) /= => /mapP[w /mapP[s' in_s' ->] [_ eq_s eq_v]].
move: in_s'; rewrite -eq_s mem_filter => /andP[_ /other]; by rewrite eq_v -eq_s eqxx.
Qed.

Lemma few_voters s v : (s \in all_sets -> v != val s) -> (size (voters tally s v) <= t)%N.
Proof.
move=> other; apply: leq_trans le_bad; apply: uniq_leq_size (bad_voters other).
by have [_ _ uniq_v _] := ok_tally.
Qed.

Lemma many_voters s : s \in all_sets -> (t < size (voters tally s (val s)))%N.
Proof.
move=> in_s; have [uniq_s sz_s _] := all_setsP in_s.
have : (size [seq j <- s | j \notin bad] <= size (voters tally s (val s)))%N.
  apply: uniq_leq_size; first exact: filter_uniq.
  by move=> j; rewrite mem_filter => /andP[good j_s]; apply: honest_voters.
have : (size [seq j <- s | j \in bad] <= size bad)%N.
  by apply: uniq_leq_size; [apply: filter_uniq | move=> j; rewrite mem_filter => /andP[]].
have := count_predC (mem bad) s; rewrite sz_s !size_filter -[count (predC _) _]/(seq.count (fun j => j \notin bad) s).
by move: le_bad lt_n; clear; move: (seq.count _ _) (seq.count _ _) => a b; ssrlia.
Qed.

Lemma votersE e vv : e \in tally -> vv \in e.2 -> voters tally e.1 vv.1 = vv.2.
Proof.
have [uniq_c entries _ _] := ok_tally; move=> in_e in_vv; have [uniq_e _] := entries e in_e.
by rewrite /voters (hash_get_mem uniq_c in_e) (hash_get_mem uniq_e in_vv).
Qed.

Lemma add_votersE e : e \in tally -> e.1 \notin all_sets ->
  exists2 log, {subset log <= bad} & forall s, add_voters iter_order s e.2 = add_all s log.
Proof.
move=> in_e other; apply: foldl_add_all => vv; rewrite (perm_mem (iter_orderE _)) => in_vv.
apply: foldl_add_all => r; rewrite (perm_mem (iter_orderE _)) -(votersE in_e in_vv) => in_r.
by apply: add_one; apply: bad_voters in_r => in_s; rewrite in_s in other.
Qed.

Lemma winning_valueE e : e \in tally -> exists2 log, {subset log <= bad} &
  forall acc : seq (seq nat * seq R) * OfflineSession (R := R), off_num_parties acc.2 = n -> off_threshold acc.2 = t ->
  winning_value combinations iter_order acc e =
    Ok (if e.1 \in all_sets then hash_put acc.1 e.1 (val e.1) else acc.1, add_all acc.2 log).
Proof.
move=> in_e; have [uniq_c entries _ _] := ok_tally; have [uniq_e nonempty] := entries e in_e.
have perm_e := iter_orderE e.2; have := max_by_keyP (fun vv : seq R * seq nat => size vv.2) (iter_order e.2).
rewrite /winning_value; case: (max_by_key _ _) => [[vm ro] [in_m max_m]|nil_e]; last first.
  by move: (perm_size perm_e); rewrite nil_e; case: (e.2) nonempty.
rewrite (perm_mem perm_e) in in_m; have /= eq_ro := votersE in_e in_m; rewrite (hash_get_mem uniq_e in_m) /=.
case: (boolP (e.1 \in all_sets)) => [in_s|other]; last first.
  have [log sub_l eq_l] := add_votersE in_e other; exists log => // acc eq_n eq_t.
  rewrite /session_roles eq_n eq_t (negbTE other) -eq_ro few_voters ?eq_l // => in_s; by rewrite in_s in other.
have many := many_voters in_s; have eq_vm : vm = val e.1.
  apply/eqP; apply: contraLR (many) => other; rewrite -leqNgt.
  move: many; rewrite /voters (hash_get_mem uniq_c in_e); case eq_v: (hash_get e.2 (val e.1)) => [ro'|] //= many.
  apply: leq_trans (max_m (val e.1, ro') _) _; first by rewrite (perm_mem perm_e) hash_get_in.
  by rewrite /= -eq_ro; apply: few_voters.
by exists [::] => // acc eq_n eq_t; rewrite eq_t -eq_ro eq_vm leqNgt many.
Qed.

(** The values that win: those of the sets, and no others. *)
Lemma find_winningE : exists tv log,
  [/\ {in all_sets, forall s, hash_get tv s = Some (val s)}, {in tv, forall e, e.1 \in all_sets /\ e.2 = val e.1},
      {subset log <= bad}
    & forall session, off_num_parties session = n -> off_threshold session = t ->
        find_winning_prf_values combinations iter_order tally session = Ok (tv, add_all session log)].
Proof.
have keys s : s \in all_sets -> s \in unzip1 (iter_order tally).
  move=> /many_voters; rewrite (perm_mem (perm_map _ (iter_orderE tally))) /voters.
  by case: (boolP (s \in unzip1 tally)) => // notin; rewrite hash_get_None.
rewrite /find_winning_prf_values; have sub : {subset iter_order tally <= tally} by move=> e; rewrite (perm_mem (iter_orderE _)).
suff gen l (tv0 : seq (seq nat * seq R)) : {subset l <= tally} -> {in tv0, forall e, e.1 \in all_sets /\ e.2 = val e.1} ->
    exists tv log, [/\ forall s, hash_get tv s = if (s \in all_sets) && (s \in unzip1 l) then Some (val s) else hash_get tv0 s,
      {in tv, forall e, e.1 \in all_sets /\ e.2 = val e.1}, {subset log <= bad}
      & forall session, off_num_parties session = n -> off_threshold session = t ->
          rfold (winning_value combinations iter_order) (tv0, session) l = Ok (tv, add_all session log)].
  have [tv [log [get_tv mem_tv sub_l eq_l]]] := gen (iter_order tally) [::] sub (fun _ => ltac:(done)).
  by exists tv, log; split=> // s in_s; rewrite get_tv in_s keys.
elim: l tv0 => [|e l IHl] tv0 sub_l mem_0.
  by exists tv0, [::]; split=> // s; rewrite andbF.
have [log1 sub1 eq1] := winning_valueE (sub_l e (mem_head _ _)).
pose tv1 := if e.1 \in all_sets then hash_put tv0 e.1 (val e.1) else tv0.
have [||tv [log [get_tv mem_tv sub2 eq2]]] := IHl tv1.
- by move=> e' in_e'; apply: sub_l; rewrite inE in_e' orbT.
- rewrite /tv1; case: ifP => // in_s e'; by case/mem_hash_put=> [->|/mem_0].
exists tv, (log1 ++ log); split=> // [s|r|session eq_n eq_t]; last first.
- have [_ n1 t1 _] := add_all_fields session log1.
  by rewrite /= eq1 // rbind_Ok eq2 ?add_all_cat //= ?n1 ?t1.
- by rewrite mem_cat => /orP[/sub1|/sub2].
rewrite get_tv inE /tv1 /=; case: (s =P e.1) => [->|neq] /=.
  by case: (e.1 \in all_sets); rewrite //= hash_get_put eqxx if_same.
by case: (e.1 \in all_sets); rewrite ?hash_get_put //; case: (e.1 =P s) => // eq_e; case: neq.
Qed.

Lemma handle_non_votingE (tv : seq (seq nat * seq R)) : {in tv, forall e, e.1 \in all_sets /\ e.2 = val e.1} ->
  exists2 log, {subset log <= bad} & forall session, handle_non_voting_parties iter_order tv tally session = add_all session log.
Proof.
move=> mem_tv; apply: foldl_add_all => e; rewrite (perm_mem (iter_orderE _)) => /mem_tv[in_s eq_v].
rewrite /flag_non_voters eq_v; have := honest_voters in_s; rewrite /voters.
case: (hash_get tally e.1) => [vv|] /=; last by move=> _; apply: add_none.
case: (hash_get vv (val e.1)) => [ro|] /= honest; last exact: add_none.
case: (_ < _)%N; last exact: add_none.
apply: foldl_add_all => r in_r; case: (boolP (r \in ro)) => [_|notin]; first exact: add_none.
by apply: add_one; apply: contraR notin => good; apply: honest.
Qed.
End Winning.

(** ** The checks *)

Section Checks.
Context {R : comNzRingType} {X : ExceptionalSequence R} {PC : PRSSConversions R}.
Variables (invert : R -> Res string R) (aes128 : seq Z -> seq Z -> seq Z).
Variable combinations : seq Role -> nat -> seq (seq Role).
Variable iter_order : forall T : Type, seq T -> seq T.
Variables (n t : nat) (key : seq Role -> PrfKey) (sid : Z).
Hypothesis invertE : inverts invert.
Hypothesis zero_point : get_from_exceptional_sequence 0 = Ok (0 : R).
Hypothesis embeds : forall i, (i <= n)%N -> exists x : R, get_from_exceptional_sequence i = Ok x.
Hypothesis combinationsE : forall l k s, s \in combinations l k -> subseq s l && (size s == k).
Hypothesis combinations_uniq : forall l k, uniq (l : seq nat) -> uniq (combinations l k).
Hypothesis iter_orderE : forall (T : eqType) (s : seq T), perm_eq (iter_order s) s.
Hypothesis lt_n : (3 * t < n)%N.

Let le_t : (t <= n)%N.
Proof. by move: lt_n; clear; ssrlia. Qed.

Local Notation all_sets := (create_sets combinations (iota 1 n) t).
Local Notation sets_of i := (party_sets combinations (iota 1 n) t i).
Local Notation f_poly := (f_poly invert n).
Local Notation sets_poly := (sets_poly invert combinations n t).

(** The powers of the points, in the mode that uses them. *)
Definition check_alphas (mode : ComputeShareMode) : option (seq (seq R)) :=
  if mode is ModePrzs then Some (compute_powers_list [seq point j | j <- iota 1 n] t) else None.

(** What a set adds to the share of a party. *)
Definition set_term (G : seq Role -> {poly R}) (j : nat) (s : seq nat) : R :=
  if j \in s then (f_poly s).[point j] * (G s).[point j] else 0.

Lemma compute_party_sharesE mode (tv : seq (seq nat * seq R)) session (val : seq nat -> seq R) (G : seq Role -> {poly R}) :
  off_num_parties session = n -> off_threshold session = t ->
  {in all_sets, forall s, hash_get tv s = Some (val s)} ->
  (forall s j f v, s \in all_sets -> (0 < j <= n)%N ->
     add_set_value mode t (check_alphas mode) j f (val s) v = Ok (v + f * (G s).[point j])) ->
  compute_party_shares invert combinations tv session mode = Ok [seq (j, (sets_poly G).[point j]) | j <- iota 1 n].
Proof.
move=> eq_n eq_t get_tv addE; rewrite /compute_party_shares /session_roles eq_n eq_t.
rewrite (party_compute_f_a_pointsE invertE zero_point embeds le_t (good_sets n t combinationsE)) rbind_Ok.
have -> : (if mode is ModePrzs then let* a := embed_parties_and_compute_alpha_powers n t in Ok (Some a) else Ok None) =
    Ok (check_alphas mode).
  rewrite /check_alphas; case: (mode) => //; rewrite /embed_parties_and_compute_alpha_powers.
  rewrite (@rmap_Ok _ _ _ _ (fun j => point j)) // => j; rewrite mem_iota add1n ltnS => /andP[_ le_j]; exact: (pointE embeds).
rewrite rbind_Ok; apply: rmap_Ok => j; rewrite mem_iota add1n ltnS => range_j.
rewrite (enumerateE [::]) rfold_map (@rfold_sum _ _ _ _ (fun idx => set_term G j (nth [::] all_sets idx))) => [idx|].
  rewrite mem_iota0 => lt_i v; have in_s := mem_nth [::] lt_i; rewrite /set_term /=; case: ifP => _; last by rewrite addr0.
  rewrite (onth_nth [::]) ?size_map // (nth_map [::]) // role_index_iota // rbind_Ok get_tv //; exact: addE.
rewrite rbind_Ok add0r; congr (Ok (_, _)); rewrite sets_poly_point // /party_sets big_filter big_mkcond /=.
transitivity (\sum_(s <- mkseq (nth [::] all_sets) (size all_sets)) set_term G j s).
  by rewrite big_map.
by rewrite mkseq_nth [RHS]big_mkcond; apply: eq_bigr => s _; rewrite /set_term; case: ifP.
Qed.

(** What a party broadcasts. *)
Definition votes_of (val : seq nat -> seq R) (i : Role) : seq (seq Role * seq R) := [seq (s, val s) | s <- sets_of i].

Definition psi_votes (ctr : Z) (s : seq nat) : seq R := [:: psi_val aes128 key sid s ctr].

Definition chi_votes (ctr : Z) (s : seq nat) : seq R := [seq chi_val aes128 key sid s ctr j | j <- iota 1 t].

Lemma own_valuesE i c f val : (forall s, f (prf_of key sid s) = Ok (val s)) ->
  own_values (party_state invert combinations n t key sid i c) f = Ok (votes_of val i).
Proof.
move=> fE; rewrite /own_values (enumerate_setsE (g := fun s => Ok (s, val s))) => [idx s _ /= -> |].
  by rewrite fE.
exact: rmap_Ok.
Qed.

Lemma add_psiE ctr s j f v : add_set_value ModePrss t (check_alphas ModePrss) j f (psi_votes ctr s) v =
  Ok (v + f * ((psi_val aes128 key sid s ctr)%:P).[point j]).
Proof. by rewrite /= hornerC. Qed.

Lemma add_chiE ctr s j f v : (0 < j <= n)%N ->
  add_set_value ModePrzs t (check_alphas ModePrzs) j f (chi_votes ctr s) v =
  Ok (v + f * (przs_factor aes128 t key sid ctr s).[point j]).
Proof.
move=> range_j; rewrite /add_set_value /chi_votes size_map size_iota eqxx /=.
rewrite enumerate_map rfold_map (enumerateE 0%N) rfold_map size_iota compute_powers_listE -map_comp.
rewrite (@rfold_sum _ _ _ _ (fun k => f * (point j ^+ k.+1) * chi_val aes128 key sid s ctr k.+1)) => [k|].
  rewrite mem_iota0 => lt_k u; rewrite role_index_iota // rbind_Ok compute_powersE.
  by rewrite /= (onth_nth 0) ?size_map ?size_iota // (nth_map 0%N) ?size_iota // !nth_iota.
congr (Ok (_ + _)); rewrite /przs_factor horner_sum big_distrr (iotaDl 1 0) big_map /=.
by apply: eq_bigr => k _; rewrite hornerZ hornerXn add1n -mulrA; congr (_ * _); rewrite mulrC.
Qed.

(** ** The checks of the honest parties *)

Variable bad : seq nat.
Hypothesis le_bad : (size bad <= t)%N.

Definition honest (i : nat) : bool := (0 < i <= n)%N && (i \notin bad).

(** Parties put on a list. *)
Definition add_list (corrupt l : seq nat) : seq nat :=
  foldl (fun corrupt r => if r \in corrupt then corrupt else r :: corrupt) corrupt l.

Local Notation session i c corrupt := (offline_session invert combinations n t key sid i c corrupt).

Lemma add_all_session i c corrupt l : i \notin bad -> {subset l <= bad} ->
  add_all (session i c corrupt) l = session i c (add_list corrupt l).
Proof.
move=> good; elim: l corrupt => [|r l IHl] corrupt sub_l //=; rewrite -IHl => [x in_x|].
  by apply: sub_l; rewrite inE in_x orbT.
have neq : (r == i) = false by apply: contraNF good => /eqP<-; apply: sub_l; apply: mem_head.
by congr add_all; rewrite /off_add_corrupt /= neq /=; case: ifP.
Qed.

(** The party [i] gets the entries [res] when the honest parties are at the same list. *)
Definition broadcast_votes_ok (broadcast : Role -> OfflineSession (R := R) -> seq (seq Role * seq R) ->
    Res string (seq (Role * BroadcastVotes (R := R)) * OfflineSession (R := R))) (val : seq nat -> seq R) (corrupt : seq nat) : Prop :=
  exists res l, [/\ votes_ok combinations n t bad val res, {subset l <= bad}
    & forall i c, honest i -> broadcast i (session i c corrupt) (votes_of val i) = Ok (res, session i c (add_list corrupt l))].

Lemma check_valuesE broadcast corrupt mode val (G : seq Role -> {poly R}) : broadcast_votes_ok broadcast val corrupt ->
  (forall s j f v, s \in all_sets -> (0 < j <= n)%N ->
     add_set_value mode t (check_alphas mode) j f (val s) v = Ok (v + f * (G s).[point j])) ->
  exists2 l, {subset l <= bad} & forall i c, honest i ->
    check_values invert combinations iter_order (broadcast i) (session i c corrupt) (votes_of val i) mode =
    Ok ([seq (j, (sets_poly G).[point j]) | j <- iota 1 n], session i c (add_list corrupt l)).
Proof.
move=> [res [l1 [ok_res sub1 eq1]]] addE.
have [tally [l2 [ok_tally sub2 eq2]]] := sort_votesE (uniq_res ok_res) (honest_entries combinations_uniq ok_res).
have [tv [l3 [get_tv mem_tv sub3 eq3]]] := find_winningE combinationsE iter_orderE lt_n le_bad ok_res ok_tally.
have [l4 sub4 eq4] := handle_non_votingE combinationsE iter_orderE ok_res ok_tally mem_tv.
exists (l1 ++ l2 ++ l3 ++ l4) => [r|i c hon_i].
  by rewrite !mem_cat => /or4P[/sub1|/sub2|/sub3|/sub4].
have /andP[_ good] := hon_i; rewrite /check_values eq1 // rbind_Ok eq2 eq3 ?add_all_session //.
rewrite rbind_Ok eq4 !add_all_session // (@compute_party_sharesE mode tv _ val G) // rbind_Ok.
by rewrite /add_list !foldl_cat.
Qed.

Lemma prss_checkE broadcast corrupt ctr : (ctr < 2 ^ 112)%Z -> broadcast_votes_ok broadcast (psi_votes ctr) corrupt ->
  exists2 l, {subset l <= bad} & forall i c, honest i ->
    prss_check invert aes128 combinations iter_order (broadcast i) (session i c corrupt) ctr =
    Ok ([seq (j, (prss_poly invert aes128 combinations n t key sid ctr).[point j]) | j <- iota 1 n],
        session i c (add_list corrupt l)).
Proof.
move=> lt_c ok; have [|l sub_l eq_l] := @check_valuesE _ _ ModePrss _ (fun s => (psi_val aes128 key sid s ctr)%:P) ok.
  by move=> s j f v _ _; apply: add_psiE.
exists l => // i c hon_i; rewrite /prss_check (own_valuesE _ _ (val := psi_votes ctr)) => [s|]; first by rewrite psi_valE.
by rewrite rbind_Ok eq_l.
Qed.

Lemma przs_checkE broadcast corrupt ctr : (ctr < 2 ^ 104)%Z -> broadcast_votes_ok broadcast (chi_votes ctr) corrupt ->
  exists2 l, {subset l <= bad} & forall i c, honest i ->
    przs_check invert aes128 combinations iter_order (broadcast i) (session i c corrupt) ctr =
    Ok ([seq (j, (przs_poly invert aes128 combinations n t key sid ctr).[point j]) | j <- iota 1 n],
        session i c (add_list corrupt l)).
Proof.
move=> lt_c ok; have [|l sub_l eq_l] := @check_valuesE _ _ ModePrzs _ (przs_factor aes128 t key sid ctr) ok.
  by move=> s j f v _; apply: add_chiE.
exists l => // i c hon_i; rewrite /przs_check (own_valuesE _ _ (val := chi_votes ctr)) => [s|].
  by apply: rmap_Ok => j _; apply: chi_valE.
by rewrite rbind_Ok eq_l.
Qed.

(** C13. The checks of pseudorandom values: when at most [t] of [n > 3t] parties are corrupt and the
    broadcasts of the votes are consistent, the checks at a counter end at every honest party with
    what every party derives there, of random values and of shares of zero, whatever the corrupt
    parties vote.  The honest parties put the same parties on their lists, which are corrupt ones. *)
Theorem prss_check_correct broadcast_psi broadcast_chi corrupt ctr : (ctr < 2 ^ 104)%Z ->
  broadcast_votes_ok broadcast_psi (psi_votes ctr) corrupt -> broadcast_votes_ok broadcast_chi (chi_votes ctr) corrupt ->
  exists (P Q : {poly R}) l_psi l_chi,
  [/\ {subset l_psi <= bad}, {subset l_chi <= bad},
      forall i c, honest i ->
        prss_check invert aes128 combinations iter_order (broadcast_psi i) (session i c corrupt) ctr =
        Ok ([seq (j, P.[point j]) | j <- iota 1 n], session i c (add_list corrupt l_psi)),
      forall i c, honest i ->
        przs_check invert aes128 combinations iter_order (broadcast_chi i) (session i c corrupt) ctr =
        Ok ([seq (j, Q.[point j]) | j <- iota 1 n], session i c (add_list corrupt l_chi))
    & forall j c, (0 < j <= n)%N -> let state := party_state invert combinations n t key sid j c in
        (prss_ctr c = ctr -> exists state', prss_next_vec aes128 state j 1 = Ok ([:: P.[point j]], state')) /\
        (przs_ctr c = ctr -> exists state', przs_next_vec aes128 state j t 1 = Ok ([:: Q.[point j]], state'))].
Proof.
move=> lt_c ok_psi ok_chi; have lt_c' : (ctr < 2 ^ 112)%Z by lia.
have [l sub_l eq_l] := prss_checkE lt_c' ok_psi; have [l' sub_l' eq_l'] := przs_checkE lt_c ok_chi.
exists (prss_poly invert aes128 combinations n t key sid ctr), (przs_poly invert aes128 combinations n t key sid ctr), l, l'.
split=> // j c range_j state; split=> eq_c; eexists.
  by rewrite prss_next_vecE // eq_c; [lia | rewrite /= Z.add_0_r].
by rewrite przs_next_vecE // eq_c; [lia | rewrite /= Z.add_0_r].
Qed.
End Checks.
