(* ===== verification/SmallRobust.v ===== *)
(** * Corrupt parties in the small offline phase (core/threshold-execution/src/small_execution/offline.rs)

    With more than three times the threshold of parties the offline phase of the honest
    parties ends whatever the corrupt ones broadcast: a value that cannot be decoded puts a
    corrupt party on the list, and the values of the parties on the list are not decoded.
    The honest parties end with shares of the same triples, which are right when there are
    four times the threshold of parties or the threshold is one. *)

From Stdlib Require Import String ZArith Lia.
From mathcomp Require Import boot.
From mathcomp Require Import ssralg poly.
From S2P Require Import Prelude SsrLia Role Constants PolyOps Structure Matrix Shamir Protocol Triples Prf Prss PrssProps SmallOffline SmallOfflineProps PrssCheck PrssCheckProps.

Set Implicit Arguments.
Unset Strict Implicit.
Unset Printing Implicit Defensive.

Import GRing.Theory.
Local Open Scope ring_scope.

(** ** Lists of corrupt parties *)

Lemma mem_add_list (corrupt l : seq nat) : add_list corrupt l =i corrupt ++ l.
Proof.
move=> r; elim: l corrupt => [|x l IHl] corrupt /=; first by rewrite cats0.
rewrite IHl !mem_cat inE; case: ifP => [in_x|_]; last by rewrite inE orbCA orbA.
by case: eqP => [->|_] //; rewrite in_x.
Qed.

Lemma add_list_uniq (corrupt l : seq nat) : uniq corrupt -> uniq (add_list corrupt l).
Proof.
elim: l corrupt => //= x l IHl corrupt uniq_c; apply: IHl.
by case: ifP => //= ->.
Qed.

Lemma add_list_cat (corrupt l1 l2 : seq nat) : add_list corrupt (l1 ++ l2) = add_list (add_list corrupt l1) l2.
Proof. exact: foldl_cat. Qed.

(** Distinct corrupt parties. *)
Definition corrupt_ok (bad corrupt : seq nat) : Prop := uniq corrupt /\ {subset corrupt <= bad}.

Lemma corrupt_ok_add bad corrupt l : corrupt_ok bad corrupt -> {subset l <= bad} -> corrupt_ok bad (add_list corrupt l).
Proof.
case=> uniq_c sub_c sub_l; split; first exact: add_list_uniq.
by move=> r; rewrite mem_add_list mem_cat => /orP[/sub_c|/sub_l].
Qed.

Lemma corrupt_ok_size bad corrupt : corrupt_ok bad corrupt -> (size corrupt <= size bad)%N.
Proof. by case=> uniq_c sub_c; apply: uniq_leq_size. Qed.

(** ** What is decoded *)

Section Decoded.
Context {R : comNzRingType} {X : ExceptionalSequence R} {EC : ErrorCorrect X}.
Implicit Types (session : OfflineSession (R := R)) (d : Role * BroadcastD (R := R)) (ds : seq (Role * BroadcastD (R := R))).

Lemma after_refusalE amount session ds : after_refusal amount session ds = add_all session (refused amount ds).
Proof.
by elim: ds session => //= d ds IHds session; rewrite IHds /refused /=; case: (valid_entry amount d).
Qed.

Lemma mem_kept amount ds rv : rv \in kept amount ds -> List.In (rv.1 : Role, RingVector rv.2) ds /\ size rv.2 = amount.
Proof.
elim: ds => [|[r [v|]] ds IHds] //=; last by move=> /IHds[in_d sz]; split=> //; right.
case: eqP => [sz_v|_] /=; last by move=> /IHds[in_d sz]; split=> //; right.
by rewrite inE => /orP[/eqP->|/IHds[in_d sz]]; split=> //; [left | right].
Qed.

Lemma mem_refused amount ds r : r \in refused amount ds -> exists2 d, List.In d ds & d.1 = r /\ ~~ valid_entry amount d.
Proof.
elim: ds => [|d ds IHds] //; rewrite /refused /=; case val_d: (valid_entry amount d) => /=.
  by move=> /IHds[d' in_d ok]; exists d' => //; right.
rewrite inE => /orP[/eqP->|/IHds[d' in_d ok]]; last by exists d' => //; right.
by exists d; [left | rewrite val_d].
Qed.

(** The value that the decoder returns at a position, if it returns one. *)
Definition decoded (n t corrupt : nat) (vectors : seq (Role * seq R)) (k : nat) : option R :=
  if error_correct (d_sharing vectors k) (2 * t) (divn (n - corrupt - (2 * t + 1)) 2) is Ok p then Some (Poly p).[0] else None.

Lemma reconstruct_decoded session amount ds (session' := after_refusal amount session ds) :
  uniq [seq d.1 : nat | d <- ds] -> all embeddable [seq d.1 : nat | d <- ds] ->
  (size (off_corrupt session') + (2 * off_threshold session + 1) <= off_num_parties session)%N ->
  reconstruct_d_values session amount ds =
  Ok ([seq decoded (off_num_parties session) (off_threshold session) (size (off_corrupt session')) (kept amount ds) k
      | k <- iota 0 amount], session').
Proof.
move=> uniq_d emb_d le_c; have [_ eq_n eq_t _] := after_refusal_fields amount session ds.
have uniq_k := subseq_uniq (kept_roles amount ds) uniq_d.
have emb_k : all embeddable [seq rv.1 : nat | rv <- kept amount ds].
  by apply/allP => r /(mem_subseq (kept_roles amount ds)) /(allP emb_d).
rewrite /reconstruct_d_values keep_vectorsE cat0s -/session' eq_n eq_t.
rewrite ltnNge (leq_trans (leq_addr _ _) le_c) /= ltnNge leq_subRL ?(leq_trans (leq_addr _ _) le_c) // le_c /=.
have [h eq_h] := hints_new_Ok (2 * off_threshold session) (ok_d_sharing 0 uniq_k emb_k); rewrite owners_d_sharing in eq_h.
rewrite eq_h rbind_Ok (@rmap_Ok _ _ _ _ (decoded (off_num_parties session) (off_threshold session) (size (off_corrupt session')) (kept amount ds))) // => k _.
have ok_s := ok_d_sharing k uniq_k emb_k; rewrite /error_reconstruct_with_hints.
rewrite (error_correct_with_hintsE _ ok_s) ?owners_d_sharing // /decoded.
set e := divn _ _; have := @error_correct_returned R X EC _ (2 * off_threshold session) e ok_s; rewrite /returned /d_sharing.
by case: (error_correct _ _ _) => // p _; rewrite /= poly_evalE.
Qed.
End Decoded.

(** ** A batch *)

Section Robust.
Context {R : comNzRingType} {X : ExceptionalSequence R} {EC : ErrorCorrect X} {PC : PRSSConversions R}.
Variables (invert : R -> Res string R) (aes128 : seq Z -> seq Z -> seq Z).
Variable combinations : seq Role -> nat -> seq (seq Role).
Variable iter_order : forall T : Type, seq T -> seq T.
Variables (n t : nat) (key : seq Role -> PrfKey) (sid : Z) (bad : seq nat).
Hypothesis invertE : inverts invert.
Hypothesis zero_point : get_from_exceptional_sequence 0 = Ok (0 : R).
Hypothesis embeds : forall i, (i <= n)%N -> exists x : R, get_from_exceptional_sequence i = Ok x.
Hypothesis combinationsE : forall l k s, s \in combinations l k -> subseq s l && (size s == k).
Hypothesis combinations_uniq : forall l k, uniq (l : seq nat) -> uniq (combinations l k).
Hypothesis iter_orderE : forall (T : eqType) (s : seq T), perm_eq (iter_order s) s.
Hypothesis lt_n : (3 * t < n)%N.
Hypothesis le_bad : (size bad <= t)%N.

Let le_t : (t <= n)%N.
Proof. by move: lt_n; clear; ssrlia. Qed.

Local Notation session i c corrupt := (offline_session invert combinations n t key sid i c corrupt).
Local Notation honest := (honest n bad).
Local Notation x_poly := (x_poly invert aes128 combinations n t key sid).
Local Notation y_poly := (y_poly invert aes128 combinations n t key sid).
Local Notation v_poly := (v_poly invert aes128 combinations n t key sid).
Local Notation d_poly := (d_poly invert aes128 combinations n t key sid).

(** What the honest parties broadcast for a batch. *)
Definition d_values (c : PRSSCounters) (amount : nat) (j : nat) : seq R := [seq (d_poly c amount k).[point j] | k <- iota 0 amount].

(** The entries that the broadcast returns with the list [corrupt]: one for each party, those of
    the honest parties with their values, and nothing of a party on the list. *)
Record entries_ok (c : PRSSCounters) (amount : nat) (corrupt : seq nat) (ds : seq (Role * BroadcastD (R := R))) : Prop := {
  entries_roles : perm_eq [seq d.1 : nat | d <- ds] (iota 1 n);
  entries_honest : forall j, honest j -> List.In (j, RingVector (d_values c amount j)) ds;
  entries_corrupt : forall d, List.In d ds -> d.1 \in corrupt -> d.2 = OtherBroadcast
}.

Section Entries.
Variables (c : PRSSCounters) (amount : nat) (corrupt : seq nat) (ds : seq (Role * BroadcastD (R := R))).
Hypothesis ok_ds : entries_ok c amount corrupt ds.
Hypothesis ok_corrupt : corrupt_ok bad corrupt.

(** The list after the entries that are not kept. *)
Definition listed : seq nat := add_list corrupt (refused amount ds).

Lemma uniq_entries : uniq [seq d.1 : nat | d <- ds].
Proof. by rewrite (perm_uniq (entries_roles ok_ds)) iota_uniq. Qed.

Lemma entry_range d : List.In d ds -> (0 < d.1 <= n)%N.
Proof.
by move=> /(In_map_mem (fun d => d.1 : nat)); rewrite (perm_mem (entries_roles ok_ds)) mem_iota add1n ltnS.
Qed.

Lemma entries_embed : all embeddable [seq d.1 : nat | d <- ds].
Proof.
apply/allP => r; rewrite (perm_mem (entries_roles ok_ds)) mem_iota add1n ltnS => /andP[_ le_r].
by rewrite /embeddable /embed_role_to_exceptional_sequence /one_based (pointE embeds).
Qed.

Lemma same_entry d d' : List.In d ds -> List.In d' ds -> d.1 = d'.1 -> d = d'.
Proof. exact: In_uniq_key uniq_entries. Qed.

Lemma good_entry d : List.In d ds -> d.1 \notin bad -> d.2 = RingVector (d_values c amount d.1).
Proof.
move=> in_d good; have hon : honest d.1 by rewrite /PrssCheckProps.honest entry_range.
by rewrite {1}(same_entry in_d (entries_honest ok_ds hon)).
Qed.

Lemma refused_bad : {subset refused amount ds <= bad}.
Proof.
move=> r /mem_refused[d in_d [<- inval]]; apply: contraR inval => good.
by rewrite /valid_entry (good_entry in_d good) /d_values size_map size_iota eqxx.
Qed.

Lemma listed_ok : corrupt_ok bad listed.
Proof. exact: corrupt_ok_add refused_bad. Qed.

Lemma size_listed : (size listed <= t)%N.
Proof. exact: leq_trans (corrupt_ok_size listed_ok) le_bad. Qed.

Lemma kept_not_listed rv : rv \in kept amount ds -> rv.1 \notin listed.
Proof.
move=> /mem_kept[in_d sz_v]; rewrite /listed mem_add_list mem_cat negb_or; apply/andP; split.
  by apply/negP => /(entries_corrupt ok_ds in_d).
apply/negP => /mem_refused[d' in_d' [eq_r]]; rewrite (same_entry in_d' in_d eq_r) /valid_entry /= sz_v.
by rewrite eqxx.
Qed.

(** The parties whose kept value at a position is wrong. *)
Definition wrong_parties (k : nat) : seq nat :=
  [seq rv.1 | rv <- kept amount ds & (rv.2)`_k != (d_poly c amount k).[point rv.1]].

Lemma wrong_sharesE k : wrong_shares (d_poly c amount k) (d_sharing (kept amount ds) k) = size (wrong_parties k).
Proof.
rewrite wrong_d_sharing /wrong_shares count_map /wrong_parties size_map size_filter; apply: eq_in_count => rv /mem_kept[in_d _].
have /andP[_ le_r] := entry_range in_d.
by rewrite /on_poly /= /embed_role_to_exceptional_sequence /one_based (pointE embeds le_r).
Qed.

Lemma wrong_bad k : (k < amount)%N -> {subset wrong_parties k <= bad}.
Proof.
move=> lt_k r /mapP[rv]; rewrite mem_filter => /andP[wrong /mem_kept[in_d _]] ->; apply: contraR wrong => good.
have [->] : RingVector rv.2 = RingVector (d_values c amount rv.1) := good_entry in_d good.
by rewrite /d_values (nth_map 0%N) ?size_iota // nth_iota.
Qed.

Lemma wrong_few k : (k < amount)%N -> (size (wrong_parties k) + size listed <= t)%N.
Proof.
move=> lt_k; apply: leq_trans le_bad; rewrite -size_cat; have [uniq_l sub_l] := listed_ok.
apply: uniq_leq_size => [|r]; last by rewrite mem_cat => /orP[/(wrong_bad lt_k)|/sub_l].
rewrite cat_uniq uniq_l andbT; apply/andP; split.
  apply: subseq_uniq (subseq_uniq (kept_roles amount ds) uniq_entries).
  by apply: map_subseq; apply: filter_subseq.
apply/hasPn => r in_r; apply: contraL in_r => /mapP[rv]; rewrite mem_filter => /andP[_ in_k] ->.
exact: kept_not_listed.
Qed.

Lemma size_kept : (n - size listed <= size (kept amount ds))%N.
Proof.
have le_refused : (size (refused amount ds) <= size listed)%N.
  apply: uniq_leq_size; first exact: subseq_uniq (refused_roles amount ds) uniq_entries.
  by move=> r in_r; rewrite /listed mem_add_list mem_cat in_r orbT.
have := kept_refused amount ds; rewrite -(size_map (fun d => d.1 : nat) ds) (perm_size (entries_roles ok_ds)) size_iota.
by move: le_refused; clear; ssrlia.
Qed.

Lemma kept_ok k : sharing_ok (d_sharing (kept amount ds) k).
Proof.
apply: ok_d_sharing; first exact: subseq_uniq (kept_roles amount ds) uniq_entries.
by apply/allP => r /(mem_subseq (kept_roles amount ds)) /(allP entries_embed).
Qed.

Local Notation value := (decoded n t (size listed) (kept amount ds)).

(** A value that is not decoded has a wrong share. *)
Lemma not_decoded k : value k = None -> wrong_parties k != [::].
Proof.
rewrite /decoded; set e := divn _ _; move=> none; apply/eqP => no_wrong.
have [|||p eq_p _] := @error_correct_complete R X EC (d_sharing (kept amount ds) k) (2 * t) e (d_poly c amount k) (kept_ok k).
- by rewrite size_d_sharing /e; move: size_kept size_listed lt_n; clear; move: (size listed) (size (kept _ _)) => a b; ssrlia.
- exact: (d_poly_degree aes128 key sid invertE zero_point embeds le_t combinationsE).
- by rewrite wrong_sharesE no_wrong.
by rewrite eq_p in none.
Qed.

(** With enough parties for the threshold the values are right. *)
Lemma decoded_right k v : (k < amount)%N -> (t <= 1)%N || (4 * t <= n)%N -> value k = Some v -> v = secret (d_poly c amount k).
Proof.
move=> lt_k enough; rewrite /decoded; set e := divn _ _; case eq_p: (error_correct _ _ _) => [p|msg||] // -[<-].
have [_ sz_p wrong_p] := @error_correct_sound R X EC _ _ _ _ (kept_ok k) eq_p.
rewrite (@codeword_unique R X (d_sharing (kept amount ds) k) (2 * t) (Poly p) (d_poly c amount k)) //; first exact: kept_ok.
  exact: (d_poly_degree aes128 key sid invertE zero_point embeds le_t combinationsE).
rewrite wrong_sharesE size_d_sharing; move: wrong_p (wrong_few lt_k) size_kept lt_n enough; rewrite /e; clear.
by move: (wrong_shares _ _) (size (wrong_parties k)) (size listed) (size (kept _ _)) => a b d f; ssrlia.
Qed.

(** The parties that the check of a position puts on the list. *)
Definition flagged (k : nat) : seq nat :=
  [seq d.1 | d <- ds & (parse_d_share k d).2 != Some (d_poly c amount k).[point d.1]].

Lemma mem_flagged k d : List.In d ds -> (parse_d_share k d).2 != Some (d_poly c amount k).[point d.1] -> d.1 \in flagged k.
Proof.
rewrite /flagged; elim: (ds) => //= d' l IHl [->|in_d] wrong; first by rewrite wrong inE eqxx.
by case: ifP => _; rewrite /= ?inE IHl ?orbT.
Qed.

Lemma flaggedP k r : r \in flagged k ->
  exists2 d, List.In d ds & d.1 = r /\ (parse_d_share k d).2 != Some (d_poly c amount k).[point d.1].
Proof.
rewrite /flagged; elim: (ds) => //= d l IHl; case: ifP => wrong /=; last by case/IHl=> d' in_d ok; exists d' => //; right.
rewrite inE => /orP[/eqP->|/IHl[d' in_d ok]]; last by exists d' => //; right.
by exists d; [left | rewrite wrong].
Qed.

Lemma flagged_bad k : (k < amount)%N -> {subset flagged k <= bad}.
Proof.
move=> lt_k r /flaggedP[d in_d [<- wrong]]; apply: contraR wrong => good.
rewrite /parse_d_share (good_entry in_d good) /= (onth_nth 0) ?size_map ?size_iota // (nth_map 0%N) ?size_iota //.
by rewrite nth_iota.
Qed.

Lemma wrong_flagged k : (k < amount)%N -> {subset wrong_parties k <= flagged k}.
Proof.
move=> lt_k r /mapP[rv]; rewrite mem_filter => /andP[wrong /mem_kept[in_d sz_v]] ->.
by apply: (mem_flagged in_d); rewrite /parse_d_share /= (onth_nth 0) ?sz_v //.
Qed.
End Entries.

(** ** The checks of a batch *)

Lemma role_get_iota (A : Type) (f : nat -> A) (r : nat) : (0 < r <= n)%N ->
  role_get [seq (j : Role, f j) | j <- iota 1 n] r = Some (f r).
Proof.
move=> range_r; rewrite /role_get filter_map -[filter _ _]/(filter (pred1 r) (iota 1 n)).
by rewrite filter_pred1_uniq ?iota_uniq // mem_iota add1n ltnS.
Qed.

(** The networks of the parties in one batch: the broadcasts of their checks, and of the values. *)
Record Round := mkRound {
  round_prss : Role -> Z -> OfflineSession (R := R) -> seq (seq Role * seq R) ->
    Res string (seq (Role * BroadcastVotes (R := R)) * OfflineSession (R := R));
  round_przs : Role -> Z -> OfflineSession (R := R) -> seq (seq Role * seq R) ->
    Res string (seq (Role * BroadcastVotes (R := R)) * OfflineSession (R := R));
  round_values : Role -> OfflineSession (R := R) -> seq R ->
    Res string (seq (Role * BroadcastD (R := R)) * OfflineSession (R := R))
}.

Definition party_network (r : Round) (i : Role) : Network (R := R) :=
  mkNetwork (fun s ctr => prss_check invert aes128 combinations iter_order (round_prss r i ctr) s ctr)
            (fun s ctr => przs_check invert aes128 combinations iter_order (round_przs r i ctr) s ctr)
            (round_values r i).

(** The broadcasts are consistent: when the honest parties broadcast what they should and have
    the same list of corrupt parties, they are returned the same entries, which hold what the
    honest parties sent, and put the same corrupt parties on their lists. *)
Record round_ok (r : Round) : Prop := {
  round_prss_ok : forall ctr corrupt, corrupt_ok bad corrupt ->
    broadcast_votes_ok invert combinations n t key sid bad (fun i => round_prss r i ctr) (psi_votes aes128 key sid ctr) corrupt;
  round_przs_ok : forall ctr corrupt, corrupt_ok bad corrupt ->
    broadcast_votes_ok invert combinations n t key sid bad (fun i => round_przs r i ctr) (chi_votes aes128 t key sid ctr) corrupt;
  round_values_ok : forall c amount corrupt, corrupt_ok bad corrupt ->
    exists ds l, [/\ entries_ok c amount (add_list corrupt l) ds, {subset l <= bad}
      & forall i, honest i -> round_values r i (session i (after_batch c amount) corrupt) (d_values c amount i) =
          Ok (ds, session i (after_batch c amount) (add_list corrupt l))]
}.

Section Batch.
Variables (r : Round) (c : PRSSCounters) (amount : nat).
Hypothesis ok_r : round_ok r.
Hypothesis le_p : (prss_ctr c + Z.of_nat (3 * amount) <= 2 ^ 112)%Z.
Hypothesis le_z : (przs_ctr c + Z.of_nat amount <= 2 ^ 104)%Z.

Local Notation prss_at ctr := (prss_poly invert aes128 combinations n t key sid ctr).
Local Notation przs_at ctr := (przs_poly invert aes128 combinations n t key sid ctr).
Local Notation derived p := [seq (j : Role, p.[point j]) | j <- iota 1 n].

Local Notation check_at k := (check_share (derived (x_poly c amount k)) (derived (y_poly c amount k))
  (derived (v_poly c amount k)) (derived (z_poly invert aes128 combinations n t key sid c amount k))).

Lemma check_shareE k s (d : Role * option R) : (0 < d.1 <= n)%N ->
  check_at k s d = Ok (if d.2 != Some (d_poly c amount k).[point d.1] then off_add_corrupt s d.1 else s).
Proof.
move=> range_d; rewrite /check_share !role_get_iota // /with_context !rbind_Ok.
have -> : (x_poly c amount k).[point d.1] * (y_poly c amount k).[point d.1] + ((v_poly c amount k).[point d.1] +
    (z_poly invert aes128 combinations n t key sid c amount k).[point d.1]) = (d_poly c amount k).[point d.1].
  by rewrite /SmallOfflineProps.d_poly hornerD hornerM hornerD; congr (_ + _); apply: addrC.
by case: d.2 => [v|] //; rewrite eq_sym -[Some _ != _]/(v != _); case: ifP.
Qed.

Lemma check_sharesE corrupt0 ds k s : entries_ok c amount corrupt0 ds ->
  rfold (check_at k) s [seq parse_d_share k d | d <- ds] = Ok (add_all s (flagged c amount ds k)).
Proof.
move=> /entry_range; rewrite /flagged; elim: ds s => [|d ds IHds] s range //.
rewrite -[rfold _ _ _]/(rbind (check_at k s (parse_d_share k d)) (fun s => rfold (check_at k) s [seq parse_d_share k d | d <- ds])).
rewrite check_shareE; first by apply: range; left.
by rewrite rbind_Ok IHds => [d' in_d|]; [apply: range; right | rewrite /=; case: ifP].
Qed.

Lemma check_dE corrupt0 corrupt ds k : corrupt_ok bad corrupt -> entries_ok c amount corrupt0 ds -> (k < amount)%N ->
  exists l, [/\ {subset l <= bad}, {subset flagged c amount ds k <= l} & forall i c', honest i ->
    check_d (net_prss_check (party_network r i)) (net_przs_check (party_network r i)) (session i c' corrupt)
      (prss_ctr c + Z.of_nat k) (przs_ctr c + Z.of_nat k) amount [seq parse_d_share k d | d <- ds] =
    Ok (session i c' (add_list corrupt l))].
Proof.
move=> ok_c ok_ds lt_k; have lt_kZ : (Z.of_nat k < Z.of_nat amount)%Z by apply/Nat2Z.inj_lt/ltP.
have eq_y : (prss_ctr c + Z.of_nat k + Z.of_nat amount = prss_ctr c + Z.of_nat (amount + k))%Z by rewrite -plusE; lia.
have eq_v : (prss_ctr c + Z.of_nat k + 2 * Z.of_nat amount = prss_ctr c + Z.of_nat (2 * amount + k))%Z by rewrite -plusE -multE; lia.
have check ctr C := @prss_checkE R X PC invert aes128 combinations iter_order n t key sid invertE zero_point embeds
  combinationsE combinations_uniq iter_orderE lt_n bad le_bad (fun i => round_prss r i ctr) C ctr.
have [||l1 sub1 eq1] := check (prss_ctr c + Z.of_nat k)%Z corrupt; [by move: le_p; rewrite -multE; lia | exact: round_prss_ok |].
have ok1 := corrupt_ok_add ok_c sub1.
have [||l2 sub2 eq2] := check (prss_ctr c + Z.of_nat (amount + k))%Z (add_list corrupt l1).
- by move: le_p; rewrite -plusE -multE; lia.
- exact: (round_prss_ok ok_r _ ok1).
have ok2 := corrupt_ok_add ok1 sub2.
have [||l3 sub3 eq3] := check (prss_ctr c + Z.of_nat (2 * amount + k))%Z (add_list (add_list corrupt l1) l2).
- by move: le_p; rewrite -plusE -multE; lia.
- exact: (round_prss_ok ok_r _ ok2).
have ok3 := corrupt_ok_add ok2 sub3.
have [||l4 sub4 eq4] := @przs_checkE R X PC invert aes128 combinations iter_order n t key sid invertE zero_point embeds
  combinationsE combinations_uniq iter_orderE lt_n bad le_bad (fun i => round_przs r i (przs_ctr c + Z.of_nat k)%Z)
  (add_list (add_list (add_list corrupt l1) l2) l3) (przs_ctr c + Z.of_nat k)%Z.
- by move: le_z; lia.
- exact: (round_przs_ok ok_r _ ok3).
exists (l1 ++ l2 ++ l3 ++ l4 ++ flagged c amount ds k); split=> [x|x in_x|i c' hon_i].
- by rewrite !mem_cat => /or4P[/sub1|/sub2|/sub3|/orP[/sub4|/(flagged_bad ok_ds lt_k)]].
- by rewrite !mem_cat in_x !orbT.
rewrite /check_d /= eq1 // rbind_Ok eq_y eq2 // rbind_Ok eq_v eq3 // rbind_Ok eq4 // rbind_Ok (check_sharesE _ _ ok_ds).
have /andP[_ good] := hon_i; rewrite (add_all_session _ _ _ _ _ _ _ _ good (flagged_bad ok_ds lt_k)).
by rewrite /add_list !foldl_cat.
Qed.

(** The loop over the positions that failed. *)
Lemma check_positionsE corrupt0 corrupt ds (ks : seq nat) : corrupt_ok bad corrupt -> entries_ok c amount corrupt0 ds ->
  {in ks, forall k, (k < amount)%N} ->
  exists l, [/\ {subset l <= bad}, {in ks, forall k, {subset flagged c amount ds k <= l}} & forall i c', honest i ->
    rfold (fun session k => if onth (parse_d_shares amount ds) k is Some d_share then
        check_d (net_prss_check (party_network r i)) (net_przs_check (party_network r i)) session
          (prss_ctr c + Z.of_nat k)%Z (przs_ctr c + Z.of_nat k)%Z amount d_share
      else Err "Expected d share does not exist"%string) (session i c' corrupt) ks = Ok (session i c' (add_list corrupt l))].
Proof.
move=> ok_c ok_ds; elim: ks corrupt ok_c => [|k ks IHks] corrupt ok_c lt_ks; first by exists [::].
have lt_k := lt_ks k (mem_head _ _); have [l1 [sub1 flag1 eq1]] := check_dE ok_c ok_ds lt_k.
have [|l2 [sub2 flag2 eq2]] := IHks _ (corrupt_ok_add ok_c sub1); first by move=> k' in_k; apply: lt_ks; rewrite inE in_k orbT.
exists (l1 ++ l2); split=> [x|k'|i c' hon_i].
- by rewrite mem_cat => /orP[/sub1|/sub2].
- by rewrite inE => /orP[/eqP->|in_k] x in_x; rewrite mem_cat; [rewrite flag1 | rewrite (flag2 k') ?orbT].
rewrite [LHS]/= (onth_nth [::]) ?size_map ?size_iota // (nth_map 0%N) ?size_iota // nth_iota // add0n.
by rewrite eq1 // rbind_Ok eq2 // add_list_cat.
Qed.

(** The triples of the decoded values. *)
Definition decoded_triples (D : nat -> option R) (ks : seq nat) : seq (PTriple (R := R)) :=
  pmap (fun k => omap (fun d => (x_poly c amount k, y_poly c amount k, d%:P - v_poly c amount k)) (D k)) ks.

Lemma size_decoded_triples D ks : (size (decoded_triples D ks) + size [seq k <- ks | D k == None])%N = size ks.
Proof. by elim: ks => //= k ks IHks; case: (D k) => [d|] /=; rewrite ?addSn ?addnS IHks. Qed.

Lemma collect_decodedE i D s m :
  collect_triples i s [seq ((x_poly c amount k).[point i], ((y_poly c amount k).[point i], (v_poly c amount k).[point i])) | k <- iota s m]
    [seq D k | k <- iota s m] = Ok (tshs i (decoded_triples D (iota s m)), [seq k <- iota s m | D k == None]).
Proof.
elim: m s => //= m IHm s; rewrite IHm rbind_Ok; case: (D s) => [d|] //=; congr (Ok (_ :: _, _)).
by rewrite /tsh /sh /= !hornerE.
Qed.

(** The triples are shared with degree at most [t]. *)
Definition triple_degrees (abc : PTriple (R := R)) : bool := [&& of_degree t abc.1.1, of_degree t abc.1.2 & of_degree t abc.2].

Lemma decoded_triples_degrees D ks : all triple_degrees (decoded_triples D ks).
Proof.
have deg ctr := prss_at_ok aes128 key sid invertE zero_point embeds le_t combinationsE ctr.
elim: ks => //= k ks IHks; case: (D k) => [d|] //=; rewrite IHks andbT /triple_degrees /= !deg /=.
rewrite /of_degree (leq_trans (size_polyD _ _)) // size_polyN geq_max; apply/andP.
by split; [apply: leq_trans (size_polyC_leq1 _) _ | apply: deg].
Qed.

Lemma decoded_triples_good D ks : {in ks, forall k d, D k = Some d -> d = secret (d_poly c amount k)} ->
  all (good_triple t) (decoded_triples D ks).
Proof.
elim: ks => //= k ks IHks right; have {}IHks : all (good_triple t) (decoded_triples D ks).
  by apply: IHks => k' in_k; apply: right; rewrite inE in_k orbT.
case eq_d: (D k) => [d|] //=; rewrite IHks andbT (right k (mem_head _ _) d eq_d).
exact: (batch_triple_good aes128 key sid invertE zero_point embeds le_t combinationsE).
Qed.

(** A batch puts a corrupt party on the list or gives all its triples. *)
Lemma batchE corrupt : corrupt_ok bad corrupt ->
  exists ts corrupt', [/\ corrupt_ok bad corrupt', (size ts <= amount)%N,
    (size ts < amount)%N -> (size corrupt < size corrupt')%N, (size corrupt <= size corrupt')%N
    & [/\ all triple_degrees ts, (t <= 1)%N || (4 * t <= n)%N -> all (good_triple t) ts
        & forall i, honest i ->
          let net := party_network r i in
          next_triple_batch aes128 (net_prss_check net) (net_przs_check net) (net_broadcast net) (session i c corrupt) amount =
          Ok (tshs i ts, session i (after_batch c amount) corrupt')]].
Proof.
move=> ok_c; have [ds [l0 [ok_ds sub0 eq0]]] := round_values_ok ok_r c amount ok_c.
have ok0 := corrupt_ok_add ok_c sub0; pose C1 := listed amount (add_list corrupt l0) ds.
have ok1 : corrupt_ok bad C1 := listed_ok ok_ds ok0; have le_1 : (size C1 <= t)%N := size_listed ok_ds ok0.
pose D := @decoded R X EC n t (size C1) (kept amount ds); pose failed := [seq k <- iota 0 amount | D k == None].
have lt_f : {in failed, forall k, (k < amount)%N} by move=> k; rewrite mem_filter mem_iota0 => /andP[].
have [l [sub_l flag_l eq_l]] := check_positionsE ok1 ok_ds lt_f.
exists (decoded_triples D (iota 0 amount)), (add_list C1 l).
have sz := size_decoded_triples D (iota 0 amount); rewrite size_iota -/failed in sz.
have sub1 : {subset corrupt <= C1} by move=> x in_x; rewrite /C1 /listed !(mem_add_list, mem_cat) in_x.
have [uniq_1 _] := ok1; have uniq_l : uniq (add_list C1 l) := add_list_uniq _ uniq_1.
have sub2 : {subset C1 <= add_list C1 l} by move=> x in_x; rewrite mem_add_list mem_cat in_x.
have le_c : (size corrupt <= size C1)%N by apply: uniq_leq_size sub1; case: ok_c.
split; [exact: corrupt_ok_add | by rewrite -[X in (_ <= X)%N]sz leq_addr | | |].
- move=> lt_ts; apply: leq_ltn_trans le_c _; have : failed != [::].
    by apply: contraTneq lt_ts => f0; rewrite -leqNgt -[X in (X <= _)%N]sz f0 addn0.
  case eq_f: failed => [|k f] // _.
  have in_k : k \in failed by rewrite eq_f mem_head.
  have /eqP none : D k == None by move: in_k; rewrite mem_filter => /andP[].
  have := not_decoded ok_ds ok0 none; case eq_w: (wrong_parties c amount ds k) => [|x w] // _.
  have in_w : x \in wrong_parties c amount ds k by rewrite eq_w mem_head.
  rewrite -(size_rcons C1 x); apply: uniq_leq_size; last first.
    move=> y; rewrite mem_rcons inE => /orP[/eqP->|/sub2 //]; rewrite mem_add_list mem_cat.
    by rewrite (flag_l k in_k) ?orbT // (wrong_flagged (lt_f k in_k)).
  rewrite rcons_uniq uniq_1 andbT; case/mapP: in_w => rv; rewrite mem_filter => /andP[_ in_k'] ->.
  exact: (kept_not_listed ok_ds in_k').
- by apply: leq_trans le_c _; apply: uniq_leq_size.
split; [exact: decoded_triples_degrees | |].
  move=> enough; apply: decoded_triples_good => k; rewrite mem_iota0 => lt_k d; exact: (decoded_right ok_ds ok0 lt_k enough).
move=> i hon_i net; have /andP[range_i good] := hon_i.
rewrite /next_triple_batch triple_sharesE // rbind_Ok -/(d_values c amount i) [net_broadcast _ _ _]eq0 // rbind_Ok reconstruct_decoded.
- exact: uniq_entries ok_ds.
- exact: entries_embed ok_ds.
- rewrite after_refusalE (add_all_session _ _ _ _ _ _ _ _ good (refused_bad ok_ds)) /= -/C1; by move: le_1 lt_n; clear; ssrlia.
rewrite after_refusalE (add_all_session _ _ _ _ _ _ _ _ good (refused_bad ok_ds)) rbind_Ok !(zip_eq_maps, rbind_Ok).
by rewrite [off_role _]/= collect_decodedE rbind_Ok eq_l // rbind_Ok.
Qed.
End Batch.

(** ** Batches until there are enough triples *)

Definition enough_parties : bool := (t <= 1)%N || (4 * t <= n)%N.

(** Every batch but the last puts a corrupt party on the list. *)
Lemma gatherE (rounds : seq Round) triples c corrupt ts0 :
  List.Forall round_ok rounds -> corrupt_ok bad corrupt ->
  ((size ts0 < triples)%N -> (size bad < size rounds + size corrupt)%N) ->
  (size ts0 <= triples)%N -> all triple_degrees ts0 -> (enough_parties -> all (good_triple t) ts0) ->
  (prss_ctr c + Z.of_nat (size rounds * (3 * triples)) <= 2 ^ 112)%Z ->
  (przs_ctr c + Z.of_nat (size rounds * triples) <= 2 ^ 104)%Z ->
  exists ts c' corrupt', [/\ size ts = triples, all triple_degrees ts, enough_parties -> all (good_triple t) ts,
    corrupt_ok bad corrupt' /\ (prss_ctr c' <= prss_ctr c + Z.of_nat (size rounds * (3 * triples)))%Z
    & forall i, honest i -> gather_triples aes128 [seq party_network r i | r <- rounds] triples (tshs i ts0) (session i c corrupt) =
        Ok (tshs i ts, session i c' corrupt')].
Proof.
elim: rounds c corrupt ts0 => [|r rounds IHr] c corrupt ts0 ok_r ok_c few le_ts deg_ts good_ts le_p le_z;
  case: (ltnP (size ts0) triples) => [lt_ts|ge_ts]; try by exists ts0, c, corrupt; split=> //;
    [apply/eqP; rewrite eqn_leq le_ts | split=> //; lia | move=> i _; rewrite /= size_map ltnNge ge_ts].
  by have := few lt_ts; rewrite ltnNge add0n corrupt_ok_size.
set amount := (triples - size ts0)%N; have le_a : (amount <= triples)%N := leq_subr _ _.
have le_pa : (Z.of_nat (3 * amount) + Z.of_nat (size rounds * (3 * triples)) <= Z.of_nat (size (r :: rounds) * (3 * triples)))%Z.
  by rewrite -Nat2Z.inj_add; apply/Nat2Z.inj_le/leP; rewrite plusE [size (r :: rounds)]/= [((size rounds).+1 * _)%N]mulSn leq_add2r leq_mul2l.
have le_za : (Z.of_nat amount + Z.of_nat (size rounds * triples) <= Z.of_nat (size (r :: rounds) * triples))%Z.
  by rewrite -Nat2Z.inj_add; apply/Nat2Z.inj_le/leP; rewrite plusE [size (r :: rounds)]/= [((size rounds).+1 * _)%N]mulSn leq_add2r.
have ok_r1 : round_ok r by move: ok_r => /List.Forall_cons_iff[].
have ok_rs : List.Forall round_ok rounds by move: ok_r => /List.Forall_cons_iff[].
have [||ts1 [corrupt1 [ok_c1 le_t1 new_c le_c [deg1 good1 eq1]]]] := @batchE r c amount ok_r1 _ _ corrupt ok_c; [lia | lia |].
have sz_ts : size (ts0 ++ ts1) = (size ts0 + size ts1)%N := size_cat _ _.
have [||||||ts [c' [corrupt' [sz_t deg_t good_t [ok_c' le_c'] eq_t]]]] := IHr (after_batch c amount) corrupt1 (ts0 ++ ts1) ok_rs ok_c1.
- rewrite sz_ts => lt_t; have /new_c : (size ts1 < amount)%N by move: lt_t; rewrite /amount; clear; ssrlia.
  by have := few lt_ts; rewrite /= ; clear; ssrlia.
- by rewrite sz_ts; move: le_t1 le_ts; rewrite /amount; clear; ssrlia.
- by rewrite all_cat deg_ts.
- by move=> enough; rewrite all_cat good_ts ?good1.
- by rewrite /=; lia.
- by rewrite /=; lia.
exists ts, c', corrupt'; split=> // [|i hon_i]; first by split=> //; move: le_c'; rewrite /=; lia.
rewrite [LHS]/= size_map lt_ts -/amount eq1 // rbind_Ok /= -map_cat; exact: eq_t.
Qed.

(** C9. The offline phase against corrupt parties: when at most [t] of [n > 3t] parties are corrupt
    and the broadcasts are consistent, whatever the corrupt parties broadcast, the phase of the honest
    parties ends within [t + 1] batches.  They end with the same list of corrupt parties, which has no
    honest one, and with shares of degree at most [t] of the same triples and random values.  When [t]
    is at most one or [n >= 4t], the third secret of every triple is the product of the first two. *)
Theorem small_offline_robust (rounds : seq Round) c triples randoms corrupt :
  ('C(n, t) <= PRSS_SIZE_MAX)%N -> List.Forall round_ok rounds -> size rounds = t.+1 -> corrupt_ok bad corrupt ->
  (prss_ctr c + Z.of_nat (t.+1 * (3 * triples)) + Z.of_nat randoms <= 2 ^ 112)%Z ->
  (przs_ctr c + Z.of_nat (t.+1 * triples) <= 2 ^ 104)%Z ->
  exists (ts : seq (PTriple (R := R))) (rs : seq {poly R}) c' corrupt',
  [/\ size ts = triples /\ size rs = randoms, all triple_degrees ts && all (of_degree t) rs,
      enough_parties -> all (good_triple t) ts, corrupt_ok bad corrupt'
    & forall i, honest i ->
        abort_prss_init invert combinations (iota 1 n) t i (Ok [seq key s | s <- party_sets combinations (iota 1 n) t i]) =
          Ok (party_setup invert combinations n t key i) /\
        small_execute aes128 [seq party_network r i | r <- rounds] triples randoms (session i c corrupt) =
          Ok (tshs i ts, shs i rs, session i c' corrupt')].
Proof.
move=> small ok_r sz_r ok_c le_p le_z.
have [||||||ts [c1 [corrupt1 [sz_t deg_t good_t [ok_1 le_1] eq_t]]]] := @gatherE rounds triples c corrupt [::] ok_r ok_c;
  rewrite ?sz_r //; [by move=> _; rewrite addSn ltnS (leq_trans le_bad) ?leq_addr | lia |].
exists ts, [seq prss_poly invert aes128 combinations n t key sid (prss_ctr c1 + Z.of_nat k)%Z | k <- iota 0 randoms].
exists (add_counters c1 0 randoms 0), corrupt1; split=> // [||i hon_i]; first by rewrite size_map size_iota.
  rewrite deg_t; apply/allP => p /mapP[k _ ->]; exact: (prss_at_ok aes128 key sid invertE zero_point embeds le_t combinationsE).
have /andP[range_i _] := hon_i; split; first exact: (abort_prss_initE key invertE zero_point embeds le_t combinationsE).
rewrite /small_execute (eq_t i hon_i) rbind_Ok; case: posnP => [->|_]; last first.
  by rewrite next_random_batchE //; move: le_1; rewrite sz_r; lia.
by case: c1 {eq_t le_1} => a b d /=; rewrite /add_counters /= !Z.add_0_r.
Qed.
End Robust.
