(* ===== verification/AgreeRandom.v ===== *)
(** * Agreement on the keys of the sets (core/threshold-execution/src/small_execution/agree_random.rs)

    Every party draws a value for each of its sets, commits to it, opens it, and takes the
    exclusive or of the values of the members as the key of the set
    ([PassiveSecureAgreeRandom]).  With abort ([AbortSecureAgreeRandom]) the parties then
    send each other the keys and compare them.  The commitments are those of
    core/threshold-algebra/src/commitment.rs, over a hash that is an argument. *)

From Stdlib Require Import String ZArith.
From mathcomp Require Import boot.
From S2P Require Import Prelude SsrLia Role Constants PolyOps Structure Prf Prss.

Set Implicit Arguments.
Unset Strict Implicit.
Unset Printing Implicit Defensive.

(** ** Exchanges of messages *)

(** A party sends a map of messages, waits for those of the others, and continues. *)
Inductive Exchange (M A : Type) : Type :=
| Finished (r : Res string A)
| SendReceive (messages : seq (Role * M)) (continue : seq (Role * M) -> Exchange M A).

Arguments Finished {M A}.
Arguments SendReceive {M A}.

Fixpoint ebind {M A B : Type} (e : Exchange M A) (k : A -> Exchange M B) : Exchange M B :=
  match e with
  | Finished (Ok a) => k a
  | Finished (Err msg) => Finished (Err msg)
  | Finished Panic => Finished Panic
  | Finished Timeout => Finished Timeout
  | SendReceive messages continue => SendReceive messages (fun received => ebind (continue received) k)
  end.

Notation "'let%' x := e 'in' k" := (ebind e (fun x => k)) (at level 200, x name, e at level 100, k at level 200).

(** [send_to_parties] and [receive_from_parties]. *)
Definition exchange {M : Type} (messages : seq (Role * M)) : Exchange M (seq (Role * M)) :=
  SendReceive messages (fun received => Finished (Ok received)).

(** The outcome of a party that receives the given maps, and the maps that it sends. *)
Fixpoint play {M A : Type} (e : Exchange M A) (received : seq (seq (Role * M))) : Res string A :=
  match e, received with
  | Finished r, _ => r
  | SendReceive _ continue, m :: received' => play (continue m) received'
  | SendReceive _ _, [::] => Timeout
  end.

Fixpoint sends {M A : Type} (e : Exchange M A) (received : seq (seq (Role * M))) : seq (seq (Role * M)) :=
  match e, received with
  | Finished _, _ => [::]
  | SendReceive messages continue, m :: received' => messages :: sends (continue m) received'
  | SendReceive messages _, [::] => [:: messages]
  end.

(** ** Commitments *)

Definition COMMITMENT_BYTE_LEN : nat := 2 * KEY_BYTE_LEN.
Definition DIGEST_BYTES : nat := 256 %/ 8.

(** [Commitment] and [Opening] are arrays of bytes; [==] compares them. *)
Definition Commitment : Type := seq Z.
Definition Opening : Type := seq Z.
Definition bytes_eqb (a b : seq Z) : bool := if List.list_eq_dec Z.eq_dec a b then true else false.

(** The bytes of [COMMTMNT]. *)
Definition DSEP_COMM : seq Z := [:: 67; 79; 77; 77; 84; 77; 78; 84]%Z.

Section AgreeRandom.
(** The output of SHAKE-256 on an input, of a length. *)
Variable shake256 : seq Z -> nat -> seq Z.
Variable combinations : seq Role -> nat -> seq (seq Role).

Definition hash_element_w_size (domain_separator element : seq Z) (bytes : nat) : seq Z :=
  shake256 (domain_separator ++ element) bytes.

Definition hash_element (domain_separator element : seq Z) : seq Z :=
  hash_element_w_size domain_separator element DIGEST_BYTES.

Definition role_to_le_bytes (r : Role) : seq Z := le_bytes 8 (Z.of_nat r).

Definition commitment_inner_hash (msg : seq Z) (party_role : Role) (session_id round_id : Z) (o : Opening)
    : Res string Commitment :=
  let to_hash := role_to_le_bytes party_role ++ u128_to_le_bytes session_id ++ le_bytes 8 round_id ++ msg ++ o in
  let digest := hash_element DSEP_COMM to_hash in
  if size digest == COMMITMENT_BYTE_LEN then Ok digest else Panic.

(** [commit], where [opening] is what the generator fills in. *)
Definition commit (msg : seq Z) (party_role : Role) (session_id round_id : Z) (opening : Opening)
    : Res string (Commitment * Opening) :=
  let* com := commitment_inner_hash msg party_role session_id round_id opening in Ok (com, opening).

Definition verify (msg : seq Z) (party_id : Role) (session_id round_id : Z) (com_to_check : Commitment) (o : Opening)
    : Res string unit :=
  let* computed_commitment := commitment_inner_hash msg party_id session_id round_id o in
  if bytes_eqb computed_commitment com_to_check then Ok tt else Err "Commitment verification failed!"%string.

(** ** Messages *)

Inductive AgreeRandomValue : Type :=
| CommitmentValue (cv : seq Commitment)
| KeyOpenValue (kov : seq (PrfKey * Opening))
| KeyValue (kv : seq PrfKey).

(** The values of the network: one of the agreement, or another. *)
Inductive ArNetworkValue : Type :=
| ArAgreeRandom (v : AgreeRandomValue)
| ArOther.

Definition match_com_val (value : AgreeRandomValue) : option (seq Commitment) :=
  if value is CommitmentValue cv then Some cv else None.

Definition match_key_open_val (value : AgreeRandomValue) : option (seq (PrfKey * Opening)) :=
  if value is KeyOpenValue kov then Some kov else None.

Definition match_key_val (value : AgreeRandomValue) : option (seq PrfKey) :=
  if value is KeyValue kv then Some kv else None.

Definition check_rcv_len (rcv_len expect_len : nat) : Res string unit :=
  if rcv_len != expect_len then Err "have received another number of values than expected"%string else Ok tt.

Definition check_and_unpack {T : Type} (received_values : seq (Role * ArNetworkValue)) (num_parties : nat)
    (variant_match : AgreeRandomValue -> option (seq T)) : Res string (seq (seq T)) :=
  if num_parties == 0 then Panic
  else
    let* _ := check_rcv_len (size received_values) (num_parties - 1) in
    rfold (fun rcv_values (sent : Role * ArNetworkValue) =>
      if sent.2 is ArAgreeRandom ar_value then
        if variant_match ar_value is Some value then role_index_mut rcv_values sent.1 (fun=> value)
        else Err "Have not received a value of the expected type!"%string
      else Err "Have not received an AgreeRandomValue!"%string) (nseq num_parties [::]) received_values.

Definition check_and_unpack_coms rcv_coms (num_parties : nat) := check_and_unpack rcv_coms num_parties match_com_val.
Definition check_and_unpack_keys_openings rcv_ko (num_parties : nat) := check_and_unpack rcv_ko num_parties match_key_open_val.
Definition check_and_unpack_keys rcv_k (num_parties : nat) := check_and_unpack rcv_k num_parties match_key_val.

(** ** Vectors of vectors *)

(** [vec[p].push(a)] and [vec[p].pop()]. *)
Definition push_at {T : Type} (vec : seq (seq T)) (p : Role) (a : T) : Res string (seq (seq T)) :=
  role_index_mut vec p (fun l => rcons l a).

Definition pop_at {T : Type} (vec : seq (seq T)) (p : Role) : Res string (option T * seq (seq T)) :=
  let* l := role_index vec p in
  if rev l is a :: l' then let* vec' := role_index_mut vec p (fun=> rev l') in Ok (Some a, vec')
  else Ok (None, vec).

(** ** Verification *)

(** One party of a set: the key of the set so far, and what is left of the vectors. *)
Definition xor_party (own_role : Role) (session_id round_id : Z)
    (acc : seq Z * (seq (seq (PrfKey * Opening)) * seq (seq (PrfKey * Opening)) * seq (seq Commitment))) (p : Role)
    : Res string (seq Z * (seq (seq (PrfKey * Opening)) * seq (seq (PrfKey * Opening)) * seq (seq Commitment))) :=
  let: (s, (keys_opens, rcv_keys_opens, rcv_coms)) := acc in
  if p == own_role :> nat then
    let* k := pop_at keys_opens p in
    if k.1 is Some ko then Ok (xor_u8_arr_in_place s ko.1, (k.2, rcv_keys_opens, rcv_coms))
    else Err "could not find my own key!"%string
  else
    let* k := pop_at rcv_keys_opens p in
    if k.1 is Some ko then
      let* c := pop_at rcv_coms p in
      if c.1 is Some com then
        match verify ko.1 p session_id round_id com ko.2 with
        | Ok _ => Ok (xor_u8_arr_in_place s ko.1, (keys_opens, k.2, c.2))
        | Err _ => Err "Commitment verification has failed for a party!"%string
        | Panic => Panic
        | Timeout => Timeout
        end
      else Err "could not find CommitmentValue for a party!"%string
    else Err "could not find KeyOpenValue for a party!"%string.

(** One set. *)
Definition xor_set (own_role : Role) (session_id round_id : Z)
    (acc : seq PrfKey * (seq (seq (PrfKey * Opening)) * seq (seq (PrfKey * Opening)) * seq (seq Commitment))) (set : seq Role)
    : Res string (seq PrfKey * (seq (seq (PrfKey * Opening)) * seq (seq (PrfKey * Opening)) * seq (seq Commitment))) :=
  let* sv := rfold (xor_party own_role session_id round_id) (nseq KEY_BYTE_LEN 0%Z, acc.2) set in
  Ok (rcons acc.1 sv.1, sv.2).

Definition verify_and_xor_keys (own_role : Role) (session_id round_id : Z) (psets : seq (seq Role))
    (keys_opens rcv_keys_opens : seq (seq (PrfKey * Opening))) (rcv_coms : seq (seq Commitment)) : Res string (seq PrfKey) :=
  let* r := rfold (xor_set own_role session_id round_id) ([::], (keys_opens, rcv_keys_opens, rcv_coms)) (rev psets) in
  Ok (rev r.1).

(** One party of a set: its key is compared. *)
Definition compare_party (self_role : Role) (my_key : PrfKey) (rcv_keys : seq (seq PrfKey)) (p : Role)
    : Res string (seq (seq PrfKey)) :=
  if p != self_role :> nat then
    let* k := pop_at rcv_keys p in
    if k.1 is Some k' then
      if ~~ bytes_eqb k' my_key then Err "received a key from a party that does not match my own!"%string else Ok k.2
    else Err "could not find key value for a party!"%string
  else Ok rcv_keys.

(** One set: the key of the party is the one to compare with. *)
Definition compare_set (self_role : Role) (acc : seq PrfKey * (seq (seq PrfKey) * seq (seq PrfKey))) (set : seq Role)
    : Res string (seq PrfKey * (seq (seq PrfKey) * seq (seq PrfKey))) :=
  let* k := pop_at acc.2.1 self_role in
  if k.1 is Some my_key then
    let* rcv := rfold (compare_party self_role my_key) acc.2.2 set in
    Ok (rcons acc.1 my_key, (k.2, rcv))
  else Err "could not find my own key!"%string.

Definition verify_keys_equal (self_role : Role) (psets : seq (seq Role)) (keys rcv_keys : seq (seq PrfKey))
    : Res string (seq PrfKey) :=
  let* r := rfold (compare_set self_role) ([::], (keys, rcv_keys)) (rev psets) in Ok (rev r.1).

(** ** The protocols *)

(** Results that end the exchange when they are no value. *)
Definition elift {A : Type} (r : Res string A) : Exchange ArNetworkValue A := Finished r.

Section Party.
Variables (num_parties threshold : nat) (my_role : Role) (session_id round_id : Z).

(** What the generator of the session fills in, call after call. *)
Variable fill_bytes : nat -> seq Z.

Definition compute_party_sets : seq (seq Role) := party_sets combinations (iota 1 num_parties) threshold my_role.

(** The messages to the other parties. *)
Definition to_others {T : Type} (wrap : T -> AgreeRandomValue) (vec : seq T) : Res string (seq (Role * ArNetworkValue)) :=
  rmap (fun p => if onth vec (p - 1) is Some v then Ok (p : Role, ArAgreeRandom (wrap v)) else Panic)
    [seq p <- iota 1 num_parties | p != my_role].

(** The values that the party draws for its sets, with their commitments. *)
Definition draw_keys : Res string (seq (seq (PrfKey * Opening)) * seq (seq Commitment)) :=
  rfold (fun acc (iset : nat * seq Role) =>
    let s := fill_bytes (2 * iset.1) in
    let* co := commit s my_role session_id round_id (fill_bytes (2 * iset.1 + 1)) in
    rfold (fun (acc : seq (seq (PrfKey * Opening)) * seq (seq Commitment)) p =>
      let* keys_opens := push_at acc.1 p (s, co.2) in
      let* coms := push_at acc.2 p co.1 in
      Ok (keys_opens, coms)) acc iset.2)
  (nseq num_parties [::], nseq num_parties [::]) (enumerate compute_party_sets).

Definition agree_random_communication (coms : seq (seq Commitment)) (keys_opens : seq (seq (PrfKey * Opening)))
    : Exchange ArNetworkValue (seq (seq Commitment) * seq (seq (PrfKey * Opening))) :=
  let% coms_to_send := elift (to_others CommitmentValue coms) in
  let% received_coms := exchange coms_to_send in
  let% rcv_coms := elift (check_and_unpack_coms received_coms num_parties) in
  let% key_open_to_send := elift (to_others KeyOpenValue keys_opens) in
  let% received_keys := exchange key_open_to_send in
  let% rcv_keys_opens := elift (check_and_unpack_keys_openings received_keys num_parties) in
  Finished (Ok (rcv_coms, rcv_keys_opens)).

Definition passive_agree_random : Exchange ArNetworkValue (seq PrfKey) :=
  let% drawn := elift draw_keys in
  let% rcv := agree_random_communication drawn.2 drawn.1 in
  elift (verify_and_xor_keys my_role session_id round_id compute_party_sets drawn.1 rcv.2 rcv.1).

(** The keys that the party holds with each party. *)
Definition shared_keys (ars : seq PrfKey) : Res string (seq (seq PrfKey)) :=
  rfold (fun keys (iset : nat * seq Role) =>
    rfold (fun keys p => if onth ars iset.1 is Some k then push_at keys p k else Panic) keys iset.2)
  (nseq num_parties [::]) (enumerate compute_party_sets).

Definition abort_agree_random : Exchange ArNetworkValue (seq PrfKey) :=
  let% ars := passive_agree_random in
  if size ars != size compute_party_sets then Finished Panic
  else
    let% keys := elift (shared_keys ars) in
    let% key_to_send := elift (to_others KeyValue keys) in
    let% received_keys := exchange key_to_send in
    let% rcv_keys := elift (check_and_unpack_keys received_keys num_parties) in
    elift (verify_keys_equal my_role compute_party_sets keys rcv_keys).
End Party.
End AgreeRandom.
