(* ===== verification/AgreeRandomProps.v ===== *)
(** * What the agreement on keys gives (core/threshold-execution/src/small_execution/agree_random.rs)

    With abort, honest parties that end hold the same key for every set that they share,
    whatever the others send, so that pseudorandom secret sharing can be initialised from
    the keys; and when all messages are delivered every party ends with the exclusive or
    of the values that the members of a set drew. *)

From Stdlib Require Import String ZArith Lia.
From mathcomp Require Import boot.
From mathcomp Require Import ssralg poly.
From S2P Require Import Prelude SsrLia Role Constants PolyOps Structure Matrix Shamir Protocol Prf Prss PrssProps SmallOffline AgreeRandom.

Set Implicit Arguments.
Unset Strict Implicit.
Unset Printing Implicit Defensive.

(** ** Vectors indexed by roles *)

Section Vectors.
Variables (n : nat) (T : Type).
Implicit Types (f : nat -> seq T) (p : nat).

Definition role_vec f : seq (seq T) := [seq f q | q <- iota 1 n].

Definition set_role f p (l : seq T) : nat -> seq T := fun q => if q == p then l else f q.

Lemma role_vec_ext f g : (forall q, (0 < q <= n)%N -> f q = g q) -> role_vec f = role_vec g.
Proof. by move=> fg; apply/eq_in_map => q; rewrite mem_iota add1n ltnS; apply: fg. Qed.

Lemma update_nth_map f (g : seq T -> seq T) s m i :
  update_nth g i [seq f q | q <- iota s m] = [seq if q == (s + i)%N then g (f q) else f q | q <- iota s m].
Proof.
elim: m s i => [|m IHm] s [|i] //=.
  rewrite addn0 eqxx; congr (_ :: _); apply/eq_in_map => q; rewrite mem_iota => /andP[lt_q _].
  by rewrite eqn_leq [(q <= s)%N]leqNgt lt_q.
have /negbTE-> : s != (s + i.+1)%N by rewrite -{1}[s]addn0 eqn_add2l.
by rewrite IHm addSnnS.
Qed.

Lemma role_vec_mut f p g : (0 < p <= n)%N -> role_index_mut (E := string) (role_vec f) p g = Ok (role_vec (set_role f p (g (f p)))).
Proof.
move=> range_p; rewrite /role_index_mut /role_vec role_index_iota // rbind_Ok /get_mut_from /zero_based.
case: p range_p => // p range_p; rewrite [rbind _ _]/= Nat.sub_0_r update_nth_map add1n; congr Ok.
by apply: eq_map => q; rewrite /set_role; case: eqP => // ->.
Qed.

Lemma role_vec_nseq : nseq n [::] = role_vec (fun=> [::]).
Proof. by rewrite /role_vec -[in LHS](size_iota 1 n); elim: (iota 1 n) => //= q l ->. Qed.

Lemma push_vec f p a : (0 < p <= n)%N -> push_at (role_vec f) p a = Ok (role_vec (set_role f p (rcons (f p) a))).
Proof. exact: role_vec_mut. Qed.

Lemma pop_vec f p : (0 < p <= n)%N -> pop_at (role_vec f) p =
  Ok (if rev (f p) is a :: l then (Some a, role_vec (set_role f p (rev l))) else (None, role_vec f)).
Proof.
move=> range_p; rewrite /pop_at /role_vec role_index_iota // rbind_Ok -/(role_vec f).
by case: (rev (f p)) => // a l; rewrite role_vec_mut.
Qed.

Lemma pop_vec_rcons f p l a : (0 < p <= n)%N -> f p = rcons l a -> pop_at (role_vec f) p = Ok (Some a, role_vec (set_role f p l)).
Proof. by move=> range_p eq_f; rewrite pop_vec // eq_f rev_rcons revK. Qed.

Lemma pop_vec_inv f p o vec : (0 < p <= n)%N -> pop_at (role_vec f) p = Ok (Some o, vec) ->
  exists2 l, f p = rcons l o & vec = role_vec (set_role f p l).
Proof.
move=> range_p; rewrite pop_vec //; case eq_f: (rev (f p)) => [|a l] // [<- <-].
by exists (rev l) => //; rewrite -rev_cons -eq_f revK.
Qed.
End Vectors.

(** A loop over numbered elements whose step depends on the element only. *)
Lemma rfold_enumerate (E S : Type) (A : eqType) (f : S -> nat * A -> Res E S) (g : S -> A -> Res E S) (a0 : A) v (l : seq A) :
  (forall i x v, onth l i = Some x -> f v (i, x) = g v x) -> rfold f v (enumerate l) = rfold g v l.
Proof.
move=> fg; rewrite (enumerateE a0) rfold_map -[in RHS](mkseq_nth a0 l) /mkseq rfold_map.
have: {subset iota 0 (size l) <= iota 0 (size l)} by [].
elim: {1 3 4}(iota 0 (size l)) v => //= i ks IHks v sub_i; rewrite fg.
  by rewrite (onth_nth a0) //; have := sub_i i (mem_head _ _); rewrite mem_iota0.
by case: (g v _) => //= v'; apply: IHks => k in_k; apply: sub_i; rewrite inE in_k orbT.
Qed.

Lemma onth_lt (A : Type) (l : seq A) k a : onth l k = Some a -> (k < size l)%N.
Proof. by elim: l k => [|b l IHl] [|k] //=; apply: IHl. Qed.

(** The parties of a set. *)
Definition members_ok (n : nat) (s : seq nat) : Prop := uniq s /\ {in s, forall p, 0 < p <= n}%N.

Lemma members_ok_cons n p s : members_ok n (p :: s) -> [/\ (0 < p <= n)%N, p \notin s & members_ok n s].
Proof.
case=> /andP[notin uniq_s] range; split=> //; first exact: (range p (mem_head _ _)).
by split=> // q in_q; apply: range; rewrite inE in_q orbT.
Qed.

Lemma push_set n (T : Type) (f : nat -> seq T) (a : T) (s : seq nat) : members_ok n s ->
  rfold (fun vec p => push_at vec p a) (role_vec n f) s = Ok (role_vec n (fun q => if q \in s then rcons (f q) a else f q)).
Proof.
elim: s f => [|p s IHs] f //= /members_ok_cons[range_p notin ok_s]; rewrite push_vec // rbind_Ok IHs //; congr Ok.
apply: role_vec_ext => q _; rewrite /set_role inE; case: (q =P p) => [->|_] //=.
by rewrite (negbTE notin).
Qed.

(** The keys that a party holds with each party. *)
Lemma push_sets n (T : Type) (a : seq nat -> T) (psets : seq (seq nat)) (f : nat -> seq T) :
  {in psets, forall s, members_ok n s} ->
  rfold (fun vec s => rfold (fun vec p => push_at vec p (a s)) vec s) (role_vec n f) psets =
  Ok (role_vec n (fun q => f q ++ [seq a s | s <- psets & q \in s])).
Proof.
elim: psets f => [|s psets IHp] f ok_p /=; first by congr Ok; apply: role_vec_ext => q _; rewrite cats0.
rewrite push_set; first exact: (ok_p s (mem_head _ _)).
rewrite rbind_Ok IHp => [s' in_s|]; first by apply: ok_p; rewrite inE in_s orbT.
by congr Ok; apply: role_vec_ext => q _; case: ifP => //= _; rewrite cat_rcons.
Qed.

(** The same for two vectors. *)
Lemma push_pair_set n (T U : Type) (f : nat -> seq T) (g : nat -> seq U) (a : T) (b : U) (s : seq nat) : members_ok n s ->
  rfold (fun (acc : seq (seq T) * seq (seq U)) p =>
    let* x := push_at acc.1 p a in let* y := push_at acc.2 p b in Ok (x, y)) (role_vec n f, role_vec n g) s =
  Ok (role_vec n (fun q => if q \in s then rcons (f q) a else f q), role_vec n (fun q => if q \in s then rcons (g q) b else g q)).
Proof.
elim: s f g => [|p s IHs] f g //= /members_ok_cons[range_p notin ok_s]; rewrite !push_vec //= IHs //; congr (Ok (_, _)).
  by apply: role_vec_ext => q _; rewrite /set_role inE; case: (q =P p) => [->|_] //=; rewrite (negbTE notin).
by apply: role_vec_ext => q _; rewrite /set_role inE; case: (q =P p) => [->|_] //=; rewrite (negbTE notin).
Qed.

Lemma push_pair_sets n (T U : Type) (a : seq nat -> T) (b : seq nat -> U) (psets : seq (seq nat)) f g :
  {in psets, forall s, members_ok n s} ->
  rfold (fun acc s => rfold (fun (acc : seq (seq T) * seq (seq U)) p =>
    let* x := push_at acc.1 p (a s) in let* y := push_at acc.2 p (b s) in Ok (x, y)) acc s) (role_vec n f, role_vec n g) psets =
  Ok (role_vec n (fun q => f q ++ [seq a s | s <- psets & q \in s]), role_vec n (fun q => g q ++ [seq b s | s <- psets & q \in s])).
Proof.
elim: psets f g => [|s psets IHp] f g ok_p /=; first by congr (Ok (_, _)); apply: role_vec_ext => q _; rewrite cats0.
rewrite push_pair_set; first exact: (ok_p s (mem_head _ _)).
rewrite rbind_Ok IHp => [s' in_s|]; first by apply: ok_p; rewrite inE in_s orbT.
by congr (Ok (_, _)); apply: role_vec_ext => q _; case: ifP => //= _; rewrite cat_rcons.
Qed.

(** ** Messages *)

Lemma role_get_cons (A : Type) (p : Role) (a : A) m (q : Role) :
  role_get ((p, a) :: m) q = if p == q :> nat then Some a else role_get m q.
Proof. by rewrite /role_get /=; case: (p == q :> nat). Qed.

Lemma role_get_notin (A : Type) (m : seq (Role * A)) (q : nat) : q \notin [seq e.1 : nat | e <- m] -> role_get m q = None.
Proof.
elim: m => // -[p a] m IHm /=; rewrite inE negb_or eq_sym role_get_cons => /andP[/negbTE-> notin]; exact: IHm.
Qed.

Lemma role_index_out (E A : Type) (vec : seq A) (p : Role) : ~~ (0 < p <= size vec)%N -> role_index (E := E) vec p = Panic.
Proof.
case: p => // p; rewrite -leqNgt => le_v; rewrite /role_index /get_from /zero_based /= Nat.sub_0_r.
by rewrite (proj2 (List.nth_error_None vec p)) //; apply/leP.
Qed.

Section Messages.
Variables (n : nat) (T : Type) (variant : AgreeRandomValue -> option (seq T)).
Implicit Type received : seq (Role * ArNetworkValue).

(** The values of a map of messages, with those of [f] where there is none. *)
Definition unpacks received (f f' : nat -> seq T) : Prop := forall p : nat, (0 < p <= n)%N ->
  match role_get received p with
  | Some (ArAgreeRandom v) => variant v = Some (f' p)
  | Some ArOther => False
  | None => f' p = f p
  end.

Definition unpack_step (rcv_values : seq (seq T)) (sent : Role * ArNetworkValue) : Res string (seq (seq T)) :=
  if sent.2 is ArAgreeRandom ar_value then
    if variant ar_value is Some value then role_index_mut rcv_values sent.1 (fun=> value)
    else Err "Have not received a value of the expected type!"%string
  else Err "Have not received an AgreeRandomValue!"%string.

Lemma unpack_loop_inv received f vec : uniq [seq e.1 : nat | e <- received] ->
  rfold unpack_step (role_vec n f) received = Ok vec -> exists2 f', vec = role_vec n f' & unpacks received f f'.
Proof.
elim: received f => [|[p m] received IHr] f /= => [_ [<-]|/andP[notin uniq_r]]; first by exists f.
rewrite /unpack_step /=; case: m => [v|] //; case eq_v: (variant v) => [value|] //; rewrite -/unpack_step.
have [range_p|out] := boolP (0 < p <= n)%N; last by rewrite /role_index_mut role_index_out // size_map size_iota.
rewrite role_vec_mut // rbind_Ok => /(IHr _ uniq_r)[f' -> ok_f]; exists f' => // q range_q; have := ok_f q range_q.
rewrite role_get_cons; case: (p =P q) => [eq_p|neq] /=; last by rewrite /set_role; case: (q =P p) => // eq_p; case: neq.
by rewrite -eq_p role_get_notin // eq_v /set_role eqxx => ->.
Qed.

Lemma unpack_inv received vec : uniq [seq e.1 : nat | e <- received] -> check_and_unpack received n variant = Ok vec ->
  exists2 f, vec = role_vec n f & unpacks received (fun=> [::]) f.
Proof.
rewrite /check_and_unpack; case: (n == 0%N) => // uniq_r; case: (check_rcv_len _ _) => // [[]]; rewrite rbind_Ok role_vec_nseq.
exact: unpack_loop_inv.
Qed.

Lemma unpack_loop_ok received f : (forall e, List.In e received -> (0 < e.1 <= n)%N /\ exists2 v, e.2 = ArAgreeRandom v & variant v) ->
  exists vec, rfold unpack_step (role_vec n f) received = Ok vec.
Proof.
elim: received f => [|[p m] received IHr] f ok /=; first by eexists.
have [/= range_p [v -> some_v]] := ok _ (or_introl erefl); rewrite /unpack_step /=; case: (variant v) some_v => // value _.
by rewrite role_vec_mut // rbind_Ok; apply: IHr => e in_e; apply: ok; right.
Qed.

Lemma role_get_In received (p : Role) m : uniq [seq e.1 : nat | e <- received] -> List.In (p, m) received -> role_get received p = Some m.
Proof.
elim: received => // -[q m'] received IHr /= /andP[notin uniq_r] [[-> ->]|in_m]; rewrite role_get_cons ?eqxx //.
by case: eqP => [eq_q|_]; [move: notin; rewrite eq_q (In_map_mem (fun e => e.1 : nat) in_m) | apply: IHr].
Qed.

(** A full map of messages is unpacked. *)
Lemma unpack_ok received (me : nat) (f : nat -> seq T) : (0 < me <= n)%N ->
  perm_eq [seq e.1 : nat | e <- received] [seq p <- iota 1 n | p != me] ->
  (forall p, (0 < p <= n)%N -> p != me -> exists2 v, role_get received p = Some (ArAgreeRandom v) & variant v = Some (f p)) ->
  check_and_unpack received n variant = Ok (role_vec n (fun q => if q == me then [::] else f q)).
Proof.
move=> range_me roles values; have in_me : me \in iota 1 n by rewrite mem_iota add1n ltnS.
have uniq_r : uniq [seq e.1 : nat | e <- received] by rewrite (perm_uniq roles) filter_uniq ?iota_uniq.
have sz : size received = (n - 1)%N.
  rewrite -(size_map (fun e => e.1 : nat)) (perm_size roles) -rem_filter ?iota_uniq // size_rem // size_iota.
  by rewrite subn1.
rewrite /check_and_unpack (_ : (n == 0%N) = false); first by case: n range_me {roles values in_me sz} => //; case: me.
rewrite /check_rcv_len sz eqxx rbind_Ok role_vec_nseq.
have [|vec eq_v] := @unpack_loop_ok received (fun=> [::]).
  move=> [p m] in_e; have := In_map_mem (fun e => e.1 : nat) in_e; rewrite (perm_mem roles) mem_filter mem_iota add1n ltnS.
  case/andP=> neq range_p; split=> //; have [v get_p eq_f] := values p range_p neq.
  by exists v; [move: get_p; rewrite (role_get_In uniq_r in_e) => -[] | rewrite eq_f].
rewrite -[rfold _ _ _]/(rfold unpack_step (role_vec n (fun=> [::])) received) eq_v.
have [f' -> ok_f] := unpack_loop_inv uniq_r eq_v; congr Ok; apply: role_vec_ext => q range_q; have := ok_f q range_q.
case: (q =P me) => [->|/eqP neq]; first by rewrite role_get_notin // (perm_mem roles) mem_filter eqxx.
by have [v -> ->] := values q range_q neq => -[].
Qed.
End Messages.

Lemma to_othersE n (me : Role) (T : Type) (wrap : T -> AgreeRandomValue) (f : nat -> T) :
  to_others n me wrap [seq f p | p <- iota 1 n] = Ok [seq (p : Role, ArAgreeRandom (wrap (f p))) | p <- iota 1 n & p != me].
Proof.
apply: rmap_Ok => p; rewrite mem_filter mem_iota add1n ltnS => /andP[_ /andP[p_gt0 le_p]].
have lt_p : (p - 1 < n)%N by move: p_gt0 le_p; clear; ssrlia.
by rewrite (onth_nth (f p)) ?size_map ?size_iota // (nth_map 0%N) ?size_iota // nth_iota // subnKC.
Qed.

Lemma role_get_others (A : Type) n (me i : nat) (f : nat -> A) : (0 < i <= n)%N -> i != me ->
  role_get [seq (p : Role, f p) | p <- iota 1 n & p != me] i = Some (f i).
Proof.
move=> range_i neq; have in_i : i \in iota 1 n by rewrite mem_iota add1n ltnS.
elim: (iota 1 n) in_i => //= p l IHl; rewrite inE; case: (i =P p) => [<-|neq_p] /=.
  by rewrite neq /= role_get_cons eqxx.
by move=> /IHl get_i; case: ifP => // _; rewrite /= role_get_cons eq_sym; case: eqP.
Qed.

Lemma bytes_eqbP a b : reflect (a = b) (bytes_eqb a b).
Proof. by rewrite /bytes_eqb; case: List.list_eq_dec => [eq_ab|neq]; [left | right]. Qed.

(** ** The comparison of keys *)

Section Compare.
Variables (n : nat) (me : Role).

Lemma compare_set_inv key (s : seq nat) g vec : members_ok n s ->
  rfold (compare_party me key) (role_vec n g) s = Ok vec -> exists2 g', vec = role_vec n g' &
  forall p, g p = if (p \in s) && (p != me) then rcons (g' p) key else g' p.
Proof.
elim: s g => [|p s IHs] g /= => [_ [<-]|/members_ok_cons[range_p notin ok_s]]; first by exists g.
rewrite {1}/compare_party; case: (p =P me) => [eq_p|neq] /=.
  by move=> /(IHs _ ok_s)[g' -> ok_g]; exists g' => // q; rewrite inE ok_g; case: (q =P p) => [->|//]; rewrite eq_p eqxx andbF.
rewrite pop_vec //; case eq_g: (rev (g p)) => [|k l] //=; case: bytes_eqbP => //= eq_k.
move=> /(IHs _ ok_s)[g' -> ok_g]; exists g' => // q; have := ok_g q; rewrite /set_role inE; case: (q =P p) => [->|//] /=.
rewrite (negbTE notin) /= => <-; have /eqP -> : p <> me by [].
by rewrite -rev_cons -eq_k -eq_g revK.
Qed.

(** The loop over the sets, the last one first. *)
Lemma compare_sets_inv (psets : seq (seq nat)) ks f g r : {in psets, forall s, members_ok n s} -> (0 < me <= n)%N ->
  rfold (compare_set me) (ks, (role_vec n f, role_vec n g)) psets = Ok r ->
  exists K f_rest, [/\ size K = size psets, r.1 = ks ++ K, f me = f_rest ++ rev K
    & forall p, p != me -> exists g_rest, g p = g_rest ++ rev [seq sk.2 | sk <- zip psets K & p \in sk.1]].
Proof.
elim: psets ks f g => [|s psets IHp] ks f g ok_p range_me.
  by case=> <-; exists [::], (f me); split; rewrite ?cats0 // => p _; exists (g p); rewrite cats0.
rewrite [rfold _ _ _]/= {1}/compare_set /=; case eq_k: (pop_at _ _) => [[[k|] vec]|||] //=.
have [l eq_f ->] := pop_vec_inv range_me eq_k; case eq_c: (rfold _ _ s) => [vec'|||] //=.
have [g' -> ok_g] := compare_set_inv (ok_p s (mem_head _ _)) eq_c.
have ok_p' : {in psets, forall s, members_ok n s} by move=> s' in_s; apply: ok_p; rewrite inE in_s orbT.
move=> /(IHp _ _ _ ok_p' range_me)[K [f_rest [sz_K eq_r eq_f' eq_g]]].
exists (k :: K), f_rest; split=> /=; first by rewrite sz_K.
- by rewrite eq_r cat_rcons.
- by rewrite eq_f rev_cons -rcons_cat -eq_f' /set_role eqxx.
move=> p neq; have [g_rest eq_gp] := eq_g p neq; exists g_rest; rewrite ok_g neq andbT.
by case: ifP => _ //=; rewrite eq_gp rev_cons -rcons_cat.
Qed.

(** When the comparison ends well, the keys are those of the party, and every other party sent
    the keys of the sets that it is in last. *)
Lemma verify_keys_inv (psets : seq (seq nat)) (a : seq nat -> PrfKey) f g ks : {in psets, forall s, members_ok n s} ->
  (0 < me <= n)%N -> f me = [seq a s | s <- psets] ->
  verify_keys_equal me psets (role_vec n f) (role_vec n g) = Ok ks ->
  ks = [seq a s | s <- psets] /\ forall p, p != me -> exists g_rest, g p = g_rest ++ [seq a s | s <- psets & p \in s].
Proof.
move=> ok_p range_me eq_f; rewrite /verify_keys_equal; case eq_r: (rfold _ _ _) => [r|||] //= -[<-].
have ok_r : {in rev psets, forall s, members_ok n s} by move=> s; rewrite mem_rev; apply: ok_p.
have [K [f_rest [sz_K eq_K eq_fK eq_g]]] := compare_sets_inv ok_r range_me eq_r; rewrite size_rev in sz_K.
have sz_f : size f_rest = 0%N.
  by apply/eqP; rewrite -(eqn_add2r (size K)) -{1}(size_rev K) -size_cat -eq_fK eq_f size_map sz_K.
have eq_ks : rev K = [seq a s | s <- psets] by rewrite -eq_f eq_fK (size0nil sz_f).
split=> [|p /eq_g[g_rest ->]]; first by rewrite eq_K cat0s.
exists g_rest; congr (_ ++ _); rewrite -[K in zip _ K]revK eq_ks -rev_zip ?size_map // filter_rev map_rev revK.
by elim: (psets) => //= s l IHl; case: ifP => //= _; rewrite IHl.
Qed.

(** The comparison of equal keys. *)
Lemma compare_set_ok key (s : seq nat) (g g' : nat -> seq PrfKey) : members_ok n s ->
  (forall p, g p = if (p \in s) && (p != me) then rcons (g' p) key else g' p) ->
  rfold (compare_party me key) (role_vec n g) s = Ok (role_vec n g').
Proof.
elim: s g => [|p s IHs] g /= => [_ eq_g|/members_ok_cons[range_p notin ok_s] eq_g].
  by congr Ok; apply: role_vec_ext => q _; rewrite eq_g.
rewrite {1}/compare_party; case: (p =P me) => [eq_p|neq] /=.
  by apply: IHs => // q; rewrite eq_g inE; case: (q =P p) => [->|//]; rewrite eq_p eqxx !andbF.
have eq_gp : g p = rcons (g' p) key by rewrite eq_g mem_head; case: eqP.
rewrite (pop_vec_rcons range_p eq_gp) rbind_Ok /=; have -> : bytes_eqb key key by apply/bytes_eqbP.
rewrite /= IHs // => q; rewrite /set_role; case: (q =P p) => [->|neq_q]; first by rewrite (negbTE notin).
by rewrite eq_g inE; case: eqP.
Qed.

Lemma compare_sets_ok (a : seq nat -> PrfKey) (Q : seq (seq nat)) ks f g : {in Q, forall s, members_ok n s} -> (0 < me <= n)%N ->
  f me = [seq a s | s <- Q] -> (forall p, p != me -> g p = [seq a s | s <- Q & p \in s]) ->
  exists st, rfold (compare_set me) (ks, (role_vec n f, role_vec n g)) (rev Q) = Ok (ks ++ rev [seq a s | s <- Q], st).
Proof.
elim/last_ind: Q ks f g => [|Q s IHq] ks f g ok_q range_me eq_f eq_g; first by eexists; rewrite cats0.
rewrite rev_rcons [rfold _ _ _]/= {1}/compare_set [X in pop_at X]/= (pop_vec_rcons (l := [seq a s | s <- Q]) (a := a s) range_me); first by rewrite eq_f map_rcons.
rewrite rbind_Ok /=; pose g' p := if p == me then g p else [seq a s | s <- Q & p \in s].
rewrite (@compare_set_ok (a s) s g g') => [|p|]; first by apply: ok_q; rewrite mem_rcons mem_head.
  rewrite /g'; case: (p =P me) => [->|/eqP neq]; first by rewrite andbF.
  by rewrite eq_g // filter_rcons; case: ifP => //= _; rewrite map_rcons.
rewrite rbind_Ok; have [|||st eq_st] := IHq (rcons ks (a s)) (set_role f me [seq a s | s <- Q]) g' _ range_me.
- by move=> s' in_s; apply: ok_q; rewrite mem_rcons inE in_s orbT.
- by rewrite /set_role eqxx.
- by move=> p neq; rewrite /g' (negbTE neq).
by exists st; rewrite rbind_Ok eq_st map_rcons rev_rcons cat_rcons.
Qed.
End Compare.

(** ** The exclusive or of the contributions *)

Section Xor.
Variable shake256 : seq Z -> nat -> seq Z.
Variables (n : nat) (me : Role) (sid round_id : Z).
Variables (D : nat -> seq nat -> PrfKey * Opening) (C : nat -> seq nat -> Commitment).
Hypothesis verified : forall p s, verify shake256 (D p s).1 p sid round_id (C p s) (D p s).2 = Ok tt.

(** The key of a set. *)
Definition xor_key (s : seq nat) : PrfKey := foldl xor_u8_arr_in_place (nseq KEY_BYTE_LEN 0%Z) [seq (D p s).1 | p <- s].

Lemma xor_members_ok (s l : seq nat) z (f f' g g' : nat -> seq (PrfKey * Opening)) (h h' : nat -> seq Commitment) : members_ok n l ->
  (forall p, f p = if (p \in l) && (p == me) then rcons (f' p) (D p s) else f' p) ->
  (forall p, g p = if (p \in l) && (p != me) then rcons (g' p) (D p s) else g' p) ->
  (forall p, h p = if (p \in l) && (p != me) then rcons (h' p) (C p s) else h' p) ->
  rfold (xor_party shake256 me sid round_id) (z, (role_vec n f, role_vec n g, role_vec n h)) l =
  Ok (foldl xor_u8_arr_in_place z [seq (D p s).1 | p <- l], (role_vec n f', role_vec n g', role_vec n h')).
Proof.
elim: l z f g h => [|p l IHl] z f g h /= => [_ eq_f eq_g eq_h|/members_ok_cons[range_p notin ok_l] eq_f eq_g eq_h].
  by congr (Ok (_, (_, _, _))); apply: role_vec_ext => q _; rewrite ?eq_f ?eq_g ?eq_h.
have skip q (b : bool) : q != p -> (q \in p :: l) && b = (q \in l) && b by move=> neq; rewrite inE (negbTE neq).
case: (p =P me) => [eq_p|/eqP neq].
  have eq_fp : f p = rcons (f' p) (D p s) by rewrite eq_f mem_head eq_p eqxx.
  rewrite (pop_vec_rcons range_p eq_fp) rbind_Ok; apply: IHl => // q.
  - by rewrite /set_role; case: (q =P p) => [->|/eqP neq]; [rewrite (negbTE notin) | rewrite eq_f skip].
  - by rewrite eq_g; case: (q =P p) => [->|/eqP neq]; [rewrite (negbTE notin) eq_p eqxx andbF | rewrite skip].
  by rewrite eq_h; case: (q =P p) => [->|/eqP neq]; [rewrite (negbTE notin) eq_p eqxx andbF | rewrite skip].
have eq_gp : g p = rcons (g' p) (D p s) by rewrite eq_g mem_head neq.
have eq_hp : h p = rcons (h' p) (C p s) by rewrite eq_h mem_head neq.
rewrite (pop_vec_rcons range_p eq_gp) rbind_Ok /= (pop_vec_rcons range_p eq_hp) rbind_Ok /= verified rbind_Ok.
apply: IHl => // q.
- by rewrite eq_f; case: (q =P p) => [->|/eqP neq_q]; [rewrite (negbTE notin) (negbTE neq) andbF | rewrite skip].
- by rewrite /set_role; case: (q =P p) => [->|/eqP neq_q]; [rewrite (negbTE notin) | rewrite eq_g skip].
by rewrite /set_role; case: (q =P p) => [->|/eqP neq_q]; [rewrite (negbTE notin) | rewrite eq_h skip].
Qed.

Lemma xor_sets_ok (Q : seq (seq nat)) ks f g h : {in Q, forall s, members_ok n s} -> {in Q, forall s, me \in s} ->
  f me = [seq D me s | s <- Q] -> (forall p, p != me -> g p = [seq D p s | s <- Q & p \in s]) ->
  (forall p, p != me -> h p = [seq C p s | s <- Q & p \in s]) ->
  exists st, rfold (xor_set shake256 me sid round_id) (ks, (role_vec n f, role_vec n g, role_vec n h)) (rev Q) =
    Ok (ks ++ rev [seq xor_key s | s <- Q], st).
Proof.
elim/last_ind: Q ks f g h => [|Q s IHq] ks f g h ok_q in_q eq_f eq_g eq_h; first by eexists; rewrite cats0.
have in_s : s \in rcons Q s by rewrite mem_rcons mem_head.
pose f' := set_role f me [seq D me s | s <- Q].
pose g' p := if p == me then g p else [seq D p s | s <- Q & p \in s]; pose h' p := if p == me then h p else [seq C p s | s <- Q & p \in s].
have [|||||st eq_st] := IHq (rcons ks (xor_key s)) f' g' h'.
- by move=> s' in_s'; apply: ok_q; rewrite mem_rcons inE in_s' orbT.
- by move=> s' in_s'; apply: in_q; rewrite mem_rcons inE in_s' orbT.
- by rewrite /f' /set_role eqxx.
- by move=> p neq; rewrite /g' (negbTE neq).
- by move=> p neq; rewrite /h' (negbTE neq).
exists st; rewrite rev_rcons [rfold _ _ _]/= {1}/xor_set [X in (_, X)]/= (@xor_members_ok s s _ f f' g g' h h') => [|p|p|p|].
- exact: (ok_q s in_s).
- by rewrite /f' /set_role; case: (p =P me) => [->|_]; rewrite ?(in_q s in_s) ?eq_f ?map_rcons ?andbF.
- rewrite /g'; case: (p =P me) => [->|/eqP neq]; rewrite ?andbF // andbT eq_g // filter_rcons.
  by case: ifP => _ //; rewrite map_rcons.
- rewrite /h'; case: (p =P me) => [->|/eqP neq]; rewrite ?andbF // andbT eq_h // filter_rcons.
  by case: ifP => _ //; rewrite map_rcons.
by rewrite !rbind_Ok eq_st map_rcons rev_rcons cat_rcons.
Qed.
End Xor.

(** ** Agreement *)

Section Agreement.
Variable shake256 : seq Z -> nat -> seq Z.
Variable combinations : seq Role -> nat -> seq (seq Role).
Variables (n t : nat) (sid round_id : Z).
Hypothesis combinationsE : forall l k s, s \in combinations l k -> subseq s l && (size s == k).
Hypothesis combinations_uniq : forall l k, uniq (l : seq nat) -> uniq (combinations l k).

(** What the generators of the parties fill in. *)
Variable fill : Role -> nat -> seq Z.

Local Notation all_sets := (create_sets combinations (iota 1 n) t).
Local Notation sets_of i := (party_sets combinations (iota 1 n) t i).
Local Notation agreement i := (abort_agree_random shake256 combinations n t i sid round_id (fill i)).

Lemma uniq_sets i : uniq (sets_of i : seq (seq nat)).
Proof. by apply/filter_uniq/combinations_uniq/iota_uniq. Qed.

Lemma sets_members i : {in (sets_of i : seq (seq nat)), forall s, members_ok n s}.
Proof.
move=> s; rewrite mem_filter => /andP[_ /combinationsE/andP[sub_s _]]; split; first exact: subseq_uniq sub_s (iota_uniq _ _).
by move=> p /(mem_subseq sub_s); rewrite mem_iota add1n ltnS.
Qed.

(** The key of a set in the result of a party. *)
Definition key_of (i : Role) (ks : seq PrfKey) (s : seq nat) : PrfKey := nth [::] ks (index s (sets_of i : seq (seq nat))).

Lemma map_key_of i ks : size ks = size (sets_of i) -> ks = [seq key_of i ks s | s <- sets_of i].
Proof.
move=> sz; apply: (@eq_from_nth _ [::]) => [|k lt_k]; first by rewrite size_map.
by rewrite (nth_map [::]) -?sz // /key_of index_uniq ?uniq_sets // -sz.
Qed.

Lemma shared_keysE i ars (a := key_of i ars) : size ars = size (sets_of i) ->
  shared_keys combinations n t i ars = Ok (role_vec n (fun q => [seq a s | s <- sets_of i & q \in (s : seq nat)])).
Proof.
move=> sz; rewrite /shared_keys role_vec_nseq.
rewrite (rfold_enumerate (g := fun vec s => rfold (fun vec p => push_at vec p (a s)) vec s) [::]) => [k s vec eq_s|].
  have lt_k := onth_lt eq_s.
  move: eq_s; rewrite (onth_nth [::] lt_k) => -[<-].
  have -> : onth ars k = Some (a (nth [::] (sets_of i) k)).
    by rewrite (onth_nth [::]) ?sz // /a /key_of index_uniq ?uniq_sets.
  by [].
by rewrite push_sets //; apply: sets_members.
Qed.

(** What a party that ends has sent and received. *)
Lemma agreement_inv i received ks : (0 < i <= n)%N ->
  List.Forall (fun m : seq (Role * ArNetworkValue) => uniq [seq e.1 : nat | e <- m]) received ->
  play (agreement i) received = Ok ks ->
  [/\ ks = [seq key_of i ks s | s <- sets_of i],
      onth (sends (agreement i) received) 2 =
        Some [seq (p : Role, ArAgreeRandom (KeyValue [seq key_of i ks s | s <- sets_of i & p \in (s : seq nat)])) | p <- iota 1 n & p != i]
    & (2 < size received)%N /\ forall p v, (0 < p <= n)%N -> p != i -> role_get (nth [::] received 2) p = Some (ArAgreeRandom (KeyValue v)) ->
        exists rest, v = rest ++ [seq key_of i ks s | s <- sets_of i & p \in (s : seq nat)]].
Proof.
move=> range_i uniq_r; rewrite /abort_agree_random /passive_agree_random /agree_random_communication.
case: (draw_keys _ _ _ _ _ _ _ _) => [drawn|||] //=; case: (to_others _ _ _ _) => [coms|||] //=.
case: received uniq_r => [|m1 [|m2 received]] //= uniq_r; case: (check_and_unpack_coms _ _) => [rcv_coms|||] //=;
  case: (to_others _ _ _ _) => [key_open|||] //=.
case: (check_and_unpack_keys_openings _ _) => [rcv_ko|||] //=; case: (verify_and_xor_keys _ _ _ _ _ _ _ _) => [ars|||] //=.
case: eqP => //= sz; rewrite shared_keysE //=.
rewrite /role_vec to_othersE /=; case: received uniq_r => [|m3 received] //= uniq_r.
case eq_u: (check_and_unpack_keys m3 n) => [vec|||] //= eq_v.
have uniq_3 : uniq [seq e.1 : nat | e <- m3].
  by move: uniq_r => /List.Forall_cons_iff[_ /List.Forall_cons_iff[_ /List.Forall_cons_iff[]]].
have [g eq_g ok_g] := unpack_inv uniq_3 eq_u; rewrite eq_g in eq_v.
have [|eq_ks sent] := @verify_keys_inv n i (sets_of i) (key_of i ars) _ g ks (sets_members (i := i)) range_i _ eq_v.
  by congr map; apply/all_filterP/allP => s; rewrite mem_filter => /andP[].
have eq_a : ks = ars by rewrite eq_ks -map_key_of.
rewrite eq_a; split=> //; [exact: map_key_of | split=> // p v range_p neq get_p].
by have := ok_g p range_p; rewrite get_p /= => -[->]; apply: sent.
Qed.

(** The network delivers between honest parties: what one sends to another in a round is what
    the other receives from it in this round, if it still receives. *)
Definition delivered (honest : seq nat) (received : Role -> seq (seq (Role * ArNetworkValue))) : Prop :=
  (forall i, i \in honest -> List.Forall (fun m : seq (Role * ArNetworkValue) => uniq [seq e.1 : nat | e <- m]) (received i)) /\
  forall i j r m, i \in honest -> j \in honest -> i != j -> onth (sends (agreement j) (received j)) r = Some m ->
    (r < size (received i))%N -> role_get (nth [::] (received i) r) j = role_get m i.

Variables (honest : seq nat) (received : Role -> seq (seq (Role * ArNetworkValue))).
Hypothesis range_h : {in honest, forall i, 0 < i <= n}%N.
Hypothesis net_ok : delivered honest received.

Lemma common_sets i j : [seq s <- sets_of i | j \in (s : seq nat)] = [seq s <- all_sets | (i \in (s : seq nat)) && (j \in (s : seq nat))].
Proof. by rewrite /party_sets -filter_predI; apply: eq_filter => s /=; rewrite andbC. Qed.

(** Parties that end agree. *)
Lemma agreed_keys i j ks ks' s : i \in honest -> j \in honest -> s \in all_sets -> i \in (s : seq nat) -> j \in (s : seq nat) ->
  play (agreement i) (received i) = Ok ks -> play (agreement j) (received j) = Ok ks' -> key_of i ks s = key_of j ks' s.
Proof.
move=> hon_i hon_j in_s i_s j_s end_i end_j; have [eq_ij|neq] := i =P j; first by move: end_j; rewrite -eq_ij end_i => -[->].
have [uniq_r del] := net_ok; have neq_ij : i != j by apply/eqP.
have [_ _ [lt_r sent]] := agreement_inv (range_h hon_i) (uniq_r i hon_i) end_i.
have [_ sent_j _] := agreement_inv (range_h hon_j) (uniq_r j hon_j) end_j.
have := del i j 2%N _ hon_i hon_j neq_ij sent_j lt_r; rewrite role_get_others ?range_h //.
move=> /(sent j _ (range_h hon_j))[|rest]; first by rewrite eq_sym.
have -> : [seq s <- sets_of j | i \in (s : seq nat)] = [seq s <- sets_of i | j \in (s : seq nat)].
  by rewrite !common_sets; apply: eq_filter => s' /=; rewrite andbC.
move=> eq_k.
have rest0 : rest = [::].
  by apply/size0nil/eqP; move: (congr1 size eq_k); rewrite size_cat !size_map => /eqP; rewrite -[X in X == _]add0n eqn_add2r eq_sym.
move: eq_k; rewrite rest0 cat0s => /eq_in_map/(_ s)-> //.
by rewrite !mem_filter i_s j_s.
Qed.
End Agreement.

(** ** When all messages are delivered *)

Section Complete.
Variable shake256 : seq Z -> nat -> seq Z.
Variable combinations : seq Role -> nat -> seq (seq Role).
Variables (n t : nat) (sid round_id : Z) (fill : Role -> nat -> seq Z).
Hypothesis combinationsE : forall l k s, s \in combinations l k -> subseq s l && (size s == k).
Hypothesis combinations_uniq : forall l k, uniq (l : seq nat) -> uniq (combinations l k).
Hypothesis shake_size : forall m k, size (shake256 m k) = k.

Local Notation sets_of i := (party_sets combinations (iota 1 n) t i).
Local Notation agreement i := (abort_agree_random shake256 combinations n t i sid round_id (fill i)).

(** What a party draws for a set, with the opening, and its commitment. *)
Definition drawn (i : nat) (s : seq nat) : PrfKey * Opening :=
  (fill i (2 * index s (sets_of i : seq (seq nat))), fill i (2 * index s (sets_of i : seq (seq nat)) + 1)).

Definition commitment (i : nat) (s : seq nat) : Commitment :=
  hash_element shake256 DSEP_COMM
    (role_to_le_bytes i ++ u128_to_le_bytes sid ++ le_bytes 8 round_id ++ (drawn i s).1 ++ (drawn i s).2).

Lemma inner_hashE i s : commitment_inner_hash shake256 (drawn i s).1 i sid round_id (drawn i s).2 = Ok (commitment i s).
Proof. by rewrite /commitment_inner_hash {1}/hash_element /hash_element_w_size shake_size. Qed.

Lemma verifyE i s : verify shake256 (drawn i s).1 i sid round_id (commitment i s) (drawn i s).2 = Ok tt.
Proof. by rewrite /verify inner_hashE rbind_Ok; case: bytes_eqbP. Qed.

Lemma draw_keysE i : draw_keys shake256 combinations n t i sid round_id (fill i) =
  Ok (role_vec n (fun q => [seq drawn i s | s <- sets_of i & q \in (s : seq nat)]),
      role_vec n (fun q => [seq commitment i s | s <- sets_of i & q \in (s : seq nat)])).
Proof.
rewrite /draw_keys !role_vec_nseq; set step := fun acc s => rfold (fun (acc : seq (seq (PrfKey * Opening)) * seq (seq Commitment)) p =>
    let* x := push_at acc.1 p (drawn i s) in let* y := push_at acc.2 p (commitment i s) in Ok (x, y)) acc s.
rewrite (rfold_enumerate (g := step) [::]) => [k s acc eq_s|]; last by rewrite push_pair_sets //; apply: sets_members.
have lt_k := onth_lt eq_s; move: eq_s; rewrite (onth_nth [::] lt_k) => -[eq_s].
have eq_k : index s (sets_of i : seq (seq nat)) = k by rewrite -eq_s index_uniq // uniq_sets.
rewrite /commit -[fill i (2 * (k, s).1)%N]/(fill i (2 * k)%N) -[fill i (2 * (k, s).1 + 1)%N]/(fill i (2 * k + 1)%N).
by rewrite -eq_k (inner_hashE i s) !rbind_Ok.
Qed.

Variable received : Role -> seq (seq (Role * ArNetworkValue)).

(** Every party gets a message of each other party in the three rounds. *)
Hypothesis full : forall i, (0 < i <= n)%N -> size (received i) = 3%N /\
  forall r, (r < 3)%N -> perm_eq [seq e.1 : nat | e <- nth [::] (received i) r] [seq p <- iota 1 n | p != i].
Hypothesis net_ok : delivered shake256 combinations n t sid round_id fill (iota 1 n) received.

Lemma three_maps i : (0 < i <= n)%N -> received i = [:: nth [::] (received i) 0; nth [::] (received i) 1; nth [::] (received i) 2].
Proof. by move=> /full[]; case: (received i) => [|m1 [|m2 [|m3 [|m4 r]]]]. Qed.

Lemma unpack_round r i (T : Type) (variant : AgreeRandomValue -> option (seq T)) (wrap : seq T -> AgreeRandomValue) (F : nat -> nat -> seq T) :
  (r < 3)%N -> (0 < i <= n)%N -> (forall l, variant (wrap l) = Some l) ->
  (forall j, (0 < j <= n)%N -> onth (sends (agreement j) (received j)) r =
     Some [seq (p : Role, ArAgreeRandom (wrap (F j p))) | p <- iota 1 n & p != j]) ->
  check_and_unpack (nth [::] (received i) r) n variant = Ok (role_vec n (fun q => if q == i then [::] else F q i)).
Proof.
move=> lt_r range_i wrapE sent; have [sz roles] := full range_i; apply: unpack_ok (roles r lt_r) _ => // p range_p neq.
have in_n j : (0 < j <= n)%N -> j \in iota 1 n by rewrite mem_iota add1n ltnS.
have [_ del] := net_ok; exists (wrap (F p i)) => //.
rewrite (del i p r _ (in_n i range_i) (in_n p range_p) _ (sent p range_p)) ?sz //; first by rewrite eq_sym.
by rewrite role_get_others // eq_sym.
Qed.

Lemma swap_sets i q : [seq s <- sets_of q | i \in (s : seq nat)] = [seq s <- sets_of i | q \in (s : seq nat)].
Proof. by rewrite !common_sets; apply: eq_filter => s /=; rewrite andbC. Qed.

Lemma own_sets i : [seq s <- sets_of i | i \in (s : seq nat)] = sets_of i.
Proof. by apply/all_filterP/allP => s; rewrite mem_filter => /andP[]. Qed.

Lemma sent_coms j : (0 < j <= n)%N -> onth (sends (agreement j) (received j)) 0 =
  Some [seq (p : Role, ArAgreeRandom (CommitmentValue [seq commitment j s | s <- sets_of j & p \in (s : seq nat)])) | p <- iota 1 n & p != j].
Proof.
move=> range_j; rewrite /abort_agree_random /passive_agree_random /agree_random_communication draw_keysE /= to_othersE /=.
by case: (received j).
Qed.

Lemma rcv_coms i : (0 < i <= n)%N -> check_and_unpack_coms (nth [::] (received i) 0) n =
  Ok (role_vec n (fun q => if q == i then [::] else [seq commitment q s | s <- sets_of q & i \in (s : seq nat)])).
Proof.
by move=> range_i; apply: (unpack_round (wrap := CommitmentValue) (F := fun j p => [seq commitment j s | s <- sets_of j & p \in (s : seq nat)])) => //; apply: sent_coms.
Qed.

Lemma sent_keys_opens j : (0 < j <= n)%N -> onth (sends (agreement j) (received j)) 1 =
  Some [seq (p : Role, ArAgreeRandom (KeyOpenValue [seq drawn j s | s <- sets_of j & p \in (s : seq nat)])) | p <- iota 1 n & p != j].
Proof.
move=> range_j; rewrite /abort_agree_random /passive_agree_random /agree_random_communication draw_keysE /= to_othersE /=.
by rewrite three_maps //= rcv_coms //= to_othersE.
Qed.

Lemma rcv_keys_opens i : (0 < i <= n)%N -> check_and_unpack_keys_openings (nth [::] (received i) 1) n =
  Ok (role_vec n (fun q => if q == i then [::] else [seq drawn q s | s <- sets_of q & i \in (s : seq nat)])).
Proof.
by move=> range_i; apply: (unpack_round (wrap := KeyOpenValue) (F := fun j p => [seq drawn j s | s <- sets_of j & p \in (s : seq nat)])) => //; apply: sent_keys_opens.
Qed.

(** The key of a set: the exclusive or of what its members drew. *)
Definition agreed_key : seq nat -> PrfKey := xor_key drawn.

Lemma passive_keys i : (0 < i <= n)%N ->
  verify_and_xor_keys shake256 i sid round_id (sets_of i)
    (role_vec n (fun q => [seq drawn i s | s <- sets_of i & q \in (s : seq nat)]))
    (role_vec n (fun q => if q == i then [::] else [seq drawn q s | s <- sets_of q & i \in (s : seq nat)]))
    (role_vec n (fun q => if q == i then [::] else [seq commitment q s | s <- sets_of q & i \in (s : seq nat)])) =
  Ok [seq agreed_key s | s <- sets_of i].
Proof.
move=> range_i; rewrite /verify_and_xor_keys; set f := role_vec n _; set g := role_vec n _; set h := role_vec n _.
have [||||st eq_st] := @xor_sets_ok shake256 n i sid round_id drawn commitment verifyE (sets_of i) [::]
  (fun q => [seq drawn i s | s <- sets_of i & q \in (s : seq nat)])
  (fun q => if q == i then [::] else [seq drawn q s | s <- sets_of q & i \in (s : seq nat)])
  (fun q => if q == i then [::] else [seq commitment q s | s <- sets_of q & i \in (s : seq nat)]) (sets_members combinationsE (i := i)).
- by move=> s; rewrite mem_filter => /andP[].
- by rewrite own_sets.
- by move=> p /negbTE->; rewrite swap_sets.
- by move=> p /negbTE->; rewrite swap_sets.
by rewrite eq_st rbind_Ok /= revK.
Qed.

Lemma key_of_agreed i s : s \in (sets_of i : seq (seq nat)) -> key_of combinations n t i [seq agreed_key s | s <- sets_of i] s = agreed_key s.
Proof. by move=> in_s; rewrite /key_of (nth_map [::]) ?index_mem // nth_index. Qed.

Lemma held_keys i : shared_keys combinations n t i [seq agreed_key s | s <- sets_of i] =
  Ok (role_vec n (fun q => [seq agreed_key s | s <- sets_of i & q \in (s : seq nat)])).
Proof.
rewrite (shared_keysE combinationsE combinations_uniq) ?size_map //; congr Ok; apply: role_vec_ext => q _.
by apply/eq_in_map => s; rewrite mem_filter => /andP[_]; apply: key_of_agreed.
Qed.

Lemma sent_keys j : (0 < j <= n)%N -> onth (sends (agreement j) (received j)) 2 =
  Some [seq (p : Role, ArAgreeRandom (KeyValue [seq agreed_key s | s <- sets_of j & p \in (s : seq nat)])) | p <- iota 1 n & p != j].
Proof.
move=> range_j; rewrite /abort_agree_random /passive_agree_random /agree_random_communication draw_keysE /= to_othersE /=.
rewrite three_maps //= rcv_coms //= to_othersE /= rcv_keys_opens //= passive_keys //=.
by rewrite size_map eqxx /= held_keys /= to_othersE.
Qed.

Lemma rcv_keys i : (0 < i <= n)%N -> check_and_unpack_keys (nth [::] (received i) 2) n =
  Ok (role_vec n (fun q => if q == i then [::] else [seq agreed_key s | s <- sets_of q & i \in (s : seq nat)])).
Proof.
by move=> range_i; apply: (unpack_round (wrap := KeyValue) (F := fun j p => [seq agreed_key s | s <- sets_of j & p \in (s : seq nat)])) => //; apply: sent_keys.
Qed.

(** C20. Agreement on randomness: when every party follows the protocol and all messages are
    delivered, every party ends with the same keys, the key of a set being the exclusive or of the
    values that all its members drew for it. *)
Theorem agree_random_complete i : (0 < i <= n)%N -> play (agreement i) (received i) = Ok [seq agreed_key s | s <- sets_of i].
Proof.
move=> range_i; rewrite /abort_agree_random /passive_agree_random /agree_random_communication draw_keysE /= to_othersE /=.
rewrite three_maps //= rcv_coms //= to_othersE /= rcv_keys_opens //= passive_keys //=.
rewrite size_map eqxx /= held_keys /= to_othersE /= rcv_keys //= /verify_keys_equal.
have [||st eq_st] := @compare_sets_ok n i agreed_key (sets_of i) [::]
  (fun q => [seq agreed_key s | s <- sets_of i & q \in (s : seq nat)])
  (fun q => if q == i then [::] else [seq agreed_key s | s <- sets_of q & i \in (s : seq nat)]) (sets_members combinationsE (i := i)) range_i.
- by rewrite own_sets.
- by move=> p /negbTE->; rewrite swap_sets.
by rewrite eq_st rbind_Ok /= revK.
Qed.
End Complete.

(** ** Initialisation of pseudorandom secret sharing *)

Import GRing.Theory.
Local Open Scope ring_scope.

Section Initialised.
Context {R : comNzRingType} {X : ExceptionalSequence R} {PC : PRSSConversions R}.
Variables (invert : R -> Res string R) (aes128 : seq Z -> seq Z -> seq Z) (shake256 : seq Z -> nat -> seq Z).
Variable combinations : seq Role -> nat -> seq (seq Role).
Variables (n t : nat) (sid round_id : Z) (fill : Role -> nat -> seq Z).
Hypothesis invertE : inverts invert.
Hypothesis zero_point : get_from_exceptional_sequence 0 = Ok (0 : R).
Hypothesis embeds : forall i, (i <= n)%N -> exists x : R, get_from_exceptional_sequence i = Ok x.
Hypothesis le_t : (t <= n)%N.
Hypothesis combinationsE : forall l k s, s \in combinations l k -> subseq s l && (size s == k).
Hypothesis combinations_uniq : forall l k, uniq (l : seq nat) -> uniq (combinations l k).

Local Notation agreement i := (abort_agree_random shake256 combinations n t i sid round_id (fill i)).
Local Notation init i ars := (abort_prss_init invert combinations (iota 1 n) t i ars).

(** One key for each set. *)
Lemma common_key honest received (setup : Role -> PRSSSetup (R := R)) : {in honest, forall i, 0 < i <= n}%N ->
  delivered shake256 combinations n t sid round_id fill honest received ->
  (forall i, i \in honest -> init i (play (agreement i) (received i)) = Ok (setup i)) ->
  exists key, forall i, i \in honest -> setup i = party_setup invert combinations n t key i.
Proof.
move=> range_h net_ok inits; pose ks i := if play (agreement i) (received i) is Ok l then l else [::].
pose key (s : seq Role) := if [seq i <- honest | i \in (s : seq nat)] is j :: _ then key_of combinations n t j (ks j) s else [::].
have ends i : i \in honest -> play (agreement i) (received i) = Ok (ks i) /\ ('C(n, t) <= PRSS_SIZE_MAX)%N.
  move=> /inits; rewrite /abort_prss_init size_iota /ks; case: ltnP => // le_c.
  by case: (play _ _).
exists key => i hon_i; have [end_i small] := ends i hon_i; have := inits i hon_i; rewrite end_i.
have [uniq_r _] := net_ok.
have [eq_ks _ _] := agreement_inv combinationsE combinations_uniq (range_h i hon_i) (uniq_r i hon_i) end_i.
have -> : ks i = [seq key s | s <- party_sets combinations (iota 1 n) t i].
  rewrite {1}eq_ks; apply/eq_in_map => s; rewrite mem_filter => /andP[i_s in_s]; rewrite /key.
  case eq_f: [seq _ <- _ | _] => [|j l]; first by have : i \in [::] by rewrite -eq_f mem_filter i_s.
  have : j \in j :: l by apply: mem_head.
  rewrite -eq_f mem_filter => /andP[j_s hon_j]; have [end_j _] := ends j hon_j.
  exact: (agreed_keys combinationsE combinations_uniq range_h net_ok hon_i hon_j in_s i_s j_s end_i end_j).
by rewrite (abort_prss_initE key invertE zero_point embeds le_t combinationsE) // => -[].
Qed.

(** C14. Initialisation with abort: whatever the corrupt parties send, when the network delivers
    between the honest parties, those of them that end initialise for one key of each set; so in
    every session the values that they derive are the evaluations of one polynomial of degree at
    most [t] for a random value, and of one polynomial of degree at most [2t] with secret zero for
    a share of zero. *)
Theorem prss_init_agrees honest received (setup : Role -> PRSSSetup (R := R)) : {in honest, forall i, 0 < i <= n}%N ->
  delivered shake256 combinations n t sid round_id fill honest received ->
  (forall i, i \in honest -> init i (play (agreement i) (received i)) = Ok (setup i)) ->
  forall session_id, exists P Q : Z -> {poly R},
  (forall ctr, of_degree t (P ctr) /\ of_degree (t + t) (Q ctr) /\ secret (Q ctr) = 0) /\
  forall i c amount, i \in honest -> let state c := with_counters (new_prss_session_state (setup i) session_id) c in
    ((prss_ctr c + Z.of_nat amount <= 2 ^ 112)%Z -> prss_next_vec aes128 (state c) i amount =
       Ok ([seq (P (prss_ctr c + Z.of_nat k)%Z).[point i] | k <- iota 0 amount], state (add_counters c 0 amount 0))) /\
    ((przs_ctr c + Z.of_nat amount <= 2 ^ 104)%Z -> przs_next_vec aes128 (state c) i t amount =
       Ok ([seq (Q (przs_ctr c + Z.of_nat k)%Z).[point i] | k <- iota 0 amount], state (add_counters c 0 0 amount))).
Proof.
move=> range_h net_ok inits session_id; have [key setups] := common_key range_h net_ok inits.
exists (prss_poly invert aes128 combinations n t key session_id), (przs_poly invert aes128 combinations n t key session_id).
split=> [ctr|i c amount hon_i state].
  have [deg_p _] := prss_poly_ok aes128 key session_id invertE zero_point embeds le_t combinationsE ctr.
  by have [] := przs_poly_ok aes128 key session_id invertE zero_point embeds le_t combinationsE ctr.
rewrite /state (setups i hon_i) -[with_counters _ c]/(party_state invert combinations n t key session_id i c).
by split=> le_c; [apply: prss_next_vecE | apply: przs_next_vecE] => //; apply: range_h.
Qed.
End Initialised.
