(* ===== verification/PrssRing.v ===== *)
(** * The extensions as rings of pseudorandom secret sharing
    (core/threshold-algebra/src/galois_rings/common.rs)

    The residue polynomials have the conversions that pseudorandom secret sharing asks
    for, their inversion finds the inverse of every unit, and the point of index zero is
    zero. *)

From Stdlib Require Import String ZArith Lia.
From mathcomp Require Import boot.
From mathcomp Require Import ssralg poly polydiv zmodp qpoly ring_tactic.
From S2P Require Import Prelude SsrLia Role PolyOps Structure Hensel Karatsuba ResiduePoly ResidueRing GaloisRing.
From S2P Require Import Newton Degrees OnlineRing Prss PrssProps.

Set Implicit Arguments.
Unset Strict Implicit.
Unset Printing Implicit Defensive.

Import GRing.Theory.
Local Open Scope ring_scope.

Section Conversions.
Variables (K d : nat) (F : fieldType).
Hypothesis K_gt0 : (0 < K)%N.
Hypothesis range_d : (3 <= d <= 8)%N.
Context {P : G2P F d}.
Local Notation ZK := 'Z_(2 ^ K).
Local Notation R := {poly %/ Poly (modulus ZK d)}.
Local Notation cls := (residue_class d).

(** [NUM_BITS_STAT_SEC_BASE_RING.div_ceil(128)]. *)
Definition ring_num_u128 : nat := divn (K + 127) 128.

(** [value as u128], as an element of the base ring. *)
Definition z_from_u128 (c : Z) : ZK := from_u128 K (Z.to_nat c).
Definition z_from_i128 (value : Z) : ZK := z_from_u128 (value mod 2 ^ 128)%Z.

(** [from_u128_chunks], with its assertion. *)
Definition ring_from_u128_chunks (chunks : seq Z) : Res string R :=
  if size chunks == d then Ok (cls [seq z_from_u128 c | c <- chunks]) else Panic.

(** [from_i128] and [mul_by_i128] of the extensions of [Z128]. *)
Definition ring_from_i128 (value : Z) : Res string R := Ok (cls (rp_from_scalar d (z_from_i128 value))).
Definition ring_mul_by_i128 (q : R) (scalar : Z) : Res string R := Ok (cls (rp_mul_const (coefs q) (z_from_i128 scalar))).

(** [from_i128] of the extensions of [Z64], and the default [mul_by_i128]. *)
Definition ring_no_i128 (_ : Z) : Res string R := Panic.
Definition mul_by_i128_default (q : R) (scalar : Z) : Res string R := let* b := ring_no_i128 scalar in Ok (q * b).

Lemma ring_from_u128_chunks_Ok chunks : (K <= 128)%N -> size chunks = (d * ring_num_u128)%N ->
  exists a, ring_from_u128_chunks chunks = Ok a.
Proof.
move=> le_K sz; exists (cls [seq z_from_u128 c | c <- chunks]); rewrite /ring_from_u128_chunks ifT // sz /ring_num_u128.
have -> : ((K + 127) %/ 128 = 1)%N by apply/eqP; rewrite eqn_leq leq_divRL // -ltnS ltn_divLR //; ssrlia.
by rewrite muln1.
Qed.

Lemma ring_mul_by_i128E q z : ring_mul_by_i128 q z = let* b := ring_from_i128 z in Ok (q * b).
Proof.
rewrite /ring_mul_by_i128 /ring_from_i128 /=; congr Ok.
rewrite /residue_class Poly_rp_mul_const rmorphM Poly_rp_from_scalar //; congr (_ * _).
exact: coefsK.
Qed.

Lemma ring_mul_by_i128_defaultE q z : mul_by_i128_default q z = let* b := ring_no_i128 z in Ok (q * b).
Proof. by []. Qed.

Hypothesis le_K : (K <= 128)%N.

Definition prss_conversions128 : PRSSConversions R :=
  {| EXTENSION_DEGREE := d; num_u128_base_ring := ring_num_u128; from_u128_chunks := ring_from_u128_chunks;
     from_i128 := ring_from_i128; mul_by_i128 := ring_mul_by_i128;
     from_u128_chunks_Ok := fun cs => @ring_from_u128_chunks_Ok cs le_K; mul_by_i128E := ring_mul_by_i128E |}.

Definition prss_conversions64 : PRSSConversions R :=
  {| EXTENSION_DEGREE := d; num_u128_base_ring := ring_num_u128; from_u128_chunks := ring_from_u128_chunks;
     from_i128 := ring_no_i128; mul_by_i128 := mul_by_i128_default;
     from_u128_chunks_Ok := fun cs => @ring_from_u128_chunks_Ok cs le_K; mul_by_i128E := ring_mul_by_i128_defaultE |}.

(** ** What the sharing asks of the ring *)

Lemma word128_zero : (2 ^ 128)%:R = 0 :> R.
Proof. by rewrite -(subnK le_K) expnD natrM natrX natrX [X in _ * X]ring_two_nilpotent ?mulr0. Qed.

(** A difference of naturals, reduced modulo a number that is zero in the ring. *)
Lemma wrapped_difference (S : comNzRingType) (N y v : nat) : (0 < N)%N -> N%:R = 0 :> S ->
  (Z.to_nat ((Z.of_nat y - Z.of_nat v) mod Z.of_nat N))%:R = y%:R - v%:R :> S.
Proof.
move=> N_gt0 N0; set z := (Z.of_nat y - Z.of_nat v)%Z.
have N_pos : (0 < Z.of_nat N)%Z by ssrlia.
have := Z.mod_pos_bound z _ N_pos; have := Z.div_mod z (Z.of_nat N); move: (z mod _)%Z (z / _)%Z => r q eq_z range_r.
apply/(canRL (addrK _)); rewrite -natrD; case: (Z_le_gt_dec 0 q) => [q_ge0|q_lt0].
  have -> : y = (Z.to_nat r + v + N * Z.to_nat q)%N by move: (eq_z); rewrite /z; clear -q_ge0 range_r N_pos; nia.
  by rewrite [RHS]natrD natrM N0 mul0r addr0.
have -> : (Z.to_nat r + v)%N = (y + N * Z.to_nat (- q))%N by move: (eq_z); rewrite /z; clear -q_lt0 range_r N_pos; nia.
by rewrite natrD natrM N0 mul0r addr0.
Qed.

Lemma ring_from_i128E y v : ring_from_i128 (Z.of_nat y - Z.of_nat v) = Ok (y%:R - v%:R).
Proof.
rewrite /ring_from_i128 /z_from_i128 /z_from_u128 from_u128E // class_scalar //; congr Ok.
have -> : (2 ^ 128)%Z = Z.of_nat (2 ^ 128)%N by rewrite -pow_Nat Nat2Z.inj_pow.
by apply: wrapped_difference word128_zero; rewrite expn_gt0.
Qed.

Lemma ring_zero_point : ring_get_from_exceptional_sequence K d 0 = Ok 0.
Proof.
rewrite ring_exceptionalE // leqNgt expn_gt0 /=; congr Ok.
by rewrite /bit_element big1 // => i _; rewrite /bit_of div0n mul0r.
Qed.

Lemma ring_embeds i : (i < 2 ^ d)%N -> exists x, ring_get_from_exceptional_sequence K d i = Ok x.
Proof. by move=> lt_i; rewrite ring_exceptionalE // leqNgt lt_i /=; eexists. Qed.

Lemma ring_inverts (gf_div : F -> F -> Res string F) debug_assertions : (2 ^ trunc_log 2 K = K)%N ->
  (forall x y : F, y != 0 -> gf_div x y = Ok (x / y)) -> inverts (invert_element (K := K) (P := P) gf_div debug_assertions).
Proof.
move=> pow_K gf_divE a b eq_ab; rewrite /invert_element.
have neq0 : bit_compose_ext P (coefs a) 0 != 0.
  rewrite element_residue //; apply/negP => /eqP res0; have := congr1 (@residue_of K d F P) eq_ab.
  by rewrite rmorphM // rmorph1 // /= res0 mul0r => /eqP; rewrite eq_sym oner_eq0.
have [c -> [sz_c eq_c]] := rp_invert_ok K_gt0 range_d debug_assertions pow_K gf_divE (size_coefs a) neq0.
exists (cls c) => //; have := congr1 cls eq_c; have [_ _ ->] := class_ops range_d sz_c (size_coefs a).
by rewrite coefsK // class_one // mulrC.
Qed.
End Conversions.
