(* ===== verification/SmallDecrypt.v ===== *)
(** * Noise-flooding decryption in a small session
    (core/threshold-execution/src/endpoints/decryption_non_wasm.rs and
    online/preprocessing/mod.rs)

    The masks come from pseudorandom secret sharing, without interaction.  Decryption
    opens the masked phases; partial decryption leaves the parties with their shares. *)

From Stdlib Require Import String ZArith Lia.
From mathcomp Require Import boot.
From mathcomp Require Import ssralg poly ring_tactic.
From S2P Require Import Prelude SsrLia Role Constants PolyOps Structure Shamir ErrorCorrection OpenList Protocol Triples BitOps BitRows.
From S2P Require Import GaloisRing BitAdder GenBits Distributions Reconstruct Decrypt Decryption.
From S2P Require Import Prf Prss PrssProps.

Set Implicit Arguments.
Unset Strict Implicit.
Unset Printing Implicit Defensive.

Import GRing.Theory.
Local Open Scope ring_scope.

(** ** The endpoints *)

Section Endpoints.
Context {R64 R128 : comNzRingType} {X : ExceptionalSequence R128} {B128 : BitRing R128} {PC : PRSSConversions R128}.
Variables (aes128 : seq Z -> seq Z -> seq Z) (par_min_chunk : nat).
Variables (W T : Type) (recomposer : BlockRecomposer W T) (threshold : nat).

(** [fill_from_small_session] of [NoiseFloodPreprocessing]. *)
Definition fill_from_small_session (self : InMemoryNoiseFloodPreprocessing R128) (own_role : Role)
    (prss_state : PRSSState (R := R128)) (amount : nat)
    : Res string (InMemoryNoiseFloodPreprocessing R128 * PRSSState (R := R128)) :=
  let* masks := mask_next_vec aes128 par_min_chunk prss_state own_role B_SWITCH_SQUASH amount in
  Ok (append_masks self masks.1, masks.2).

(** [init_prep_noiseflooding] of [SmallOfflineNoiseFloodSession]. *)
Definition init_prep_noiseflooding (own_role : Role) (prss_state : PRSSState (R := R128)) (num_ctxt : nat)
    : Res string (InMemoryNoiseFloodPreprocessing R128 * PRSSState (R := R128)) :=
  let sns_preprocessing := {| available_masks := [::] |} in
  let* masks := mask_next_vec aes128 par_min_chunk prss_state own_role B_SWITCH_SQUASH num_ctxt in
  Ok (append_masks sns_preprocessing masks.1, masks.2).

(** [decrypt_using_noiseflooding] for a small session, from the switched ciphertext on. *)
Definition small_decrypt_using_noiseflooding (own_role : Role) (prss_state : PRSSState (R := R128))
    (keys : PrivateKeySet R64 R128) (ct_large : seq LweCiphertext) (packing_factor : nat)
    (ddec_key_type : SnsDecryptionKeyType) : Prog R128 (T * PRSSState (R := R128)) :=
  let! preprocessing := PDone (init_prep_noiseflooding own_role prss_state (size ct_large)) in
  let! outputs := decrypt_noiseflood recomposer threshold preprocessing.1 keys ct_large packing_factor ddec_key_type in
  PDone (Ok (outputs.1, preprocessing.2)).

(** The loop over the blocks of [partial_decrypt_using_noiseflooding]. *)
Definition mask_blocks (keys : PrivateKeySet R64 R128) (ddec_key_type : SnsDecryptionKeyType)
    (preparation : InMemoryNoiseFloodPreprocessing R128) (ct_large : seq LweCiphertext)
    : Res string (seq R128 * InMemoryNoiseFloodPreprocessing R128) :=
  rfold (fun (st : seq R128 * InMemoryNoiseFloodPreprocessing R128) current_ct_block =>
    let* partial_decrypt := partial_decrypt128 keys current_ct_block ddec_key_type in
    let* mask := next_mask st.2 in
    Ok (rcons st.1 (partial_decrypt + mask.1), mask.2)) ([::], preparation) ct_large.

(** [partial_decrypt_using_noiseflooding] for a small session, from the switched ciphertext on. *)
Definition partial_decrypt_using_noiseflooding (own_role : Role) (prss_state : PRSSState (R := R128))
    (keys : PrivateKeySet R64 R128) (ct_large : seq LweCiphertext) (packing_factor : nat)
    (ddec_key_type : SnsDecryptionKeyType) : Res string (seq R128 * nat * PRSSState (R := R128)) :=
  let* preparation := init_prep_noiseflooding own_role prss_state (size ct_large) in
  let* shared_masked_ptxts := mask_blocks keys ddec_key_type preparation.1 ct_large in
  Ok (shared_masked_ptxts.1, packing_factor, preparation.2).
End Endpoints.

(** ** Masks as differences of naturals *)

Section Masks.
Context {R : comNzRingType} {X : ExceptionalSequence R} {PC : PRSSConversions R}.
Variables (invert : R -> Res string R) (aes128 : seq Z -> seq Z -> seq Z).
Variable combinations : seq Role -> nat -> seq (seq Role).
Variables (n t : nat) (key : seq Role -> PrfKey) (sid : Z).
Hypothesis invertE : inverts invert.
Hypothesis zero_point : get_from_exceptional_sequence 0 = Ok (0 : R).
Hypothesis embeds : forall i, (i <= n)%N -> exists x : R, get_from_exceptional_sequence i = Ok x.
Hypothesis le_t : (t <= n)%N.
Hypothesis combinationsE : forall l k s, s \in combinations l k -> subseq s l && (size s == k).
Hypothesis from_i128E : forall y v : nat, from_i128 (Z.of_nat y - Z.of_nat v) = Ok (y%:R - v%:R : R).
Local Notation all_sets := (create_sets combinations (iota 1 n) t).
Local Notation mask_at := (mask_poly invert aes128 combinations n t key sid).

Lemma has_i128 z : exists b : R, from_i128 z = Ok b.
Proof.
by have -> : z = (Z.of_nat (Z.to_nat z) - Z.of_nat (Z.to_nat (- z)))%Z by [lia]; rewrite from_i128E; eexists.
Qed.

(** The largest mask, and what a mask is above its negative. *)
Definition mask_bound (bd1 : Z) : nat := (size all_sets * Z.to_nat (2 * bd1))%N.
Definition mask_offset (bd1 ctr : Z) : nat :=
  (\sum_(s <- all_sets) Z.to_nat (mask_val aes128 key sid bd1 s ctr + 2 * bd1))%N.

Lemma mask_val_range bd1 s ctr : (1 <= bd1)%Z ->
  (- (2 * bd1) <= mask_val aes128 key sid bd1 s ctr <= 2 * bd1)%Z.
Proof.
move=> ge1; have bnd x : (0 <= x mod (2 * bd1) < 2 * bd1)%Z by apply: Z.mod_pos_bound; lia.
by rewrite /mask_val /phi_value; set x := encrypted _ _ _; set y := encrypted _ _ _; have := bnd x; have := bnd y; lia.
Qed.

Lemma mask_offset_le bd1 ctr : (1 <= bd1)%Z -> (mask_offset bd1 ctr <= 2 * mask_bound bd1)%N.
Proof.
move=> ge1; rewrite /mask_offset /mask_bound mulnCA mulnC -iter_addn_0 -count_predT -big_const_seq.
apply: leq_sum => s _; have := mask_val_range s ctr ge1; move: (mask_val _ _ _ _ _ _) => m range_m.
by apply/leP; rewrite -multE; lia.
Qed.

Lemma mask_secret bd1 ctr : (1 <= bd1)%Z ->
  of_degree t (mask_at bd1 ctr) /\ secret (mask_at bd1 ctr) = (mask_offset bd1 ctr)%:R - (mask_bound bd1)%:R.
Proof.
move=> ge1; split.
  by rewrite -[X in of_degree X]addn0; apply: (sets_poly_degree invertE zero_point embeds le_t combinationsE) => s; apply: size_polyC_leq1.
rewrite (sets_poly_secret combinations t invertE zero_point embeds) /mask_offset /mask_bound natr_sum natrM mulr_natl -iter_addr_0 -count_predT -big_const_seq -sumrB.
apply: eq_bigr => s _; rewrite hornerC /i128_val.
have := mask_val_range s ctr ge1; move: (mask_val _ _ _ _ _ _) => m range_m.
have {1}-> : m = (Z.of_nat (Z.to_nat (m + 2 * bd1)) - Z.of_nat (Z.to_nat (2 * bd1)))%Z by lia.
by rewrite from_i128E.
Qed.
End Masks.

(** ** Decryption *)

Section SmallNoiseFlood.
Context {R64 R128 : comNzRingType} {X : ExceptionalSequence R128} {B128 : BitRing R128} {PC : PRSSConversions R128}.
Variables (invert : R128 -> Res string R128) (aes128 : seq Z -> seq Z -> seq Z) (par_min_chunk : nat).
Variable combinations : seq Role -> nat -> seq (seq Role).
Variables (n t : nat) (key : seq Role -> PrfKey) (sid : Z).
Hypothesis invertE : inverts invert.
Hypothesis zero_point : get_from_exceptional_sequence 0 = Ok (0 : R128).
Hypothesis embeds : forall i, (i <= n)%N -> exists x : R128, get_from_exceptional_sequence i = Ok x.
Hypothesis le_t : (t <= n)%N.
Hypothesis combinationsE : forall l k s, s \in combinations l k -> subseq s l && (size s == k).
Hypothesis from_i128E : forall y v : nat, from_i128 (Z.of_nat y - Z.of_nat v) = Ok (y%:R - v%:R : R128).

Variable parties : seq Role.
Hypothesis range_parties : forall i, i \in (parties : seq nat) -> (0 < i <= n)%N.
Hypothesis char128 : @CHAR_LOG2 R128 B128 = 128%N.
Variables (W T : Type) (recomposer : BlockRecomposer W T).
Variables (ddec_key_type : SnsDecryptionKeyType) (packing_factor : nat).
Variables (keys : Role -> PrivateKeySet R64 R128) (s : seq R128) (ks : seq {poly R128}) (tb mb : nat).
Hypothesis key_shared : shared t s ks.
Hypothesis keys_ok : forall i, i \in (parties : seq nat) ->
  [/\ (if ddec_key_type is SnsKey then glwe_secret_key_share_sns_as_lwe (keys i)
       else glwe_sns_compression_key_as_lwe (keys i)) = Some (shs i ks),
      total_block_bits (keys i) = tb & message_modulus_log (keys i) = mb].
Hypothesis lt_tb : (tb + 1 < 128)%N.
Hypothesis small : ('C(n, t) <= PRSS_SIZE_MAX)%N.

(** The masks of a set lie between [- 2^111] and [2^111]. *)
Definition prss_mask_bound : nat :=
  (size (create_sets combinations (iota 1 n) t) * 2 ^ (STATSEC + LOG_B_SWITCH_SQUASH).+1)%N.

Let bd1 : Z := (B_SWITCH_SQUASH * 2 ^ 40)%Z.
Let state (i : Role) (c : PRSSCounters) := party_state invert combinations n t key sid i c.
Let mask_ctrs (c : PRSSCounters) m : seq Z := [seq (mask_ctr c + 2 * Z.of_nat k)%Z | k <- iota 0 m].
Let masks (c : PRSSCounters) m : seq {poly R128} := [seq mask_poly invert aes128 combinations n t key sid bd1 z | z <- mask_ctrs c m].
Let offsets (c : PRSSCounters) m : seq nat := [seq mask_offset aes128 combinations n t key sid bd1 z | z <- mask_ctrs c m].

Lemma prss_mask_boundE : mask_bound combinations n t bd1 = prss_mask_bound.
Proof.
have eq_b : (2 * bd1)%Z = Z.of_nat (2 ^ (STATSEC + LOG_B_SWITCH_SQUASH).+1) by rewrite -pow_Nat Nat2Z.inj_pow.
by rewrite /mask_bound eq_b Nat2Z.id.
Qed.

Lemma prss_masks_shared c m : shared t [seq y%:R - prss_mask_bound%:R | y : nat <- offsets c m] (masks c m) /\
  all (fun y => y <= 2 * prss_mask_bound)%N (offsets c m).
Proof.
have ge1 : (1 <= bd1)%Z by [].
have ok z := mask_secret aes128 key sid invertE zero_point embeds le_t combinationsE from_i128E z ge1.
rewrite -prss_mask_boundE; split; last by rewrite /offsets; elim: (mask_ctrs c m) => //= z l ->; rewrite andbT; apply: mask_offset_le.
split; first by rewrite /masks; elim: (mask_ctrs c m) => //= z l ->; rewrite andbT; have [] := ok z.
by rewrite /masks /offsets; elim: (mask_ctrs c m) => //= z l ->; have [_ ->] := ok z.
Qed.

Lemma init_prepE i c m : (0 < i <= n)%N -> (0 <= mask_ctr c)%Z -> (mask_ctr c + 2 * Z.of_nat m <= 2 ^ 120)%Z ->
  init_prep_noiseflooding aes128 par_min_chunk i (state i c) m =
  Ok ({| available_masks := [seq p.[point i] | p : {poly R128} <- masks c m] |}, state i (add_counters c (2 * m) 0 0)).
Proof.
move=> range_i c_ge0 le_c; rewrite /init_prep_noiseflooding /state.
rewrite (mask_next_vecE invert aes128 key sid le_t combinationsE (has_i128 from_i128E)) //.
by rewrite rbind_Ok /append_masks /= /masks /mask_ctrs -!map_comp.
Qed.

(** C3. Noise-flooding decryption in a small session is right, end to end.  Let the parties of
    every set agree on its key and let the parties that run, all of the session but at most as many
    as the threshold, hold shares of the decryption key; let the parties of the session be more
    than three times the threshold, or four times in an asynchronous network.  When every block is
    a ciphertext of its message whose noise leaves room for [2^111] for every set within half the
    scaling factor, then in every execution, whatever the parties that do not run send and in
    whatever order the answers come, the running parties initialise, derive their masks without
    interaction, open the masked phases, and every one of them returns the recomposition of the
    messages; the mask counter advances by two for each block. *)
Theorem small_noiseflood_decryption_correct (EC : ErrorCorrect X) (RW : RingWidth R128) (net : Network) c cs mpqs :
  ready R128 net t -> net_parties net = n -> running net = parties ->
  (0 <= mask_ctr c)%Z -> (mask_ctr c + 2 * Z.of_nat (size cs) <= 2 ^ 120)%Z ->
  List.Forall2 (encrypts128 s tb prss_mask_bound) cs mpqs ->
  exists2 setups : Role -> PRSSSetup (R := R128),
    forall i, abort_prss_init invert combinations (iota 1 n) t i
      (Ok [seq key a | a <- party_sets combinations (iota 1 n) t i]) = Ok (setups i)
  & let state i c := with_counters (new_prss_session_state (setups i) sid) c in
    joint net (fun i => small_decrypt_using_noiseflooding aes128 par_min_chunk recomposer t
        i (state i c) (keys i) cs packing_factor ddec_key_type)
      (fun i => (recomposed recomposer (packing_factor * mb) [seq mpq.1 | mpq <- mpqs],
                 state i (add_counters c (2 * size cs) 0 0))).
Proof.
move=> is_ready eq_n eq_p c_ge0 le_c enc; exists (party_setup invert combinations n t key) => [i|st].
  exact: (abort_prss_initE key invertE zero_point embeds le_t combinationsE).
have [hm le_y] := prss_masks_shared c (size cs); have hm' := shared_rev hm; rewrite -map_rev in hm'.
have := decrypt_noiseflood_joint (EC := EC) char128 recomposer packing_factor key_shared keys_ok lt_tb [::] enc _ _ hm' is_ready eq_p.
rewrite revK size_rev all_rev !size_map size_iota => /(_ erefl le_y) run.
rewrite /small_decrypt_using_noiseflooding; apply: joint_local => [i|].
  move=> in_i; have range_i := network_range (ready_network is_ready) in_i; rewrite eq_n in range_i.
  exact: (init_prepE range_i c_ge0 le_c).
by apply: (joint_bind run); apply: joint_result.
Qed.

(** C18. Partial decryption by noise flooding in a small session: under the same conditions the
    values of the parties are shares, of degree at most the threshold, of values that
    [reconstruct_message] maps to the messages; there is no interaction. *)
Theorem small_noiseflood_partial_correct c cs mpqs :
  (0 <= mask_ctr c)%Z -> (mask_ctr c + 2 * Z.of_nat (size cs) <= 2 ^ 120)%Z ->
  List.Forall2 (encrypts128 s tb prss_mask_bound) cs mpqs ->
  exists (setups : Role -> PRSSSetup (R := R128)) (zs : seq {poly R128}),
  [/\ forall i, abort_prss_init invert combinations (iota 1 n) t i
        (Ok [seq key a | a <- party_sets combinations (iota 1 n) t i]) = Ok (setups i),
      all (of_degree t) zs,
      reconstruct_message (Some [seq secret z | z <- zs]) tb = Ok [seq BinNat.N.of_nat mpq.1 | mpq <- mpqs]
    & forall i, i \in (parties : seq nat) ->
        let state c := with_counters (new_prss_session_state (setups i) sid) c in
        partial_decrypt_using_noiseflooding aes128 par_min_chunk i (state c) (keys i) cs packing_factor ddec_key_type =
        Ok ([seq z.[point i] | z : {poly R128} <- zs], packing_factor, state (add_counters c (2 * size cs) 0 0))].
Proof.
move=> c_ge0 le_c enc; have [hm le_y] := prss_masks_shared c (size cs).
have hm' := shared_rev hm; rewrite -map_rev in hm'; set ms := rev (masks c (size cs)) in hm'.
have sz_y : size (rev (offsets c (size cs))) = size cs by rewrite size_rev !size_map size_iota.
have hf := flooded_shared char128 key_shared enc sz_y hm'; have [deg_f eq_f] := hf.
exists (party_setup invert combinations n t key), (map (flooded ks) (zip cs ms)); split=> //.
- move=> i; exact: (abort_prss_initE key invertE zero_point embeds le_t combinationsE).
- by rewrite eq_f (opened_decodes char128 lt_tb enc) // all_rev.
move=> i in_i st; rewrite /partial_decrypt_using_noiseflooding (init_prepE (range_parties in_i) c_ge0 le_c) rbind_Ok.
have := flood_fold key_shared keys_ok [::] [::] in_i enc (_ : size ms = size cs).
by rewrite revK /mask_blocks => -> //; rewrite size_rev !size_map size_iota.
Qed.
End SmallNoiseFlood.
