(* ===== verification/PrssExamples.v ===== *)
(** * Executions of pseudorandom secret sharing

    Four parties, threshold one, over the extensions of degree three: the theorems on the
    shared randomness, on the offline phase and on noise-flooding decryption in a small
    session applied to concrete keys; and seven parties, threshold two, two of which shift
    a product. *)

From Stdlib Require Import String ZArith Lia.
From mathcomp Require Import boot.
From mathcomp Require Import ssralg poly zmodp qpoly.
From S2P Require Import Prelude SsrLia Role Constants PolyOps Structure Lagrange LagrangeStore ErrorCorrection Shamir ResiduePoly ResidueRing GaloisRing Gf8 Degrees Newton Decoding.
From S2P Require Import Protocol Triples BitOps BitRows BitLift GenBits Distributions Reconstruct Decrypt Decryption OnlineRing OnlineExamples.
From S2P Require Import Prf Prss PrssProps SmallOffline SmallOfflineProps PrssRing SmallDecrypt.

Set Implicit Arguments.
Unset Strict Implicit.
Unset Printing Implicit Defensive.

Import GRing.Theory.
Local Open Scope ring_scope.

(** The subsequences of a length, in the order of [Itertools::combinations]. *)
Fixpoint combs (l : seq Role) (k : nat) : seq (seq Role) :=
  match k, l with
  | 0, _ => [:: [::]]
  | _.+1, [::] => [::]
  | k'.+1, x :: l' => [seq x :: s | s <- combs l' k'] ++ combs l' k
  end.

Lemma combsE (l : seq Role) (k : nat) (s : seq nat) : s \in combs l k -> subseq s l && (size s == k).
Proof.
elim: l k s => [|x l IHl] [|k] s //=; try by rewrite inE => /eqP->.
rewrite mem_cat => /orP[/mapP[s' /IHl/andP[sub_s sz_s] ->]|/IHl/andP[sub_s sz_s]] /=.
  by rewrite eqxx sub_s eqSS.
by rewrite sz_s andbT; case: s sub_s {sz_s} => //= y s sub_s; case: eqP => // _; apply: subseq_trans sub_s; apply: subseq_cons.
Qed.

Local Notation R64 := (ResidueRing k64 3).
Local Notation R128 := (ResidueRing k128 3).

#[local] Existing Instance x64.
#[local] Existing Instance x128.
#[local] Existing Instance b128.

Lemma k64_128 : (k64 <= 128)%N.
Proof. by rewrite k64E. Qed.

Lemma k128_128 : (k128 <= 128)%N.
Proof. by rewrite k128E. Qed.

#[local] Instance conv64 : PRSSConversions R64 := prss_conversions64 k64_gt0 (d := 3) isT k64_128.
#[local] Instance conv128 : PRSSConversions R128 := prss_conversions128 k128_gt0 (d := 3) isT k128_128.
#[local] Existing Instance ec64.
#[local] Existing Instance ec128.
#[local] Existing Instance w128.

Definition invert64 : R64 -> Res string R64 := invert_element (P := gf8) gf8_div false.
Definition invert128 : R128 -> Res string R128 := invert_element (P := gf8) gf8_div false.

Lemma invert64E : inverts invert64.
Proof. by apply: ring_inverts => //; [apply: k64_gt0 | rewrite k64E]. Qed.

Lemma invert128E : inverts invert128.
Proof. by apply: ring_inverts => //; [apply: k128_gt0 | rewrite k128E]. Qed.

Lemma embeds64 m : (m <= 7)%N -> forall i, (i <= m)%N -> exists x : R64, get_from_exceptional_sequence i = Ok x.
Proof. move=> le_m i le_i; exact (ring_embeds k64 (d := 3) (leq_ltn_trans (leq_trans le_i le_m) (isT : (7 < 2 ^ 3)%N))). Qed.

Lemma embeds128 m : (m <= 7)%N -> forall i, (i <= m)%N -> exists x : R128, get_from_exceptional_sequence i = Ok x.
Proof. move=> le_m i le_i; exact (ring_embeds k128 (d := 3) (leq_ltn_trans (leq_trans le_i le_m) (isT : (7 < 2 ^ 3)%N))). Qed.

Definition zero_point64 : get_from_exceptional_sequence 0 = Ok (0 : R64) := ring_zero_point k64 3.
Definition zero_point128 : get_from_exceptional_sequence 0 = Ok (0 : R128) := ring_zero_point k128 3.

Definition four_parties : seq Role := [:: 1; 2; 3; 4].

(** A key for each set. *)
Definition set_keys (s : seq Role) : PrfKey := nseq 16 (Z.of_nat (sumn s)).

(** ** Shared randomness *)

Lemma prss_correct_witness : exists setups : Role -> PRSSSetup (R := R64),
  (forall i, (0 < i <= 4)%N -> abort_prss_init invert64 combs (iota 1 4) 1 i
     (Ok [seq set_keys s | s <- party_sets combs (iota 1 4) 1 i]) = Ok (setups i)) /\
  exists P : Z -> {poly R64}, of_degree 1 (P 7%Z) /\ forall i, (0 < i <= 4)%N ->
    prss_next_vec toy_aes (with_counters (new_prss_session_state (setups i) 9) (mkPRSSCounters 0 7 0)) i 1 =
    Ok ([:: (P 7%Z).[point i]], with_counters (with_counters (new_prss_session_state (setups i) 9) (mkPRSSCounters 0 7 0)) (mkPRSSCounters 0 8 0)).
Proof.
have [setups [P [Q [init ok_p _ next]]]] := @prss_correct R64 x64 conv64 invert64 toy_aes combs 4 1 set_keys 9%Z
  invert64E zero_point64 (embeds64 (m := 4) isT) isT combsE isT.
exists setups; split=> //; exists P; split=> [|i range_i]; first by have [] := ok_p 7%Z.
by have [-> //] := next i (mkPRSSCounters 0 7 0) 1%N range_i.
Defined.

Lemma has_masks128 z : exists b : R128, from_i128 z = Ok b.
Proof. by eexists; apply: erefl. Qed.

Lemma masks_correct_witness : exists (P : Z -> Z -> {poly R128}) (m : Z -> seq Role -> Z -> Z),
  secret (P 3%Z 0%Z) = \sum_(s <- create_sets combs (iota 1 4) 1) i128_val (R := R128) (m 3%Z s 0%Z) /\
  (- (2 * 3 * 2 ^ 40) <= m 3%Z [:: 1; 2; 3]%N 0%Z <= 2 * 3 * 2 ^ 40 - 2)%Z.
Proof.
have [setups [P [m [_ ok_p range_m _]]]] := @masks_correct R128 x128 conv128 invert128 toy_aes combs 4 1 set_keys 9%Z
  invert128E zero_point128 (embeds128 (m := 4) isT) isT combsE has_masks128 isT.
by exists P, m; split; [have [] := ok_p 3%Z 0%Z | apply: range_m].
Defined.

(** ** The offline phase *)

Definition seven_session : OfflineSession (R := R64) :=
  mkOfflineSession 1 7 2 [::] (new_prss_session_state (mkPRSSSetup [::] [::]) 9).

(** Parties three and five shift the product by one. *)
Lemma additive_error_accepted_witness :
  exists err : Role -> R64, (forall j, j \notin [:: 3; 5]%N -> err j = 0) /\
  reconstruct_d_values seven_session 1 [seq (j, RingVector [:: ('X : {poly R64}).[point j] + err j]) | j <- iota 1 7] =
    Ok ([:: Some (secret 'X + 1)], seven_session).
Proof.
have [] := @additive_error_accepted R64 x64 ec64 2 [:: 3; 5]%N zero_point64 (embeds64 (m := 7) isT) 1 isT isT _ erefl.
  by move=> j; rewrite !inE => /orP[] /eqP->.
by move=> err [err0 run]; exists err; split=> //; apply: run => //; rewrite /of_degree size_polyX.
Defined.

Definition counters0 : PRSSCounters := mkPRSSCounters 0 0 0.

(** A broadcast that delivers the values of all parties. *)
Definition value_of (m : nat) (j : Role) : seq R64 :=
  [seq (d_poly invert64 toy_aes combs 4 1 set_keys 9 counters0 m k).[point j] | k <- iota 0 m].

Definition honest_values_of (m : nat) : seq (Role * BroadcastD (R := R64)) :=
  [seq (j, RingVector (value_of m j)) | j <- iota 1 4].

Definition honest_network (m : nat) : Network (R := R64) :=
  mkNetwork (fun session _ => Ok ([::], session)) (fun session _ => Ok ([::], session))
    (fun session _ => Ok (honest_values_of m, session)).

Lemma honest_received i m : (0 < i <= 4)%N ->
  received_ok invert64 toy_aes combs 4 1 set_keys 9 i counters0 m (honest_values_of m) [::].
Proof.
move=> range_i; set f := value_of m.
have sz_f j : size (f j) = m by rewrite size_map size_iota.
have ref_d l : refused m [seq (j, RingVector (f j)) | j <- l] = [::].
  by elim: l => // j l IHl; rewrite /refused /= /valid_entry /= sz_f eqxx.
have kept_d l : kept m [seq (j, RingVector (f j)) | j <- l] = [seq (j, f j) | j <- l].
  by elim: l => // j l IHl; rewrite /kept /= sz_f eqxx -IHl.
have aft s l : after_refusal m s [seq (j, RingVector (f j)) | j <- l] = s.
  by elim: l => // j l IHl; rewrite map_cons after_refusal_cons /valid_entry /= sz_f eqxx.
rewrite /received_ok -[honest_values_of m]/[seq (j, RingVector (f j)) | j <- iota 1 4] aft kept_d; split=> //.
  by rewrite ref_d.
move=> k lt_k; set g := d_poly _ _ _ _ _ _ _ _ _ _.
have on j : (j <= 4)%N -> on_poly g (mkShare j (f j)`_k).
  move=> le_j; rewrite /on_poly /embed_role_to_exceptional_sequence [share_owner _]/= /one_based.
  rewrite (pointE (embeds64 (m := 4) isT) le_j) [share_value _]/= /f /value_of.
  have lt_k' : (k < size (iota 0 m))%N by rewrite size_iota.
  rewrite (nth_map 0%N 0 (fun k => (d_poly invert64 toy_aes combs 4 1 set_keys 9 counters0 m k).[point j]) lt_k').
  rewrite (nth_iota 0 0 lt_k) add0n; exact: eqxx.
apply: leq_trans (leq0n _); rewrite -map_comp /wrong_shares count_map leqNgt -has_count.
apply/hasPn => j; rewrite mem_iota => /andP[_ lt_j].
rewrite -[preim _ _ _]/(~~ on_poly g (mkShare j (f j)`_k)) negbK; exact: (on j lt_j).
Qed.

Lemma small_offline_correct_witness : exists (ts : seq (PTriple (R := R64))) (rs : seq {poly R64}),
  [/\ size ts = 2%N, size rs = 1%N, all (good_triple 1) ts & forall i, i \in four_parties ->
     exists session', small_execute toy_aes [:: honest_network 2] 2 1
       (offline_session invert64 combs 4 1 set_keys 9 i counters0 [::]) = Ok (tshs i ts, shs i rs, session')].
Proof.
have [|ts [rs [sz_t sz_r ok_t _ run]]] := @small_offline_correct R64 x64 ec64 conv64 invert64 toy_aes combs 4 1 set_keys 9%Z
  invert64E zero_point64 (embeds64 (m := 4) isT) isT combsE four_parties counters0 2 1 (fun=> [::]) (fun=> honest_network 2)
  isT isT ltac:(done) ltac:(done).
  move=> i in_i; have range_i : (0 < i <= 4)%N by move: in_i; rewrite !inE => /or4P[] /eqP->.
  by split=> //; exists (honest_values_of 2), [::]; split=> //; apply: honest_received.
by exists ts, rs; split=> // i /run[].
Defined.

(** ** Decryption *)

Lemma prss_masks_fit : (prss_mask_bound combs 4 1 < delta_half 128 4)%N.
Proof.
rewrite /prss_mask_bound; have -> : size (create_sets combs (iota 1 4) 1) = (2 ^ 2)%N by [].
by rewrite -expnD ltn_exp2l.
Qed.

Lemma small_encrypts m : (m < 2 ^ 4)%N ->
  List.Forall2 (encrypts128 [:: 1 : R128] 4 (prss_mask_bound combs 4 1)) [:: example_lwe 128 m] [:: (m, (0, 0))%N].
Proof.
move=> lt_m; apply: List.Forall2_cons (List.Forall2_nil _); split; [by [] | exact: lt_m | exact: prss_masks_fit | exact: ltnW prss_masks_fit |].
exact (etrans (example_phase _ 128 m) (no_offset _ _)).
Qed.

Lemma three_range i : i \in (three_parties : seq nat) -> (0 < i <= 4)%N.
Proof. by rewrite !inE => /or3P[] /eqP->. Qed.

Lemma from_i128E128 (y v : nat) : from_i128 (Z.of_nat y - Z.of_nat v) = Ok (y%:R - v%:R : R128).
Proof. exact: (ring_from_i128E k128_gt0 (d := 3) isT k128_128). Qed.

Lemma small_noiseflood_decryption_correct_witness :
  exists setups : Role -> PRSSSetup (R := R128), joint four_session
    (fun i => small_decrypt_using_noiseflooding toy_aes 2 blocks 1 i
       (with_counters (new_prss_session_state (setups i) 9) counters0) (example_keys i) [:: example_lwe 128 5] 1 SnsKey)
    (fun i => ([:: BinNat.N.of_nat 5], with_counters (new_prss_session_state (setups i) 9) (mkPRSSCounters 2 0 0))).
Proof.
have [setups _ run] := @small_noiseflood_decryption_correct R64 R128 x128 b128 conv128 invert128 toy_aes 2 combs 4 1 set_keys 9%Z
  invert128E zero_point128 (embeds128 (m := 4) isT) isT combsE from_i128E128 three_parties k128E _ _ blocks SnsKey 1
  example_keys [:: 1] key_polys 4 2 key_polys_shared example_keys128 isT isT ec128 w128 four_session counters0 [:: example_lwe 128 5] [:: (5, (0, 0))%N]
  ready128 erefl erefl (Z.le_refl 0) ltac:(done) (small_encrypts (m := 5) isT).
exact (ex_intro _ setups run).
Defined.

Lemma small_noiseflood_partial_correct_witness :
  exists zs : seq {poly R128}, reconstruct_message (Some [seq secret z | z <- zs]) 4 = Ok [:: BinNat.N.of_nat 5].
Proof.
have [setups [zs [_ _ eq_z _]]] := @small_noiseflood_partial_correct R64 R128 x128 b128 conv128 invert128 toy_aes 2 combs 4 1 set_keys 9%Z
  invert128E zero_point128 (embeds128 (m := 4) isT) isT combsE from_i128E128 three_parties three_range k128E SnsKey 1
  example_keys [:: 1] key_polys 4 2 key_polys_shared example_keys128 isT isT counters0 [:: example_lwe 128 5] [:: (5, (0, 0))%N]
  (Z.le_refl 0) ltac:(done) (small_encrypts (m := 5) isT).
exact (ex_intro _ zs eq_z).
Defined.
