(* ===== verification/RobustExamples.v ===== *)
(** * Executions of the small offline phase with a corrupt party

    Four parties, threshold one, the fourth of which broadcasts nothing: the theorems on the
    checks of pseudorandom values and on the offline phase against corrupt parties applied to
    concrete keys and networks. *)

From Stdlib Require Import String ZArith Lia.
From mathcomp Require Import boot.
From mathcomp Require Import ssralg poly zmodp qpoly.
From S2P Require Import Prelude SsrLia Role Constants PolyOps Structure Lagrange LagrangeStore ErrorCorrection Shamir ResiduePoly ResidueRing GaloisRing Gf8.
From S2P Require Import Decoding Protocol Triples OnlineRing OnlineExamples Prf Prss PrssProps SmallOffline SmallOfflineProps PrssRing PrssExamples PrssCheck PrssCheckProps SmallRobust.

Set Implicit Arguments.
Unset Strict Implicit.
Unset Printing Implicit Defensive.

Import GRing.Theory.
Local Open Scope ring_scope.

Lemma combs_uniq (l : seq Role) (k : nat) : uniq (l : seq nat) -> uniq (combs l k : seq (seq nat)).
Proof.
elim: l k => [|x l IHl] [|k] //= /andP[notin uniq_l]; rewrite cat_uniq IHl // andbT map_inj_uniq => [s s' [] //|].
rewrite IHl //=; apply/hasPn => s /combsE/andP[sub_s _]; apply/mapP => -[s' _ eq_s].
by move: notin; rewrite (mem_subseq sub_s) // eq_s mem_head.
Qed.

(** Maps in the order of their entries. *)
Definition in_order (T : Type) (s : seq T) : seq T := s.

Lemma in_orderE (T : eqType) (s : seq T) : perm_eq (in_order s) s.
Proof. exact: perm_refl. Qed.

Local Notation R64 := (ResidueRing k64 3).

#[local] Existing Instance x64.
#[local] Existing Instance conv64.
#[local] Existing Instance ec64.

(** The votes of the parties, without those of the fourth. *)
Definition three_votes (val : seq nat -> seq R64) : seq (Role * BroadcastVotes (R := R64)) :=
  [seq (j, if j == 4%N then OtherVotes else honest_votes combs 4 1 val j) | j <- iota 1 4].

Definition votes_network (val : Z -> seq nat -> seq R64) (i : Role) (ctr : Z) (s : OfflineSession (R := R64))
    (votes : seq (seq Role * seq R64)) : Res string (seq (Role * BroadcastVotes (R := R64)) * OfflineSession (R := R64)) :=
  Ok (three_votes (val ctr), off_add_corrupt s 4).

Lemma three_honest (j : nat) : honest 4 [:: 4]%N j -> j \in [:: 1; 2; 3]%N.
Proof. by case: j => [|[|[|[|[|j]]]]]. Qed.

Lemma votes_network_ok val ctr corrupt :
  broadcast_votes_ok invert64 combs 4 1 set_keys 9 [:: 4]%N (fun i => votes_network val i ctr) (val ctr) corrupt.
Proof.
exists (three_votes (val ctr)), [:: 4]%N; split=> // [|i c hon_i].
  split=> // j good range; have : j \in [:: 1; 2; 3]%N by apply: three_honest; rewrite /honest range.
  by rewrite !inE => /or3P[] /eqP->; rewrite /three_votes /=; [left | right; left | right; right; left].
rewrite /votes_network; congr (Ok (_, _)); have /andP[_ good] := hon_i.
exact (add_all_session invert64 combs 4 1 set_keys 9 c corrupt good (l := [:: 4]%N) (fun _ in_r => in_r)).
Qed.

(** The values of the parties, without those of the fourth; the counters of the batch are those
    of the session before it. *)
Definition before_batch (c : PRSSCounters) (amount : nat) : PRSSCounters :=
  mkPRSSCounters (mask_ctr c) (prss_ctr c - Z.of_nat (3 * amount)) (przs_ctr c - Z.of_nat amount).

Lemma before_after c amount : before_batch (after_batch c amount) amount = c.
Proof. by case: c => a b d; rewrite /before_batch /after_batch /=; f_equal; lia. Qed.

Local Notation d_values64 := (d_values invert64 toy_aes combs 4 1 set_keys 9).

Definition three_values (c : PRSSCounters) (amount : nat) : seq (Role * BroadcastD (R := R64)) :=
  [seq (j, if j == 4%N then OtherBroadcast else RingVector (d_values64 c amount j)) | j <- iota 1 4].

Definition values_network (i : Role) (s : OfflineSession (R := R64)) (v : seq R64)
    : Res string (seq (Role * BroadcastD (R := R64)) * OfflineSession (R := R64)) :=
  Ok (three_values (before_batch (counters (off_prss s)) (size v)) (size v), off_add_corrupt s 4).

Definition three_round : Round (R := R64) :=
  mkRound (votes_network (psi_votes toy_aes set_keys 9)) (votes_network (chi_votes toy_aes 1 set_keys 9)) values_network.

Lemma three_round_ok : round_ok invert64 toy_aes combs 4 1 set_keys 9 [:: 4]%N three_round.
Proof.
split=> [ctr corrupt _|ctr corrupt _|c amount corrupt ok_c]; try exact: votes_network_ok.
exists (three_values c amount), [:: 4]%N; split=> // [|i hon_i].
  split=> // [j /three_honest|d in_d in_c].
    by rewrite !inE => /or3P[] /eqP->; rewrite /three_values /=; [left | right; left | right; right; left].
  have [_ /(_ _ in_c)] := corrupt_ok_add ok_c (fun (r : nat) (in_r : r \in [:: 4]%N) => in_r).
  by rewrite inE => /eqP eq_4; case: in_d eq_4 => [<-|[<-|[<-|[<-|[]]]]].
have /andP[_ good] := hon_i; have sz : size (d_values64 c amount i) = amount by rewrite size_map size_iota.
rewrite -[round_values _ _ _ _]/(Ok (three_values (before_batch (after_batch c amount) (size (d_values64 c amount i)))
  (size (d_values64 c amount i)), off_add_corrupt (offline_session invert64 combs 4 1 set_keys 9 i (after_batch c amount) corrupt) 4)).
rewrite sz before_after; congr (Ok (_, _)).
exact (add_all_session invert64 combs 4 1 set_keys 9 _ corrupt good (l := [:: 4]%N) (fun _ in_r => in_r)).
Qed.

Lemma prss_check_correct_witness : exists (P : {poly R64}) (l : seq nat),
  prss_check invert64 toy_aes combs in_order (votes_network (psi_votes toy_aes set_keys 9) 2 7)
    (offline_session invert64 combs 4 1 set_keys 9 2 counters0 [::]) 7 =
  Ok ([seq (j, P.[point j]) | j <- iota 1 4], offline_session invert64 combs 4 1 set_keys 9 2 counters0 (add_list [::] l)).
Proof.
have [P [Q [l [l' [_ _ run _ _]]]]] := @prss_check_correct R64 x64 conv64 invert64 toy_aes combs in_order 4 1 set_keys 9%Z
  invert64E zero_point64 (embeds64 (m := 4) isT) combsE combs_uniq in_orderE isT [:: 4]%N isT
  (fun i => votes_network (psi_votes toy_aes set_keys 9) i 7) (fun i => votes_network (chi_votes toy_aes 1 set_keys 9) i 7)
  [::] 7%Z ltac:(done) (votes_network_ok _ _ _) (votes_network_ok _ _ _).
by exists P, l; apply: run.
Defined.

Lemma small_offline_robust_witness : exists (ts : seq (PTriple (R := R64))) (rs : seq {poly R64}) c' corrupt',
  [/\ size ts = 2%N, size rs = 1%N, all (good_triple 1) ts & forall i, i \in [:: 1; 2; 3]%N ->
     small_execute toy_aes [seq party_network invert64 toy_aes combs in_order r i | r <- [:: three_round; three_round]] 2 1
       (offline_session invert64 combs 4 1 set_keys 9 i counters0 [::]) =
     Ok (tshs i ts, shs i rs, offline_session invert64 combs 4 1 set_keys 9 i c' corrupt')].
Proof.
have [] := @small_offline_robust R64 x64 ec64 conv64 invert64 toy_aes combs in_order 4 1 set_keys 9%Z [:: 4]%N
  invert64E zero_point64 (embeds64 (m := 4) isT) combsE combs_uniq in_orderE isT isT [:: three_round; three_round] counters0 2 1 [::]
  isT (List.Forall_cons _ three_round_ok (List.Forall_cons _ three_round_ok (List.Forall_nil _))) erefl _ ltac:(done) ltac:(done).
  by split.
move=> ts [rs [c' [corrupt' [[sz_t sz_r] _ good_t _ run]]]]; exists ts, rs, c', corrupt'; split=> //; first exact: good_t.
by move=> i in_i; have [|_] := run i; [move: in_i; rewrite !inE => /or3P[] /eqP-> | ].
Defined.
