(* ===== verification/AgreeExamples.v ===== *)
(** * Executions of the agreement on keys

    Four parties, threshold one: the messages of the three rounds, and the theorems on the
    agreement and on initialisation applied to them. *)

From Stdlib Require Import String ZArith Lia.
From mathcomp Require Import boot.
From mathcomp Require Import ssralg poly zmodp qpoly.
From S2P Require Import Prelude SsrLia Role Constants PolyOps Structure Lagrange LagrangeStore ErrorCorrection Shamir ResiduePoly ResidueRing GaloisRing Gf8 Decoding Protocol OnlineRing OnlineExamples.
From S2P Require Import Prf Prss PrssProps SmallOffline PrssRing PrssExamples RobustExamples AgreeRandom AgreeRandomProps.

Set Implicit Arguments.
Unset Strict Implicit.
Unset Printing Implicit Defensive.

(** A hash that pads or truncates its input. *)
Definition toy_shake (m : seq Z) (k : nat) : seq Z := take k (m ++ nseq k 0%Z).

Lemma toy_shake_size m k : size (toy_shake m k) = k.
Proof. by rewrite size_take_min size_cat size_nseq; apply/minn_idPl; rewrite leq_addl. Qed.

Definition toy_fill (i : Role) (k : nat) : seq Z := nseq 16 (Z.of_nat (10 * i + k)).

Local Notation sets4 i := (party_sets combs (iota 1 4) 1 i).
Local Notation agreement4 i := (abort_agree_random toy_shake combs 4 1 i 9 0 (toy_fill i)).

Definition message (wrap : Role -> seq (seq Role) -> AgreeRandomValue) (i : Role) : seq (Role * ArNetworkValue) :=
  [seq (j : Role, ArAgreeRandom (wrap j [seq s <- sets4 j | i \in (s : seq nat)])) | j <- iota 1 4 & j != i].

(** What each party receives in the three rounds. *)
Definition delivered4 (i : Role) : seq (seq (Role * ArNetworkValue)) :=
  [:: message (fun j l => CommitmentValue [seq commitment toy_shake combs 4 1 9 0 toy_fill j s | s <- l]) i;
      message (fun j l => KeyOpenValue [seq drawn combs 4 1 toy_fill j s | s <- l]) i;
      message (fun j l => KeyValue [seq agreed_key combs 4 1 toy_fill s | s <- l]) i].

Lemma four_cases (P : nat -> Prop) : P 1 -> P 2 -> P 3 -> P 4 -> forall i, i \in iota 1 4 -> P i.
Proof. by move=> P1 P2 P3 P4 i; rewrite !inE => /or4P[] /eqP->. Qed.

Lemma delivers4 : forall i, i \in iota 1 4 -> forall j, j \in iota 1 4 -> i != j -> forall r, r < 3 ->
  omap (fun m => role_get m i) (onth (sends (agreement4 j) (delivered4 j)) r) = Some (role_get (nth [::] (delivered4 i) r) j).
Proof.
have three r : r < 3 -> [\/ r = 0, r = 1 | r = 2] by case: r => [|[|[|r]]] // _; [apply: Or31 | apply: Or32 | apply: Or33].
by apply: four_cases; apply: four_cases => // _ r /three[] ->; vm_compute.
Qed.

Lemma net4 : delivered toy_shake combs 4 1 9 0 toy_fill (iota 1 4) delivered4.
Proof.
split=> [|i j r m in_i in_j neq sent lt_r].
  by apply: four_cases; do 3 (apply: List.Forall_cons; first by vm_compute); apply: List.Forall_nil.
by have := delivers4 in_i in_j neq lt_r; rewrite sent => -[].
Qed.

Lemma full4 i : 0 < i <= 4 -> size (delivered4 i) = 3 /\
  forall r, r < 3 -> perm_eq [seq e.1 : nat | e <- nth [::] (delivered4 i) r] [seq p <- iota 1 4 | p != i].
Proof.
move=> range_i; split=> // r lt_r; have eq_r : [seq e.1 : nat | e <- nth [::] (delivered4 i) r] = [seq p <- iota 1 4 | p != i].
  by case: r lt_r => [|[|[|r]]] // _; rewrite /= -map_comp map_id.
by rewrite eq_r perm_refl.
Qed.

Lemma agree_random_complete_witness :
  play (agreement4 2) (delivered4 2) = Ok [seq agreed_key combs 4 1 toy_fill s | s <- sets4 2].
Proof.
exact (@agree_random_complete toy_shake combs 4 1 9%Z 0%Z toy_fill combsE combs_uniq toy_shake_size delivered4 full4 net4 2 isT).
Defined.

Import GRing.Theory.
Local Open Scope ring_scope.
Local Notation R64 := (ResidueRing k64 3).

#[local] Existing Instance x64.
#[local] Existing Instance conv64.

Lemma ends4 i : i \in iota 1 4 -> play (agreement4 i) (delivered4 i) = Ok [seq agreed_key combs 4 1 toy_fill s | s <- sets4 i].
Proof. by move: i; apply: four_cases; vm_compute. Qed.

(** The setups of three honest parties. *)
Definition setup4 (i : Role) : PRSSSetup (R := R64) := party_setup invert64 combs 4 1 (agreed_key combs 4 1 toy_fill) i.

Lemma init4 i : i \in [:: 1; 2; 3]%N ->
  abort_prss_init invert64 combs (iota 1 4) 1 i (play (agreement4 i) (delivered4 i)) = Ok (setup4 i).
Proof.
move=> in_i; have in_4 : i \in iota 1 4 by move: in_i; rewrite !inE => /or3P[] /eqP->.
rewrite (ends4 in_4); exact: (abort_prss_initE _ invert64E zero_point64 (embeds64 (m := 4) isT) _ combsE).
Qed.

Lemma net3 : delivered toy_shake combs 4 1 9 0 toy_fill [:: 1; 2; 3]%N delivered4.
Proof.
have sub i : i \in [:: 1; 2; 3]%N -> i \in iota 1 4 by rewrite !inE => /or3P[] /eqP->.
have [uniq_r del] := net4; split=> [i /sub|i j r m /sub in_i /sub in_j]; [exact: uniq_r | exact: del].
Qed.

Lemma prss_init_agrees_witness : exists P : Z -> {poly R64}, of_degree 1 (P 7%Z) /\ forall i, i \in [:: 1; 2; 3]%N ->
  prss_next_vec toy_aes (with_counters (new_prss_session_state (setup4 i) 11) (mkPRSSCounters 0 7 0)) i 1 =
  Ok ([:: (P 7%Z).[point i]], with_counters (new_prss_session_state (setup4 i) 11) (mkPRSSCounters 0 8 0)).
Proof.
have range3 : {in [:: 1; 2; 3]%N, forall i, 0 < i <= 4}%N by move=> i; rewrite !inE => /or3P[] /eqP->.
have [P [Q [deg next]]] := @prss_init_agrees R64 x64 conv64 invert64 toy_aes toy_shake combs 4 1 9%Z 0%Z toy_fill
  invert64E zero_point64 (embeds64 (m := 4) isT) isT combsE combs_uniq [:: 1; 2; 3]%N delivered4 setup4 range3 net3 init4 11%Z.
exists P; split=> [|i hon_i]; first by have [] := deg 7%Z.
by have [-> //] := next i (mkPRSSCounters 0 7 0) 1%N hon_i.
Defined.
