(* ===== verification/Sync.v ===== *)
(** * Synchronous rounds (core/threshold-execution/src/communication/p2p.rs)

    A party alternates between sending one message to all the others and receiving
    from some of them: [send_to_all] or a bare [increase_round_counter], and
    [generic_receive_from_all_senders].  Executions run the honest parties in
    lockstep: a message of an honest party arrives within its round, and the others
    send each party what they like, or nothing.  The jobs of a round finish in any
    order. *)

From stdpp Require Import base gmap sets list strings.
From S2P Require Import Prelude Role.

Set Default Proof Using "Type".

(** What a receive job ends with: the deadline passed, bytes that are no message,
    or a message. *)
Inductive Net (M : Type) : Type :=
| Elapsed
| Malformed
| Msg (m : M).
Arguments Elapsed {M}.
Arguments Malformed {M}.
Arguments Msg {M} m.

(** A program that is done, or that sends (if it does) and then receives from a set
    of parties. *)
Inductive Sync (M A : Type) : Type :=
| SDone (r : Res string A)
| SRound (out : option M) (from : gset Role) (k : list (Role * Net M) -> Sync M A).
Arguments SDone {M A} r.
Arguments SRound {M A} out from k.

Fixpoint sbind {M A B : Type} (p : Sync M A) (f : A -> Sync M B) : Sync M B :=
  match p with
  | SDone (Ok a) => f a
  | SDone (Err e) => SDone (Err e)
  | SDone Panic => SDone Panic
  | SDone Timeout => SDone Timeout
  | SRound out from k => SRound out from (fun inbox => sbind (k inbox) f)
  end.

Notation "'let^' x ':=' p 'in' q" := (sbind p (fun x => q))
  (at level 10, x binder, p at level 100, q at level 200).

(** The parties that a receiver spawns jobs for. *)
Definition generic_receive_from_all_senders (receiver : Role) (senders non_answering_parties : gset Role) : gset Role :=
  senders ∖ non_answering_parties ∖ {[receiver]}.

(** Continue from what a program ends with, failures included. *)
Fixpoint sfinally {M A B : Type} (p : Sync M A) (f : Res string A -> B) : Sync M B :=
  match p with
  | SDone r => SDone (Ok (f r))
  | SRound out from k => SRound out from (fun inbox => sfinally (k inbox) f)
  end.

Section Run.
Context {M : Type}.

(** The honest parties, and what each other party [j] sends to [i] in a round. *)
Variables (honest : gset Role) (adv : nat -> Role -> Role -> Net M).

(** The message that a party has sent in this round. *)
Definition sent {A} (p : Sync M A) : Net M :=
  match p with SRound (Some m) _ _ => Msg m | _ => Elapsed end.

(** What the job of [i] that receives from [j] ends with. *)
Definition received {A} (round : nat) (st : Role -> Sync M A) (i j : Role) : Net M :=
  if decide (j ∈ honest) then sent (st j) else adv round i j.

(** One job for each party, finished in any order. *)
Definition delivered {A} (round : nat) (st : Role -> Sync M A) (i : Role) (from : gset Role)
    (inbox : list (Role * Net M)) : Prop :=
  inbox ≡ₚ map (fun j => (j, received round st i j)) (elements from).

Definition advance {A} (p : Sync M A) (inbox : list (Role * Net M)) : Sync M A :=
  match p with SRound _ _ k => k inbox | SDone r => SDone r end.

Definition delivery {A} (round : nat) (st : Role -> Sync M A) (inboxes : Role -> list (Role * Net M)) : Prop :=
  forall i, i ∈ honest ->
    match st i with SRound _ from _ => delivered round st i from (inboxes i) | SDone _ => True end.

(** The executions of the honest parties, and what they end with. *)
Inductive run {A} : nat -> (Role -> Sync M A) -> (Role -> Res string A) -> Prop :=
| run_end round st outs : (forall i, i ∈ honest -> st i = SDone (outs i)) -> run round st outs
| run_round round st inboxes outs : delivery round st inboxes ->
    run (S round) (fun i => advance (st i) (inboxes i)) outs -> run round st outs.

Context {A : Type}.
Implicit Types (st : Role -> Sync M A).

Lemma run_inv round st outs : run round st outs -> (exists i, i ∈ honest /\ forall r, st i <> SDone r) ->
  exists inboxes, delivery round st inboxes /\ run (S round) (fun i => advance (st i) (inboxes i)) outs.
Proof. intros [rd st' o H|rd st' inb o Hd Hr] (i & Hi & Hn); [by destruct (Hn (o i)); apply H | eauto]. Qed.

Lemma run_done round st outs i r : run round st outs -> i ∈ honest -> st i = SDone r -> outs i = r.
Proof.
  intros Hr Hi. induction Hr as [rd st o H|rd st inb o Hd Hr IH]; intros Hs.
  - rewrite H in Hs by done. by inversion Hs.
  - apply IH. by rewrite Hs.
Qed.

Lemma received_ext round st st' i j : (forall i, i ∈ honest -> st i = st' i) ->
  received round st i j = received round st' i j.
Proof. intros Heq. unfold received. case_decide; [by rewrite Heq | done]. Qed.

Lemma delivered_ext round st st' i from inbox : (forall i, i ∈ honest -> st i = st' i) ->
  delivered round st i from inbox -> delivered round st' i from inbox.
Proof.
  intros Heq Hd. unfold delivered in *. rewrite Hd. apply reflexive_eq, map_ext.
  intros j. by rewrite (received_ext round st st').
Qed.

Lemma run_ext round st st' outs : (forall i, i ∈ honest -> st i = st' i) -> run round st outs -> run round st' outs.
Proof.
  intros Heq Hr. revert st' Heq. induction Hr as [rd st o H|rd st inb o Hd Hr IH]; intros st' Heq.
  - apply run_end. intros i Hi. rewrite <- Heq by done. auto.
  - apply (run_round _ _ inb).
    + intros i Hi. rewrite <- Heq by done. specialize (Hd i Hi). destruct (st i); [done|].
      by apply (delivered_ext _ st).
    + apply IH. intros i Hi. by rewrite Heq.
Qed.

Lemma delivered_NoDup round st i from inbox : delivered round st i from inbox -> NoDup inbox.*1.
Proof.
  intros Hd. unfold delivered in Hd. rewrite Hd.
  assert (forall l, (map (fun j => (j, received round st i j)) l).*1 = l) as ->; [|apply NoDup_elements].
  intros l. induction l as [|j l IH]; [done|]. cbn in *. by rewrite IH.
Qed.

Lemma delivered_elem round st i from inbox j x : delivered round st i from inbox ->
  (j, x) ∈ inbox <-> j ∈ from /\ x = received round st i j.
Proof.
  intros Hd. unfold delivered in Hd. rewrite Hd, list_elem_of_fmap. split.
  - intros (j' & [= -> ->] & Hj). by rewrite elem_of_elements in Hj.
  - intros [Hj ->]. exists j. by rewrite elem_of_elements.
Qed.
End Run.

(** A program that looks at what another one ends with runs as that one. *)
Lemma run_finally {M A B} honest (adv : nat -> Role -> Role -> Net M) round (st : Role -> Sync M A)
    (f : Role -> Res string A -> B) outs :
  run honest adv round (fun i => sfinally (st i) (f i)) outs ->
  exists outs', run honest adv round st outs' /\ forall i, i ∈ honest -> outs i = Ok (f i (outs' i)).
Proof.
  intros Hr. remember (fun i => sfinally (st i) (f i)) as st' eqn:Hst.
  assert (Heq : forall i, i ∈ honest -> st' i = sfinally (st i) (f i)) by (intros; by rewrite Hst).
  clear Hst. revert st Heq.
  induction Hr as [rd st' o H|rd st' inb o Hd Hr IH]; intros st Heq.
  - assert (forall i, i ∈ honest -> exists r, st i = SDone r /\ o i = Ok (f i r)) as Hex.
    { intros i Hi. specialize (H i Hi). rewrite Heq in H by done. destruct (st i); simplify_eq/=; eauto. }
    exists (fun i => match st i with SDone r => r | _ => Panic end). split.
    + apply run_end. intros i Hi. by destruct (Hex i Hi) as (r & -> & _).
    + intros i Hi. by destruct (Hex i Hi) as (r & -> & ?).
  - destruct (IH (fun i => advance (st i) (inb i))) as (o' & Ho' & Hout).
    + intros i Hi. rewrite Heq by done. by destruct (st i).
    + exists o'. split; [|done]. apply (run_round _ _ _ _ inb); [|done].
      intros i Hi. specialize (Hd i Hi). rewrite Heq in Hd by done. destruct (st i) as [|out from k]; [done|].
      simpl in Hd. unfold delivered in *. rewrite Hd. apply reflexive_eq, map_ext. intros j. f_equal.
      unfold received. case_decide as Hj; [|done]. rewrite Heq by done. by destruct (st j).
Qed.

(** ** Executions exist *)

(** The program ends after at most [k] more rounds, whatever it receives. *)
Fixpoint ends_within {M A : Type} (k : nat) (p : Sync M A) : Prop :=
  match p, k with
  | SDone _, _ => True
  | SRound _ _ _, 0 => False
  | SRound _ _ f, S k' => forall inbox, ends_within k' (f inbox)
  end.

Lemma ends_within_mono {M A} k k' (p : Sync M A) : k <= k' -> ends_within k p -> ends_within k' p.
Proof.
  revert k' p. induction k as [|k IH]; intros k' [r|out from g] Hk Hp; [by destruct k'|done|by destruct k'|].
  destruct k' as [|k']; [lia|]. intros inbox. apply IH; [lia | apply Hp].
Qed.

Lemma ends_within_bind {M A B} k k' (p : Sync M A) (f : A -> Sync M B) :
  ends_within k p -> (forall a, ends_within k' (f a)) -> ends_within (k + k') (sbind p f).
Proof.
  revert p. induction k as [|k IH]; intros [r|out from g] Hp Hf; simpl in *; try done.
  - destruct r; simpl; [apply Hf | by destruct k'..].
  - destruct r; simpl; try done. by apply (ends_within_mono k' (S (k + k'))); [lia|].
  - intros inbox. by apply IH.
Qed.

(** Parties that end run to their end. *)
Lemma run_total {M A} honest (adv : nat -> Role -> Role -> Net M) k round (st : Role -> Sync M A) :
  (forall i, i ∈ honest -> ends_within k (st i)) -> exists outs, run honest adv round st outs.
Proof.
  revert round st. induction k as [|k IH]; intros round st Hk.
  - exists (fun i => match st i with SDone r => r | _ => Panic end). apply run_end.
    intros i Hi. specialize (Hk i Hi). by destruct (st i).
  - set (inb i := match st i with
      | SRound _ from _ => map (fun j => (j, received honest adv round st i j)) (elements from)
      | SDone _ => [] end).
    destruct (IH (S round) (fun i => advance (st i) (inb i))) as [outs Ho].
    + intros i Hi. specialize (Hk i Hi). destruct (st i); [by destruct k | apply Hk].
    + exists outs. apply (run_round _ _ _ _ inb); [|done].
      intros i Hi. unfold inb, delivered. by destruct (st i).
Qed.

(** ** Running an execution *)

Fixpoint state_of {M A : Type} (sts : list (Role * Sync M A)) (i : Role) : Sync M A :=
  match sts with
  | [] => SDone Panic
  | (j, p) :: sts' => if j =? i then p else state_of sts' i
  end.

(** One round, with the jobs in the order of the set. *)
Definition step_all {M A : Type} (adv : nat -> Role -> Role -> Net M) (honest : gset Role) (round : nat)
    (sts : list (Role * Sync M A)) : list (Role * Sync M A) :=
  map (fun e => (e.1, match e.2 with
    | SRound _ from k => k (map (fun j => (j, received honest adv round (state_of sts) e.1 j)) (elements from))
    | SDone r => SDone r end)) sts.

Fixpoint simulate {M A : Type} (adv : nat -> Role -> Role -> Net M) (honest : gset Role) (fuel round : nat)
    (sts : list (Role * Sync M A)) : list (Role * Sync M A) :=
  match fuel with
  | 0 => sts
  | S fuel' => simulate adv honest fuel' (S round) (step_all adv honest round sts)
  end.

Lemma state_of_map {M A} (f : Role * Sync M A -> Sync M A) sts i :
  i ∈ sts.*1 -> state_of (map (fun e => (e.1, f e)) sts) i = f (i, state_of sts i).
Proof.
  induction sts as [|[j p] sts IH]; [by rewrite elem_of_nil|]. intros Hi. simpl.
  destruct (Nat.eqb_spec j i) as [->|Hn]; [done|]. apply IH. set_solver.
Qed.

Lemma simulate_run {M A} (adv : nat -> Role -> Role -> Net M) honest fuel round (sts : list (Role * Sync M A)) outs :
  honest ⊆ list_to_set sts.*1 ->
  (forall i, i ∈ honest -> state_of (simulate adv honest fuel round sts) i = SDone (outs i)) ->
  run honest adv round (state_of sts) outs.
Proof.
  revert round sts. induction fuel as [|fuel IH]; intros round sts Hh Hs; [by apply run_end|].
  set (inb i := match state_of sts i with
      | SRound _ from _ => map (fun j => (j, received honest adv round (state_of sts) i j)) (elements from)
      | SDone _ => [] end).
  apply (run_round _ _ _ _ inb).
  - intros i Hi. unfold inb, delivered. by destruct (state_of sts i).
  - eapply run_ext; [|apply IH; [|exact Hs]].
    + intros i Hi. unfold step_all.
      rewrite (state_of_map (fun e => match e.2 with
        | SRound _ from k => k (map (fun j => (j, received honest adv round (state_of sts) e.1 j)) (elements from))
        | SDone r => SDone r end)) by set_solver.
      unfold inb. by destruct (state_of sts i).
    + unfold step_all. rewrite <- list_fmap_compose. set_solver.
Qed.
