(* ===== verification/Broadcast.v ===== *)
(** * Synchronous reliable broadcast (core/threshold-execution/src/communication/broadcast.rs)

    Every sender sends its value, every party echoes what it received, and votes for
    the hash of a value of a sender once enough parties echoed it; for threshold plus
    one rounds parties collect votes and join a vote that has enough of them.  A value
    with enough votes is the result for its sender, [Bot] otherwise.

    The order in which a hash map is iterated and the hash of a value are parameters;
    assertions that only debug builds check are switched by [debug_assertions]. *)

From stdpp Require Import base countable gmap sets list fin_maps strings.
From S2P Require Import Prelude Role Sync.

Set Default Proof Using "Type".

(** The iteration of a [HashMap], in an order that is not specified. *)
Class HashIter := {
  hash_iter : forall {K V : Type} `{Countable K}, gmap K V -> list (K * V);
  hash_iter_perm : forall {K V : Type} `{Countable K} (m : gmap K V), hash_iter m ≡ₚ map_to_list m
}.

(** core/threshold-execution/src/network_value.rs: [W] stands for the payloads. *)
Inductive BroadcastValue (W : Type) : Type :=
| Bot
| Value (w : W).
Arguments Bot {W}.
Arguments Value {W} w.

#[export] Instance broadcast_value_eq_dec `{EqDecision W} : EqDecision (BroadcastValue W).
Proof. solve_decision. Defined.

#[export] Program Instance broadcast_value_countable `{Countable W} : Countable (BroadcastValue W) :=
  inj_countable' (fun v => match v with Bot => None | Value w => Some w end)
    (fun o => match o with None => Bot | Some w => Value w end) _.
Next Obligation. by intros ??? []. Qed.

(** The session data that a broadcast reads and changes. *)
Record BcastSession := mkBcastSession {
  my_role : Role;
  roles : gset Role;
  threshold : nat;
  corrupt_roles : gset Role
}.

Definition num_parties (session : BcastSession) : nat := size (roles session).

Section Broadcast.
Context {W H : Type} `{Countable W} `{Countable H} {HI : HashIter}.
Variables (to_bcast_hash : BroadcastValue W -> Res string H) (debug_assertions : bool).

Notation RoleValueMap := (gmap Role (BroadcastValue W)).

(** The messages of the protocol, and all the other ones. *)
Inductive NetworkValue : Type :=
| Send (v : BroadcastValue W)
| EchoBatch (m : RoleValueMap)
| VoteBatch (m : gmap Role H)
| Empty
| OtherValue.

Definition match_send (msg : NetworkValue) : option (BroadcastValue W) :=
  match msg with Send v => Some v | _ => None end.

Definition match_echo (msg : NetworkValue) : option RoleValueMap :=
  match msg with EchoBatch m => Some m | Empty => Some ∅ | _ => None end.

Definition match_vote (msg : NetworkValue) : option (gmap Role H) :=
  match msg with VoteBatch m => Some m | Empty => Some ∅ | _ => None end.

(** The outcome of a job: [None] for a timeout, [Some None] for a wrong message. *)
Definition job_outcome {V : Type} (match_network_value_fn : NetworkValue -> option V)
    (x : Net NetworkValue) : option (option V) :=
  match x with
  | Elapsed => None
  | Malformed => Some None
  | Msg m => Some (match_network_value_fn m)
  end.

Definition add_contribution (acc : RoleValueMap * gset Role) (job : Role * Net NetworkValue)
    : RoleValueMap * gset Role :=
  match job_outcome match_send job.2 with
  | None => acc
  | Some None => (acc.1, {[job.1]} ∪ acc.2)
  | Some (Some v) => (<[job.1 := v]> acc.1, {[job.1]} ∪ acc.2)
  end.

Definition receive_contribution_from_all_senders (round1_data : RoleValueMap) (receiver : Role)
    (senders non_answering_parties : gset Role) (inbox : list (Role * Net NetworkValue))
    : RoleValueMap * gset Role :=
  let '(data, answering_parties) := foldl add_contribution (round1_data, ∅) inbox in
  (data, non_answering_parties ∪ (senders ∖ answering_parties ∖ {[receiver]})).

(** The counting of one echo or vote message. *)
Definition count_entry {T : Type} `{Countable T} (map_data : gmap (Role * T) nat) (e : Role * T)
    : gmap (Role * T) nat :=
  <[e := S (default 0 (map_data !! e))]> map_data.

Fixpoint count_answers {T : Type} `{Countable T} (match_fn : NetworkValue -> option (gmap Role T))
    (num_parties : nat) (inbox : list (Role * Net NetworkValue)) (map_data : gmap (Role * T) nat)
    (answering_parties : gset Role) : Res string (gmap (Role * T) nat * gset Role) :=
  match inbox with
  | [] => Ok (map_data, answering_parties)
  | (from_party, x) :: inbox' =>
      match job_outcome match_fn x with
      | None => count_answers match_fn num_parties inbox' map_data answering_parties
      | Some None => count_answers match_fn num_parties inbox' map_data ({[from_party]} ∪ answering_parties)
      | Some (Some m) =>
          if debug_assertions && (num_parties <? size m) then Panic
          else count_answers match_fn num_parties inbox' (foldl count_entry map_data (hash_iter m))
                 ({[from_party]} ∪ answering_parties)
      end
  end.

Definition internal_process_echos_or_votes {T : Type} `{Countable T}
    (match_fn : NetworkValue -> option (gmap Role T)) (receiver : Role)
    (inbox : list (Role * Net NetworkValue)) (map_data : gmap (Role * T) nat)
    (num_parties : nat) (non_answering_parties : gset Role)
    : Res string (gmap (Role * T) nat * gset Role) :=
  let* r := count_answers match_fn num_parties inbox map_data ∅ in
  Ok (r.1, non_answering_parties ∪ (list_to_set (seq 1 num_parties) ∖ r.2 ∖ {[receiver]})).

(** The loop that hashes the echoed values and registers a vote for a quorum. *)
Fixpoint register_echos (entries : list ((Role * BroadcastValue W) * nat)) (quorum : nat)
    (registered_votes : gmap (Role * H) nat) (map_hash_to_value : gmap (Role * H) (BroadcastValue W))
    : Res string (gmap (Role * H) nat * gmap (Role * H) (BroadcastValue W)) :=
  match entries with
  | [] => Ok (registered_votes, map_hash_to_value)
  | ((role, m), num_entries) :: entries' =>
      let* hash := to_bcast_hash m in
      register_echos entries' quorum
        (if quorum <=? num_entries then <[(role, hash) := 1]> registered_votes else registered_votes)
        (<[(role, hash) := m]> map_hash_to_value)
  end.

Definition process_echos (receiver : Role) (inbox : list (Role * Net NetworkValue))
    (echoed_data : gmap (Role * BroadcastValue W) nat) (num_parties threshold : nat)
    (non_answering_parties : gset Role)
    : Res string (gmap (Role * H) nat * gmap (Role * H) (BroadcastValue W) * gset Role) :=
  let* r := internal_process_echos_or_votes match_echo receiver inbox echoed_data num_parties
              non_answering_parties in
  let* v := register_echos (hash_iter r.1) (num_parties - threshold) ∅ ∅ in
  Ok (v, r.2).

(** The message that [cast_threshold_vote] sends. *)
Definition cast_threshold_vote (registered_votes : gmap (Role * H) nat) (threshold : nat) : NetworkValue :=
  let vote_data := foldl (fun (acc : gmap Role H) (e : (Role * H) * nat) => <[e.1.1 := e.1.2]> acc) ∅
    (filter (fun e : (Role * H) * nat => threshold <= e.2) (hash_iter registered_votes)) in
  if decide (vote_data = ∅) then Empty else VoteBatch vote_data.

(** The loop that joins the votes with enough support in a round. *)
Record VoteRound := mkVoteRound {
  vr_registered : gmap (Role * H) nat;
  vr_casted : gmap Role bool;
  vr_round : gmap (Role * H) nat
}.

Fixpoint join_votes (bound : nat) (entries : list ((Role * H) * nat)) (v : VoteRound) : Res string VoteRound :=
  match entries with
  | [] => Ok v
  | ((role, m), num_votes) :: entries' =>
      if bound <=? num_votes then
        match vr_casted v !! role with
        | None => Err "Cant retrieve whether I casted a vote"%string
        | Some true => join_votes bound entries' v
        | Some false =>
            join_votes bound entries'
              (mkVoteRound (<[(role, m) := S num_votes]> (vr_registered v))
                 (<[role := true]> (vr_casted v)) (<[(role, m) := num_votes]> (vr_round v)))
        end
      else join_votes bound entries' v
  end.

(** [gather_votes], with the message that was cast before the round as [vote]. *)
Fixpoint gather_votes (session : BcastSession) (rounds round : nat) (vote : NetworkValue)
    (registered_votes : gmap (Role * H) nat) (casted : gmap Role bool)
    (non_answering_parties : gset Role) : Sync NetworkValue (gmap (Role * H) nat) :=
  match rounds with
  | 0 => SDone (Ok registered_votes)
  | S rounds' =>
      SRound (Some vote)
        (generic_receive_from_all_senders (my_role session) (roles session) non_answering_parties)
        (fun inbox =>
           let^ r := SDone (internal_process_echos_or_votes match_vote (my_role session) inbox
                              registered_votes (num_parties session) non_answering_parties) in
           if round =? threshold session + 1 then SDone (Ok r.1)
           else
             let^ v := SDone (join_votes (threshold session + round) (hash_iter r.1)
                                (mkVoteRound r.1 casted ∅)) in
             gather_votes session rounds' (S round)
               (cast_threshold_vote (vr_round v) (threshold session + round))
               (vr_registered v) (vr_casted v) r.2)
  end.

(** The loop that remembers the votes cast after the echos. *)
Fixpoint mark_casted (keys : list (Role * H)) (casted : gmap Role bool) : Res string (gmap Role bool) :=
  match keys with
  | [] => Ok casted
  | (role, _) :: keys' =>
      match casted !! role with
      | None => Err "Can't retrieve whether I casted a vote"%string
      | Some true => Err "Trying to cast two votes for the same sender!"%string
      | Some false => mark_casted keys' (<[role := true]> casted)
      end
  end.

(** The loop that opens the hashes with enough votes. *)
Fixpoint collect_values (min_honest_nodes : nat) (entries : list ((Role * H) * nat))
    (map_hash_to_value : gmap (Role * H) (BroadcastValue W)) (bcast_data : RoleValueMap)
    : Res string RoleValueMap :=
  match entries with
  | [] => Ok bcast_data
  | ((role, hash), hits) :: entries' =>
      if min_honest_nodes <=? hits then
        match map_hash_to_value !! (role, hash) with
        | None => Err "Can't retrieve the value from the hash in broadcast."%string
        | Some value =>
            collect_values min_honest_nodes entries' (delete (role, hash) map_hash_to_value)
              (<[role := value]> bcast_data)
        end
      else collect_values min_honest_nodes entries' map_hash_to_value bcast_data
  end.

(** Communication round 3 onward. *)
Definition vote_phase (session : BcastSession) (senders : gset Role) (bcast_data : RoleValueMap)
    (registered_votes : gmap (Role * H) nat) (map_hash_to_value : gmap (Role * H) (BroadcastValue W))
    (non_answering_parties : gset Role) : Sync NetworkValue RoleValueMap :=
  let vote := cast_threshold_vote registered_votes 1 in
  match mark_casted (hash_iter registered_votes).*1 (gset_to_gmap false senders) with
  | Ok casted_vote =>
      let^ votes := gather_votes session (threshold session + 1) 1 vote registered_votes casted_vote
                      non_answering_parties in
      SDone (collect_values (num_parties session - threshold session) (hash_iter votes)
               map_hash_to_value bcast_data)
  | Err e => SRound (Some vote) ∅ (fun _ => SDone (Err e))
  | Panic => SDone Panic
  | Timeout => SDone Timeout
  end.

(** Communication round 2. *)
Definition echo_phase (session : BcastSession) (senders : gset Role) (bcast_data round1_contributions : RoleValueMap)
    (non_answering_parties : gset Role) : Sync NetworkValue RoleValueMap :=
  SRound (Some (EchoBatch round1_contributions))
    (generic_receive_from_all_senders (my_role session) (roles session) non_answering_parties)
    (fun inbox =>
       let echos_count := list_to_map (map (fun kv => (kv, 1)) (map_to_list round1_contributions)) in
       let^ r := SDone (process_echos (my_role session) inbox echos_count (num_parties session)
                          (threshold session) non_answering_parties) in
       vote_phase session senders bcast_data r.1.1 r.1.2 r.2).

(** [SyncReliableBroadcast::execute]. *)
Definition bcast_execute (session : BcastSession) (senders : gset Role) (my_message : option (BroadcastValue W))
    : Sync NetworkValue RoleValueMap :=
  if decide (senders = ∅) then SDone (Err "We expect at least one party as sender in reliable broadcast"%string)
  else if num_parties session <=? threshold session then
    SDone (Err "The number of parties is less or equal to the threshold"%string)
  else
    let is_sender := bool_decide (my_role session ∈ senders) in
    let bots : RoleValueMap := gset_to_gmap Bot senders in
    let receive := fun (out : option NetworkValue) (bcast_data round1_contributions : RoleValueMap) =>
      SRound out (generic_receive_from_all_senders (my_role session) senders ∅)
        (fun inbox =>
           let r := receive_contribution_from_all_senders round1_contributions (my_role session)
                      senders ∅ inbox in
           echo_phase session senders bcast_data r.1 r.2) in
    match my_message, is_sender with
    | Some m, true => receive (Some (Send m)) (<[my_role session := m]> bots) {[my_role session := m]}
    | None, false => receive None bots ∅
    | _, _ => SDone (Err "A sender must have a value in reliable broadcast"%string)
    end.

Definition broadcast_from_all (session : BcastSession) (my_message : BroadcastValue W)
    : Sync NetworkValue RoleValueMap :=
  bcast_execute session (roles session) (Some my_message).

(** [BaseSession::add_corrupt]: a party never adds itself. *)
Definition add_corrupt (session : BcastSession) (role : Role) : BcastSession :=
  if role =? my_role session then session
  else mkBcastSession (my_role session) (roles session) (threshold session) ({[role]} ∪ corrupt_roles session).

(** The loop over the senders that adds those without a result to the corrupt set. *)
Fixpoint add_bot_senders (broadcast_res : RoleValueMap) (senders : list Role) (session : BcastSession)
    : BcastSession * Res string RoleValueMap :=
  match senders with
  | [] => (session, Ok broadcast_res)
  | role :: senders' =>
      if decide (role ∈ corrupt_roles session) then add_bot_senders broadcast_res senders' session
      else
        match broadcast_res !! role with
        | None => (session, Err "Cannot find the role in broadcast's result."%string)
        | Some Bot => add_bot_senders broadcast_res senders' (add_corrupt session role)
        | Some (Value _) => add_bot_senders broadcast_res senders' session
        end
  end.

(** [broadcast_w_corrupt_set_update]: the session after the call, and its result. *)
Definition broadcast_w_corrupt_set_update (session : BcastSession) (senders : gset Role)
    (my_message : option (BroadcastValue W)) : Sync NetworkValue (BcastSession * Res string RoleValueMap) :=
  let known_corrupt := corrupt_roles session in
  let senders_without_corrupt := senders ∖ known_corrupt in
  let reduced := mkBcastSession (my_role session) (roles session ∖ known_corrupt) (threshold session) known_corrupt in
  sfinally (bcast_execute reduced senders_without_corrupt my_message)
    (fun r => match r with
       | Ok broadcast_res =>
           add_bot_senders (gset_to_gmap Bot known_corrupt ∪ broadcast_res)
             (hash_iter (gset_to_gmap tt senders_without_corrupt)).*1 session
       | Err e => (reduced, Err e)
       | Panic => (reduced, Panic)
       | Timeout => (reduced, Timeout)
       end).

Definition broadcast_from_all_w_corrupt_set_update (session : BcastSession) (my_message : BroadcastValue W)
    : Sync NetworkValue (BcastSession * Res string RoleValueMap) :=
  broadcast_w_corrupt_set_update session (roles session) (Some my_message).
End Broadcast.

Arguments NetworkValue : clear implicits.
Arguments Send {W H} v.
Arguments EchoBatch {W H} m.
Arguments VoteBatch {W H} m.
Arguments Empty {W H}.
Arguments OtherValue {W H}.
