(* ===== verification/BroadcastCount.v ===== *)
(** * Counting echos and votes (core/threshold-execution/src/communication/broadcast.rs)

    What the loops of the broadcast compute: the count of a key grows by the number of
    messages that contain it, a vote message contains the registered keys, and the
    loops over maps do not depend on the order of iteration where it matters. *)

From stdpp Require Import base countable gmap sets list fin_maps fin_sets strings.
From S2P Require Import Prelude Role Sync Broadcast.

Set Default Proof Using "Type".

(** The count of a key, zero when there is none. *)
Definition hits {K : Type} `{Countable K} (m : gmap K nat) (k : K) : nat := default 0 (m !! k).

(** Every key of the map was counted. *)
Definition counted {K : Type} `{Countable K} (m : gmap K nat) : Prop := forall k, is_Some (m !! k) -> 0 < hits m k.

Lemma hits_pos {K} `{Countable K} (m : gmap K nat) k : 0 < hits m k -> is_Some (m !! k).
Proof. unfold hits. destruct (m !! k); simpl; [eauto | lia]. Qed.

Lemma hits_lookup {K} `{Countable K} (m : gmap K nat) k n : m !! k = Some n -> hits m k = n.
Proof. unfold hits. by intros ->. Qed.

Lemma hash_iter_elem {HI : HashIter} {K V} `{Countable K} (m : gmap K V) k v :
  (k, v) ∈ hash_iter m <-> m !! k = Some v.
Proof. rewrite hash_iter_perm. apply elem_of_map_to_list. Qed.

Lemma hash_iter_NoDup {HI : HashIter} {K V} `{Countable K} (m : gmap K V) : NoDup (hash_iter m).*1.
Proof. rewrite hash_iter_perm. apply NoDup_fst_map_to_list. Qed.

Lemma hash_iter_fst {HI : HashIter} {K V} `{Countable K} (m : gmap K V) k :
  k ∈ (hash_iter m).*1 <-> is_Some (m !! k).
Proof.
  rewrite list_elem_of_fmap. split.
  - intros ([k' v] & -> & Hv). apply hash_iter_elem in Hv. eauto.
  - intros [v Hv]. exists (k, v). by rewrite hash_iter_elem.
Qed.

Section Count.
Context {W H : Type} `{Countable W} `{Countable H} {HI : HashIter}.
Context {T : Type} `{Countable T}.
Variable match_fn : NetworkValue W H -> option (gmap Role T).
Implicit Types (x : Net (NetworkValue W H)) (key : Role * T) (m : gmap (Role * T) nat).

(** The message contains the key. *)
Definition supports x key : bool :=
  match job_outcome match_fn x with
  | Some (Some m) => bool_decide (m !! key.1 = Some key.2)
  | _ => false
  end.

(** The number of messages that contain the key. *)
Definition supporters (inbox : list (Role * Net (NetworkValue W H))) key : nat :=
  length (filter (fun e => supports e.2 key) inbox).

Lemma count_entry_hits m e key : hits (count_entry m e) key = hits m key + (if decide (e = key) then 1 else 0).
Proof.
  unfold count_entry, hits. case_decide as He.
  - subst. rewrite lookup_insert_eq. simpl. lia.
  - rewrite lookup_insert_ne by done. lia.
Qed.

Lemma count_entries_hits m (l : list (Role * T)) key : NoDup l.*1 ->
  hits (foldl count_entry m l) key = hits m key + (if decide (key ∈ l) then 1 else 0).
Proof.
  revert m. induction l as [|e l IH]; intros m Hl; [|simpl].
  { destruct (decide (key ∈ [])) as [Hk|]; [by apply not_elem_of_nil in Hk | simpl; lia]. }
  apply NoDup_cons in Hl as [He Hl]. rewrite IH, count_entry_hits by done.
  destruct (decide (e = key)) as [->|Hne].
  - rewrite (decide_True (P := key ∈ key :: l)) by left.
    rewrite decide_False; [lia|]. intros Hk. apply He. by apply list_elem_of_fmap_2.
  - destruct (decide (key ∈ l)) as [Hk|Hk]; [rewrite decide_True by (by right) | rewrite decide_False by set_solver]; lia.
Qed.

Lemma count_entry_counted m e : counted m -> counted (count_entry m e).
Proof.
  intros Hm k. unfold count_entry, hits. destruct (decide (e = k)) as [->|Hne].
  - rewrite lookup_insert_eq. simpl. lia.
  - rewrite !lookup_insert_ne by done. apply Hm.
Qed.

Lemma count_entries_counted m l : counted m -> counted (foldl count_entry m l).
Proof. revert m. induction l as [|e l IH]; intros m Hm; simpl; [done | by apply IH, count_entry_counted]. Qed.

(** Counting a batch of messages never fails in a build without assertions. *)
Lemma count_answers_ok n inbox m answering : counted m ->
  exists m' answering', count_answers false match_fn n inbox m answering = Ok (m', answering') /\
    (forall key, hits m' key = hits m key + supporters inbox key) /\ counted m' /\
    answering ⊆ answering' /\ (forall j x, (j, x) ∈ inbox -> x <> Elapsed -> j ∈ answering').
Proof.
  revert m answering. induction inbox as [|[j x] inbox IH]; intros m answering Hm; simpl.
  - exists m, answering. split_and!; [done | intros key; unfold supporters; simpl; lia | done | done | by intros ?? ?%not_elem_of_nil].
  - assert (Hcons : forall key, supporters ((j, x) :: inbox) key = (if supports x key then 1 else 0) + supporters inbox key).
    { intros key. unfold supporters. rewrite filter_cons. simpl. destruct (supports x key); by simpl. }
    destruct (job_outcome match_fn x) as [[d|]|] eqn:Hx.
    + destruct (IH (foldl count_entry m (hash_iter d)) ({[j]} ∪ answering)) as (m' & a' & -> & Hh & Hc & Hs & Ha);
        [by apply count_entries_counted|].
      exists m', a'. split_and!; [done | | done | set_solver |].
      * intros key. rewrite Hh, Hcons, count_entries_hits by apply hash_iter_NoDup. unfold supports. rewrite Hx.
        destruct key as [r v]. destruct (decide ((r, v) ∈ hash_iter d)) as [Hd|Hd]; rewrite hash_iter_elem in Hd; simpl.
        -- rewrite bool_decide_eq_true_2 by done. lia.
        -- rewrite bool_decide_eq_false_2 by done. lia.
      * intros j' x' [[= -> ->]|Hin]%elem_of_cons Hne; [set_solver | eauto].
    + destruct (IH m ({[j]} ∪ answering) Hm) as (m' & a' & -> & Hh & Hc & Hs & Ha).
      exists m', a'. split_and!; [done | | done | set_solver |].
      * intros key. rewrite Hh, Hcons. unfold supports. rewrite Hx. lia.
      * intros j' x' [[= -> ->]|Hin]%elem_of_cons Hne; [set_solver | eauto].
    + destruct (IH m answering Hm) as (m' & a' & -> & Hh & Hc & Hs & Ha).
      exists m', a'. split_and!; [done | | done | done |].
      * intros key. rewrite Hh, Hcons. unfold supports. rewrite Hx. lia.
      * intros j' x' [[= -> ->]|Hin]%elem_of_cons Hne; [by destruct x | eauto].
Qed.
End Count.

(** ** The loops of the phases *)

Section Loops.
Context {W H : Type} `{Countable W} `{Countable H} {HI : HashIter}.
Notation BV := (BroadcastValue W).
Notation NV := (NetworkValue W H).
Implicit Types (inbox : list (Role * Net NV)).

(** The contributions are those of the messages, and of the map before. *)
Lemma contributions_ok inbox (data : gmap Role BV) answering : NoDup inbox.*1 ->
  let '(data', answering') := foldl add_contribution (data, answering) inbox in
  (forall p v, (p, Msg (Send v)) ∈ inbox -> data' !! p = Some v) /\
  (forall p, p ∉ inbox.*1 -> data' !! p = data !! p) /\
  (forall p x, (p, x) ∈ inbox -> x <> Elapsed -> p ∈ answering') /\ answering ⊆ answering'.
Proof.
  revert data answering. induction inbox as [|[j x] inbox IH]; intros data answering Hnd; simpl.
  { split_and!; [by intros ?? ?%not_elem_of_nil | done | by intros ?? ?%not_elem_of_nil | done]. }
  apply NoDup_cons in Hnd as [Hj Hnd].
  set (a := add_contribution (data, answering) (j, x)).
  specialize (IH a.1 a.2 Hnd). rewrite <- surjective_pairing in IH.
  destruct (foldl add_contribution a inbox) as [data' answering'].
  destruct IH as (Hin & Hout & Hans & Hsub).
  assert (Ha : (forall p, p <> j -> a.1 !! p = data !! p) /\ (forall v, x = Msg (Send v) -> a.1 !! j = Some v) /\
    answering ⊆ a.2 /\ (x <> Elapsed -> j ∈ a.2)).
  { unfold a, add_contribution. simpl.
    destruct x as [| |[]]; simpl; split_and!; intros; simplify_eq;
      rewrite ?lookup_insert_eq, ?lookup_insert_ne by done; try done; set_solver. }
  destruct Ha as (Ha1 & Ha2 & Ha3 & Ha4). split_and!.
  - intros p v [[= -> <-]|Hp]%elem_of_cons; [|eauto]. rewrite Hout by done. by apply Ha2.
  - intros p Hp. simpl in Hp. apply not_elem_of_cons in Hp as [Hne Hp]. by rewrite Hout, Ha1.
  - intros p y [[= -> ->]|Hp]%elem_of_cons Hy; [set_solver | eauto].
  - set_solver.
Qed.

(** The hashes of the values with a quorum are registered, and every value is known. *)
Lemma register_echos_ok (hash : BV -> H) `{!Inj (=) (=) hash} entries quorum reg h2v :
  exists reg' h2v', register_echos (fun v => Ok (hash v)) entries quorum reg h2v = Ok (reg', h2v') /\
    (forall role h n, reg' !! (role, h) = Some n -> reg !! (role, h) = Some n \/
       n = 1 /\ exists v num, h = hash v /\ ((role, v), num) ∈ entries /\ quorum <= num) /\
    (forall role v num, ((role, v), num) ∈ entries -> quorum <= num -> is_Some (reg' !! (role, hash v))) /\
    (forall k, is_Some (reg !! k) -> is_Some (reg' !! k)) /\
    (forall role v num, ((role, v), num) ∈ entries -> h2v' !! (role, hash v) = Some v) /\
    (forall role v, h2v !! (role, hash v) = Some v -> h2v' !! (role, hash v) = Some v) /\
    (forall role h v, h2v' !! (role, h) = Some v -> h2v !! (role, h) = Some v \/ h = hash v).
Proof.
  revert reg h2v. induction entries as [|[[r m] k] entries IH]; intros reg h2v; simpl.
  { exists reg, h2v. split_and!; try done; [by left | by intros ??? ?%not_elem_of_nil.. | by left]. }
  edestruct IH as (reg' & h2v' & -> & F1 & F2 & F3 & F4 & F5 & F6). exists reg', h2v'.
  assert (Hins : forall role v w, h2v !! (role, hash v) = Some v \/ (r = role /\ m = v) ->
    <[(r, hash m) := m]> h2v !! (role, hash v) = Some w -> w = v).
  { intros role v w Hv. destruct (decide ((r, hash m) = (role, hash v))) as [Heq|Hne].
    - rewrite <- Heq, lookup_insert_eq. injection Heq as -> ->%(inj hash). congruence.
    - rewrite lookup_insert_ne by done. destruct Hv as [->|[-> ->]]; congruence. }
  split_and!; [done| | | | | |].
  - intros role h n [Hr|(-> & v & num & Hh & Hn & Hq)]%F1.
    + destruct (Nat.leb_spec quorum k) as [Hq|Hq]; [|by left].
      destruct (decide ((r, hash m) = (role, h))) as [[= -> <-]|Hne].
      * rewrite lookup_insert_eq in Hr. injection Hr as <-. right. split; [done|]. exists m, k. by split_and!; [|left|].
      * rewrite lookup_insert_ne in Hr by done. by left.
    + right. split; [done|]. exists v, num. by split_and!; [|right|].
  - intros role v num [[= -> -> ->]|Hin]%elem_of_cons Hq; [|eauto].
    apply F3. rewrite (proj2 (Nat.leb_le _ _) Hq), lookup_insert_eq. eauto.
  - intros key Hk. apply F3. destruct (quorum <=? k); [|done]. by apply lookup_insert_is_Some'; right.
  - intros role v num [[= -> -> ->]|Hin]%elem_of_cons; [|eauto]. apply F5. by rewrite lookup_insert_eq.
  - intros role v Hv. apply F5. destruct (<[(r, hash m):=m]> h2v !! (role, hash v)) as [w|] eqn:Hw.
    + by rewrite (Hins role v w) by auto.
    + apply lookup_insert_None in Hw as [Hw _]. congruence.
  - intros role h v [Hv|Hv]%F6; [|by right]. destruct (decide ((r, hash m) = (role, h))) as [[= -> <-]|Hne].
    + rewrite lookup_insert_eq in Hv. injection Hv as ->. by right.
    + rewrite lookup_insert_ne in Hv by done. by left.
Qed.

(** A vote message has one of the hashes that are registered often enough, for each
    role that has one. *)
Lemma cast_threshold_vote_ok (reg : gmap (Role * H) nat) bound :
  exists m, match_vote (cast_threshold_vote (W := W) reg bound) = Some m /\
    (forall role h, m !! role = Some h -> exists n, reg !! (role, h) = Some n /\ bound <= n) /\
    (forall role h n, reg !! (role, h) = Some n -> bound <= n -> is_Some (m !! role)).
Proof.
  unfold cast_threshold_vote.
  set (l := filter _ (hash_iter reg)). set (m := foldl _ ∅ l). exists m.
  split; [by case_decide as Hm; [rewrite Hm|]|].
  assert (Hl : forall role h n, ((role, h), n) ∈ l <-> reg !! (role, h) = Some n /\ bound <= n).
  { intros role h n. unfold l. rewrite list_elem_of_filter, hash_iter_elem. simpl. tauto. }
  assert (Hm : (forall role h, m !! role = Some h -> exists n, ((role, h), n) ∈ l) /\
    (forall role h n, ((role, h), n) ∈ l -> is_Some (m !! role))).
  { unfold m. clear. induction l as [|[[r x] k] l [IH1 IH2]] using rev_ind.
    - simpl. split; [by intros ?? ?%lookup_empty_Some | by intros ??? ?%not_elem_of_nil].
    - rewrite foldl_snoc. simpl. split.
      + intros role h. destruct (decide (r = role)) as [->|Hne].
        * rewrite lookup_insert_eq. intros [= ->]. exists k. set_solver.
        * rewrite lookup_insert_ne by done. intros [n Hn]%IH1. exists n. set_solver.
      + intros role h n [Hn%IH2|Hn]%elem_of_app; [by apply lookup_insert_is_Some'; right|].
        apply list_elem_of_singleton in Hn as [= -> -> ->]. rewrite lookup_insert_eq. eauto. }
  destruct Hm as [Hm1 Hm2]. split.
  - intros role h [n Hn]%Hm1. exists n. by apply Hl.
  - intros role h n Hr Hn. apply (Hm2 role h n). by apply Hl.
Qed.

(** Joining votes adds one vote to keys with enough of them, and casts only those. *)
Lemma join_votes_ok bound entries (v : VoteRound (H := H)) : NoDup entries.*1 ->
  (forall role h n, ((role, h), n) ∈ entries -> vr_registered v !! (role, h) = Some n) ->
  (forall role h n, ((role, h), n) ∈ entries -> bound <= n -> role ∈ dom (vr_casted v)) ->
  exists v', join_votes bound entries v = Ok v' /\ dom (vr_casted v') = dom (vr_casted v) /\
    (forall k, hits (vr_registered v) k <= hits (vr_registered v') k) /\
    (forall k, hits (vr_registered v') k <> hits (vr_registered v) k -> exists n, (k, n) ∈ entries /\ bound <= n) /\
    (forall k n, vr_round v' !! k = Some n -> vr_round v !! k = Some n \/ (k, n) ∈ entries /\ bound <= n) /\
    (counted (vr_registered v) -> counted (vr_registered v')).
Proof.
  revert v. induction entries as [|[[r m] k] entries IH]; intros v Hnd Hreg Hdom; simpl.
  { exists v. split_and!; auto; done. }
  apply NoDup_cons in Hnd as [Hm Hnd].
  assert (Hskip : exists v', join_votes bound entries v = Ok v' /\ dom (vr_casted v') = dom (vr_casted v) /\
    (forall k, hits (vr_registered v) k <= hits (vr_registered v') k) /\
    (forall k', hits (vr_registered v') k' <> hits (vr_registered v) k' -> exists n, (k', n) ∈ ((r, m), k) :: entries /\ bound <= n) /\
    (forall k' n, vr_round v' !! k' = Some n -> vr_round v !! k' = Some n \/ (k', n) ∈ ((r, m), k) :: entries /\ bound <= n) /\
    (counted (vr_registered v) -> counted (vr_registered v'))).
  { destruct (IH v) as (v' & ? & ? & ? & Hd & Hr & ?); [done | intros; apply Hreg; by right
      | intros role h n Hin; apply (Hdom role h n); by right |].
    exists v'. split_and!; [done..| | |done].
    - intros key (n & Hn & Hb)%Hd. exists n. split; [by right | done].
    - intros key n [Hn|[Hn Hb]]%Hr; [by left | right; split; [by right | done]]. }
  destruct (Nat.leb_spec bound k) as [Hb|Hb]; [|exact Hskip].
  destruct (vr_casted v !! r) as [[]|] eqn:Hc; [exact Hskip| |].
  2: { apply not_elem_of_dom in Hc. destruct Hc. apply (Hdom r m k); [by left | done]. }
  assert (Hk : vr_registered v !! (r, m) = Some k) by (apply Hreg; by left).
  destruct (IH (mkVoteRound (<[(r, m) := S k]> (vr_registered v)) (<[r := true]> (vr_casted v))
    (<[(r, m) := k]> (vr_round v)))) as (v' & -> & Hdv & Hle & Hd & Hr & Hcnt); simpl in *.
  - done.
  - intros role h n Hin. rewrite lookup_insert_ne; [apply Hreg; by right|].
    intros [= -> ->]. apply Hm. by apply (list_elem_of_fmap_2 fst) in Hin.
  - intros role h n Hin Hn. rewrite dom_insert. apply elem_of_union_r, (Hdom role h n); [by right | done].
  - exists v'. assert (Hins : forall key, hits (<[(r, m) := S k]> (vr_registered v)) key =
      hits (vr_registered v) key + (if decide ((r, m) = key) then 1 else 0)).
    { intros key. unfold hits. case_decide as Heq; [subst; rewrite lookup_insert_eq, Hk; simpl; lia|].
      rewrite lookup_insert_ne by done. lia. }
    split_and!; [done | | | | |].
    + rewrite Hdv, dom_insert_L. apply elem_of_dom_2 in Hc. set_solver.
    + intros key. specialize (Hle key). rewrite Hins in Hle. lia.
    + intros key Hne. destruct (decide ((r, m) = key)) as [<-|Hkey]; [exists k; split; [by left | done]|].
      destruct (Hd key) as (n & Hn & Hbn); [|exists n; split; [by right | done]].
      rewrite Hins, decide_False by done. lia.
    + intros key n Hn. apply Hr in Hn as [Hn|[Hn Hbn]]; [|right; split; [by right | done]].
      destruct (decide ((r, m) = key)) as [<-|Hkey].
      * rewrite lookup_insert_eq in Hn. injection Hn as <-. right. split; [by left | done].
      * rewrite lookup_insert_ne in Hn by done. by left.
    + intros Hpos. apply Hcnt. intros key Hin. rewrite Hins. case_decide; [lia|].
      rewrite lookup_insert_ne in Hin by done. specialize (Hpos key Hin). lia.
Qed.

(** Votes for distinct senders are all marked. *)
Lemma mark_casted_ok (keys : list (Role * H)) casted : NoDup keys.*1 ->
  (forall k, k ∈ keys -> casted !! k.1 = Some false) ->
  exists casted', mark_casted keys casted = Ok casted' /\ dom casted' = dom casted.
Proof.
  revert casted. induction keys as [|[r h] keys IH]; intros casted Hnd Hc; simpl; [eauto|].
  apply NoDup_cons in Hnd as [Hr Hnd]. pose proof (Hc (r, h) ltac:(left)) as Hrf. simpl in Hrf. rewrite Hrf.
  destruct (IH (<[r := true]> casted)) as (casted' & -> & Hd); [done| |].
  - intros k Hk. rewrite lookup_insert_ne; [apply Hc; by right|].
    intros Heq. apply Hr. rewrite Heq. apply list_elem_of_fmap. by exists k.
  - exists casted'. split; [done|]. rewrite Hd, dom_insert_L. apply elem_of_dom_2 in Hrf. set_solver.
Qed.

(** The result has a value with enough votes where there is one. *)
Lemma collect_values_ok (quorum : nat) (entries : list ((Role * H) * nat)) (h2v : gmap (Role * H) BV) (data : gmap Role BV) : NoDup entries.*1 ->
  (forall k n, (k, n) ∈ entries -> quorum <= n -> is_Some (h2v !! k)) ->
  exists data', collect_values quorum entries h2v data = Ok data' /\ forall role,
    data' !! role = data !! role /\ (forall h n, ((role, h), n) ∈ entries -> n < quorum) \/
    exists h n v, ((role, h), n) ∈ entries /\ quorum <= n /\ h2v !! (role, h) = Some v /\ data' !! role = Some v.
Proof.
  revert h2v data. induction entries as [|[[r m] k] entries IH]; intros h2v data Hnd Hv; simpl.
  { exists data. split; [done|]. intros role. left. split; [done|]. by intros ?? ?%not_elem_of_nil. }
  apply NoDup_cons in Hnd as [Hm Hnd]. destruct (Nat.leb_spec quorum k) as [Hk|Hk].
  - destruct (Hv (r, m) k) as [v Hrm]; [by left | done |]. rewrite Hrm.
    assert (Hne : forall key n, (key, n) ∈ entries -> key <> (r, m)).
    { intros key n Hin ->. apply Hm. by apply (list_elem_of_fmap_2 fst) in Hin. }
    destruct (IH (delete (r, m) h2v) (<[r := v]> data)) as (data' & -> & Hd); [done| |].
    + intros key n Hin Hn. rewrite lookup_delete_ne by (intros <-; by apply Hne in Hin).
      apply (Hv key n); [by right | done].
    + exists data'. split; [done|]. intros role. destruct (Hd role) as [[Heq Hno]|(h & n & w & Hin & Hn & Hw & Hdw)].
      * destruct (decide (r = role)) as [->|Hr].
        -- right. exists m, k, v. rewrite lookup_insert_eq in Heq. split_and!; [by left | done..].
        -- left. rewrite lookup_insert_ne in Heq by done. split; [done|].
           intros h n [[= -> -> ->]|Hin]%elem_of_cons; [done | eauto].
      * right. exists h, n, w. rewrite lookup_delete_ne in Hw by (intros Heq; by apply Hne in Hin).
        split_and!; [by right | done..].
  - destruct (IH h2v data) as (data' & -> & Hd); [done | intros key n Hin; apply Hv; by right |].
    exists data'. split; [done|]. intros role. destruct (Hd role) as [[Heq Hno]|(h & n & w & Hin & ?)].
    + left. split; [done|]. intros h n [[= -> -> ->]|Hin]%elem_of_cons; [done | eauto].
    + right. exists h, n, w. split; [by right | done].
Qed.
End Loops.
