(* ===== verification/BroadcastProps.v ===== *)
(** * What the broadcast guarantees (core/threshold-execution/src/communication/broadcast.rs)

    Against [c] corrupt parties among [n], with [2t + c < n], every honest party ends
    with a result for each sender, the value of an honest sender is its message, and
    two values of one sender are equal, provided that the corrupt parties cannot make
    up a quorum of votes by themselves.  A party counts a vote again in every round, so
    this excludes two corrupt parties that repeat a vote; it is no restriction for one
    corrupt party, or when votes are not repeated. *)

From stdpp Require Import base countable gmap sets list fin_maps fin_sets strings.
From S2P Require Import Prelude Role Sync Broadcast BroadcastCount.

(** ** Messages that contain a key *)

Section Support.
Context {W H : Type} `{Countable W} `{Countable H} {HI : HashIter}.
Context {T : Type} `{Countable T} {A : Type}.
Notation NV := (NetworkValue W H).
Variables (all honest : gset Role) (adv : nat -> Role -> Role -> Net NV).
Notation n := (size all).
Notation corrupt := (all ∖ honest).
Notation c := (size corrupt).
Variable match_fn : NV -> option (gmap Role T).
Implicit Types (st : Role -> Sync NV A) (key : Role * T).

Definition honest_for st (i : Role) key : gset Role :=
  filter (fun j => supports match_fn (sent (st j)) key) (honest ∖ {[i]}).

Definition corrupt_for (round : nat) (i : Role) key : gset Role :=
  filter (fun j => supports match_fn (adv round i j) key) corrupt.

Lemma supporters_size round st i from inbox key : delivered honest adv round st i from inbox ->
  supporters match_fn inbox key =
  size (filter (fun j => supports match_fn (received honest adv round st i j) key) from : gset Role).
Proof.
  intros Hd. unfold supporters, delivered in *. rewrite Hd. clear Hd. generalize (received honest adv round st i) as f. intros f.
  rewrite <- (list_to_set_elements_L from) at 2. pose proof (NoDup_elements from) as Hnd.
  induction (elements from) as [|j l IH]; [done|]. apply NoDup_cons in Hnd as [Hj Hnd].
  simpl. rewrite filter_cons. simpl. rewrite filter_union_L, (filter_singleton_L (C := gset Role)) by apply _.
  destruct (decide (supports match_fn (f j) key)) as [Hs|Hs].
  - rewrite size_union, size_singleton; [simpl; by rewrite IH|].
    rewrite disjoint_singleton_l, elem_of_filter, elem_of_list_to_set. tauto.
  - by rewrite (left_id_L ∅ (∪)), IH.
Qed.

(** The count of a key, up to the messages of the corrupt parties. *)
Lemma supporters_bounds round st i na inbox key : honest ⊆ all -> na ## honest ->
  delivered honest adv round st i (generic_receive_from_all_senders i all na) inbox ->
  size (honest_for st i key) <= supporters match_fn inbox key <=
    size (honest_for st i key) + size (corrupt_for round i key).
Proof.
  intros Hsub Hna Hd. rewrite (supporters_size _ _ _ _ _ key Hd). unfold generic_receive_from_all_senders.
  set (S := filter _ _). split.
  - apply subseteq_size. intros j Hj. unfold honest_for in Hj. unfold S.
    apply elem_of_filter in Hj as [Hs Hj]. apply elem_of_filter. split; [|set_solver].
    unfold received. by rewrite decide_True by set_solver.
  - trans (size (honest_for st i key ∪ corrupt_for round i key)).
    + apply subseteq_size. intros j Hj. unfold S in Hj. apply elem_of_filter in Hj as [Hs Hj].
      unfold received in Hs. apply elem_of_union. unfold honest_for, corrupt_for. rewrite !elem_of_filter.
      case_decide; [left | right]; (split; [done | set_solver]).
    + rewrite size_union_alt. apply Nat.add_le_mono_l, subseteq_size. set_solver.
Qed.

Lemma corrupt_for_size round i key : size (corrupt_for round i key) <= c.
Proof. apply subseteq_size. unfold corrupt_for. set_solver. Qed.

(** Honest parties that are heard are not logged as missing. *)
Lemma answering_honest round st i na inbox m : na ## honest -> counted m -> honest ⊆ all ->
  delivered honest adv round st i (generic_receive_from_all_senders i all na) inbox ->
  (forall j, j ∈ honest -> sent (st j) <> Elapsed) ->
  exists m' na', internal_process_echos_or_votes false match_fn i inbox m n na = Ok (m', na') /\
    (forall key, hits m' key = hits m key + supporters match_fn inbox key) /\ counted m' /\ na' ## honest.
Proof.
  intros Hna Hm Hsub Hd Hsent. unfold internal_process_echos_or_votes.
  destruct (count_answers_ok match_fn n inbox m ∅ Hm) as (m' & a & -> & Hh & Hc & _ & Ha).
  exists m', (na ∪ (list_to_set (seq 1 n) ∖ a ∖ {[i]})). split_and!; [done..|].
  intros j Hj Hjh. apply elem_of_union in Hj as [Hj|Hj]; [set_solver|].
  apply elem_of_difference in Hj as [Hj Hji]. apply elem_of_difference in Hj as [_ Hja]. destruct Hja.
  apply (Ha j (received honest adv round st i j)).
  - apply (delivered_elem _ _ _ _ _ _ _ _ _ Hd). split; [|done]. unfold generic_receive_from_all_senders. set_solver.
  - unfold received. rewrite decide_True by done. by apply Hsent.
Qed.
End Support.

Section Props.
Context {W H : Type} `{Countable W} `{Countable H} {HI : HashIter}.
Notation BV := (BroadcastValue W).
Notation NV := (NetworkValue W H).

Variables (hash : BV -> H) (all honest : gset Role) (t : nat) (senders : gset Role) (msg : Role -> BV).
Variables (known : Role -> gset Role) (adv : nat -> Role -> Role -> Net NV).
Context `{!Inj (=) (=) hash}.

Notation n := (size all).
Notation corrupt := (all ∖ honest).
Notation c := (size corrupt).

Definition to_hash (v : BV) : Res string H := Ok (hash v).

(** The session of a party, and its run of the broadcast. *)
Definition session_of (i : Role) : BcastSession := mkBcastSession i all t (known i).

Definition message_of (i : Role) : option BV := if decide (i ∈ senders) then Some (msg i) else None.

(** A build without debug assertions, as the service is released: with them a corrupt
    party makes every receiver panic by an oversized batch. *)
Definition parties (i : Role) : Sync NV (gmap Role BV) :=
  bcast_execute to_hash false (session_of i) senders (message_of i).


(** ** Votes of corrupt parties *)

(** The votes for a key that the corrupt parties send to [i] in [r] vote rounds; the
    first vote round is the third round of the run. *)
Fixpoint forged_votes (i : Role) (key : Role * H) (r : nat) : nat :=
  match r with
  | 0 => 0
  | S r' => forged_votes i key r' + size (corrupt_for all honest adv match_vote (S r) i key)
  end.

(** The corrupt parties alone never have enough votes for a party to join or accept. *)
Definition votes_below_quorum : Prop := forall i key, i ∈ honest ->
  (forall r, 1 <= r <= t -> forged_votes i key r < t + r) /\ forged_votes i key (t + 1) < n - t.

(** ** The vote phase *)

Section Vote.
Variable V : Role * H -> Prop.
Hypothesis honest_sub : honest ⊆ all.
Hypothesis few_corrupt : c <= t.
Hypothesis below : votes_below_quorum.
Hypothesis V_sender : forall role h, V (role, h) -> role ∈ senders.
Hypothesis V_unique : forall role h h', V (role, h) -> V (role, h') -> h = h'.

(** The key of an honest sender. *)
Definition own_key (s : Role) : Role * H := (s, hash (msg s)).

Definition opens (h2v : gmap (Role * H) BV) : Prop :=
  forall role h, V (role, h) -> exists v, h2v !! (role, h) = Some v /\ h = hash v.

Definition initial_data (i : Role) : gmap Role BV :=
  if decide (i ∈ senders) then <[i := msg i]> (gset_to_gmap Bot senders) else gset_to_gmap Bot senders.

(** What a party knows before vote round [r]. *)
Record voter_ok (r : nat) (i : Role) (vote : NV) (reg : gmap (Role * H) nat) (casted : gmap Role bool)
    (na : gset Role) : Prop := mkVoterOk {
  vo_vote : forall key, supports match_vote (Msg vote) key -> V key;
  vo_first : r = 1 -> forall s, s ∈ honest -> s ∈ senders -> supports match_vote (Msg vote) (own_key s);
  vo_forged : forall key, V key \/ hits reg key <= forged_votes i key (r - 1);
  vo_own : forall s, s ∈ honest -> s ∈ senders -> (if r =? 1 then 1 else n - c) <= hits reg (own_key s);
  vo_counted : counted reg;
  vo_casted : dom casted = senders;
  vo_answering : na ## honest
}.

Definition voter (r : nat) (i : Role) (p : Sync NV (gmap Role BV)) : Prop :=
  exists vote reg casted na h2v, voter_ok r i vote reg casted na /\ opens h2v /\
    p = sbind (gather_votes false (session_of i) (t + 2 - r) r vote reg casted na)
          (fun votes => SDone (collect_values (n - t) (hash_iter votes) h2v (initial_data i))).

(** What a party ends with. *)
Definition result_ok (i : Role) (out : Res string (gmap Role BV)) : Prop :=
  exists data, out = Ok data /\ dom data = senders /\
    (forall s, s ∈ honest -> s ∈ senders -> data !! s = Some (msg s)) /\
    (forall role v, data !! role = Some v -> v = Bot \/ role ∈ honest \/ V (role, hash v)).

Lemma honest_size : size honest = n - c.
Proof. rewrite size_difference by done. pose proof (subseteq_size _ _ honest_sub). lia. Qed.

Lemma voter_sent r j p : 1 <= r <= t + 1 -> voter r j p ->
  exists vote, sent p = Msg vote /\ (forall key, supports match_vote (Msg vote) key -> V key) /\
    (r = 1 -> forall s, s ∈ honest -> s ∈ senders -> supports match_vote (Msg vote) (own_key s)).
Proof.
  intros Hr (vote & reg & casted & na & h2v & Hok & _ & ->). exists vote.
  replace (t + 2 - r) with (S (t + 1 - r)) by lia. split_and!; [done | apply Hok..].
Qed.

(** The votes that a party counts in a round. *)
Lemma voter_count r st i inbox vote reg casted na : 1 <= r <= t + 1 -> i ∈ honest ->
  (forall j, j ∈ honest -> voter r j (st j)) -> voter_ok r i vote reg casted na ->
  delivered honest adv (S r) st i (generic_receive_from_all_senders i all na) inbox ->
  exists reg' na', internal_process_echos_or_votes false match_vote i inbox reg n na = Ok (reg', na') /\
    (forall key, V key \/ hits reg' key <= forged_votes i key r) /\
    (forall s, s ∈ honest -> s ∈ senders -> n - c <= hits reg' (own_key s)) /\ counted reg' /\ na' ## honest.
Proof.
  intros Hr Hi Hst Hok Hd.
  destruct (answering_honest all honest adv match_vote (S r) st i na inbox reg) as (reg' & na' & Hp & Hh & Hc & Hna);
    [apply Hok.. | done | done | |].
  { intros j Hj. by destruct (voter_sent r j (st j)) as (v & -> & _); [|apply Hst|]. }
  exists reg', na'. split_and!; [done | | | done..].
  - intros key. destruct (vo_forged _ _ _ _ _ _ Hok key) as [HV|Hf]; [by left|].
    pose proof (supporters_bounds all honest adv match_vote (S r) st i na inbox key honest_sub (vo_answering _ _ _ _ _ _ Hok) Hd) as [_ Hub].
    destruct (set_choose_or_empty (honest_for honest match_vote st i key)) as [[j Hj]|He].
    + left. apply elem_of_filter in Hj as [Hs Hj]. destruct (voter_sent r j (st j)) as (v & Hv & HV & _); [done | apply Hst; set_solver |].
      apply HV. by rewrite <- Hv.
    + right. rewrite Hh. apply leibniz_equiv in He. rewrite He, size_empty in Hub.
      destruct r as [|r]; [lia|]. simpl in *. rewrite Nat.sub_0_r in Hf. lia.
  - intros s Hs Hss. rewrite Hh. pose proof (vo_own _ _ _ _ _ _ Hok s Hs Hss) as Hown.
    destruct (Nat.eqb_spec r 1) as [->|Hr1]; [|lia].
    pose proof (supporters_bounds all honest adv match_vote 2 st i na inbox (own_key s) honest_sub (vo_answering _ _ _ _ _ _ Hok) Hd) as [Hlb _].
    assert (Heq : honest_for honest match_vote st i (own_key s) = honest ∖ {[i]}).
    { apply set_eq. intros j. unfold honest_for. rewrite elem_of_filter. split; [by intros [_ ?]|]. intros Hj. split; [|done].
      destruct (voter_sent 1 j (st j)) as (v & -> & _ & Hv); [lia | apply Hst; set_solver | by apply Hv]. }
    rewrite Heq, size_difference, size_singleton, honest_size in Hlb by set_solver. lia.
Qed.

(** A party that counted its votes joins the next vote round. *)
Lemma voter_next r i vote reg casted na reg' na' h2v : 1 <= r <= t -> i ∈ honest -> opens h2v ->
  voter_ok r i vote reg casted na -> counted reg' -> na' ## honest ->
  (forall key, V key \/ hits reg' key <= forged_votes i key r) ->
  (forall s, s ∈ honest -> s ∈ senders -> n - c <= hits reg' (own_key s)) ->
  voter (S r) i
    (let^ votes :=
       let^ v := SDone (join_votes (t + r) (hash_iter reg') (mkVoteRound reg' casted ∅)) in
       gather_votes false (session_of i) (t + 1 - r) (S r) (cast_threshold_vote (vr_round v) (t + r))
         (vr_registered v) (vr_casted v) na' in
     SDone (collect_values (n - t) (hash_iter votes) h2v (initial_data i))).
Proof.
  intros Hr Hi Hop Hok Hc Hna Hf Hown.
  assert (HV : forall key k, reg' !! key = Some k -> t + r <= k -> V key).
  { intros key k Hk Hle. destruct (Hf key) as [|Hle']; [done|]. rewrite (hits_lookup _ _ _ Hk) in Hle'.
    pose proof (proj1 (below i key Hi) r Hr). lia. }
  destruct (join_votes_ok (t + r) (hash_iter reg') (mkVoteRound reg' casted ∅)) as (v & -> & Hdom & Hle & Hne & Hrd & Hcnt).
  { apply hash_iter_NoDup. }
  { intros role h k Hin. by apply hash_iter_elem in Hin. }
  { intros role h k Hin Hk. apply hash_iter_elem in Hin. simpl. rewrite (vo_casted _ _ _ _ _ _ Hok).
    apply (V_sender role h). eauto. }
  simpl in *. exists (cast_threshold_vote (vr_round v) (t + r)), (vr_registered v), (vr_casted v), na', h2v.
  split_and!; [| done | by replace (t + 2 - S r) with (t + 1 - r) by lia].
  destruct (cast_threshold_vote_ok (W := W) (vr_round v) (t + r)) as (m & Hm & Hm1 & _).
  split; simpl; rewrite ?Nat.sub_0_r.
  - intros [role h] Hs. unfold supports in Hs. simpl in Hs. rewrite Hm in Hs. apply bool_decide_unpack in Hs. simpl in Hs.
    apply Hm1 in Hs as (k & Hk & Hb). apply Hrd in Hk as [Hk|[Hk _]]; [by rewrite lookup_empty in Hk|].
    apply hash_iter_elem in Hk. eauto.
  - lia.
  - intros key. destruct (decide (hits (vr_registered v) key = hits reg' key)) as [->|Hd]; [apply Hf|].
    left. apply Hne in Hd as (k & Hk & Hb). apply hash_iter_elem in Hk. eauto.
  - intros s Hs Hss. specialize (Hown s Hs Hss). specialize (Hle (own_key s)). destruct r; [lia|]. simpl. lia.
  - auto.
  - rewrite Hdom. apply Hok.
  - done.
Qed.

(** A party that counted the last votes has its result. *)
Lemma voter_result i reg' h2v : i ∈ honest -> opens h2v -> counted reg' ->
  (forall key, V key \/ hits reg' key <= forged_votes i key (t + 1)) ->
  (forall s, s ∈ honest -> s ∈ senders -> V (own_key s) /\ n - c <= hits reg' (own_key s)) ->
  result_ok i (collect_values (n - t) (hash_iter reg') h2v (initial_data i)).
Proof.
  intros Hi Hop Hc Hf Hown.
  assert (HV : forall key k, (key, k) ∈ hash_iter reg' -> n - t <= k -> V key).
  { intros key k Hk Hle. apply hash_iter_elem in Hk. destruct (Hf key) as [|Hle']; [done|].
    rewrite (hits_lookup _ _ _ Hk) in Hle'. pose proof (proj2 (below i key Hi)). lia. }
  destruct (collect_values_ok (n - t) (hash_iter reg') h2v (initial_data i)) as (data & -> & Hd).
  { apply hash_iter_NoDup. }
  { intros [role h] k Hin Hk. destruct (Hop role h) as (v & -> & _); eauto. }
  assert (Hval : forall role h k v, ((role, h), k) ∈ hash_iter reg' -> n - t <= k -> h2v !! (role, h) = Some v ->
    V (role, h) /\ h = hash v).
  { intros role h k v Hin Hk Hv. assert (V (role, h)) as HVk by eauto. split; [done|].
    destruct (Hop _ _ HVk) as (v' & Hv' & ->). congruence. }
  assert (Hinit : forall role v, initial_data i !! role = Some v -> v = Bot \/ role ∈ honest).
  { intros role v. unfold initial_data. case_decide; [destruct (decide (i = role)) as [->|]; [by right|] |];
      rewrite ?lookup_insert_ne, lookup_gset_to_gmap_Some by done; intros [_ ->]; by left. }
  exists data. split_and!; [done | | |].
  - apply set_eq. intros role. rewrite elem_of_dom. destruct (Hd role) as [[-> _]|(h & k & v & Hin & Hk & Hv & ->)].
    + rewrite <- elem_of_dom. unfold initial_data. case_decide; rewrite ?dom_insert, dom_gset_to_gmap; set_solver.
    + split; [intros _ | eauto]. destruct (Hval _ _ _ _ Hin Hk Hv) as [HVk _]. eauto.
  - intros s Hs Hss. destruct (Hown s Hs Hss) as [HVs Hhits]. destruct (Hd s) as [[_ Hno]|(h & k & v & Hin & Hk & Hv & ->)].
    + exfalso. assert (size honest <> 0) as Hpos by (apply size_non_empty_iff; set_solver). rewrite honest_size in Hpos.
      destruct (hits_pos reg' (own_key s)) as [k Hk]; [lia|]. rewrite (hits_lookup _ _ _ Hk) in Hhits.
      specialize (Hno (hash (msg s)) k). rewrite hash_iter_elem in Hno. specialize (Hno Hk). lia.
    + destruct (Hval _ _ _ _ Hin Hk Hv) as [HVk ->]. f_equal. apply (inj hash). by apply (V_unique s).
  - intros role v Hv. destruct (Hd role) as [[Heq _]|(h & k & w & Hin & Hk & Hw & Heq)]; rewrite Heq in Hv.
    + destruct (Hinit _ _ Hv) as [->|]; auto.
    + injection Hv as ->. destruct (Hval _ _ _ _ Hin Hk Hw) as [HVk ->]. auto.
Qed.

(** The program of a party after it received the votes of a round. *)
Lemma voter_advance r st inb j : 1 <= r <= t + 1 -> j ∈ honest ->
  (forall j, j ∈ honest -> voter r j (st j)) -> delivery honest adv (S r) st inb ->
  exists vote reg casted na h2v reg' na',
    voter_ok r j vote reg casted na /\ opens h2v /\ counted reg' /\ na' ## honest /\
    (forall key, V key \/ hits reg' key <= forged_votes j key r) /\
    (forall s, s ∈ honest -> s ∈ senders -> n - c <= hits reg' (own_key s)) /\
    advance (st j) (inb j) =
      (let^ votes := if r =? t + 1 then SDone (Ok reg') else
         let^ v := SDone (join_votes (t + r) (hash_iter reg') (mkVoteRound reg' casted ∅)) in
         gather_votes false (session_of j) (t + 1 - r) (S r) (cast_threshold_vote (vr_round v) (t + r))
           (vr_registered v) (vr_casted v) na' in
       SDone (collect_values (n - t) (hash_iter votes) h2v (initial_data j))).
Proof.
  intros Hr Hj Hst Hd. destruct (Hst j Hj) as (vote & reg & casted & na & h2v & Hok & Hop & Heq).
  specialize (Hd j Hj). rewrite Heq in Hd |- *. replace (t + 2 - r) with (S (t + 1 - r)) in Hd |- * by lia.
  cbn [gather_votes sbind advance my_role roles session_of] in Hd |- *.
  destruct (voter_count r st j (inb j) vote reg casted na) as (reg' & na' & Hp & ? & ? & ? & ?); [done..|].
  exists vote, reg, casted, na, h2v, reg', na'. split_and!; try done.
  unfold num_parties. cbn [roles session_of]. by rewrite Hp.
Qed.

(** The vote rounds end with the results. *)
Lemma vote_run k r st outs : k = t + 1 - r -> 1 <= r <= t + 1 ->
  (forall s, s ∈ honest -> s ∈ senders -> V (own_key s)) ->
  (forall j, j ∈ honest -> voter r j (st j)) ->
  run honest adv (S r) st outs -> forall i, i ∈ honest -> result_ok i (outs i).
Proof.
  intros Hk Hr HV Hst Hrun i Hi. revert r st Hk Hr Hst Hrun. induction k as [|k IH]; intros r st Hk Hr Hst Hrun.
  all: apply run_inv in Hrun as (inb & Hd & Hrun);
    [|exists i; split; [done|]; intros x Hx; destruct (voter_sent r i (st i)) as (v & Hv & _); [done | by apply Hst | by rewrite Hx in Hv]].
  - destruct (voter_advance r st inb i) as (vote & reg & casted & na & h2v & reg' & na' & Hok & Hop & Hc & Hna & Hf & Hown & Heq); [done..|].
    assert (r = t + 1) as -> by lia. rewrite Nat.eqb_refl in Heq.
    rewrite (run_done _ _ _ _ _ i _ Hrun Hi Heq). apply voter_result; auto.
  - apply (IH (S r) (fun j => advance (st j) (inb j))); [lia | lia | | done].
    intros j Hj.
    destruct (voter_advance r st inb j) as (vote & reg & casted & na & h2v & reg' & na' & Hok & Hop & Hc & Hna & Hf & Hown & ->); [done..|].
    rewrite (proj2 (Nat.eqb_neq _ _)) by lia. eapply voter_next; eauto. lia.
Qed.

(** The start of the vote phase. *)
Lemma vote_phase_voter i reg h2v na : counted reg -> na ## honest -> opens h2v ->
  (forall key, is_Some (reg !! key) -> V key) ->
  (forall s, s ∈ honest -> s ∈ senders -> is_Some (reg !! own_key s)) ->
  voter 1 i (vote_phase false (session_of i) senders (initial_data i) reg h2v na).
Proof.
  intros Hc Hna Hop HV Hown. unfold vote_phase.
  destruct (mark_casted_ok (hash_iter reg).*1 (gset_to_gmap false senders)) as (casted & -> & Hdom).
  { apply NoDup_fmap_2_strong; [|apply hash_iter_NoDup]. intros [r h] [r' h'] Hx Hy. simpl. intros ->. f_equal.
    apply hash_iter_fst in Hx, Hy. by apply (V_unique r'); apply HV. }
  { intros [r h] Hin. apply lookup_gset_to_gmap_Some. split; [|done]. apply hash_iter_fst in Hin. apply (V_sender r h). auto. }
  rewrite dom_gset_to_gmap in Hdom. unfold num_parties. cbn [roles threshold session_of].
  exists (cast_threshold_vote reg 1), reg, casted, na, h2v.
  destruct (cast_threshold_vote_ok (W := W) reg 1) as (m & Hm & Hm1 & Hm2).
  assert (Hsup : forall key, supports match_vote (Msg (cast_threshold_vote (W := W) reg 1)) key <-> m !! key.1 = Some key.2).
  { intros [r h]. unfold supports. simpl. rewrite Hm. apply bool_decide_spec. }
  split_and!; [|done | by replace (t + 2 - 1) with (t + 1) by lia].
  split; simpl; [| | | |done|done|done].
  - intros [r h] Hs. apply Hsup, Hm1 in Hs as (k & Hk & _). eauto.
  - intros _ s Hs Hss. apply Hsup. simpl. destruct (Hown s Hs Hss) as [k Hk].
    assert (1 <= k). { specialize (Hc (own_key s)). rewrite (hits_lookup _ _ _ Hk) in Hc. apply Hc. eauto. }
    destruct (Hm2 s (hash (msg s)) k) as [h Hh]; [done..|]. rewrite Hh. f_equal.
    apply Hm1 in Hh as (k' & Hk' & _). apply (V_unique s); apply HV; [eauto | by exists k].
  - intros key. unfold hits. destruct (reg !! key) eqn:Hk; [left; eauto | right; simpl; lia].
  - intros s Hs Hss. apply Hc. auto.
Qed.
End Vote.

(** ** The echo phase *)

Section Echo.
Variable echo : Role -> gmap Role BV.
Hypothesis honest_sub : honest ⊆ all.
Hypothesis few_corrupt : c <= t.
Hypothesis quorums_meet : 2 * t + c < n.
Hypothesis echo_senders : forall i, i ∈ honest -> dom (echo i) ⊆ senders.
Hypothesis echo_honest : forall i s, i ∈ honest -> s ∈ honest -> s ∈ senders -> echo i !! s = Some (msg s).

(** The honest parties that echo a value of a role. *)
Definition echoers (role : Role) (v : BV) : gset Role := filter (fun j => echo j !! role = Some v) honest.

(** The keys that some honest party can vote for after the echos. *)
Definition votable (key : Role * H) : Prop :=
  exists v, key.2 = hash v /\ n - t - c <= size (echoers key.1 v).

Lemma echoers_disjoint role v v' : v <> v' -> size (echoers role v) + size (echoers role v') <= n - c.
Proof.
  intros Hv. rewrite <- (honest_size honest_sub few_corrupt).
  rewrite <- size_union; [apply subseteq_size; unfold echoers; set_solver|].
  intros j [Hj _]%elem_of_filter [Hj' _]%elem_of_filter. congruence.
Qed.

Lemma votable_sender role h : votable (role, h) -> role ∈ senders.
Proof.
  intros (v & _ & Hv). simpl in Hv. assert (echoers role v ≢ ∅) as Hne by (apply size_non_empty_iff; lia).
  apply set_choose in Hne as [j Hj]. apply elem_of_filter in Hj as [He Hj].
  apply (echo_senders j Hj), elem_of_dom. eauto.
Qed.

Lemma votable_unique role h h' : votable (role, h) -> votable (role, h') -> h = h'.
Proof.
  intros (v & Hh & Hv) (v' & Hh' & Hv'). simpl in *. subst. destruct (decide (v = v')) as [->|Hne]; [done|].
  pose proof (echoers_disjoint role v v' Hne). lia.
Qed.

Lemma echoers_honest s : s ∈ honest -> s ∈ senders -> size (echoers s (msg s)) = n - c.
Proof.
  intros Hs Hss. rewrite <- (honest_size honest_sub few_corrupt). f_equal. apply set_eq. intros j.
  unfold echoers. rewrite elem_of_filter. split; [by intros [_ ?]|]. auto.
Qed.

(** The count of the own echos. *)
Definition own_echos (i : Role) : gmap (Role * BV) nat :=
  list_to_map (map (fun kv => (kv, 1)) (map_to_list (echo i))).

Lemma own_echos_lookup i role v k :
  own_echos i !! (role, v) = Some k <-> echo i !! role = Some v /\ k = 1.
Proof.
  unfold own_echos. assert (Hnd : NoDup (map (fun kv : Role * BV => (kv, 1)) (map_to_list (echo i))).*1).
  { rewrite <- list_fmap_compose. rewrite (list_fmap_ext _ id); [|done]. rewrite list_fmap_id. apply NoDup_map_to_list. }
  rewrite <- elem_of_list_to_map by done. rewrite list_elem_of_fmap. split.
  - intros ([r w] & [= -> -> ->] & Hin). by apply elem_of_map_to_list in Hin.
  - intros [Hv ->]. exists (role, v). by rewrite elem_of_map_to_list.
Qed.

Lemma own_echos_counted i : counted (own_echos i).
Proof. intros [r v] [k Hk]. rewrite (hits_lookup _ _ _ Hk). apply own_echos_lookup in Hk as [_ ->]. lia. Qed.

(** The parties that did not answer in the first round. *)
Variable missing : Role -> gset Role.
Hypothesis missing_honest : forall i, i ∈ honest -> missing i ## honest.

Definition echo_st (i : Role) : Sync NV (gmap Role BV) :=
  echo_phase to_hash false (session_of i) senders (initial_data i) (echo i) (missing i).

(** The count of the echos of a value is the number of honest parties that echo it, up
    to the corrupt parties. *)
Lemma echo_count i inbox : i ∈ honest ->
  delivered honest adv 1 echo_st i (generic_receive_from_all_senders i all (missing i)) inbox ->
  exists m na, internal_process_echos_or_votes false match_echo i inbox (own_echos i) n (missing i) = Ok (m, na) /\
    counted m /\ na ## honest /\
    forall role v, size (echoers role v) <= hits m (role, v) <= size (echoers role v) + c.
Proof.
  intros Hi Hd.
  destruct (answering_honest all honest adv match_echo 1 echo_st i (missing i) inbox (own_echos i)) as (m & na & Hp & Hh & Hc & Hna);
    [auto using own_echos_counted..|done|].
  exists m, na. split_and!; [done..|]. intros role v. rewrite Hh.
  destruct (supporters_bounds all honest adv match_echo 1 echo_st i (missing i) inbox (role, v)) as [Hlb Hub]; [auto..|].
  pose proof (corrupt_for_size all honest adv match_echo 1 i (role, v)) as Hcf.
  assert (Hfor : honest_for honest match_echo echo_st i (role, v) = echoers role v ∖ {[i]}).
  { apply set_eq. intros j. unfold honest_for, echoers. rewrite elem_of_filter, !elem_of_difference, elem_of_filter.
    unfold supports. simpl. rewrite bool_decide_spec. tauto. }
  rewrite Hfor in Hlb, Hub. destruct (decide (i ∈ echoers role v)) as [Hin|Hin].
  - assert (Hone : hits (own_echos i) (role, v) = 1).
    { apply hits_lookup, own_echos_lookup. by apply elem_of_filter in Hin as [? _]. }
    rewrite size_difference, size_singleton in Hlb, Hub by set_solver.
    assert (size (echoers role v) <> 0) by (apply size_non_empty_iff; set_solver). lia.
  - assert (Hzero : hits (own_echos i) (role, v) = 0).
    { destruct (hits (own_echos i) (role, v)) eqn:Hk; [done|]. destruct Hin.
      destruct (hits_pos (own_echos i) (role, v)) as [k' Hk']; [lia|]. apply own_echos_lookup in Hk' as [? _].
      by apply elem_of_filter. }
    rewrite difference_disjoint_L in Hlb, Hub by set_solver. lia.
Qed.

(** After the echos every honest party starts to vote. *)
Lemma echo_voter i inbox : i ∈ honest ->
  delivered honest adv 1 echo_st i (generic_receive_from_all_senders i all (missing i)) inbox ->
  voter votable 1 i (advance (echo_st i) inbox).
Proof.
  intros Hi Hd. destruct (echo_count i inbox Hi Hd) as (m & na & Hp & Hc & Hna & Hm).
  unfold echo_st, echo_phase, process_echos, num_parties. cbn [advance my_role roles threshold session_of].
  fold (own_echos i). rewrite Hp. simpl.
  destruct (register_echos_ok hash (hash_iter m) (n - t) ∅ ∅) as (reg & h2v & Hreg & F1 & F2 & _ & F4 & _ & _).
  unfold to_hash. rewrite Hreg. simpl.
  assert (Hvot : forall key k, reg !! key = Some k -> votable key /\ k = 1).
  { intros [r h] k Hk. apply F1 in Hk as [Hk|(-> & v & num & -> & Hin & Hq)]; [by rewrite lookup_empty in Hk|].
    split; [|done]. exists v. split; [done|]. simpl. apply hash_iter_elem in Hin. specialize (Hm r v).
    rewrite (hits_lookup _ _ _ Hin) in Hm. lia. }
  apply vote_phase_voter; try done.
  - apply votable_sender.
  - apply votable_unique.
  - intros key [k Hk]. rewrite (hits_lookup _ _ _ Hk). apply Hvot in Hk as [_ ->]. lia.
  - intros role h (v & Hh & Hv). simpl in *. subst h. exists v. split; [|done]. specialize (Hm role v).
    destruct (hits_pos m (role, v)) as [k Hk]; [lia|]. apply (F4 role v k). by apply hash_iter_elem.
  - intros key [k Hk]. by apply Hvot in Hk as [? _].
  - intros s Hs Hss. specialize (Hm s (msg s)). rewrite (echoers_honest s Hs Hss) in Hm.
    destruct (hits_pos m (s, msg s)) as [k Hk]; [lia|]. rewrite (hits_lookup _ _ _ Hk) in Hm.
    apply (F2 s (msg s) k); [by apply hash_iter_elem | lia].
Qed.
End Echo.

(** ** The first round *)

Definition own_contribution (i : Role) : gmap Role BV := if decide (i ∈ senders) then {[i := msg i]} else ∅.

Definition contributions (i : Role) (inbox : list (Role * Net NV)) : gmap Role BV * gset Role :=
  receive_contribution_from_all_senders (own_contribution i) i senders ∅ inbox.

Lemma parties_round i : senders <> ∅ -> t < n ->
  parties i = SRound (option_map Send (message_of i)) (generic_receive_from_all_senders i senders ∅)
    (fun inbox => echo_phase to_hash false (session_of i) senders (initial_data i)
                    (contributions i inbox).1 (contributions i inbox).2).
Proof.
  intros Hs Ht. unfold parties, bcast_execute, message_of, contributions, own_contribution, initial_data, num_parties.
  cbn [my_role roles threshold session_of]. rewrite decide_False by done.
  rewrite (proj2 (Nat.leb_gt _ _)) by done.
  destruct (decide (i ∈ senders)) as [Hi|Hi].
  - by rewrite bool_decide_eq_true_2.
  - by rewrite bool_decide_eq_false_2.
Qed.

Lemma contributions_spec i inbox : i ∈ honest -> senders <> ∅ -> t < n ->
  delivered honest adv 0 parties i (generic_receive_from_all_senders i senders ∅) inbox ->
  dom (contributions i inbox).1 ⊆ senders /\
  (forall s, s ∈ honest -> s ∈ senders -> (contributions i inbox).1 !! s = Some (msg s)) /\
  (contributions i inbox).2 ## honest.
Proof.
  intros Hi Hne Ht Hd. unfold contributions, receive_contribution_from_all_senders.
  pose proof (contributions_ok inbox (own_contribution i) ∅ (delivered_NoDup _ _ _ _ _ _ _ Hd)) as Hc.
  destruct (foldl add_contribution (own_contribution i, ∅) inbox) as [data ans]. destruct Hc as (Hin & Hout & Hans & _). simpl.
  assert (Hfrom : forall j, j ∈ inbox.*1 <-> j ∈ senders /\ j <> i).
  { intros j. rewrite list_elem_of_fmap. split.
    - intros ([j' x] & -> & Hj). apply (delivered_elem _ _ _ _ _ _ _ _ _ Hd) in Hj as [Hj _].
      unfold generic_receive_from_all_senders in Hj. set_solver.
    - intros Hj. exists (j, received honest adv 0 parties i j). split; [done|].
      apply (delivered_elem _ _ _ _ _ _ _ _ _ Hd). split; [|done]. unfold generic_receive_from_all_senders. set_solver. }
  assert (Hmsg : forall s, s ∈ honest -> s ∈ senders -> s <> i -> (s, Msg (Send (msg s))) ∈ inbox).
  { intros s Hs Hss Hsi. apply (delivered_elem _ _ _ _ _ _ _ _ _ Hd). unfold generic_receive_from_all_senders, received.
    split; [set_solver|]. rewrite decide_True, parties_round by done. unfold message_of. by rewrite decide_True. }
  split_and!.
  - intros j Hj. destruct (decide (j ∈ inbox.*1)) as [Hji|Hji]; [by apply Hfrom in Hji as [? _]|].
    apply elem_of_dom in Hj. rewrite Hout in Hj by done. unfold own_contribution in Hj. revert Hj. case_decide.
    + destruct (decide (j = i)) as [->|Hne']; [done|].
      rewrite lookup_singleton_ne by done. by intros [].
    + rewrite lookup_empty. by intros [].
  - intros s Hs Hss. destruct (decide (s = i)) as [->|Hsi]; [|by apply Hin, Hmsg].
    rewrite Hout by (rewrite Hfrom; tauto). unfold own_contribution. by rewrite decide_True, lookup_singleton_eq.
  - intros j Hj Hjh. assert (j ∈ ans); [|set_solver]. apply (Hans j (Msg (Send (msg j)))); [apply Hmsg; set_solver | done].
Qed.

(** A run of the broadcast, from the first round to the results. *)
Lemma broadcast_run outs : honest ⊆ all -> c <= t -> 2 * t + c < n -> senders <> ∅ -> votes_below_quorum ->
  run honest adv 0 parties outs ->
  exists V, (forall role h h', V (role, h) -> V (role, h') -> h = h') /\ forall i, i ∈ honest -> result_ok V i (outs i).
Proof.
  intros Hsub Hc Hn Hs Hb Hrun. assert (Ht : t < n) by lia.
  destruct (decide (honest = ∅)) as [He|He].
  { exists (fun _ => False). split; [done|]. intros i Hi. set_solver. }
  apply set_choose_L in He as [i0 Hi0].
  apply run_inv in Hrun as (inb & Hd & Hrun); [|exists i0; split; [done|]; intros r; by rewrite parties_round].
  set (echo i := (contributions i (inb i)).1). set (missing i := (contributions i (inb i)).2).
  assert (Hspec : forall i, i ∈ honest -> dom (echo i) ⊆ senders /\
    (forall s, s ∈ honest -> s ∈ senders -> echo i !! s = Some (msg s)) /\ missing i ## honest).
  { intros i Hi. specialize (Hd i Hi). rewrite parties_round in Hd by done. by apply contributions_spec. }
  apply (run_ext _ _ _ _ (echo_st echo missing)) in Hrun; [|intros i Hi; by rewrite parties_round].
  apply run_inv in Hrun as (inb' & Hd' & Hrun); [|by exists i0].
  assert (Hse : forall i, i ∈ honest -> dom (echo i) ⊆ senders) by (intros i Hi; by apply Hspec).
  assert (Hho : forall i s, i ∈ honest -> s ∈ honest -> s ∈ senders -> echo i !! s = Some (msg s)).
  { intros i s Hi. by apply Hspec. }
  exists (votable echo). split; [eauto using votable_unique|].
  apply (vote_run (votable echo) Hsub Hc Hb) with (k := t) (r := 1) (st := fun i => advance (echo_st echo missing i) (inb' i)).
  - eauto using votable_sender.
  - eauto using votable_unique.
  - lia.
  - lia.
  - intros s Hsh Hss. exists (msg s). split; [done|]. simpl.
    rewrite echoers_honest; [lia | done.. | intros i s' Hi; by apply Hspec | done | done].
  - intros j Hj. apply echo_voter; try done.
    + intros i Hi. by apply Hspec.
    + by apply (Hd' j).
  - done.
Qed.

(** ** When the corrupt parties have no quorum *)

(** No corrupt party sends the same vote to a party in two rounds. *)
Definition votes_not_repeated : Prop := forall i j key r r', supports match_vote (adv r i j) key ->
  supports match_vote (adv r' i j) key -> 2 <= r -> 2 <= r' -> r = r'.

Lemma forged_votes_le i key r : forged_votes i key r <= c * r.
Proof.
  induction r as [|r IH]; [simpl; lia|]. cbn [forged_votes].
  pose proof (corrupt_for_size all honest adv match_vote (S (S r)) i key). lia.
Qed.

Lemma forged_votes_once i key r : votes_not_repeated -> forged_votes i key r <= c.
Proof.
  intros Honce. assert (exists X : gset Role, X ⊆ corrupt /\ size X = forged_votes i key r /\
    forall j, j ∈ X -> exists s, 2 <= s <= S r /\ supports match_vote (adv s i j) key) as (X & HX & <- & _);
    [|by apply subseteq_size].
  induction r as [|r (X & HX & Hsz & Hs)].
  - exists ∅. split_and!; [set_solver | by rewrite size_empty | set_solver].
  - exists (X ∪ corrupt_for all honest adv match_vote (S (S r)) i key). cbn [forged_votes]. split_and!.
    + unfold corrupt_for. set_solver.
    + rewrite size_union, Hsz; [done|]. intros j Hj [Hk _]%elem_of_filter.
      destruct (Hs j Hj) as (s & Hr & Hsup). pose proof (Honce i j key s (S (S r)) Hsup Hk). lia.
    + intros j [Hj|Hj]%elem_of_union.
      * destruct (Hs j Hj) as (s & Hr & Hsup). exists s. split; [lia | done].
      * apply elem_of_filter in Hj as [Hk _]. exists (S (S r)). split; [lia | done].
Qed.

Lemma below_quorum : c <= t -> 2 * t + c < n -> c <= 1 \/ votes_not_repeated -> votes_below_quorum.
Proof.
  intros Hc Hn [Hone|Honce] i key Hi.
  - split; [intros r Hr; pose proof (forged_votes_le i key r) | pose proof (forged_votes_le i key (t + 1))]; nia.
  - split; [intros r Hr; pose proof (forged_votes_once i key r Honce) | pose proof (forged_votes_once i key (t + 1) Honce)]; lia.
Qed.

(** C4. Reliable broadcast, in a build without debug assertions and for a hash without
    collisions: among [n] parties of which [c] are corrupt, with [c <= t] and
    [2t + c < n], against one corrupt party, or against corrupt parties that do not repeat
    a vote, whatever else they send to whom and in any order of arrival: every honest party
    ends with a value for exactly the senders, the value of an honest sender is its message
    at every honest party, and two honest parties never hold different values, other than
    [Bot], for one sender. *)
Theorem broadcast_correct outs : honest ⊆ all -> c <= t -> 2 * t + c < n -> senders <> ∅ ->
  c <= 1 \/ votes_not_repeated -> run honest adv 0 parties outs ->
  forall i, i ∈ honest -> exists data, outs i = Ok data /\ dom data = senders /\
    (forall s, s ∈ honest -> s ∈ senders -> data !! s = Some (msg s)) /\
    (forall j data', j ∈ honest -> outs j = Ok data' -> forall role v w, data !! role = Some v ->
       data' !! role = Some w -> v <> Bot -> w <> Bot -> v = w).
Proof.
  intros Hsub Hc Hn Hs Hq Hrun i Hi.
  destruct (broadcast_run outs) as (V & HV & Hres); [auto using below_quorum..|].
  destruct (Hres i Hi) as (data & Hout & Hdom & Hhon & Hvot). exists data. split_and!; [done..|].
  intros j data' Hj Hout' role v w Hv Hw Hbv Hbw.
  destruct (Hres j Hj) as (d & Hd & Hdom' & Hhon' & Hvot'). rewrite Hd in Hout'. injection Hout' as ->.
  destruct (decide (role ∈ honest)) as [Hr|Hr].
  - assert (role ∈ senders) by (rewrite <- Hdom; apply elem_of_dom; eauto).
    rewrite Hhon in Hv by done. rewrite Hhon' in Hw by done. congruence.
  - destruct (Hvot role v Hv) as [|[|HV1]]; [done..|]. destruct (Hvot' role w Hw) as [|[|HV2]]; [done..|].
    apply (inj hash). eauto.
Qed.
End Props.

(** ** Termination *)

Section Ends.
Context {W H : Type} `{Countable W} `{Countable H} {HI : HashIter}.
Variables (to_bcast_hash : BroadcastValue W -> Res string H) (debug_assertions : bool).

Lemma done_bind_ends {M A B} k (r : Res string A) (f : A -> Sync M B) :
  (forall a, ends_within k (f a)) -> ends_within k (sbind (SDone r) f).
Proof. intros Hf. destruct r; simpl; [done | by destruct k..]. Qed.

Lemma gather_votes_ends session rounds round vote reg casted na :
  ends_within rounds (gather_votes (W := W) (H := H) debug_assertions session rounds round vote reg casted na).
Proof.
  revert round vote reg casted na. induction rounds as [|k IH]; intros round vote reg casted na; [done|].
  cbn [gather_votes]. intros inbox. apply done_bind_ends. intros r.
  destruct (round =? threshold session + 1); [by destruct k|]. apply done_bind_ends. intros v. apply IH.
Qed.

Lemma vote_phase_ends session senders data reg h2v na :
  ends_within (threshold session + 1) (vote_phase (W := W) (H := H) debug_assertions session senders data reg h2v na).
Proof.
  unfold vote_phase. destruct (mark_casted _ _); simpl.
  - apply (ends_within_mono (threshold session + 1 + 0)); [lia|].
    apply ends_within_bind; [apply gather_votes_ends | done].
  - by rewrite Nat.add_1_r; intros inbox; destruct (threshold session).
  - by rewrite Nat.add_1_r.
  - by rewrite Nat.add_1_r.
Qed.

Lemma execute_ends session senders my_message :
  ends_within (threshold session + 3) (bcast_execute to_bcast_hash debug_assertions session senders my_message).
Proof.
  replace (threshold session + 3) with (S (S (threshold session + 1))) by lia. unfold bcast_execute.
  case_decide; [done|]. destruct (_ <=? _); [done|].
  destruct my_message, (bool_decide _); try done; intros inbox inbox'; apply done_bind_ends; intros r; apply vote_phase_ends.
Qed.

(** Whatever the parties broadcast and the corrupt parties send, there is an execution, of
    at most [t + 3] rounds: the theorems on executions are not about nothing. *)
Lemma broadcast_ends all t senders (known : Role -> gset Role) (messages : Role -> option (BroadcastValue W))
    (honest : gset Role) (adv : nat -> Role -> Role -> Net (NetworkValue W H)) :
  let party i := bcast_execute to_bcast_hash debug_assertions (mkBcastSession i all t (known i)) senders (messages i) in
  (forall i, ends_within (t + 3) (party i)) /\ exists outs, run honest adv 0 party outs.
Proof.
  intros party. assert (Hends : forall i, ends_within (t + 3) (party i)) by (intros i; apply (execute_ends (mkBcastSession i all t (known i)))).
  split; [done|]. by apply (run_total honest adv (t + 3)).
Qed.
End Ends.

(** ** The update of the corrupt set *)

Lemma add_bot_senders_ok {W} (res : gmap Role (BroadcastValue W)) l session :
  (forall s, s ∈ l -> is_Some (res !! s)) ->
  exists session', add_bot_senders res l session = (session', Ok res) /\ roles session' = roles session /\
    my_role session' = my_role session /\ forall s, s ∈ corrupt_roles session' <->
      s ∈ corrupt_roles session \/ s <> my_role session /\ s ∈ l /\ res !! s = Some Bot.
Proof.
  revert session. induction l as [|r l IH]; intros session Hl; simpl.
  { exists session. split_and!; [done..|]. intros s. rewrite elem_of_nil. tauto. }
  assert (Hl' : forall s, s ∈ l -> is_Some (res !! s)) by (intros; apply Hl; by right).
  assert (Hskip : r ∈ corrupt_roles session \/ r = my_role session \/ res !! r <> Some Bot ->
    exists session', add_bot_senders res l session = (session', Ok res) /\ roles session' = roles session /\
    my_role session' = my_role session /\ forall s, s ∈ corrupt_roles session' <->
      s ∈ corrupt_roles session \/ s <> my_role session /\ s ∈ r :: l /\ res !! s = Some Bot).
  { intros Hr. destruct (IH session Hl') as (session' & -> & Hro & Hmy & Hc). exists session'. split_and!; [done..|].
    intros s. rewrite Hc, elem_of_cons. naive_solver. }
  destruct (decide (r ∈ corrupt_roles session)) as [Hr|Hr]; [by apply Hskip; left|].
  destruct (Hl r) as [v Hv]; [by left|]. rewrite Hv. destruct v as [|w]; [|apply Hskip; right; right; congruence].
  unfold add_corrupt. destruct (Nat.eqb_spec r (my_role session)) as [Hm|Hm]; [by apply Hskip; right; left|].
  destruct (IH (mkBcastSession (my_role session) (roles session) (threshold session) ({[r]} ∪ corrupt_roles session)) Hl')
    as (session' & -> & Hro & Hmy & Hc). exists session'. split_and!; [done..|].
  intros s. rewrite Hc, elem_of_cons. simpl. rewrite elem_of_union, elem_of_singleton. naive_solver.
Qed.

Section Update.
Context {W H : Type} `{Countable W} `{Countable H} {HI : HashIter}.
Variables (hash : BroadcastValue W -> H) (all known honest : gset Role) (t : nat) (senders : gset Role).
Variables (msg : Role -> BroadcastValue W) (adv : nat -> Role -> Role -> Net (NetworkValue W H)).
Context `{!Inj (=) (=) hash}.

(** The parties of a broadcast that ignores the known corrupt parties. *)
Definition updating_parties (i : Role) : Sync (NetworkValue W H) (BcastSession * Res string (gmap Role (BroadcastValue W))) :=
  broadcast_w_corrupt_set_update (to_hash hash) false (mkBcastSession i all t known) senders
    (message_of (senders ∖ known) msg i).

(** C27. The corrupt set, in a build without debug assertions and for a hash without
    collisions.  Let the honest parties know the same corrupt parties, let [c <= t] of the
    other [n] parties be corrupt with [2t + c < n], let [c <= 1] or corrupt parties not
    repeat votes, and let there be a sender that is not known to be corrupt.  Then the
    broadcast without the parties known to be corrupt returns, at every honest party, [Bot]
    for those, and the message of every honest sender; the roles of the session are as
    before, and the senders that are added to the corrupt set are the other ones whose
    result is [Bot], so no honest sender of a message is ever added. *)
Theorem corrupt_update_correct outs : honest ⊆ all ∖ known -> size (all ∖ known ∖ honest) <= t ->
  2 * t + size (all ∖ known ∖ honest) < size (all ∖ known) -> senders ∖ known <> ∅ ->
  size (all ∖ known ∖ honest) <= 1 \/ votes_not_repeated adv ->
  run honest adv 0 updating_parties outs ->
  forall i, i ∈ honest -> exists session' data, outs i = Ok (session', Ok data) /\ roles session' = all /\
    (forall s, s ∈ known -> data !! s = Some Bot) /\
    (forall s, s ∈ honest -> s ∈ senders -> data !! s = Some (msg s)) /\
    (forall s, s ∈ corrupt_roles session' <-> s ∈ known \/ s <> i /\ s ∈ senders /\ data !! s = Some Bot) /\
    (forall s, s ∈ honest -> s ∈ senders -> msg s <> Bot -> s ∉ corrupt_roles session').
Proof.
  intros Hsub Hc Hn Hs Hq Hrun i Hi. apply run_finally in Hrun as (outs' & Hrun & Houts).
  pose proof (below_quorum hash (all ∖ known) honest t msg (fun _ => known) adv Hc Hn Hq) as Hb.
  destruct (broadcast_run hash (all ∖ known) honest t (senders ∖ known) msg (fun _ => known) adv outs' Hsub Hc Hn Hs Hb Hrun)
    as (V & _ & Hres).
  destruct (Hres i Hi) as (data & Hout & Hdom & Hhon & _). rewrite (Houts i Hi), Hout. cbn [corrupt_roles roles].
  destruct (add_bot_senders_ok (gset_to_gmap Bot known ∪ data) (hash_iter (gset_to_gmap tt (senders ∖ known))).*1
    (mkBcastSession i all t known)) as (session' & -> & Hro & _ & Hcs).
  { intros s [u Hu]%hash_iter_fst. apply lookup_gset_to_gmap_Some in Hu as [Hu _].
    rewrite <- Hdom in Hu. apply elem_of_dom in Hu. apply lookup_union_is_Some. by right. }
  assert (Hlk : forall s, (s ∈ known -> (gset_to_gmap Bot known ∪ data) !! s = Some Bot) /\
    (s ∉ known -> (gset_to_gmap Bot known ∪ data) !! s = data !! s)).
  { intros s. split; intros Hk.
    - by apply lookup_union_Some_l, lookup_gset_to_gmap_Some.
    - by apply lookup_union_r, lookup_gset_to_gmap_None. }
  assert (Hin : forall s, s ∈ (hash_iter (gset_to_gmap tt (senders ∖ known))).*1 <-> s ∈ senders ∖ known).
  { intros s. rewrite hash_iter_fst. split.
    - by intros [u [? _]%lookup_gset_to_gmap_Some].
    - intros Hk. exists tt. by apply lookup_gset_to_gmap_Some. }
  assert (Hmsg : forall s, s ∈ honest -> s ∈ senders -> (gset_to_gmap Bot known ∪ data) !! s = Some (msg s)).
  { intros s Hsh Hss. rewrite (proj2 (Hlk s)) by set_solver. apply Hhon; set_solver. }
  assert (Hset : forall s, s ∈ corrupt_roles session' <->
    s ∈ known \/ s <> i /\ s ∈ senders /\ (gset_to_gmap Bot known ∪ data) !! s = Some Bot).
  { intros s. rewrite Hcs, Hin, elem_of_difference. simpl. destruct (decide (s ∈ known)); tauto. }
  exists session', (gset_to_gmap Bot known ∪ data). split_and!; [done | done | intros; by apply Hlk | done | done |].
  intros s Hsh Hss Hne [Hk|(_ & _ & Hbot)]%Hset; [set_solver|]. rewrite Hmsg in Hbot by done. congruence.
Qed.
End Update.
