(* ===== verification/BroadcastExamples.v ===== *)
(** * Broadcasts with corrupt parties, computed (core/threshold-execution/src/communication/broadcast.rs)

    Runs of small broadcasts: what the theorems promise at concrete inputs, and what the
    protocol does where they promise nothing. *)

From stdpp Require Import base countable gmap sets list fin_maps fin_sets strings.
From S2P Require Import Prelude Role Sync Broadcast BroadcastCount BroadcastProps.

(** A fixed order of iteration. *)
#[global] Instance map_order : HashIter :=
  {| hash_iter := fun K V _ _ m => map_to_list m; hash_iter_perm := fun K V _ _ m => Permutation_refl (map_to_list m) |}.

(** What a program ended with. *)
Definition is_done {M A : Type} (p : Sync M A) : bool := match p with SDone _ => true | _ => false end.

Definition outcome {M A : Type} (p : Sync M A) : Res string A := match p with SDone r => r | _ => Panic end.

(** The results of the honest parties after [fuel] rounds. *)
Definition simulated {M A : Type} (adv : nat -> Role -> Role -> Net M) (honest : list Role) (fuel : nat)
    (st : Role -> Sync M A) : list (Role * Sync M A) :=
  simulate adv (list_to_set honest) fuel 0 (map (fun i => (i, st i)) honest).

Lemma simulated_run {M A} (adv : nat -> Role -> Role -> Net M) honest fuel (st : Role -> Sync M A) :
  forallb (fun i => is_done (state_of (simulated adv honest fuel st) i)) honest = true ->
  run (list_to_set honest) adv 0 st (fun i => outcome (state_of (simulated adv honest fuel st) i)).
Proof.
  intros Hd. apply run_ext with (st := state_of (map (fun i => (i, st i)) honest)).
  - intros i Hi. apply elem_of_list_to_set in Hi. induction honest as [|j l IH]; [by apply not_elem_of_nil in Hi|].
    simpl. destruct (Nat.eqb_spec j i) as [->|Hne]; [done|]. clear Hd IH.
    assert (Hl : i ∈ l) by set_solver. clear Hi Hne. induction l as [|k l IH]; [by apply not_elem_of_nil in Hl|].
    simpl. destruct (Nat.eqb_spec k i) as [->|Hne]; [done|]. apply IH. set_solver.
  - apply (simulate_run _ _ fuel).
    + intros i Hi. apply elem_of_list_to_set. apply elem_of_list_to_set in Hi. apply list_elem_of_fmap.
      exists (i, st i). split; [done|]. apply list_elem_of_fmap. eauto.
    + intros i Hi. apply elem_of_list_to_set, list_elem_of_In in Hi. rewrite forallb_forall in Hd. specialize (Hd i Hi).
      unfold simulated in *. by destruct (state_of _ i).
Qed.

(** ** Four parties, of which the fourth is corrupt *)

Definition four : gset Role := list_to_set [1; 2; 3; 4].
Notation NV := (NetworkValue nat (BroadcastValue nat)).

(** The corrupt party sends its value to two parties, echoes it to one of them, and votes
    for it once to each of them. *)
Definition split_sender (round i j : nat) : Net NV :=
  match round, i with
  | 0, 1 | 0, 2 => Msg (Send (Value 7))
  | 1, 1 => Msg (EchoBatch {[4 := Value 7]})
  | 2, 2 | 3, 1 => Msg (VoteBatch {[4 := Value 7]})
  | _, 3 => Elapsed
  | _, _ => Msg Empty
  end.

Definition no_message (i : Role) : BroadcastValue nat := Bot.
Definition none_known (i : Role) : gset Role := ∅.

Definition split_run : list (Role * Sync NV (gmap Role (BroadcastValue nat))) :=
  simulated split_sender [1; 2; 3] 4 (parties id four 1 {[4]} no_message none_known).

(** C28. The broadcast does not ensure agreement: with four parties and threshold one, a
    corrupt sender can have two honest parties end with its value and the third honest
    party with [Bot], although it votes only once to each of them: its votes complete the
    quorum of the parties it sends them to, and of those only. *)
Theorem broadcast_can_disagree : exists adv outs,
  run (list_to_set [1; 2; 3]) adv 0 (parties id four 1 {[4]} no_message none_known) outs /\
  votes_not_repeated adv /\ outs 1 = Ok {[4 := Value 7]} /\ outs 2 = Ok {[4 := Value 7]} /\ outs 3 = Ok {[4 := Bot]}.
Proof.
  exists split_sender, (fun i => outcome (state_of split_run i)).
  split; [apply simulated_run; by vm_compute|]. split; [|by vm_compute].
  intros i j key r r' Hs Hs' Hr Hr'.
  destruct r as [|[|[|[|r]]]], r' as [|[|[|[|r']]]], i as [|[|[|[|i]]]]; vm_compute in Hs, Hs'; try done; lia.
Qed.

(** ** Seven parties, of which two are corrupt *)

Definition seven : gset Role := list_to_set [1; 2; 3; 4; 5; 6; 7].
Definition five_honest : list Role := [1; 2; 3; 4; 5].
Definition first_sends (i : Role) : BroadcastValue nat := Value 5.

(** The corrupt parties echo a value that the sender did not send, and vote for it in
    every round. *)
Definition repeat_votes (v : nat) (round i j : nat) : Net NV :=
  match round with
  | 0 => Elapsed
  | 1 => Msg (EchoBatch {[1 := Value v]})
  | _ => Msg (VoteBatch {[1 := Value v]})
  end.

Definition forged_run (v : nat) : list (Role * Sync NV (gmap Role (BroadcastValue nat))) :=
  simulated (repeat_votes v) five_honest 5 (parties id seven 2 {[1]} first_sends none_known).

(** C29. A vote is counted again in every round, so corrupt parties that repeat their votes
    make up a quorum: with seven parties and threshold two, two corrupt parties replace the
    message of an honest sender, at an honest party, by a value of their choice. *)
Theorem repeated_votes_forge : exists adv outs,
  run (list_to_set five_honest) adv 0 (parties id seven 2 {[1]} first_sends none_known) outs /\
  outs 2 = Ok {[1 := Value 6]}.
Proof.
  exists (repeat_votes 6), (fun i => outcome (state_of (forged_run 6) i)).
  split; [apply simulated_run; by vm_compute | by vm_compute].
Qed.

(** The corrupt parties vote for a party that is no sender. *)
Definition vote_for_nobody (round i j : nat) : Net NV :=
  match round with
  | 0 => Elapsed
  | 1 => Msg Empty
  | _ => Msg (VoteBatch {[9 := Bot]})
  end.

Definition abort_run : list (Role * Sync NV (gmap Role (BroadcastValue nat))) :=
  simulated vote_for_nobody five_honest 5 (parties id seven 2 {[1]} first_sends none_known).

(** Votes for a role that is no sender are counted too: with seven parties and threshold
    two, two corrupt parties that send one in two rounds make the broadcast fail at every
    honest party. *)
Theorem repeated_votes_abort : exists adv outs,
  run (list_to_set five_honest) adv 0 (parties id seven 2 {[1]} first_sends none_known) outs /\
  forall i, i ∈ five_honest -> outs i = Err "Cant retrieve whether I casted a vote"%string.
Proof.
  exists vote_for_nobody, (fun i => outcome (state_of abort_run i)).
  split; [apply simulated_run; by vm_compute|].
  intros i Hi. apply list_elem_of_In in Hi.
  repeat (destruct Hi as [<-|Hi]; [by vm_compute|]). done.
Qed.

(** ** Witnesses *)

(** Every honest party of four sends its role. *)
Definition role_message (i : Role) : BroadcastValue nat := Value i.

Definition all_run : list (Role * Sync NV (gmap Role (BroadcastValue nat))) :=
  simulated split_sender [1; 2; 3] 4 (parties id four 1 four role_message none_known).

Lemma broadcast_correct_witness : exists data, outcome (state_of all_run 3) = Ok data /\ dom data = four /\
  (forall s, s ∈ (list_to_set [1; 2; 3] : gset Role) -> s ∈ four -> data !! s = Some (role_message s)).
Proof.
  destruct (broadcast_correct id four (list_to_set [1; 2; 3]) 1 four role_message none_known split_sender
    (fun i => outcome (state_of all_run i))) with (i := 3) as (data & Hout & Hdom & Hhon & _).
  - set_solver.
  - by vm_compute; lia.
  - by vm_compute; lia.
  - done.
  - left. by vm_compute; lia.
  - apply simulated_run. by vm_compute.
  - set_solver.
  - exact (ex_intro _ data (conj Hout (conj Hdom Hhon))).
Defined.

(** The fourth of six parties is known to be corrupt, and the fifth is silent. *)
Definition silent (round i j : nat) : Net NV := Elapsed.

Definition six : gset Role := list_to_set [1; 2; 3; 4; 5; 6].

Definition update_run : list (Role * Sync NV (BcastSession * Res string (gmap Role (BroadcastValue nat)))) :=
  simulated silent [1; 2; 3; 6] 4 (updating_parties id six {[4]} 1 six role_message).

Lemma corrupt_update_correct_witness : exists session' data,
  outcome (state_of update_run 3) = Ok (session', Ok data) /\ roles session' = six /\
  (forall s, s ∈ corrupt_roles session' <-> s ∈ ({[4]} : gset Role) \/ s <> 3 /\ s ∈ six /\ data !! s = Some Bot).
Proof.
  destruct (corrupt_update_correct id six {[4]} (list_to_set [1; 2; 3; 6]) 1 six role_message silent
    (fun i => outcome (state_of update_run i))) with (i := 3) as (session' & data & Hout & Hro & _ & _ & Hc & _).
  - set_solver.
  - by vm_compute; lia.
  - by vm_compute; lia.
  - by vm_compute.
  - left. by vm_compute; lia.
  - apply simulated_run. by vm_compute.
  - set_solver.
  - exact (ex_intro _ session' (ex_intro _ data (conj Hout (conj Hro Hc)))).
Defined.
