(* ===== verification/MetaStore.v ===== *)
(** * The meta store (core/service/src/util/meta_store.rs)

    The store keeps the state of every request of the service.  A method is a
    function of the store, of the permits that are alive (they decide what
    [Arc::strong_count] of a claim is) and of the identity of the next fresh
    claim; it returns the new store with its result.  The file MetaStoreSystem
    puts the store together with the holders of permits and the reaper. *)

From stdpp Require Import base gmap sets list strings.
From S2P Require Import Prelude.

Set Default Proof Using "Type".

(** [Result<Arc<T>, String>]. *)
Notation Outcome T := (T + string)%type.

Section MetaStore.
Context {RequestId : Type} `{Countable RequestId} {T : Type}.

(** ** Data *)

Inductive MetaStoreError : Type :=
| AlreadyExists (req_id : RequestId)
| CapacityFull (req_id : RequestId)
| NotFound (req_id : RequestId)
| Locked (req_id : RequestId)
| CannotUpdate (req_id : RequestId)
| Invariant (msg : string).

(** The codes of [tonic::Code] that the store uses. *)
Inductive Code : Type :=
| CodeAlreadyExists | CodeResourceExhausted | CodeNotFound | CodeFailedPrecondition
| CodeInternal | CodeAborted | CodeUnavailable.

Definition error_code (e : MetaStoreError) : Code :=
  match e with
  | AlreadyExists _ => CodeAlreadyExists
  | CapacityFull _ => CodeResourceExhausted
  | NotFound _ => CodeNotFound
  | Locked _ | CannotUpdate _ => CodeFailedPrecondition
  | Invariant _ => CodeInternal
  end.

Definition error_req_id (e : MetaStoreError) : option RequestId :=
  match e with
  | AlreadyExists req_id | CapacityFull req_id | NotFound req_id | Locked req_id
  | CannotUpdate req_id => Some req_id
  | Invariant _ => None
  end.

(** A [MetricedError], up to its message: metric, request and code. *)
Record MetricedError := { op_metric : string; err_req_id : option RequestId; err_code : Code }.

Definition into_metriced (op : string) (e : MetaStoreError) : MetricedError :=
  {| op_metric := op; err_req_id := error_req_id e; err_code := error_code e |}.

(** A permit.  [claim] is the identity of the [Arc] it shares with its entry;
    a permit is alive while it is in the list of live permits. *)
Record Permit := { permit_id : RequestId; permit_claim : nat; permit_op : string }.

Definition OP_META_STORE_REAP : string := "meta_store_reap".

Definition permit_new (req_id : RequestId) (claim : nat) : Permit :=
  {| permit_id := req_id; permit_claim := claim; permit_op := OP_META_STORE_REAP |}.

Inductive EntryState : Type :=
| Pending
| Done (result : Outcome T)
| Deleted.

Inductive EntryStatus : Type := StatusPending | StatusDone | StatusDeleted.

#[export] Instance entry_status_eq_dec : EqDecision EntryStatus.
Proof. solve_decision. Defined.

Definition status_of (state : EntryState) : EntryStatus :=
  match state with
  | Pending => StatusPending
  | Done _ => StatusDone
  | Deleted => StatusDeleted
  end.

Record StoredEntry := { claim : nat; result_tx : EntryState }.

Definition new_pending (fresh : nat) : StoredEntry * nat :=
  ({| claim := fresh; result_tx := Pending |}, fresh).
Definition new_done (fresh : nat) (value : Outcome T) : StoredEntry :=
  {| claim := fresh; result_tx := Done value |}.

Definition status (entry : StoredEntry) : EntryStatus := status_of (result_tx entry).
Definition set_complete (entry : StoredEntry) (result : Outcome T) : StoredEntry :=
  {| claim := claim entry; result_tx := Done result |}.
Definition set_deleted (entry : StoredEntry) : StoredEntry :=
  {| claim := claim entry; result_tx := Deleted |}.

(** [Arc::strong_count(&self.claim) > 1]: besides the entry's own reference to the
    claim there is the one of a live permit. *)
Definition is_permit_held (live : list Permit) (entry : StoredEntry) : bool :=
  existsb (fun p => bool_decide (permit_claim p = claim entry)) live.

Record MetaStore := {
  capacity : N;
  min_cache : N;
  storage : gmap RequestId StoredEntry;
  complete_queue : list RequestId;
  deleted_set : gset RequestId
}.

Definition with_storage (s : MetaStore) (m : gmap RequestId StoredEntry) : MetaStore :=
  {| capacity := capacity s; min_cache := min_cache s; storage := m;
     complete_queue := complete_queue s; deleted_set := deleted_set s |}.
Definition with_queue (s : MetaStore) (q : list RequestId) : MetaStore :=
  {| capacity := capacity s; min_cache := min_cache s; storage := storage s;
     complete_queue := q; deleted_set := deleted_set s |}.
Definition with_deleted (s : MetaStore) (d : gset RequestId) : MetaStore :=
  {| capacity := capacity s; min_cache := min_cache s; storage := storage s;
     complete_queue := complete_queue s; deleted_set := d |}.

(** ** Construction *)

Definition USIZE_MAX : N := 2 ^ 64 - 1.

Definition inner_new (cap cache : N) (queue : list RequestId)
    (m : gmap RequestId StoredEntry) : MetaStore :=
  {| capacity := cap; min_cache := cache; storage := m; complete_queue := queue;
     deleted_set := empty |}.
Definition store_new (cap cache : N) : MetaStore := inner_new cap cache [] empty.
Definition new_unlimited : MetaStore := inner_new USIZE_MAX USIZE_MAX [] empty.

(** [map] lists the bindings in the order of the iteration. *)
Fixpoint seed (fresh : nat) (map : list (RequestId * T)) : list (RequestId * StoredEntry) :=
  match map with
  | [] => []
  | (key, value) :: map' => (key, new_done fresh (inl value)) :: seed (S fresh) map'
  end.
Definition new_from_map (fresh : nat) (map : list (RequestId * T)) : MetaStore :=
  inner_new USIZE_MAX USIZE_MAX map.*1 (list_to_map (seed fresh map)).

(** ** Reading *)

Definition has_existed (s : MetaStore) (request_id : RequestId) : bool :=
  bool_decide (is_Some (storage s !! request_id)).
Definition storage_len (s : MetaStore) : N := N.of_nat (size (storage s)).
Definition queue_len (s : MetaStore) : N := N.of_nat (length (complete_queue s)).
Definition deleted_len (s : MetaStore) : N := N.of_nat (size (deleted_set s)).

Definition verify_invariant (s : MetaStore) : bool :=
  (queue_len s + deleted_len s <=? storage_len s)%N.

Definition retrieve (s : MetaStore) (request_id : RequestId) : option EntryState :=
  result_tx <$> storage s !! request_id.

Definition get_capacity (s : MetaStore) : N := capacity s.
Definition get_total_count (s : MetaStore) : N := storage_len s.
Definition get_deleted_count (s : MetaStore) : N := deleted_len s.
Definition get_any_seen_request_ids (s : MetaStore) : list RequestId := (map_to_list (storage s)).*1.

(** Subtraction on [N] saturates at zero. *)
Definition get_processing_count (s : MetaStore) : N :=
  storage_len s - queue_len s - deleted_len s.

(** [matches!(state, Done(Ok(_)))] and [matches!(state, Done(Err(_)))] of an entry. *)
Definition done_ok (s : MetaStore) (id : RequestId) : bool :=
  match retrieve s id with Some (Done (inl _)) => true | _ => false end.
Definition done_err (s : MetaStore) (id : RequestId) : bool :=
  match retrieve s id with Some (Done (inr _)) => true | _ => false end.

Definition get_successful_completed_request_ids (s : MetaStore) : list RequestId :=
  filter (fun id => Is_true (done_ok s id)) (complete_queue s).
Definition get_processing_request_ids (s : MetaStore) : list RequestId :=
  (filter (fun ke => status ke.2 = StatusPending) (map_to_list (storage s))).*1.
Definition get_failed_request_ids (s : MetaStore) : list RequestId :=
  filter (fun id => Is_true (done_err s id)) (complete_queue s).
Definition get_deleted_request_ids (s : MetaStore) : list RequestId := elements (deleted_set s).

(** ** Changing *)

(** [iter().position(p)]. *)
Fixpoint position (p : RequestId -> bool) (l : list RequestId) : option nat :=
  match l with
  | [] => None
  | x :: l' => if p x then Some 0 else S <$> position p l'
  end.

(** [is_some_and(|e| e.status() == Done && !e.is_permit_held())]. *)
Definition evictable (live : list Permit) (s : MetaStore) (id : RequestId) : bool :=
  match storage s !! id with
  | Some e => bool_decide (status e = StatusDone) && negb (is_permit_held live e)
  | None => false
  end.

(** The eviction of [insert]. *)
Definition evict (live : list Permit) (s : MetaStore) (request_id : RequestId)
    : MetaStore * Res MetaStoreError unit :=
  if (queue_len s <=? min_cache s)%N then (s, Err (CapacityFull request_id))
  else
    match position (evictable live s) (complete_queue s) with
    | None => (s, Err (CapacityFull request_id))
    | Some pos =>
        match complete_queue s !! pos with
        | None => (s, Err (Invariant "complete_queue index vanished"))
        | Some old_request_id =>
            let q := delete pos (complete_queue s) in
            match storage s !! old_request_id with
            | None =>
                (with_queue s (take pos q ++ old_request_id :: drop pos q),
                 Err (Invariant "failed to remove old element from storage"))
            | Some _ =>
                (with_storage (with_queue s q) (delete old_request_id (storage s)), Ok tt)
            end
        end
    end.

Definition insert (live : list Permit) (fresh : nat) (s : MetaStore) (request_id : RequestId)
    : MetaStore * Res MetaStoreError Permit :=
  if has_existed s request_id then (s, Err (AlreadyExists request_id))
  else
    let (s, evicted) :=
      if (capacity s <=? storage_len s)%N then evict live s request_id else (s, Ok tt) in
    match evicted with
    | Ok _ =>
        let (entry, claim) := new_pending fresh in
        (with_storage s (<[request_id := entry]> (storage s)), Ok (permit_new request_id claim))
    | Err e => (s, Err e)
    | Panic => (s, Panic)
    | Timeout => (s, Timeout)
    end.

Definition lock_entry (live : list Permit) (s : MetaStore) (request_id : RequestId)
    : Res MetaStoreError Permit :=
  match storage s !! request_id with
  | None => Err (NotFound request_id)
  | Some entry =>
      match status entry with
      | StatusPending | StatusDone =>
          if is_permit_held live entry then Err (Locked request_id)
          else Ok (permit_new request_id (claim entry))
      | StatusDeleted => Err (CannotUpdate request_id)
      end
  end.

Definition update (s : MetaStore) (update : Outcome T) (permit : Permit)
    : MetaStore * Res MetaStoreError unit :=
  let req_id := permit_id permit in
  match storage s !! req_id with
  | None => (s, Err (NotFound req_id))
  | Some entry =>
      if bool_decide (status entry = StatusPending) then
        (with_queue (with_storage s (<[req_id := set_complete entry update]> (storage s)))
           (complete_queue s ++ [req_id]), Ok tt)
      else (s, Err (CannotUpdate req_id))
  end.

Definition finalize (s : MetaStore) (permit : Permit) (value : T)
    : MetaStore * Res MetaStoreError unit :=
  let req_id := permit_id permit in
  match storage s !! req_id with
  | None => (s, Err (NotFound req_id))
  | Some entry =>
      match status entry with
      | StatusDeleted => (s, Err (CannotUpdate req_id))
      | StatusPending =>
          (with_queue (with_storage s (<[req_id := set_complete entry (inl value)]> (storage s)))
             (complete_queue s ++ [req_id]), Ok tt)
      | StatusDone =>
          (with_storage s (<[req_id := set_complete entry (inl value)]> (storage s)), Ok tt)
      end
  end.

Definition abort_reservation (s : MetaStore) (permit : Permit) : MetaStore :=
  let req_id := permit_id permit in
  match storage s !! req_id with
  | Some entry =>
      if bool_decide (status entry = StatusPending)
      then with_storage s (delete req_id (storage s)) else s
  | None => s
  end.

(** The tombstone of an entry, with its previous state. *)
Definition tombstone (s : MetaStore) (req_id : RequestId) (entry : StoredEntry)
    : MetaStore * EntryState :=
  let prev := result_tx entry in
  let was_done := bool_decide (status entry = StatusDone) in
  let s := with_storage s (<[req_id := set_deleted entry]> (storage s)) in
  let s := with_deleted s (deleted_set s ∪ {[req_id]}) in
  let s := if was_done then with_queue s (filter (fun id => id ≠ req_id) (complete_queue s)) else s in
  (s, prev).

(** [delete]. *)
Definition delete_entry (s : MetaStore) (permit : Permit) : MetaStore * Res MetaStoreError EntryState :=
  let req_id := permit_id permit in
  match storage s !! req_id with
  | None => (s, Err (NotFound req_id))
  | Some entry =>
      if bool_decide (status entry = StatusDeleted) then (s, Err (CannotUpdate req_id))
      else let (s, prev) := tombstone s req_id entry in (s, Ok prev)
  end.

Definition try_delete (live : list Permit) (s : MetaStore) (request_id : RequestId)
    : MetaStore * Res MetaStoreError EntryState :=
  match storage s !! request_id with
  | None => (s, Err (NotFound request_id))
  | Some entry =>
      match status entry with
      | StatusPending | StatusDone =>
          if is_permit_held live entry then (s, Err (Locked request_id))
          else let (s, prev) := tombstone s request_id entry in (s, Ok prev)
      | StatusDeleted => (s, Err (CannotUpdate request_id))
      end
  end.

Definition fail_if_orphaned (live : list Permit) (s : MetaStore) (req_id : RequestId) (reason : string)
    : MetaStore * bool :=
  match storage s !! req_id with
  | Some entry =>
      if bool_decide (status entry = StatusPending) && negb (is_permit_held live entry) then
        (with_queue (with_storage s (<[req_id := set_complete entry (inr reason)]> (storage s)))
           (complete_queue s ++ [req_id]), true)
      else (s, false)
  | None => (s, false)
  end.

Definition redo_failed (live : list Permit) (fresh : nat) (s : MetaStore) (req_id : RequestId)
    : MetaStore * Res MetaStoreError Permit :=
  match storage s !! req_id with
  | None => (s, Err (NotFound req_id))
  | Some entry =>
      match result_tx entry with
      | Deleted => (s, Err (CannotUpdate req_id))
      | Pending => (s, Err (Locked req_id))
      | Done (inl _) => (s, Err (CannotUpdate req_id))
      | Done (inr _) =>
          if is_permit_held live entry then (s, Err (Locked req_id))
          else
            let s := with_queue s (filter (fun id => id ≠ req_id) (complete_queue s)) in
            let (entry, claim) := new_pending fresh in
            (with_storage s (<[req_id := entry]> (storage s)), Ok (permit_new req_id claim))
      end
  end.

(** ** The helper layer *)

Definition set_op (permit : Permit) (op : string) : Permit :=
  {| permit_id := permit_id permit; permit_claim := permit_claim permit; permit_op := op |}.

(** The permit of a helper is reported under the caller's metric. *)
Definition report_as (metric : string) (r : Res MetaStoreError Permit) : Res MetricedError Permit :=
  let* permit := rmap_err (into_metriced metric) r in Ok (set_op permit metric).

Definition add_req_to_meta_store (live : list Permit) (fresh : nat) (s : MetaStore)
    (req_id : RequestId) (metric : string) : MetaStore * Res MetricedError Permit :=
  let (s, r) := insert live fresh s req_id in (s, report_as metric r).

Definition ensure_not_in_meta_store (s : MetaStore) (req_id : RequestId) (metric : string)
    : Res MetricedError unit :=
  if has_existed s req_id then Err (into_metriced metric (AlreadyExists req_id)) else Ok tt.

Definition lock_entry_in_meta_store (live : list Permit) (s : MetaStore) (req_id : RequestId)
    (metric : string) : Res MetricedError Permit :=
  report_as metric (lock_entry live s req_id).

Definition add_or_redo_failed_in_meta_store (live : list Permit) (fresh : nat) (s : MetaStore)
    (req_id : RequestId) (metric : string) : MetaStore * Res MetricedError Permit :=
  match insert live fresh s req_id with
  | (s, Err (AlreadyExists _)) =>
      let (s, r) := redo_failed live fresh s req_id in
      (s, report_as metric (rmap_err (fun _ => AlreadyExists req_id) r))
  | (s, r) => (s, report_as metric r)
  end.

(** [update_ok_req_in_meta_store] and [update_err_req_in_meta_store]: whether the
    result was recorded. *)
Definition update_req_in_meta_store (s : MetaStore) (permit : Permit) (result : Outcome T)
    : MetaStore * bool :=
  match update s result permit with
  | (s, Ok _) => (s, true)
  | (s, _) => (s, false)
  end.

Definition delete_in_meta_store (s : MetaStore) (permit : Permit) : MetaStore * bool :=
  match delete_entry s permit with
  | (s, Ok _) => (s, true)
  | (s, _) => (s, false)
  end.

(** The commit of [with_overwriting_claim], after [work] has run on the claim. *)
Definition overwriting_commit {R E : Type} (commit_error : MetaStoreError -> E) (s : MetaStore)
    (permit : Permit) (work : Res E (T * R)) : MetaStore * Res E R :=
  match work with
  | Ok (value, payload) =>
      let (s, r) := finalize s permit value in
      (s, let* _ := rmap_err commit_error r in Ok payload)
  | Err e => (abort_reservation s permit, Err e)
  | Panic => (s, Panic)
  | Timeout => (s, Timeout)
  end.

Definition entry_not_found_or_deleted (req_id : RequestId) (scope : string) : MetricedError :=
  {| op_metric := scope; err_req_id := Some req_id; err_code := CodeNotFound |}.

(** [to_ascii_lowercase] and [contains]. *)
Definition ascii_lower (c : Ascii.ascii) : Ascii.ascii :=
  let n := Ascii.nat_of_ascii c in
  if bool_decide (65 ≤ n ∧ n ≤ 90) then Ascii.ascii_of_nat (n + 32) else c.
Fixpoint to_ascii_lowercase (s : string) : string :=
  match s with
  | EmptyString => EmptyString
  | String c s' => String (ascii_lower c) (to_ascii_lowercase s')
  end.
Fixpoint contains (needle s : string) : bool :=
  String.prefix needle s || match s with EmptyString => false | String _ s' => contains needle s' end.

Definition metriced_result (result : Outcome T) (req_id : RequestId) (scope : string)
    : Res MetricedError T :=
  match result with
  | inl value => Ok value
  | inr e =>
      let code := if contains "abort" (to_ascii_lowercase e) then CodeAborted else CodeInternal in
      Err {| op_metric := scope; err_req_id := Some req_id; err_code := code |}
  end.

Definition unavailable (req_id : RequestId) (scope : string) : MetricedError :=
  {| op_metric := scope; err_req_id := Some req_id; err_code := CodeUnavailable |}.

Definition retrieve_from_meta_store (s : MetaStore) (req_id : RequestId) (scope : string)
    : Res MetricedError T :=
  match retrieve s req_id with
  | None | Some Deleted => Err (entry_not_found_or_deleted req_id scope)
  | Some Pending => Err (unavailable req_id scope)
  | Some (Done result) => metriced_result result req_id scope
  end.

(** How [timeout(wait_for(..))] ends: the channel published a state that is not
    [Pending], its sender was dropped, or the time was up. *)
Inductive WaitOutcome : Type := Settled (state : EntryState) | Closed | Elapsed.

Definition retrieve_from_meta_store_with_timeout (s : MetaStore) (req_id : RequestId) (scope : string)
    (wait : WaitOutcome) : Res MetricedError T :=
  match retrieve s req_id with
  | None => Err (entry_not_found_or_deleted req_id scope)
  | Some (Done res) => metriced_result res req_id scope
  | Some Deleted => Err (entry_not_found_or_deleted req_id scope)
  | Some Pending =>
      match wait with
      | Settled (Done result) => metriced_result result req_id scope
      | Settled Deleted => Err (entry_not_found_or_deleted req_id scope)
      | Settled Pending => Err (unavailable req_id scope)
      | Closed => Err (unavailable req_id scope)
      | Elapsed => Err (unavailable req_id scope)
      end
  end.
End MetaStore.

Arguments MetaStoreError : clear implicits.
Arguments MetricedError : clear implicits.
Arguments Permit : clear implicits.
Arguments EntryState : clear implicits.
Arguments StoredEntry : clear implicits.
Arguments MetaStore RequestId {_ _} T.
