(* ===== verification/MetaStoreSystem.v ===== *)
(** * The meta store with the holders of permits and its reaper
    (core/service/src/util/meta_store.rs)

    The tasks of the service call the store under its lock, so their calls are a
    sequence; between the calls the live permits and the channel to the reaper
    carry the state.  A world is the store, the live permits, the messages to the
    reaper and the identity of the next claim; an event is one call, one drop of
    a permit or one message handled by the reaper, in any order. *)

From stdpp Require Import base gmap sets list strings.
From S2P Require Import Prelude MetaStore.

Set Default Proof Using "Type".

Section System.
Context {RequestId : Type} `{Countable RequestId} {T : Type}.
Local Notation Store := (MetaStore RequestId T).
Local Notation Entry := (StoredEntry T).
Local Notation Permit := (Permit RequestId).

(** ** Worlds and events *)

Record World := {
  store : Store;
  live : list Permit;
  reaper : list (RequestId * string);
  next : nat
}.

Definition world_new (s : Store) (next : nat) : World :=
  {| store := s; live := []; reaper := []; next := next |}.

(** A permit is named by its place in the list of live permits. *)
Inductive Event : Type :=
| EvInsert (id : RequestId) (metric : string)
| EvAddOrRedo (id : RequestId) (metric : string)
| EvLock (id : RequestId) (metric : string)
| EvUpdate (i : nat) (result : Outcome T)
| EvFinalize (i : nat) (value : T)
| EvAbort (i : nat)
| EvDelete (i : nat)
| EvDrop (i : nat)
| EvTryDelete (id : RequestId)
| EvReap.

(** The result of a call that mints a permit. *)
Definition minted {E} (w : World) (s : Store) (r : Res E Permit) : World :=
  match r with
  | Ok p => {| store := s; live := p :: live w; reaper := reaper w; next := S (next w) |}
  | _ => {| store := s; live := live w; reaper := reaper w; next := S (next w) |}
  end.

(** A call that consumes the permit [i]. *)
Definition consumed (w : World) (i : nat) (f : Permit -> Store) : World :=
  match live w !! i with
  | None => w
  | Some p => {| store := f p; live := delete i (live w); reaper := reaper w; next := next w |}
  end.

(** [Drop] of a permit that was not consumed.  The code releases the claim and then sends the
    message to the reaper, without the lock; in between, the entry is an orphan that the
    reaper has not heard of yet, as it is while the message waits in the channel. *)
Definition drop_permit (w : World) (i : nat) : World :=
  match live w !! i with
  | None => w
  | Some p =>
      {| store := store w; live := delete i (live w);
         reaper := reaper w ++ [(permit_id p, permit_op p)]; next := next w |}
  end.

Definition abandoned : string :=
  "request abandoned: meta store permit dropped before an outcome was recorded".

(** One round of [reaper_loop]. *)
Definition reap (w : World) : World :=
  match reaper w with
  | [] => w
  | (req_id, _) :: rest =>
      {| store := (fail_if_orphaned (live w) (store w) req_id abandoned).1; live := live w;
         reaper := rest; next := next w |}
  end.

Definition exec (w : World) (ev : Event) : World :=
  match ev with
  | EvInsert id metric =>
      let (s, r) := add_req_to_meta_store (live w) (next w) (store w) id metric in minted w s r
  | EvAddOrRedo id metric =>
      let (s, r) := add_or_redo_failed_in_meta_store (live w) (next w) (store w) id metric in
      minted w s r
  | EvLock id metric =>
      minted w (store w) (lock_entry_in_meta_store (live w) (store w) id metric)
  | EvUpdate i result => consumed w i (fun p => (update (store w) result p).1)
  | EvFinalize i value => consumed w i (fun p => (finalize (store w) p value).1)
  | EvAbort i => consumed w i (fun p => abort_reservation (store w) p)
  | EvDelete i => consumed w i (fun p => (delete_entry (store w) p).1)
  | EvDrop i => drop_permit w i
  | EvTryDelete id =>
      {| store := (try_delete (live w) (store w) id).1; live := live w; reaper := reaper w;
         next := next w |}
  | EvReap => reap w
  end.

Definition run (w : World) (evs : list Event) : World := foldl exec w evs.

(** ** The invariant *)

(** The status of the entry of a request. *)
Definition entry_status (s : Store) (id : RequestId) : option EntryStatus := status <$> storage s !! id.

Record store_wf (s : Store) : Prop := {
  wf_queue_nodup : NoDup (complete_queue s);
  wf_queue : forall id, id ∈ complete_queue s <-> entry_status s id = Some StatusDone;
  wf_deleted : forall id, id ∈ deleted_set s <-> entry_status s id = Some StatusDeleted;
  wf_claims : forall id id' e e', storage s !! id = Some e -> storage s !! id' = Some e' ->
    claim e = claim e' -> id = id';
  wf_capacity : (storage_len s <= capacity s)%N
}.

(** Every live permit shares the claim of the entry of its request, which is not
    deleted; no request has two; and a pending entry without a permit is waiting
    for the reaper. *)
Record world_wf (w : World) : Prop := {
  wf_store : store_wf (store w);
  wf_fresh : forall id e, storage (store w) !! id = Some e -> claim e < next w;
  wf_permits : forall p, p ∈ live w -> exists e,
    storage (store w) !! permit_id p = Some e /\ claim e = permit_claim p /\ status e <> StatusDeleted;
  wf_live : NoDup (permit_id <$> live w);
  wf_orphans : forall id, entry_status (store w) id = Some StatusPending ->
    id ∈ permit_id <$> live w \/ id ∈ (reaper w).*1
}.

(** ** The changes of the store *)

Lemma entry_status_Some (s : Store) id e : storage s !! id = Some e -> entry_status s id = Some (status e).
Proof. unfold entry_status. by intros ->. Qed.

(** Every operation changes the entry of one request. *)
Lemma wf_change (s s' : Store) k : store_wf s ->
  (forall id, id <> k -> storage s' !! id = storage s !! id /\
     (id ∈ complete_queue s' <-> id ∈ complete_queue s) /\ (id ∈ deleted_set s' <-> id ∈ deleted_set s)) ->
  NoDup (complete_queue s') ->
  (k ∈ complete_queue s' <-> entry_status s' k = Some StatusDone) ->
  (k ∈ deleted_set s' <-> entry_status s' k = Some StatusDeleted) ->
  (forall id e e', id <> k -> storage s !! id = Some e -> storage s' !! k = Some e' -> claim e <> claim e') ->
  (storage_len s' <= capacity s')%N ->
  store_wf s'.
Proof.
  intros [Hn Hq Hd Hc Hl] Hother Hn' Hqk Hdk Hck Hl'. constructor; auto.
  - intros id. destruct (decide (id = k)) as [->|Hne]; [done|].
    destruct (Hother id Hne) as (He & -> & _). rewrite Hq. unfold entry_status. by rewrite He.
  - intros id. destruct (decide (id = k)) as [->|Hne]; [done|].
    destruct (Hother id Hne) as (He & _ & ->). rewrite Hd. unfold entry_status. by rewrite He.
  - intros id id' e e' He He' Heq.
    destruct (decide (id = k)) as [->|Hne], (decide (id' = k)) as [->|Hne']; auto.
    + destruct (Hother id' Hne') as [Hs _]. rewrite Hs in He'. by destruct (Hck id' e' e Hne' He' He).
    + destruct (Hother id Hne) as [Hs _]. rewrite Hs in He. by destruct (Hck id e e' Hne He He').
    + destruct (Hother id Hne) as [Hs _], (Hother id' Hne') as [Hs' _].
      rewrite Hs in He. rewrite Hs' in He'. eauto.
Qed.

Lemma size_insert_Some (m : gmap RequestId Entry) k e e' : m !! k = Some e -> size (<[k := e']> m) = size m.
Proof. intros Hk. apply map_size_insert_Some. by rewrite Hk. Qed.

(** Membership in the queue and in the deleted set, from the state of the entry. *)
Lemma queue_not_done s k : store_wf s -> entry_status s k <> Some StatusDone -> k ∉ complete_queue s.
Proof. intros Hs Hne Hin. by apply Hne, wf_queue. Qed.

Lemma deleted_not s k : store_wf s -> entry_status s k <> Some StatusDeleted -> k ∉ deleted_set s.
Proof. intros Hs Hne Hin. by apply Hne, wf_deleted. Qed.

Ltac wf_at Hs k :=
  apply (wf_change _ _ k Hs); simpl;
  [intros id Hne; split; [by simplify_map_eq|]; rewrite ?list_elem_of_filter; set_solver|..];
  unfold entry_status, storage_len in *; simpl in *; rewrite ?lookup_insert_eq, ?lookup_delete_eq; simpl.

Lemma wf_put_pending s k c : store_wf s -> storage s !! k = None -> (storage_len s < capacity s)%N ->
  (forall id e, storage s !! id = Some e -> claim e <> c) ->
  store_wf (with_storage s (<[k := {| claim := c; result_tx := Pending |}]> (storage s))).
Proof.
  intros Hs Hk Hlt Hf.
  assert (entry_status s k = None) as Hst by (unfold entry_status; by rewrite Hk).
  pose proof (queue_not_done s k Hs) as Hq. pose proof (deleted_not s k Hs) as Hd. rewrite Hst in Hq, Hd.
  wf_at Hs k.
  - apply Hs.
  - naive_solver.
  - naive_solver.
  - intros id e e' Hne He [= <-]. simpl. eauto.
  - rewrite map_size_insert_None by done. lia.
Qed.

Lemma wf_complete s k e r : store_wf s -> storage s !! k = Some e -> status e = StatusPending ->
  store_wf (with_queue (with_storage s (<[k := set_complete e r]> (storage s))) (complete_queue s ++ [k])).
Proof.
  intros Hs Hk Hst. pose proof (entry_status_Some s k e Hk) as Hes. rewrite Hst in Hes.
  assert (k ∉ complete_queue s) as Hq by (apply queue_not_done; [done|by rewrite Hes]).
  assert (k ∉ deleted_set s) as Hd by (apply deleted_not; [done|by rewrite Hes]).
  wf_at Hs k.
  - apply NoDup_app. split; [apply Hs|]. split; [set_solver|apply NoDup_singleton].
  - set_solver.
  - naive_solver.
  - intros id e' e'' Hne He' [= <-] Heq. simpl in Heq. by destruct Hne; eapply (wf_claims s Hs).
  - rewrite (size_insert_Some _ _ e) by done. apply Hs.
Qed.

Lemma wf_overwrite s k e r : store_wf s -> storage s !! k = Some e -> status e = StatusDone ->
  store_wf (with_storage s (<[k := set_complete e r]> (storage s))).
Proof.
  intros Hs Hk Hst. pose proof (entry_status_Some s k e Hk) as Hes. rewrite Hst in Hes.
  assert (k ∈ complete_queue s) as Hq by (by apply (wf_queue s Hs)).
  assert (k ∉ deleted_set s) as Hd by (apply deleted_not; [done|by rewrite Hes]).
  wf_at Hs k.
  - apply Hs.
  - naive_solver.
  - naive_solver.
  - intros id e' e'' Hne He' [= <-] Heq. simpl in Heq. by destruct Hne; eapply (wf_claims s Hs).
  - rewrite (size_insert_Some _ _ e) by done. apply Hs.
Qed.

Lemma wf_remove_pending s k e : store_wf s -> storage s !! k = Some e -> status e = StatusPending ->
  store_wf (with_storage s (delete k (storage s))).
Proof.
  intros Hs Hk Hst. pose proof (entry_status_Some s k e Hk) as Hes. rewrite Hst in Hes.
  assert (k ∉ complete_queue s) as Hq by (apply queue_not_done; [done|by rewrite Hes]).
  assert (k ∉ deleted_set s) as Hd by (apply deleted_not; [done|by rewrite Hes]).
  wf_at Hs k.
  - apply Hs.
  - naive_solver.
  - naive_solver.
  - intros. done.
  - rewrite map_size_delete_Some by (by rewrite Hk). pose proof (wf_capacity s Hs). unfold storage_len in *. lia.
Qed.

Lemma wf_tombstone s k e : store_wf s -> storage s !! k = Some e -> status e <> StatusDeleted ->
  store_wf (tombstone s k e).1.
Proof.
  intros Hs Hk Hst. pose proof (entry_status_Some s k e Hk) as Hes. unfold tombstone.
  pose proof (wf_capacity s Hs) as Hcap. pose proof (wf_queue_nodup s Hs) as Hnd.
  case_bool_decide as Hdone; wf_at Hs k.
  - by apply NoDup_filter.
  - rewrite list_elem_of_filter. naive_solver.
  - set_solver.
  - intros id e' e'' Hne He' [= <-] Heq. simpl in Heq. by destruct Hne; eapply (wf_claims s Hs).
  - rewrite (size_insert_Some _ _ e) by done. apply Hs.
  - done.
  - split; [|done]. intros Hin%(wf_queue s Hs). unfold entry_status in Hin. rewrite Hes in Hin. congruence.
  - set_solver.
  - intros id e' e'' Hne He' [= <-] Heq. simpl in Heq. by destruct Hne; eapply (wf_claims s Hs).
  - rewrite (size_insert_Some _ _ e) by done. apply Hs.
Qed.

Lemma wf_redo s k e c : store_wf s -> storage s !! k = Some e -> status e = StatusDone ->
  (forall id e, storage s !! id = Some e -> claim e <> c) ->
  store_wf (with_storage (with_queue s (filter (fun id => id ≠ k) (complete_queue s)))
    (<[k := {| claim := c; result_tx := Pending |}]> (storage s))).
Proof.
  intros Hs Hk Hst Hf. pose proof (entry_status_Some s k e Hk) as Hes. rewrite Hst in Hes.
  assert (k ∉ deleted_set s) as Hd by (apply deleted_not; [done|by rewrite Hes]).
  wf_at Hs k.
  - apply NoDup_filter, Hs.
  - rewrite list_elem_of_filter. naive_solver.
  - naive_solver.
  - intros id e' e'' Hne He' [= <-]. simpl. eauto.
  - rewrite (size_insert_Some _ _ e) by done. apply Hs.
Qed.

(** The entry that [insert] evicts is done and not held. *)
Lemma position_Some (p : RequestId -> bool) l pos : position p l = Some pos ->
  exists x, l !! pos = Some x /\ p x = true.
Proof.
  revert pos. induction l as [|x l IH]; simpl; intros pos; [done|].
  destruct (p x) eqn:Hp; [intros [= <-]; eauto|].
  intros (pos' & Hpos & ->)%fmap_Some. eauto.
Qed.

Lemma evictable_true (lv : list Permit) (s : Store) id : evictable lv s id = true ->
  exists e, storage s !! id = Some e /\ status e = StatusDone /\ is_permit_held lv e = false.
Proof.
  unfold evictable. destruct (storage s !! id) as [e|]; [|done].
  intros [Hst%bool_decide_eq_true Hheld%negb_true_iff]%andb_true_iff. eauto.
Qed.

Lemma wf_evict s k e pos : store_wf s -> complete_queue s !! pos = Some k -> storage s !! k = Some e ->
  store_wf (with_storage (with_queue s (delete pos (complete_queue s))) (delete k (storage s))).
Proof.
  intros Hs Hpos Hk. pose proof (delete_Permutation _ _ _ Hpos) as Hperm.
  assert (forall id, id ∈ complete_queue s <-> id ∈ k :: delete pos (complete_queue s)) as Hmem
    by (intros id; by rewrite <- Hperm).
  pose proof (wf_queue_nodup s Hs) as Hnd. rewrite Hperm in Hnd. apply NoDup_cons in Hnd as [Hnot Hnd].
  assert (entry_status s k = Some StatusDone) as Hes by (apply (wf_queue s Hs); by eapply list_elem_of_lookup_2).
  assert (k ∉ deleted_set s) as Hd by (apply deleted_not; [done|by rewrite Hes]).
  apply (wf_change _ _ k Hs); simpl; unfold entry_status, storage_len in *; simpl.
  - intros id Hne. simplify_map_eq. split; [done|]. split; [|done]. specialize (Hmem id). set_solver.
  - done.
  - rewrite lookup_delete_eq. naive_solver.
  - rewrite lookup_delete_eq. naive_solver.
  - intros id e1 e2 _ _. by rewrite lookup_delete_eq.
  - rewrite map_size_delete_Some by (by rewrite Hk). pose proof (wf_capacity s Hs). unfold storage_len in *. lia.
Qed.

(** ** The changes of the world *)

(** The strong count of a claim tells whether the request has a permit. *)
Lemma permit_held_iff w id e : world_wf w -> storage (store w) !! id = Some e ->
  is_permit_held (live w) e = true <-> id ∈ permit_id <$> live w.
Proof.
  intros Hw Hid. unfold is_permit_held. rewrite existsb_exists. setoid_rewrite bool_decide_eq_true.
  setoid_rewrite <- list_elem_of_In. rewrite list_elem_of_fmap. split.
  - intros (p & Hp & Hc). exists p. split; [|done].
    destruct (wf_permits w Hw p Hp) as (e' & He' & Hce & _).
    apply (wf_claims _ (wf_store w Hw) id (permit_id p) e e' Hid He'). congruence.
  - intros (p & -> & Hp). exists p. split; [done|].
    destruct (wf_permits w Hw p Hp) as (e' & He' & Hce & _). congruence.
Qed.

Lemma permit_free_iff w id e : world_wf w -> storage (store w) !! id = Some e ->
  is_permit_held (live w) e = false <-> id ∉ permit_id <$> live w.
Proof.
  intros Hw Hid. rewrite <- (permit_held_iff w id e Hw Hid). by destruct (is_permit_held _ _).
Qed.

(** Every event changes the entry and the permits of one request. *)
Lemma world_change w w' k : world_wf w -> store_wf (store w') -> next w <= next w' ->
  (forall id, id <> k -> storage (store w') !! id = storage (store w) !! id) ->
  (forall e, storage (store w') !! k = Some e -> claim e < next w') ->
  (forall p, p ∈ live w' -> (p ∈ live w /\ permit_id p <> k) \/ (permit_id p = k /\ exists e,
     storage (store w') !! k = Some e /\ claim e = permit_claim p /\ status e <> StatusDeleted)) ->
  NoDup (permit_id <$> live w') ->
  (forall id, id <> k -> id ∈ permit_id <$> live w -> id ∈ permit_id <$> live w') ->
  (forall id, id <> k -> id ∈ (reaper w).*1 -> id ∈ (reaper w').*1) ->
  (entry_status (store w') k = Some StatusPending -> k ∈ permit_id <$> live w' \/ k ∈ (reaper w').*1) ->
  world_wf w'.
Proof.
  intros [Hs Hf Hp Hl Ho] Hs' Hnext Hother Hfk Hpk Hl' Hlive Hreap Hok. constructor; auto.
  - intros id e He. destruct (decide (id = k)) as [->|Hne]; [auto|].
    rewrite Hother in He by done. specialize (Hf id e He). lia.
  - intros p Hin. destruct (Hpk p Hin) as [[Hin' Hne]|[-> He]]; [|done].
    rewrite Hother by done. auto.
  - intros id Hid. destruct (decide (id = k)) as [->|Hne]; [auto|].
    unfold entry_status in Hid. rewrite Hother in Hid by done.
    destruct (Ho id Hid); [left|right]; auto.
Qed.

Lemma live_delete w i p : world_wf w -> live w !! i = Some p ->
  NoDup (permit_id <$> delete i (live w)) /\ permit_id p ∉ permit_id <$> delete i (live w) /\
  forall q, q ∈ live w <-> q = p \/ q ∈ delete i (live w).
Proof.
  intros Hw Hi. pose proof (delete_Permutation _ _ _ Hi) as Hperm.
  pose proof (wf_live w Hw) as Hnd. rewrite Hperm in Hnd. rewrite fmap_cons in Hnd.
  apply NoDup_cons in Hnd as [Hnot Hnd]. do 2 (split; [done|]).
  intros q. rewrite <- elem_of_cons. by rewrite <- Hperm.
Qed.

(** A new permit for [k], whose entry is not held. *)
Lemma wf_mint w s' k e p : world_wf w -> store_wf s' -> k ∉ permit_id <$> live w ->
  (forall id, id <> k -> storage s' !! id = storage (store w) !! id) ->
  storage s' !! k = Some e -> claim e <= next w -> status e <> StatusDeleted ->
  permit_id p = k -> permit_claim p = claim e ->
  world_wf {| store := s'; live := p :: live w; reaper := reaper w; next := S (next w) |}.
Proof.
  intros Hw Hs' Hk Hother He Hle Hst Hp Hc. apply (world_change w _ k); simpl; auto.
  - intros e' He'. rewrite He in He'. injection He' as <-. lia.
  - intros q [->|Hq]%elem_of_cons; [right; eauto|left].
    split; [done|]. intros Heq. apply Hk. apply list_elem_of_fmap. eauto.
  - rewrite ?fmap_cons, Hp. apply NoDup_cons. split; [done|apply Hw].
  - intros id _ Hin. rewrite ?fmap_cons. set_solver.
  - intros _. left. rewrite ?fmap_cons, Hp. set_solver.
Qed.

(** A call that consumes a permit settles its entry. *)
Lemma wf_consumed w s' i p : world_wf w -> live w !! i = Some p -> store_wf s' ->
  (forall id, id <> permit_id p -> storage s' !! id = storage (store w) !! id) ->
  (forall e, storage s' !! permit_id p = Some e -> claim e < next w) ->
  entry_status s' (permit_id p) <> Some StatusPending ->
  world_wf {| store := s'; live := delete i (live w); reaper := reaper w; next := next w |}.
Proof.
  intros Hw Hi Hs' Hother Hc Hst. destruct (live_delete w i p Hw Hi) as (Hnd & Hnot & Hmem).
  apply (world_change w _ (permit_id p)); simpl; auto; try done.
  - intros q Hq. left. split; [apply Hmem; auto|]. intros Heq. apply Hnot.
    rewrite <- Heq. apply list_elem_of_fmap. eauto.
  - intros id Hne (q & -> & [->|Hq]%Hmem)%list_elem_of_fmap; [done|]. apply list_elem_of_fmap. eauto.
Qed.

Lemma wf_dropped w i p : world_wf w -> live w !! i = Some p ->
  world_wf {| store := store w; live := delete i (live w);
              reaper := reaper w ++ [(permit_id p, permit_op p)]; next := next w |}.
Proof.
  intros Hw Hi. destruct (live_delete w i p Hw Hi) as (Hnd & Hnot & Hmem).
  apply (world_change w _ (permit_id p)); simpl; auto; try apply Hw.
  - intros q Hq. left. split; [apply Hmem; auto|]. intros Heq. apply Hnot.
    rewrite <- Heq. apply list_elem_of_fmap. eauto.
  - intros id Hne (q & -> & [->|Hq]%Hmem)%list_elem_of_fmap; [done|]. apply list_elem_of_fmap. eauto.
  - intros id _ Hin. rewrite fmap_app. set_solver.
  - intros _. right. rewrite fmap_app. set_solver.
Qed.

(** A change of an entry that is not held. *)
Lemma wf_unheld w s' rp k : world_wf w -> store_wf s' -> k ∉ permit_id <$> live w ->
  (forall id, id <> k -> storage s' !! id = storage (store w) !! id) ->
  (forall e, storage s' !! k = Some e -> claim e < next w) ->
  entry_status s' k <> Some StatusPending ->
  (forall id, id <> k -> id ∈ (reaper w).*1 -> id ∈ rp.*1) ->
  world_wf {| store := s'; live := live w; reaper := rp; next := next w |}.
Proof.
  intros Hw Hs' Hk Hother Hc Hst Hrp. apply (world_change w _ k); simpl; auto; try apply Hw; try done.
  intros q Hq. left. split; [done|]. intros <-. apply Hk, list_elem_of_fmap. eauto.
Qed.

(** ** Insertion *)

Lemma evict_cases (lv : list Permit) (s : Store) id :
  evict lv s id = (s, Err (CapacityFull id)) \/
  exists pos k e, (min_cache s < queue_len s)%N /\ complete_queue s !! pos = Some k /\
    storage s !! k = Some e /\ status e = StatusDone /\ is_permit_held lv e = false /\
    evict lv s id = (with_storage (with_queue s (delete pos (complete_queue s))) (delete k (storage s)), Ok tt).
Proof.
  unfold evict. destruct (N.leb_spec (queue_len s) (min_cache s)) as [|Hlt]; [by left|].
  destruct (position _ _) as [pos|] eqn:Hpos; [right|by left].
  apply position_Some in Hpos as (k & Hk & (e & He & Hst & Hheld)%evictable_true).
  exists pos, k, e. by rewrite Hk, He.
Qed.

(** The store into which the new entry is put. *)
Lemma evicted_wf w id : world_wf w -> (capacity (store w) <= storage_len (store w))%N ->
  evict (live w) (store w) id = (store w, Err (CapacityFull id)) \/
  exists s1, evict (live w) (store w) id = (s1, Ok tt) /\
    world_wf {| store := s1; live := live w; reaper := reaper w; next := next w |} /\
    (storage_len s1 < capacity s1)%N /\ storage s1 ⊆ storage (store w).
Proof.
  intros Hw Hfull. destruct (evict_cases (live w) (store w) id) as [->|(pos & k & e & _ & Hpos & Hk & Hst & Hheld & ->)];
    [by left|right]. eexists. split; [done|]. split; [|split].
  - apply (wf_unheld w _ _ k); simpl; auto.
    + eapply wf_evict; eauto. apply Hw.
    + by apply (permit_free_iff w k e).
    + intros id' Hne. by simplify_map_eq.
    + intros e'. by rewrite lookup_delete_eq.
    + unfold entry_status. simpl. by rewrite lookup_delete_eq.
  - pose proof (wf_capacity _ (wf_store w Hw)). unfold storage_len in *. simpl.
    rewrite map_size_delete_Some by (by rewrite Hk).
    assert (size (storage (store w)) <> 0) by (apply map_size_non_empty_iff; intros Hem; rewrite Hem in Hk; by simplify_map_eq).
    lia.
  - apply delete_subseteq.
Qed.

Lemma put_wf w id (p : Permit) : world_wf w -> storage (store w) !! id = None ->
  (storage_len (store w) < capacity (store w))%N -> permit_id p = id -> permit_claim p = next w ->
  world_wf {| store := with_storage (store w) (<[id := {| claim := next w; result_tx := Pending |}]> (storage (store w)));
              live := p :: live w; reaper := reaper w; next := S (next w) |}.
Proof.
  intros Hw Hid Hlt Hp Hc. apply (wf_mint w _ id {| claim := next w; result_tx := Pending |}); simpl; auto.
  - apply wf_put_pending; auto; [apply Hw|]. intros id' e He Heq. pose proof (wf_fresh w Hw id' e He). lia.
  - intros (q & -> & Hq)%list_elem_of_fmap. destruct (wf_permits w Hw q Hq) as (e & He & _). congruence.
  - intros id' Hne. by simplify_map_eq.
  - by rewrite lookup_insert_eq.
Qed.

Lemma wf_next w : world_wf w ->
  world_wf {| store := store w; live := live w; reaper := reaper w; next := S (next w) |}.
Proof.
  intros [Hs Hf Hp Hl Ho]. constructor; simpl; auto. intros id e He. specialize (Hf id e He). lia.
Qed.

Lemma insert_wf w id metric : world_wf w ->
  let (s, r) := insert (live w) (next w) (store w) id in world_wf (minted w s (report_as metric r)).
Proof.
  intros Hw. unfold insert, has_existed. case_bool_decide as Hex; [by apply wf_next|].
  assert (storage (store w) !! id = None) as Hid by (by apply eq_None_not_Some).
  destruct (N.leb_spec (capacity (store w)) (storage_len (store w))) as [Hfull|Hlt].
  - destruct (evicted_wf w id Hw Hfull) as [->|(s1 & -> & Hw1 & Hlt & Hsub)]; [by apply wf_next|].
    apply (put_wf _ id (set_op (permit_new id (next w)) metric) Hw1); auto.
    simpl. eapply lookup_weaken_None; eauto.
  - apply (put_wf _ id (set_op (permit_new id (next w)) metric) Hw); auto.
Qed.

(** ** The other calls *)

Lemma redo_wf w id metric : world_wf w ->
  let (s, r) := redo_failed (live w) (next w) (store w) id in
  world_wf (minted w s (report_as metric (rmap_err (fun _ => AlreadyExists id) r))).
Proof.
  intros Hw. unfold redo_failed.
  destruct (storage (store w) !! id) as [e|] eqn:He; [|by apply wf_next].
  destruct (result_tx e) as [|[v|msg]|] eqn:Hst; try by apply wf_next.
  destruct (is_permit_held (live w) e) eqn:Hheld; [by apply wf_next|].
  apply (wf_mint w _ id {| claim := next w; result_tx := Pending |}); simpl; auto.
  - apply (wf_redo _ id e); auto; [apply Hw|unfold status; by rewrite Hst|].
    intros id' e' He' Heq. pose proof (wf_fresh w Hw id' e' He'). lia.
  - by apply (permit_free_iff w id e).
  - intros id' Hne. by simplify_map_eq.
  - by rewrite lookup_insert_eq.
Qed.

Lemma add_or_redo_wf w id metric : world_wf w ->
  let (s, r) := add_or_redo_failed_in_meta_store (live w) (next w) (store w) id metric in
  world_wf (minted w s r).
Proof.
  intros Hw. unfold add_or_redo_failed_in_meta_store.
  pose proof (insert_wf w id metric Hw) as Hins. pose proof (redo_wf w id metric Hw) as Hredo.
  destruct (insert (live w) (next w) (store w) id) as [s r] eqn:Heq.
  destruct r as [p|[]| |]; try exact Hins.
  assert (s = store w) as ->; [|by destruct (redo_failed _ _ _ _)].
  revert Heq. unfold insert, has_existed. case_bool_decide; [by intros [= <-]|].
  destruct (N.leb _ _); [|by intros [= <-]].
  destruct (evict_cases (live w) (store w) id) as [->|(pos & k & e & _ & _ & _ & _ & _ & ->)]; by intros [= <-].
Qed.

Lemma lock_wf w id metric : world_wf w ->
  world_wf (minted w (store w) (lock_entry_in_meta_store (live w) (store w) id metric)).
Proof.
  intros Hw. unfold lock_entry_in_meta_store, lock_entry.
  destruct (storage (store w) !! id) as [e|] eqn:He; [|by apply wf_next].
  destruct (decide (status e = StatusDeleted)) as [->|Hst]; [by apply wf_next|].
  assert (world_wf (minted w (store w) (report_as metric
    (if is_permit_held (live w) e then Err (Locked id) else Ok (permit_new id (claim e)))))) as Hlock.
  { destruct (is_permit_held (live w) e) eqn:Hheld; [by apply wf_next|].
    apply (wf_mint w _ id e); simpl; auto; [apply Hw|by apply (permit_free_iff w id e)|].
    pose proof (wf_fresh w Hw id e He). lia. }
  by destruct (status e).
Qed.

(** What a call leaves of the entry of its permit. *)
Lemma update_wf w i p r : world_wf w -> live w !! i = Some p ->
  world_wf {| store := (update (store w) r p).1; live := delete i (live w); reaper := reaper w; next := next w |}.
Proof.
  intros Hw Hi. destruct (wf_permits w Hw p) as (e & He & _ & _); [by eapply list_elem_of_lookup_2|].
  pose proof (wf_fresh w Hw _ _ He) as Hc. pose proof (wf_store w Hw) as Hs.
  unfold update. rewrite He. case_bool_decide as Hst; apply (wf_consumed w _ i p); simpl; auto.
  - by apply wf_complete.
  - intros id Hne. by simplify_map_eq.
  - intros e' He'. simplify_map_eq. done.
  - unfold entry_status. simpl. by rewrite lookup_insert_eq.
  - intros e' He'. simplify_eq. done.
  - rewrite (entry_status_Some _ _ e He). congruence.
Qed.

Lemma finalize_wf w i p v : world_wf w -> live w !! i = Some p ->
  world_wf {| store := (finalize (store w) p v).1; live := delete i (live w); reaper := reaper w; next := next w |}.
Proof.
  intros Hw Hi. destruct (wf_permits w Hw p) as (e & He & _ & Hnd); [by eapply list_elem_of_lookup_2|].
  pose proof (wf_fresh w Hw _ _ He) as Hc. pose proof (wf_store w Hw) as Hs.
  unfold finalize. rewrite He.
  destruct (status e) eqn:Hst; [| |done]; apply (wf_consumed w _ i p); simpl; auto;
    try (intros id Hne; by simplify_map_eq); try (intros e' He'; by simplify_map_eq);
    try (unfold entry_status; simpl; by rewrite lookup_insert_eq).
  - by apply wf_complete.
  - by apply wf_overwrite.
Qed.

Lemma abort_wf w i p : world_wf w -> live w !! i = Some p ->
  world_wf {| store := abort_reservation (store w) p; live := delete i (live w); reaper := reaper w; next := next w |}.
Proof.
  intros Hw Hi. destruct (wf_permits w Hw p) as (e & He & _ & _); [by eapply list_elem_of_lookup_2|].
  pose proof (wf_fresh w Hw _ _ He) as Hc. pose proof (wf_store w Hw) as Hs.
  unfold abort_reservation. rewrite He. case_bool_decide as Hst; apply (wf_consumed w _ i p); simpl; auto.
  - by eapply wf_remove_pending.
  - intros id Hne. by simplify_map_eq.
  - intros e'. by rewrite lookup_delete_eq.
  - unfold entry_status. simpl. by rewrite lookup_delete_eq.
  - intros e' He'. by simplify_eq.
  - rewrite (entry_status_Some _ _ e He). congruence.
Qed.

Lemma tombstone_storage (s : Store) k e : storage (tombstone s k e).1 = <[k := set_deleted e]> (storage s).
Proof. unfold tombstone. by case_bool_decide. Qed.

Lemma delete_wf w i p : world_wf w -> live w !! i = Some p ->
  world_wf {| store := (delete_entry (store w) p).1; live := delete i (live w); reaper := reaper w; next := next w |}.
Proof.
  intros Hw Hi. destruct (wf_permits w Hw p) as (e & He & _ & Hnd); [by eapply list_elem_of_lookup_2|].
  pose proof (wf_fresh w Hw _ _ He) as Hc. pose proof (tombstone_storage (store w) (permit_id p) e) as Htm.
  pose proof (wf_tombstone _ _ _ (wf_store w Hw) He Hnd) as Hs'.
  unfold delete_entry. rewrite He. rewrite bool_decide_false by done.
  destruct (tombstone _ _ _) as [s' prev]. simpl in *. apply (wf_consumed w _ i p); simpl; auto.
  - intros id Hne. rewrite Htm. by simplify_map_eq.
  - intros e'. rewrite Htm, lookup_insert_eq. by intros [= <-].
  - unfold entry_status. by rewrite Htm, lookup_insert_eq.
Qed.

Lemma try_delete_wf w id : world_wf w ->
  world_wf {| store := (try_delete (live w) (store w) id).1; live := live w; reaper := reaper w; next := next w |}.
Proof.
  intros Hw. unfold try_delete.
  destruct (storage (store w) !! id) as [e|] eqn:He; [|by destruct w].
  destruct (decide (status e = StatusDeleted)) as [->|Hnd]; [by destruct w|].
  pose proof (wf_fresh w Hw _ _ He) as Hc. pose proof (tombstone_storage (store w) id e) as Htm.
  pose proof (wf_tombstone _ _ _ (wf_store w Hw) He Hnd) as Hs'.
  destruct (tombstone _ _ _) as [s' prev]. simpl in *.
  destruct (is_permit_held (live w) e) eqn:Hheld; [destruct (status e); by destruct w|].
  assert (world_wf {| store := s'; live := live w; reaper := reaper w; next := next w |}); [|by destruct (status e)].
  apply (wf_unheld w _ _ id); simpl; auto.
  - by apply (permit_free_iff w id e).
  - intros id' Hne. rewrite Htm. by simplify_map_eq.
  - intros e'. rewrite Htm, lookup_insert_eq. by intros [= <-].
  - unfold entry_status. by rewrite Htm, lookup_insert_eq.
Qed.

Lemma reap_wf w : world_wf w -> world_wf (reap w).
Proof.
  intros Hw. unfold reap. destruct (reaper w) as [|[id op] rest] eqn:Hr; [done|].
  assert (forall id', id' <> id -> id' ∈ (reaper w).*1 -> id' ∈ rest.*1) as Hrest.
  { intros id' Hne. rewrite Hr. simpl. set_solver. }
  unfold fail_if_orphaned. destruct (storage (store w) !! id) as [e|] eqn:He; simpl.
  - pose proof (wf_fresh w Hw _ _ He) as Hc.
    destruct (is_permit_held (live w) e) eqn:Hheld; rewrite ?andb_false_r, ?andb_true_r; simpl.
    + apply (permit_held_iff w id e Hw He) in Hheld. constructor; simpl; try apply Hw.
      intros id' Hst. destruct (wf_orphans w Hw id' Hst) as [|Hin]; [auto|].
      destruct (decide (id' = id)) as [->|]; auto.
    + case_bool_decide as Hst; simpl; apply (wf_unheld w _ _ id); simpl; auto; try apply Hw.
      all: try by apply (permit_free_iff w id e).
      * apply wf_complete; auto. apply Hw.
      * intros id' Hne. by simplify_map_eq.
      * intros e' He'. by simplify_map_eq.
      * unfold entry_status. simpl. by rewrite lookup_insert_eq.
      * rewrite (entry_status_Some _ _ e He). congruence.
  - constructor; simpl; try apply Hw. intros id' Hst. destruct (wf_orphans w Hw id' Hst) as [|Hin]; [auto|].
    right. apply Hrest; auto. intros ->. unfold entry_status in Hst. by rewrite He in Hst.
Qed.

Lemma exec_wf w ev : world_wf w -> world_wf (exec w ev).
Proof.
  intros Hw. destruct ev; simpl; unfold consumed, drop_permit.
  - pose proof (insert_wf w id metric Hw). unfold add_req_to_meta_store. by destruct (insert _ _ _ _).
  - pose proof (add_or_redo_wf w id metric Hw). by destruct (add_or_redo_failed_in_meta_store _ _ _ _ _).
  - by apply lock_wf.
  - case_match; [by apply update_wf|done].
  - case_match; [by apply finalize_wf|done].
  - case_match; [by apply abort_wf|done].
  - case_match; [by apply delete_wf|done].
  - case_match; [by apply wf_dropped|done].
  - by apply try_delete_wf.
  - by apply reap_wf.
Qed.

Lemma run_wf w evs : world_wf w -> world_wf (run w evs).
Proof. revert w. induction evs as [|ev evs IH]; simpl; intros w Hw; [done|]. by apply IH, exec_wf. Qed.

(** ** Counting *)

(** The requests whose entry has a status. *)
Definition ids_with (st : EntryStatus) (s : Store) : list RequestId :=
  (filter (fun ke => status ke.2 = st) (map_to_list (storage s))).*1.

Lemma elem_of_ids_with st s id : id ∈ ids_with st s <-> entry_status s id = Some st.
Proof.
  unfold ids_with, entry_status. rewrite list_elem_of_fmap, fmap_Some. split.
  - intros ([id' e] & -> & [Hst He%elem_of_map_to_list]%list_elem_of_filter). eauto.
  - intros (e & He & ->). exists (id, e). split; [done|]. apply list_elem_of_filter.
    split; [done|]. by apply elem_of_map_to_list.
Qed.

Lemma NoDup_ids_with st s : NoDup (ids_with st s).
Proof.
  unfold ids_with. eapply sublist_NoDup; [apply (NoDup_fst_map_to_list (storage s))|].
  apply fmap_sublist, sublist_filter.
Qed.

Lemma ids_with_total s : size (storage s) =
  length (ids_with StatusPending s) + length (ids_with StatusDone s) + length (ids_with StatusDeleted s).
Proof.
  unfold ids_with. rewrite <- length_map_to_list, !length_fmap.
  induction (map_to_list (storage s)) as [|[id e] l IH]; [done|].
  rewrite !filter_cons. simpl. destruct (status e); simpl; lia.
Qed.

Lemma ids_with_done s : store_wf s -> length (ids_with StatusDone s) = length (complete_queue s).
Proof.
  intros Hs. apply Permutation_length, NoDup_Permutation; [apply NoDup_ids_with|apply Hs|].
  intros id. by rewrite elem_of_ids_with, (wf_queue s Hs).
Qed.

Lemma ids_with_deleted s : store_wf s -> length (ids_with StatusDeleted s) = size (deleted_set s).
Proof.
  intros Hs. change (size (deleted_set s)) with (length (elements (deleted_set s))).
  apply Permutation_length, NoDup_Permutation; [apply NoDup_ids_with|apply NoDup_elements|].
  intros id. by rewrite elem_of_ids_with, elem_of_elements, (wf_deleted s Hs).
Qed.

(** ** Construction *)

Lemma store_new_wf cap cache : world_wf (world_new (store_new cap cache) 0).
Proof.
  constructor; simpl.
  - constructor; simpl; try done.
    + apply NoDup_nil_2.
    + intros id. unfold entry_status. simpl. rewrite ?lookup_empty. split; [set_solver|done].
    + unfold storage_len. simpl. rewrite map_size_empty. lia.
  - done.
  - intros p Hp. set_solver.
  - apply NoDup_nil_2.
  - intros id. unfold entry_status. simpl. by rewrite ?lookup_empty.
Qed.

(** [new_from_map], for the bindings of a map. *)
Lemma seed_fst fresh (map : list (RequestId * T)) : (seed fresh map).*1 = map.*1.
Proof. revert fresh. induction map as [|[k v] map IH]; intros fresh; simpl; [done|]. by rewrite IH. Qed.

Lemma seed_entries fresh (map : list (RequestId * T)) id e : (id, e) ∈ seed fresh map ->
  status e = StatusDone /\ fresh <= claim e < fresh + length map.
Proof.
  revert fresh. induction map as [|[k v] map IH]; intros fresh; simpl; [set_solver|].
  intros [[= -> ->]|Hin]%elem_of_cons; simpl; [split; [done|lia]|].
  destruct (IH _ Hin). split; [done|lia].
Qed.

Lemma seed_claims fresh (map : list (RequestId * T)) id id' e e' :
  (id, e) ∈ seed fresh map -> (id', e') ∈ seed fresh map -> claim e = claim e' -> id = id'.
Proof.
  revert fresh. induction map as [|[k v] map IH]; intros fresh; simpl; [set_solver|].
  intros [[= -> ->]|Hin]%elem_of_cons [[= -> ->]|Hin']%elem_of_cons Hc; simpl in *; eauto.
  - pose proof (seed_entries _ _ _ _ Hin'). lia.
  - pose proof (seed_entries _ _ _ _ Hin). lia.
Qed.

Lemma new_from_map_wf (map : list (RequestId * T)) : NoDup map.*1 ->
  (N.of_nat (length map) <= USIZE_MAX)%N -> world_wf (world_new (new_from_map 0 map) (length map)).
Proof.
  intros Hnd Hlen. set (m := list_to_map (seed 0 map) : gmap RequestId Entry).
  assert (NoDup (seed 0 map).*1) as Hnd' by (by rewrite seed_fst).
  assert (forall id e, m !! id = Some e <-> (id, e) ∈ seed 0 map) as Hm
    by (intros; symmetry; by apply elem_of_list_to_map).
  assert (forall id, (status <$> m !! id) = Some StatusDone <-> id ∈ map.*1) as Hdone.
  { intros id. rewrite <- (seed_fst 0), list_elem_of_fmap, fmap_Some. split.
    - intros (e & He%Hm & _). by exists (id, e).
    - intros ([id' e] & -> & Hin). exists e. split; [by apply Hm|]. symmetry. by eapply seed_entries. }
  assert (forall id st, (status <$> m !! id) = Some st -> st = StatusDone) as Hst.
  { intros id st. rewrite fmap_Some. intros (e & He%Hm & ->). by eapply seed_entries. }
  constructor; simpl; try done.
  - constructor; simpl; try done; unfold entry_status; simpl.
    + intros id. symmetry. apply Hdone.
    + intros id. split; [set_solver|]. intros Hd. by apply Hst in Hd.
    + intros id id' e e' He%Hm He'%Hm. by eapply seed_claims.
    + unfold storage_len. simpl. rewrite map_size_list_to_map by done.
      by rewrite <- (length_fmap fst), seed_fst, length_fmap.
  - intros id e He%Hm. by apply seed_entries in He as [_ [_ ?]].
  - intros p Hp. set_solver.
  - apply NoDup_nil_2.
  - intros id Hd. by apply Hst in Hd.
Qed.
End System.
