(* ===== verification/MetaStoreProps.v ===== *)
(** * Properties of the meta store (core/service/src/util/meta_store.rs)

    They are stated of every world that a sequence of calls, drops and reaper
    rounds reaches from a store as its constructors make it. *)

From stdpp Require Import base gmap sets list strings.
From S2P Require Import Prelude MetaStore MetaStoreSystem.

Set Default Proof Using "Type".

Section Properties.
Context {RequestId : Type} `{Countable RequestId} {T : Type}.
Local Notation Store := (MetaStore RequestId T).
Local Notation Entry := (StoredEntry T).
Local Notation Permit := (Permit RequestId).
Local Notation World := (World (RequestId := RequestId) (T := T)).
Local Notation Event := (Event (RequestId := RequestId) (T := T)).

(** The worlds of the constructors [new], [new_unlimited] and [new_from_map]. *)
Inductive started : World -> Prop :=
| started_new cap cache : started (world_new (store_new cap cache) 0)
| started_unlimited : started (world_new new_unlimited 0)
| started_from_map map : NoDup map.*1 -> (N.of_nat (length map) <= USIZE_MAX)%N ->
    started (world_new (new_from_map 0 map) (length map)).

Definition reachable (w : World) : Prop := exists w0 evs, started w0 /\ w = run w0 evs.

Lemma started_wf w : started w -> world_wf w.
Proof.
  intros [cap cache| |map Hnd Hlen]; [apply store_new_wf|apply store_new_wf|by apply new_from_map_wf].
Qed.

Lemma reachable_wf w : reachable w -> world_wf w.
Proof. intros (w0 & evs & Hw & ->). by apply run_wf, started_wf. Qed.

Lemma retrieve_status (s : Store) id : entry_status s id = status_of <$> retrieve s id.
Proof. unfold entry_status, retrieve. by destruct (storage s !! id). Qed.

Lemma retrieve_Some (s : Store) id st : retrieve s id = Some st <->
  exists e, storage s !! id = Some e /\ result_tx e = st.
Proof. unfold retrieve. rewrite fmap_Some. naive_solver. Qed.

(** The tasks that hold permits. *)
Definition holders (w : World) : list RequestId := permit_id <$> live w.

Lemma held_entry w i p : world_wf w -> live w !! i = Some p -> exists e,
  storage (store w) !! permit_id p = Some e /\ status e <> StatusDeleted /\
  is_permit_held (live w) e = true /\ permit_id p ∈ holders w.
Proof.
  intros Hw Hi%list_elem_of_lookup_2. destruct (wf_permits w Hw p Hi) as (e & He & _ & Hst).
  assert (permit_id p ∈ holders w) as Hin by (apply list_elem_of_fmap; eauto).
  exists e. rewrite (permit_held_iff w _ e Hw He). auto.
Qed.
End Properties.

(** C26. In every reachable state: the entries are at most [capacity]; the counts
    agree with [verify_invariant]; the processing count is the number of pending
    entries; and the lists of processing, successful, failed and deleted requests
    hold exactly the requests in that state. *)
Theorem meta_store_invariant {RequestId T : Type} `{Countable RequestId} (w : World (RequestId := RequestId) (T := T)) :
  reachable w ->
  let s := store w in
  (storage_len s <= capacity s)%N /\ verify_invariant s = true /\
  get_processing_count s = N.of_nat (length (get_processing_request_ids s)) /\
  (forall id, id ∈ get_processing_request_ids s <-> retrieve s id = Some Pending) /\
  (forall id, id ∈ get_successful_completed_request_ids s <-> exists v, retrieve s id = Some (Done (inl v))) /\
  (forall id, id ∈ get_failed_request_ids s <-> exists msg, retrieve s id = Some (Done (inr msg))) /\
  (forall id, id ∈ get_deleted_request_ids s <-> retrieve s id = Some Deleted).
Proof.
  intros Hw%reachable_wf s. pose proof (wf_store w Hw) as Hs. fold s in Hs.
  pose proof (ids_with_total s) as Htot. rewrite (ids_with_done s Hs), (ids_with_deleted s Hs) in Htot.
  assert (forall id, id ∈ complete_queue s <-> exists r, retrieve s id = Some (Done r)) as Hq.
  { intros id. rewrite (wf_queue s Hs), retrieve_status. destruct (retrieve s id) as [[]|]; naive_solver. }
  split; [apply Hs|]. split.
  { unfold verify_invariant, storage_len, queue_len, deleted_len. apply N.leb_le. lia. }
  split.
  { unfold get_processing_count, storage_len, queue_len, deleted_len.
    change (get_processing_request_ids s) with (ids_with StatusPending s). lia. }
  split; [|split; [|split]].
  - intros id. change (get_processing_request_ids s) with (ids_with StatusPending s).
    rewrite elem_of_ids_with, retrieve_status. destruct (retrieve s id) as [[]|]; naive_solver.
  - intros id. unfold get_successful_completed_request_ids. rewrite list_elem_of_filter, Hq.
    unfold done_ok. destruct (retrieve s id) as [[|[]|]|]; naive_solver.
  - intros id. unfold get_failed_request_ids. rewrite list_elem_of_filter, Hq.
    unfold done_err. destruct (retrieve s id) as [[|[]|]|]; naive_solver.
  - intros id. unfold get_deleted_request_ids. rewrite elem_of_elements, (wf_deleted s Hs), retrieve_status.
    destruct (retrieve s id) as [[]|]; naive_solver.
Qed.

Lemma meta_store_invariant_witness :
  let w := run (world_new (store_new 2 1) 0) [EvInsert 5 "op"; EvUpdate 0 (inl 7); EvInsert 6 "op"] in
  get_processing_count (store w) = 1%N /\
  (forall id, id ∈ get_processing_request_ids (store w) <-> retrieve (store w) id = Some Pending).
Proof.
  pose (w := run (RequestId := nat) (T := nat) (world_new (store_new 2 1) 0)
    [EvInsert 5 "op"; EvUpdate 0 (inl 7); EvInsert 6 "op"]).
  destruct (meta_store_invariant w) as (_ & _ & Hc & Hp & _).
  { exists (world_new (store_new 2 1) 0), [EvInsert 5 "op"; EvUpdate 0 (inl 7); EvInsert 6 "op"].
    split; [constructor|reflexivity]. }
  split; [|exact Hp]. vm_compute. reflexivity.
Defined.

(** ** Permits *)

Section Permits.
Context {RequestId : Type} `{Countable RequestId} {T : Type}.
Local Notation Store := (MetaStore RequestId T).
Local Notation Permit := (Permit RequestId).
Local Notation World := (World (RequestId := RequestId) (T := T)).

Lemma insert_keeps (lv : list Permit) fresh (s : Store) id id' e : storage s !! id = Some e ->
  is_permit_held lv e = true -> storage (insert lv fresh s id').1 !! id = Some e.
Proof.
  intros He Hheld. unfold insert, has_existed. case_bool_decide as Hex; [done|].
  assert (id <> id') by (intros ->; apply Hex; by rewrite He).
  destruct (N.leb _ _); [|by simpl; simplify_map_eq].
  destruct (evict_cases lv s id') as [->|(pos & k & e' & _ & _ & Hk & _ & Hfree & ->)]; [done|].
  simpl. destruct (decide (k = id)) as [->|]; [congruence|]. by simplify_map_eq.
Qed.

Lemma redo_held (lv : list Permit) fresh (s : Store) id e : storage s !! id = Some e ->
  is_permit_held lv e = true -> exists err, redo_failed lv fresh s id = (s, Err err).
Proof.
  intros He Hheld. unfold redo_failed. rewrite He, Hheld.
  destruct (result_tx e) as [|[v|msg]|]; eauto.
Qed.
End Permits.

(** C25. A permit is exclusive and good for its outcome.  In every reachable state,
    while a permit is alive: no other permit is for the same request; locking,
    deleting or retrying the request fails and no insertion evicts it; and the
    holder's [finalize] and [delete], and [update] when the entry is pending,
    succeed and leave the state they are meant to leave. *)
Theorem permit_exclusive {RequestId T : Type} `{Countable RequestId} (w : World (RequestId := RequestId) (T := T))
    (i : nat) (p : Permit RequestId) :
  reachable w -> live w !! i = Some p ->
  let s := store w in let id := permit_id p in
  (forall j q, live w !! j = Some q -> permit_id q = id -> j = i) /\
  lock_entry (live w) s id = Err (Locked id) /\
  try_delete (live w) s id = (s, Err (Locked id)) /\
  (forall fresh, exists err, redo_failed (live w) fresh s id = (s, Err err)) /\
  (forall fresh id', retrieve (insert (live w) fresh s id').1 id = retrieve s id) /\
  (forall r, retrieve s id = Some Pending ->
     (update s r p).2 = Ok tt /\ retrieve (update s r p).1 id = Some (Done r)) /\
  (forall v, (finalize s p v).2 = Ok tt /\ retrieve (finalize s p v).1 id = Some (Done (inl v))) /\
  (exists prev, (delete_entry s p).2 = Ok prev /\ retrieve (delete_entry s p).1 id = Some Deleted).
Proof.
  intros Hw%reachable_wf Hi s id. destruct (held_entry w i p Hw Hi) as (e & He & Hst & Hheld & _).
  fold s id in He. split; [|split; [|split; [|split; [|split; [|split; [|split]]]]]].
  - intros j q Hj Heq. apply (NoDup_lookup (permit_id <$> live w) j i id); [apply Hw| |];
      rewrite list_lookup_fmap; [rewrite Hj; simpl; by rewrite Heq|by rewrite Hi].
  - unfold lock_entry. rewrite He, Hheld. by destruct (status e).
  - unfold try_delete. rewrite He, Hheld. by destruct (status e).
  - intros fresh. by apply redo_held with e.
  - intros fresh id'. unfold retrieve. by rewrite (insert_keeps _ _ _ _ _ _ He Hheld), He.
  - intros r (e' & He' & Hp)%retrieve_Some. unfold update. fold id. rewrite He'.
    rewrite bool_decide_true by (unfold status; by rewrite Hp).
    split; [done|]. unfold retrieve. simpl. by rewrite lookup_insert_eq.
  - intros v. unfold finalize. fold id. rewrite He.
    destruct (status e); [| |done]; (split; [done|]); unfold retrieve; simpl; by rewrite lookup_insert_eq.
  - exists (result_tx e). unfold delete_entry. fold id. rewrite He, bool_decide_false by done.
    pose proof (tombstone_storage s id e) as Htm.
    destruct (tombstone s id e) as [s' prev] eqn:Heq. unfold tombstone in Heq. injection Heq as _ <-.
    split; [done|]. unfold retrieve. simpl in *. by rewrite Htm, lookup_insert_eq.
Qed.

Lemma permit_exclusive_witness :
  let w := run (world_new (store_new 2 1) 0) [EvInsert 5 "op"] in
  exists p, live w !! 0 = Some p /\ lock_entry (live w) (store w) 5 = Err (Locked 5) /\
    retrieve (update (store w) (inl 7) p).1 5 = Some (Done (inl 7)).
Proof.
  pose (w := run (RequestId := nat) (T := nat) (world_new (store_new 2 1) 0) [EvInsert 5 "op"]).
  pose (p := set_op (permit_new 5 0) "op").
  destruct (permit_exclusive w 0 p) as (_ & Hlock & _ & _ & _ & Hup & _).
  { exists (world_new (store_new 2 1) 0), [EvInsert 5 "op"]. split; [constructor|reflexivity]. }
  { reflexivity. }
  exists p. split; [reflexivity|]. split; [exact Hlock|]. apply Hup. reflexivity.
Defined.

(** ** Tombstones *)

Section Tombstones.
Context {RequestId : Type} `{Countable RequestId} {T : Type}.
Local Notation Store := (MetaStore RequestId T).
Local Notation Permit := (Permit RequestId).
Local Notation World := (World (RequestId := RequestId) (T := T)).
Implicit Types (w : World) (id : RequestId).

Lemma insert_keeps_deleted (lv : list Permit) fresh (s : Store) id id' e : storage s !! id = Some e ->
  status e = StatusDeleted -> storage (insert lv fresh s id').1 !! id = Some e.
Proof.
  intros He Hst. unfold insert, has_existed. case_bool_decide as Hex; [done|].
  assert (id <> id') by (intros ->; apply Hex; by rewrite He).
  destruct (N.leb _ _); [|by simpl; simplify_map_eq].
  destruct (evict_cases lv s id') as [->|(pos & k & e' & _ & _ & Hk & Hdone & _ & ->)]; [done|].
  simpl. destruct (decide (k = id)) as [->|]; [congruence|]. by simplify_map_eq.
Qed.

Lemma redo_keeps_deleted (lv : list Permit) fresh (s : Store) id id' e : storage s !! id = Some e ->
  status e = StatusDeleted -> storage (redo_failed lv fresh s id').1 !! id = Some e.
Proof.
  intros He Hst. unfold redo_failed. destruct (storage s !! id') as [e'|] eqn:He'; [|done].
  destruct (result_tx e') as [|[v|msg]|] eqn:Hr; try done.
  destruct (is_permit_held lv e'); [done|]. simpl.
  destruct (decide (id' = id)) as [->|]; [|by simplify_map_eq].
  unfold status in Hst. simplify_eq. by rewrite Hr in Hst.
Qed.

Lemma insert_store_eq (lv : list Permit) fresh (s s' : Store) id err :
  insert lv fresh s id = (s', Err err) -> s' = s.
Proof.
  unfold insert, has_existed. case_bool_decide; [by intros [= <-]|].
  destruct (N.leb _ _); [|by intros [= <-]].
  destruct (evict_cases lv s id) as [->|(pos & k & e & _ & _ & _ & _ & _ & ->)]; by intros [= <-].
Qed.

(** Storage elsewhere than at the permit's request. *)
Lemma consume_elsewhere (s : Store) (p : Permit) id : id <> permit_id p ->
  (forall r, storage (update s r p).1 !! id = storage s !! id) /\
  (forall v, storage (finalize s p v).1 !! id = storage s !! id) /\
  storage (abort_reservation s p) !! id = storage s !! id /\ storage (delete_entry s p).1 !! id = storage s !! id.
Proof.
  intros Hne. unfold update, finalize, abort_reservation, delete_entry.
  destruct (storage s !! permit_id p) as [e|]; [|done].
  pose proof (tombstone_storage s (permit_id p) e) as Htm. destruct (tombstone _ _ _) as [s' prev].
  repeat split; intros; repeat case_bool_decide; destruct (status e); simpl in *; rewrite ?Htm;
    by simplify_map_eq.
Qed.

Lemma exec_deleted w ev id e : world_wf w -> storage (store w) !! id = Some e -> status e = StatusDeleted ->
  storage (store (exec w ev)) !! id = Some e.
Proof.
  intros Hw He Hst.
  assert (forall i p, live w !! i = Some p -> id <> permit_id p) as Hne.
  { intros i p Hi ->. destruct (held_entry w i p Hw Hi) as (e' & He' & Hnd & _). congruence. }
  destruct ev as [k m|k m|k m|i r|i v|i|i|i|k|]; simpl; unfold consumed, drop_permit.
  - unfold add_req_to_meta_store. pose proof (insert_keeps_deleted (live w) (next w) _ _ k _ He Hst) as Hk.
    destruct (insert _ _ _ _) as [s []]; simpl in *; done.
  - unfold add_or_redo_failed_in_meta_store.
    pose proof (insert_keeps_deleted (live w) (next w) _ _ k _ He Hst) as Hk.
    pose proof (redo_keeps_deleted (live w) (next w) _ _ k _ He Hst) as Hr.
    destruct (insert _ _ _ _) as [s [p|err| |]] eqn:Heq; try done.
    apply insert_store_eq in Heq as ->.
    destruct err; try done. by destruct (redo_failed _ _ _ _) as [s []].
  - by destruct (lock_entry_in_meta_store _ _ _ _).
  - case_match eqn:Hi; [|done]. simpl. by rewrite (proj1 (consume_elsewhere _ _ _ (Hne _ _ Hi))).
  - case_match eqn:Hi; [|done]. simpl. by rewrite (proj1 (proj2 (consume_elsewhere _ _ _ (Hne _ _ Hi)))).
  - case_match eqn:Hi; [|done]. simpl. destruct (consume_elsewhere (store w) _ _ (Hne _ _ Hi)) as (_ & _ & -> & _). done.
  - case_match eqn:Hi; [|done]. simpl. destruct (consume_elsewhere (store w) _ _ (Hne _ _ Hi)) as (_ & _ & _ & ->). done.
  - by case_match.
  - unfold try_delete. destruct (storage (store w) !! k) as [e'|] eqn:He'; [|done].
    pose proof (tombstone_storage (store w) k e') as Htm. destruct (tombstone _ _ _) as [s' prev]. simpl in *.
    destruct (status e') eqn:Hst', (is_permit_held (live w) e'); try done; simpl; rewrite Htm;
      (destruct (decide (k = id)) as [->|]; [congruence|by simplify_map_eq]).
  - unfold reap, fail_if_orphaned. destruct (reaper w) as [|[k op] rest]; [done|]. simpl.
    destruct (storage (store w) !! k) as [e'|] eqn:He'; [|done].
    case_bool_decide as Hp; [|done]. destruct (is_permit_held (live w) e'); [done|]. simpl.
    destruct (decide (k = id)) as [->|]; [congruence|by simplify_map_eq].
Qed.
End Tombstones.

(** C38. A tombstone is permanent: once a request is deleted it stays deleted
    whatever is done with the store, and every attempt to insert it, to retry it,
    to lock it or to read its result is refused. *)
Theorem tombstone_permanent {RequestId T : Type} `{Countable RequestId} (w : World (RequestId := RequestId) (T := T))
    (evs : list Event) (id : RequestId) (metric : string) :
  reachable w -> retrieve (store w) id = Some Deleted ->
  let w' := run w evs in
  retrieve (store w') id = Some Deleted /\
  add_or_redo_failed_in_meta_store (live w') (next w') (store w') id metric
    = (store w', Err (into_metriced metric (AlreadyExists id))) /\
  lock_entry (live w') (store w') id = Err (CannotUpdate id) /\
  retrieve_from_meta_store (store w') id metric = Err (entry_not_found_or_deleted id metric).
Proof.
  intros Hw%reachable_wf (e & He & Hst)%retrieve_Some w'.
  assert (storage (store w') !! id = Some e) as He'.
  { subst w'. revert w Hw He. induction evs as [|ev evs IH]; intros w Hw He; [done|].
    apply IH; [by apply exec_wf|]. apply exec_deleted; auto. unfold status. by rewrite Hst. }
  assert (retrieve (store w') id = Some Deleted) as Hr by (unfold retrieve; rewrite He'; simpl; by rewrite Hst).
  split; [done|]. split; [|split].
  - unfold add_or_redo_failed_in_meta_store, insert, has_existed. rewrite bool_decide_true by (by rewrite He').
    unfold redo_failed. by rewrite He', Hst.
  - unfold lock_entry, status. by rewrite He', Hst.
  - unfold retrieve_from_meta_store. by rewrite Hr.
Qed.

Lemma tombstone_permanent_witness :
  let w := run (world_new (store_new 2 1) 0) [EvInsert 5 "op"; EvDelete 0] in
  retrieve (store (run w [EvInsert 5 "op"; EvReap])) 5 = Some (Deleted (T := nat)).
Proof.
  pose (w := run (RequestId := nat) (T := nat) (world_new (store_new 2 1) 0) [EvInsert 5 "op"; EvDelete 0]).
  destruct (tombstone_permanent w [EvInsert 5 "op"; EvReap] 5 "op") as (Hd & _).
  { exists (world_new (store_new 2 1) 0), [EvInsert 5 "op"; EvDelete 0]. split; [constructor|reflexivity]. }
  { vm_compute. reflexivity. }
  exact Hd.
Defined.

(** ** The reaper *)

Section Reaper.
Context {RequestId : Type} `{Countable RequestId} {T : Type}.
Local Notation World := (World (RequestId := RequestId) (T := T)).
Implicit Types (w : World) (id : RequestId).

(** A pending entry whose permit is gone. *)
Definition orphaned w id : Prop := retrieve (store w) id = Some Pending /\ id ∉ holders w.

Definition reap_all w : World := run w (replicate (length (reaper w)) EvReap).

Lemma reap_retrieve w id : world_wf w ->
  retrieve (store (reap w)) id = retrieve (store w) id \/
  (orphaned w id /\ retrieve (store (reap w)) id = Some (Done (inr abandoned))).
Proof.
  intros Hw. unfold reap. destruct (reaper w) as [|[k op] rest]; [by left|]. simpl.
  unfold fail_if_orphaned. destruct (storage (store w) !! k) as [e|] eqn:He; [|by left].
  case_bool_decide as Hst; [|by left]. destruct (is_permit_held (live w) e) eqn:Hheld; [by left|]. simpl.
  destruct (decide (k = id)) as [->|Hne]; [right|left; unfold retrieve; simpl; by simplify_map_eq].
  split; [|unfold retrieve; simpl; by rewrite lookup_insert_eq].
  split; [|by apply (permit_free_iff w id e)].
  unfold retrieve. rewrite He. simpl. unfold status in Hst. by destruct (result_tx e).
Qed.

Lemma reap_live w : live (reap w) = live w.
Proof. unfold reap. by destruct (reaper w) as [|[k op] rest]. Qed.

Lemma reap_reaper w : reaper (reap w) = tail (reaper w).
Proof. unfold reap. by destruct (reaper w) as [|[k op] rest] eqn:Hr; rewrite ?Hr. Qed.

(** The rounds of the reaper resolve orphans and change nothing else. *)
Lemma reap_rounds n w : world_wf w ->
  let w' := run w (replicate n EvReap) in
  live w' = live w /\ reaper w' = drop n (reaper w) /\
  forall id, retrieve (store w') id = retrieve (store w) id \/
    (orphaned w id /\ retrieve (store w') id = Some (Done (inr abandoned))).
Proof.
  revert w. induction n as [|n IH]; intros w Hw; [rewrite drop_0; auto|].
  destruct (IH (reap w) (reap_wf w Hw)) as (Hl & Hr & Hs).
  split; [by rewrite <- (reap_live w), <- Hl|]. split.
  { transitivity (drop n (tail (reaper w))); [by rewrite <- reap_reaper, <- Hr|].
    destruct (reaper w); simpl; [apply drop_nil|done]. }
  change (run w (replicate (S n) EvReap)) with (run (reap w) (replicate n EvReap)).
  intros id. destruct (reap_retrieve w id Hw) as [Heq|[Ho Hd]]; destruct (Hs id) as [->|[Ho' ->]]; auto.
  right. split; [|done]. destruct Ho' as [Hp Hh]. unfold orphaned, holders in *.
  rewrite reap_live in Hh. by rewrite Heq in Hp.
Qed.
End Reaper.

(** C36. No request is stuck: in every reachable state, once the reaper has handled
    its messages, an entry is pending only while a permit for it is alive; every
    orphaned entry has become a failure with the reason of abandonment, and all
    other entries are as they were. *)
Theorem reaper_resolves {RequestId T : Type} `{Countable RequestId} (w : World (RequestId := RequestId) (T := T)) :
  reachable w ->
  let w' := reap_all w in
  reaper w' = [] /\
  (forall id, retrieve (store w') id = Some Pending -> id ∈ holders w') /\
  (forall id, orphaned w id -> retrieve (store w') id = Some (Done (inr abandoned))) /\
  (forall id, ~ orphaned w id -> retrieve (store w') id = retrieve (store w) id).
Proof.
  intros Hw%reachable_wf w'. destruct (reap_rounds (length (reaper w)) w Hw) as (Hl & Hr & Hs).
  fold (reap_all w) in Hl, Hr, Hs. fold w' in Hl, Hr, Hs. rewrite drop_all in Hr.
  assert (forall id, retrieve (store w') id = Some Pending -> id ∈ holders w') as Hp.
  { intros id Hid. assert (world_wf w') as Hw' by (by apply run_wf).
    destruct (wf_orphans w' Hw' id) as [|Hin]; [by rewrite retrieve_status, Hid|done|].
    rewrite Hr in Hin. set_solver. }
  split; [done|]. split; [done|]. split.
  - intros id [Hid Hh]. destruct (Hs id) as [Heq|[_ ->]]; [|done]. rewrite Hid in Heq.
    apply Hp in Heq. destruct Hh. unfold holders in *. by rewrite <- Hl.
  - intros id Hid. destruct (Hs id) as [|[Ho _]]; [done|]. by destruct Hid.
Qed.

Lemma reaper_resolves_witness :
  let w := run (world_new (store_new 2 1) 0) [EvInsert 5 "op"; EvDrop 0] in
  retrieve (store w) 5 = Some Pending /\ retrieve (store (reap_all w)) 5 = Some (Done (T := nat) (inr abandoned)).
Proof.
  pose (w := run (RequestId := nat) (T := nat) (world_new (store_new 2 1) 0) [EvInsert 5 "op"; EvDrop 0]).
  destruct (reaper_resolves w) as (_ & _ & Ho & _).
  { exists (world_new (store_new 2 1) 0), [EvInsert 5 "op"; EvDrop 0]. split; [constructor|reflexivity]. }
  split; [reflexivity|]. apply Ho. split; [reflexivity|]. vm_compute. intros Hin. inversion Hin.
Defined.

(** ** Insertion and eviction *)

Section Insertion.
Context {RequestId : Type} `{Countable RequestId} {T : Type}.
Local Notation World := (World (RequestId := RequestId) (T := T)).
Local Notation Store := (MetaStore RequestId T).
Implicit Types (w : World) (id : RequestId).

Lemma position_split (p : RequestId -> bool) l :
  match position p l with
  | Some pos => exists l1 x l2, l = l1 ++ x :: l2 /\ length l1 = pos /\ p x = true /\
      forall y, y ∈ l1 -> p y = false
  | None => forall y, y ∈ l -> p y = false
  end.
Proof.
  induction l as [|x l IH]; simpl; [set_solver|]. destruct (p x) eqn:Hp.
  - exists [], x, l. set_solver.
  - destruct (position p l) as [pos|]; simpl.
    + destruct IH as (l1 & y & l2 & -> & <- & Hy & Hl1). exists (x :: l1), y, l2. set_solver.
    + set_solver.
Qed.

(** In the queue, what cannot be evicted is held. *)
Lemma evictable_false w id : world_wf w -> id ∈ complete_queue (store w) ->
  evictable (live w) (store w) id = false -> id ∈ holders w.
Proof.
  intros Hw Hin%(wf_queue _ (wf_store w Hw)). unfold evictable, entry_status in *.
  destruct (storage (store w) !! id) as [e|] eqn:He; [|done]. simpl in Hin. injection Hin as Hst.
  rewrite bool_decide_true by done. simpl. intros Hheld%negb_false_iff. by apply (permit_held_iff w id e).
Qed.

(** What [insert] does to a store that is full. *)
Definition evicts w id (s' : Store) : Prop :=
  let s := store w in
  storage_len s = capacity s /\ (min_cache s < queue_len s)%N /\
  exists q1 old q2, complete_queue s = q1 ++ old :: q2 /\ complete_queue s' = q1 ++ q2 /\
    (forall id', id' ∈ q1 -> id' ∈ holders w) /\ old ∉ holders w /\ retrieve s' old = None /\
    forall id', id' <> id -> id' <> old -> retrieve s' id' = retrieve s id'.

(** What [insert] does to a store that has room. *)
Definition puts w id (s' : Store) : Prop :=
  let s := store w in
  (storage_len s < capacity s)%N /\ complete_queue s' = complete_queue s /\
  forall id', id' <> id -> retrieve s' id' = retrieve s id'.

Definition refuses_full w : Prop :=
  let s := store w in
  storage_len s = capacity s /\
  ((queue_len s <= min_cache s)%N \/ forall id, id ∈ complete_queue s -> id ∈ holders w).

Definition insert_spec w id (s' : Store) (r : Res (MetaStoreError RequestId) (Permit RequestId)) : Prop :=
  match r with
  | Ok p => retrieve (store w) id = None /\ permit_id p = id /\ retrieve s' id = Some Pending /\
      (puts w id s' \/ evicts w id s')
  | Err (AlreadyExists id') => id' = id /\ s' = store w /\ retrieve (store w) id <> None
  | Err (CapacityFull id') => id' = id /\ s' = store w /\ retrieve (store w) id = None /\ refuses_full w
  | _ => False
  end.

Lemma insert_meets_spec w id : world_wf w ->
  let (s', r) := insert (live w) (next w) (store w) id in insert_spec w id s' r.
Proof.
  intros Hw. pose proof (wf_capacity _ (wf_store w Hw)) as Hcap. unfold insert, has_existed.
  case_bool_decide as Hex.
  { simpl. split; [done|]. split; [done|]. unfold retrieve. by destruct Hex as [e ->]. }
  apply eq_None_not_Some in Hex.
  assert (retrieve (store w) id = None) as Hnone by (unfold retrieve; by rewrite Hex).
  destruct (N.leb_spec (capacity (store w)) (storage_len (store w))) as [Hfull|Hlt].
  2:{ simpl. unfold puts, retrieve. simpl. rewrite lookup_insert_eq. repeat (split; [done|]).
      left. split; [done|]. split; [done|]. intros id' Hne. by simplify_map_eq. }
  assert (storage_len (store w) = capacity (store w)) as Heq by lia.
  unfold evict. destruct (N.leb_spec (queue_len (store w)) (min_cache (store w))) as [Hmin|Hmin].
  { simpl. unfold refuses_full. split_and!; auto. }
  pose proof (position_split (evictable (live w) (store w)) (complete_queue (store w))) as Hpos.
  destruct (position _ _) as [pos|].
  2:{ simpl. unfold refuses_full. split_and!; auto. right. intros id' Hin. apply evictable_false; auto. }
  destruct Hpos as (q1 & old & q2 & Hq & Hlen & (e & He & _ & Hfree)%evictable_true & Hq1).
  assert (complete_queue (store w) !! pos = Some old) as -> by (rewrite Hq, <- Hlen; by apply list_lookup_middle).
  rewrite He. simpl. unfold retrieve at 2. simpl. rewrite lookup_insert_eq. split_and!; try done.
  right. unfold evicts. split_and!; [done..|]. exists q1, old, q2. simpl.
  assert (old <> id) by (intros ->; congruence).
  split_and!; [done|by rewrite Hq, <- Hlen, delete_middle| | | |].
  - intros id' Hin. apply evictable_false; auto. rewrite Hq. set_solver.
  - by apply (permit_free_iff w old e).
  - unfold retrieve. simpl. by simplify_map_eq.
  - intros id' Hne Hne'. unfold retrieve. simpl. by simplify_map_eq.
Qed.
End Insertion.

(** C37. Insertion, on every branch, in every reachable state.  A request that is
    already there, in whatever state, is refused.  Below the capacity the entry is
    added and nothing else changes.  At the capacity it is added in place of the
    oldest completed request that no permit is held for, and only when more than
    [min_cache] requests are completed; otherwise the store is unchanged and the
    request refused as full.  The two internal errors never occur. *)
Theorem insert_contract {RequestId T : Type} `{Countable RequestId} (w : World (RequestId := RequestId) (T := T))
    (id : RequestId) :
  reachable w ->
  let (s', r) := insert (live w) (next w) (store w) id in insert_spec w id s' r.
Proof. intros Hw%reachable_wf. by apply insert_meets_spec. Qed.

Lemma insert_contract_witness :
  let w := run (world_new (store_new 2 0) 0)
    [EvInsert 5 "op"; EvInsert 6 "op"; EvUpdate 0 (inl 7); EvUpdate 0 (inl 8)] in
  let (s', r) := insert (RequestId := nat) (T := nat) (live w) (next w) (store w) 9 in insert_spec w 9 s' r.
Proof.
  apply insert_contract.
  exists (world_new (store_new 2 0) 0), [EvInsert 5 "op"; EvInsert 6 "op"; EvUpdate 0 (inl 7); EvUpdate 0 (inl 8)].
  split; [constructor|reflexivity].
Defined.

(** The comment on [insert] promises that there are never more than
    [capacity - min_cache] requests in processing.  A store of capacity two that
    keeps one completed request accepts two requests at once. *)
Theorem processing_exceeds_promise :
  let w := run (RequestId := nat) (T := nat) (world_new (store_new 2 1) 0) [EvInsert 5 "op"; EvInsert 6 "op"] in
  get_processing_count (store w) = 2%N /\ (get_capacity (store w) - min_cache (store w) = 1)%N.
Proof. vm_compute. split; reflexivity. Qed.
